(* ===== verification/_CoqProject ===== *)
-Q . S2P
Prelude.v
External.v
Text.v
Sharding.v
SmartContract.v
NodeOperator.v
NodeOperators.v
Keyspace.v
Settings.v
Migration.v
View.v
Concrete.v
ViewTime.v
ViewInvariant.v
MigrationRun.v
Cluster.v
Contract.v
Evm.v
ContractBits.v
ContractInv.v
Chain.v
ChainRead.v
ChainRuns.v
FakeContract.v
Rpc.v
Throttle.v
RpcServer.v
RpcClient.v
RpcCall.v
StorageApi.v
Coordinator.v
QuorumProofs.v
CoordinatorProofs.v
RepairProofs.v
ReconcileProofs.v
Replica.v
ClientLib.v
ClientProofs.v
Manager.v
ManagerProofs.v
RocksContext.v
RocksKeys.v
RocksDb.v
RocksStorage.v
RocksProofs.v
RocksToy.v
RocksScan.v
RocksReader.v
DbConfig.v
Database.v
DatabaseProofs.v
DatabaseTransfer.v
FakeStorage.v
RpcStorage.v
ClusterApi.v
ClusterTask.v
Metrics.v
DbMetrics.v
Cli.v
CliText.v
Node.v
