(* ===== verification/Prelude.v ===== *)
(** * WCN: a verification development

    WCN is a replicated key-value store run by independent node operators.  A
    smart contract holds the membership (operators, keyspace, migrations,
    settings); every node keeps a view of it, fed by the contract's events.
    Keys are hashed onto 65536 shards; each shard has five replicas, chosen by
    rendezvous hashing.  A client talks to a coordinator, which sends every
    operation to the replicas of its key and answers with what a majority says;
    a replica checks the keyspace version of the operation and forwards it to
    its database.  When the keyspace changes, writes go to the old and the new
    replicas while the new ones pull the data.  All of them talk over QUIC streams:
    a node serves its APIs to clients and to other nodes, which it tells apart by
    their peer ids.

    ** Parts and files

    - [Prelude]: outcomes of Rust code ([res]: [Ok], [Err], [Panic]), machine
      words ([fits], [wrap]), big-endian bytes, the tactics [mon_inv] and
      [panic_inv], the hint database [wcn].
    - [External]: the crates outside the repository as classes of operations
      with separate classes of laws: peer ids, FF1, postcard; toy instances show
      that the laws can hold.  [Text]: the functions of Rust on strings, numbers
      and IPv4 addresses that the sources use.
    - [Sharding]: src/crates/sharding.  Shards and their key ranges; the
      construction of the replica sets, with the queue that is rescored and
      sorted in place, proved equal to rendezvous hashing.
    - [SmartContract], [NodeOperator], [NodeOperators], [Keyspace], [Settings],
      [Migration], [View]: src/crates/cluster/src, one file per source file.
      Records are the structs, inductive types the enums, one definition per
      method; guards are the early returns.  [View] has the [apply] method of
      every event.
    - [Concrete]: a cluster of six operators, for witnesses.
    - [ViewTime]: which keyspace versions are accepted when, around the start,
      the end and the abort of a migration, with clocks that are not in step.
    - [ViewInvariant]: [view_wf] holds of every view decoded from the chain and
      is kept by every event the contract can emit ([event_admissible]); in such
      a view the replica-set queries do not panic.
    - [MigrationRun]: whole migrations as sequences of events.
    - [Cluster]: the operations of src/crates/cluster/src/lib.rs with their
      guards, and the task that applies events (task.rs).
    - [Contract]: src/contracts/src/Cluster.sol, one definition per function,
      with reverts as errors and checked arithmetic as panics.  [Evm]:
      src/crates/cluster/src/smart_contract/evm.rs, the conversions, events,
      calls and errors of the binding.  [ContractBits], [ContractInv], [Chain],
      [ChainRead], [ChainRuns]: bitmasks as sets, the invariant of the contract,
      and the relation [follows] between a view and the contract over runs.
      [FakeContract]: src/crates/cluster/src/smart_contract/testing.rs, the contract
      in memory that the tests use, with its registry and the lock that a panic
      poisons.
    - [Rpc], [Throttle], [RpcServer], [RpcClient], [RpcCall]: src/crates/rpc.  The
      handshake and the routing to APIs; bandwidth limiters shared by streams; the
      connection filter and the limits of a server; connections of a client and
      the task that reconnects them; calls as frames of messages on a stream.  What
      a QUIC connection does is an argument; streams are lists of bytes or frames;
      limiters that are shared live in a heap.
    - [StorageApi]: operations, outputs, errors and their wire codes
      (src/crates/storage_api).
    - [Coordinator], [QuorumProofs], [CoordinatorProofs], [RepairProofs],
      [ReconcileProofs]: src/crates/replication/src/coordinator.  The merged
      stream of answers is a list in order of arrival; the theorems hold for
      every order.
    - [Replica]: src/crates/replication/src/replica and the RPC layer between
      coordinator and replica; the composition of coordinator, RPC and replicas.
    - [Manager], [ManagerProofs]: src/crates/migration/src/manager, the task
      that pulls the data of a node operator.
    - [ClientLib], [ClientProofs]: src/crates/client.  What the network does
      during an attempt is an argument; the state is the load-balancing counters.
    - [RocksContext]: the merge operator and the compaction filter of
      src/crates/rocks.
    - [RocksKeys], [RocksDb], [RocksStorage]: the keys, the backend (reader
      threads, batches) and the string and map operations of src/crates/rocks.
      RocksDB is a class of calls with a class of laws.  [RocksProofs],
      [RocksScan]: the tables as an abstract store, and iteration over it;
      [RocksToy]: an instance of the laws.  [RocksReader]:
      src/crates/rocks/src/db/reader.rs, the reader with its worker threads and
      their bounded queues as a step relation, interleaved with calls and writes.
    - [DbConfig]: src/crates/db/src/config.rs and the builder of
      src/crates/rocks/src/db.rs, from the environment to the open database.
      [DbMetrics]: src/crates/rocks/src/db/statistics.rs and
      src/crates/db/src/metrics.rs, the statistics of RocksDB and their export.
    - [Database]: src/crates/db/src/server.rs.  [DatabaseProofs]: refinement of
      the abstract store, paging, types of responses.  [DatabaseTransfer]: moving
      key ranges between databases, separation of keys.  [FakeStorage]:
      src/crates/storage_api/src/testing.rs, the storage in memory that the tests
      use.
    - [RpcStorage]: src/crates/storage_api/src/rpc, both ends of every storage RPC
      and of the data streams.  [ClusterApi]: src/crates/cluster_api, the view and
      the events of the contract over RPC, and the contract of the client library
      on top of it.
    - [ClusterTask]: [Cluster::new] and the task of
      src/crates/cluster/src/task.rs as a state machine, interleaved with the calls
      of a contract; clients that read the contract through nodes.
    - [Cli]: src/crates/operator_cli and src/crates/admin_cli, the commands of the
      command line tools that change the cluster, from the view to the call.
      [CliText]: the arguments of the tools that are texts of nodes, addresses and
      identifiers, the printing of nodes, and the texts of namespaces
      (src/crates/storage_api/src/lib.rs).
    - [Metrics]: src/crates/metrics_api and src/crates/metrics, the metrics API,
      its providers and the aggregator.  [Node]: src/crates/node/src/lib.rs and the
      servers of src/crates/db/src/lib.rs, which put the parts together.

    ** What the theorems show

    - Placement: [sharding_new_is_rendezvous], [sharding_replica_sets_valid],
      [sharding_minimal_movement], [shard_ranges_partition].
    - Membership: views stay valid ([apply_events_invariant],
      [view_from_chain_wf]); the guards of the cluster operations are as strong
      as the checks of the views ([guarded_calls_apply]); the event task stores
      consecutive valid views; operators and settings survive their on-chain
      encodings.
    - The chain: the contract keeps its invariant ([contract_invariant]) and a
      node that reads it and applies its events always shows it
      ([view_follows_contract], which discharges [event_admissible]); keyspaces
      survive the binding ([evm_keyspace_roundtrip]).  An edit made with the
      command line tool is what every such view then shows
      ([operator_command_visible]).
    - The task of a node: every view it stores shows a state the contract had, and
      it catches up ([task_views_follow], [task_catches_up]); the limits of
      migrations are those of the view ([limits_follow_view]); clients that read the
      contract through nodes follow it too ([client_view_follows_contract]).
    - RPC: both ends of a handshake agree ([handshake_exact]) and only the right
      peers get in ([node_access]); a call gives the response of the remote API or
      a transport error ([rpc_execute_exact], [rpc_read_data_exact],
      [metrics_relayed]); limits hold ([bandwidth_bounded], [connection_limits]);
      broken connections come back ([broken_connections_reconnect]); metrics keep
      their samples ([labels_appended]).
    - Migrations: they complete in any order and abort cleanly
      ([migration_completes_in_any_order], [migration_abort_restores]); storage
      operations are not disturbed by them ([storage_operation_skew_tolerant],
      [migration_start_transparent], [migration_end_transparent]); data is pulled
      only after the old version is closed ([data_pull_excludes_old_version]);
      the manager pulls exactly what it has to and reports only what it pulled
      ([transfer_plan_complete], [manager_task_safe]); the pulls carry every
      quorum over to the new replicas ([migration_preserves_quorum]).
    - Replication: the response is exact ([coordinator_response_exact]), also
      end to end ([replicated_operation_exact]); reads after a migration meet the
      quorum of earlier writes ([read_after_migration_sees_write]); repair and
      reconciliation are exact ([read_repair_exact], [hscan_reconciled],
      [hcard_reconciled]).
    - Storage: databases with the same writes and deletes hold the same record
      ([merge_converges], [partial_merge_sound], [import_lww]).
    - Database: the server refines an abstract store ([database_refines_store]),
      paging ends and is complete ([paging_terminates_complete]), responses have
      the expected type whatever RocksDB does ([database_response_typed]), key
      ranges move exactly and losses are detected ([transfer_exact],
      [write_data_detects_loss]), keys do not interfere ([keys_isolated],
      [entry_key_roundtrip], [key_parsing_exact]).  The reader in front of it answers
      every read with what the database held since the call
      ([reader_linearizable], [reader_answers_all], [read_refines_backend]); the
      database starts as configured ([storage_starts_as_configured]) and its
      statistics are read exactly ([statistics_roundtrip]).
    - Client: retries, node selection, encryption and bootstrap
      ([client_retries_exact], [client_uses_connected_node],
      [client_encryption_roundtrip], [fetch_cluster_view_exact]).
    - Texts: what the owner's tool prints of a node can be given back to it, and
      namespaces are read from exactly their texts ([texts_read_exactly]).
    - Fakes: the storage and the contract of the tests stand for the real ones where
      the tests stay inside [fake_storage_faithful], [fake_subscriber_follows] and
      [fake_contract_in_sync].
    - Where the code does not do what it means to: the first sweep of the load
      balancer misses an operator ([find_next_operator_fresh_misses]), a partial
      merge can bring a stale value back ([partial_merge_stale_overwrite]),
      compaction drops the marks of deleted records
      ([tombstone_not_lingering]), a shutdown is honoured late
      ([shutdown_delayed]), errors of iterators are lost
      ([iterator_errors_dropped]), a client gives up while connected
      ([retry_gives_up_while_connected]), a maintenance can start during a
      migration ([maintenance_during_migration_rejected]), a completed migration
      can read back as aborted ([completed_migration_reads_aborted]), an event at
      the wrong moment stops the event task for a minute ([subscription_race]), a
      limit switched on late stalls a stream ([limit_enabled_late]), the limit per
      address is lost with its cache entry ([per_ip_limit_exceeded]), rejected
      connections are retried too fast ([slow_retry_unused]), the result of a data
      push is not looked at ([rpc_write_data_unacknowledged]), empty braces get a
      comma ([empty_braces_get_comma]), nodes that share an address are taken for
      each other ([shared_address_is_local]), setting an operator removes its
      clients ([set_operator_drops_clients]), totals of RocksDB are added up again at
      every tick ([tickers_counted_again]); the fake storage finds no map to scan
      ([fake_hscan_misses]) and the fake contract shows readers what followers never
      see ([fake_contract_parts]).

    ** Conventions

    Unsigned words are [Z] with [wrap] written out where the code can overflow.
    Time is [Z] nanoseconds in views and the units of the code elsewhere; the
    current time is an argument of the functions that read the clock.  Loops are
    structural recursions over the data they iterate or over the attempts that
    are left; only the client that follows page cursors has fuel, and
    [paging_terminates_complete] gives the amount that is enough.  The
    endless loops of the tasks are step functions with reachability as an
    inductive predicate.  Shared state behind [ArcSwap] and atomics is passed
    explicitly; the load-balancing counters are fields that the operations
    return updated.  Hash maps whose iteration order can be observed are
    parameters that yield some permutation.

    ** What is not modelled

    RocksDB, postcard, serde_json, envy, the AEAD and FF1 ciphers, libp2p peer ids
    and their texts, hexadecimal decoding, floating-point numbers, QUIC connections,
    the framing of streams, the rate limiter of crate governor, ABI decoding, LibBit
    and the ownership library of the contract are parameters.  Sockets, TLS,
    shutdown signals and the joining of tasks, the monitor that reads the operating
    system and the Prometheus server, the definition of arguments (clap) and the
    other output of the command line tools, key generation, the deployment
    transaction, providers and signers of the chain, the exporter of metrics,
    logging, the drop of the reader, the memory gauges of the database, the registry
    of fake storages, the unit tests, and the harness of the integration tests with
    its load simulator are left out: they are input and output, or have no state
    that another part reads.  Calls of the fake contract are taken one after the
    other: between the two halves of a write no other call runs.
*)
From stdpp Require Import prelude gmap sets list sorting.

(** * Outcomes of Rust code

    A Rust function either returns [Ok], returns [Err] or panics ([unwrap] on
    [None], an index out of range, [unreachable!]).  The three are kept apart:
    a theorem that a function does not panic says that [Panic] is not its
    outcome. *)

Inductive res (E A : Type) : Type :=
| Ok (a : A)
| Err (e : E)
| Panic.

Arguments Ok {_ _} _.
Arguments Err {_ _} _.
Arguments Panic {_ _}.

#[export] Instance res_ret E : MRet (res E) := λ A x, Ok x.

#[export] Instance res_bind E : MBind (res E) := λ A B f m,
  match m with
  | Ok a => f a
  | Err e => Err e
  | Panic => Panic
  end.

#[export] Instance res_fmap E : FMap (res E) := λ A B f m,
  match m with
  | Ok a => Ok (f a)
  | Err e => Err e
  | Panic => Panic
  end.

(** [Result::map_err], the conversion the [?] operator applies to an error. *)
Definition map_err {E F A} (f : E → F) (m : res E A) : res F A :=
  match m with
  | Ok a => Ok a
  | Err e => Err (f e)
  | Panic => Panic
  end.

(** [Option::ok_or]. *)
Definition ok_or {E A} (o : option A) (e : E) : res E A :=
  match o with
  | Some a => Ok a
  | None => Err e
  end.

(** [Option::unwrap]. *)
Definition unwrap {E A} (o : option A) : res E A :=
  match o with
  | Some a => Ok a
  | None => Panic
  end.

(** [Result::ok]. *)
Definition res_ok {E A} (m : res E A) : option A :=
  match m with
  | Ok a => Some a
  | _ => None
  end.

Definition is_ok {E A} (m : res E A) : bool :=
  match m with
  | Ok _ => true
  | _ => false
  end.

(** [if !cond { return Err(e) }]. *)
Definition ensure {E} (cond : bool) (e : E) : res E () :=
  if cond then Ok () else Err e.

#[export] Instance res_eq_dec {E A} `{EqDecision E, EqDecision A} :
  EqDecision (res E A).
Proof. solve_decision. Defined.

(** Every fallible traversal of a list: [iter.map(f).collect::<Result<_>>()]. *)
Fixpoint res_map {E A B} (f : A → res E B) (l : list A) : res E (list B) :=
  match l with
  | [] => Ok []
  | x :: l => y ← f x; ys ← res_map f l; Ok (y :: ys)
  end.

(** * Machine words

    An unsigned [w]-bit word is a [Z] in [0, 2^w).  The release profile of the
    workspace has no overflow checks, so arithmetic wraps. *)

Definition fits (w : Z) (z : Z) : Prop := (0 ≤ z < 2 ^ w)%Z.
Definition wrap (w : Z) (z : Z) : Z := (z mod 2 ^ w)%Z.

#[export] Instance fits_dec w z : Decision (fits w z).
Proof. unfold fits. apply _. Defined.

Definition u64_add (a b : Z) : Z := wrap 64 (a + b).
Definition u64_sub (a b : Z) : Z := wrap 64 (a - b).
Definition u64_checked_sub (a b : Z) : option Z :=
  if decide (b ≤ a)%Z then Some (a - b)%Z else None.
Definition u64_checked_add (a b : Z) : option Z :=
  if decide (a + b < 2 ^ 64)%Z then Some (a + b)%Z else None.

(** [u32::try_from(z).unwrap_or(u32::MAX)]. *)
Definition u32_saturate (z : Z) : Z :=
  if decide (z < 2 ^ 32)%Z then z else (2 ^ 32 - 1)%Z.

(** [to_be_bytes] of an [n]-byte word and [from_be_bytes]. *)
Fixpoint to_be_bytes (n : nat) (z : Z) : list Z :=
  match n with
  | O => []
  | S n => to_be_bytes n (z / 256) ++ [(z mod 256)%Z]
  end.

Definition from_be_bytes (bs : list Z) : Z :=
  foldl (λ acc b, (acc * 256 + b)%Z) 0%Z bs.

Definition is_byte (b : Z) : Prop := fits 8 b.

(** * Automation *)

Create HintDb wcn.

Lemma bind_Ok {E A B} (m : res E A) (f : A → res E B) b :
  m ≫= f = Ok b ↔ ∃ a, m = Ok a ∧ f a = Ok b.
Proof. destruct m; cbn; naive_solver. Qed.

Lemma bind_Panic {E A B} (m : res E A) (f : A → res E B) :
  m ≫= f = Panic ↔ m = Panic ∨ ∃ a, m = Ok a ∧ f a = Panic.
Proof. destruct m; cbn; naive_solver. Qed.

Lemma map_err_Ok {E F A} (f : E → F) (m : res E A) a :
  map_err f m = Ok a ↔ m = Ok a.
Proof. destruct m; naive_solver. Qed.

Lemma map_err_Panic {E F A} (f : E → F) (m : res E A) :
  map_err f m = Panic ↔ m = Panic.
Proof. destruct m; naive_solver. Qed.

Lemma ok_or_Ok {E A} (o : option A) (e : E) a : ok_or o e = Ok a ↔ o = Some a.
Proof. destruct o; naive_solver. Qed.

Lemma ok_or_Panic {E A} (o : option A) (e : E) : ok_or o e ≠ Panic.
Proof. by destruct o. Qed.

Lemma unwrap_Ok {E A} (o : option A) a : @unwrap E A o = Ok a ↔ o = Some a.
Proof. destruct o; naive_solver. Qed.

Lemma ensure_Ok {E} (c : bool) (e : E) u : ensure c e = Ok u ↔ c = true.
Proof. destruct c, u; naive_solver. Qed.

Lemma Ok_inj {E A} (a b : A) : @Ok E A a = Ok b → a = b.
Proof. congruence. Qed.

(** [mon_inv] takes apart every hypothesis that says a monadic computation
    returned [Ok]. *)
Ltac mon_inv_step :=
  match goal with
  | H : _ ≫= _ = Ok _ |- _ =>
      let a := fresh "a" in let H1 := fresh "Hm" in
      apply bind_Ok in H as (a & H1 & H)
  | H : map_err _ _ = Ok _ |- _ => apply map_err_Ok in H
  | H : ok_or _ _ = Ok _ |- _ => apply ok_or_Ok in H
  | H : unwrap _ = Ok _ |- _ => apply unwrap_Ok in H
  | H : ensure _ _ = Ok _ |- _ => apply ensure_Ok in H
  | H : Ok _ = Ok _ |- _ => apply Ok_inj in H
  | H : Err _ = Ok _ |- _ => discriminate H
  | H : Panic = Ok _ |- _ => discriminate H
  | x : () |- _ => destruct x
  end.

Ltac mon_inv := repeat (mon_inv_step; simplify_eq/=).

(** [panic_inv] takes apart a hypothesis that says a monadic computation
    panicked; it leaves one goal per step that may be to blame. *)
Ltac panic_inv_step :=
  match goal with
  | H : _ ≫= _ = Panic |- _ =>
      let a := fresh "a" in let Hm := fresh "Hm" in
      apply bind_Panic in H as [H|(a & Hm & H)]
  | H : map_err _ _ = Panic |- _ => apply map_err_Panic in H
  | H : ok_or _ _ = Panic |- _ => exfalso; exact (ok_or_Panic _ _ H)
  | H : Ok _ = Panic |- _ => discriminate H
  | H : Err _ = Panic |- _ => discriminate H
  end.

Ltac panic_inv := repeat panic_inv_step.

(** * Words and bytes: lemmas *)

Section bytes.
Local Open Scope Z_scope.

Lemma wrap_fits w z : 0 ≤ w → fits w (wrap w z).
Proof. intros ?. apply Z.mod_pos_bound. lia. Qed.

Lemma wrap_small w z : fits w z → wrap w z = z.
Proof. apply Z.mod_small. Qed.

Lemma length_to_be_bytes n z : length (to_be_bytes n z) = n.
Proof.
  revert z; induction n as [|n IH]; intros z; cbn; [done|].
  rewrite length_app, IH; cbn; lia.
Qed.

Lemma to_be_bytes_byte n z : Forall is_byte (to_be_bytes n z).
Proof.
  revert z; induction n as [|n IH]; intros z; cbn; [done|].
  apply Forall_app; split; [done|]. repeat constructor.
  all: pose proof (Z.mod_pos_bound z 256); lia.
Qed.

Lemma from_be_bytes_snoc bs b :
  from_be_bytes (bs ++ [b]) = from_be_bytes bs * 256 + b.
Proof. unfold from_be_bytes. by rewrite foldl_app. Qed.

Lemma from_to_be_bytes_mod n z :
  from_be_bytes (to_be_bytes n z) = z mod 256 ^ Z.of_nat n.
Proof.
  revert z; induction n as [|n IH]; intros z; cbn.
  { by rewrite Z.mod_1_r. }
  rewrite from_be_bytes_snoc, IH.
  replace (Z.of_nat (S n)) with (Z.of_nat n + 1) by lia.
  rewrite Z.pow_add_r, Z.pow_1_r by lia.
  rewrite (Z.mul_comm (256 ^ Z.of_nat n) 256).
  rewrite (Z.rem_mul_r z 256 (256 ^ Z.of_nat n)) by lia. lia.
Qed.

Lemma from_to_be_bytes n z :
  0 ≤ z < 256 ^ Z.of_nat n → from_be_bytes (to_be_bytes n z) = z.
Proof. intros ?. rewrite from_to_be_bytes_mod. by apply Z.mod_small. Qed.

Lemma from_be_bytes_bound bs :
  Forall is_byte bs → 0 ≤ from_be_bytes bs < 256 ^ Z.of_nat (length bs).
Proof.
  induction bs as [|b bs IH] using rev_ind; intros Hbs.
  { done. }
  apply Forall_app in Hbs as [Hbs Hb]. rewrite Forall_singleton in Hb.
  specialize (IH Hbs). rewrite from_be_bytes_snoc, length_app; cbn.
  rewrite Nat2Z.inj_add, Z.pow_add_r by lia.
  change (256 ^ Z.of_nat 1) with 256.
  unfold is_byte, fits in Hb. change (2 ^ 8) with 256 in Hb. lia.
Qed.

Lemma to_from_be_bytes bs :
  Forall is_byte bs → to_be_bytes (length bs) (from_be_bytes bs) = bs.
Proof.
  induction bs as [|b bs IH] using rev_ind; intros Hbs; [done|].
  apply Forall_app in Hbs as [Hbs Hb]. rewrite Forall_singleton in Hb.
  unfold is_byte, fits in Hb. change (2 ^ 8) with 256 in Hb.
  rewrite length_app, Nat.add_comm; cbn.
  rewrite from_be_bytes_snoc.
  rewrite Z.div_add_l, (Z.div_small b) by lia.
  rewrite Z.add_0_r, IH by done. do 2 f_equal.
  rewrite (Z.add_comm _ b), Z.mod_add, Z.mod_small by lia. done.
Qed.

Lemma take_to_be_bytes n k z :
  (k ≤ n)%nat →
  take k (to_be_bytes n z) = to_be_bytes k (z / 256 ^ Z.of_nat (n - k)).
Proof.
  revert z; induction n as [|n IH]; intros z Hk; cbn.
  { by replace k with O by lia. }
  destruct (decide (k = S n)) as [->|Hne].
  - rewrite Nat.sub_diag, Z.div_1_r. apply take_ge.
    by rewrite (length_to_be_bytes (S n)).
  - rewrite take_app_le by (rewrite length_to_be_bytes; lia).
    rewrite IH by lia. f_equal.
    rewrite Z.div_div by lia. f_equal.
    replace (Z.of_nat (S n - k)) with (1 + Z.of_nat (n - k)) by lia.
    rewrite Z.pow_add_r, Z.pow_1_r by lia. lia.
Qed.
End bytes.

(** [Ord] of the machine words. *)
#[export] Instance Z_le_total_order : TotalOrder Z.le.
Proof.
split; [apply _|]. intros x y. unfold strict.
destruct (Z.lt_trichotomy x y) as [?|[->|?]]; [left|right; left|right; right]; lia.
Qed.

(** [Ord] of [Vec<u8>]: lexicographic. *)
Fixpoint bytes_leb (a b : list Z) : bool :=
  match a, b with
  | [], _ => true
  | _ :: _, [] => false
  | x :: a, y :: b => if decide (x < y)%Z then true else if decide (x = y) then bytes_leb a b else false
  end.
Definition bytes_le (a b : list Z) : Prop := bytes_leb a b = true.

#[export] Instance bytes_le_dec : RelDecision bytes_le.
Proof. intros a b. unfold bytes_le. apply _. Defined.

#[export] Instance bytes_le_total : Total bytes_le.
Proof.
  unfold bytes_le. intros a. induction a as [|x a IH]; intros [|y b]; cbn; auto.
  repeat case_decide; try lia; auto.
Qed.

#[export] Instance bytes_le_trans : Transitive bytes_le.
Proof.
  unfold bytes_le. intros a. induction a as [|x a IH]; intros [|y b] [|z c]; cbn; try done.
  repeat case_decide; try lia; try done. subst. apply IH.
Qed.

#[export] Instance bytes_le_antisym : AntiSymm (=) bytes_le.
Proof.
  unfold bytes_le. intros a. induction a as [|x a IH]; intros [|y b]; cbn; try done.
  repeat case_decide; try lia; try done. subst. intros ??. f_equal. by apply IH.
Qed.

(** Strictly before. *)
Definition bytes_lt (a b : list Z) : Prop := ¬ bytes_le b a.

#[export] Instance bytes_lt_dec : RelDecision bytes_lt.
Proof. intros a b. unfold bytes_lt. apply _. Defined.

Section byte_order.
Implicit Types a b c : list Z.

Lemma bytes_le_refl a : bytes_le a a.
Proof. destruct (total bytes_le a a); done. Qed.

Lemma bytes_lt_le a b : bytes_lt a b → bytes_le a b.
Proof. intros Hn. destruct (total bytes_le a b); done. Qed.

Lemma bytes_le_cons x y a b :
  bytes_le (x :: a) (y :: b) ↔ (x < y)%Z ∨ x = y ∧ bytes_le a b.
Proof.
  unfold bytes_le; cbn. case_decide; [split; auto|].
  case_decide; split; [auto|intros [?|[??]]; [lia|done]|done|intros [?|[??]]; [lia|done]].
Qed.

(** Strings of the same length compare like the strings that start with them,
    unless they are equal. *)
Lemma bytes_le_app a a' b b' :
  length a = length a' →
  bytes_le (a ++ b) (a' ++ b') ↔ (bytes_le a a' ∧ a ≠ a') ∨ (a = a' ∧ bytes_le b b').
Proof.
  revert a'; induction a as [|x a IH]; intros [|y a'] [=]; cbn.
  - naive_solver.
  - rewrite !bytes_le_cons, IH by done.
    assert (x :: a = y :: a' ↔ x = y ∧ a = a') as Heq by (split; [by intros [=]|by intros [-> ->]]).
    rewrite Heq. destruct (decide (x = y)), (decide (a = a')); tauto || (split; intros; lia || intuition lia).
Qed.

(** Big-endian words compare like the numbers. *)
Lemma bytes_le_to_be n x y :
  (0 ≤ x < 256 ^ Z.of_nat n)%Z → (0 ≤ y < 256 ^ Z.of_nat n)%Z →
  bytes_le (to_be_bytes n x) (to_be_bytes n y) ↔ (x ≤ y)%Z.
Proof.
  revert x y; induction n as [|n IH]; intros x y Hx Hy.
  { change (256 ^ Z.of_nat 0)%Z with 1%Z in *. assert (x = 0 ∧ y = 0)%Z as [-> ->] by lia.
    split; [lia|done]. }
  rewrite Nat2Z.inj_succ, Z.pow_succ_r in Hx, Hy by lia. cbn [to_be_bytes].
  rewrite bytes_le_app by by rewrite !length_to_be_bytes.
  assert (∀ z, 0 ≤ z < 256 * 256 ^ Z.of_nat n → 0 ≤ z / 256 < 256 ^ Z.of_nat n)%Z as Hdiv.
  { intros z Hz. split; [apply Z.div_pos; lia|apply Z.div_lt_upper_bound; lia]. }
  rewrite IH by auto. rewrite bytes_le_cons.
  assert (to_be_bytes n (x / 256) = to_be_bytes n (y / 256) ↔ (x / 256 = y / 256)%Z) as Heq.
  { split; [|by intros ->]. intros Heq%(f_equal from_be_bytes).
    by rewrite !from_to_be_bytes in Heq by auto. }
  rewrite Heq. assert (bytes_le [] []) as Hnil by done.
  pose proof (Z.div_mod x 256). pose proof (Z.div_mod y 256).
  pose proof (Z.mod_pos_bound x 256). pose proof (Z.mod_pos_bound y 256).
  set (qx := (x / 256)%Z) in *. set (qy := (y / 256)%Z) in *.
  set (rx := (x mod 256)%Z) in *. set (ry := (y mod 256)%Z) in *. clearbody qx qy rx ry.
  split; [intros [[??]|[? [?|[??]]]]; lia|]. intros Hle.
  destruct (decide (qx = qy)); [|left; split; lia]. right; split; [done|].
  destruct (decide (rx = ry)); [by right|left; lia].
Qed.
End byte_order.

(** * Filters *)

Lemma filter_fmap_comm {A B} (f : A → B) (P : B → Prop) `{!∀ x, Decision (P x)} (l : list A) :
  filter P (f <$> l) = f <$> filter (λ x, P (f x)) l.
Proof.
  induction l as [|x l IH]; [done|]. rewrite fmap_cons, !filter_cons, IH. cbn.
  by repeat case_decide.
Qed.

Lemma filter_none {A} (P : A → Prop) `{!∀ x, Decision (P x)} (l : list A) :
  (∀ x, x ∈ l → ¬ P x) → filter P l = [].
Proof.
  induction l as [|x l IH]; intros Hl; [done|].
  rewrite filter_cons_False by (apply Hl; left). apply IH. intros y Hy. apply Hl. by right.
Qed.

(** * Sorted lists *)

Lemma StronglySorted_filter {A} (R : relation A) (P : A → Prop) `{!∀ x, Decision (P x)} l :
  StronglySorted R l → StronglySorted R (filter P l).
Proof.
  induction 1 as [|x l Hs IH Hall]; [constructor|].
  rewrite filter_cons. case_decide; [|done]. constructor; [done|].
  apply Forall_forall. intros y [_ Hy]%list_elem_of_filter. by eapply Forall_forall in Hall.
Qed.

Lemma StronglySorted_fmap {A B} (R : relation A) (R' : relation B) (f : A → B) l :
  (∀ x y, R x y → R' (f x) (f y)) → StronglySorted R l → StronglySorted R' (f <$> l).
Proof.
  intros Hf. induction 1 as [|x l Hs IH Hall]; cbn; constructor; [done|].
  apply Forall_fmap. eapply Forall_impl; [done|]. intros y. apply Hf.
Qed.

#[export] Hint Resolve wrap_fits to_be_bytes_byte : wcn.
#[export] Hint Rewrite length_to_be_bytes from_be_bytes_snoc : wcn.
