(* ===== verification/External.v ===== *)
(** External: interfaces of the third-party crates the cluster code calls.

    - [PeerIds]: [libp2p_identity::PeerId], an opaque identifier with equality,
      a digest, and fresh random values;
    - [Ff1]: the format-preserving cipher of crate [fpe];
    - [Postcard]: the serializer of crate [postcard] for one type.

    Each interface comes with a class of the laws its documentation states.
    Definitions take only the operations, theorems also take the laws.  The end
    of the file instantiates all of them with small concrete functions. *)
From S2P Require Import Prelude.
From stdpp Require Import prelude gmap sets list strings countable.

(** * [libp2p_identity::PeerId] *)
Class PeerIds := {
  PeerId : Type;
  peer_id_eq_dec :: EqDecision PeerId;
  (** [Multihash::digest] of the identifier. *)
  peer_id_digest : PeerId → list Z;
  (** The [PeerId::random]s drawn for a node operator. *)
  peer_id_random : Z → nat → PeerId;
}.

(** * [fpe::ff1::FF1<Aes256>] with radix 256

    Arguments: key, tweak, numeral string. *)
Class Ff1 := {
  ff1_encrypt : list Z → list Z → list Z → option (list Z);
  ff1_decrypt : list Z → list Z → list Z → option (list Z);
}.

(** Numerals below the radix; FF1 asks for [256^len >= 1_000_000]. *)
Definition ff1_numerals (xs : list Z) : Prop := Forall is_byte xs ∧ 3 ≤ length xs.

(** The cipher is a permutation of the numeral strings of each length. *)
Class Ff1Laws `{Ff1} := {
  ff1_encrypt_decrypt k t xs : ff1_numerals xs →
    ∃ ys, ff1_encrypt k t xs = Some ys ∧ length ys = length xs ∧
          Forall is_byte ys ∧ ff1_decrypt k t ys = Some xs;
  ff1_decrypt_total k t ys : ff1_numerals ys →
    ∃ xs, ff1_decrypt k t ys = Some xs ∧ length xs = length ys ∧ Forall is_byte xs;
}.

(** * [postcard] *)
Class Postcard (T : Type) := {
  (** [postcard::experimental::serialized_size]. *)
  postcard_serialized_size : T → res string nat;
  (** [postcard::to_slice]: the buffer after the call. *)
  postcard_to_slice : T → list Z → res string (list Z);
  (** [postcard::from_bytes]. *)
  postcard_from_bytes : list Z → res string T;
}.

(** A value that can be sized can be written into a buffer of that size, and
    reading the buffer gives the value back.  No call panics. *)
Class PostcardLaws T `{Postcard T} := {
  postcard_size_ok v : ∃ n, postcard_serialized_size v = Ok n;
  postcard_roundtrip v n buf :
    postcard_serialized_size v = Ok n → length buf = n →
    ∃ bytes, postcard_to_slice v buf = Ok bytes ∧ length bytes = n ∧
             postcard_from_bytes bytes = Ok v;
  postcard_from_bytes_safe bytes : postcard_from_bytes bytes ≠ Panic;
}.

(** [postcard::to_io] into a growing buffer. *)
Class PostcardIo (T : Type) := postcard_to_io : T → res string (list Z).

Class PostcardIoLaws T `{Postcard T, PostcardIo T} := {
  postcard_io_size_ok v : ∃ n, postcard_serialized_size v = Ok n;
  postcard_io_roundtrip v : ∃ bytes, postcard_to_io v = Ok bytes ∧ postcard_from_bytes bytes = Ok v;
  postcard_io_from_bytes_safe bytes : postcard_from_bytes bytes ≠ Panic;
}.

(** The pattern of every on-chain encoder of the crate: a buffer of zeros one
    byte longer than the value, the schema version in byte 0, the value in the
    rest. *)
Definition versioned_encode `{Postcard T} {E} (codec : string → E)
    (version : Z) (v : T) : res E (list Z) :=
  size ← map_err codec (postcard_serialized_size v);
  let buf := <[0 := version]> (replicate (size + 1) 0%Z) in
  tail ← map_err codec (postcard_to_slice v (drop 1 buf));
  Ok (take 1 buf ++ tail).

Lemma versioned_encode_Ok `{PostcardLaws T} {E} (codec : string → E) ver v :
  ∃ bytes, versioned_encode codec ver v = Ok (ver :: bytes) ∧
           postcard_from_bytes bytes = Ok v.
Proof.
  destruct (postcard_size_ok v) as [n Hn].
  set (buf := replicate n 0%Z).
  destruct (postcard_roundtrip v n buf Hn) as (bytes & Hw & _ & Hr).
  { apply length_replicate. }
  exists bytes. split; [|done]. unfold versioned_encode. rewrite Hn. cbn.
  rewrite Nat.add_comm. cbn. fold buf. rewrite drop_0, Hw. done.
Qed.

(** * Concrete instances

    Peer ids are numbers; the cipher adds the first byte of the key to every
    numeral; the serializer writes the binary digits of [countable]'s
    encoding, one per byte. *)

Definition toy_peer_ids : PeerIds := {|
  PeerId := Z;
  peer_id_eq_dec := _;
  peer_id_digest p := to_be_bytes 8 p;
  peer_id_random id i := (id * 1000 + Z.of_nat i)%Z;
|}.

Definition toy_shift (k : Z) (xs : list Z) : list Z := (λ x, ((x + k) mod 256)%Z) <$> xs.

Definition toy_ff1 : Ff1 := {|
  ff1_encrypt k _ xs := Some (toy_shift (default 0%Z (head k)) xs);
  ff1_decrypt k _ xs := Some (toy_shift (- default 0%Z (head k)) xs);
|}.

Lemma toy_shift_byte k xs : Forall is_byte (toy_shift k xs).
Proof.
  apply Forall_fmap, Forall_true. intros x. apply Z.mod_pos_bound. lia.
Qed.

Lemma toy_shift_shift k xs : Forall is_byte xs → toy_shift (- k) (toy_shift k xs) = xs.
Proof.
  unfold toy_shift. rewrite <-list_fmap_compose.
  induction 1 as [|x xs Hx _ IH]; cbn; [done|]. rewrite IH. f_equal.
  rewrite Zplus_mod_idemp_l. replace (x + k + - k)%Z with x by lia.
  by apply Z.mod_small.
Qed.

Lemma toy_ff1_laws : @Ff1Laws toy_ff1.
Proof.
  split; intros k t xs [Hb _]; cbn; eexists; (split; [done|]).
  - split; [apply length_fmap|]. split; [apply toy_shift_byte|].
    by rewrite toy_shift_shift.
  - split; [apply length_fmap|apply toy_shift_byte].
Qed.

Fixpoint toy_bits (p : positive) : list Z :=
  match p with
  | xH => []
  | xO p => 0%Z :: toy_bits p
  | xI p => 1%Z :: toy_bits p
  end.

Fixpoint toy_unbits (bs : list Z) : positive :=
  match bs with
  | [] => xH
  | b :: bs => if decide (b = 0%Z) then xO (toy_unbits bs) else xI (toy_unbits bs)
  end.

Lemma toy_unbits_bits p : toy_unbits (toy_bits p) = p.
Proof. induction p as [p IH|p IH|]; cbn; by rewrite ?IH. Qed.

Definition toy_postcard T `{Countable T} : Postcard T := {|
  postcard_serialized_size v := Ok (length (toy_bits (encode v)));
  postcard_to_slice v buf :=
    let bs := toy_bits (encode v) in
    if decide (length bs ≤ length buf) then Ok (bs ++ drop (length bs) buf)
    else Err "SerializeBufferFull";
  postcard_from_bytes bs := ok_or (decode (toy_unbits bs)) "DeserializeBadEncoding";
|}.

Lemma toy_postcard_laws T `{Countable T} : @PostcardLaws T (toy_postcard T).
Proof.
  split; cbn.
  - by eexists.
  - intros v n buf <-%Ok_inj Hlen. rewrite decide_True by lia.
    rewrite drop_ge, app_nil_r by lia. eexists; split_and!; [done|done|].
    by rewrite toy_unbits_bits, decode_encode.
  - intros bs. apply ok_or_Panic.
Qed.

Definition toy_postcard_io T `{Countable T} : PostcardIo T := λ v, Ok (toy_bits (encode v)).

Lemma toy_postcard_io_laws T `{Countable T} :
  @PostcardIoLaws T (toy_postcard T) (toy_postcard_io T).
Proof.
  split; cbn.
  - by eexists.
  - intros v. eexists. split; [done|]. cbn. by rewrite toy_unbits_bits, decode_encode.
  - intros bs. apply ok_or_Panic.
Qed.
