(* ===== verification/Text.v ===== *)
(** Text: what the program uses of the standard library to read and print text:
    [str::split], [str::split_once], [str::lines], [FromStr] and [Display] of
    unsigned integers and of IPv4 addresses.

    Text is a list of code points. *)
From S2P Require Import Prelude.
From stdpp Require Import prelude list.
#[local] Open Scope Z_scope.

(** * Splitting *)

(** [str::split] at a character: always at least one piece. *)
Fixpoint split_from (c : Z) (word l : list Z) : list (list Z) :=
  match l with
  | [] => [reverse word]
  | x :: l => if decide (x = c) then reverse word :: split_from c [] l else split_from c (x :: word) l
  end.
Definition str_split (c : Z) (l : list Z) : list (list Z) := split_from c [] l.

(** [str::split_once]. *)
Fixpoint split_once_from (c : Z) (word l : list Z) : option (list Z * list Z) :=
  match l with
  | [] => None
  | x :: l => if decide (x = c) then Some (reverse word, l) else split_once_from c (x :: word) l
  end.
Definition split_once (c : Z) (l : list Z) : option (list Z * list Z) := split_once_from c [] l.

(** A carriage return before a newline. *)
Definition strip_cr (line : list Z) : list Z :=
  match reverse line with
  | c :: rest => if decide (c = 13) then reverse rest else line
  | [] => line
  end.

(** [str::lines]; nothing after a final newline. *)
Fixpoint str_lines_from (line l : list Z) : list (list Z) :=
  match l with
  | [] => if decide (line = []) then [] else [reverse line]
  | c :: l => if decide (c = 10) then strip_cr (reverse line) :: str_lines_from [] l else str_lines_from (c :: line) l
  end.
Definition str_lines (l : list Z) : list (list Z) := str_lines_from [] l.

Fixpoint join_on (c : Z) (pieces : list (list Z)) : list Z :=
  match pieces with
  | [] => []
  | [p] => p
  | p :: pieces => p ++ c :: join_on c pieces
  end.

(** * Integers *)

Definition digit (c : Z) : option Z := if decide (48 ≤ c ≤ 57) then Some (c - 48) else None.

Fixpoint read_digits (acc : Z) (l : list Z) : option Z :=
  match l with
  | [] => Some acc
  | c :: l => match digit c with Some d => read_digits (acc * 10 + d) l | None => None end
  end.

Definition strip_plus (l : list Z) : list Z :=
  match l with
  | c :: rest => if decide (c = 43) then rest else l
  | [] => l
  end.

(** [FromStr] of the unsigned integer of [w] bits: an optional plus sign, at least
    one digit, no overflow. *)
Definition uint_from_str (w : Z) (l : list Z) : option Z :=
  let l := strip_plus l in
  if decide (l = []) then None
  else
    match read_digits 0 l with
    | Some n => if decide (n < 2 ^ w) then Some n else None
    | None => None
    end.

(** [Display] of an unsigned integer. *)
Fixpoint show_from (fuel : nat) (n : Z) (acc : list Z) : list Z :=
  match fuel with
  | O => acc
  | S fuel =>
      let acc := 48 + n mod 10 :: acc in
      if decide (n < 10) then acc else show_from fuel (n / 10) acc
  end.
Definition show_uint (n : Z) : list Z := show_from (S (Z.to_nat (Z.log2 n))) n [].

(** * IPv4 addresses *)

(** One octet: one to three digits, no leading zero. *)
Definition octet_from_str (l : list Z) : option Z :=
  match l with
  | 48 :: _ :: _ => None
  | _ => if decide (0 < length l ≤ 3)%nat then n ← read_digits 0 l; if decide (n < 256) then Some n else None
         else None
  end.

(** [FromStr for Ipv4Addr]; an address is the number its octets are the big-endian
    digits of. *)
Definition ipv4_from_str (l : list Z) : option Z :=
  match str_split 46 l with
  | [a; b; c; d] =>
      a ← octet_from_str a; b ← octet_from_str b; c ← octet_from_str c; d ← octet_from_str d;
      Some (((a * 256 + b) * 256 + c) * 256 + d)
  | _ => None
  end.

Definition ipv4_octets (ip : Z) : list Z :=
  [ip / 2 ^ 24 mod 256; ip / 2 ^ 16 mod 256; ip / 2 ^ 8 mod 256; ip mod 256].

(** [Display for Ipv4Addr]. *)
Definition show_ipv4 (ip : Z) : list Z := join_on 46 (show_uint <$> ipv4_octets ip).

(** * Lemmas *)

Lemma split_from_app c word p l :
  c ∉ p → split_from c word (p ++ l) = split_from c (reverse p ++ word) l.
Proof.
  revert word; induction p as [|x p IH]; intros word Hp; [done|]. apply not_elem_of_cons in Hp as [Hne Hp].
  cbn [split_from app]. rewrite decide_False by done. rewrite IH by done. by rewrite reverse_cons, <-app_assoc.
Qed.

Lemma split_join c pieces :
  pieces ≠ [] → Forall (λ p, c ∉ p) pieces → str_split c (join_on c pieces) = pieces.
Proof.
  intros Hne Hall. unfold str_split. induction Hall as [|p pieces Hp Hall IH]; [done|].
  destruct pieces as [|p' pieces].
  - cbn [join_on]. rewrite <-(app_nil_r p) at 1. rewrite split_from_app by done. cbn.
    by rewrite app_nil_r, reverse_involutive.
  - change (join_on c (p :: p' :: pieces)) with (p ++ c :: join_on c (p' :: pieces)).
    rewrite split_from_app by done. cbn [split_from]. rewrite decide_True by done.
    rewrite app_nil_r, reverse_involutive. f_equal. by apply IH.
Qed.

Lemma split_from_nonempty c word l : split_from c word l ≠ [].
Proof. revert word; induction l as [|x l IH]; intros word; cbn; [done|]. case_decide; [done|]. apply IH. Qed.

Lemma split_from_join c word l : join_on c (split_from c word l) = reverse word ++ l.
Proof.
  revert word; induction l as [|x l IH]; intros word; cbn [split_from]; [by rewrite app_nil_r|].
  case_decide as Hx; [subst x|].
  - specialize (IH []). destruct (split_from c [] l) as [|q qs] eqn:Hs; [by destruct (split_from_nonempty c [] l)|].
    change (join_on c (reverse word :: q :: qs)) with (reverse word ++ c :: join_on c (q :: qs)). by rewrite IH.
  - rewrite IH, reverse_cons, <-app_assoc. done.
Qed.

Lemma split_once_from_app c word p l :
  c ∉ p → split_once_from c word (p ++ c :: l) = Some (reverse word ++ p, l).
Proof.
  revert word; induction p as [|x p IH]; intros word Hp; cbn [split_once_from app].
  { rewrite decide_True by done. by rewrite app_nil_r. }
  apply not_elem_of_cons in Hp as [Hne Hp]. rewrite decide_False by done. rewrite IH by done.
  by rewrite reverse_cons, <-app_assoc.
Qed.

Lemma split_once_app c p l : c ∉ p → split_once c (p ++ c :: l) = Some (p, l).
Proof. apply split_once_from_app. Qed.

Lemma split_once_from_None c word l : c ∉ l → split_once_from c word l = None.
Proof.
  revert word; induction l as [|x l IH]; intros word Hl; [done|]. apply not_elem_of_cons in Hl as [Hne Hl].
  cbn. rewrite decide_False by done. by apply IH.
Qed.

(** ** Numbers *)

Definition is_digit (c : Z) : Prop := 48 ≤ c ≤ 57.

Lemma show_from_digits fuel n acc : Forall is_digit acc → Forall is_digit (show_from fuel n acc).
Proof.
  revert n acc; induction fuel as [|fuel IH]; intros n acc Hacc; [done|]. cbn [show_from].
  assert (Forall is_digit (48 + n mod 10 :: acc)).
  { constructor; [|done]. unfold is_digit. pose proof (Z.mod_pos_bound n 10). lia. }
  case_decide; [done|]. by apply IH.
Qed.

Lemma show_uint_digits n : Forall is_digit (show_uint n).
Proof. apply show_from_digits. constructor. Qed.

Lemma show_uint_free c n : ¬ is_digit c → c ∉ show_uint n.
Proof. intros Hc Hin. eapply Forall_forall in Hin; [done|apply show_uint_digits]. Qed.

Lemma show_from_read fuel n acc :
  0 ≤ n < 2 ^ Z.of_nat fuel → (0 < fuel)%nat → read_digits 0 (show_from fuel n acc) = read_digits n acc.
Proof.
  revert n acc; induction fuel as [|fuel IH]; intros n acc Hn Hf; [lia|]. cbn [show_from].
  assert (digit (48 + n mod 10) = Some (n mod 10)) as Hd.
  { unfold digit. pose proof (Z.mod_pos_bound n 10). rewrite decide_True by lia. f_equal. lia. }
  case_decide as Hlt.
  - cbn [read_digits]. rewrite Hd, Z.mod_small by lia. done.
  - rewrite Nat2Z.inj_succ, Z.pow_succ_r in Hn by lia.
    assert (n / 10 < 2 ^ Z.of_nat fuel) by (apply Z.div_lt_upper_bound; lia).
    rewrite IH; [|split; [apply Z.div_pos; lia|done]|].
    + cbn [read_digits]. rewrite Hd. f_equal. pose proof (Z.div_mod n 10). lia.
    + destruct fuel; [|lia]. assert (0 < n / 10) by (apply Z.div_str_pos; lia). cbn in *. lia.
Qed.

Lemma show_uint_read n : 0 ≤ n → read_digits 0 (show_uint n) = Some n.
Proof.
  intros Hn. unfold show_uint. rewrite show_from_read; [done| |lia]. split; [done|].
  rewrite Nat2Z.inj_succ, Z2Nat.id by apply Z.log2_nonneg.
  destruct (decide (n = 0)) as [->|]; [done|]. apply Z.log2_spec. lia.
Qed.

Lemma show_from_nonempty fuel n acc : (0 < length acc)%nat → (0 < length (show_from fuel n acc))%nat.
Proof. revert n acc; induction fuel as [|fuel IH]; intros n acc Hacc; [done|]. cbn [show_from]. case_decide; [cbn; lia|]. apply IH. cbn. lia. Qed.

Lemma show_uint_nonempty n : (0 < length (show_uint n))%nat.
Proof. unfold show_uint. cbn [show_from]. case_decide; [cbn; lia|]. apply show_from_nonempty. cbn. lia. Qed.

(** Printed integers are read back. *)
Lemma uint_roundtrip w n : 0 ≤ n < 2 ^ w → uint_from_str w (show_uint n) = Some n.
Proof.
  intros Hn. unfold uint_from_str. pose proof (show_uint_nonempty n) as Hne.
  pose proof (show_uint_read n ltac:(lia)) as Hread.
  assert (strip_plus (show_uint n) = show_uint n) as ->.
  { pose proof (show_uint_digits n) as Hd. unfold strip_plus. destruct Hd as [|c l Hc _]; [done|].
    unfold is_digit in Hc. by rewrite decide_False by lia. }
  rewrite decide_False by (intros Hnil; rewrite Hnil in Hne; cbn in Hne; lia).
  rewrite Hread. by rewrite decide_True by lia.
Qed.

(** ** IPv4 addresses *)

(** Every octet prints as text that is read back. *)
Lemma octets_roundtrip : forallb (λ k, bool_decide (octet_from_str (show_uint (Z.of_nat k)) = Some (Z.of_nat k))) (seq 0 256) = true.
Proof. vm_compute. reflexivity. Qed.

Lemma octet_roundtrip n : 0 ≤ n < 256 → octet_from_str (show_uint n) = Some n.
Proof.
  intros Hn. pose proof octets_roundtrip as Hall. rewrite forallb_forall in Hall.
  specialize (Hall (Z.to_nat n)). rewrite Z2Nat.id in Hall by lia.
  apply bool_decide_eq_true in Hall; [done|]. apply in_seq. lia.
Qed.

Lemma show_ipv4_split ip : str_split 46 (show_ipv4 ip) = show_uint <$> ipv4_octets ip.
Proof.
  apply split_join; [done|]. apply Forall_fmap, Forall_forall. intros n _. apply show_uint_free.
  unfold is_digit. lia.
Qed.

Lemma ipv4_roundtrip ip : fits 32 ip → ipv4_from_str (show_ipv4 ip) = Some ip.
Proof.
  intros Hip. unfold ipv4_from_str. rewrite show_ipv4_split. unfold ipv4_octets.
  cbn [fmap list_fmap]. rewrite !octet_roundtrip by (apply Z.mod_pos_bound; lia). cbn [mbind option_bind].
  f_equal. unfold fits in Hip. change (2 ^ 32) with 4294967296 in Hip.
  change (2 ^ 24) with 16777216. change (2 ^ 16) with 65536. change (2 ^ 8) with 256.
  pose proof (Z.div_mod ip 256). pose proof (Z.mod_pos_bound ip 256).
  replace (ip / 16777216) with (ip / 256 / 256 / 256) by (rewrite !Z.div_div by lia; done).
  replace (ip / 65536) with (ip / 256 / 256) by (rewrite Z.div_div by lia; done).
  set (q := ip / 256) in *. pose proof (Z.div_mod q 256). pose proof (Z.mod_pos_bound q 256).
  set (q2 := q / 256) in *. pose proof (Z.div_mod q2 256). pose proof (Z.mod_pos_bound q2 256).
  rewrite (Z.mod_small (q2 / 256)); [lia|]. split; [apply Z.div_pos; [apply Z.div_pos; lia|lia]|].
  apply Z.div_lt_upper_bound; lia.
Qed.

Lemma show_ipv4_free c ip : ¬ is_digit c → c ≠ 46 → c ∉ show_ipv4 ip.
Proof.
  intros Hc Hdot. unfold show_ipv4, ipv4_octets. cbn [fmap list_fmap join_on].
  repeat first [apply not_elem_of_app; split | apply not_elem_of_cons; split]; by try apply show_uint_free.
Qed.
