(* ===== verification/Sharding.v ===== *)
(** Sharding: the crate [crates/sharding] (src/crates/sharding/src/lib.rs).

    The key space of 64-bit keys is cut into 65536 shards by the two most
    significant bytes of a key ([ShardId::from_key], [ShardId::key_range]).
    [Keyspace::new] assigns [RF] replicas to every shard by rendezvous
    hashing: the nodes are sorted by the hash of (node, shard) and the first
    [RF] nodes the replication strategy accepts are the replicas.

    The hasher and the iteration order of [HashSet] are code the crate only
    calls: they are parameters of the section.  [rendezvous] is the reference
    definition the loop of [Keyspace::new], which sorts one queue again and
    again in place, is shown to compute. *)
From S2P Require Import Prelude.
From stdpp Require Import prelude gmap sets list sorting.

(** * Shard identifiers *)

Definition u16_max : Z := 65535.
Definition u64_max : Z := 18446744073709551615.

(** [ShardId::from_key]: [bytes] is the [[u8; 2]] copied from the key. *)
Definition from_key (key : Z) : Z :=
  let bytes := take 2 (to_be_bytes 8 key) in
  from_be_bytes bytes.

(** [ShardId::key_range], the bounds of an inclusive range of [u64]. *)
Definition key_range (id : Z) : Z * Z :=
  let start := wrap 64 (Z.shiftl id 48) in
  let last :=
    if decide (id = u16_max) then u64_max
    else u64_sub (wrap 64 (Z.shiftl (id + 1) 48)) 1 in
  (start, last).

(** * Replication strategies *)

(** [trait ReplicationStrategy<N>]: one instance serves one shard, so its
    initial state is part of the strategy. *)
Record ReplicationStrategy (N : Type) := {
  strategy_state : Type;
  build_replication_strategy : strategy_state;
  is_suitable_replica : strategy_state → N → bool * strategy_state;
}.
Arguments strategy_state {_} _.
Arguments build_replication_strategy {_} _.
Arguments is_suitable_replica {_} _ _ _.

Definition DefaultReplicationStrategy N : ReplicationStrategy N := {|
  strategy_state := unit;
  build_replication_strategy := tt;
  is_suitable_replica st _ := (true, st);
|}.

Inductive sharding_error :=
| InvalidNodesCount (rf : nat)
| IncompleteReplicaSet.

#[export] Instance sharding_error_eq_dec : EqDecision sharding_error.
Proof. solve_decision. Defined.

(** [sharding::Keyspace]: [shards] holds the [replicas] of every shard. *)
Record ShardingKeyspace (N : Type) := {
  nodes_count : nat;
  shards : list (list N);
}.
Arguments nodes_count {_} _.
Arguments shards {_} _.

(** * Order on the priority queue

    The tuples [(score, &node)] are compared lexicographically. *)
Section queue_order.
Context {N : Type} (node_le : relation N).

Definition entry_le : relation (Z * N) := λ a b,
  (a.1 < b.1)%Z ∨ (a.1 = b.1 ∧ node_le a.2 b.2).

#[export] Instance entry_le_dec `{!RelDecision node_le} : RelDecision entry_le.
Proof. intros a b. unfold entry_le. apply _. Defined.

Context `{!TotalOrder node_le}.

#[export] Instance entry_le_trans : Transitive entry_le.
Proof.
  intros [sa a] [sb b] [sc c]; unfold entry_le; cbn.
  intros [?|[-> ?]] [?|[-> ?]]; try (left; lia).
  right; split; [done|]. by etrans.
Qed.

#[export] Instance entry_le_antisymm : AntiSymm (=) entry_le.
Proof.
  intros [sa a] [sb b]; unfold entry_le; cbn.
  intros [?|[-> ?]] [?|[? ?]]; try lia.
  f_equal. by apply (anti_symm node_le).
Qed.

#[export] Instance entry_le_total : Total entry_le.
Proof.
  intros [sa a] [sb b]; unfold entry_le; cbn.
  destruct (Z.lt_trichotomy sa sb) as [?|[->|?]]; [left; by left| |right; by left].
  destruct (trichotomy (strict node_le) a b) as [[? _]|[->|[? _]]].
  - left; right; done.
  - left; right; done.
  - right; right; done.
Qed.
End queue_order.

(** * [Keyspace::new] *)
Section keyspace.
Context {N : Type} `{Countable N}.
(** [N: Ord]. *)
Context (node_le : relation N) `{!RelDecision node_le}.
(** [build_hasher.hash_one((node, shard_idx))]. *)
Context (hash_one : N → Z → Z).
(** The order in which a [HashSet] yields its elements. *)
Context (hashset_iter : gset N → list N).
Context (RF : nat).

Implicit Types queue : list (Z * N).

(** The inner [loop]: the queue from [cursor] on is scanned for the next
    suitable node; what is left of it is the queue from the new cursor. *)
Fixpoint next_replica (S : ReplicationStrategy N) (st : strategy_state S)
    queue : res sharding_error (N * strategy_state S * list (Z * N)) :=
  match queue with
  | [] => Err IncompleteReplicaSet
  | (_, node) :: queue =>
      let '(ok, st) := is_suitable_replica S st node in
      if ok then Ok (node, st, queue) else next_replica S st queue
  end.

(** [for replica_id in &mut shard.replicas]. *)
Fixpoint fill_replicas (S : ReplicationStrategy N) (n : nat)
    (st : strategy_state S) queue : res sharding_error (list N) :=
  match n with
  | O => Ok []
  | S n =>
      '(node, st, queue) ← next_replica S st queue;
      replicas ← fill_replicas S n st queue;
      Ok (node :: replicas)
  end.

(** [*score = build_hasher.hash_one((node, shard_idx))] on the whole queue. *)
Definition rescore (shard_idx : Z) queue : list (Z * N) :=
  (λ e, (hash_one e.2 shard_idx, e.2)) <$> queue.

(** [for (shard_idx, shard) in shards.iter_mut().enumerate()]: the queue is
    rescored and sorted in place, so shard [i+1] starts from the order shard
    [i] left behind. *)
Fixpoint assign_shards (S : ReplicationStrategy N) (shard_idxs : list Z)
    queue : res sharding_error (list (list N)) :=
  match shard_idxs with
  | [] => Ok []
  | shard_idx :: shard_idxs =>
      let queue := merge_sort (entry_le node_le) (rescore shard_idx queue) in
      replicas ← fill_replicas S RF (build_replication_strategy S) queue;
      rest ← assign_shards S shard_idxs queue;
      Ok (replicas :: rest)
  end.

Definition n_shards : Z := u16_max + 1.

(** [Keyspace::new]; [const { assert!(RF > 0) }] is a compile-time check. *)
Definition sharding_keyspace_new (S : ReplicationStrategy N) (nodes : list N)
    : res sharding_error (ShardingKeyspace N) :=
  let nodes : gset N := list_to_set nodes in
  let nodes_count := size nodes in
  if decide (nodes_count < RF) then Err (InvalidNodesCount RF)
  else
    let queue := (λ node, (0%Z, node)) <$> hashset_iter nodes in
    shards ← assign_shards S (seqZ 0 n_shards) queue;
    Ok {| nodes_count := nodes_count; shards := shards |}.

(** [Keyspace::shard_replicas]: indexing panics out of range. *)
Definition shard_replicas (ks : ShardingKeyspace N) (shard_id : Z)
    : res sharding_error (list N) :=
  unwrap (shards ks !! Z.to_nat shard_id).

(** [Keyspace::shards]. *)
Definition keyspace_shards (ks : ShardingKeyspace N) : list (Z * list N) :=
  imap (λ idx s, (wrap 16 (Z.of_nat idx), s)) (shards ks).

(** The reference: the [RF] nodes of least (score, node). *)
Definition priority (nodes : list N) (shard_idx : Z) : list N :=
  (merge_sort (entry_le node_le)
     ((λ node, (hash_one node shard_idx, node)) <$> nodes)).*2.
Definition rendezvous (nodes : list N) (shard_idx : Z) : list N :=
  take RF (priority nodes shard_idx).
End keyspace.

Lemma n_shards_eq : n_shards = 65536%Z.
Proof. done. Qed.

#[global] Opaque n_shards.

(** * Shard identifiers: lemmas *)

Lemma from_key_div key : fits 64 key → from_key key = (key / 2 ^ 48)%Z.
Proof.
  intros Hk. unfold from_key. rewrite take_to_be_bytes by lia.
  change (256 ^ Z.of_nat (8 - 2))%Z with (2 ^ 48)%Z.
  apply from_to_be_bytes. change (256 ^ Z.of_nat 2)%Z with (2 ^ 16)%Z.
  unfold fits in Hk. split; [apply Z.div_pos; lia|].
  apply Z.div_lt_upper_bound; lia.
Qed.

Lemma key_range_bounds id :
  fits 16 id → key_range id = (id * 2 ^ 48, (id + 1) * 2 ^ 48 - 1)%Z.
Proof.
  unfold fits, key_range, u16_max, u64_max. intros Hid.
  rewrite !Z.shiftl_mul_pow2 by lia.
  rewrite (wrap_small 64 (id * 2 ^ 48)) by (unfold fits; lia).
  case_decide as Hmax; [by rewrite Hmax|].
  unfold u64_sub. rewrite (wrap_small 64 ((id + 1) * 2 ^ 48)) by (unfold fits; lia).
  by rewrite wrap_small by (unfold fits; lia).
Qed.

Lemma from_key_key_range key id :
  fits 64 key → fits 16 id →
  from_key key = id ↔ ((key_range id).1 ≤ key ≤ (key_range id).2)%Z.
Proof.
  intros Hk Hid. rewrite from_key_div, key_range_bounds by done. cbn.
  pose proof (Z.div_mod key (2 ^ 48) ltac:(lia)).
  pose proof (Z.mod_pos_bound key (2 ^ 48) ltac:(lia)).
  split; [intros <-; lia|]. intros ?. symmetry.
  apply (Z.div_unique key (2 ^ 48) id (key - id * 2 ^ 48)); lia.
Qed.

(** * [Keyspace::new]: lemmas *)

Section keyspace_lemmas.
Context {N : Type} `{Countable N}.
Context (node_le : relation N) `{!RelDecision node_le, !TotalOrder node_le}.
Context (hash_one : N → Z → Z).
Context (RF : nat).

Implicit Types queue : list (Z * N).
Implicit Types nodes : list N.

Abbreviation prio := (priority node_le hash_one).
Abbreviation rdv := (rendezvous node_le hash_one RF).
Abbreviation le := (entry_le node_le).

(** Sorting forgets the order of its input: the order is total. *)
Lemma merge_sort_perm_eq (q1 q2 : list (Z * N)) :
  q1 ≡ₚ q2 → merge_sort le q1 = merge_sort le q2.
Proof.
  intros Hp. apply (StronglySorted_unique le).
  - apply (StronglySorted_merge_sort le).
  - apply (StronglySorted_merge_sort le).
  - by rewrite !merge_sort_Permutation.
Qed.

Lemma rescore_perm i queue nodes :
  queue.*2 ≡ₚ nodes →
  rescore hash_one i queue ≡ₚ (λ n, (hash_one n i, n)) <$> nodes.
Proof.
  intros <-. unfold rescore. by rewrite <-list_fmap_compose.
Qed.

Lemma priority_perm nodes i : prio nodes i ≡ₚ nodes.
Proof.
  unfold priority. rewrite merge_sort_Permutation, <-list_fmap_compose.
  by rewrite (list_fmap_ext _ id nodes), list_fmap_id.
Qed.

Lemma length_priority nodes i : length (prio nodes i) = length nodes.
Proof. by rewrite priority_perm. Qed.

(** Every strategy picks a sublist of the queue, of the length asked for. *)
Lemma next_replica_sublist S st queue node st' queue' :
  next_replica S st queue = Ok (node, st', queue') →
  node :: queue'.*2 `sublist_of` queue.*2.
Proof.
  revert st; induction queue as [|[s m] queue IH]; intros st; cbn; [done|].
  destruct (is_suitable_replica S st m) as [[] st1]; intros Heq; simplify_eq/=.
  - done.
  - apply sublist_cons. eauto.
Qed.

Lemma fill_replicas_sublist S n st queue rs :
  fill_replicas S n st queue = Ok rs →
  rs `sublist_of` queue.*2 ∧ length rs = n.
Proof.
  revert st queue rs; induction n as [|n IH]; intros st queue rs; cbn; intros Hr.
  { mon_inv. split; [apply sublist_nil_l|done]. }
  mon_inv. destruct a as [[node st1] queue1]. mon_inv.
  apply next_replica_sublist in Hm. apply IH in Hm0 as [Hs Hl].
  split; [|cbn; lia]. etrans; [|exact Hm]. by apply sublist_skip.
Qed.

(** The default strategy takes the head of the queue. *)
Lemma fill_replicas_default n st queue :
  n ≤ length queue →
  fill_replicas (DefaultReplicationStrategy N) n st queue = Ok (take n queue.*2).
Proof.
  revert queue; induction n as [|n IH]; intros queue Hn; cbn; [done|].
  destruct queue as [|[s m] queue]; cbn in *; [lia|].
  rewrite IH by lia. done.
Qed.

(** The queue threaded through the shards never matters. *)
Lemma assign_shards_default idxs queue nodes :
  queue.*2 ≡ₚ nodes → RF ≤ length nodes →
  assign_shards node_le hash_one RF (DefaultReplicationStrategy N) idxs queue
  = Ok (rdv nodes <$> idxs).
Proof.
  revert queue; induction idxs as [|i idxs IH]; intros queue Hq Hlen; cbn; [done|].
  set (sorted := merge_sort le (rescore hash_one i queue)).
  assert (sorted.*2 = prio nodes i) as Hs.
  { unfold sorted, priority. f_equal. apply merge_sort_perm_eq.
    by apply rescore_perm. }
  rewrite fill_replicas_default.
  2:{ rewrite <-(length_fmap snd), Hs, length_priority. done. }
  cbn. rewrite Hs, IH; [done| |done].
  rewrite Hs. apply priority_perm.
Qed.

Lemma assign_shards_sound S idxs queue nodes rss :
  queue.*2 ≡ₚ nodes →
  assign_shards node_le hash_one RF S idxs queue = Ok rss →
  length rss = length idxs ∧
  Forall2 (λ i rs, rs `sublist_of` prio nodes i ∧ length rs = RF) idxs rss.
Proof.
  revert queue rss; induction idxs as [|i idxs IH]; intros queue rss Hq; cbn; intros Ha.
  { mon_inv. done. }
  mon_inv.
  assert ((merge_sort le (rescore hash_one i queue)).*2 = prio nodes i) as Hs.
  { unfold priority. f_equal. apply merge_sort_perm_eq. by apply rescore_perm. }
  apply fill_replicas_sublist in Hm as [Hsub Hlen]. rewrite Hs in Hsub.
  apply IH in Hm0 as [Hl Hf].
  - split; [cbn; lia|]. by constructor.
  - rewrite Hs. apply priority_perm.
Qed.

(** ** Rendezvous hashing moves as little as possible *)

(** Adding a node inserts it into the priority order of every shard and
    leaves the order of the others alone. *)
Lemma priority_insert nodes x i :
  ∃ l1 l2, prio nodes i = l1 ++ l2 ∧ prio (x :: nodes) i = l1 ++ x :: l2.
Proof.
  unfold priority.
  set (f := λ n, (hash_one n i, n)).
  destruct (list_elem_of_split (merge_sort le (f <$> x :: nodes)) (f x))
    as (l1 & l2 & Hsplit).
  { rewrite merge_sort_Permutation. apply list_elem_of_fmap. set_solver. }
  exists l1.*2, l2.*2. rewrite Hsplit, !fmap_app. split; [|done].
  rewrite <-fmap_app. f_equal. apply (StronglySorted_unique le).
  - apply (StronglySorted_merge_sort le).
  - pose proof (StronglySorted_merge_sort le (f <$> x :: nodes)) as Hs.
    rewrite Hsplit in Hs. apply StronglySorted_app in Hs as (H12 & H1 & H2).
    apply StronglySorted_cons in H2 as [H2x H2].
    apply StronglySorted_app. split_and!; [|done|done].
    intros a b Ha Hb. apply H12; [done|]. by apply list_elem_of_further.
  - rewrite merge_sort_Permutation.
    pose proof (merge_sort_Permutation le (f <$> x :: nodes)) as Hp.
    rewrite Hsplit in Hp. cbn in Hp. rewrite <-Permutation_middle in Hp.
    symmetry. by eapply Permutation_cons_inv.
Qed.

Lemma rendezvous_add nodes x i :
  x ∉ nodes →
  (x ∉ rdv (x :: nodes) i ∧ rdv (x :: nodes) i = rdv nodes i) ∨
  (∃ l1 l2, rdv (x :: nodes) i = l1 ++ x :: l2 ∧
            l1 ++ l2 = take (RF - 1) (rdv nodes i)).
Proof.
  intros Hx. destruct (priority_insert nodes x i) as (l1 & l2 & H1 & H2).
  unfold rendezvous. rewrite H1, H2.
  destruct (decide (RF ≤ length l1)) as [Hle|Hgt].
  - left. rewrite !take_app_le by done. split; [|done].
    intros Hin. apply Hx. rewrite <-(priority_perm nodes i), H1.
    apply elem_of_app; left. eapply sublist_subseteq, Hin. apply sublist_take.
  - right. exists l1, (take (RF - length l1 - 1) l2).
    rewrite take_app_ge by lia.
    destruct (RF - length l1) as [|k] eqn:Hk; [lia|]. cbn.
    split; [do 2 f_equal; f_equal; lia|].
    rewrite take_take, take_app_ge by lia.
    do 2 f_equal. lia.
Qed.
End keyspace_lemmas.

(** * Properties of [Keyspace::new] *)

Section keyspace_properties.
Context {N : Type} `{Countable N}.
Context (node_le : relation N) `{!RelDecision node_le, !TotalOrder node_le}.
Context (hash_one : N → Z → Z).
Context (hashset_iter : gset N → list N).
(** [HashSet::iter] yields every element once, in some order. *)
Hypothesis hashset_iter_elements : ∀ s, hashset_iter s ≡ₚ elements s.
Context (RF : nat).

Abbreviation new :=
  (sharding_keyspace_new node_le hash_one hashset_iter RF).
Abbreviation new_default := (new (DefaultReplicationStrategy N)).
Abbreviation set_of nodes := (list_to_set nodes : gset N).

Lemma initial_queue (nodes : list N) :
  ((λ node, (0%Z, node)) <$> hashset_iter (set_of nodes)).*2
  ≡ₚ elements (set_of nodes).
Proof.
  rewrite <-list_fmap_compose, (list_fmap_ext _ id), list_fmap_id by done.
  apply hashset_iter_elements.
Qed.

Lemma new_default_eq (nodes : list N) :
  new_default nodes =
    if decide (size (set_of nodes) < RF) then Err (InvalidNodesCount RF)
    else Ok {| nodes_count := size (set_of nodes);
               shards := rendezvous node_le hash_one RF (elements (set_of nodes))
                           <$> seqZ 0 n_shards |}.
Proof.
  unfold sharding_keyspace_new. case_decide as Hlt; [done|].
  rewrite (assign_shards_default node_le hash_one RF _ _ (elements (set_of nodes))).
  - done.
  - apply initial_queue.
  - unfold size, set_size in Hlt. cbn in Hlt. lia.
Qed.

Lemma new_default_shard (nodes : list N) ks id :
  new_default nodes = Ok ks → fits 16 id →
  shards ks !! Z.to_nat id
  = Some (rendezvous node_le hash_one RF (elements (set_of nodes)) id).
Proof.
  rewrite new_default_eq. case_decide; [done|]. intros <-%Ok_inj Hid; cbn [shards].
  unfold fits in Hid. rewrite list_lookup_fmap, lookup_seqZ_lt by (rewrite n_shards_eq; lia).
  cbn [fmap option_fmap option_map]. do 2 f_equal. lia.
Qed.

Lemma elements_list_to_set_cons (nodes : list N) x :
  x ∉ nodes →
  elements (set_of (x :: nodes)) ≡ₚ x :: elements (set_of nodes).
Proof.
  intros Hx. rewrite list_to_set_cons. apply elements_union_singleton.
  by rewrite elem_of_list_to_set.
Qed.

Lemma rendezvous_perm (l1 l2 : list N) i :
  l1 ≡ₚ l2 → rendezvous node_le hash_one RF l1 i = rendezvous node_le hash_one RF l2 i.
Proof.
  intros Hp. unfold rendezvous, priority. do 2 f_equal.
  apply (merge_sort_perm_eq node_le). by rewrite Hp.
Qed.

(** C10. [Keyspace::new] with the default strategy computes the rendezvous
    assignment: whatever order the hash set yields its nodes in, and although
    one queue is sorted again in place for every shard, it fails exactly when
    there are fewer nodes than replicas and otherwise gives each of the 65536
    shards the [RF] nodes of least (hash, node); [IncompleteReplicaSet] and an
    endless scan are impossible. *)
Theorem sharding_new_is_rendezvous (nodes : list N) :
  new_default nodes =
    if decide (size (set_of nodes) < RF) then Err (InvalidNodesCount RF)
    else Ok {| nodes_count := size (set_of nodes);
               shards := rendezvous node_le hash_one RF (elements (set_of nodes))
                           <$> seqZ 0 n_shards |}.
Proof. apply new_default_eq. Qed.

Lemma new_replica_sets_valid S (nodes : list N) ks :
  new S nodes = Ok ks →
  nodes_count ks = size (set_of nodes) ∧
  length (shards ks) = Z.to_nat n_shards ∧
  ∀ replicas, replicas ∈ shards ks →
    length replicas = RF ∧ NoDup replicas ∧ replicas ⊆ nodes.
Proof.
  unfold sharding_keyspace_new. case_decide as Hlt; [done|]. intros Hnew.
  mon_inv. apply assign_shards_sound with (nodes := elements (set_of nodes))
    in Hm as [Hlen Hall]; [|done|apply initial_queue].
  split_and!; [done|by rewrite Hlen, length_seqZ|].
  intros rs Hrs. apply list_elem_of_lookup in Hrs as [k Hk].
  apply Forall2_lookup_r with (1 := Hall) in Hk as (i & _ & Hsub & Hrf).
  split; [done|]. split.
  - eapply sublist_NoDup; [|exact Hsub].
    rewrite priority_perm by done. apply NoDup_elements.
  - intros n Hn. eapply sublist_subseteq in Hn; [|exact Hsub].
    rewrite priority_perm in Hn by done. set_solver.
Qed.

(** Whatever the replication strategy, a keyspace that was built has 65536
    shards and every shard has exactly [RF] distinct replicas, all of them
    among the given nodes. *)
Theorem sharding_replica_sets_valid S (nodes : list N) ks :
  new S nodes = Ok ks →
  nodes_count ks = size (set_of nodes) ∧
  length (shards ks) = Z.to_nat n_shards ∧
  ∀ replicas, replicas ∈ shards ks →
    length replicas = RF ∧ NoDup replicas ∧ replicas ⊆ nodes.
Proof. apply new_replica_sets_valid. Qed.

(** C35. Adding one node to the cluster moves at most one replica of a shard:
    either the new node is not selected and the replica set is unchanged, or
    the new node takes a place, every other replica was one before, in the same
    relative order, and only the last one is dropped.  Read backwards: removing
    a node leaves the shards it did not serve untouched. *)
Theorem sharding_minimal_movement (nodes : list N) x ks ks' id :
  x ∉ nodes → fits 16 id →
  new_default nodes = Ok ks → new_default (x :: nodes) = Ok ks' →
  ∃ old new,
    shard_replicas ks id = Ok old ∧ shard_replicas ks' id = Ok new ∧
    ((x ∉ new ∧ new = old) ∨
     ∃ l1 l2, new = l1 ++ x :: l2 ∧ l1 ++ l2 = take (RF - 1) old).
Proof.
  intros Hx Hid Hks Hks'.
  eapply new_default_shard in Hks; [|exact Hid].
  eapply new_default_shard in Hks'; [|exact Hid].
  unfold shard_replicas. rewrite Hks, Hks'.
  eexists _, _; split_and!; [done|done|].
  rewrite (rendezvous_perm _ _ id (elements_list_to_set_cons nodes x Hx)).
  apply rendezvous_add; [done|]. set_solver.
Qed.
End keyspace_properties.

(** * Witnesses

    Nodes are numbers, the hasher a small linear function, and the hash set
    yields its elements backwards. *)

Definition toy_hash (node shard_idx : Z) : Z :=
  ((node * 7 + shard_idx * 5) mod 13)%Z.
Definition toy_iter (s : gset Z) : list Z := reverse (elements s).

Lemma toy_iter_elements s : toy_iter s ≡ₚ elements s.
Proof. apply reverse_Permutation. Qed.

Lemma sharding_new_is_rendezvous_witness :
  sharding_keyspace_new Z.le toy_hash toy_iter 2
    (DefaultReplicationStrategy Z) [3; 5; 9]%Z =
  Ok {| nodes_count := 3;
        shards := rendezvous Z.le toy_hash 2
                    (elements (list_to_set [3; 5; 9]%Z : gset Z)) <$> seqZ 0 n_shards |}
  ∧ rendezvous Z.le toy_hash 2 (elements (list_to_set [3; 5; 9]%Z : gset Z)) 1 = [3; 5]%Z.
Proof.
  split; [|vm_compute; reflexivity].
  rewrite (sharding_new_is_rendezvous Z.le toy_hash toy_iter toy_iter_elements 2).
  rewrite decide_False by (vm_compute; lia). f_equal.
Defined.

Abbreviation toy_new :=
  (sharding_keyspace_new Z.le toy_hash toy_iter 2 (DefaultReplicationStrategy Z)).

Definition toy_keyspace (nodes : list Z) : ShardingKeyspace Z := {|
  nodes_count := size (list_to_set nodes : gset Z);
  shards := rendezvous Z.le toy_hash 2 (elements (list_to_set nodes : gset Z))
              <$> seqZ 0 n_shards;
|}.

Lemma toy_new_Ok nodes :
  2 ≤ size (list_to_set nodes : gset Z) → toy_new nodes = Ok (toy_keyspace nodes).
Proof.
  intros Hn. rewrite (new_default_eq Z.le toy_hash toy_iter toy_iter_elements 2).
  by rewrite decide_False by lia.
Qed.

Lemma sharding_replica_sets_valid_witness :
  toy_new [3; 5; 9]%Z = Ok (toy_keyspace [3; 5; 9]%Z) ∧
  ∀ replicas, replicas ∈ shards (toy_keyspace [3; 5; 9]%Z) →
    length replicas = 2 ∧ NoDup replicas ∧ replicas ⊆ [3; 5; 9]%Z.
Proof.
  assert (toy_new [3; 5; 9]%Z = Ok (toy_keyspace [3; 5; 9]%Z)) as Hnew
    by (apply toy_new_Ok; vm_compute; lia).
  split; [exact Hnew|].
  apply (sharding_replica_sets_valid Z.le toy_hash toy_iter toy_iter_elements 2 _ _ _ Hnew).
Defined.

Lemma sharding_minimal_movement_witness :
  ∃ old new,
    shard_replicas (toy_keyspace [3; 9]%Z) 7 = Ok old ∧
    shard_replicas (toy_keyspace [5; 3; 9]%Z) 7 = Ok new ∧
    ((5%Z ∉ new ∧ new = old) ∨
     ∃ l1 l2, new = l1 ++ 5%Z :: l2 ∧ l1 ++ l2 = take (2 - 1) old).
Proof.
  apply (sharding_minimal_movement Z.le toy_hash toy_iter toy_iter_elements 2
           [3; 9]%Z 5%Z).
  - set_solver.
  - vm_compute; done.
  - apply toy_new_Ok. vm_compute; lia.
  - apply toy_new_Ok. vm_compute; lia.
Defined.

(** The shards partition the key space: a key belongs to shard [id] exactly
    when it lies in the range [key_range] gives for [id]; in particular the
    ranges are disjoint, cover every 64-bit key and never wrap. *)
Theorem shard_ranges_partition key :
  fits 64 key →
  fits 16 (from_key key) ∧
  ∀ id, fits 16 id →
    (from_key key = id ↔ ((key_range id).1 ≤ key ≤ (key_range id).2)%Z) ∧
    fits 64 (key_range id).1 ∧ fits 64 (key_range id).2.
Proof.
  intros Hk. split.
  - rewrite from_key_div by done. unfold fits in *.
    split; [apply Z.div_pos; lia|apply Z.div_lt_upper_bound; lia].
  - intros id Hid. split; [by apply from_key_key_range|].
    rewrite key_range_bounds by done. unfold fits in *. cbn. lia.
Qed.

Lemma shard_ranges_partition_witness :
  from_key 72340172838076673 = 257%Z ∧
  ((key_range 257).1 ≤ 72340172838076673 ≤ (key_range 257).2)%Z.
Proof.
  split; [vm_compute; reflexivity|].
  apply (proj2 (shard_ranges_partition 72340172838076673 ltac:(vm_compute; done)) 257%Z);
    [vm_compute; done|vm_compute; reflexivity].
Defined.
