(* ===== verification/SmartContract.v ===== *)
(** SmartContract: the data the cluster exchanges with the chain
    (src/crates/cluster/src/smart_contract/mod.rs and event.rs): the on-chain
    view, and the events that announce its changes.

    An [AccountAddress] is the big-endian value of its 20 bytes; indices,
    versions and timestamps are the words of the source. *)
From S2P Require Import Prelude.
From stdpp Require Import prelude gmap sets list.

Record ScSettings := {
  sc_max_node_operator_data_bytes : Z;
  sc_extra : list Z;
}.

Record ScNodeOperator := {
  sc_op_id : Z;
  sc_op_data : list Z;
}.

Record ScKeyspace := {
  sc_ks_operators : gset Z;
  sc_ks_replication_strategy : Z;
}.

Record ScMigration := {
  sc_mig_id : Z;
  sc_mig_pulling_operators : gset Z;
  sc_mig_started_at : Z;
  sc_mig_aborted_at : option Z;
}.

Record ScMaintenance := {
  sc_maint_slot : option Z;
}.

(** [smart_contract::ClusterView]; [keyspaces] is the array of two. *)
Record ClusterView := {
  cv_owner : Z;
  cv_settings : ScSettings;
  cv_node_operators : list (option ScNodeOperator);
  cv_keyspaces : ScKeyspace * ScKeyspace;
  cv_keyspace_version : Z;
  cv_migration : ScMigration;
  cv_maintenance : ScMaintenance;
  cv_cluster_version : Z;
}.

#[export] Instance ScKeyspace_eq_dec : EqDecision ScKeyspace.
Proof. solve_decision. Defined.
#[export] Instance ScSettings_eq_dec : EqDecision ScSettings.
Proof. solve_decision. Defined.
#[export] Instance ScNodeOperator_eq_dec : EqDecision ScNodeOperator.
Proof. solve_decision. Defined.

(** * Events *)

Record MigrationStarted := {
  ms_migration_id : Z;
  ms_new_keyspace : ScKeyspace;
  ms_at : Z;
  ms_cluster_version : Z;
}.

Record MigrationDataPullCompleted := {
  mdpc_migration_id : Z;
  mdpc_operator_id : Z;
  mdpc_cluster_version : Z;
}.

Record MigrationCompleted := {
  mc_migration_id : Z;
  mc_operator_id : Z;
  mc_cluster_version : Z;
}.

Record MigrationAborted := {
  ma_migration_id : Z;
  ma_at : Z;
  ma_cluster_version : Z;
}.

Record MaintenanceStarted := {
  mts_by : Z;
  mts_cluster_version : Z;
}.

Record MaintenanceFinished := {
  mtf_cluster_version : Z;
}.

Record NodeOperatorAdded := {
  noa_idx : Z;
  noa_operator : ScNodeOperator;
  noa_cluster_version : Z;
}.

Record NodeOperatorUpdated := {
  nou_operator : ScNodeOperator;
  nou_cluster_version : Z;
}.

Record NodeOperatorRemoved := {
  nor_id : Z;
  nor_cluster_version : Z;
}.

Record SettingsUpdated := {
  su_settings : ScSettings;
  su_cluster_version : Z;
}.

Inductive Event :=
| EvMigrationStarted (evt : MigrationStarted)
| EvMigrationDataPullCompleted (evt : MigrationDataPullCompleted)
| EvMigrationCompleted (evt : MigrationCompleted)
| EvMigrationAborted (evt : MigrationAborted)
| EvMaintenanceStarted (evt : MaintenanceStarted)
| EvMaintenanceFinished (evt : MaintenanceFinished)
| EvNodeOperatorAdded (evt : NodeOperatorAdded)
| EvNodeOperatorUpdated (evt : NodeOperatorUpdated)
| EvNodeOperatorRemoved (evt : NodeOperatorRemoved)
| EvSettingsUpdated (evt : SettingsUpdated).

(** [Event::cluster_version]. *)
Definition event_cluster_version (event : Event) : Z :=
  match event with
  | EvMigrationStarted evt => ms_cluster_version evt
  | EvMigrationDataPullCompleted evt => mdpc_cluster_version evt
  | EvMigrationCompleted evt => mc_cluster_version evt
  | EvMigrationAborted evt => ma_cluster_version evt
  | EvMaintenanceStarted evt => mts_cluster_version evt
  | EvMaintenanceFinished evt => mtf_cluster_version evt
  | EvNodeOperatorAdded evt => noa_cluster_version evt
  | EvNodeOperatorUpdated evt => nou_cluster_version evt
  | EvNodeOperatorRemoved evt => nor_cluster_version evt
  | EvSettingsUpdated evt => su_cluster_version evt
  end.
