(* ===== verification/NodeOperator.v ===== *)
(** NodeOperator: nodes, clients and the node operator that owns them
    (src/crates/cluster/src/node.rs, client.rs, node_operator.rs).

    - [Node], [encrypt_ip], [node_encrypt]: the IP addresses of a node are
      encrypted before they go on chain;
    - [NodeOperator]: load balancing over its nodes with a wrapping counter,
      editing the node list, and the on-chain encoding and decoding with its
      schema versions.

    The counter is an [AtomicUsize] behind an [Arc]; an operation that bumps
    it returns the operator with the new counter. *)
From S2P Require Import Prelude External SmartContract.
From stdpp Require Import prelude gmap sets list strings countable.

Definition MIN_NODES : nat := 2.
Definition NAME_MAX_LENGTH : nat := 32.
Definition usize_max : Z := 18446744073709551615.

(** [AtomicUsize::fetch_add(1)]: the old value and the new one. *)
Definition fetch_add_1 (counter : Z) : Z * Z := (counter, u64_add counter 1).

(** The index the load-balancing loops use: [idx.wrapping_add(offset) % num]. *)
Definition lb_index (offset : Z) (num idx : nat) : nat :=
  Z.to_nat (u64_add (Z.of_nat idx) offset mod Z.of_nat num).

Section node.
Context `{PeerIds, Ff1}.

Record Node := {
  peer_id : PeerId;
  ipv4_addr : Z;
  private_ipv4_addr : option Z;
  primary_port : Z;
  secondary_port : Z;
}.

Definition primary_socket_addr (self : Node) : Z * Z :=
  (ipv4_addr self, primary_port self).
Definition secondary_socket_addr (self : Node) : Z * Z :=
  (ipv4_addr self, secondary_port self).
Definition primary_socket_addr_private (self : Node) : option (Z * Z) :=
  (λ addr, (addr, primary_port self)) <$> private_ipv4_addr self.
Definition secondary_socket_addr_private (self : Node) : option (Z * Z) :=
  (λ addr, (addr, secondary_port self)) <$> private_ipv4_addr self.

(** [Ipv4AddrNumeral::from(ip)]: the octets, each as a [u16]. *)
Definition ipv4_to_numeral (addr : Z) : list Z := to_be_bytes 4 addr.

(** [Ipv4Addr::from(numeral)]: [octets[idx] as u8] for the four indices. *)
Definition numeral_to_ipv4 {E} (octets : list Z) : res E Z :=
  octets ← res_map (λ idx, o ← unwrap (octets !! idx); Ok (wrap 8 o)) [0; 1; 2; 3];
  Ok (from_be_bytes octets).

Definition encrypt_ip {E} (key : list Z) (peer_id : PeerId) (ip : Z) : res E Z :=
  numeral ← unwrap (ff1_encrypt key (peer_id_digest peer_id) (ipv4_to_numeral ip));
  numeral_to_ipv4 numeral.

Definition decrypt_ip {E} (key : list Z) (peer_id : PeerId) (ip : Z) : res E Z :=
  numeral ← unwrap (ff1_decrypt key (peer_id_digest peer_id) (ipv4_to_numeral ip));
  numeral_to_ipv4 numeral.

(** [Option::map] of a function that may panic. *)
Definition option_mapM {E A B} (f : A → res E B) (o : option A) : res E (option B) :=
  match o with
  | None => Ok None
  | Some a => b ← f a; Ok (Some b)
  end.

Definition node_encrypt {E} (key : list Z) (self : Node) : res E Node :=
  ip ← encrypt_ip key (peer_id self) (ipv4_addr self);
  private ← option_mapM (encrypt_ip key (peer_id self)) (private_ipv4_addr self);
  Ok {| peer_id := peer_id self; ipv4_addr := ip; private_ipv4_addr := private;
        primary_port := primary_port self; secondary_port := secondary_port self |}.

Definition node_decrypt {E} (key : list Z) (self : Node) : res E Node :=
  ip ← decrypt_ip key (peer_id self) (ipv4_addr self);
  private ← option_mapM (decrypt_ip key (peer_id self)) (private_ipv4_addr self);
  Ok {| peer_id := peer_id self; ipv4_addr := ip; private_ipv4_addr := private;
        primary_port := primary_port self; secondary_port := secondary_port self |}.

(** [node::V0] and [node::V1], the on-chain layouts. *)
Record NodeV0 := {
  v0_peer_id : PeerId;
  v0_ipv4_addr : Z;
  v0_primary_port : Z;
  v0_secondary_port : Z;
}.

Record NodeV1 := {
  v1_peer_id : PeerId;
  v1_ipv4_addr : Z;
  v1_private_ipv4_addr : option Z;
  v1_primary_port : Z;
  v1_secondary_port : Z;
}.

Definition node_to_v0 (node : Node) : NodeV0 := {|
  v0_peer_id := peer_id node;
  v0_ipv4_addr := ipv4_addr node;
  v0_primary_port := primary_port node;
  v0_secondary_port := secondary_port node;
|}.

Definition node_from_v0 (node : NodeV0) : Node := {|
  peer_id := v0_peer_id node;
  ipv4_addr := v0_ipv4_addr node;
  private_ipv4_addr := None;
  primary_port := v0_primary_port node;
  secondary_port := v0_secondary_port node;
|}.

Definition node_to_v1 (node : Node) : NodeV1 := {|
  v1_peer_id := peer_id node;
  v1_ipv4_addr := ipv4_addr node;
  v1_private_ipv4_addr := private_ipv4_addr node;
  v1_primary_port := primary_port node;
  v1_secondary_port := secondary_port node;
|}.

Definition node_from_v1 (node : NodeV1) : Node := {|
  peer_id := v1_peer_id node;
  ipv4_addr := v1_ipv4_addr node;
  private_ipv4_addr := v1_private_ipv4_addr node;
  primary_port := v1_primary_port node;
  secondary_port := v1_secondary_port node;
|}.

(** [Client] and its on-chain layout [client::V0]. *)
Record Client := {
  client_peer_id : PeerId;
  authorized_namespaces : list Z;
}.

Record ClientV0 := {
  cv0_peer_id : PeerId;
  cv0_authorized_namespaces : list Z;
}.

Definition client_to_v0 (client : Client) : ClientV0 := {|
  cv0_peer_id := client_peer_id client;
  cv0_authorized_namespaces := authorized_namespaces client;
|}.

Definition client_from_v0 (client : ClientV0) : Client := {|
  client_peer_id := cv0_peer_id client;
  authorized_namespaces := cv0_authorized_namespaces client;
|}.

(** [Name::new]: [s.len()] counts bytes. *)
Definition name_new (s : string) : option string :=
  if decide (String.length s ≤ NAME_MAX_LENGTH) then Some s else None.

Definition name_from_str (s : string) : res () string := ok_or (name_new s) ().
End node.

Inductive operator_creation_error := TooFewNodes (n : nat).

#[export] Instance operator_creation_error_eq_dec : EqDecision operator_creation_error.
Proof. solve_decision. Defined.

(** * [NodeOperator<N>] *)
Section node_operator.
Context `{PeerIds} {N : Type}.

Record NodeOperator := {
  op_id : Z;
  op_name : string;
  op_clients : list Client;
  op_nodes : list N;
  op_counter : Z;
}.

Definition op_with_nodes (self : NodeOperator) (nodes : list N) : NodeOperator := {|
  op_id := op_id self; op_name := op_name self; op_clients := op_clients self;
  op_nodes := nodes; op_counter := op_counter self |}.

Definition op_with_counter (self : NodeOperator) (counter : Z) : NodeOperator := {|
  op_id := op_id self; op_name := op_name self; op_clients := op_clients self;
  op_nodes := op_nodes self; op_counter := counter |}.

Definition node_operator_new (id : Z) (name : string) (nodes : list N)
    (clients : list Client) : res operator_creation_error NodeOperator :=
  if decide (length nodes < MIN_NODES) then Err (TooFewNodes (length nodes))
  else Ok {| op_id := id; op_name := name; op_clients := clients;
             op_nodes := nodes; op_counter := usize_max |}.

(** [next_node]: [n % 0] and an index out of range panic. *)
Definition next_node {E} (self : NodeOperator) : res E (N * NodeOperator) :=
  let '(n, counter) := fetch_add_1 (op_counter self) in
  if decide (op_nodes self = []) then Panic
  else
    node ← unwrap (op_nodes self !! Z.to_nat (n mod Z.of_nat (length (op_nodes self))));
    Ok (node, op_with_counter self counter).

(** The [for] loop of [find_next_node] (and of [find_next_operator]). *)
Fixpoint find_loop {E A R} (item : nat → res E A) (cb : A → option R)
    (idxs : list nat) : res E (option R) :=
  match idxs with
  | [] => Ok None
  | idx :: idxs =>
      a ← item idx;
      match cb a with
      | Some r => Ok (Some r)
      | None => find_loop item cb idxs
      end
  end.

Definition find_next_node {E R} (cb : N → option R) (self : NodeOperator)
    : res E (option R * NodeOperator) :=
  let num_nodes := length (op_nodes self) in
  let '(offset, counter) := fetch_add_1 (op_counter self) in
  r ← find_loop (λ idx, unwrap (op_nodes self !! lb_index offset num_nodes idx)) cb
        (seq 0 num_nodes);
  Ok (r, op_with_counter self counter).

(** [nodes_lb_iter]: the nodes from [n % len] on, then the ones before. *)
Definition nodes_lb_iter {E} (self : NodeOperator) : res E (list N * NodeOperator) :=
  let '(n, counter) := fetch_add_1 (op_counter self) in
  if decide (op_nodes self = []) then Panic
  else
    let k := Z.to_nat (n mod Z.of_nat (length (op_nodes self))) in
    Ok (drop k (op_nodes self) ++ take k (op_nodes self), op_with_counter self counter).

Definition add_node (self : NodeOperator) (node : N) : NodeOperator :=
  op_with_nodes self (op_nodes self ++ [node]).

(** [update_node]: [get_mut] out of range does nothing, as [list_insert]. *)
Definition update_node (self : NodeOperator) (idx : nat) (updated : N) : NodeOperator :=
  op_with_nodes self (<[idx := updated]> (op_nodes self)).

(** [remove_node]: [self.nodes.len() - 1] is a [usize] subtraction. *)
Definition remove_node (self : NodeOperator) (idx : nat)
    : res operator_creation_error NodeOperator :=
  if decide (u64_sub (Z.of_nat (length (op_nodes self))) 1 < Z.of_nat MIN_NODES)%Z
  then Err (TooFewNodes (length (op_nodes self)))
  else
    if decide (idx < length (op_nodes self))
    then Ok (op_with_nodes self (delete idx (op_nodes self)))
    else Ok self.
End node_operator.
Arguments NodeOperator {_} _.

(** [Config]: the encryption key and the constructor of application nodes. *)
Class Config `{PeerIds} (N : Type) := {
  cfg_encryption_key : list Z;
  cfg_new_node : Z → Node → N;
  cfg_node_peer_id : N → PeerId;
}.

(** The configuration whose application node is [Node] itself. *)
Definition plain_config `{PeerIds} (key : list Z) : Config Node := {|
  cfg_encryption_key := key;
  cfg_new_node _ node := node;
  cfg_node_peer_id := peer_id;
|}.

Inductive operator_into_sc_error := OpIntoCodec (e : string).

Inductive operator_from_sc_error :=
| OpEmptyBuffer
| OpCodec (e : string)
| OpUnknownSchemaVersion (ver : Z)
| OpConstructor (e : operator_creation_error).

Inductive data_too_large := DataTooLarge (value limit : Z).

(** * On-chain encoding *)
Section node_operator_sc.
Context `{PeerIds, Ff1}.

Record DataV0 := {
  d0_name : string;
  d0_nodes : list NodeV0;
  d0_clients : list ClientV0;
}.

Record DataV1 := {
  d1_name : string;
  d1_nodes : list NodeV1;
  d1_clients : list ClientV0;
}.

Context `{Postcard DataV0, Postcard DataV1}.

Definition operator_try_into_sc (key : list Z) (self : NodeOperator Node)
    : res operator_into_sc_error ScNodeOperator :=
  nodes ← res_map (λ node, node ← node_encrypt key node; Ok (node_to_v1 node)) (op_nodes self);
  let data := {| d1_name := op_name self; d1_nodes := nodes;
                 d1_clients := client_to_v0 <$> op_clients self |} in
  buf ← versioned_encode OpIntoCodec 1%Z data;
  Ok {| sc_op_id := op_id self; sc_op_data := buf |}.

Context {N : Type} `{!Config N}.

Definition decrypt_nodes {E V} (id : Z) (from : V → Node) (nodes : list V)
    : res E (list N) :=
  res_map (λ v, node ← node_decrypt cfg_encryption_key (from v); Ok (cfg_new_node id node)) nodes.

Definition operator_try_from_sc (operator : ScNodeOperator)
    : res operator_from_sc_error (NodeOperator N) :=
  match sc_op_data operator with
  | [] => Err OpEmptyBuffer
  | schema_version :: bytes =>
      if decide (schema_version = 0%Z) then
        data ← map_err OpCodec (postcard_from_bytes (T := DataV0) bytes);
        nodes ← decrypt_nodes (sc_op_id operator) node_from_v0 (d0_nodes data);
        map_err OpConstructor
          (node_operator_new (sc_op_id operator) (d0_name data) nodes
             (client_from_v0 <$> d0_clients data))
      else if decide (schema_version = 1%Z) then
        data ← map_err OpCodec (postcard_from_bytes (T := DataV1) bytes);
        nodes ← decrypt_nodes (sc_op_id operator) node_from_v1 (d1_nodes data);
        map_err OpConstructor
          (node_operator_new (sc_op_id operator) (d1_name data) nodes
             (client_from_v0 <$> d1_clients data))
      else Err (OpUnknownSchemaVersion schema_version)
  end.

Definition operator_new_corrupted (id : Z) : NodeOperator N := {|
  op_id := id;
  op_name := "CORRUPTED_DATA";
  op_clients := [];
  op_nodes :=
    (λ i, cfg_new_node id
            {| peer_id := peer_id_random id i; ipv4_addr := 0%Z;
               private_ipv4_addr := None; primary_port := 0%Z; secondary_port := 0%Z |})
      <$> seq 0 MIN_NODES;
  op_counter := 0%Z;
|}.

(** [from_sc]: an operator that cannot be decoded is replaced, not rejected. *)
Definition operator_from_sc {E} (operator : ScNodeOperator) : res E (NodeOperator N) :=
  match operator_try_from_sc operator with
  | Ok op => Ok op
  | Err _ => Ok (operator_new_corrupted (sc_op_id operator))
  | Panic => Panic
  end.
End node_operator_sc.

(** [validate_data]; the limit is a [u16]. *)
Definition validate_data (data : list Z) (max_node_operator_data_bytes : Z)
    : res data_too_large () :=
  let value := Z.of_nat (length data) in
  let limit := max_node_operator_data_bytes in
  if decide (limit < value)%Z then Err (DataTooLarge value limit) else Ok ().

(** * Load balancing: lemmas *)

(** The counter does not make the indices of one sweep wrap: either it is far
    enough from [usize::MAX], or the number of items divides [2^64]. *)
Definition lb_no_wrap (offset : Z) (num : nat) : Prop :=
  (offset + Z.of_nat num ≤ 2 ^ 64 ∨ (Z.of_nat num | 2 ^ 64))%Z.

Lemma lb_index_mod offset num idx :
  idx < num → fits 64 offset → lb_no_wrap offset num →
  lb_index offset num idx = Z.to_nat ((Z.of_nat idx + offset) mod Z.of_nat num).
Proof.
  unfold lb_index, u64_add, fits. intros Hidx Ho Hw. f_equal.
  destruct Hw as [Hw|Hw].
  - rewrite wrap_small; [done|]. unfold fits. lia.
  - unfold wrap. symmetry. apply Znumtheory.Zmod_div_mod; lia || done.
Qed.

Lemma lb_index_lt offset num idx : num ≠ 0 → lb_index offset num idx < num.
Proof.
  intros Hn. unfold lb_index.
  pose proof (Z.mod_pos_bound (u64_add (Z.of_nat idx) offset) (Z.of_nat num) ltac:(lia)).
  lia.
Qed.

Lemma mod_window_inj n o i j :
  (0 ≤ i < n → 0 ≤ j < n → (i + o) mod n = (j + o) mod n → i = j)%Z.
Proof.
  intros Hi Hj Heq.
  pose proof (Z.div_mod (i + o) n ltac:(lia)).
  pose proof (Z.div_mod (j + o) n ltac:(lia)).
  assert (i - j = n * ((i + o) / n - (j + o) / n))%Z as Hd by lia.
  destruct (Z.lt_trichotomy ((i + o) / n) ((j + o) / n)) as [?|[?|?]]; nia.
Qed.

(** One sweep visits every index once. *)
Lemma lb_sweep_perm offset num :
  fits 64 offset → lb_no_wrap offset num →
  lb_index offset num <$> seq 0 num ≡ₚ seq 0 num.
Proof.
  intros Ho Hw. apply submseteq_length_Permutation.
  2:{ by rewrite length_fmap. }
  apply NoDup_submseteq.
  - apply NoDup_fmap_2_strong; [|apply NoDup_seq].
    intros i j Hi%elem_of_seq Hj%elem_of_seq Heq.
    rewrite !lb_index_mod in Heq by (done || lia).
    apply Z2Nat.inj in Heq; try (apply Z.mod_pos_bound; lia).
    apply mod_window_inj in Heq; lia.
  - intros k (i & -> & Hi%elem_of_seq)%list_elem_of_fmap. apply elem_of_seq.
    pose proof (lb_index_lt offset num i). lia.
Qed.

Lemma list_lookup_seq_perm {A} (l : list A) (idxs : list nat) :
  idxs ≡ₚ seq 0 (length l) → omap (l !!.) idxs ≡ₚ l.
Proof.
  intros ->. enough (omap (l !!.) (seq 0 (length l)) = l) as -> by done.
  induction l as [|x l IH] using rev_ind; [done|].
  rewrite length_app, Nat.add_1_r, seq_S, omap_app. cbn.
  rewrite lookup_app_r, Nat.sub_diag by lia. cbn. f_equal.
  rewrite <-IH at 2. apply list_omap_ext.
  apply Forall2_same_length_lookup_2; [done|].
  intros i j k Hj Hk. rewrite Hj in Hk. simplify_eq.
  apply lookup_seq in Hj as [-> ?]. by rewrite lookup_app_l by lia.
Qed.

(** A sweep over items that exist returns the first answer of the callback. *)
Lemma find_loop_head {E A R} (l : list A) (f : nat → nat) (cb : A → option R) idxs :
  (∀ i, i ∈ idxs → f i < length l) →
  find_loop (λ i, @unwrap E _ (l !! f i)) cb idxs
  = Ok (head (omap cb (omap (l !!.) (f <$> idxs)))).
Proof.
  induction idxs as [|i idxs IH]; intros Hlt; cbn; [done|].
  destruct (lookup_lt_is_Some_2 l (f i)) as [a Ha]; [apply Hlt; set_solver|].
  rewrite Ha. cbn. destruct (cb a); [done|].
  apply IH. set_solver.
Qed.

Lemma head_omap_None {A R} (cb : A → option R) (l : list A) :
  head (omap cb l) = None ↔ ∀ a, a ∈ l → cb a = None.
Proof.
  induction l as [|a l IH]; cbn; [set_solver|].
  destruct (cb a) eqn:Ha; cbn; [|set_solver].
  split; [done|]. intros Hall. specialize (Hall a). set_solver.
Qed.

Lemma head_omap_Some {A R} (cb : A → option R) (l : list A) r :
  head (omap cb l) = Some r → ∃ a, a ∈ l ∧ cb a = Some r.
Proof.
  induction l as [|a l IH]; cbn; [done|].
  destruct (cb a) eqn:Ha; cbn; set_solver.
Qed.

(** What a complete sweep promises, whatever order it visits the items in. *)
Definition sweep_result {A R} (l : list A) (cb : A → option R) (r : option R) : Prop :=
  match r with
  | Some r => ∃ a, a ∈ l ∧ cb a = Some r
  | None => ∀ a, a ∈ l → cb a = None
  end.

Lemma sweep_result_perm {A R} (l l' : list A) (cb : A → option R) :
  l' ≡ₚ l → sweep_result l cb (head (omap cb l')).
Proof.
  intros Hp. destruct (head (omap cb l')) as [r|] eqn:Hr; cbn.
  - apply head_omap_Some in Hr as (a & Ha & ?). exists a. by rewrite <-Hp.
  - rewrite head_omap_None in Hr. intros a. rewrite <-Hp. apply Hr.
Qed.

Lemma sweep_result_perm_l {A R} (l l' : list A) (cb : A → option R) r :
  l ≡ₚ l' → sweep_result l cb r → sweep_result l' cb r.
Proof.
  intros Hp. destruct r; cbn; [|setoid_rewrite Hp; done].
  intros (a & Ha & ?). exists a. by rewrite <-Hp.
Qed.

Lemma find_loop_ext {E A R} (f g : nat → res E A) (cb : A → option R) idxs :
  (∀ i, f i = g i) → find_loop f cb idxs = find_loop g cb idxs.
Proof.
  intros Hfg. induction idxs as [|i idxs IH]; cbn; [done|]. rewrite Hfg.
  destruct (g i); cbn; [|done|done]. by rewrite IH.
Qed.

Lemma lb_sweep_result {E A R} (l : list A) (cb : A → option R) offset :
  fits 64 offset → lb_no_wrap offset (length l) →
  ∃ r, find_loop (λ i, @unwrap E _ (l !! lb_index offset (length l) i)) cb
         (seq 0 (length l)) = Ok r ∧ sweep_result l cb r.
Proof.
  intros Ho Hw. rewrite find_loop_head.
  2:{ intros i Hi%elem_of_seq. apply lb_index_lt. lia. }
  eexists; split; [done|]. apply sweep_result_perm.
  apply list_lookup_seq_perm. by apply lb_sweep_perm.
Qed.

Lemma rotate_perm {A} k (l : list A) : drop k l ++ take k l ≡ₚ l.
Proof. rewrite (comm (++)), take_drop. done. Qed.

(** * [NodeOperator]: the invariant *)

Section node_operator_invariant.
Context `{PeerIds} {N : Type}.
Implicit Types op : NodeOperator N.

Record op_wf op : Prop := {
  op_wf_nodes : MIN_NODES ≤ length (op_nodes op);
  op_wf_counter : fits 64 (op_counter op);
}.

(** Everything that can happen to an operator once it was built. *)
Inductive operator_step : NodeOperator N → NodeOperator N → Prop :=
| step_next_node op node op' :
    next_node (E := Empty_set) op = Ok (node, op') → operator_step op op'
| step_find_next_node R (cb : N → option R) op r op' :
    find_next_node (E := Empty_set) cb op = Ok (r, op') → operator_step op op'
| step_nodes_lb_iter op nodes op' :
    nodes_lb_iter (E := Empty_set) op = Ok (nodes, op') → operator_step op op'
| step_add_node op node : operator_step op (add_node op node)
| step_update_node op idx node : operator_step op (update_node op idx node)
| step_remove_node op idx op' : remove_node op idx = Ok op' → operator_step op op'.

Lemma op_wf_with_counter op c :
  op_wf op → op_wf (op_with_counter op (u64_add c 1)).
Proof. intros [? ?]; split; cbn; [done|]. apply wrap_fits. lia. Qed.

Lemma remove_node_wf op idx op' :
  op_wf op → remove_node op idx = Ok op' → op_wf op'.
Proof.
  intros [Hn Hc]. unfold remove_node. case_decide as Hlt; [done|].
  assert (MIN_NODES < length (op_nodes op)).
  { destruct (decide (length (op_nodes op) = MIN_NODES)) as [Heq|]; [|lia].
    rewrite Heq in Hlt. by destruct Hlt. }
  case_decide; intros <-%Ok_inj; split; cbn; try done; [].
  rewrite length_delete; [|by apply lookup_lt_is_Some_2]. lia.
Qed.

Lemma operator_step_wf op op' : operator_step op op' → op_wf op → op_wf op'.
Proof.
  intros Hstep Hwf. destruct Hstep as [op node op' Hs|R cb op r op' Hs|op nodes op' Hs| | |].
  - unfold next_node in Hs. cbn in Hs. case_decide; [done|]. mon_inv.
    by apply op_wf_with_counter.
  - unfold find_next_node in Hs. cbn in Hs. mon_inv. by apply op_wf_with_counter.
  - unfold nodes_lb_iter in Hs. cbn in Hs. case_decide; [done|]. mon_inv.
    by apply op_wf_with_counter.
  - destruct Hwf as [Hn Hc]. split; cbn; [rewrite length_app; cbn; lia|done].
  - destruct Hwf as [Hn Hc]. split; cbn; [by rewrite length_insert|done].
  - by eapply remove_node_wf.
Qed.

Lemma node_operator_new_wf id name nodes clients op :
  node_operator_new id name nodes clients = Ok op → op_wf op.
Proof.
  unfold node_operator_new. case_decide; [done|]. intros <-%Ok_inj.
  split; cbn; [lia|]. done.
Qed.

(** [k] requests, one after the other. *)
Fixpoint next_nodes {E} (k : nat) op : res E (list N * NodeOperator N) :=
  match k with
  | O => Ok ([], op)
  | S k =>
      '(node, op) ← next_node op;
      '(nodes, op) ← next_nodes k op;
      Ok (node :: nodes, op)
  end.

Lemma u64_add_0_l c : fits 64 c → u64_add (Z.of_nat 0) c = c.
Proof. apply wrap_small. Qed.

Lemma next_node_eq {E} op :
  op_nodes op ≠ [] → fits 64 (op_counter op) →
  next_node (E := E) op =
    (node ← unwrap (op_nodes op !! lb_index (op_counter op) (length (op_nodes op)) 0);
     Ok (node, op_with_counter op (u64_add (op_counter op) 1))).
Proof.
  intros Hne Hc. unfold next_node, fetch_add_1. rewrite decide_False by done.
  unfold lb_index. by rewrite (u64_add_0_l (op_counter op)).
Qed.

Lemma lb_index_shift c num i :
  lb_index (u64_add c 1) num i = lb_index c num (S i).
Proof.
  unfold lb_index, u64_add, wrap. do 2 f_equal.
  rewrite Zplus_mod_idemp_r. f_equal. lia.
Qed.

Lemma next_nodes_eq {E} k op :
  op_wf op →
  next_nodes (E := E) k op =
    Ok (omap (op_nodes op !!.) (lb_index (op_counter op) (length (op_nodes op)) <$> seq 0 k),
        op_with_counter op (u64_add (op_counter op) (Z.of_nat k))).
Proof.
  revert op; induction k as [|k IH]; intros op Hwf; cbn [next_nodes].
  { cbn. f_equal. destruct op as [? ? ? ? c]; cbn. unfold op_with_counter; cbn.
    unfold u64_add. rewrite Z.add_0_r, wrap_small; [done|apply Hwf]. }
  pose proof Hwf as [Hn Hc]. unfold MIN_NODES in Hn.
  assert (op_nodes op ≠ []) as Hne by (intros Heq; rewrite Heq in Hn; cbn in Hn; lia).
  rewrite next_node_eq by done.
  destruct (lookup_lt_is_Some_2 (op_nodes op)
              (lb_index (op_counter op) (length (op_nodes op)) 0)) as [node Hnode].
  { apply lb_index_lt. lia. }
  rewrite Hnode. cbn. rewrite IH by (by apply op_wf_with_counter). cbn.
  rewrite Hnode. do 2 f_equal.
  - f_equal. f_equal. rewrite <-(fmap_S_seq 0), <-list_fmap_compose.
    apply list_fmap_ext. intros. apply lb_index_shift.
  - unfold op_with_counter; cbn. f_equal. unfold u64_add, wrap.
    rewrite Zplus_mod_idemp_l. f_equal. lia.
Qed.
End node_operator_invariant.

(** * Properties of load balancing *)

Section node_operator_properties.
Context `{PeerIds} {N : Type}.
Implicit Types op : NodeOperator N.

(** From its construction on, whatever sequence of requests and edits a
    node operator goes through, it keeps at least [MIN_NODES] nodes, so the
    next request finds a node and no index or remainder panics. *)
Theorem node_operator_never_empty id name nodes clients op0 op :
  node_operator_new id name nodes clients = Ok op0 → rtc operator_step op0 op →
  MIN_NODES ≤ length (op_nodes op) ∧
  (∃ node op', next_node (E := Empty_set) op = Ok (node, op') ∧ node ∈ op_nodes op) ∧
  (∃ nodes op', nodes_lb_iter (E := Empty_set) op = Ok (nodes, op') ∧ nodes ≡ₚ op_nodes op).
Proof.
  intros Hnew%node_operator_new_wf Hrtc.
  assert (op_wf op) as Hwf.
  { induction Hrtc as [|op1 op2 op3 Hstep _ IH]; [done|].
    by apply IH, operator_step_wf with op1. }
  pose proof Hwf as [Hn Hc]. split; [done|].
  assert (op_nodes op ≠ []) as Hne by (intros Heq; rewrite Heq in Hn; cbn in Hn; unfold MIN_NODES in Hn; lia).
  split.
  - rewrite next_node_eq by done.
    destruct (lookup_lt_is_Some_2 (op_nodes op)
                (lb_index (op_counter op) (length (op_nodes op)) 0)) as [node Hnode].
    { apply lb_index_lt. unfold MIN_NODES in Hn. lia. }
    rewrite Hnode. eexists _, _; split; [done|]. by eapply list_elem_of_lookup_2.
  - unfold nodes_lb_iter, fetch_add_1. rewrite decide_False by done.
    eexists _, _; split; [done|]. apply rotate_perm.
Qed.

(** Requests are spread evenly: as long as the counter does not wrap, as
    many consecutive calls of [next_node] as there are nodes return every node
    exactly once, and advance the counter by their number. *)
Theorem next_node_round_robin op :
  op_wf op → lb_no_wrap (op_counter op) (length (op_nodes op)) →
  ∃ visited, next_nodes (E := Empty_set) (length (op_nodes op)) op
    = Ok (visited, op_with_counter op
                     (u64_add (op_counter op) (Z.of_nat (length (op_nodes op))))) ∧
    visited ≡ₚ op_nodes op.
Proof.
  intros Hwf Hw. rewrite next_nodes_eq by done. eexists; split; [done|].
  apply list_lookup_seq_perm, lb_sweep_perm; [apply Hwf|done].
Qed.

(** [find_next_node] asks every node as long as the counter does not wrap:
    it returns an answer some node gave, and [None] only when no node of the
    operator satisfies the callback. *)
Theorem find_next_node_complete {R} (cb : N → option R) op :
  fits 64 (op_counter op) → lb_no_wrap (op_counter op) (length (op_nodes op)) →
  ∃ r, find_next_node (E := Empty_set) cb op
       = Ok (r, op_with_counter op (u64_add (op_counter op) 1)) ∧
       sweep_result (op_nodes op) cb r.
Proof.
  intros Hc Hw. unfold find_next_node, fetch_add_1.
  destruct (lb_sweep_result (E := Empty_set) (op_nodes op) cb (op_counter op) Hc Hw)
    as (r & Hr & Hres).
  rewrite Hr. by exists r.
Qed.
End node_operator_properties.

(** Three nodes, numbered, as the constructor leaves them. *)
Definition toy_operator (nodes : list Z) (counter : Z) : @NodeOperator toy_peer_ids Z :=
  {| op_id := 7%Z; op_name := "op"; op_clients := []; op_nodes := nodes;
     op_counter := counter |}.

Lemma node_operator_never_empty_witness :
  ∃ node op', next_node (E := Empty_set) (add_node (toy_operator [1; 2]%Z usize_max) 3%Z)
              = Ok (node, op') ∧ node ∈ [1; 2; 3]%Z.
Proof.
  apply (@node_operator_never_empty toy_peer_ids Z 7%Z "op" [1; 2]%Z []
           (toy_operator [1; 2]%Z usize_max)
           (add_node (toy_operator [1; 2]%Z usize_max) 3%Z)).
  - reflexivity.
  - apply rtc_once, step_add_node.
Defined.

Lemma toy_operator_wf n1 n2 nodes c :
  fits 64 c → op_wf (toy_operator (n1 :: n2 :: nodes) c).
Proof. split; cbn; [unfold MIN_NODES; lia|done]. Qed.

Lemma next_node_round_robin_witness :
  ∃ visited, next_nodes (E := Empty_set) 3 (toy_operator [1; 2; 3]%Z 10)
    = Ok (visited, op_with_counter (toy_operator [1; 2; 3]%Z 10) 13) ∧
    visited ≡ₚ [1; 2; 3]%Z.
Proof.
  apply (@next_node_round_robin toy_peer_ids Z (toy_operator [1; 2; 3]%Z 10)).
  - by apply toy_operator_wf.
  - left. vm_compute. discriminate.
Defined.

Lemma find_next_node_complete_witness :
  ∃ r, find_next_node (E := Empty_set) (λ n, if decide (n = 2%Z) then Some n else None)
         (toy_operator [1; 2]%Z usize_max)
       = Ok (r, op_with_counter (toy_operator [1; 2]%Z usize_max) 0) ∧
       sweep_result [1; 2]%Z (λ n, if decide (n = 2%Z) then Some n else None) r.
Proof.
  apply (@find_next_node_complete toy_peer_ids Z _ _ (toy_operator [1; 2]%Z usize_max)).
  - done.
  - right. exists (2 ^ 63)%Z. reflexivity.
Defined.

(** The counter starts at [usize::MAX], so the first sweep of a fresh
    operator wraps in the middle: with three nodes it asks the first node
    twice and the last one never, and [find_next_node] can return [None]
    although a node satisfies the callback. *)
Theorem find_next_node_fresh_misses :
  ∃ (op op' : @NodeOperator toy_peer_ids Z) (cb : Z → option Z),
    node_operator_new 7%Z "op" [1; 2; 3]%Z [] = Ok op ∧
    cb 3%Z = Some 3%Z ∧ 3%Z ∈ op_nodes op ∧
    find_next_node (E := Empty_set) cb op = Ok (None, op').
Proof.
  exists (toy_operator [1; 2; 3]%Z usize_max), (toy_operator [1; 2; 3]%Z 0),
    (λ n, if decide (n = 3%Z) then Some n else None).
  split; [reflexivity|]. split; [reflexivity|].
  split; [do 2 apply list_elem_of_further; apply list_elem_of_here|].
  reflexivity.
Qed.

(** * On-chain encoding: lemmas *)

Section node_codec.
Context `{PeerIds, Ff1Laws}.

Definition node_wf (node : Node) : Prop :=
  fits 32 (ipv4_addr node) ∧
  match private_ipv4_addr node with Some ip => fits 32 ip | None => True end.

Lemma ipv4_numerals ip : ff1_numerals (ipv4_to_numeral ip).
Proof.
  split; [apply to_be_bytes_byte|]. unfold ipv4_to_numeral.
  rewrite length_to_be_bytes. lia.
Qed.

Lemma numeral_to_ipv4_Ok {E} octets :
  Forall is_byte octets → length octets = 4 →
  numeral_to_ipv4 (E := E) octets = Ok (from_be_bytes octets).
Proof.
  intros Hb Hlen. destruct octets as [|a [|b [|c [|d [|]]]]]; try done.
  decompose_Forall_hyps.
  unfold numeral_to_ipv4. cbn -[wrap]. by rewrite !wrap_small by done.
Qed.

Lemma ipv4_from_numeral {E} ip :
  fits 32 ip → numeral_to_ipv4 (E := E) (ipv4_to_numeral ip) = Ok ip.
Proof.
  intros Hip. unfold ipv4_to_numeral. rewrite numeral_to_ipv4_Ok.
  - f_equal. by apply from_to_be_bytes.
  - apply to_be_bytes_byte.
  - apply length_to_be_bytes.
Qed.

Lemma encrypt_ip_roundtrip {E F} key pid ip :
  fits 32 ip →
  ∃ c, encrypt_ip (E := E) key pid ip = Ok c ∧ decrypt_ip (E := F) key pid c = Ok ip.
Proof.
  intros Hip. unfold encrypt_ip, decrypt_ip.
  destruct (ff1_encrypt_decrypt key (peer_id_digest pid) _ (ipv4_numerals ip))
    as (ys & He & Hlen & Hb & Hd).
  unfold ipv4_to_numeral in Hlen at 1. rewrite length_to_be_bytes in Hlen.
  rewrite He. cbn [unwrap mbind res_bind]. rewrite numeral_to_ipv4_Ok by done.
  eexists; split; [done|]. unfold ipv4_to_numeral at 1.
  rewrite <-Hlen, to_from_be_bytes, Hd by done. cbn [unwrap mbind res_bind].
  by apply ipv4_from_numeral.
Qed.

Lemma decrypt_ip_total {E} key pid c : ∃ ip, decrypt_ip (E := E) key pid c = Ok ip.
Proof.
  unfold decrypt_ip.
  destruct (ff1_decrypt_total key (peer_id_digest pid) _ (ipv4_numerals c))
    as (xs & Hd & Hlen & Hb).
  unfold ipv4_to_numeral in Hlen at 1. rewrite length_to_be_bytes in Hlen.
  rewrite Hd. cbn [unwrap mbind res_bind]. rewrite numeral_to_ipv4_Ok by done. by eexists.
Qed.

Lemma node_encrypt_roundtrip {E F} key node :
  node_wf node →
  ∃ node', node_encrypt (E := E) key node = Ok node' ∧
           node_decrypt (E := F) key node' = Ok node.
Proof.
  destruct node as [pid ip priv p s]. unfold node_wf, node_encrypt, node_decrypt; cbn.
  intros [Hip Hpriv].
  destruct (encrypt_ip_roundtrip (E := E) (F := F) key pid ip Hip) as (c & He & Hd).
  rewrite He; cbn. destruct priv as [pip|]; cbn.
  - destruct (encrypt_ip_roundtrip (E := E) (F := F) key pid pip Hpriv) as (cp & Hep & Hdp).
    rewrite Hep; cbn. eexists; split; [done|]; cbn. rewrite Hd; cbn. by rewrite Hdp.
  - eexists; split; [done|]; cbn. by rewrite Hd.
Qed.

Lemma node_decrypt_total {E} key node : ∃ node', node_decrypt (E := E) key node = Ok node'.
Proof.
  unfold node_decrypt.
  destruct (decrypt_ip_total (E := E) key (peer_id node) (ipv4_addr node)) as [ip Hip].
  rewrite Hip; cbn. destruct (private_ipv4_addr node) as [pip|]; cbn; [|by eexists].
  destruct (decrypt_ip_total (E := E) key (peer_id node) pip) as [ip' Hip'].
  rewrite Hip'; cbn. by eexists.
Qed.
End node_codec.

Section operator_codec.
Context `{PeerIds, Ff1Laws, !Postcard DataV0, !Postcard DataV1}.
Context `{!PostcardLaws DataV0, !PostcardLaws DataV1}.

Lemma client_v0_roundtrip (clients : list Client) :
  client_from_v0 <$> (client_to_v0 <$> clients) = clients.
Proof.
  rewrite <-list_fmap_compose. rewrite <-(list_fmap_id clients) at 2.
  apply list_fmap_ext. by intros i [].
Qed.

Lemma encrypt_nodes_roundtrip {E F} key (nodes : list Node) :
  Forall node_wf nodes →
  ∃ v1s, res_map (E := E) (λ node, node ← node_encrypt key node; Ok (node_to_v1 node)) nodes
         = Ok v1s ∧
         res_map (E := F) (λ v, node_decrypt key (node_from_v1 v)) v1s = Ok nodes.
Proof.
  induction 1 as [|node nodes Hwf _ (v1s & He & Hd)]; cbn; [by eexists|].
  destruct (node_encrypt_roundtrip (E := E) (F := F) key node Hwf) as (n' & Hne & Hnd).
  rewrite Hne; cbn. rewrite He; cbn. eexists; split; [done|]; cbn.
  replace (node_from_v1 (node_to_v1 n')) with n' by (by destruct n').
  rewrite Hnd; cbn. by rewrite Hd.
Qed.

Lemma decrypt_nodes_map {E N} `{!Config N} {V} id (from : V → Node) vs nodes :
  res_map (E := E) (λ v, node_decrypt cfg_encryption_key (from v)) vs = Ok nodes →
  decrypt_nodes (E := E) id from vs = Ok (cfg_new_node id <$> nodes).
Proof.
  revert nodes; induction vs as [|v vs IH]; cbn; intros nodes Hm; mon_inv; [done|].
  rewrite Hm0; cbn. unfold decrypt_nodes in IH. by rewrite (IH _ Hm1).
Qed.

Lemma decrypt_nodes_total {E N} `{!Config N} {V} id (from : V → Node) vs :
  ∃ nodes, decrypt_nodes (E := E) id from vs = Ok nodes ∧ length nodes = length vs.
Proof.
  unfold decrypt_nodes. induction vs as [|v vs (nodes & IH & Hl)]; cbn; [by eexists|].
  destruct (node_decrypt_total (E := E) cfg_encryption_key (from v)) as [n Hn].
  rewrite Hn; cbn. rewrite IH; cbn. eexists; split; [done|]. cbn; lia.
Qed.

Lemma try_from_sc_no_panic {N} `{!Config N} operator :
  operator_try_from_sc operator ≠ Panic.
Proof.
  unfold operator_try_from_sc. destruct (sc_op_data operator) as [|ver bytes]; [done|].
  assert (∀ id name (nodes : list N) clients,
    map_err OpConstructor (node_operator_new id name nodes clients) ≠ Panic) as Hnew.
  { intros. unfold node_operator_new. by case_decide. }
  repeat case_decide; [| |done].
  - destruct (postcard_from_bytes bytes) as [data|e|] eqn:Hd; cbn; [|done|].
    + destruct (decrypt_nodes_total (E := operator_from_sc_error) (sc_op_id operator)
                  node_from_v0 (d0_nodes data)) as (ns & -> & _). apply Hnew.
    + by apply postcard_from_bytes_safe in Hd.
  - destruct (postcard_from_bytes bytes) as [data|e|] eqn:Hd; cbn; [|done|].
    + destruct (decrypt_nodes_total (E := operator_from_sc_error) (sc_op_id operator)
                  node_from_v1 (d1_nodes data)) as (ns & -> & _). apply Hnew.
    + by apply postcard_from_bytes_safe in Hd.
Qed.

Lemma try_from_sc_wf {N} `{!Config N} operator (op : NodeOperator N) :
  operator_try_from_sc operator = Ok op → op_wf op ∧ op_id op = sc_op_id operator.
Proof.
  unfold operator_try_from_sc. destruct (sc_op_data operator) as [|ver bytes]; [done|].
  intros Hop.
  assert (∀ name (nodes : list N) clients,
    node_operator_new (sc_op_id operator) name nodes clients = Ok op →
    op_wf op ∧ op_id op = sc_op_id operator) as Hnew.
  { intros name nodes clients Hn. split; [by eapply node_operator_new_wf|].
    unfold node_operator_new in Hn. case_decide; by mon_inv. }
  repeat case_decide; mon_inv; eauto.
Qed.

Lemma operator_from_sc_wf {N} `{!Config N} {E} operator :
  ∃ op : NodeOperator N, operator_from_sc (E := E) operator = Ok op ∧
    op_wf op ∧ op_id op = sc_op_id operator.
Proof.
  unfold operator_from_sc.
  destruct (operator_try_from_sc operator) as [op|e|] eqn:Hop.
  - exists op. split; [done|]. by eapply try_from_sc_wf.
  - eexists; split; [done|]. split; [|done]. split; cbn; [|done]. unfold MIN_NODES; lia.
  - by apply try_from_sc_no_panic in Hop.
Qed.

(** Decoding an operator from the chain cannot fail and cannot panic: for
    arbitrary bytes [from_sc] returns an operator under the given id with at
    least two nodes and a valid counter. *)
Theorem operator_from_sc_total {N} `{!Config N} operator :
  ∃ op : NodeOperator N, operator_from_sc (E := Empty_set) operator = Ok op ∧
    op_wf op ∧ op_id op = sc_op_id operator.
Proof. apply operator_from_sc_wf. Qed.

(** What an operator writes on chain is what the cluster reads back:
    encrypting the addresses, serializing under schema version 1, parsing and
    decrypting gives the same operator, with a fresh counter. *)
Theorem operator_sc_roundtrip (op : NodeOperator Node) key :
  MIN_NODES ≤ length (op_nodes op) → Forall node_wf (op_nodes op) →
  ∃ sc, operator_try_into_sc key op = Ok sc ∧ sc_op_id sc = op_id op ∧
        operator_try_from_sc (Config0 := plain_config key) sc
        = Ok (op_with_counter op usize_max).
Proof.
  intros Hlen Hwf. unfold operator_try_into_sc.
  destruct (encrypt_nodes_roundtrip (E := operator_into_sc_error)
              (F := operator_from_sc_error) key _ Hwf) as (v1s & He & Hd).
  rewrite He; cbn [mbind res_bind].
  edestruct (versioned_encode_Ok OpIntoCodec 1%Z) as (bytes & Hv & Hp).
  rewrite Hv; cbn [mbind res_bind]. eexists; split_and!; [done|done|].
  unfold operator_try_from_sc; cbn [sc_op_data].
  rewrite decide_False, decide_True by done. rewrite Hp. cbn [map_err mbind res_bind d1_nodes].
  erewrite (decrypt_nodes_map (N := Node) (Config0 := plain_config key)) by exact Hd. cbn.
  rewrite list_fmap_id, client_v0_roundtrip. unfold node_operator_new.
  rewrite decide_False by lia. done.
Qed.
End operator_codec.

(** * Witnesses for the on-chain encoding *)

#[local] Existing Instance toy_peer_ids.
#[local] Existing Instance toy_ff1.
#[local] Existing Instance toy_ff1_laws.

#[export] Instance toy_PeerId_countable : Countable (@PeerId toy_peer_ids).
Proof. change (Countable Z). apply _. Defined.

#[export] Instance NodeV0_eq_dec : EqDecision NodeV0.
Proof. solve_decision. Defined.
#[export] Instance NodeV0_countable : Countable NodeV0.
Proof.
  apply (inj_countable' (λ n, (v0_peer_id n, v0_ipv4_addr n, v0_primary_port n, v0_secondary_port n))
    (λ '(a, b, c, d), {| v0_peer_id := a; v0_ipv4_addr := b; v0_primary_port := c;
                         v0_secondary_port := d |})).
  by intros [].
Defined.
#[export] Instance NodeV1_eq_dec : EqDecision NodeV1.
Proof. solve_decision. Defined.
#[export] Instance NodeV1_countable : Countable NodeV1.
Proof.
  apply (inj_countable' (λ n, (v1_peer_id n, v1_ipv4_addr n, v1_private_ipv4_addr n,
                               v1_primary_port n, v1_secondary_port n))
    (λ '(a, b, p, c, d), {| v1_peer_id := a; v1_ipv4_addr := b; v1_private_ipv4_addr := p;
                            v1_primary_port := c; v1_secondary_port := d |})).
  by intros [].
Defined.
#[export] Instance ClientV0_eq_dec : EqDecision ClientV0.
Proof. solve_decision. Defined.
#[export] Instance ClientV0_countable : Countable ClientV0.
Proof.
  apply (inj_countable' (λ n, (cv0_peer_id n, cv0_authorized_namespaces n))
    (λ '(a, b), {| cv0_peer_id := a; cv0_authorized_namespaces := b |})).
  by intros [].
Defined.
#[export] Instance DataV0_eq_dec : EqDecision DataV0.
Proof. solve_decision. Defined.
#[export] Instance DataV0_countable : Countable DataV0.
Proof.
  apply (inj_countable' (λ n, (d0_name n, d0_nodes n, d0_clients n))
    (λ '(a, b, c), {| d0_name := a; d0_nodes := b; d0_clients := c |})).
  by intros [].
Defined.
#[export] Instance DataV1_eq_dec : EqDecision DataV1.
Proof. solve_decision. Defined.
#[export] Instance DataV1_countable : Countable DataV1.
Proof.
  apply (inj_countable' (λ n, (d1_name n, d1_nodes n, d1_clients n))
    (λ '(a, b, c), {| d1_name := a; d1_nodes := b; d1_clients := c |})).
  by intros [].
Defined.

Definition toy_node (p ip : Z) : Node := {|
  peer_id := p : @PeerId toy_peer_ids; ipv4_addr := ip; private_ipv4_addr := Some 167772161%Z;
  primary_port := 3010%Z; secondary_port := 3011%Z |}.

Definition toy_sc_operator : NodeOperator Node := {|
  op_id := 7%Z; op_name := "op";
  op_clients := [{| client_peer_id := 9%Z : @PeerId toy_peer_ids; authorized_namespaces := [1; 2]%Z |}];
  op_nodes := [toy_node 1%Z 134283265%Z; toy_node 2%Z 134283266%Z];
  op_counter := 5%Z |}.

Definition toy_d0 : Postcard DataV0 := toy_postcard DataV0.
Definition toy_d1 : Postcard DataV1 := toy_postcard DataV1.
#[local] Existing Instance toy_d0.
#[local] Existing Instance toy_d1.
#[local] Instance toy_d0_laws : PostcardLaws DataV0 := toy_postcard_laws DataV0.
#[local] Instance toy_d1_laws : PostcardLaws DataV1 := toy_postcard_laws DataV1.

Lemma operator_sc_roundtrip_witness :
  ∃ sc, operator_try_into_sc [42]%Z toy_sc_operator = Ok sc ∧ sc_op_id sc = 7%Z ∧
    operator_try_from_sc (Config0 := plain_config [42]%Z) sc
    = Ok (op_with_counter toy_sc_operator usize_max).
Proof.
  apply (operator_sc_roundtrip toy_sc_operator [42]%Z).
  - unfold MIN_NODES; cbn; lia.
  - repeat constructor; cbn; lia.
Defined.

Lemma operator_from_sc_total_witness :
  ∃ op : NodeOperator Node,
    operator_from_sc (E := Empty_set) (Config0 := plain_config [42]%Z)
      {| sc_op_id := 7%Z; sc_op_data := [9; 9; 9]%Z |} = Ok op ∧
    op_wf op ∧ op_id op = 7%Z.
Proof.
  apply (operator_from_sc_total (N := Node) (Config0 := plain_config [42]%Z)
           {| sc_op_id := 7%Z; sc_op_data := [9; 9; 9]%Z |}).
Defined.
