(* ===== verification/NodeOperators.v ===== *)
(** NodeOperators: the slot map of node operators
    (src/crates/cluster/src/node_operators.rs).

    An operator lives in a slot whose index never changes; [id_to_idx] is an
    [IndexMap] from operator ids to slot indices.  The map is an association
    list because its order decides the load balancing: [insert] of a present
    key replaces in place, of a new key appends, and [shift_remove] keeps the
    order of the rest.

    [ops_wf] is the invariant that ties the two views together. *)
From S2P Require Import Prelude External SmartContract NodeOperator.
From stdpp Require Import prelude gmap sets list strings.

Definition MAX_OPERATORS : nat := 256.
Definition MIN_OPERATORS : nat := 5.

(** * [IndexMap] *)
Section index_map.
Context {V : Type}.
Implicit Types m : list (Z * V).

Fixpoint im_get (k : Z) m : option V :=
  match m with
  | [] => None
  | (k', v) :: m => if decide (k = k') then Some v else im_get k m
  end.

Fixpoint im_insert (k : Z) (v : V) m : list (Z * V) :=
  match m with
  | [] => [(k, v)]
  | (k', v') :: m =>
      if decide (k = k') then (k, v) :: m else (k', v') :: im_insert k v m
  end.

Fixpoint im_shift_remove (k : Z) m : list (Z * V) :=
  match m with
  | [] => []
  | (k', v') :: m => if decide (k = k') then m else (k', v') :: im_shift_remove k m
  end.
End index_map.

Inductive operators_creation_error :=
| TooManyOperatorSlots (n : nat)
| TooFewOperators (n : nat)
| OperatorDuplicate (id : Z).

Inductive operator_not_found := OperatorNotFound (id : Z).
Inductive operator_already_exists := OperatorAlreadyExists (id : Z).
Inductive slot_occupied := SlotOccupied (idx : Z).
Inductive no_available_slots := NoAvailableSlots.

Section node_operators.
Context `{PeerIds} {N : Type}.

Record NodeOperators := {
  id_to_idx : list (Z * Z);
  slots : list (option (NodeOperator N));
  ops_counter : Z;
}.

Implicit Types self : NodeOperators.

Definition ops_iter self : list (NodeOperator N) := omap id (slots self).

(** The [for] loop of [from_slots]; [idx as u8] truncates. *)
Fixpoint index_slots (idx : nat) (slots : list (option (NodeOperator N)))
    (id_to_idx : list (Z * Z)) : res operators_creation_error (list (Z * Z)) :=
  match slots with
  | [] => Ok id_to_idx
  | None :: slots => index_slots (S idx) slots id_to_idx
  | Some operator :: slots =>
      match im_get (op_id operator) id_to_idx with
      | Some _ => Err (OperatorDuplicate (op_id operator))
      | None =>
          index_slots (S idx) slots
            (im_insert (op_id operator) (wrap 8 (Z.of_nat idx)) id_to_idx)
      end
  end.

Definition from_slots (slots : list (option (NodeOperator N)))
    : res operators_creation_error NodeOperators :=
  if decide (length slots < MIN_OPERATORS) then Err (TooFewOperators (length slots))
  else if decide (MAX_OPERATORS < length slots) then Err (TooManyOperatorSlots (length slots))
  else
    id_to_idx ← index_slots 0 slots [];
    Ok {| id_to_idx := id_to_idx; slots := slots; ops_counter := usize_max |}.

Definition get_by_idx self (idx : Z) : option (NodeOperator N) :=
  slot ← slots self !! Z.to_nat idx; slot.

Definition get_idx self (id : Z) : option Z := im_get id (id_to_idx self).

Definition ops_get self (id : Z) : option (NodeOperator N) :=
  idx ← get_idx self id; get_by_idx self idx.

Definition ops_contains self (id : Z) : bool := bool_decide (is_Some (get_idx self id)).
Definition contains_idx self (idx : Z) : bool :=
  match get_by_idx self idx with Some _ => true | None => false end.

Definition contains_client self (peer : PeerId) : bool :=
  existsb (λ slot,
    match slot with
    | Some op => existsb (λ client, bool_decide (client_peer_id client = peer)) (op_clients op)
    | None => false
    end) (slots self).

Definition is_authorized_client self (peer : PeerId) (operator_id : Z)
    (namespace_idx : Z) : bool :=
  match ops_get self operator_id with
  | Some operator =>
      existsb (λ client,
        bool_decide (client_peer_id client = peer) &&
        bool_decide (namespace_idx ∈ authorized_namespaces client)) (op_clients operator)
  | None => false
  end.

Definition contains_node (node_peer_id : N → PeerId) self (peer : PeerId) : bool :=
  existsb (λ slot,
    match slot with
    | Some op => existsb (λ node, bool_decide (node_peer_id node = peer)) (op_nodes op)
    | None => false
    end) (slots self).

Definition ops_with_counter self (counter : Z) : NodeOperators :=
  {| id_to_idx := id_to_idx self; slots := slots self; ops_counter := counter |}.

(** [self.slots[self.id_to_idx[pos] as usize].as_ref().unwrap()]. *)
Definition operator_at {E} self (pos : nat) : res E (NodeOperator N) :=
  '(_, idx) ← unwrap (id_to_idx self !! pos);
  slot ← unwrap (slots self !! Z.to_nat idx);
  unwrap slot.

Definition find_next_operator {E R} (cb : NodeOperator N → option R) self
    : res E (option R * NodeOperators) :=
  let num_operators := length (id_to_idx self) in
  let '(offset, counter) := fetch_add_1 (ops_counter self) in
  r ← find_loop (λ idx, operator_at self (lb_index offset num_operators idx)) cb
        (seq 0 num_operators);
  Ok (r, ops_with_counter self counter).

Definition ops_next {E} self : res E (NodeOperator N * NodeOperators) :=
  let '(n, counter) := fetch_add_1 (ops_counter self) in
  if decide (id_to_idx self = []) then Panic
  else
    op ← operator_at self (Z.to_nat (n mod Z.of_nat (length (id_to_idx self))));
    Ok (op, ops_with_counter self counter).

(** [expand]: [checked_sub(..).unwrap_or_default()] pushes of [None]. *)
Definition expand (idx : Z) (slots : list (option (NodeOperator N)))
    : list (option (NodeOperator N)) :=
  let desired_len := (idx + 1)%Z in
  let slots_to_add := default 0%Z (u64_checked_sub desired_len (Z.of_nat (length slots))) in
  slots ++ replicate (Z.to_nat slots_to_add) None.

(** [set]; the last assignment panics when [idx] is out of range. *)
Definition ops_set {E} self (idx : Z) (slot : option (NodeOperator N)) : res E NodeOperators :=
  let map1 :=
    match get_by_idx self idx with
    | Some op => im_shift_remove (op_id op) (id_to_idx self)
    | None => id_to_idx self
    end in
  let slots1 :=
    if decide (idx ≤ Z.of_nat (length (slots self)))%Z then expand idx (slots self)
    else slots self in
  let map2 :=
    match slot with
    | Some operator => im_insert (op_id operator) idx map1
    | None => map1
    end in
  if decide (Z.to_nat idx < length slots1) then
    Ok {| id_to_idx := map2; slots := <[Z.to_nat idx := slot]> slots1;
          ops_counter := ops_counter self |}
  else Panic.

Definition require_idx self (id : Z) : res operator_not_found Z :=
  ok_or (get_idx self id) (OperatorNotFound id).

Definition require_not_exists self (id : Z) : res operator_already_exists () :=
  if ops_contains self id then Err (OperatorAlreadyExists id) else Ok ().

Definition require_not_full self : res no_available_slots () :=
  if decide (length (slots self) < MAX_OPERATORS) then Ok ()
  else if existsb (λ slot, match slot with None => true | Some _ => false end) (slots self)
       then Ok () else Err NoAvailableSlots.

Definition require_free_slot self (idx : Z) : res slot_occupied () :=
  if contains_idx self idx then Err (SlotOccupied idx) else Ok ().
End node_operators.
Arguments NodeOperators {_} _.

(** * [IndexMap]: lemmas *)

Section index_map_lemmas.
Context {V : Type}.
Implicit Types m : list (Z * V).

Lemma im_get_insert k v m : im_get k (im_insert k v m) = Some v.
Proof.
  induction m as [|[k' v'] m IH]; cbn; [by rewrite decide_True|].
  case_decide; cbn; [by rewrite decide_True|]. by rewrite decide_False.
Qed.

Lemma im_get_insert_ne k k' v m : k ≠ k' → im_get k (im_insert k' v m) = im_get k m.
Proof.
  intros Hne. induction m as [|[k1 v1] m IH]; cbn; [by rewrite decide_False|].
  repeat case_decide; simplify_eq/=; rewrite ?decide_True, ?decide_False by done; done.
Qed.

Lemma im_insert_keys k v m :
  (im_insert k v m).*1 = if decide (k ∈ m.*1) then m.*1 else m.*1 ++ [k].
Proof.
  induction m as [|[k1 v1] m IH]; cbn.
  { by rewrite decide_False by set_solver. }
  destruct (decide (k = k1)) as [->|Hk]; cbn.
  { by rewrite decide_True by set_solver. }
  rewrite IH. destruct (decide (k ∈ m.*1)).
  - by rewrite decide_True by set_solver.
  - by rewrite decide_False by set_solver.
Qed.

Lemma im_insert_NoDup k v m : NoDup m.*1 → NoDup (im_insert k v m).*1.
Proof.
  intros Hm. rewrite im_insert_keys. case_decide; [done|].
  apply NoDup_app. split_and!; [done| |apply NoDup_singleton]. set_solver.
Qed.

Lemma im_get_elem k v m : im_get k m = Some v → (k, v) ∈ m.
Proof.
  induction m as [|[k1 v1] m IH]; cbn; [done|]. case_decide; intros ?; simplify_eq.
  - left.
  - right. auto.
Qed.

Lemma im_get_elem_NoDup k v m : NoDup m.*1 → (k, v) ∈ m → im_get k m = Some v.
Proof.
  induction m as [|[k1 v1] m IH]; cbn; [set_solver|].
  intros [Hn Hd]%NoDup_cons [?|Hin]%elem_of_cons; simplify_eq.
  - by rewrite decide_True.
  - rewrite decide_False; [auto|]. intros ->. apply Hn.
    apply list_elem_of_fmap. by exists (k1, v).
Qed.

Lemma im_shift_remove_sublist k m : (im_shift_remove k m).*1 `sublist_of` m.*1.
Proof.
  induction m as [|[k1 v1] m IH]; cbn; [done|]. case_decide.
  - by apply sublist_cons.
  - by apply sublist_skip.
Qed.

Lemma im_get_shift_remove_ne k k' m :
  k ≠ k' → im_get k (im_shift_remove k' m) = im_get k m.
Proof.
  intros Hne. induction m as [|[k1 v1] m IH]; cbn; [done|].
  repeat case_decide; simplify_eq/=; rewrite ?decide_True, ?decide_False by done; done.
Qed.

Lemma im_shift_remove_NoDup k m :
  NoDup m.*1 → NoDup (im_shift_remove k m).*1 ∧ im_get k (im_shift_remove k m) = None.
Proof.
  intros Hm. split.
  { eapply sublist_NoDup; [exact Hm|]. apply im_shift_remove_sublist. }
  induction m as [|[k1 v1] m IH]; cbn; [done|]. apply NoDup_cons in Hm as [Hn Hd].
  case_decide; simplify_eq.
  - destruct (im_get k1 m) as [v|] eqn:Hg; [|done].
    destruct Hn. apply im_get_elem in Hg. apply list_elem_of_fmap. by exists (k1, v).
  - cbn. rewrite decide_False by done. auto.
Qed.
End index_map_lemmas.

#[export] Hint Resolve im_insert_NoDup : wcn.

(** * The invariant *)

Section node_operators_wf.
Context `{PeerIds} {N : Type}.
Implicit Types self : NodeOperators N.
Implicit Types l : list (option (NodeOperator N)).

(** [m] lists exactly the occupied slots of [l]. *)
Definition slots_indexed (m : list (Z * Z)) l : Prop :=
  NoDup m.*1 ∧
  ∀ id idx, im_get id m = Some idx ↔
    (0 ≤ idx)%Z ∧ ∃ op, l !! Z.to_nat idx = Some (Some op) ∧ op_id op = id.

Record ops_wf self : Prop := {
  ops_wf_indexed : slots_indexed (id_to_idx self) (slots self);
  ops_wf_len : length (slots self) ≤ MAX_OPERATORS;
  ops_wf_counter : fits 64 (ops_counter self);
}.

Definition slot_ids l : list Z := op_id <$> omap id l.

Lemma get_by_idx_Some self idx op :
  get_by_idx self idx = Some op ↔ slots self !! Z.to_nat idx = Some (Some op).
Proof. unfold get_by_idx. destruct (slots self !! Z.to_nat idx) as [[]|]; naive_solver. Qed.

Lemma elem_of_slot_ids l id :
  id ∈ slot_ids l ↔ ∃ i op, l !! i = Some (Some op) ∧ op_id op = id.
Proof.
  unfold slot_ids. rewrite list_elem_of_fmap. setoid_rewrite list_elem_of_omap.
  setoid_rewrite list_elem_of_lookup. naive_solver.
Qed.

Lemma slots_indexed_keys m l id :
  slots_indexed m l → is_Some (im_get id m) ↔ id ∈ slot_ids l.
Proof.
  intros [_ Hm]. rewrite elem_of_slot_ids. split.
  - intros [idx (? & op & ? & ?)%Hm]. eauto.
  - intros (i & op & Hi & Hid). exists (Z.of_nat i). apply Hm.
    split; [lia|]. rewrite Nat2Z.id. eauto.
Qed.

Lemma slots_indexed_None m l : slots_indexed m l → slots_indexed m (l ++ [None]).
Proof.
  intros [Hd Hm]. split; [done|]. intros id idx. rewrite Hm.
  split; intros (? & op & Hl & ?); split; try done; exists op; split; try done.
  - by apply lookup_app_l_Some.
  - apply lookup_app_Some in Hl as [?|[? Hl]]; [done|].
    apply list_lookup_singleton_Some in Hl as [? ?]. done.
Qed.

Lemma slots_indexed_snoc m l op :
  slots_indexed m l → im_get (op_id op) m = None →
  slots_indexed (im_insert (op_id op) (Z.of_nat (length l)) m) (l ++ [Some op]).
Proof.
  intros [Hd Hm] Hnew. split; [by apply im_insert_NoDup|]. intros id idx.
  destruct (decide (id = op_id op)) as [->|Hne].
  - rewrite im_get_insert. split.
    + intros [= <-]. split; [lia|]. exists op.
      by rewrite Nat2Z.id, lookup_app_r, Nat.sub_diag by lia.
    + intros (? & op' & Hl & Hid). apply lookup_app_Some in Hl as [Hl|[? Hl]].
      * assert (im_get (op_id op) m = Some idx) by (apply Hm; eauto). congruence.
      * apply list_lookup_singleton_Some in Hl as [? _]. f_equal. lia.
  - rewrite im_get_insert_ne by done. rewrite Hm.
    split; intros (? & op' & Hl & ?); split; try done; exists op'; split; try done.
    + by apply lookup_app_l_Some.
    + apply lookup_app_Some in Hl as [?|[? Hl]]; [done|].
      apply list_lookup_singleton_Some in Hl as [? ?]. naive_solver.
Qed.

Lemma slot_ids_app l1 l2 : slot_ids (l1 ++ l2) = slot_ids l1 ++ slot_ids l2.
Proof. unfold slot_ids. by rewrite omap_app, fmap_app. Qed.

(** The loop of [from_slots] indexes every slot, or reports a duplicate. *)
Lemma index_slots_spec l done m :
  slots_indexed m done → length (done ++ l) ≤ MAX_OPERATORS → NoDup (slot_ids done) →
  match index_slots (length done) l m with
  | Ok m' => slots_indexed m' (done ++ l) ∧ NoDup (slot_ids (done ++ l))
  | Err (OperatorDuplicate id) => ¬ NoDup (slot_ids (done ++ l))
  | _ => False
  end.
Proof.
  revert done m. induction l as [|[op|] l IH]; intros dn m Hm Hlen Hnd; cbn [index_slots].
  - by rewrite app_nil_r.
  - rewrite length_app in Hlen; cbn in Hlen.
    destruct (im_get (op_id op) m) as [idx|] eqn:Hg.
    + assert (op_id op ∈ slot_ids dn) as Hin by (eapply slots_indexed_keys; eauto).
      rewrite slot_ids_app. intros (_ & Hdis & _)%NoDup_app.
      apply (Hdis _ Hin). cbn. left.
    + unfold MAX_OPERATORS in Hlen.
      rewrite wrap_small by (unfold fits; lia).
      specialize (IH (dn ++ [Some op]) (im_insert (op_id op) (Z.of_nat (length dn)) m)).
      rewrite last_length, <-app_assoc in IH. apply IH.
      * by apply slots_indexed_snoc.
      * rewrite length_app. cbn. unfold MAX_OPERATORS. lia.
      * rewrite slot_ids_app. apply NoDup_app. split_and!; [done| |apply NoDup_singleton].
        intros id Hin ->%list_elem_of_singleton.
        eapply slots_indexed_keys in Hin as [? ?]; [|done]. congruence.
  - specialize (IH (dn ++ [None]) m).
    rewrite last_length, <-app_assoc in IH. apply IH.
    + by apply slots_indexed_None.
    + done.
    + by rewrite slot_ids_app, app_nil_r.
Qed.

(** Emptying a slot, then filling it. *)
Lemma slots_indexed_clear m l (idx : Z) :
  (0 ≤ idx)%Z → slots_indexed m l →
  slots_indexed
    (match l !! Z.to_nat idx with
     | Some (Some op) => im_shift_remove (op_id op) m
     | _ => m
     end) (<[Z.to_nat idx := None]> l) ∧
  ∀ id, im_get id m = None ∨ im_get id m = Some idx →
    im_get id (match l !! Z.to_nat idx with
               | Some (Some op) => im_shift_remove (op_id op) m
               | _ => m
               end) = None.
Proof.
  intros Hidx [Hd Hm]. destruct (l !! Z.to_nat idx) as [[op|]|] eqn:Hl.
  - assert (im_get (op_id op) m = Some idx) as Hop by (apply Hm; eauto).
    destruct (im_shift_remove_NoDup (op_id op) m Hd) as [Hd' Hrem]. split; [split; [done|]|].
    + intros id j. destruct (decide (id = op_id op)) as [->|Hne].
      * rewrite Hrem. split; [done|]. intros (? & op' & Hj & Hid).
        apply list_lookup_insert_Some in Hj as [(? & ? & ?)|(Hij & Hj)]; [done|].
        assert (im_get (op_id op) m = Some j) by (apply Hm; eauto).
        simplify_eq.
      * rewrite im_get_shift_remove_ne, Hm by done.
        split; intros (? & op' & Hj & Hid); (split; [done|]); exists op'; (split; [|done]).
        -- rewrite list_lookup_insert_ne; [done|]. intros Heq.
           rewrite <-Heq, Hl in Hj. naive_solver.
        -- by apply list_lookup_insert_Some in Hj as [(? & ? & ?)|(Hij & Hj)].
    + intros id [Hid|Hid].
      * destruct (decide (id = op_id op)) as [->|]; [done|].
        by rewrite im_get_shift_remove_ne.
      * apply Hm in Hid as (_ & op' & Hl' & <-). rewrite Hl in Hl'. by simplify_eq.
  - split; [|intros id [?|Hid]; [done|]].
    + split; [done|]. by rewrite list_insert_id.
    + apply Hm in Hid as (_ & op' & Hl' & _). congruence.
  - split; [|intros id [?|Hid]; [done|]].
    + split; [done|]. rewrite list_insert_ge; [done|]. by apply lookup_ge_None_1.
    + apply Hm in Hid as (_ & op' & Hl' & _). congruence.
Qed.

Lemma slots_indexed_fill m l (idx : Z) op :
  (0 ≤ idx)%Z → slots_indexed m l → l !! Z.to_nat idx = Some None →
  im_get (op_id op) m = None →
  slots_indexed (im_insert (op_id op) idx m) (<[Z.to_nat idx := Some op]> l).
Proof.
  intros Hidx [Hd Hm] Hl Hnew. split; [by apply im_insert_NoDup|]. intros id j.
  apply lookup_lt_Some in Hl as Hlt.
  destruct (decide (id = op_id op)) as [->|Hne].
  - rewrite im_get_insert. split.
    + intros [= <-]. split; [done|]. exists op. by rewrite list_lookup_insert_eq.
    + intros (? & op' & Hj & Hid).
      apply list_lookup_insert_Some in Hj as [(? & ? & ?)|(Hij & Hj)]; [f_equal; lia|].
      assert (im_get (op_id op) m = Some j) by (apply Hm; eauto). congruence.
  - rewrite im_get_insert_ne, Hm by done.
    split; intros (? & op' & Hj & Hid); (split; [done|]); exists op'; (split; [|done]).
    + rewrite list_lookup_insert_ne; [done|]. intros Heq. rewrite <-Heq, Hl in Hj. done.
    + apply list_lookup_insert_Some in Hj as [(? & ? & ?)|(Hij & Hj)]; naive_solver.
Qed.

Lemma expand_eq (idx : Z) l :
  (0 ≤ idx ≤ Z.of_nat (length l))%Z →
  expand idx l = if decide (idx = Z.of_nat (length l)) then l ++ [None] else l.
Proof.
  intros Hidx. unfold expand, u64_checked_sub.
  destruct (decide (idx = Z.of_nat (length l))) as [Heq|Heq].
  - rewrite decide_True by lia. cbn. f_equal.
    replace (Z.to_nat (idx + 1 - Z.of_nat (length l))) with 1 by lia. done.
  - case_decide; cbn.
    + replace (Z.to_nat (idx + 1 - Z.of_nat (length l))) with 0 by lia. apply app_nil_r.
    + apply app_nil_r.
Qed.

(** [set] succeeds exactly when the index is at most one past the end. *)
Lemma ops_set_cases {E} self (idx : Z) slot :
  (0 ≤ idx)%Z →
  ops_set (E := E) self idx slot =
    if decide (idx ≤ Z.of_nat (length (slots self)))%Z then
      let l := expand idx (slots self) in
      let m := match get_by_idx self idx with
               | Some op => im_shift_remove (op_id op) (id_to_idx self)
               | None => id_to_idx self
               end in
      Ok {| id_to_idx := match slot with Some op => im_insert (op_id op) idx m | None => m end;
            slots := <[Z.to_nat idx := slot]> l; ops_counter := ops_counter self |}
    else Panic.
Proof.
  intros Hidx. unfold ops_set.
  destruct (decide (idx ≤ Z.of_nat (length (slots self)))%Z) as [Hle|Hle].
  - rewrite decide_True; [done|]. rewrite expand_eq by done.
    case_decide; rewrite ?length_app; cbn; lia.
  - rewrite decide_False by lia. done.
Qed.

(** The slot an operation on [set] may fill: free, or already the operator's. *)
Definition slot_free_for self (idx : Z) (slot : option (NodeOperator N)) : Prop :=
  match slot with
  | Some op => get_idx self (op_id op) = None ∨ get_idx self (op_id op) = Some idx
  | None => True
  end.

Lemma ops_set_wf {E} self (idx : Z) slot self' :
  ops_wf self → fits 8 idx → slot_free_for self idx slot →
  ops_set (E := E) self idx slot = Ok self' →
  ops_wf self' ∧ slots self' = <[Z.to_nat idx := slot]> (expand idx (slots self)).
Proof.
  intros [Hi Hlen Hc] Hidx Hfree. unfold fits in Hidx. rewrite ops_set_cases by lia.
  case_decide as Hle; [|done]. intros <-%Ok_inj. split; [|done].
  set (l := expand idx (slots self)).
  assert (slots_indexed (id_to_idx self) l ∧ Z.to_nat idx < length l ∧
          length l ≤ MAX_OPERATORS ∧
          l !! Z.to_nat idx = Some (get_by_idx self idx)) as (Hl & Hlt & Hmax & Hget).
  { unfold l. rewrite expand_eq by lia. unfold get_by_idx. case_decide.
    - rewrite length_app. cbn. split_and!; [by apply slots_indexed_None|lia| |].
      + unfold MAX_OPERATORS. lia.
      + rewrite (lookup_ge_None_2 (slots self)), lookup_app_r by lia.
        by replace (Z.to_nat idx - length (slots self)) with 0 by lia.
    - split_and!; [done|lia|done|].
      destruct (lookup_lt_is_Some_2 (slots self) (Z.to_nat idx)) as [s Hs]; [lia|].
      by rewrite Hs. }
  destruct (slots_indexed_clear (id_to_idx self) l idx ltac:(lia) Hl) as [Hclear Hnone].
  rewrite Hget in Hclear, Hnone.
  split; cbn; [|by rewrite length_insert|done].
  destruct slot as [op|].
  - rewrite <-(list_insert_insert_eq l (Z.to_nat idx) _ None).
    destruct (get_by_idx self idx); apply slots_indexed_fill; try done;
      try lia; try (by rewrite list_lookup_insert_eq); by apply Hnone.
  - by destruct (get_by_idx self idx).
Qed.
End node_operators_wf.

(** * Lookups, sweeps *)

Section node_operators_lookup.
Context `{PeerIds} {N : Type}.
Implicit Types self : NodeOperators N.

(** The operators in the order the load balancer visits them. *)
Definition ops_ordered self : list (NodeOperator N) :=
  omap (λ e, get_by_idx self e.2) (id_to_idx self).

Lemma get_idx_Some self id idx :
  ops_wf self →
  get_idx self id = Some idx ↔ (0 ≤ idx)%Z ∧ ∃ op, get_by_idx self idx = Some op ∧ op_id op = id.
Proof.
  intros [[_ Hm] _ _]. unfold get_idx. rewrite Hm. setoid_rewrite get_by_idx_Some. done.
Qed.

Lemma get_idx_fits self id idx :
  ops_wf self → get_idx self id = Some idx →
  fits 8 idx ∧ (idx < Z.of_nat (length (slots self)))%Z.
Proof.
  intros Hwf (? & op & Hop & _)%get_idx_Some; [|done].
  apply get_by_idx_Some, lookup_lt_Some in Hop. pose proof (ops_wf_len _ Hwf).
  unfold MAX_OPERATORS in *. unfold fits. lia.
Qed.

Lemma ops_get_Some self id op :
  ops_wf self → ops_get self id = Some op ↔ op ∈ ops_iter self ∧ op_id op = id.
Proof.
  intros Hwf. unfold ops_get, ops_iter. rewrite list_elem_of_omap.
  setoid_rewrite list_elem_of_lookup. split.
  - intros Hget. destruct (get_idx self id) as [idx|] eqn:Hid; [|done]; cbn in Hget.
    apply get_idx_Some in Hid as (? & op' & Hop & ?); [|done].
    rewrite Hop in Hget. simplify_eq. apply get_by_idx_Some in Hop. naive_solver.
  - intros [(s & [i Hi] & Hs) Hid]. cbn in Hs; subst.
    assert (get_idx self (op_id op) = Some (Z.of_nat i)) as ->.
    { apply get_idx_Some; [done|]. split; [lia|]. exists op. split; [|done].
      apply get_by_idx_Some. by rewrite Nat2Z.id. }
    cbn. apply get_by_idx_Some. by rewrite Nat2Z.id.
Qed.

Lemma map_entry_operator self k e :
  ops_wf self → id_to_idx self !! k = Some e → ∃ op, get_by_idx self e.2 = Some op ∧ op_id op = e.1.
Proof.
  intros Hwf He. destruct e as [id idx]. apply list_elem_of_lookup_2 in He.
  apply im_get_elem_NoDup in He; [|apply Hwf].
  apply (get_idx_Some self id idx Hwf) in He. naive_solver.
Qed.

Lemma omap_total {A B} (f : A → option B) l :
  (∀ k a, l !! k = Some a → is_Some (f a)) →
  length (omap f l) = length l ∧ ∀ k, omap f l !! k = l !! k ≫= f.
Proof.
  induction l as [|a l IH]; intros Hf; [done|].
  destruct (Hf 0 a eq_refl) as [b Hb]. destruct IH as [Hlen IH].
  { intros k. apply (Hf (S k)). }
  cbn. rewrite Hb. cbn. split; [lia|]. intros [|k]; cbn; [done|apply IH].
Qed.

Lemma ops_ordered_spec self :
  ops_wf self →
  length (ops_ordered self) = length (id_to_idx self) ∧
  ∀ k, ops_ordered self !! k = id_to_idx self !! k ≫= λ e, get_by_idx self e.2.
Proof.
  intros Hwf. apply omap_total. intros k e He.
  destruct (map_entry_operator self k e Hwf He) as (op & -> & _). done.
Qed.

Lemma operator_at_ordered {E} self pos :
  ops_wf self → operator_at (E := E) self pos = unwrap (ops_ordered self !! pos).
Proof.
  intros Hwf. destruct (ops_ordered_spec self Hwf) as [_ ->]. unfold operator_at.
  destruct (id_to_idx self !! pos) as [[id idx]|] eqn:He; cbn; [|done].
  destruct (map_entry_operator self pos _ Hwf He) as (op & Hop & _); cbn in Hop.
  rewrite Hop. apply get_by_idx_Some in Hop. rewrite Hop. done.
Qed.

(** No two slots hold the same operator. *)
Lemma slots_indexed_inj m (l : list (option (NodeOperator N))) i j a b :
  slots_indexed m l → l !! i = Some (Some a) → l !! j = Some (Some b) →
  op_id a = op_id b → i = j.
Proof.
  intros [_ Hm] Ha Hb Hab.
  assert (∀ k c, l !! k = Some (Some c) → im_get (op_id c) m = Some (Z.of_nat k)) as Hk.
  { intros k c Hc. apply Hm. split; [lia|]. rewrite Nat2Z.id. eauto. }
  apply Hk in Ha, Hb. rewrite Hab in Ha. simplify_eq. lia.
Qed.

Lemma slots_indexed_NoDup m (l : list (option (NodeOperator N))) :
  slots_indexed m l → NoDup (slot_ids l).
Proof.
  intros Hi. pose proof (λ i j a b, slots_indexed_inj m l i j a b Hi) as Hinj.
  clear Hi. induction l as [|[op|] l IH]; cbn; [constructor| |].
  - apply NoDup_cons. split.
    + intros (k & op' & Hk & Hid)%elem_of_slot_ids.
      specialize (Hinj 0 (S k) op op' eq_refl Hk (eq_sym Hid)). done.
    + apply IH. intros i j a b Ha Hb Hab.
      specialize (Hinj (S i) (S j) a b Ha Hb Hab). lia.
  - apply IH. intros i j a b Ha Hb Hab.
    specialize (Hinj (S i) (S j) a b Ha Hb Hab). lia.
Qed.

(** The load balancer goes over exactly the operators of the slots. *)
Lemma ops_ordered_perm self : ops_wf self → ops_ordered self ≡ₚ ops_iter self.
Proof.
  intros Hwf. assert (op_id <$> ops_ordered self = (id_to_idx self).*1) as Hids.
  { apply list_eq. intros k. rewrite !list_lookup_fmap.
    destruct (ops_ordered_spec self Hwf) as [_ ->].
    destruct (id_to_idx self !! k) as [e|] eqn:He; cbn; [|done].
    destruct (map_entry_operator self k e Hwf He) as (op & -> & Hid). cbn. by rewrite Hid. }
  assert (∀ op, op ∈ ops_ordered self ↔ op ∈ ops_iter self) as Hin.
  { intros op. unfold ops_ordered, ops_iter. rewrite !list_elem_of_omap. split.
    - intros ([id idx] & _ & Hop). apply get_by_idx_Some in Hop.
      exists (Some op). split; [|done]. by eapply list_elem_of_lookup_2.
    - intros (s & [i Hi]%list_elem_of_lookup & Hs). cbn in Hs; subst.
      exists (op_id op, Z.of_nat i). split.
      + apply im_get_elem. apply (get_idx_Some self); [done|]. split; [lia|].
        exists op. split; [|done]. apply get_by_idx_Some. by rewrite Nat2Z.id.
      + apply get_by_idx_Some. cbn. by rewrite Nat2Z.id. }
  apply NoDup_Permutation; [| |done].
  - eapply NoDup_fmap_1 with (f := op_id). rewrite Hids. apply Hwf.
  - eapply NoDup_fmap_1 with (f := op_id). eapply slots_indexed_NoDup, Hwf.
Qed.
End node_operators_lookup.

(** * Properties *)

Section node_operators_properties.
Context `{PeerIds} {N : Type}.
Implicit Types self : NodeOperators N.

Lemma from_slots_cases (l : list (option (NodeOperator N))) :
  match from_slots l with
  | Ok self => ops_wf self ∧ slots self = l ∧
               MIN_OPERATORS ≤ length l ≤ MAX_OPERATORS ∧ NoDup (slot_ids l)
  | Err (TooFewOperators n) => n = length l ∧ n < MIN_OPERATORS
  | Err (TooManyOperatorSlots n) => n = length l ∧ MAX_OPERATORS < n
  | Err (OperatorDuplicate id) => ¬ NoDup (slot_ids l)
  | Panic => False
  end.
Proof.
  unfold from_slots. case_decide as Hmin; [done|]. case_decide as Hmax; [done|].
  pose proof (index_slots_spec l [] []) as Hspec. cbn in Hspec.
  assert (slots_indexed (N := N) [] []) as Hnil.
  { split; [constructor|]. intros id idx. cbn. split; [done|].
    intros (_ & op & Hop & _). by rewrite lookup_nil in Hop. }
  specialize (Hspec Hnil ltac:(lia) ltac:(constructor)).
  destruct (index_slots 0 l []) as [m|[]|]; cbn; try done.
  destruct Hspec as [Hm Hnd]. split_and!; try done; try lia.
  split; cbn; [done|lia|done].
Qed.

Lemma from_slots_ok (l : list (option (NodeOperator N))) self :
  from_slots l = Ok self → ops_wf self.
Proof. intros Hok. pose proof (from_slots_cases l) as Hs. rewrite Hok in Hs. apply Hs. Qed.

(** [from_slots] accepts exactly the lists of 5 to 256 slots without a
    duplicate operator, keeps the slots as they are and builds an index that
    agrees with them; every other list is refused with the matching error. *)
Theorem from_slots_spec (l : list (option (NodeOperator N))) :
  match from_slots l with
  | Ok self => ops_wf self ∧ slots self = l ∧
               MIN_OPERATORS ≤ length l ≤ MAX_OPERATORS ∧ NoDup (slot_ids l)
  | Err (TooFewOperators n) => n = length l ∧ n < MIN_OPERATORS
  | Err (TooManyOperatorSlots n) => n = length l ∧ MAX_OPERATORS < n
  | Err (OperatorDuplicate id) => ¬ NoDup (slot_ids l)
  | Panic => False
  end.
Proof. apply from_slots_cases. Qed.

Lemma ops_set_update {E} self (idx : Z) slot :
  ops_wf self → fits 8 idx → slot_free_for self idx slot →
  if decide (idx ≤ Z.of_nat (length (slots self)))%Z then
    ∃ self', ops_set (E := E) self idx slot = Ok self' ∧ ops_wf self' ∧
      get_by_idx self' idx = slot ∧
      (∀ j, (0 ≤ j)%Z → j ≠ idx → get_by_idx self' j = get_by_idx self j) ∧
      ops_counter self' = ops_counter self
  else ops_set (E := E) self idx slot = Panic.
Proof.
  intros Hwf Hidx Hfree. pose proof Hidx as Hidx'. unfold fits in Hidx'.
  pose proof (ops_set_cases (E := E) self idx slot ltac:(lia)) as Hset.
  case_decide as Hle; [|done]. eexists; split; [exact Hset|].
  destruct (ops_set_wf _ _ _ _ Hwf Hidx Hfree Hset) as [Hwf' Hslots].
  split; [done|]. unfold get_by_idx. cbn [slots ops_counter]. rewrite expand_eq by lia.
  split_and!; [| |done].
  - rewrite list_lookup_insert_eq; [done|]. case_decide; rewrite ?length_app; cbn; lia.
  - intros j Hj Hne. rewrite list_lookup_insert_ne by lia.
    case_decide; [|done]. destruct (decide (j < Z.of_nat (length (slots self)))%Z).
    + by rewrite lookup_app_l by lia.
    + rewrite lookup_app_r, lookup_ge_None_2, lookup_ge_None_2; cbn; try done; lia.
Qed.

(** [set] is an update of a partial map from indices to operators: it
    panics exactly when the index is more than one past the end, and otherwise
    changes the slot it is given, no other slot, and keeps the index, the
    bound on the number of slots and the counter intact. *)
Theorem ops_set_spec self (idx : Z) slot :
  ops_wf self → fits 8 idx → slot_free_for self idx slot →
  if decide (idx ≤ Z.of_nat (length (slots self)))%Z then
    ∃ self', ops_set (E := Empty_set) self idx slot = Ok self' ∧ ops_wf self' ∧
      get_by_idx self' idx = slot ∧
      (∀ j, (0 ≤ j)%Z → j ≠ idx → get_by_idx self' j = get_by_idx self j) ∧
      ops_counter self' = ops_counter self
  else ops_set (E := Empty_set) self idx slot = Panic.
Proof. apply ops_set_update. Qed.

(** Looking an operator up by its id is looking it up in the slots: [get]
    returns the operator of the slots with that id, and [None] exactly when
    there is none; the index [get_idx] returns is a [u8] that leads to it. *)
Theorem ops_get_agrees_with_slots self id :
  ops_wf self →
  (∀ op, ops_get self id = Some op ↔ op ∈ ops_iter self ∧ op_id op = id) ∧
  (∀ idx, get_idx self id = Some idx → fits 8 idx ∧ ops_get self id = get_by_idx self idx) ∧
  (ops_contains self id = true ↔ id ∈ slot_ids (slots self)).
Proof.
  intros Hwf. split; [by intros; apply ops_get_Some|]. split.
  - intros idx Hidx. split; [by eapply get_idx_fits|].
    unfold ops_get. by rewrite Hidx.
  - unfold ops_contains. rewrite bool_decide_eq_true.
    apply slots_indexed_keys, Hwf.
Qed.

(** [find_next_operator] asks every operator of the cluster as long as its
    counter does not wrap: [None] means that no operator satisfies the
    callback; no index panics. *)
Theorem find_next_operator_complete {R} (cb : NodeOperator N → option R) self :
  ops_wf self → lb_no_wrap (ops_counter self) (length (id_to_idx self)) →
  ∃ r, find_next_operator (E := Empty_set) cb self
       = Ok (r, ops_with_counter self (u64_add (ops_counter self) 1)) ∧
       sweep_result (ops_iter self) cb r.
Proof.
  intros Hwf Hw. destruct (ops_ordered_spec self Hwf) as [Hlen _].
  rewrite <-Hlen in Hw.
  destruct (lb_sweep_result (E := Empty_set) (ops_ordered self) cb (ops_counter self)
              (ops_wf_counter _ Hwf) Hw) as (r & Hr & Hres).
  exists r. unfold find_next_operator, fetch_add_1. rewrite <-Hlen. split.
  - erewrite find_loop_ext; [rewrite Hr; done|].
    intros i. by apply operator_at_ordered.
  - by apply (sweep_result_perm_l (ops_ordered self)); [apply ops_ordered_perm|].
Qed.
End node_operators_properties.

Section node_operators_authorization.
Context `{PeerIds} {N : Type}.
Implicit Types self : NodeOperators N.

(** A client is let into a namespace exactly when an operator of the
    cluster with the namespace's operator id lists a client with that peer id
    and that namespace. *)
Theorem is_authorized_client_spec self peer operator_id namespace_idx :
  ops_wf self →
  is_authorized_client self peer operator_id namespace_idx = true ↔
  ∃ op client, op ∈ ops_iter self ∧ op_id op = operator_id ∧ client ∈ op_clients op ∧
    client_peer_id client = peer ∧ namespace_idx ∈ authorized_namespaces client.
Proof.
  intros Hwf. unfold is_authorized_client.
  destruct (ops_get self operator_id) as [op|] eqn:Hget.
  - pose proof (proj1 (ops_get_Some self operator_id op Hwf) Hget) as [Hin Hid].
    rewrite existsb_exists. setoid_rewrite andb_true_iff.
    setoid_rewrite bool_decide_eq_true. setoid_rewrite <-list_elem_of_In. split.
    + intros (client & ? & ? & ?). exists op, client. done.
    + intros (op' & client & Hin' & Hid' & ? & ? & ?).
      assert (ops_get self operator_id = Some op') by (by apply ops_get_Some).
      simplify_eq. by exists client.
  - split; [done|]. intros (op & client & Hin & Hid & _).
    assert (ops_get self operator_id = Some op) by (by apply ops_get_Some). congruence.
Qed.
End node_operators_authorization.

(** * Witnesses: five operators *)

Definition toy_op (id : Z) : @NodeOperator toy_peer_ids Z := {|
  op_id := id; op_name := "op"%string;
  op_clients := [{| client_peer_id := (id + 100)%Z : @PeerId toy_peer_ids;
                    authorized_namespaces := [0; 1]%Z |}];
  op_nodes := [10 * id; 10 * id + 1]%Z; op_counter := usize_max |}.

Definition toy_slots : list (option (@NodeOperator toy_peer_ids Z)) :=
  Some ∘ toy_op <$> [1; 2; 3; 4; 5]%Z.

Definition toy_ops (counter : Z) : @NodeOperators toy_peer_ids Z := {|
  id_to_idx := [(1, 0); (2, 1); (3, 2); (4, 3); (5, 4)]%Z;
  slots := toy_slots; ops_counter := counter |}.

Lemma toy_ops_new : from_slots toy_slots = Ok (toy_ops usize_max).
Proof. reflexivity. Qed.

Lemma toy_ops_wf c : fits 64 c → ops_wf (toy_ops c).
Proof.
  intros Hc. pose proof (from_slots_ok toy_slots _ toy_ops_new) as [Hi Hl _].
  by split.
Qed.

Lemma ops_set_spec_witness :
  ∃ self', ops_set (E := Empty_set) (toy_ops 0) 5 (Some (toy_op 6)) = Ok self' ∧
    ops_wf self' ∧ get_by_idx self' 5 = Some (toy_op 6) ∧
    (∀ j, (0 ≤ j)%Z → j ≠ 5%Z → get_by_idx self' j = get_by_idx (toy_ops 0) j) ∧
    ops_counter self' = 0%Z.
Proof.
  apply (@ops_set_spec toy_peer_ids Z (toy_ops 0) 5 (Some (toy_op 6))).
  - by apply toy_ops_wf.
  - done.
  - by left.
Defined.

Lemma ops_get_agrees_with_slots_witness :
  ops_get (toy_ops 0) 3 = Some (toy_op 3) ↔
  toy_op 3 ∈ ops_iter (toy_ops 0) ∧ op_id (toy_op 3) = 3%Z.
Proof.
  apply (@ops_get_agrees_with_slots toy_peer_ids Z (toy_ops 0) 3). by apply toy_ops_wf.
Defined.

Definition is_op (id : Z) (op : @NodeOperator toy_peer_ids Z) : option Z :=
  if decide (op_id op = id) then Some id else None.

Lemma find_next_operator_complete_witness :
  ∃ r, find_next_operator (E := Empty_set) (is_op 5) (toy_ops 3)
       = Ok (r, ops_with_counter (toy_ops 3) 4) ∧
       sweep_result (ops_iter (toy_ops 3)) (is_op 5) r.
Proof.
  apply (@find_next_operator_complete toy_peer_ids Z _ (is_op 5) (toy_ops 3)).
  - by apply toy_ops_wf.
  - left. done.
Defined.

Lemma is_authorized_client_spec_witness :
  is_authorized_client (toy_ops 0) (103%Z : @PeerId toy_peer_ids) 3 1 = true ↔
  ∃ op client, op ∈ ops_iter (toy_ops 0) ∧ op_id op = 3%Z ∧ client ∈ op_clients op ∧
    client_peer_id client = 103%Z ∧ 1%Z ∈ authorized_namespaces client.
Proof.
  apply (@is_authorized_client_spec toy_peer_ids Z (toy_ops 0)). by apply toy_ops_wf.
Defined.

(** In a cluster of five operators whose view was just built, the first
    sweep of [find_next_operator] asks operator 0 twice and operator 4 never:
    the counter starts at [usize::MAX], the second index wraps to 0, and [2^64]
    is not a multiple of 5.  It can return [None] although an operator
    satisfies the callback. *)
Theorem find_next_operator_fresh_misses :
  ∃ (self self' : @NodeOperators toy_peer_ids Z) (cb : @NodeOperator toy_peer_ids Z → option Z) op,
    from_slots toy_slots = Ok self ∧ op ∈ ops_iter self ∧ cb op = Some 5%Z ∧
    find_next_operator (E := Empty_set) cb self = Ok (None, self').
Proof.
  exists (toy_ops usize_max), (toy_ops 0), (is_op 5), (toy_op 5).
  split; [reflexivity|]. split; [|split; reflexivity].
  apply list_elem_of_omap. exists (Some (toy_op 5)). split; [|done].
  do 4 apply list_elem_of_further. apply list_elem_of_here.
Qed.
