(* ===== verification/Keyspace.v ===== *)
(** Keyspace: keyspaces, ownership and maintenance of a cluster
    (src/crates/cluster/src/keyspace.rs, ownership.rs, maintenance.rs).

    A [Keyspace ()] is the set of operators that hold the data; a
    [Keyspace Shards] also has the replica set of every shard, computed by the
    sharding crate.  The trait [sealed::Calculate] that makes code polymorphic
    in the two is the class [Calculate]; [CalculateSpec] states what its users
    may rely on, and both instances satisfy it.

    The hasher (xxh3) and the iteration order of [HashSet] are parameters
    ([Hashing]). *)
From S2P Require Import Prelude External Sharding SmartContract NodeOperator NodeOperators.
From stdpp Require Import prelude gmap sets list.

Definition REPLICATION_FACTOR : nat := 5.
Definition MAX_KEYSPACE_OPERATORS : nat := 256.

(** * Hashing *)
Class Hashing := {
  (** [Xxh3Builder::default().hash_one((idx, shard_idx))]. *)
  xxh3_hash_one : Z → Z → Z;
  (** Iteration over a [HashSet] of indices or addresses. *)
  hashset_iter : gset Z → list Z;
}.

Class HashingLaws `{Hashing} := {
  hashset_iter_perm s : hashset_iter s ≡ₚ elements s;
}.

(** * Data *)

(** [enum ReplicationStrategy { UniformDistribution = 0 }]. *)
Inductive KsReplicationStrategy := UniformDistribution.

#[export] Instance KsReplicationStrategy_eq_dec : EqDecision KsReplicationStrategy.
Proof. solve_decision. Defined.

(** [ReplicationStrategy::try_from(u8)] and [as u8]. *)
Definition strategy_try_from (repr : Z) : option KsReplicationStrategy :=
  if decide (repr = 0%Z) then Some UniformDistribution else None.
Definition strategy_as_u8 (s : KsReplicationStrategy) : Z :=
  match s with UniformDistribution => 0%Z end.

Record Keyspace (S : Type) := {
  ks_operators : gset Z;
  ks_shards : S;
  ks_replication_strategy : KsReplicationStrategy;
}.
Arguments Build_Keyspace {_} _ _ _.
Arguments ks_operators {_} _.
Arguments ks_shards {_} _.
Arguments ks_replication_strategy {_} _.

Definition Shards := ShardingKeyspace Z.

(** [struct Shard { replica_set }]. *)
Record Shard (T : Type) := { replica_set : list T }.
Arguments Build_Shard {_} _.
Arguments replica_set {_} _.

Inductive keyspace_creation_error :=
| KsTooFewOperators (n : nat)
| KsTooManyOperators (n : nat).

Inductive same_keyspace_error := SameKeyspace.
Inductive unknown_node_operator := UnknownNodeOperator (idx : Z).

Inductive keyspace_from_sc_error :=
| InvalidReplicationStrategy (repr : Z)
| KsCreationError (e : keyspace_creation_error).

(** * Operations *)

Definition keyrange (id : Z) : Z * Z := key_range id.

Definition keyspace_new (operators : gset Z) (replication_strategy : KsReplicationStrategy)
    : res keyspace_creation_error (Keyspace ()) :=
  if decide (size operators < REPLICATION_FACTOR) then Err (KsTooFewOperators (size operators))
  else if decide (MAX_KEYSPACE_OPERATORS < size operators)
       then Err (KsTooManyOperators (size operators))
  else Ok {| ks_operators := operators; ks_shards := ();
             ks_replication_strategy := replication_strategy |}.

(** [Keyspace::shard]. *)
Definition ks_shard {E} (self : Keyspace Shards) (key : Z) : res E (Shard Z) :=
  replicas ← unwrap (shards (ks_shards self) !! Z.to_nat (from_key key));
  Ok {| replica_set := replicas |}.

(** [Keyspace::shards]. *)
Definition ks_all_shards (self : Keyspace Shards) : list (Z * Shard Z) :=
  (λ e, (e.1, {| replica_set := e.2 |})) <$> keyspace_shards (ks_shards self).

Section keyspace_ops.
Context `{Hashing, PeerIds} {S N : Type}.

Definition ks_operators_iter (self : Keyspace S) : list Z := hashset_iter (ks_operators self).

Definition contains_operator (self : Keyspace S) (idx : Z) : bool :=
  bool_decide (idx ∈ ks_operators self).

Definition require_diff {T} (self : Keyspace S) (other : Keyspace T)
    : res same_keyspace_error () :=
  if decide (ks_operators self = ks_operators other ∧
             ks_replication_strategy self = ks_replication_strategy other)
  then Err SameKeyspace else Ok ().

(** The [for] loop of [validate]: the first unknown operator in the order the
    set is iterated. *)
Fixpoint validate_operators (node_operators : NodeOperators N) (idxs : list Z)
    : res unknown_node_operator () :=
  match idxs with
  | [] => Ok ()
  | idx :: idxs =>
      if contains_idx node_operators idx then validate_operators node_operators idxs
      else Err (UnknownNodeOperator idx)
  end.

Definition ks_validate (self : Keyspace S) (node_operators : NodeOperators N)
    : res unknown_node_operator () :=
  validate_operators node_operators (ks_operators_iter self).

(** [From<Keyspace<S>> for smart_contract::Keyspace]. *)
Definition keyspace_into_sc (keyspace : Keyspace S) : ScKeyspace := {|
  sc_ks_operators := ks_operators keyspace;
  sc_ks_replication_strategy := strategy_as_u8 (ks_replication_strategy keyspace);
|}.
End keyspace_ops.

(** [TryFrom<smart_contract::Keyspace> for Keyspace]. *)
Definition keyspace_try_from_sc (keyspace : ScKeyspace)
    : res keyspace_from_sc_error (Keyspace ()) :=
  replication_strategy ←
    ok_or (strategy_try_from (sc_ks_replication_strategy keyspace))
      (InvalidReplicationStrategy (sc_ks_replication_strategy keyspace));
  map_err KsCreationError (keyspace_new (sc_ks_operators keyspace) replication_strategy).

(** [trait sealed::Calculate<Shards>]. *)
Class Calculate (S : Type) := {
  calculate_shards {E} : Keyspace () → res E (Keyspace S);
}.

(** [unreachable!] is [Panic]. *)
#[export] Instance calculate_Shards `{Hashing} : Calculate Shards := {|
  calculate_shards E self :=
    match sharding_keyspace_new Z.le xxh3_hash_one hashset_iter REPLICATION_FACTOR
            (DefaultReplicationStrategy Z) (hashset_iter (ks_operators self)) with
    | Ok sharding =>
        Ok {| ks_operators := ks_operators self; ks_shards := sharding;
              ks_replication_strategy := UniformDistribution |}
    | Err (InvalidNodesCount _) => Panic
    | Err IncompleteReplicaSet => Panic
    | Panic => Panic
    end;
|}.

#[export] Instance calculate_unit : Calculate () := {|
  calculate_shards E self := Ok self;
|}.

(** * Ownership and maintenance *)

Record Ownership := { owner : Z }.
Inductive not_owner_error := NotOwner.

Definition is_owner (self : Ownership) (address : Z) : bool :=
  bool_decide (address = owner self).

Definition require_owner (self : Ownership) (address : Z) : res not_owner_error () :=
  if is_owner self address then Ok () else Err NotOwner.

Record Maintenance := { maintenance_slot : Z }.
Inductive maintenance_in_progress := MaintenanceInProgress (id : Z).
Inductive maintenance_not_found := NoMaintenance.

(** * Lemmas *)

Definition ks_wf {S} (ks : Keyspace S) : Prop :=
  REPLICATION_FACTOR ≤ size (ks_operators ks) ≤ MAX_KEYSPACE_OPERATORS.

Lemma keyspace_new_Ok operators s ks :
  keyspace_new operators s = Ok ks ↔
  ks = {| ks_operators := operators; ks_shards := (); ks_replication_strategy := s |} ∧ ks_wf ks.
Proof.
  unfold keyspace_new, ks_wf. split.
  - repeat case_decide; intros Heq; mon_inv; cbn; split; [done|lia].
  - intros [-> Hwf]; cbn in Hwf. rewrite !decide_False by lia. done.
Qed.

Lemma keyspace_try_from_sc_Ok sc ks :
  keyspace_try_from_sc sc = Ok ks →
  ks_wf ks ∧ ks_operators ks = sc_ks_operators sc ∧ keyspace_into_sc ks = sc.
Proof.
  unfold keyspace_try_from_sc. intros Hks. mon_inv.
  apply keyspace_new_Ok in Hks as [-> Hwf]. unfold strategy_try_from in Hm.
  case_decide as Hr; [|done]. simplify_eq. split_and!; [done|done|].
  destruct sc; cbn in *. by subst.
Qed.

Lemma keyspace_try_from_into_sc {S} (ks : Keyspace S) :
  ks_wf ks →
  keyspace_try_from_sc (keyspace_into_sc ks) =
    Ok {| ks_operators := ks_operators ks; ks_shards := ();
          ks_replication_strategy := ks_replication_strategy ks |}.
Proof.
  intros Hwf. destruct ks as [ops sh []]; unfold keyspace_try_from_sc; cbn.
  apply map_err_Ok, keyspace_new_Ok. done.
Qed.

Lemma keyspace_try_from_sc_no_panic sc : keyspace_try_from_sc sc ≠ Panic.
Proof.
  unfold keyspace_try_from_sc, keyspace_new. destruct (strategy_try_from _); cbn; [|done].
  by repeat case_decide.
Qed.

Lemma validate_operators_Ok `{PeerIds} {N} (ops : NodeOperators N) idxs :
  validate_operators ops idxs = Ok () ↔ ∀ idx, idx ∈ idxs → contains_idx ops idx = true.
Proof.
  induction idxs as [|idx idxs IH]; cbn; [set_solver|].
  destruct (contains_idx ops idx) eqn:Hc; [set_solver|].
  split; [done|]. intros Hall. rewrite Hall in Hc; [done|left].
Qed.

Lemma validate_operators_no_panic `{PeerIds} {N} (ops : NodeOperators N) idxs :
  validate_operators ops idxs ≠ Panic.
Proof. induction idxs; cbn; [done|]. by case_match. Qed.

Lemma ks_validate_Ok `{HashingLaws, PeerIds} {S N} (ks : Keyspace S) (ops : NodeOperators N) :
  ks_validate ks ops = Ok () ↔ ∀ idx, idx ∈ ks_operators ks → contains_idx ops idx = true.
Proof.
  unfold ks_validate, ks_operators_iter. rewrite validate_operators_Ok.
  setoid_rewrite hashset_iter_perm. setoid_rewrite elem_of_elements. done.
Qed.

Lemma require_diff_Ok {S T} (a : Keyspace S) (b : Keyspace T) :
  require_diff a b = Ok () ↔ ks_operators a ≠ ks_operators b.
Proof.
  unfold require_diff. destruct (ks_replication_strategy a), (ks_replication_strategy b).
  case_decide; naive_solver.
Qed.

(** * The contract of [Calculate] *)

Class CalculateSpec (S : Type) `{Calculate S} := {
  (** What holds of the shards of a keyspace. *)
  shards_wf : Keyspace S → Prop;
  (** Calculation terminates without a panic, keeps the operators, and the
      shards it returns are right. *)
  calculate_shards_ok E (ks : Keyspace ()) :
    ks_wf ks →
    ∃ ks', calculate_shards (E := E) ks = Ok ks' ∧
      ks_operators ks' = ks_operators ks ∧
      ks_replication_strategy ks' = ks_replication_strategy ks ∧ shards_wf ks';
}.

#[export] Instance calculate_unit_spec : CalculateSpec ().
Proof.
  refine {| shards_wf _ := True |}. intros E ks Hwf. by exists ks.
Defined.

(** Every shard has [REPLICATION_FACTOR] distinct replicas of the keyspace. *)
Definition replica_sets_wf (ks : Keyspace Shards) : Prop :=
  length (shards (ks_shards ks)) = Z.to_nat n_shards ∧
  ∀ replicas, replicas ∈ shards (ks_shards ks) →
    length replicas = REPLICATION_FACTOR ∧ NoDup replicas ∧
    ∀ idx, idx ∈ replicas → idx ∈ ks_operators ks.

Lemma calculate_Shards_ok `{HashingLaws} {E} (ks : Keyspace ()) :
  ks_wf ks →
  ∃ ks', calculate_shards (Calculate := calculate_Shards) (E := E) ks = Ok ks' ∧
    ks_operators ks' = ks_operators ks ∧
    ks_replication_strategy ks' = ks_replication_strategy ks ∧ replica_sets_wf ks'.
Proof.
  intros [Hmin _]. cbn.
  set (nodes := hashset_iter (ks_operators ks)).
  assert (list_to_set nodes = ks_operators ks) as Hnodes.
  { unfold nodes. rewrite (hashset_iter_perm (ks_operators ks)).
    by rewrite list_to_set_elements_L. }
  assert (∃ sk, sharding_keyspace_new Z.le xxh3_hash_one hashset_iter REPLICATION_FACTOR
                  (DefaultReplicationStrategy Z) nodes = Ok sk) as [sk Hnew].
  { rewrite (new_default_eq Z.le xxh3_hash_one hashset_iter hashset_iter_perm).
    rewrite Hnodes, decide_False by lia. eexists; reflexivity. }
  rewrite Hnew. eexists; split; [reflexivity|]; cbn. split; [done|].
  split; [by destruct (ks_replication_strategy ks)|].
  destruct (new_replica_sets_valid Z.le xxh3_hash_one hashset_iter hashset_iter_perm
              REPLICATION_FACTOR (DefaultReplicationStrategy Z) nodes sk Hnew)
    as (_ & Hlen & Hall).
  split; cbn; [done|]. intros rs Hrs. destruct (Hall rs Hrs) as (? & ? & Hsub).
  split_and!; [done|done|]. intros idx Hidx%Hsub.
  unfold nodes in Hidx. rewrite hashset_iter_perm in Hidx. set_solver.
Qed.

#[export] Instance calculate_Shards_spec `{HashingLaws} : CalculateSpec Shards.
Proof. refine {| shards_wf := replica_sets_wf |}. intros E ks. apply calculate_Shards_ok. Defined.
