(* ===== verification/Settings.v ===== *)
(** Settings: cluster settings and their on-chain encoding
    (src/crates/cluster/src/settings.rs).

    A [Duration] and an [OffsetDateTime] are numbers of nanoseconds; the clock
    ([OffsetDateTime::now_utc]) is an argument.  Schema version 0 is a struct of
    two [u32]s, version 1 a vector of byte strings indexed by [SettingId], in
    which unknown ids and undecodable values are skipped. *)
From S2P Require Import Prelude External SmartContract.
From stdpp Require Import prelude gmap sets list strings countable.

Definition NANOS_PER_MILLI : Z := 1000000.
Definition NANOS_PER_SEC : Z := 1000000000.

Definition duration_from_millis (ms : Z) : Z := (ms * NANOS_PER_MILLI)%Z.
Definition duration_from_secs (s : Z) : Z := (s * NANOS_PER_SEC)%Z.
Definition as_millis (d : Z) : Z := (d / NANOS_PER_MILLI)%Z.

Record Settings := {
  max_node_operator_data_bytes : Z;
  event_propagation_latency : Z;
  clock_skew : Z;
  migration_concurrency : Z;
  migration_tx_bandwidth : Z;
  migration_rx_bandwidth : Z;
}.

#[export] Instance Settings_eq_dec : EqDecision Settings.
Proof. solve_decision. Defined.

Definition DEFAULT_MIGRATION_CONCURRENCY : Z := 10.
Definition DEFAULT_MIGRATION_TX_BANDWIDTH : Z := 10000000.
Definition DEFAULT_MIGRATION_RX_BANDWIDTH : Z := 10000000.

Definition settings_default : Settings := {|
  max_node_operator_data_bytes := 4096%Z;
  event_propagation_latency := duration_from_secs 5;
  clock_skew := duration_from_millis 500;
  migration_concurrency := DEFAULT_MIGRATION_CONCURRENCY;
  migration_tx_bandwidth := DEFAULT_MIGRATION_TX_BANDWIDTH;
  migration_rx_bandwidth := DEFAULT_MIGRATION_RX_BANDWIDTH;
|}.

(** * Times *)

Definition event_propagation_time (self : Settings) (emitted_at : Z) : Z :=
  (emitted_at + event_propagation_latency self)%Z.

Definition has_event_propagated (now : Z) (self : Settings) (emitted_at : Z) : bool :=
  bool_decide (event_propagation_time self emitted_at ≤ now)%Z.

(** The bounds of an inclusive range. *)
Definition clock_skew_time_frame (self : Settings) (time : Z) : Z * Z :=
  (time - clock_skew self, time + clock_skew self)%Z.

(** * Settings as a list *)

Inductive Setting :=
| EventPropagationLatency (d : Z)
| ClockSkew (d : Z)
| MigrationConcurrency (n : Z)
| MigrationTxBandwidth (n : Z)
| MigrationRxBandwidth (n : Z).

(** The discriminants [strum] derives. *)
Inductive SettingId :=
| IdEventPropagationLatency
| IdClockSkew
| IdMigrationConcurrency
| IdMigrationTxBandwidth
| IdMigrationRxBandwidth.

Definition setting_discriminant (s : Setting) : Z :=
  match s with
  | EventPropagationLatency _ => 0
  | ClockSkew _ => 1
  | MigrationConcurrency _ => 2
  | MigrationTxBandwidth _ => 3
  | MigrationRxBandwidth _ => 4
  end%Z.

(** [SettingId::from_idx]: [u8::try_from(idx)], then [from_repr]. *)
Definition setting_id_from_idx (idx : nat) : option SettingId :=
  if decide (Z.of_nat idx < 256)%Z then
    match idx with
    | 0 => Some IdEventPropagationLatency
    | 1 => Some IdClockSkew
    | 2 => Some IdMigrationConcurrency
    | 3 => Some IdMigrationTxBandwidth
    | 4 => Some IdMigrationRxBandwidth
    | _ => None
    end
  else None.

Definition settings_extra (self : Settings) : list Setting :=
  [ EventPropagationLatency (event_propagation_latency self);
    ClockSkew (clock_skew self);
    MigrationConcurrency (migration_concurrency self);
    MigrationTxBandwidth (migration_tx_bandwidth self);
    MigrationRxBandwidth (migration_rx_bandwidth self) ].

Definition apply_extra_setting (self : Settings) (setting : Setting) : Settings :=
  let '(Build_Settings b l c mc tx rx) := self in
  match setting with
  | EventPropagationLatency d => Build_Settings b d c mc tx rx
  | ClockSkew d => Build_Settings b l d mc tx rx
  | MigrationConcurrency n => Build_Settings b l c n tx rx
  | MigrationTxBandwidth n => Build_Settings b l c mc n rx
  | MigrationRxBandwidth n => Build_Settings b l c mc tx n
  end.

Definition encode_duration (value : Z) : list Z :=
  to_be_bytes 4 (u32_saturate (as_millis value)).

Definition setting_encode (self : Setting) : list Z :=
  match self with
  | EventPropagationLatency latency => encode_duration latency
  | ClockSkew skew => encode_duration skew
  | MigrationConcurrency concurrency => to_be_bytes 2 concurrency
  | MigrationTxBandwidth bandwidth => to_be_bytes 4 bandwidth
  | MigrationRxBandwidth bandwidth => to_be_bytes 4 bandwidth
  end.

(** [value.try_into().ok()] to an array of [n] bytes, then [from_be_bytes]. *)
Definition decode_word (n : nat) (value : list Z) : option Z :=
  if decide (length value = n) then Some (from_be_bytes value) else None.
Definition decode_duration (value : list Z) : option Z :=
  duration_from_millis <$> decode_word 4 value.

Definition setting_decode (id : SettingId) (value : list Z) : option Setting :=
  match id with
  | IdEventPropagationLatency => EventPropagationLatency <$> decode_duration value
  | IdClockSkew => ClockSkew <$> decode_duration value
  | IdMigrationConcurrency => MigrationConcurrency <$> decode_word 2 value
  | IdMigrationTxBandwidth => MigrationTxBandwidth <$> decode_word 4 value
  | IdMigrationRxBandwidth => MigrationRxBandwidth <$> decode_word 4 value
  end.

(** * Schema versions *)

Record ExtraV0 := {
  event_propagation_latency_ms : Z;
  clock_skew_ms : Z;
}.

Record ExtraV1 := { encoded : list (list Z) }.

Definition settings_to_extra_v0 (settings : Settings) : ExtraV0 := {|
  event_propagation_latency_ms := u32_saturate (as_millis (event_propagation_latency settings));
  clock_skew_ms := u32_saturate (as_millis (clock_skew settings));
|}.

Definition settings_from_extra_v0 (extra : ExtraV0) : Settings := {|
  max_node_operator_data_bytes := 0%Z;
  event_propagation_latency := duration_from_millis (event_propagation_latency_ms extra);
  clock_skew := duration_from_millis (clock_skew_ms extra);
  migration_concurrency := DEFAULT_MIGRATION_CONCURRENCY;
  migration_tx_bandwidth := DEFAULT_MIGRATION_TX_BANDWIDTH;
  migration_rx_bandwidth := DEFAULT_MIGRATION_RX_BANDWIDTH;
|}.

(** [encoded[setting.discriminant() as usize] = setting.encode()] for every
    setting, on a vector of [highest_idx + 1] empty ones. *)
Definition settings_to_extra_v1 (settings : Settings) : ExtraV1 :=
  let extra_settings := settings_extra settings in
  let highest_idx := foldr Z.max 0%Z (setting_discriminant <$> extra_settings) in
  let encoded := replicate (Z.to_nat (highest_idx + 1)) [] in
  {| encoded := foldl (λ encoded setting,
       <[Z.to_nat (setting_discriminant setting) := setting_encode setting]> encoded)
       encoded extra_settings |}.

(** The [for] loop: ids that are unknown and values that do not decode are
    skipped. *)
Fixpoint apply_encoded (settings : Settings) (idx : nat) (encoded : list (list Z)) : Settings :=
  match encoded with
  | [] => settings
  | value :: encoded =>
      let settings :=
        match setting_id_from_idx idx with
        | None => settings
        | Some id =>
            match setting_decode id value with
            | None => settings
            | Some setting => apply_extra_setting settings setting
            end
        end in
      apply_encoded settings (S idx) encoded
  end.

Definition settings_from_extra_v1 (extra : ExtraV1) : Settings :=
  apply_encoded settings_default 0 (encoded extra).

Inductive settings_into_sc_error := SettingsIntoCodec (e : string).

Inductive settings_from_sc_error :=
| SettingsEmptyBuffer
| SettingsCodec (e : string)
| SettingsUnknownSchemaVersion (ver : Z).

Definition with_max_data_bytes (self : Settings) (n : Z) : Settings :=
  let '(Build_Settings _ l c mc tx rx) := self in Build_Settings n l c mc tx rx.

Section settings_sc.
Context `{Postcard ExtraV0, Postcard ExtraV1}.

Definition settings_try_into_sc (settings : Settings) : res settings_into_sc_error ScSettings :=
  let extra := settings_to_extra_v1 settings in
  buf ← versioned_encode SettingsIntoCodec 1%Z extra;
  Ok {| sc_max_node_operator_data_bytes := max_node_operator_data_bytes settings;
        sc_extra := buf |}.

Definition settings_try_from_sc (sc_settings : ScSettings) : res settings_from_sc_error Settings :=
  match sc_extra sc_settings with
  | [] => Err SettingsEmptyBuffer
  | schema_version :: bytes =>
      settings ←
        (if decide (schema_version = 0%Z) then
           map_err SettingsCodec
             (settings_from_extra_v0 <$> postcard_from_bytes (T := ExtraV0) bytes)
         else if decide (schema_version = 1%Z) then
           map_err SettingsCodec
             (settings_from_extra_v1 <$> postcard_from_bytes (T := ExtraV1) bytes)
         else Err (SettingsUnknownSchemaVersion schema_version));
      Ok (with_max_data_bytes settings (sc_max_node_operator_data_bytes sc_settings))
  end.
End settings_sc.

(** * Lemmas *)

(** The values the encoding keeps: words of their width, and durations that
    are whole milliseconds below [2^32] ms. *)
Definition duration_encodable (d : Z) : Prop :=
  ∃ ms, d = duration_from_millis ms ∧ fits 32 ms.

Record settings_encodable (s : Settings) : Prop := {
  enc_latency : duration_encodable (event_propagation_latency s);
  enc_skew : duration_encodable (clock_skew s);
  enc_concurrency : fits 16 (migration_concurrency s);
  enc_tx : fits 32 (migration_tx_bandwidth s);
  enc_rx : fits 32 (migration_rx_bandwidth s);
}.

Lemma as_millis_from_millis ms : as_millis (duration_from_millis ms) = ms.
Proof. unfold as_millis, duration_from_millis. by rewrite Z.div_mul. Qed.

Lemma u32_saturate_fits z : (0 ≤ z)%Z → fits 32 (u32_saturate z).
Proof. unfold u32_saturate, fits. case_decide; lia. Qed.

Lemma u32_saturate_small z : fits 32 z → u32_saturate z = z.
Proof. unfold u32_saturate, fits. intros ?. by rewrite decide_True by lia. Qed.

Lemma decode_word_to_be n z :
  (0 ≤ z < 256 ^ Z.of_nat n)%Z → decode_word n (to_be_bytes n z) = Some z.
Proof.
  intros Hz. unfold decode_word. rewrite decide_True by apply length_to_be_bytes.
  by rewrite from_to_be_bytes.
Qed.

Lemma decode_encode_duration d :
  (0 ≤ d)%Z →
  decode_duration (encode_duration d) = Some (duration_from_millis (u32_saturate (as_millis d))).
Proof.
  intros Hd. unfold decode_duration, encode_duration.
  rewrite decode_word_to_be; [done|].
  apply (u32_saturate_fits (as_millis d)). apply Z.div_pos; [done|]. done.
Qed.

Lemma decode_encode_encodable d :
  duration_encodable d → decode_duration (encode_duration d) = Some d.
Proof.
  intros (ms & -> & Hms). rewrite decode_encode_duration.
  - by rewrite as_millis_from_millis, u32_saturate_small.
  - unfold fits, duration_from_millis, NANOS_PER_MILLI in *. lia.
Qed.

(** What a decode of an encode gives, whatever the durations. *)
Definition round_duration (d : Z) : Z := duration_from_millis (u32_saturate (as_millis d)).

Lemma extra_v1_roundtrip s :
  (0 ≤ event_propagation_latency s)%Z → (0 ≤ clock_skew s)%Z →
  fits 16 (migration_concurrency s) → fits 32 (migration_tx_bandwidth s) →
  fits 32 (migration_rx_bandwidth s) →
  settings_from_extra_v1 (settings_to_extra_v1 s) =
  {| max_node_operator_data_bytes := max_node_operator_data_bytes settings_default;
     event_propagation_latency := round_duration (event_propagation_latency s);
     clock_skew := round_duration (clock_skew s);
     migration_concurrency := migration_concurrency s;
     migration_tx_bandwidth := migration_tx_bandwidth s;
     migration_rx_bandwidth := migration_rx_bandwidth s |}.
Proof.
  destruct s as [b l c mc tx rx]; cbn [max_node_operator_data_bytes
    event_propagation_latency clock_skew migration_concurrency migration_tx_bandwidth
    migration_rx_bandwidth]. intros Hl Hc Hmc Htx Hrx.
  unfold settings_from_extra_v1.
  change (encoded _) with
    [encode_duration l; encode_duration c; to_be_bytes 2 mc; to_be_bytes 4 tx; to_be_bytes 4 rx].
  cbn [apply_encoded]. unfold setting_id_from_idx. rewrite !decide_True by lia.
  cbn [setting_decode].
  rewrite !decode_encode_duration, !decode_word_to_be by done. done.
Qed.

Lemma round_duration_encodable d : duration_encodable d → round_duration d = d.
Proof.
  intros (ms & -> & Hms). unfold round_duration.
  by rewrite as_millis_from_millis, u32_saturate_small.
Qed.

Lemma duration_encodable_nonneg d : duration_encodable d → (0 ≤ d)%Z.
Proof. intros (ms & -> & Hms). unfold fits, duration_from_millis, NANOS_PER_MILLI in *. lia. Qed.

Lemma apply_encoded_unknown s idx l : 5 ≤ idx → apply_encoded s idx l = s.
Proof.
  revert s idx; induction l as [|v l IH]; intros s idx Hidx; cbn; [done|].
  assert (setting_id_from_idx idx = None) as ->.
  { unfold setting_id_from_idx. case_decide; [|done].
    destruct idx as [|[|[|[|[|]]]]]; done || lia. }
  apply IH. lia.
Qed.

Lemma apply_encoded_app s idx l1 l2 :
  apply_encoded s idx (l1 ++ l2) = apply_encoded (apply_encoded s idx l1) (idx + length l1) l2.
Proof.
  revert s idx; induction l1 as [|v l1 IH]; intros s idx; cbn.
  - by rewrite Nat.add_0_r.
  - rewrite IH. f_equal. lia.
Qed.

Lemma length_extra_v1 s : length (encoded (settings_to_extra_v1 s)) = 5.
Proof. done. Qed.

(** * Properties *)

(** Settings survive the chain: encoding succeeds, and decoding what was
    encoded gives the same settings, for words of their width and durations of
    whole milliseconds below [2^32]. *)
Theorem settings_sc_roundtrip `{!Postcard ExtraV0, !Postcard ExtraV1, !PostcardLaws ExtraV1} s :
  settings_encodable s →
  ∃ sc, settings_try_into_sc s = Ok sc ∧ settings_try_from_sc sc = Ok s.
Proof.
  intros [Hl Hc Hmc Htx Hrx]. unfold settings_try_into_sc.
  destruct (versioned_encode_Ok SettingsIntoCodec 1%Z (settings_to_extra_v1 s))
    as (bytes & Hv & Hp).
  rewrite Hv; cbn [mbind res_bind]. eexists; split; [done|].
  unfold settings_try_from_sc; cbn [sc_extra].
  rewrite decide_False, decide_True, Hp by done. cbn [fmap res_fmap map_err mbind res_bind].
  rewrite extra_v1_roundtrip by (auto using duration_encodable_nonneg).
  rewrite !round_duration_encodable by done. by destruct s.
Qed.

(** The version 1 encoding loses exactly the sub-millisecond part of the
    durations and saturates them at [u32::MAX] ms, and it is open to the
    future: values appended by later versions do not change what is decoded. *)
Theorem settings_v1_decoding s future :
  (0 ≤ event_propagation_latency s)%Z → (0 ≤ clock_skew s)%Z →
  fits 16 (migration_concurrency s) → fits 32 (migration_tx_bandwidth s) →
  fits 32 (migration_rx_bandwidth s) →
  let decoded :=
    settings_from_extra_v1 {| encoded := encoded (settings_to_extra_v1 s) ++ future |} in
  event_propagation_latency decoded = round_duration (event_propagation_latency s) ∧
  clock_skew decoded = round_duration (clock_skew s) ∧
  (round_duration (clock_skew s) ≤ clock_skew s)%Z ∧
  ((clock_skew s < duration_from_millis (2 ^ 32))%Z →
   (clock_skew s - round_duration (clock_skew s) < NANOS_PER_MILLI)%Z) ∧
  migration_concurrency decoded = migration_concurrency s ∧
  migration_tx_bandwidth decoded = migration_tx_bandwidth s ∧
  migration_rx_bandwidth decoded = migration_rx_bandwidth s.
Proof.
  intros Hl Hc Hmc Htx Hrx decoded.
  assert (decoded = settings_from_extra_v1 (settings_to_extra_v1 s)) as ->.
  { unfold decoded, settings_from_extra_v1. cbn [encoded]. rewrite apply_encoded_app.
    apply apply_encoded_unknown. rewrite length_extra_v1. lia. }
  rewrite extra_v1_roundtrip by done. cbn.
  unfold round_duration, duration_from_millis, u32_saturate, as_millis, NANOS_PER_MILLI.
  pose proof (Z.div_mod (clock_skew s) 1000000 ltac:(lia)).
  pose proof (Z.mod_pos_bound (clock_skew s) 1000000 ltac:(lia)).
  split_and!; try done; case_decide; lia.
Qed.

(** * Witnesses *)

#[export] Instance ExtraV0_eq_dec : EqDecision ExtraV0.
Proof. solve_decision. Defined.
#[export] Instance ExtraV0_countable : Countable ExtraV0.
Proof.
  apply (inj_countable' (λ n, (event_propagation_latency_ms n, clock_skew_ms n))
    (λ '(a, b), {| event_propagation_latency_ms := a; clock_skew_ms := b |})).
  by intros [].
Defined.
#[export] Instance ExtraV1_eq_dec : EqDecision ExtraV1.
Proof. solve_decision. Defined.
#[export] Instance ExtraV1_countable : Countable ExtraV1.
Proof. apply (inj_countable' encoded (λ a, {| encoded := a |})). by intros []. Defined.

Definition toy_e0 : Postcard ExtraV0 := toy_postcard ExtraV0.
Definition toy_e1 : Postcard ExtraV1 := toy_postcard ExtraV1.
Lemma toy_e0_laws : @PostcardLaws ExtraV0 toy_e0.
Proof. apply toy_postcard_laws. Qed.
Lemma toy_e1_laws : @PostcardLaws ExtraV1 toy_e1.
Proof. apply toy_postcard_laws. Qed.

Lemma settings_default_encodable : settings_encodable settings_default.
Proof.
  split; cbn; try done.
  - by exists 5000%Z.
  - by exists 500%Z.
Qed.

Lemma settings_sc_roundtrip_witness :
  ∃ sc, @settings_try_into_sc toy_e1 settings_default = Ok sc ∧
        @settings_try_from_sc toy_e0 toy_e1 sc = Ok settings_default.
Proof.
  apply (@settings_sc_roundtrip toy_e0 toy_e1 toy_e1_laws settings_default).
  apply settings_default_encodable.
Defined.

Lemma settings_v1_decoding_witness :
  clock_skew (settings_from_extra_v1
    {| encoded := encoded (settings_to_extra_v1 settings_default) ++ [[1; 2]; []]%Z |})
  = 500000000%Z.
Proof.
  apply (settings_v1_decoding settings_default [[1; 2]; []]%Z); vm_compute; done.
Defined.
