(* ===== verification/Migration.v ===== *)
(** Migration: the data migration process of a cluster
    (src/crates/cluster/src/migration.rs).

    A migration is started with a new keyspace, every operator of that keyspace
    pulls its data, and the last one to finish completes it; it can be aborted
    instead.  [OffsetDateTime::from_unix_timestamp] of crate [time] is a
    parameter ([UnixTime]); times are nanoseconds. *)
From S2P Require Import Prelude External SmartContract NodeOperator NodeOperators Keyspace Settings.
From stdpp Require Import prelude gmap sets list.

(** * [time::OffsetDateTime] *)
Class UnixTime := {
  (** [from_unix_timestamp(secs).ok()]. *)
  from_unix_timestamp : Z → option Z;
}.

Class UnixTimeLaws `{UnixTime} := {
  from_unix_timestamp_value secs t :
    from_unix_timestamp secs = Some t → t = duration_from_secs secs;
}.

Definition PULL_DATA_LEEWAY_TIME : Z := duration_from_secs 2.

(** * Data *)

Inductive MigrationState (S : Type) :=
| Started (keyspace : Keyspace S) (pulling_operators : gset Z)
| Aborted (at_ : Z)
| Completed.
Arguments Started {_} _ _.
Arguments Aborted {_} _.
Arguments Completed {_}.

Record Migration (S : Type) := {
  mig_id : Z;
  mig_started_at : Z;
  mig_state : MigrationState S;
}.
Arguments Build_Migration {_} _ _ _.
Arguments mig_id {_} _.
Arguments mig_started_at {_} _.
Arguments mig_state {_} _.

(** [migration::Plan]. *)
Record Plan := {
  plan_remove : gset Z;
  plan_add : gset Z;
  plan_replication_strategy : KsReplicationStrategy;
}.

Inductive migration_in_progress := MigrationInProgress (id : Z).
Inductive migration_not_found := NoMigration.
Inductive wrong_migration_id := WrongMigrationId (given actual : Z).
Inductive operator_not_pulling := OperatorNotPulling (idx : Z).
Inductive wrong_pulling_count := WrongPullingOperatorsCount (expected count : nat).

Inductive migration_from_sc_error :=
| MigKeyspace (e : keyspace_from_sc_error)
| MigInvalidTimestamp (ts : Z).

(** * Operations *)
Section migration.
Context {S : Type}.
Implicit Types self : Migration S.

Definition mig_keyspace self : option (Keyspace S) :=
  match mig_state self with
  | Started keyspace _ => Some keyspace
  | Aborted _ | Completed => None
  end.

Definition mig_pulling_operators self : option (gset Z) :=
  match mig_state self with
  | Started _ pulling_operators => Some pulling_operators
  | Aborted _ | Completed => None
  end.

Definition mig_is_pulling self (idx : Z) : bool :=
  match mig_state self with
  | Started _ pulling_operators => bool_decide (idx ∈ pulling_operators)
  | _ => false
  end.

Definition is_in_progress self : bool :=
  match mig_state self with Started _ _ => true | _ => false end.

Definition pulling_count self : nat :=
  match mig_state self with
  | Started _ pulling_operators => size pulling_operators
  | _ => 0
  end.

Definition complete_pull self (idx : Z) : Migration S :=
  match mig_state self with
  | Started keyspace pulling_operators =>
      {| mig_id := mig_id self; mig_started_at := mig_started_at self;
         mig_state := Started keyspace (pulling_operators ∖ {[idx]}) |}
  | _ => self
  end.

(** [complete]: [mem::take] leaves the default state, [Completed]. *)
Definition mig_complete self : option (Keyspace S) * Migration S :=
  let taken := {| mig_id := mig_id self; mig_started_at := mig_started_at self;
                  mig_state := Completed |} in
  match mig_state self with
  | Started keyspace _ => (Some keyspace, taken)
  | _ => (None, taken)
  end.

Definition require_id self (id : Z) : res wrong_migration_id () :=
  if decide (id = mig_id self) then Ok () else Err (WrongMigrationId id (mig_id self)).

Definition require_pulling self (idx : Z) : res operator_not_pulling () :=
  if mig_is_pulling self idx then Ok () else Err (OperatorNotPulling idx).

Definition require_pulling_count self (expected : nat) : res wrong_pulling_count () :=
  let count := pulling_count self in
  if decide (count = expected) then Ok () else Err (WrongPullingOperatorsCount expected count).
End migration.

(** [parse_timestamp]: [i64::try_from(ts)], then the date. *)
Definition parse_timestamp `{UnixTime} (ts : Z) : res migration_from_sc_error Z :=
  ok_or (if decide (ts < 2 ^ 63)%Z then from_unix_timestamp ts else None)
    (MigInvalidTimestamp ts).

Definition migration_try_from_sc `{UnixTime} (migration : ScMigration) (keyspace : ScKeyspace)
    : res migration_from_sc_error (Migration ()) :=
  state ←
    match sc_mig_aborted_at migration with
    | Some at_ => t ← parse_timestamp at_; Ok (Aborted t)
    | None =>
        if decide (sc_mig_pulling_operators migration = ∅) then Ok Completed
        else
          ks ← map_err MigKeyspace (keyspace_try_from_sc keyspace);
          Ok (Started ks (sc_mig_pulling_operators migration))
    end;
  started_at ← parse_timestamp (sc_mig_started_at migration);
  Ok {| mig_id := sc_mig_id migration; mig_started_at := started_at; mig_state := state |}.

Definition calculate_keyspace {E S} `{Calculate S} (self : Migration ()) : res E (Migration S) :=
  state ←
    match mig_state self with
    | Started keyspace pulling_operators =>
        keyspace ← calculate_shards keyspace; Ok (Started keyspace pulling_operators)
    | Aborted at_ => Ok (Aborted at_)
    | Completed => Ok Completed
    end;
  Ok {| mig_id := mig_id self; mig_started_at := mig_started_at self; mig_state := state |}.

(** * Lemmas *)

Lemma parse_timestamp_no_panic `{UnixTime} ts : parse_timestamp ts ≠ Panic.
Proof. apply ok_or_Panic. Qed.

Lemma parse_timestamp_value `{UnixTimeLaws} ts t :
  parse_timestamp ts = Ok t → t = duration_from_secs ts.
Proof.
  unfold parse_timestamp. intros Hp%ok_or_Ok. case_decide; [|done].
  by apply from_unix_timestamp_value.
Qed.

Lemma require_id_Ok {S} (m : Migration S) id : require_id m id = Ok () ↔ id = mig_id m.
Proof. unfold require_id. case_decide; naive_solver. Qed.

Lemma require_pulling_Ok {S} (m : Migration S) idx :
  require_pulling m idx = Ok () ↔
  ∃ ks pulling, mig_state m = Started ks pulling ∧ idx ∈ pulling.
Proof.
  unfold require_pulling, mig_is_pulling. destruct (mig_state m); [|naive_solver..].
  case_bool_decide; naive_solver.
Qed.

Lemma is_in_progress_true {S} (m : Migration S) :
  is_in_progress m = true ↔ ∃ ks pulling, mig_state m = Started ks pulling.
Proof. unfold is_in_progress. destruct (mig_state m); naive_solver. Qed.
