(* ===== verification/View.v ===== *)
(** View: the read-only view of a cluster and the events that change it
    (src/crates/cluster/src/view.rs).

    A view is built from the on-chain state ([view_try_from_sc]) and then kept
    up to date by applying events ([apply_event]).  It decides, from the local
    clock, which keyspace version a storage operation must carry
    ([keyspace_version]), whether one is accepted ([validate_storage_operation])
    and when data may be pulled ([validate_data_pull]).

    [Config::update_settings] is a callback into the application and does not
    touch the view. *)
From S2P Require Import Prelude External Sharding SmartContract NodeOperator NodeOperators.
From S2P Require Import Keyspace Settings Migration.
From stdpp Require Import prelude gmap sets list.

Record View `{PeerIds} (N S : Type) := {
  v_node_operators : NodeOperators N;
  v_ownership : Ownership;
  v_settings : Settings;
  v_keyspace : Keyspace S;
  v_keyspace_version : Z;
  v_migration : Migration S;
  v_maintenance : option Maintenance;
  v_cluster_version : Z;
}.
Arguments Build_View {_ _ _} _ _ _ _ _ _ _ _.
Arguments v_node_operators {_ _ _} _.
Arguments v_ownership {_ _ _} _.
Arguments v_settings {_ _ _} _.
Arguments v_keyspace {_ _ _} _.
Arguments v_keyspace_version {_ _ _} _.
Arguments v_migration {_ _ _} _.
Arguments v_maintenance {_ _ _} _.
Arguments v_cluster_version {_ _ _} _.

(** [view::Error]. *)
Inductive view_error :=
| ClusterVersionNotMonotonic (current new : Z)
| VMigrationInProgress (e : migration_in_progress)
| VMaintenanceInProgress (e : maintenance_in_progress)
| VNoMigration (e : migration_not_found)
| VNoMaintenance (e : maintenance_not_found)
| VWrongMigrationId (e : wrong_migration_id)
| VSameKeyspace (e : same_keyspace_error)
| VKeyspaceUnknownOperator (e : unknown_node_operator)
| VNotPulling (e : operator_not_pulling)
| VWrongPullingOperatorsCount (e : wrong_pulling_count)
| VOperatorNotFound (e : operator_not_found)
| VOperatorAlreadyExists (e : operator_already_exists)
| VOperatorSlotOccupied (e : slot_occupied)
| VInvalidNodeOperator (e : operator_from_sc_error)
| VInvalidSettings (e : settings_from_sc_error)
| VInvalidKeyspace (e : keyspace_from_sc_error)
| VInvalidMigration (e : migration_from_sc_error).

(** [view::TryFromSmartContractError]. *)
Inductive view_from_sc_error :=
| TInvalidKeyspaceVersion
| TKeyspaceUnknownOperator (e : unknown_node_operator)
| TNodeOperatorsCreation (e : operators_creation_error)
| TInvalidSettings (e : settings_from_sc_error)
| TInvalidNodeOperator (e : operator_from_sc_error)
| TInvalidKeyspace (e : keyspace_from_sc_error)
| TInvalidMigration (e : migration_from_sc_error).

(** * Queries *)
Section view_queries.
Context `{PeerIds} {N S : Type}.
Implicit Types self : View N S.

Definition view_migration self : option (Migration S) :=
  if is_in_progress (v_migration self) then Some (v_migration self) else None.

Definition is_secondary_keyspace_shadowing_on (now : Z) self : bool :=
  if is_in_progress (v_migration self)
  then has_event_propagated now (v_settings self) (mig_started_at (v_migration self))
  else false.

Definition data_pull_scheduled_after self : option Z :=
  match view_migration self with
  | None => None
  | Some migration =>
      Some (mig_started_at migration + event_propagation_latency (v_settings self)
            + clock_skew (v_settings self) + PULL_DATA_LEEWAY_TIME)%Z
  end.

(** [keyspace_version - 1] and [+ 1] wrap. *)
Definition keyspace_version (now : Z) self : Z :=
  let migration := v_migration self in
  let settings := v_settings self in
  match mig_state migration with
  | Started _ _ =>
      if has_event_propagated now settings (mig_started_at migration)
      then v_keyspace_version self
      else u64_sub (v_keyspace_version self) 1
  | Aborted at_ =>
      if has_event_propagated now settings at_
      then v_keyspace_version self
      else u64_add (v_keyspace_version self) 1
  | Completed => v_keyspace_version self
  end.

(** The part of [validate_storage_operation] after the [match]. *)
Definition validate_transition (now : Z) (settings : Settings)
    (old new transition_time keyspace_version : Z) : bool :=
  let transition_time := event_propagation_time settings transition_time in
  let '(frame_start, frame_end) := clock_skew_time_frame settings transition_time in
  if decide (now < frame_start)%Z then bool_decide (keyspace_version = old)
  else if decide (now ≤ frame_end)%Z then bool_decide (keyspace_version ∈ [old; new])
  else bool_decide (keyspace_version = new).

Definition validate_storage_operation (now : Z) self (keyspace_version : Z) : bool :=
  let settings := v_settings self in
  let ver := v_keyspace_version self in
  match mig_state (v_migration self) with
  | Started _ _ =>
      validate_transition now settings (u64_sub ver 1) ver
        (mig_started_at (v_migration self)) keyspace_version
  | Aborted at_ =>
      validate_transition now settings (u64_add ver 1) ver at_ keyspace_version
  | Completed => bool_decide (keyspace_version = ver)
  end.

Definition validate_data_pull (now : Z) self (keyspace_version : Z) : bool :=
  match data_pull_scheduled_after self with
  | None => false
  | Some scheduled_after =>
      bool_decide (scheduled_after ≤ now)%Z &&
      bool_decide (v_keyspace_version self = keyspace_version)
  end.

(** [View::is_pulling]. *)
Definition view_is_pulling self (operator_id : Z) : bool :=
  match get_idx (v_node_operators self) operator_id with
  | Some operator_idx => mig_is_pulling (v_migration self) operator_idx
  | None => false
  end.

Definition require_no_migration self : res migration_in_progress () :=
  if is_in_progress (v_migration self)
  then Err (MigrationInProgress (mig_id (v_migration self))) else Ok ().

Definition require_no_maintenance self : res maintenance_in_progress () :=
  match v_maintenance self with
  | Some maintenance => Err (MaintenanceInProgress (maintenance_slot maintenance))
  | None => Ok ()
  end.

Definition require_migration self : res migration_not_found (Migration S) :=
  if is_in_progress (v_migration self) then Ok (v_migration self) else Err NoMigration.

Definition require_maintenance self : res maintenance_not_found Maintenance :=
  ok_or (v_maintenance self) NoMaintenance.
End view_queries.

(** * Replica sets: views with shards *)
Section view_replica_sets.
Context `{PeerIds} {N : Type}.
Implicit Types self : View N Shards.

(** [replica_set.map(|idx| node_operators.get_by_idx(idx).unwrap())]. *)
Definition resolve_replicas {E} self (replicas : list Z) : res E (list (NodeOperator N)) :=
  res_map (λ idx, unwrap (get_by_idx (v_node_operators self) idx)) replicas.

Definition primary_replica_set {E} self (key : Z) : res E (list (NodeOperator N)) :=
  shard ← ks_shard (v_keyspace self) key;
  resolve_replicas self (replica_set shard).

Definition secondary_replica_set {E} (now : Z) self (key : Z)
    : res E (option (list (NodeOperator N))) :=
  if is_secondary_keyspace_shadowing_on now self then
    match mig_keyspace (v_migration self) with
    | None => Ok None
    | Some keyspace =>
        shard ← ks_shard keyspace key;
        replicas ← resolve_replicas self (replica_set shard);
        Ok (Some replicas)
    end
  else Ok None.

Definition resolve_shards {E} self (keyspace : Keyspace Shards)
    : res E (list (Z * Shard (NodeOperator N))) :=
  res_map (λ e, replicas ← resolve_replicas self (replica_set e.2);
                Ok (e.1, {| replica_set := replicas |})) (ks_all_shards keyspace).

Definition primary_keyspace_shards {E} self : res E (list (Z * Shard (NodeOperator N))) :=
  resolve_shards self (v_keyspace self).

Definition secondary_keyspace_shards {E} (now : Z) self
    : res E (option (list (Z * Shard (NodeOperator N)))) :=
  if is_secondary_keyspace_shadowing_on now self then
    match mig_keyspace (v_migration self) with
    | None => Ok None
    | Some keyspace => shards ← resolve_shards self keyspace; Ok (Some shards)
    end
  else Ok None.
End view_replica_sets.

(** * Events *)
Section view_events.
Context `{PeerIds, Ff1, Hashing, UnixTime}.
Context `{!Postcard DataV0, !Postcard DataV1, !Postcard ExtraV0, !Postcard ExtraV1}.
Context {N S : Type} `{!Config N, !Calculate S}.
Implicit Types view : View N S.

(** Assignments to the fields of the view. *)
Definition set_node_operators view (ops : NodeOperators N) : View N S :=
  {| v_node_operators := ops; v_ownership := v_ownership view;
     v_settings := v_settings view; v_keyspace := v_keyspace view;
     v_keyspace_version := v_keyspace_version view; v_migration := v_migration view;
     v_maintenance := v_maintenance view; v_cluster_version := v_cluster_version view |}.
Definition set_settings view (settings : Settings) : View N S :=
  {| v_node_operators := v_node_operators view; v_ownership := v_ownership view;
     v_settings := settings; v_keyspace := v_keyspace view;
     v_keyspace_version := v_keyspace_version view; v_migration := v_migration view;
     v_maintenance := v_maintenance view; v_cluster_version := v_cluster_version view |}.
Definition set_keyspaces view (keyspace : Keyspace S) (version : Z) (migration : Migration S)
    : View N S :=
  {| v_node_operators := v_node_operators view; v_ownership := v_ownership view;
     v_settings := v_settings view; v_keyspace := keyspace;
     v_keyspace_version := version; v_migration := migration;
     v_maintenance := v_maintenance view; v_cluster_version := v_cluster_version view |}.
Definition set_maintenance view (maintenance : option Maintenance) : View N S :=
  {| v_node_operators := v_node_operators view; v_ownership := v_ownership view;
     v_settings := v_settings view; v_keyspace := v_keyspace view;
     v_keyspace_version := v_keyspace_version view; v_migration := v_migration view;
     v_maintenance := maintenance; v_cluster_version := v_cluster_version view |}.
Definition set_cluster_version view (version : Z) : View N S :=
  {| v_node_operators := v_node_operators view; v_ownership := v_ownership view;
     v_settings := v_settings view; v_keyspace := v_keyspace view;
     v_keyspace_version := v_keyspace_version view; v_migration := v_migration view;
     v_maintenance := v_maintenance view; v_cluster_version := version |}.

Definition apply_MigrationStarted (self : MigrationStarted) view : res view_error (View N S) :=
  _ ← map_err VMigrationInProgress (require_no_migration view);
  _ ← map_err VMaintenanceInProgress (require_no_maintenance view);
  new_keyspace ← map_err VInvalidKeyspace (keyspace_try_from_sc (ms_new_keyspace self));
  _ ← map_err VKeyspaceUnknownOperator (ks_validate new_keyspace (v_node_operators view));
  _ ← map_err VSameKeyspace (require_diff (v_keyspace view) new_keyspace);
  new_keyspace ← calculate_shards new_keyspace;
  started_at ← map_err VInvalidMigration (parse_timestamp (ms_at self));
  let migration := {| mig_id := ms_migration_id self; mig_started_at := started_at;
                      mig_state := Started new_keyspace
                                     (list_to_set (ks_operators_iter new_keyspace)) |} in
  Ok (set_keyspaces view (v_keyspace view) (u64_add (v_keyspace_version view) 1) migration).

Definition apply_MigrationDataPullCompleted (self : MigrationDataPullCompleted) view
    : res view_error (View N S) :=
  idx ← map_err VOperatorNotFound (require_idx (v_node_operators view) (mdpc_operator_id self));
  migration ← map_err VNoMigration (require_migration view);
  _ ← map_err VWrongMigrationId (require_id migration (mdpc_migration_id self));
  _ ← map_err VNotPulling (require_pulling migration idx);
  Ok (set_keyspaces view (v_keyspace view) (v_keyspace_version view)
        (complete_pull (v_migration view) idx)).

Definition apply_MigrationCompleted (self : MigrationCompleted) view
    : res view_error (View N S) :=
  idx ← map_err VOperatorNotFound (require_idx (v_node_operators view) (mc_operator_id self));
  migration ← map_err VNoMigration (require_migration view);
  _ ← map_err VWrongMigrationId (require_id migration (mc_migration_id self));
  _ ← map_err VNotPulling (require_pulling migration idx);
  _ ← map_err VWrongPullingOperatorsCount (require_pulling_count migration 1);
  let '(keyspace, migration) := mig_complete (v_migration view) in
  keyspace ← unwrap keyspace;
  Ok (set_keyspaces view keyspace (v_keyspace_version view) migration).

Definition apply_MigrationAborted (self : MigrationAborted) view : res view_error (View N S) :=
  migration ← map_err VNoMigration (require_migration view);
  _ ← map_err VWrongMigrationId (require_id migration (ma_migration_id self));
  at_ ← map_err VInvalidMigration (parse_timestamp (ma_at self));
  let migration := {| mig_id := mig_id (v_migration view);
                      mig_started_at := mig_started_at (v_migration view);
                      mig_state := Aborted at_ |} in
  Ok (set_keyspaces view (v_keyspace view) (u64_sub (v_keyspace_version view) 1) migration).

Definition apply_MaintenanceStarted (self : MaintenanceStarted) view
    : res view_error (View N S) :=
  _ ← map_err VMigrationInProgress (require_no_migration view);
  _ ← map_err VMaintenanceInProgress (require_no_maintenance view);
  Ok (set_maintenance view (Some {| maintenance_slot := mts_by self |})).

Definition apply_MaintenanceFinished (self : MaintenanceFinished) view
    : res view_error (View N S) :=
  _ ← map_err VNoMaintenance (require_maintenance view);
  Ok (set_maintenance view None).

Definition apply_NodeOperatorAdded (self : NodeOperatorAdded) view : res view_error (View N S) :=
  _ ← map_err VOperatorAlreadyExists
        (require_not_exists (v_node_operators view) (sc_op_id (noa_operator self)));
  _ ← map_err VOperatorSlotOccupied (require_free_slot (v_node_operators view) (noa_idx self));
  operator ← operator_from_sc (noa_operator self);
  ops ← ops_set (v_node_operators view) (noa_idx self) (Some operator);
  Ok (set_node_operators view ops).

Definition apply_NodeOperatorUpdated (self : NodeOperatorUpdated) view
    : res view_error (View N S) :=
  idx ← map_err VOperatorNotFound
          (require_idx (v_node_operators view) (sc_op_id (nou_operator self)));
  operator ← operator_from_sc (nou_operator self);
  ops ← ops_set (v_node_operators view) idx (Some operator);
  Ok (set_node_operators view ops).

Definition apply_NodeOperatorRemoved (self : NodeOperatorRemoved) view
    : res view_error (View N S) :=
  idx ← map_err VOperatorNotFound (require_idx (v_node_operators view) (nor_id self));
  ops ← ops_set (v_node_operators view) idx None;
  Ok (set_node_operators view ops).

Definition apply_SettingsUpdated (self : SettingsUpdated) view : res view_error (View N S) :=
  settings ← map_err VInvalidSettings (settings_try_from_sc (su_settings self));
  Ok (set_settings view settings).

Definition apply_event view (event : Event) : res view_error (View N S) :=
  let new_version := event_cluster_version event in
  if decide (new_version ≠ wrap 128 (v_cluster_version view + 1)) then
    Err (ClusterVersionNotMonotonic (v_cluster_version view) new_version)
  else
    view ←
      match event with
      | EvMigrationStarted evt => apply_MigrationStarted evt view
      | EvMigrationDataPullCompleted evt => apply_MigrationDataPullCompleted evt view
      | EvMigrationCompleted evt => apply_MigrationCompleted evt view
      | EvMigrationAborted evt => apply_MigrationAborted evt view
      | EvMaintenanceStarted evt => apply_MaintenanceStarted evt view
      | EvMaintenanceFinished evt => apply_MaintenanceFinished evt view
      | EvNodeOperatorAdded evt => apply_NodeOperatorAdded evt view
      | EvNodeOperatorUpdated evt => apply_NodeOperatorUpdated evt view
      | EvNodeOperatorRemoved evt => apply_NodeOperatorRemoved evt view
      | EvSettingsUpdated evt => apply_SettingsUpdated evt view
      end;
    Ok (set_cluster_version view new_version).

(** A sequence of events, as the background task applies them. *)
Fixpoint apply_events view (events : list Event) : res view_error (View N S) :=
  match events with
  | [] => Ok view
  | event :: events => view ← apply_event view event; apply_events view events
  end.

(** [View::try_from_sc]. *)
Definition view_try_from_sc (view : ClusterView) : res view_from_sc_error (View N S) :=
  slots ← res_map (option_mapM operator_from_sc) (cv_node_operators view);
  node_operators ← map_err TNodeOperatorsCreation (from_slots slots);
  let ownership := {| owner := cv_owner view |} in
  settings ← map_err TInvalidSettings (settings_try_from_sc (cv_settings view));
  let is_migration_in_progress :=
    negb (bool_decide (sc_mig_pulling_operators (cv_migration view) = ∅)) in
  primary_keyspace_version ←
    (if is_migration_in_progress then
       ok_or (u64_checked_sub (cv_keyspace_version view) 1) TInvalidKeyspaceVersion
     else Ok (cv_keyspace_version view));
  let '(keyspace0, keyspace1) := cv_keyspaces view in
  let '(primary_keyspace, secondary_keyspace) :=
    if decide (primary_keyspace_version mod 2 = 0)%Z
    then (keyspace0, keyspace1) else (keyspace1, keyspace0) in
  keyspace ← map_err TInvalidKeyspace (keyspace_try_from_sc primary_keyspace);
  _ ← map_err TKeyspaceUnknownOperator (ks_validate keyspace node_operators);
  migration ← map_err TInvalidMigration
                (migration_try_from_sc (cv_migration view) secondary_keyspace);
  _ ← match mig_keyspace migration with
      | Some keyspace => map_err TKeyspaceUnknownOperator (ks_validate keyspace node_operators)
      | None => Ok ()
      end;
  keyspace ← calculate_shards keyspace;
  migration ← calculate_keyspace migration;
  let maintenance := (λ slot, {| maintenance_slot := slot |})
                       <$> sc_maint_slot (cv_maintenance view) in
  Ok {| v_node_operators := node_operators; v_ownership := ownership;
        v_settings := settings; v_keyspace := keyspace;
        v_keyspace_version := cv_keyspace_version view; v_migration := migration;
        v_maintenance := maintenance; v_cluster_version := cv_cluster_version view |}.
End view_events.
