(* ===== verification/Concrete.v ===== *)
(** Concrete: a small concrete cluster, for the witnesses of the theorems about
    views: six operators, a keyspace of the first five, and the toy instances of
    the external crates. *)
From S2P Require Import Prelude External Sharding SmartContract NodeOperator NodeOperators.
From S2P Require Import Keyspace Settings Migration View.
From stdpp Require Import prelude gmap sets list strings.

Definition toy_hashing : Hashing := {|
  xxh3_hash_one := toy_hash;
  hashset_iter := toy_iter;
|}.

Lemma toy_hashing_laws : @HashingLaws toy_hashing.
Proof. split. apply toy_iter_elements. Qed.

(** Dates up to the year 9999. *)
Definition toy_unix_time : UnixTime := {|
  from_unix_timestamp secs :=
    if decide (secs ≤ 253402300799)%Z then Some (duration_from_secs secs) else None;
|}.

Lemma toy_unix_time_laws : @UnixTimeLaws toy_unix_time.
Proof. split. cbn. intros secs t. case_decide; naive_solver. Qed.

Definition toy_config : @Config toy_peer_ids Z := @Build_Config toy_peer_ids Z [42]%Z
  (λ id _, id) (λ n, n).

#[local] Existing Instance toy_peer_ids.
#[local] Existing Instance toy_ff1.
#[local] Existing Instance toy_hashing.
#[local] Existing Instance toy_unix_time.
#[local] Existing Instance toy_config.
#[local] Existing Instance toy_d0.
#[local] Existing Instance toy_d1.
#[local] Existing Instance toy_e0.
#[local] Existing Instance toy_e1.

Definition six_slots : list (option (NodeOperator Z)) :=
  Some ∘ toy_op <$> [1; 2; 3; 4; 5; 6]%Z.

Definition six_ops : NodeOperators Z := {|
  id_to_idx := [(1, 0); (2, 1); (3, 2); (4, 3); (5, 4); (6, 5)]%Z;
  slots := six_slots; ops_counter := usize_max |}.

Lemma six_ops_new : from_slots six_slots = Ok six_ops.
Proof. reflexivity. Qed.

Lemma six_ops_wf : ops_wf six_ops.
Proof. eapply from_slots_ok, six_ops_new. Qed.

Definition toy_ks (operators : list Z) : Keyspace () := {|
  ks_operators := list_to_set operators; ks_shards := ();
  ks_replication_strategy := UniformDistribution |}.

Definition toy_view : View Z () := {|
  v_node_operators := six_ops;
  v_ownership := {| owner := 99%Z |};
  v_settings := settings_default;
  v_keyspace := toy_ks [0; 1; 2; 3; 4]%Z;
  v_keyspace_version := 7%Z;
  v_migration := {| mig_id := 3%Z; mig_started_at := 0%Z; mig_state := Completed |};
  v_maintenance := None;
  v_cluster_version := 40%Z;
|}.

(** The migration that replaces operator 1 (slot 0) by operator 6 (slot 5). *)
Definition toy_new_keyspace : ScKeyspace := {|
  sc_ks_operators := list_to_set [1; 2; 3; 4; 5]%Z; sc_ks_replication_strategy := 0%Z |}.

Definition toy_started : MigrationStarted := {|
  ms_migration_id := 4%Z; ms_new_keyspace := toy_new_keyspace; ms_at := 1000%Z;
  ms_cluster_version := 41%Z |}.

Definition toy_migrating : View Z () := {|
  v_node_operators := six_ops;
  v_ownership := {| owner := 99%Z |};
  v_settings := settings_default;
  v_keyspace := toy_ks [0; 1; 2; 3; 4]%Z;
  v_keyspace_version := 8%Z;
  v_migration := {| mig_id := 4%Z; mig_started_at := 1000000000000%Z;
                    mig_state := Started (toy_ks [1; 2; 3; 4; 5]%Z)
                                   (list_to_set (toy_iter (list_to_set [1; 2; 3; 4; 5]%Z))) |};
  v_maintenance := None;
  v_cluster_version := 41%Z;
|}.

Lemma toy_start : apply_event toy_view (EvMigrationStarted toy_started) = Ok toy_migrating.
Proof. reflexivity. Qed.
