(* ===== verification/ViewTime.v ===== *)
(** ViewTime: the clock-driven part of the migration protocol.

    Nodes see a migration start (or abort) at different moments and their
    clocks differ.  The view therefore switches keyspace versions only once the
    event has had time to propagate, and accepts both versions while clocks may
    disagree.  This file proves that the rules fit together: an operation
    stamped by one node is accepted by another whose clock is within the
    configured skew, whichever of the two has already seen the event; and once
    data may be pulled no operation of the old version is accepted any more. *)
From S2P Require Import Prelude External Sharding SmartContract NodeOperator NodeOperators.
From S2P Require Import Keyspace Settings Migration View Concrete.
From stdpp Require Import prelude gmap sets list.

Section view_time.
Context `{PeerIds} {N S : Type}.
Implicit Types v : View N S.

Lemma u64_pred_ne ver : fits 64 ver → u64_sub ver 1 ≠ ver.
Proof.
  unfold fits, u64_sub, wrap. intros Hv Heq.
  destruct (decide (ver = 0)%Z) as [->|].
  - done.
  - rewrite Z.mod_small in Heq; lia.
Qed.

Lemma u64_succ_ne ver : fits 64 ver → u64_add ver 1 ≠ ver.
Proof.
  unfold fits, u64_add, wrap. intros Hv Heq.
  destruct (decide (ver = 2 ^ 64 - 1)%Z) as [->|].
  - done.
  - rewrite Z.mod_small in Heq; lia.
Qed.

(** The instant at which a view changes the version it stamps. *)
Definition transition_time v : option Z :=
  match mig_state (v_migration v) with
  | Started _ _ => Some (event_propagation_time (v_settings v) (mig_started_at (v_migration v)))
  | Aborted at_ => Some (event_propagation_time (v_settings v) at_)
  | Completed => None
  end.

(** The version stamped before that instant. *)
Definition old_version v : Z :=
  match mig_state (v_migration v) with
  | Started _ _ => u64_sub (v_keyspace_version v) 1
  | Aborted _ => u64_add (v_keyspace_version v) 1
  | Completed => v_keyspace_version v
  end.

Lemma keyspace_version_eq now v :
  keyspace_version now v =
    match transition_time v with
    | Some t => if decide (t ≤ now)%Z then v_keyspace_version v else old_version v
    | None => v_keyspace_version v
    end.
Proof.
  unfold keyspace_version, transition_time, old_version, has_event_propagated.
  by destruct (mig_state (v_migration v)); [| |done]; case_bool_decide; case_decide.
Qed.

Lemma validate_storage_operation_eq now v ver :
  validate_storage_operation now v ver =
    match transition_time v with
    | Some t =>
        if decide (now < t - clock_skew (v_settings v))%Z then bool_decide (ver = old_version v)
        else if decide (now ≤ t + clock_skew (v_settings v))%Z
             then bool_decide (ver ∈ [old_version v; v_keyspace_version v])
        else bool_decide (ver = v_keyspace_version v)
    | None => bool_decide (ver = v_keyspace_version v)
    end.
Proof.
  unfold validate_storage_operation, transition_time, old_version, validate_transition.
  by destruct (mig_state (v_migration v)).
Qed.

Lemma data_pull_time now v ver :
  validate_data_pull now v ver = true →
  ver = v_keyspace_version v ∧
  ∃ ks pulling t, mig_state (v_migration v) = Started ks pulling ∧
    transition_time v = Some t ∧
    (t + clock_skew (v_settings v) + PULL_DATA_LEEWAY_TIME ≤ now)%Z.
Proof.
  unfold validate_data_pull, data_pull_scheduled_after, view_migration, is_in_progress,
    transition_time, event_propagation_time.
  destruct (mig_state (v_migration v)) as [ks pulling| |] eqn:Hs; [|done|done].
  rewrite andb_true_iff, !bool_decide_eq_true. intros [Ht Hver].
  split; [done|]. eexists _, _, _; split_and!; [done|done|]. lia.
Qed.

Lemma stamped_accepted v now_c now_r :
  (Z.abs (now_c - now_r) ≤ clock_skew (v_settings v))%Z →
  validate_storage_operation now_r v (keyspace_version now_c v) = true.
Proof.
  intros Hskew. rewrite validate_storage_operation_eq, keyspace_version_eq.
  destruct (transition_time v) as [t|]; [|by rewrite bool_decide_true].
  repeat case_decide; apply bool_decide_eq_true; first [done | lia | set_solver].
Qed.

(** C34. Clocks that differ by at most the configured skew never cause a
    rejection: a storage operation stamped at [now_c] with the version of a
    view is accepted at [now_r] by every node with that view. *)
Theorem storage_operation_skew_tolerant v now_c now_r :
  (Z.abs (now_c - now_r) ≤ clock_skew (v_settings v))%Z →
  validate_storage_operation now_r v (keyspace_version now_c v) = true.
Proof. apply stamped_accepted. Qed.

(** Only the two versions of a transition are ever accepted, and once the
    clock has left the skew window after it, or when no transition is pending,
    only the current one. *)
Theorem storage_operation_sound v now ver :
  (0 ≤ clock_skew (v_settings v))%Z →
  validate_storage_operation now v ver = true →
  (ver = v_keyspace_version v ∨ ver = old_version v) ∧
  (match transition_time v with
   | Some t => (t + clock_skew (v_settings v) < now)%Z → ver = v_keyspace_version v
   | None => ver = v_keyspace_version v
   end).
Proof.
  intros Hskew. rewrite validate_storage_operation_eq.
  destruct (transition_time v) as [t|]; repeat case_decide; rewrite bool_decide_eq_true;
    intros Hver; (split; [|intros; done || lia]); set_solver.
Qed.

(** Data is pulled only after the old keyspace is closed: when a node
    accepts a data pull, then from that moment on it accepts no storage
    operation stamped with the old version, and every node whose clock is
    behind by at most the skew plus the leeway already stamps its operations
    with the new version. *)
Theorem data_pull_excludes_old_version v now ver :
  fits 64 (v_keyspace_version v) → (0 ≤ clock_skew (v_settings v))%Z →
  validate_data_pull now v ver = true →
  (∀ now', (now ≤ now')%Z → validate_storage_operation now' v (old_version v) = false) ∧
  (∀ now', (now - clock_skew (v_settings v) - PULL_DATA_LEEWAY_TIME ≤ now')%Z →
     keyspace_version now' v = ver).
Proof.
  intros Hfit Hskew (-> & ks & pulling & t & Hs & Ht & Hle)%data_pull_time.
  split; intros now' Hnow.
  - rewrite validate_storage_operation_eq, Ht.
    change PULL_DATA_LEEWAY_TIME with 2000000000%Z in Hle.
    rewrite !decide_False by lia. apply bool_decide_eq_false.
    unfold old_version. rewrite Hs. by apply u64_pred_ne.
  - rewrite keyspace_version_eq, Ht, decide_True by lia. done.
Qed.
End view_time.

(** * Nodes that have, and have not yet, seen an event *)
Section view_transition.
Context `{PeerIds, Ff1, Hashing, UnixTime}.
Context `{!Postcard DataV0, !Postcard DataV1, !Postcard ExtraV0, !Postcard ExtraV1}.
Context {N S : Type} `{!Config N, !Calculate S}.
Implicit Types v : View N S.

Lemma u64_pred_succ ver : fits 64 ver → u64_sub (u64_add ver 1) 1 = ver.
Proof.
  intros Hv. unfold u64_sub, u64_add, wrap. rewrite Zminus_mod_idemp_l.
  replace (ver + 1 - 1)%Z with ver by lia. by apply Z.mod_small.
Qed.

Lemma u64_succ_pred ver : fits 64 ver → u64_add (u64_sub ver 1) 1 = ver.
Proof.
  intros Hv. unfold u64_sub, u64_add, wrap. rewrite Zplus_mod_idemp_l.
  replace (ver - 1 + 1)%Z with ver by lia. by apply Z.mod_small.
Qed.

Lemma apply_started_inv v e v' :
  apply_event v (EvMigrationStarted e) = Ok v' →
  v_settings v' = v_settings v ∧
  v_keyspace_version v' = u64_add (v_keyspace_version v) 1 ∧
  ∃ ks pulling, mig_state (v_migration v') = Started ks pulling.
Proof.
  unfold apply_event, apply_MigrationStarted. case_decide; [done|].
  intros Hv. mon_inv. split_and!; [done|done|]. by eexists _, _.
Qed.

Lemma apply_aborted_inv v e v' :
  apply_event v (EvMigrationAborted e) = Ok v' →
  v_settings v' = v_settings v ∧
  v_keyspace_version v' = u64_sub (v_keyspace_version v) 1 ∧
  (∃ ks pulling, mig_state (v_migration v) = Started ks pulling) ∧
  ∃ at_, mig_state (v_migration v') = Aborted at_.
Proof.
  unfold apply_event, apply_MigrationAborted, require_migration. case_decide; [done|].
  destruct (is_in_progress (v_migration v)) eqn:Hp; [|done].
  apply is_in_progress_true in Hp as (ks & pulling & Hs).
  intros Hv. cbn in Hv. mon_inv. split_and!; [done|done| |]; eauto.
Qed.

Lemma apply_completed_inv v e v' :
  apply_event v (EvMigrationCompleted e) = Ok v' →
  v_settings v' = v_settings v ∧
  v_keyspace_version v' = v_keyspace_version v ∧
  (∃ ks pulling, mig_state (v_migration v) = Started ks pulling) ∧
  mig_state (v_migration v') = Completed.
Proof.
  unfold apply_event, apply_MigrationCompleted, require_migration. case_decide; [done|].
  intros Hv. mon_inv.
  destruct (is_in_progress (v_migration v)) eqn:Hp; [|done].
  apply is_in_progress_true in Hp as (ks & pulling & Hs).
  unfold mig_complete in *. rewrite Hs in *. mon_inv. split_and!; eauto.
Qed.

(** Starting a migration is invisible to storage operations until the
    event has propagated: before the transition time a node that has seen the
    event stamps operations that a node that has not seen it accepts, and up to
    the end of the skew window it accepts what such a node stamps. *)
Theorem migration_start_transparent v e v' t :
  apply_event v (EvMigrationStarted e) = Ok v' →
  fits 64 (v_keyspace_version v) → mig_state (v_migration v) = Completed →
  (0 ≤ clock_skew (v_settings v))%Z → transition_time v' = Some t →
  (∀ now_c now_r, (now_c < t)%Z →
     validate_storage_operation now_r v (keyspace_version now_c v') = true) ∧
  (∀ now_c now_r, (now_r ≤ t + clock_skew (v_settings v))%Z →
     validate_storage_operation now_r v' (keyspace_version now_c v) = true).
Proof.
  intros (Hset & Hver & ks & pulling & Hs)%apply_started_inv Hfit Hdone Hskew Ht.
  assert (transition_time v = None) as Hnone by (unfold transition_time; by rewrite Hdone).
  assert (old_version v' = v_keyspace_version v) as Hold.
  { unfold old_version. rewrite Hs, Hver. by apply u64_pred_succ. }
  split; intros now_c now_r Hlt;
    rewrite validate_storage_operation_eq, keyspace_version_eq, Ht, Hnone.
  - rewrite decide_False, Hold by lia. by apply bool_decide_eq_true.
  - rewrite Hset. repeat case_decide; try lia; apply bool_decide_eq_true; set_solver.
Qed.

(** Ending a migration is invisible too: once the start of the migration
    is past its transition time, a node that has seen it complete and a node
    that has not accept each other's operations; and so do, until the abort has
    propagated, nodes that have and have not seen it aborted. *)
Theorem migration_end_transparent v e v' t :
  (apply_event v (EvMigrationCompleted e) = Ok v' ∨
   ∃ e, apply_event v (EvMigrationAborted e) = Ok v') →
  fits 64 (v_keyspace_version v) → (0 ≤ clock_skew (v_settings v))%Z →
  transition_time v = Some t →
  (∀ now_c now_r, (t - clock_skew (v_settings v) ≤ now_r)%Z →
     (∀ t', transition_time v' = Some t' → now_c < t')%Z →
     validate_storage_operation now_r v (keyspace_version now_c v') = true) ∧
  (∀ now_c now_r, (t ≤ now_c)%Z →
     (∀ t', transition_time v' = Some t' → now_r ≤ t' + clock_skew (v_settings v))%Z →
     validate_storage_operation now_r v' (keyspace_version now_c v) = true).
Proof.
  intros Hev Hfit Hskew Ht.
  assert (v_settings v' = v_settings v ∧ old_version v' = v_keyspace_version v ∧
          (transition_time v' = None → v_keyspace_version v' = v_keyspace_version v))
    as (Hset & Hold & Hdone).
  { unfold old_version, transition_time. destruct Hev as [Hev|[e' Hev]].
    - apply apply_completed_inv in Hev as (? & ? & _ & Hs). by rewrite Hs.
    - apply apply_aborted_inv in Hev as (? & Hver & _ & at_ & Hs). rewrite Hs, Hver.
      split_and!; [done|by apply u64_succ_pred|done]. }
  split; intros now_c now_r Hnow Hnext;
    rewrite validate_storage_operation_eq, keyspace_version_eq, Ht, Hold, ?Hset;
    destruct (transition_time v') as [t'|] eqn:Ht'.
  - specialize (Hnext t' eq_refl). rewrite (decide_False (P := (t' ≤ now_c)%Z)) by lia.
    repeat case_decide; try lia; apply bool_decide_eq_true; set_solver.
  - rewrite Hdone by done.
    repeat case_decide; try lia; apply bool_decide_eq_true; set_solver.
  - specialize (Hnext t' eq_refl). rewrite (decide_True (P := (t ≤ now_c)%Z)) by lia.
    repeat case_decide; try lia; apply bool_decide_eq_true; set_solver.
  - rewrite decide_True by lia. rewrite Hdone by done. by apply bool_decide_eq_true.
Qed.
End view_transition.

(** * Witnesses: the migration of the concrete cluster, started at second 1000,
    with a latency of 5 s and a skew of 0.5 s *)

#[local] Existing Instance toy_peer_ids.
#[local] Existing Instance toy_ff1.
#[local] Existing Instance toy_hashing.
#[local] Existing Instance toy_unix_time.
#[local] Existing Instance toy_config.
#[local] Existing Instance toy_d0.
#[local] Existing Instance toy_d1.
#[local] Existing Instance toy_e0.
#[local] Existing Instance toy_e1.

Lemma storage_operation_skew_tolerant_witness :
  keyspace_version 1004900000000 toy_migrating = 7%Z ∧
  validate_storage_operation 1005300000000 toy_migrating
    (keyspace_version 1004900000000 toy_migrating) = true.
Proof.
  split; [reflexivity|].
  apply (storage_operation_skew_tolerant toy_migrating). vm_compute. discriminate.
Defined.

Lemma storage_operation_sound_witness : 8%Z = v_keyspace_version toy_migrating.
Proof.
  apply (storage_operation_sound toy_migrating 1006000000000 8); reflexivity || done.
Defined.

Lemma data_pull_excludes_old_version_witness :
  validate_data_pull 1008000000000 toy_migrating 8 = true ∧
  ∀ now', (1008000000000 ≤ now')%Z →
    validate_storage_operation now' toy_migrating (old_version toy_migrating) = false.
Proof.
  split; [reflexivity|].
  apply (data_pull_excludes_old_version toy_migrating 1008000000000 8);
    reflexivity || done.
Defined.

Lemma migration_start_transparent_witness :
  validate_storage_operation 1005300000000 toy_view
    (keyspace_version 1004900000000 toy_migrating) = true.
Proof.
  apply (migration_start_transparent toy_view toy_started toy_migrating 1005000000000);
    reflexivity || done.
Defined.

Definition toy_aborted : MigrationAborted := {|
  ma_migration_id := 4%Z; ma_at := 2000%Z; ma_cluster_version := 42%Z |}.

Definition toy_aborted_view : View Z () :=
  set_cluster_version
    (set_keyspaces toy_migrating (v_keyspace toy_migrating) 7%Z
       {| mig_id := 4%Z; mig_started_at := 1000000000000%Z; mig_state := Aborted 2000000000000%Z |})
    42%Z.

Lemma migration_end_transparent_witness :
  validate_storage_operation 2003000000000 toy_migrating
    (keyspace_version 2004000000000 toy_aborted_view) = true.
Proof.
  apply (migration_end_transparent toy_migrating
           {| mc_migration_id := 0%Z; mc_operator_id := 0%Z; mc_cluster_version := 0%Z |}
           toy_aborted_view 1005000000000).
  - right. exists toy_aborted. reflexivity.
  - done.
  - done.
  - reflexivity.
  - vm_compute. discriminate.
  - intros t' [= <-]. vm_compute. reflexivity.
Defined.
