(* ===== verification/ViewInvariant.v ===== *)
(** ViewInvariant: the invariant of a view.

    [view_wf] says what every reader of a view relies on: the slot map is
    consistent, every operator has nodes, and both keyspaces (the current one
    and the one being migrated to) have between 5 and 256 operators, all of
    them known, and correct shards.  It holds of every view built from the
    chain and is preserved by every event the contract may emit
    ([event_admissible]), so the [unwrap]s of the replica-set queries never
    panic. *)
From S2P Require Import Prelude External Sharding SmartContract NodeOperator NodeOperators.
From S2P Require Import Keyspace Settings Migration View Concrete.
From stdpp Require Import prelude gmap sets list strings.

Section view_invariant.
Context `{PeerIds, Ff1Laws, HashingLaws, UnixTime}.
Context `{!Postcard DataV0, !Postcard DataV1, !Postcard ExtraV0, !Postcard ExtraV1}.
Context `{!PostcardLaws DataV0, !PostcardLaws DataV1, !PostcardLaws ExtraV0, !PostcardLaws ExtraV1}.
Context {N S : Type} `{!Config N, !Calculate S, !CalculateSpec S}.
Implicit Types v : View N S.
Implicit Types ops : NodeOperators N.

(** A keyspace over the operators of a cluster; indices are [u8]s. *)
Record keyspace_ok ops (ks : Keyspace S) : Prop := {
  ko_wf : ks_wf ks;
  ko_typed idx : idx ∈ ks_operators ks → fits 8 idx;
  ko_known idx : idx ∈ ks_operators ks → contains_idx ops idx = true;
  ko_shards : shards_wf ks;
}.

Record view_wf v : Prop := {
  vw_ops : ops_wf (v_node_operators v);
  vw_nodes op : op ∈ ops_iter (v_node_operators v) → op_wf op;
  vw_keyspace : keyspace_ok (v_node_operators v) (v_keyspace v);
  vw_migration ks pulling :
    mig_state (v_migration v) = Started ks pulling →
    keyspace_ok (v_node_operators v) ks;
  vw_keyspace_version : fits 64 (v_keyspace_version v);
  vw_cluster_version : fits 128 (v_cluster_version v);
}.

(** What the contract guarantees of an event beyond what [apply] checks: words
    have their width, a new operator gets the first free or the next slot, and
    an operator of a keyspace is not removed. *)
Definition event_admissible v (event : Event) : Prop :=
  match event with
  | EvMigrationStarted evt =>
      ∀ idx, idx ∈ sc_ks_operators (ms_new_keyspace evt) → fits 8 idx
  | EvNodeOperatorAdded evt =>
      fits 8 (noa_idx evt) ∧ (noa_idx evt ≤ Z.of_nat (length (slots (v_node_operators v))))%Z
  | EvNodeOperatorRemoved evt =>
      ∀ idx, get_idx (v_node_operators v) (nor_id evt) = Some idx →
        idx ∉ ks_operators (v_keyspace v) ∧
        ∀ ks pulling, mig_state (v_migration v) = Started ks pulling → idx ∉ ks_operators ks
  | _ => True
  end.

(** ** Keyspaces and slots *)

Lemma contains_idx_true ops idx :
  contains_idx ops idx = true ↔ ∃ op, get_by_idx ops idx = Some op.
Proof. unfold contains_idx. destruct (get_by_idx ops idx); naive_solver. Qed.

Lemma ops_iter_get_by_idx ops op :
  op ∈ ops_iter ops ↔ ∃ idx, (0 ≤ idx)%Z ∧ get_by_idx ops idx = Some op.
Proof.
  unfold ops_iter. rewrite list_elem_of_omap. setoid_rewrite list_elem_of_lookup.
  setoid_rewrite get_by_idx_Some. split.
  - intros (s & [i Hi] & Hs). cbn in Hs; subst. exists (Z.of_nat i).
    rewrite Nat2Z.id. split; [lia|done].
  - intros (idx & _ & Hi). exists (Some op). eauto.
Qed.

Lemma ops_set_known {E} ops idx slot ops' :
  ops_wf ops → fits 8 idx → slot_free_for ops idx slot →
  (∀ op, slot = Some op → op_wf op) →
  (∀ op, op ∈ ops_iter ops → op_wf op) →
  ops_set (E := E) ops idx slot = Ok ops' →
  ops_wf ops' ∧ (∀ op, op ∈ ops_iter ops' → op_wf op) ∧
  ∀ ks, (slot = None → idx ∉ ks_operators ks) → keyspace_ok ops ks → keyspace_ok ops' ks.
Proof.
  intros Hwf Hidx Hfree Hslot Hnodes Hset.
  pose proof (ops_set_update (E := E) ops idx slot Hwf Hidx Hfree) as Hupd.
  case_decide as Hle; [|congruence]. destruct Hupd as (o & Ho & Hwf' & Hget & Hothers & _).
  rewrite Hset in Ho. apply Ok_inj in Ho as <-. split; [done|]. split.
  - intros op (j & Hj & Hop)%ops_iter_get_by_idx. destruct (decide (j = idx)) as [->|Hne].
    + apply Hslot. congruence.
    + rewrite Hothers in Hop by done. apply Hnodes, ops_iter_get_by_idx. eauto.
  - intros ks Hout [Hk Ht Hkn Hs]. split; [done|done| |done]. intros j Hj.
    destruct (decide (j = idx)) as [->|Hne].
    + unfold contains_idx. rewrite Hget. destruct slot; [done|]. by destruct (Hout eq_refl).
    + specialize (Ht j Hj). unfold fits in Ht. unfold contains_idx. rewrite Hothers by lia.
      apply (Hkn j Hj).
Qed.

Lemma ops_set_at_most {E} ops idx slot :
  (0 ≤ idx ≤ Z.of_nat (length (slots ops)))%Z → ops_set (E := E) ops idx slot ≠ Panic.
Proof. intros Hidx. rewrite ops_set_cases by lia. by rewrite decide_True by lia. Qed.

Lemma view_wf_set_node_operators v idx slot ops' :
  view_wf v → fits 8 idx → slot_free_for (v_node_operators v) idx slot →
  (∀ op, slot = Some op → op_wf op) →
  (slot = None → idx ∉ ks_operators (v_keyspace v) ∧
     ∀ ks pulling, mig_state (v_migration v) = Started ks pulling → idx ∉ ks_operators ks) →
  ops_set (E := view_error) (v_node_operators v) idx slot = Ok ops' →
  view_wf (set_node_operators v ops').
Proof.
  intros Hv Hidx Hfree Hslot Hnone Hset.
  destruct (ops_set_known (E := view_error) _ _ _ _ (vw_ops _ Hv) Hidx Hfree Hslot
              (vw_nodes _ Hv) Hset) as (Hwf' & Hnodes' & Hks).
  split; cbn; try done; try apply Hv.
  - apply Hks; [intros; by apply Hnone|apply Hv].
  - intros ks pulling Hs. apply Hks; [|by eapply vw_migration].
    intros Hn. by apply (proj2 (Hnone Hn) ks pulling).
Qed.

(** ** Preservation, one event at a time *)

Lemma apply_MigrationStarted_wf e v v' :
  view_wf v → event_admissible v (EvMigrationStarted e) →
  apply_MigrationStarted e v = Ok v' → view_wf v'.
Proof.
  intros Hv Hadm. unfold apply_MigrationStarted. intros Happ. mon_inv.
  apply keyspace_try_from_sc_Ok in Hm1 as (Hwf & Hops & _).
  rewrite ks_validate_Ok in Hm2.
  destruct (calculate_shards_ok view_error _ Hwf) as (ks' & Hcalc & Hops' & _ & Hsh).
  rewrite Hcalc in Hm4. apply Ok_inj in Hm4 as <-.
  split; cbn; try apply Hv; [|apply wrap_fits; lia].
  intros ks pulling [= <- <-]. split; [|intros idx|intros idx|done].
  - unfold ks_wf. by rewrite Hops'.
  - rewrite Hops', Hops. apply Hadm.
  - rewrite Hops'. apply Hm2.
Qed.

Lemma apply_MigrationDataPullCompleted_wf e v v' :
  view_wf v → apply_MigrationDataPullCompleted e v = Ok v' → view_wf v'.
Proof.
  intros Hv. unfold apply_MigrationDataPullCompleted. intros Happ. mon_inv.
  split; cbn; try apply Hv. intros ks pulling. unfold complete_pull.
  destruct (mig_state (v_migration v)) as [ks0 p0| |] eqn:Hs; cbn; [|congruence..].
  intros [= <- <-]. by eapply vw_migration.
Qed.

Lemma apply_MigrationCompleted_wf e v v' :
  view_wf v → apply_MigrationCompleted e v = Ok v' → view_wf v'.
Proof.
  intros Hv. unfold apply_MigrationCompleted, mig_complete. intros Happ. mon_inv.
  destruct (mig_state (v_migration v)) as [ks0 p0| |] eqn:Hs; mon_inv.
  split; cbn; try apply Hv; [|done]. by eapply vw_migration.
Qed.

Lemma apply_MigrationAborted_wf e v v' :
  view_wf v → apply_MigrationAborted e v = Ok v' → view_wf v'.
Proof.
  intros Hv. unfold apply_MigrationAborted. intros Happ. mon_inv.
  split; cbn; try apply Hv; [done|]. apply wrap_fits. lia.
Qed.

Lemma apply_NodeOperatorAdded_wf e v v' :
  view_wf v → event_admissible v (EvNodeOperatorAdded e) →
  apply_NodeOperatorAdded e v = Ok v' → view_wf v'.
Proof.
  intros Hv [Hidx Hlen]. unfold apply_NodeOperatorAdded. intros Happ. mon_inv.
  destruct (operator_from_sc_wf (E := view_error) (noa_operator e)) as (op & Hop & Hwf & Hid).
  rewrite Hop in Hm1. apply Ok_inj in Hm1 as <-.
  eapply (view_wf_set_node_operators _ _ (Some op)); [done|done| |by intros ? [= <-]|done|done].
  left. rewrite Hid. unfold require_not_exists, ops_contains in Hm.
  case_bool_decide as Hex; [done|]. by apply eq_None_not_Some.
Qed.

Lemma apply_NodeOperatorUpdated_wf e v v' :
  view_wf v → apply_NodeOperatorUpdated e v = Ok v' → view_wf v'.
Proof.
  intros Hv. unfold apply_NodeOperatorUpdated, require_idx. intros Happ. mon_inv.
  destruct (operator_from_sc_wf (E := view_error) (nou_operator e)) as (op & Hop & Hwf & Hid).
  rewrite Hop in Hm0. apply Ok_inj in Hm0 as <-.
  eapply (view_wf_set_node_operators _ _ (Some op)); [done| | |by intros ? [= <-]|done|done].
  - eapply get_idx_fits; [apply Hv|done].
  - right. by rewrite Hid.
Qed.

Lemma apply_NodeOperatorRemoved_wf e v v' :
  view_wf v → event_admissible v (EvNodeOperatorRemoved e) →
  apply_NodeOperatorRemoved e v = Ok v' → view_wf v'.
Proof.
  intros Hv Hadm. unfold apply_NodeOperatorRemoved, require_idx. intros Happ. mon_inv.
  eapply (view_wf_set_node_operators _ _ None); [done| |done|done| |done].
  - eapply get_idx_fits; [apply Hv|done].
  - intros _. by apply Hadm.
Qed.

Lemma apply_event_wf_aux v event v' :
  view_wf v → event_admissible v event → apply_event v event = Ok v' →
  view_wf v' ∧ v_cluster_version v' = wrap 128 (v_cluster_version v + 1).
Proof.
  intros Hv Hadm. unfold apply_event. case_decide as Hver; [done|]. intros Happ.
  mon_inv. split; [|done].
  enough (view_wf a) as Ha.
  { destruct Ha. split; cbn; try done. rewrite Hver. apply wrap_fits. lia. }
  destruct event as [e|e|e|e|e|e|e|e|e|e].
  - by eapply apply_MigrationStarted_wf.
  - by eapply apply_MigrationDataPullCompleted_wf.
  - by eapply apply_MigrationCompleted_wf.
  - by eapply apply_MigrationAborted_wf.
  - unfold apply_MaintenanceStarted in Hm. mon_inv. by destruct Hv; split.
  - unfold apply_MaintenanceFinished in Hm. mon_inv. by destruct Hv; split.
  - by eapply apply_NodeOperatorAdded_wf.
  - by eapply apply_NodeOperatorUpdated_wf.
  - by eapply apply_NodeOperatorRemoved_wf.
  - unfold apply_SettingsUpdated in Hm. mon_inv. by destruct Hv; split.
Qed.

(** ** No event panics *)

Ltac require_panic :=
  unfold require_no_migration, require_no_maintenance, require_migration, require_maintenance,
    require_idx, require_id, require_pulling, require_pulling_count, require_not_exists,
    require_free_slot, require_diff, parse_timestamp, ok_or in *;
  repeat case_match; discriminate.

Lemma operator_from_sc_no_panic {E} sc : operator_from_sc (N := N) (E := E) sc ≠ Panic.
Proof. destruct (operator_from_sc_wf (N := N) (E := E) sc) as (op & -> & _). done. Qed.

Lemma settings_try_from_sc_no_panic sc : settings_try_from_sc sc ≠ Panic.
Proof.
  unfold settings_try_from_sc. destruct (sc_extra sc) as [|ver bytes]; [done|]. intros Hp.
  panic_inv. repeat case_decide; panic_inv;
    destruct (postcard_from_bytes bytes) eqn:Hb; try done;
    by apply postcard_from_bytes_safe in Hb.
Qed.

Lemma ops_set_idx_no_panic {E} v id idx slot :
  view_wf v → get_idx (v_node_operators v) id = Some idx →
  ops_set (E := E) (v_node_operators v) idx slot ≠ Panic.
Proof.
  intros Hv Hidx. destruct (get_idx_fits _ _ _ (vw_ops _ Hv) Hidx) as [[Hi _] Hlt].
  apply ops_set_at_most. lia.
Qed.

Lemma apply_MigrationStarted_no_panic e v : apply_MigrationStarted e v ≠ Panic.
Proof.
  unfold apply_MigrationStarted. intros Hp. panic_inv; try require_panic.
  - by apply keyspace_try_from_sc_no_panic in Hp.
  - by apply validate_operators_no_panic in Hp.
  - apply map_err_Ok, keyspace_try_from_sc_Ok in Hm1 as (Hwf & _).
    destruct (calculate_shards_ok view_error _ Hwf) as (ks' & Hcalc & _). congruence.
Qed.

Lemma apply_event_no_panic v event :
  view_wf v → event_admissible v event → apply_event v event ≠ Panic.
Proof.
  intros Hv Hadm. unfold apply_event. case_decide; [done|]. intros Hp.
  panic_inv. destruct event as [e|e|e|e|e|e|e|e|e|e].
  - by apply apply_MigrationStarted_no_panic in Hp.
  - unfold apply_MigrationDataPullCompleted in Hp. panic_inv; require_panic.
  - unfold apply_MigrationCompleted in Hp. panic_inv; try require_panic.
    destruct a2. apply map_err_Ok in Hm2. apply require_pulling_Ok in Hm2 as (ks & p & Hs & _).
    unfold require_migration in Hm0. apply map_err_Ok in Hm0.
    destruct (is_in_progress (v_migration v)); [|done].
    apply Ok_inj in Hm0 as <-. unfold mig_complete in Hp. rewrite Hs in Hp. done.
  - unfold apply_MigrationAborted in Hp. panic_inv; require_panic.
  - unfold apply_MaintenanceStarted in Hp. panic_inv; require_panic.
  - unfold apply_MaintenanceFinished in Hp. panic_inv; require_panic.
  - unfold apply_NodeOperatorAdded in Hp. panic_inv; try require_panic.
    + by apply operator_from_sc_no_panic in Hp.
    + destruct Hadm as [[Hi _] Hle]. by apply ops_set_at_most in Hp.
  - unfold apply_NodeOperatorUpdated in Hp. panic_inv; try require_panic.
    + by apply operator_from_sc_no_panic in Hp.
    + apply map_err_Ok, ok_or_Ok in Hm. by eapply ops_set_idx_no_panic.
  - unfold apply_NodeOperatorRemoved in Hp. panic_inv; try require_panic.
    apply map_err_Ok, ok_or_Ok in Hm. by eapply ops_set_idx_no_panic.
  - unfold apply_SettingsUpdated in Hp. panic_inv.
    by apply settings_try_from_sc_no_panic in Hp.
Qed.

(** ** Sequences of events *)

Fixpoint events_admissible v (events : list Event) : Prop :=
  match events with
  | [] => True
  | event :: events =>
      event_admissible v event ∧
      ∀ v', apply_event v event = Ok v' → events_admissible v' events
  end.

(** C15. A view stays valid through any sequence of events the contract may
    emit: applying them never panics, the invariant holds of the result, and
    the cluster version has grown by exactly the number of events. *)
Theorem apply_events_invariant v events :
  view_wf v → events_admissible v events →
  apply_events v events ≠ Panic ∧
  ∀ v', apply_events v events = Ok v' →
    view_wf v' ∧
    v_cluster_version v' = wrap 128 (v_cluster_version v + Z.of_nat (length events)).
Proof.
  revert v; induction events as [|event events IH]; intros v Hv Hadm; cbn in *.
  { split; [done|]. intros v' <-%Ok_inj. split; [done|].
    rewrite Z.add_0_r, wrap_small; [done|apply Hv]. }
  destruct Hadm as [Hadm Hrest]. destruct (apply_event v event) as [v1|e|] eqn:Happ; cbn.
  - destruct (apply_event_wf_aux v event v1 Hv Hadm Happ) as [Hv1 Hver].
    destruct (IH v1 Hv1 (Hrest _ eq_refl)) as [Hnp Hok]. split; [done|].
    intros v' Hv'. destruct (Hok v' Hv') as [? ->]. split; [done|]. rewrite Hver.
    unfold wrap. rewrite Zplus_mod_idemp_l. f_equal. lia.
  - done.
  - by apply apply_event_no_panic in Happ.
Qed.

(** ** Views built from the chain *)

(** The fields of the on-chain view have the widths of their types. *)
Record cluster_view_typed (cv : ClusterView) : Prop := {
  ct_keyspaces idx :
    idx ∈ sc_ks_operators (cv_keyspaces cv).1 ∨ idx ∈ sc_ks_operators (cv_keyspaces cv).2 →
    fits 8 idx;
  ct_keyspace_version : fits 64 (cv_keyspace_version cv);
  ct_cluster_version : fits 128 (cv_cluster_version cv);
}.

Lemma decode_slots {E} scs :
  ∃ l, res_map (E := E) (option_mapM operator_from_sc) scs = Ok l ∧
       Forall (λ slot : option (NodeOperator N), ∀ op, slot = Some op → op_wf op) l.
Proof.
  induction scs as [|[sc|] scs (l & Hl & Hwf)]; cbn; [by eexists| |].
  - destruct (operator_from_sc_wf (N := N) (E := E) sc) as (op & Hop & Howf & _).
    rewrite Hop; cbn. rewrite Hl; cbn. eexists; split; [done|].
    constructor; [by intros ? [= <-]|done].
  - rewrite Hl; cbn. eexists; split; [done|]. by constructor.
Qed.

Lemma migration_try_from_sc_keyspace sc ks (m : Migration ()) :
  migration_try_from_sc sc ks = Ok m →
  match mig_state m with
  | Started k _ => keyspace_try_from_sc ks = Ok k
  | _ => True
  end.
Proof.
  unfold migration_try_from_sc. intros Hm. mon_inv.
  destruct (sc_mig_aborted_at sc); mon_inv; [done|]. case_decide; by mon_inv.
Qed.

Lemma calculate_keyspace_ok {E} (m : Migration ()) :
  (∀ ks p, mig_state m = Started ks p → ks_wf ks) →
  ∃ m' : Migration S, calculate_keyspace (E := E) m = Ok m' ∧
    mig_id m' = mig_id m ∧ mig_started_at m' = mig_started_at m ∧
    ∀ ks' p', mig_state m' = Started ks' p' →
      ∃ ks, mig_state m = Started ks p' ∧ ks_operators ks' = ks_operators ks ∧ shards_wf ks'.
Proof.
  intros Hwf. unfold calculate_keyspace. destruct (mig_state m) as [ks p|at_|] eqn:Hs; cbn.
  - destruct (calculate_shards_ok E ks) as (ks' & -> & Hops & _ & Hsh); [by eapply Hwf|].
    cbn. eexists; split_and!; [done|done|done|]. intros ? ? [= <- <-]. eauto.
  - eexists; split_and!; [done|done|done|]. by intros.
  - eexists; split_and!; [done|done|done|]. by intros.
Qed.

(** The keyspace at one of the two on-chain positions, decoded and validated. *)
Lemma decoded_keyspace_ok ops sc (ks : Keyspace ()) (ks' : Keyspace S) :
  (∀ idx, idx ∈ sc_ks_operators sc → fits 8 idx) →
  keyspace_try_from_sc sc = Ok ks → ks_validate ks ops = Ok () →
  ks_operators ks' = ks_operators ks → shards_wf ks' → keyspace_ok ops ks'.
Proof.
  intros Hty (Hwf & Hops & _)%keyspace_try_from_sc_Ok Hval Hops' Hsh.
  rewrite ks_validate_Ok in Hval.
  split; [unfold ks_wf; by rewrite Hops'| | |done]; intros idx; rewrite Hops'.
  - rewrite Hops. apply Hty.
  - apply Hval.
Qed.

Lemma decoded_migration_ok ops sc mig (m : Migration ()) :
  (∀ idx, idx ∈ sc_ks_operators sc → fits 8 idx) →
  migration_try_from_sc mig sc = Ok m →
  match mig_keyspace m with
  | Some ks => map_err TKeyspaceUnknownOperator (ks_validate ks ops)
  | None => Ok ()
  end = Ok () →
  ∃ m' : Migration S, calculate_keyspace (E := view_from_sc_error) m = Ok m' ∧
    ∀ ks p, mig_state m' = Started ks p → keyspace_ok ops ks.
Proof.
  intros Hty Hm Hval. apply migration_try_from_sc_keyspace in Hm.
  destruct (calculate_keyspace_ok (E := view_from_sc_error) m) as (m' & Hcm & _ & _ & Hst').
  { intros ks p Hst. rewrite Hst in Hm. by apply keyspace_try_from_sc_Ok in Hm as (? & _). }
  exists m'. split; [done|]. intros ks p (ks0 & Hst & Hops & Hsh)%Hst'.
  unfold mig_keyspace in Hval. rewrite Hst in Hval, Hm. apply map_err_Ok in Hval.
  by eapply decoded_keyspace_ok.
Qed.

Lemma view_try_from_sc_wf cv v :
  cluster_view_typed cv → view_try_from_sc cv = Ok v → view_wf v.
Proof.
  intros [Hks Hkv Hcv]. unfold view_try_from_sc. intros Hv.
  destruct (decode_slots (E := view_from_sc_error) (cv_node_operators cv)) as (l & Hl & Hops).
  rewrite Hl in Hv. cbn [mbind res_bind] in Hv.
  apply bind_Ok in Hv as (ops & Hfrom%map_err_Ok & Hv).
  apply bind_Ok in Hv as (settings & _ & Hv).
  apply bind_Ok in Hv as (pver & _ & Hv).
  destruct (cv_keyspaces cv) as [k0 k1]; cbn in Hks.
  assert (∃ prim sec, (if decide (pver mod 2 = 0)%Z then (k0, k1) else (k1, k0)) = (prim, sec) ∧
    (∀ idx, idx ∈ sc_ks_operators prim → fits 8 idx) ∧
    (∀ idx, idx ∈ sc_ks_operators sec → fits 8 idx)) as (prim & sec & Hps & Hp & Hs).
  { case_decide; eexists _, _; split_and!; eauto. }
  rewrite Hps in Hv. clear Hps.
  apply bind_Ok in Hv as (ks & Hk%map_err_Ok & Hv).
  apply bind_Ok in Hv as ([] & Hval%map_err_Ok & Hv).
  apply bind_Ok in Hv as (m & Hm%map_err_Ok & Hv).
  apply bind_Ok in Hv as ([] & Hmval & Hv).
  destruct (calculate_shards_ok view_from_sc_error ks) as (ks' & Hcalc & Hops' & _ & Hsh).
  { by apply keyspace_try_from_sc_Ok in Hk as (? & _). }
  destruct (decoded_migration_ok ops sec _ m Hs Hm Hmval) as (m' & Hcm & Hmok).
  rewrite Hcalc in Hv. cbn [mbind res_bind] in Hv.
  rewrite Hcm in Hv. cbn [mbind res_bind] in Hv. apply Ok_inj in Hv as <-.
  pose proof (from_slots_cases l) as Hc. rewrite Hfrom in Hc. destruct Hc as (Hwf & Hslots & _).
  split; cbn; try done.
  - intros op (slot & Hin & Hop)%list_elem_of_omap. rewrite Hslots in Hin.
    rewrite Forall_forall in Hops. by eapply Hops.
  - by apply (decoded_keyspace_ok ops prim ks ks').
Qed.

Lemma from_slots_no_panic (l : list (option (NodeOperator N))) : from_slots l ≠ Panic.
Proof. intros Hp. pose proof (from_slots_cases l) as Hc. by rewrite Hp in Hc. Qed.

Lemma migration_try_from_sc_no_panic mig sc : migration_try_from_sc mig sc ≠ Panic.
Proof.
  unfold migration_try_from_sc. intros Hp. panic_inv; [|by apply parse_timestamp_no_panic in Hp].
  repeat case_match; panic_inv; try done.
  - by apply parse_timestamp_no_panic in Hp.
  - by apply keyspace_try_from_sc_no_panic in Hp.
Qed.

Lemma view_try_from_sc_no_panic cv : view_try_from_sc (N := N) (S := S) cv ≠ Panic.
Proof.
  unfold view_try_from_sc. intros Hp.
  destruct (decode_slots (E := view_from_sc_error) (cv_node_operators cv)) as (l & Hl & _).
  rewrite Hl in Hp. cbn [mbind res_bind] in Hp.
  panic_inv; [by apply from_slots_no_panic in Hp|by apply settings_try_from_sc_no_panic in Hp| |].
  { case_match; panic_inv. }
  destruct (cv_keyspaces cv) as [k0 k1].
  destruct (if decide (a1 mod 2 = 0)%Z then (k0, k1) else (k1, k0)) as [prim sec].
  panic_inv.
  - by apply keyspace_try_from_sc_no_panic in Hp.
  - by apply validate_operators_no_panic in Hp.
  - by apply migration_try_from_sc_no_panic in Hp.
  - case_match; panic_inv. by apply validate_operators_no_panic in Hp.
  - apply map_err_Ok, keyspace_try_from_sc_Ok in Hm2 as (Hwf & _).
    destruct (calculate_shards_ok view_from_sc_error _ Hwf) as (ks' & Hcalc & _). congruence.
  - apply map_err_Ok, migration_try_from_sc_keyspace in Hm4.
    destruct (calculate_keyspace_ok (E := view_from_sc_error) a4) as (m' & Hcm & _).
    { intros ks p Hst. rewrite Hst in Hm4. by apply keyspace_try_from_sc_Ok in Hm4 as (? & _). }
    congruence.
Qed.

(** Whatever is on chain, building a view from it does not panic, and a
    view that is built satisfies the invariant: in particular both keyspaces
    name only operators that occupy a slot. *)
Theorem view_from_chain_wf cv :
  cluster_view_typed cv →
  view_try_from_sc (N := N) (S := S) cv ≠ Panic ∧
  ∀ v, view_try_from_sc cv = Ok v →
    view_wf v ∧ v_cluster_version v = cv_cluster_version cv ∧
    v_keyspace_version v = cv_keyspace_version cv.
Proof.
  intros Hty. split; [apply view_try_from_sc_no_panic|]. intros v Hv.
  split; [by eapply view_try_from_sc_wf|]. unfold view_try_from_sc in Hv.
  destruct (cv_keyspaces cv) as [k0 k1].
  do 3 apply bind_Ok in Hv as (? & _ & Hv).
  apply bind_Ok in Hv as (pver & _ & Hv).
  destruct (if decide (pver mod 2 = 0)%Z then (k0, k1) else (k1, k0)) as [prim sec].
  do 6 apply bind_Ok in Hv as (? & _ & Hv). by apply Ok_inj in Hv as <-.
Qed.
End view_invariant.

(** * Replica sets *)
Section view_replicas.
Context `{PeerIds, HashingLaws} {N : Type}.
Implicit Types v : View N Shards.

(** What a caller of the replica-set queries may rely on. *)
Record replicas_ok v (replicas : list (NodeOperator N)) : Prop := {
  ro_len : length replicas = REPLICATION_FACTOR;
  ro_distinct : NoDup (op_id <$> replicas);
  ro_members op : op ∈ replicas → op ∈ ops_iter (v_node_operators v) ∧ op_wf op;
}.

Lemma resolve_replicas_spec {E} v idxs :
  (∀ idx, idx ∈ idxs → contains_idx (v_node_operators v) idx = true) →
  ∃ replicas, resolve_replicas (E := E) v idxs = Ok replicas ∧
    Forall2 (λ idx op, get_by_idx (v_node_operators v) idx = Some op) idxs replicas.
Proof.
  unfold resolve_replicas. induction idxs as [|idx idxs IH]; intros Hk; cbn.
  { by eexists. }
  destruct (proj1 (contains_idx_true _ idx) (Hk idx ltac:(left))) as [op Hop].
  rewrite Hop; cbn. destruct IH as (rs & -> & Hall); [set_solver|]. cbn.
  eexists; split; [done|]. by constructor.
Qed.

Lemma slot_lookup_inj v i j a b :
  ops_wf (v_node_operators v) → (0 ≤ i)%Z → (0 ≤ j)%Z →
  get_by_idx (v_node_operators v) i = Some a → get_by_idx (v_node_operators v) j = Some b →
  op_id a = op_id b → i = j.
Proof.
  intros Hwf Hi Hj Ha%get_by_idx_Some Hb%get_by_idx_Some Hab.
  pose proof (slots_indexed_inj _ _ _ _ _ _ (ops_wf_indexed _ Hwf) Ha Hb Hab). lia.
Qed.

Lemma resolved_distinct v idxs replicas :
  ops_wf (v_node_operators v) → NoDup idxs → (∀ idx, idx ∈ idxs → fits 8 idx) →
  Forall2 (λ idx op, get_by_idx (v_node_operators v) idx = Some op) idxs replicas →
  NoDup (op_id <$> replicas).
Proof.
  intros Hwf Hnd Hty Hall. induction Hall as [|idx op idxs rs Hop Hall IH]; cbn; [constructor|].
  apply NoDup_cons in Hnd as [Hn Hnd]. apply NoDup_cons. split; [|apply IH; set_solver].
  intros (op' & Hid & [k Hk]%list_elem_of_lookup)%list_elem_of_fmap.
  apply Forall2_lookup_r with (1 := Hall) in Hk as (idx' & Hidx' & Hop').
  apply list_elem_of_lookup_2 in Hidx'.
  assert (fits 8 idx ∧ fits 8 idx') as [[? _] [? _]] by (split; apply Hty; set_solver).
  assert (idx = idx') as -> by (by eapply slot_lookup_inj).
  done.
Qed.

Lemma keyspace_replicas_ok {E} v ks key :
  view_wf v → keyspace_ok (v_node_operators v) ks → fits 64 key →
  ∃ shard replicas, ks_shard (E := E) ks key = Ok shard ∧
    resolve_replicas (E := E) v (replica_set shard) = Ok replicas ∧ replicas_ok v replicas ∧
    Forall2 (λ idx op, get_by_idx (v_node_operators v) idx = Some op) (replica_set shard) replicas ∧
    ∀ idx, idx ∈ replica_set shard → idx ∈ ks_operators ks.
Proof.
  intros Hv [Hwf Hty Hkn [Hlen Hall]] Hkey.
  assert (fits 16 (from_key key)) as Hid.
  { rewrite from_key_div by done. unfold fits in *.
    split; [apply Z.div_pos; lia|apply Z.div_lt_upper_bound; lia]. }
  destruct (lookup_lt_is_Some_2 (shards (ks_shards ks)) (Z.to_nat (from_key key)))
    as [idxs Hidxs].
  { rewrite Hlen, n_shards_eq. unfold fits in Hid. lia. }
  destruct (Hall idxs) as (Hrf & Hnd & Hin); [by eapply list_elem_of_lookup_2|].
  destruct (resolve_replicas_spec (E := E) v idxs) as (rs & Hrs & Hf); [auto|].
  exists {| replica_set := idxs |}, rs. unfold ks_shard. rewrite Hidxs. cbn.
  split_and!; [done|done| |done|done]. split.
  - by rewrite <-(Forall2_length _ _ _ Hf).
  - eapply resolved_distinct; eauto. apply Hv.
  - intros op [k Hk]%list_elem_of_lookup.
    apply Forall2_lookup_r with (1 := Hf) in Hk as (idx & Hidx & Hop).
    assert (op ∈ ops_iter (v_node_operators v)).
    { apply ops_iter_get_by_idx. exists idx. split; [|done].
      apply (Hty idx), Hin. by eapply list_elem_of_lookup_2. }
    split; [done|]. by apply (vw_nodes _ Hv).
Qed.

(** Every key is served: in a valid view the primary replica set of any key
    is five distinct operators of the cluster, each with at least two nodes;
    the lookups never panic. *)
Theorem primary_replica_set_ok v key :
  view_wf v → fits 64 key →
  ∃ replicas, primary_replica_set (E := Empty_set) v key = Ok replicas ∧ replicas_ok v replicas.
Proof.
  intros Hv Hkey.
  destruct (keyspace_replicas_ok (E := Empty_set) v (v_keyspace v) key Hv (vw_keyspace _ Hv) Hkey)
    as (shard & rs & Hs & Hr & Hok & _).
  exists rs. unfold primary_replica_set. rewrite Hs; cbn. done.
Qed.

(** Writes are shadowed exactly while they should be: the secondary replica
    set of a key is there precisely when a migration is in progress and its
    start has propagated, it is then five distinct operators, all of them of
    the keyspace being migrated to, and the lookup never panics. *)
Theorem secondary_replica_set_ok now v key :
  view_wf v → fits 64 key →
  ∃ r, secondary_replica_set (E := Empty_set) now v key = Ok r ∧
    (is_Some r ↔ ∃ ks pulling, mig_state (v_migration v) = Started ks pulling ∧
       has_event_propagated now (v_settings v) (mig_started_at (v_migration v)) = true) ∧
    ∀ replicas, r = Some replicas → replicas_ok v replicas ∧
      ∃ ks, mig_keyspace (v_migration v) = Some ks ∧
        ∀ op, op ∈ replicas → ∃ idx, idx ∈ ks_operators ks ∧
          get_by_idx (v_node_operators v) idx = Some op.
Proof.
  intros Hv Hkey. unfold secondary_replica_set, is_secondary_keyspace_shadowing_on,
    is_in_progress, mig_keyspace.
  destruct (mig_state (v_migration v)) as [ks p| |] eqn:Hst.
  2,3: eexists; split_and!; [done| |done]; split; [by intros []|naive_solver].
  destruct (has_event_propagated _ _ _) eqn:Hprop.
  2: eexists; split_and!; [done| |done]; split; [by intros []|naive_solver].
  destruct (keyspace_replicas_ok (E := Empty_set) v ks key Hv (vw_migration _ Hv _ _ Hst) Hkey)
    as (shard & rs & Hs & Hr & Hok & Hf & Hin).
  rewrite Hs; cbn. rewrite Hr; cbn. eexists; split_and!; [done| |].
  - split; [|done]. intros _. by eexists _, _.
  - intros ? [= <-]. split; [done|]. exists ks. split; [done|].
    intros op [k Hk]%list_elem_of_lookup.
    apply Forall2_lookup_r with (1 := Hf) in Hk as (idx & Hidx & Hop).
    exists idx. split; [|done]. apply Hin. by eapply list_elem_of_lookup_2.
Qed.
End view_replicas.

(** * Witnesses *)

#[local] Existing Instance toy_peer_ids.
#[local] Existing Instance toy_ff1.
#[local] Existing Instance toy_ff1_laws.
#[local] Existing Instance toy_hashing.
#[local] Existing Instance toy_hashing_laws.
#[local] Existing Instance toy_unix_time.
#[local] Existing Instance toy_config.
#[local] Existing Instance toy_d0.
#[local] Existing Instance toy_d1.
#[local] Existing Instance toy_e0.
#[local] Existing Instance toy_e1.
#[local] Existing Instance toy_e0_laws.
#[local] Existing Instance toy_e1_laws.
#[local] Instance toy_d0_laws' : PostcardLaws DataV0 := toy_postcard_laws DataV0.
#[local] Instance toy_d1_laws' : PostcardLaws DataV1 := toy_postcard_laws DataV1.

Lemma six_ops_nodes op : op ∈ ops_iter six_ops → op_wf op.
Proof.
  intros (slot & Hslot & Hop)%list_elem_of_omap. cbn in Hop; subst.
  apply list_elem_of_fmap in Hslot as (id & [= ->] & _).
  split; [unfold MIN_NODES; cbn; lia|done].
Qed.

(** Any keyspace with right shards over some of the six operators. *)
Definition six_view {S} (ks : Keyspace S) : View Z S := {|
  v_node_operators := six_ops; v_ownership := {| owner := 99%Z |};
  v_settings := settings_default; v_keyspace := ks; v_keyspace_version := 7%Z;
  v_migration := {| mig_id := 3%Z; mig_started_at := 0%Z; mig_state := Completed |};
  v_maintenance := None; v_cluster_version := 40%Z |}.

Lemma six_keyspace_ok {S} `{CalculateSpec S} (ks : Keyspace S) :
  ks_operators ks = list_to_set [0; 1; 2; 3; 4]%Z → shards_wf ks → keyspace_ok six_ops ks.
Proof.
  intros Hops Hsh. split; [| | |done].
  - unfold ks_wf. rewrite Hops. unfold REPLICATION_FACTOR, MAX_KEYSPACE_OPERATORS.
    vm_compute. lia.
  - intros idx. rewrite Hops, elem_of_list_to_set, !elem_of_cons. unfold fits.
    rewrite elem_of_nil. lia.
  - intros idx. rewrite Hops, elem_of_list_to_set, !elem_of_cons, elem_of_nil.
    intros Hidx. destruct_or!; subst; try done.
Qed.

Lemma six_view_wf {S} `{CalculateSpec S} (ks : Keyspace S) :
  ks_operators ks = list_to_set [0; 1; 2; 3; 4]%Z → shards_wf ks → view_wf (six_view ks).
Proof.
  intros Hops Hsh. split; cbn; try done.
  - apply six_ops_wf.
  - apply six_ops_nodes.
  - by apply six_keyspace_ok.
Qed.

Definition toy_events : list Event :=
  [EvMigrationStarted toy_started;
   EvMigrationAborted {| ma_migration_id := 4%Z; ma_at := 2000%Z; ma_cluster_version := 42%Z |};
   EvNodeOperatorRemoved {| nor_id := 6%Z; nor_cluster_version := 43%Z |};
   EvNodeOperatorAdded {| noa_idx := 5%Z; noa_cluster_version := 44%Z;
     noa_operator := {| sc_op_id := 8%Z; sc_op_data := [] |} |}].

Lemma toy_events_admissible : events_admissible toy_view toy_events.
Proof.
  split; [|intros v1 Hv1%Ok_inj; subst; split; [done|intros v2 Hv2%Ok_inj; subst;
    split; [|intros v3 Hv3%Ok_inj; subst; split; [|done]]]].
  - intros idx. cbn. rewrite !elem_of_union, !elem_of_singleton, elem_of_empty.
    unfold fits. lia.
  - intros idx [= <-]. split; [vm_compute; set_solver|done].
  - split; [done|]. vm_compute. discriminate.
Qed.

Lemma apply_events_invariant_witness :
  is_ok (apply_events toy_view toy_events) = true ∧
  apply_events toy_view toy_events ≠ Panic ∧
  ∀ v', apply_events toy_view toy_events = Ok v' →
    view_wf v' ∧ v_cluster_version v' = 44%Z.
Proof.
  split; [reflexivity|].
  apply (apply_events_invariant toy_view toy_events).
  - by apply (six_view_wf (toy_ks [0; 1; 2; 3; 4]%Z)).
  - apply toy_events_admissible.
Defined.

Definition toy_cluster_view : ClusterView := {|
  cv_owner := 99%Z;
  cv_settings := {| sc_max_node_operator_data_bytes := 4096%Z;
                    sc_extra := 1%Z :: toy_bits (encode (settings_to_extra_v1 settings_default)) |};
  cv_node_operators :=
    (λ id, Some {| sc_op_id := id; sc_op_data := [] |}) <$> [1; 2; 3; 4; 5; 6]%Z;
  cv_keyspaces := ({| sc_ks_operators := ∅; sc_ks_replication_strategy := 0%Z |},
                   {| sc_ks_operators := list_to_set [0; 1; 2; 3; 4]%Z;
                      sc_ks_replication_strategy := 0%Z |});
  cv_keyspace_version := 7%Z;
  cv_migration := {| sc_mig_id := 3%Z; sc_mig_pulling_operators := ∅;
                     sc_mig_started_at := 5%Z; sc_mig_aborted_at := None |};
  cv_maintenance := {| sc_maint_slot := None |};
  cv_cluster_version := 40%Z;
|}.

Lemma view_from_chain_wf_witness :
  ∃ v, view_try_from_sc (N := Z) (S := ()) toy_cluster_view = Ok v ∧ view_wf v ∧
    v_cluster_version v = 40%Z.
Proof.
  assert (cluster_view_typed toy_cluster_view) as Hty.
  { split; [|done|done]. intros idx. cbn.
    rewrite !elem_of_union, !elem_of_singleton, !elem_of_empty. unfold fits. lia. }
  assert (is_ok (view_try_from_sc (N := Z) (S := ()) toy_cluster_view) = true) as Hok
    by (vm_compute; reflexivity).
  destruct (view_try_from_sc (N := Z) (S := ()) toy_cluster_view) as [v|e|] eqn:Hv;
    [|discriminate Hok|discriminate Hok].
  exists v. destruct (view_from_chain_wf (N := Z) (S := ()) toy_cluster_view Hty) as [_ Hwf].
  destruct (Hwf v Hv) as (Hvwf & Hver & _).
  exact (conj eq_refl (conj Hvwf Hver)).
Defined.

Lemma toy_shards_exist :
  ∃ ks : Keyspace Shards, ks_operators ks = list_to_set [0; 1; 2; 3; 4]%Z ∧ replica_sets_wf ks.
Proof.
  destruct (calculate_Shards_ok (E := Empty_set) (toy_ks [0; 1; 2; 3; 4]%Z))
    as (ks & _ & Hops & _ & Hwf); [|by exists ks].
  unfold ks_wf, REPLICATION_FACTOR, MAX_KEYSPACE_OPERATORS. vm_compute. lia.
Qed.

Lemma primary_replica_set_ok_witness :
  ∃ v : View Z Shards, view_wf v ∧
    ∃ replicas, primary_replica_set (E := Empty_set) v 42 = Ok replicas ∧ replicas_ok v replicas.
Proof.
  destruct toy_shards_exist as (ks & Hops & Hwf). exists (six_view ks).
  assert (view_wf (six_view ks)) as Hv by (by apply six_view_wf).
  split; [exact Hv|]. apply (primary_replica_set_ok (six_view ks) 42 Hv). done.
Defined.

Lemma secondary_replica_set_ok_witness :
  ∃ v : View Z Shards, view_wf v ∧
    ∃ r, secondary_replica_set (E := Empty_set) 6000000000 v 42 = Ok r ∧ is_Some r.
Proof.
  destruct toy_shards_exist as (ks & Hops & Hwf).
  set (v := set_keyspaces (six_view ks) ks 7%Z
              {| mig_id := 3%Z; mig_started_at := 0%Z; mig_state := Started ks ∅ |}).
  assert (view_wf v) as Hv.
  { assert (view_wf (six_view ks)) as [] by (by apply six_view_wf). split; try done.
    intros ks' p [= <- <-]. by apply six_keyspace_ok. }
  exists v. split; [exact Hv|].
  destruct (secondary_replica_set_ok 6000000000 v 42 Hv ltac:(done)) as (r & Hr & Hsome & _).
  exists r. split; [exact Hr|]. apply Hsome. by exists ks, ∅.
Defined.
