(* ===== verification/MigrationRun.v ===== *)
(** MigrationRun: whole runs of the migration protocol, as sequences of events
    applied to a view: however the operators' data pulls interleave, the
    migration ends with the new keyspace in place; an abort restores the old
    one. *)
From S2P Require Import Prelude External Sharding SmartContract NodeOperator NodeOperators.
From S2P Require Import Keyspace Settings Migration View Concrete.
From stdpp Require Import prelude gmap sets list strings.

Section migration_run.
Context `{PeerIds, Ff1, Hashing, UnixTime}.
Context `{!Postcard DataV0, !Postcard DataV1, !Postcard ExtraV0, !Postcard ExtraV1}.
Context {N S : Type} `{!Config N, !Calculate S}.
Implicit Types v : View N S.

(** The events of the operators [ids] finishing their pulls in that order: all
    but the last one complete a pull, the last one completes the migration. *)
Fixpoint pull_events (migration_id cluster_version : Z) (ids : list Z) : list Event :=
  match ids with
  | [] => []
  | id :: rest =>
      match rest with
      | [] =>
          [EvMigrationCompleted
             {| mc_migration_id := migration_id; mc_operator_id := id;
                mc_cluster_version := cluster_version |}]
      | _ =>
          EvMigrationDataPullCompleted
            {| mdpc_migration_id := migration_id; mdpc_operator_id := id;
               mdpc_cluster_version := cluster_version |}
          :: pull_events migration_id (wrap 128 (cluster_version + 1)) rest
      end
  end.

Lemma apply_pull_completed v ks pulling id idx :
  mig_state (v_migration v) = Started ks pulling →
  get_idx (v_node_operators v) id = Some idx → idx ∈ pulling →
  apply_event v (EvMigrationDataPullCompleted
    {| mdpc_migration_id := mig_id (v_migration v); mdpc_operator_id := id;
       mdpc_cluster_version := wrap 128 (v_cluster_version v + 1) |}) =
  Ok (set_cluster_version
        (set_keyspaces v (v_keyspace v) (v_keyspace_version v)
           {| mig_id := mig_id (v_migration v); mig_started_at := mig_started_at (v_migration v);
              mig_state := Started ks (pulling ∖ {[idx]}) |})
        (wrap 128 (v_cluster_version v + 1))).
Proof.
  intros Hs Hid Hin. unfold apply_event; cbn [event_cluster_version mdpc_cluster_version].
  rewrite decide_False by tauto. unfold apply_MigrationDataPullCompleted; cbn.
  unfold require_idx, require_migration, is_in_progress, require_id, require_pulling,
    mig_is_pulling, complete_pull.
  rewrite Hid, Hs; cbn. rewrite decide_True by done; cbn.
  rewrite Hs, bool_decide_true by done; done.
Qed.

Lemma apply_migration_completed v ks id idx :
  mig_state (v_migration v) = Started ks {[idx]} →
  get_idx (v_node_operators v) id = Some idx →
  apply_event v (EvMigrationCompleted
    {| mc_migration_id := mig_id (v_migration v); mc_operator_id := id;
       mc_cluster_version := wrap 128 (v_cluster_version v + 1) |}) =
  Ok (set_cluster_version
        (set_keyspaces v ks (v_keyspace_version v)
           {| mig_id := mig_id (v_migration v); mig_started_at := mig_started_at (v_migration v);
              mig_state := Completed |})
        (wrap 128 (v_cluster_version v + 1))).
Proof.
  intros Hs Hid. unfold apply_event; cbn [event_cluster_version mc_cluster_version].
  rewrite decide_False by tauto. unfold apply_MigrationCompleted; cbn.
  unfold require_idx, require_migration, is_in_progress, require_id, require_pulling,
    mig_is_pulling, require_pulling_count, pulling_count, mig_complete.
  rewrite Hid, Hs; cbn.
  rewrite (decide_True (P := mig_id (v_migration v) = mig_id (v_migration v))) by done; cbn.
  rewrite Hs, bool_decide_true by set_solver; cbn.
  by rewrite size_singleton, decide_True by done.
Qed.

(** The events that finish a migration: pulls, then the completion. *)
Fixpoint completing (events : list Event) : Prop :=
  match events with
  | [] => False
  | EvMigrationDataPullCompleted _ :: events => completing events
  | EvMigrationCompleted _ :: events => events = []
  | _ => False
  end.

Lemma completing_keyspace v events v' ks pulling :
  completing events → apply_events v events = Ok v' →
  mig_state (v_migration v) = Started ks pulling →
  v_keyspace v' = ks ∧ v_node_operators v' = v_node_operators v.
Proof.
  revert v pulling; induction events as [|event events IH]; intros v pulling Hc Happ Hst; [done|].
  cbn [apply_events] in Happ. apply bind_Ok in Happ as (v1 & Hv1 & Happ).
  destruct event; cbn [completing] in Hc; try done; unfold apply_event in Hv1;
    (destruct (decide _); [done|]).
  - unfold apply_MigrationDataPullCompleted in Hv1. mon_inv.
    eapply IH in Happ; [exact Happ|done|]. cbn. unfold complete_pull. by rewrite Hst.
  - subst events. injection Happ as <-. unfold apply_MigrationCompleted, mig_complete in Hv1.
    rewrite Hst in Hv1. mon_inv. done.
Qed.

(** What a finished migration leaves behind. *)
Record migrated v v' (ks : Keyspace S) : Prop := {
  md_keyspace : v_keyspace v' = ks;
  md_state : mig_state (v_migration v') = Completed;
  md_id : mig_id (v_migration v') = mig_id (v_migration v);
  md_version : v_keyspace_version v' = v_keyspace_version v;
  md_operators : v_node_operators v' = v_node_operators v;
  md_settings : v_settings v' = v_settings v;
}.

(** C13. A migration completes whatever the order in which the operators finish
    pulling: for every enumeration of the pulling operators, applying one
    event per operator, the last one a completion, succeeds and installs the
    new keyspace; no event in between does. *)
Theorem migration_completes_in_any_order v ks pulling ids idxs :
  mig_state (v_migration v) = Started ks pulling →
  Forall2 (λ id idx, get_idx (v_node_operators v) id = Some idx) ids idxs →
  NoDup idxs → pulling = list_to_set idxs → ids ≠ [] →
  ∃ v', apply_events v (pull_events (mig_id (v_migration v))
                          (wrap 128 (v_cluster_version v + 1)) ids) = Ok v' ∧
    migrated v v' ks ∧
    v_cluster_version v' = wrap 128 (v_cluster_version v + Z.of_nat (length ids)) ∧
    ∀ n v1, n < length ids →
      apply_events v (take n (pull_events (mig_id (v_migration v))
                                (wrap 128 (v_cluster_version v + 1)) ids)) = Ok v1 →
      v_keyspace v1 = v_keyspace v ∧ is_in_progress (v_migration v1) = true.
Proof.
  intros Hs Hall Hnd Hp Hne. revert v pulling Hs Hall Hp.
  induction Hnd as [|idx idxs Hidx Hnd IH] in ids, Hne |- *; intros v pulling Hs Hall Hp.
  { by inversion Hall; subst. }
  inversion Hall as [|id ? ids' ? Hid Hall']; subst.
  destruct ids' as [|id2 ids']; [inversion Hall'; subst|].
  - cbn [pull_events apply_events].
    rewrite (apply_migration_completed v ks id idx); [|by rewrite Hs; f_equal; set_solver|done].
    cbn. eexists; split; [done|]. split; [done|]. split; [done|].
    intros [|n] v1 Hn; [|lia]. cbn. intros <-%Ok_inj. split; [done|].
    apply is_in_progress_true. eauto.
  - cbn [pull_events apply_events]. rewrite (apply_pull_completed v ks _ id idx Hs Hid)
      by set_solver.
    cbn [mbind res_bind]. set (v1 := set_cluster_version _ _).
    destruct (IH (id2 :: ids') ltac:(done) v1 (list_to_set (idx :: idxs) ∖ {[idx]}))
      as (v' & Hok & Hmig & Hver & Hpre).
    { done. }
    { done. }
    { cbn. apply set_eq; intros x. rewrite elem_of_difference, elem_of_union.
      rewrite !elem_of_singleton, elem_of_list_to_set. naive_solver. }
    cbn in Hok. exists v'. split; [exact Hok|]. split; [by destruct Hmig; split|].
    cbn in Hver. split.
    { rewrite Hver. unfold wrap. rewrite Zplus_mod_idemp_l. f_equal. cbn. lia. }
    intros [|n] v2 Hn; cbn [take apply_events].
    + intros <-%Ok_inj. split; [done|]. apply is_in_progress_true. eauto.
    + rewrite (apply_pull_completed v ks _ id idx Hs Hid) by set_solver.
      cbn [mbind res_bind]. intros Hv2. apply (Hpre n v2) in Hv2; [done|]. cbn in Hn |- *. lia.
Qed.

(** Aborting restores the state before the migration: the keyspace, its
    version, the operators and the settings are those the migration started
    from, and another migration may start. *)
Theorem migration_abort_restores v e v1 e' v2 :
  fits 64 (v_keyspace_version v) →
  apply_event v (EvMigrationStarted e) = Ok v1 →
  apply_event v1 (EvMigrationAborted e') = Ok v2 →
  v_keyspace v2 = v_keyspace v ∧ v_keyspace_version v2 = v_keyspace_version v ∧
  v_node_operators v2 = v_node_operators v ∧ v_settings v2 = v_settings v ∧
  v_maintenance v2 = None ∧ require_no_migration v2 = Ok ().
Proof.
  intros Hfit. unfold apply_event. case_decide; [done|]. intros Ha1. case_decide; [done|].
  intros Ha2. unfold apply_MigrationStarted, apply_MigrationAborted in *. mon_inv.
  unfold require_no_maintenance in *. destruct (v_maintenance v); [done|].
  split_and!; try done. unfold u64_sub, u64_add, wrap. rewrite Zminus_mod_idemp_l.
  replace (v_keyspace_version v + 1 - 1)%Z with (v_keyspace_version v) by lia.
  by apply Z.mod_small.
Qed.
End migration_run.

(** * Witnesses *)

#[local] Existing Instance toy_peer_ids.
#[local] Existing Instance toy_ff1.
#[local] Existing Instance toy_hashing.
#[local] Existing Instance toy_unix_time.
#[local] Existing Instance toy_config.
#[local] Existing Instance toy_d0.
#[local] Existing Instance toy_d1.
#[local] Existing Instance toy_e0.
#[local] Existing Instance toy_e1.

Lemma migration_completes_in_any_order_witness :
  ∃ v', apply_events toy_migrating (pull_events 4 42 [4; 6; 2; 5; 3]%Z) = Ok v' ∧
    migrated toy_migrating v' (toy_ks [1; 2; 3; 4; 5]%Z) ∧ v_cluster_version v' = 46%Z.
Proof.
  destruct (migration_completes_in_any_order toy_migrating (toy_ks [1; 2; 3; 4; 5]%Z)
              (list_to_set (toy_iter (list_to_set [1; 2; 3; 4; 5]%Z)))
              [4; 6; 2; 5; 3]%Z [3; 5; 1; 4; 2]%Z) as (v' & Hok & Hmig & Hver & _).
  - reflexivity.
  - repeat constructor.
  - apply (bool_decide_unpack _). vm_compute. exact I.
  - vm_compute. reflexivity.
  - discriminate.
  - exists v'. exact (conj Hok (conj Hmig Hver)).
Defined.

Lemma migration_abort_restores_witness :
  ∃ v2, apply_event toy_migrating
          (EvMigrationAborted {| ma_migration_id := 4%Z; ma_at := 2000%Z;
                                 ma_cluster_version := 42%Z |}) = Ok v2 ∧
    v_keyspace v2 = v_keyspace toy_view ∧ v_keyspace_version v2 = 7%Z.
Proof.
  eexists. split; [reflexivity|].
  edestruct (migration_abort_restores toy_view toy_started toy_migrating
    {| ma_migration_id := 4%Z; ma_at := 2000%Z; ma_cluster_version := 42%Z |})
    as (Hk & Hv & _); [done|apply toy_start|reflexivity|].
  exact (conj Hk Hv).
Defined.
