(* ===== verification/Cluster.v ===== *)
(** Cluster: the operations of [Cluster] on the smart contract and the
    background task that follows it (src/crates/cluster/src/lib.rs, task.rs).

    Every operation checks the caller and the state of the local view before it
    calls the contract; [ScCall] is the call it makes.  The transaction itself
    is the contract's business and not modelled here.

    [task_apply_events] and [task_update_view] are the loop that keeps the view
    in step with the chain: the stored view changes only by an event applied in
    full or by a fresh view. *)
From S2P Require Import Prelude External Sharding SmartContract NodeOperator NodeOperators.
From S2P Require Import Keyspace Settings Migration View ViewInvariant Concrete.
From stdpp Require Import prelude gmap sets list strings.

(** The calls of [trait smart_contract::Write]. *)
Inductive ScCall :=
| CallStartMigration (new_keyspace : ScKeyspace)
| CallCompleteMigration (id : Z)
| CallAbortMigration (id : Z)
| CallStartMaintenance
| CallFinishMaintenance
| CallAddNodeOperator (operator : ScNodeOperator)
| CallUpdateNodeOperator (operator : ScNodeOperator)
| CallRemoveNodeOperator (id : Z)
| CallUpdateSettings (new_settings : ScSettings)
| CallTransferOwnership (new_owner : Z)
| CallAcceptOwnership.

(** The errors of the operations.  The variant [SmartContract] that wraps the
    failure of the transaction is left out of each. *)
Inductive no_signer_error := NoSmartContractSigner.

Inductive start_migration_error :=
| SmNotOwner (e : not_owner_error)
| SmMigrationInProgress (e : migration_in_progress)
| SmMaintenanceInProgress (e : maintenance_in_progress)
| SmUnknownOperator (e : operator_not_found)
| SmNotInKeyspace (id : Z)
| SmAlreadyInKeyspace (id : Z)
| SmKeyspaceCreation (e : keyspace_creation_error)
| SmSameKeyspace (e : same_keyspace_error)
| SmNoSigner (e : no_signer_error).

Inductive complete_migration_error :=
| CmUnknownOperator (e : operator_not_found)
| CmNoMigration (e : migration_not_found)
| CmWrongMigrationId (e : wrong_migration_id)
| CmOperatorNotPulling (e : operator_not_pulling)
| CmNoSigner (e : no_signer_error).

Inductive abort_migration_error :=
| AmNotOwner (e : not_owner_error)
| AmNoMigration (e : migration_not_found)
| AmWrongMigrationId (e : wrong_migration_id)
| AmNoSigner (e : no_signer_error).

Inductive start_maintenance_error :=
| StmUnauthorized
| StmMigrationInProgress (e : migration_in_progress)
| StmMaintenanceInProgress (e : maintenance_in_progress)
| StmNoSigner (e : no_signer_error).

Inductive finish_maintenance_error :=
| FmNoMaintenance (e : maintenance_not_found)
| FmUnauthorized
| FmNoSigner (e : no_signer_error).

Inductive add_node_operator_error :=
| AnoNotOwner (e : not_owner_error)
| AnoAlreadyExists (e : operator_already_exists)
| AnoNoAvailableSlots (e : no_available_slots)
| AnoInvalidNodeOperator (e : operator_into_sc_error)
| AnoDataTooLarge (e : data_too_large)
| AnoNoSigner (e : no_signer_error).

Inductive update_node_operator_error :=
| UnoUnauthorized
| UnoNotFound (e : operator_not_found)
| UnoInvalidNodeOperator (e : operator_into_sc_error)
| UnoDataTooLarge (e : data_too_large)
| UnoNoSigner (e : no_signer_error).

Inductive remove_node_operator_error :=
| RnoNotOwner (e : not_owner_error)
| RnoNotFound (e : operator_not_found)
| RnoInKeyspace.

Inductive update_settings_error :=
| UsNotOwner (e : not_owner_error)
| UsNoSigner (e : no_signer_error)
| UsInvalidSettings (e : settings_into_sc_error).

Inductive transfer_ownership_error :=
| ToNoSigner (e : no_signer_error)
| ToNotOwner (e : not_owner_error).

Inductive deployment_error :=
| DeInvalidSettings (e : settings_into_sc_error)
| DeNodeOperatorsCreation (e : operators_creation_error)
| DeInvalidNodeOperator (e : operator_into_sc_error).

Section cluster.
Context `{PeerIds, Ff1, Hashing, UnixTime}.
Context `{!Postcard DataV0, !Postcard DataV1, !Postcard ExtraV0, !Postcard ExtraV1}.
Context {N S : Type} `{!Config N, !Calculate S}.
Implicit Types view : View N S.

(** [smart_contract_signer]. *)
Definition smart_contract_signer (signer : option Z) : res no_signer_error Z :=
  ok_or signer NoSmartContractSigner.

(** [for id in plan.remove]. *)
Fixpoint plan_remove_operators view (ids : list Z) (new_operators : gset Z)
    : res start_migration_error (gset Z) :=
  match ids with
  | [] => Ok new_operators
  | id :: ids =>
      idx ← map_err SmUnknownOperator (require_idx (v_node_operators view) id);
      if contains_operator (v_keyspace view) idx
      then plan_remove_operators view ids (new_operators ∖ {[idx]})
      else Err (SmNotInKeyspace id)
  end.

(** [for id in plan.add]. *)
Fixpoint plan_add_operators view (ids : list Z) (new_operators : gset Z)
    : res start_migration_error (gset Z) :=
  match ids with
  | [] => Ok new_operators
  | id :: ids =>
      idx ← map_err SmUnknownOperator (require_idx (v_node_operators view) id);
      if contains_operator (v_keyspace view) idx
      then Err (SmAlreadyInKeyspace id)
      else plan_add_operators view ids ({[idx]} ∪ new_operators)
  end.

Definition cluster_start_migration view (signer : option Z) (plan : Plan)
    : res start_migration_error ScCall :=
  signer ← map_err SmNoSigner (smart_contract_signer signer);
  _ ← map_err SmNotOwner (require_owner (v_ownership view) signer);
  _ ← map_err SmMigrationInProgress (require_no_migration view);
  _ ← map_err SmMaintenanceInProgress (require_no_maintenance view);
  let new_operators : gset Z := list_to_set (ks_operators_iter (v_keyspace view)) in
  new_operators ← plan_remove_operators view (hashset_iter (plan_remove plan)) new_operators;
  new_operators ← plan_add_operators view (hashset_iter (plan_add plan)) new_operators;
  new_keyspace ← map_err SmKeyspaceCreation
                   (keyspace_new new_operators (plan_replication_strategy plan));
  _ ← map_err SmSameKeyspace (require_diff (v_keyspace view) new_keyspace);
  Ok (CallStartMigration (keyspace_into_sc new_keyspace)).

Definition cluster_complete_migration view (signer : option Z) (id : Z)
    : res complete_migration_error ScCall :=
  signer ← map_err CmNoSigner (smart_contract_signer signer);
  operator_idx ← map_err CmUnknownOperator (require_idx (v_node_operators view) signer);
  migration ← map_err CmNoMigration (require_migration view);
  _ ← map_err CmWrongMigrationId (require_id migration id);
  _ ← map_err CmOperatorNotPulling (require_pulling migration operator_idx);
  Ok (CallCompleteMigration id).

Definition cluster_abort_migration view (signer : option Z) (id : Z)
    : res abort_migration_error ScCall :=
  signer ← map_err AmNoSigner (smart_contract_signer signer);
  _ ← map_err AmNotOwner (require_owner (v_ownership view) signer);
  migration ← map_err AmNoMigration (require_migration view);
  _ ← map_err AmWrongMigrationId (require_id migration id);
  Ok (CallAbortMigration id).

Definition cluster_start_maintenance view (signer : option Z)
    : res start_maintenance_error ScCall :=
  signer ← map_err StmNoSigner (smart_contract_signer signer);
  if ops_contains (v_node_operators view) signer || is_owner (v_ownership view) signer then
    _ ← map_err StmMigrationInProgress (require_no_migration view);
    _ ← map_err StmMaintenanceInProgress (require_no_maintenance view);
    Ok CallStartMaintenance
  else Err StmUnauthorized.

Definition cluster_finish_maintenance view (signer : option Z)
    : res finish_maintenance_error ScCall :=
  signer ← map_err FmNoSigner (smart_contract_signer signer);
  maintenance ← map_err FmNoMaintenance (require_maintenance view);
  if bool_decide (signer = maintenance_slot maintenance) || is_owner (v_ownership view) signer
  then Ok CallFinishMaintenance else Err FmUnauthorized.

Definition cluster_add_node_operator view (signer : option Z) (operator : NodeOperator Node)
    : res add_node_operator_error ScCall :=
  signer ← map_err AnoNoSigner (smart_contract_signer signer);
  _ ← map_err AnoNotOwner (require_owner (v_ownership view) signer);
  _ ← map_err AnoAlreadyExists (require_not_exists (v_node_operators view) (op_id operator));
  _ ← map_err AnoNoAvailableSlots (require_not_full (v_node_operators view));
  operator ← map_err AnoInvalidNodeOperator (operator_try_into_sc cfg_encryption_key operator);
  _ ← map_err AnoDataTooLarge
        (validate_data (sc_op_data operator) (max_node_operator_data_bytes (v_settings view)));
  Ok (CallAddNodeOperator operator).

Definition cluster_update_node_operator view (signer : option Z) (operator : NodeOperator Node)
    : res update_node_operator_error ScCall :=
  signer ← map_err UnoNoSigner (smart_contract_signer signer);
  if bool_decide (signer = op_id operator) || is_owner (v_ownership view) signer then
    _ ← map_err UnoNotFound (require_idx (v_node_operators view) (op_id operator));
    operator ← map_err UnoInvalidNodeOperator (operator_try_into_sc cfg_encryption_key operator);
    _ ← map_err UnoDataTooLarge
          (validate_data (sc_op_data operator) (max_node_operator_data_bytes (v_settings view)));
    Ok (CallUpdateNodeOperator operator)
  else Err UnoUnauthorized.

Definition cluster_remove_node_operator view (id : Z) : res remove_node_operator_error ScCall :=
  idx ← map_err RnoNotFound (require_idx (v_node_operators view) id);
  if contains_operator (v_keyspace view) idx then Err RnoInKeyspace
  else
    match mig_keyspace (v_migration view) with
    | Some keyspace =>
        if contains_operator keyspace idx then Err RnoInKeyspace
        else Ok (CallRemoveNodeOperator id)
    | None => Ok (CallRemoveNodeOperator id)
    end.

Definition cluster_update_settings view (signer : option Z) (new_settings : Settings)
    : res update_settings_error ScCall :=
  signer ← map_err UsNoSigner (smart_contract_signer signer);
  _ ← map_err UsNotOwner (require_owner (v_ownership view) signer);
  new_settings ← map_err UsInvalidSettings (settings_try_into_sc new_settings);
  Ok (CallUpdateSettings new_settings).

Definition cluster_transfer_ownership view (signer : option Z) (new_owner : Z)
    : res transfer_ownership_error ScCall :=
  signer ← map_err ToNoSigner (smart_contract_signer signer);
  _ ← map_err ToNotOwner (require_owner (v_ownership view) signer);
  Ok (CallTransferOwnership new_owner).

(** The arguments [Cluster::deploy] passes to the deployer. *)
Definition cluster_deploy_args (initial_settings : Settings)
    (initial_operators : list (NodeOperator Node))
    : res deployment_error (ScSettings * list ScNodeOperator) :=
  ops ← map_err DeNodeOperatorsCreation (from_slots (Some <$> initial_operators));
  operators ← map_err DeInvalidNodeOperator
                (res_map (operator_try_into_sc cfg_encryption_key) (omap id (slots ops)));
  settings ← map_err DeInvalidSettings (settings_try_into_sc initial_settings);
  Ok (settings, operators).
End cluster.

(** * The guards and the events *)
Section cluster_guards.
Context `{PeerIds, Ff1Laws, HashingLaws, UnixTime}.
Context `{!Postcard DataV0, !Postcard DataV1, !Postcard ExtraV0, !Postcard ExtraV1}.
Context `{!PostcardLaws DataV0, !PostcardLaws DataV1, !PostcardLaws ExtraV0, !PostcardLaws ExtraV1}.
Context {N S : Type} `{!Config N, !Calculate S, !CalculateSpec S}.
Implicit Types v : View N S.

(** A call that [Cluster] lets through. *)
Inductive guarded v (signer : Z) : ScCall → Prop :=
| gd_start plan call :
    cluster_start_migration v (Some signer) plan = Ok call → guarded v signer call
| gd_complete id call :
    cluster_complete_migration v (Some signer) id = Ok call → guarded v signer call
| gd_abort id call :
    cluster_abort_migration v (Some signer) id = Ok call → guarded v signer call
| gd_start_maintenance call :
    cluster_start_maintenance v (Some signer) = Ok call → guarded v signer call
| gd_finish_maintenance call :
    cluster_finish_maintenance v (Some signer) = Ok call → guarded v signer call
| gd_add operator call :
    cluster_add_node_operator v (Some signer) operator = Ok call → guarded v signer call
| gd_update operator call :
    cluster_update_node_operator v (Some signer) operator = Ok call → guarded v signer call
| gd_remove id call :
    cluster_remove_node_operator v id = Ok call → guarded v signer call
| gd_settings settings call :
    cluster_update_settings v (Some signer) settings = Ok call → guarded v signer call.

Definition next_version v : Z := wrap 128 (v_cluster_version v + 1).

(** The events the contract may emit for a call: the block timestamp is a date,
    and an added operator takes a free slot or the next one. *)
Inductive emitted v (signer : Z) : ScCall → Event → Prop :=
| em_started id ks at_ t :
    parse_timestamp at_ = Ok t →
    emitted v signer (CallStartMigration ks)
      (EvMigrationStarted {| ms_migration_id := id; ms_new_keyspace := ks; ms_at := at_;
                             ms_cluster_version := next_version v |})
| em_pull_completed id :
    pulling_count (v_migration v) ≠ 1 →
    emitted v signer (CallCompleteMigration id)
      (EvMigrationDataPullCompleted
         {| mdpc_migration_id := id; mdpc_operator_id := signer;
            mdpc_cluster_version := next_version v |})
| em_completed id :
    pulling_count (v_migration v) = 1 →
    emitted v signer (CallCompleteMigration id)
      (EvMigrationCompleted
         {| mc_migration_id := id; mc_operator_id := signer;
            mc_cluster_version := next_version v |})
| em_aborted id at_ t :
    parse_timestamp at_ = Ok t →
    emitted v signer (CallAbortMigration id)
      (EvMigrationAborted {| ma_migration_id := id; ma_at := at_;
                             ma_cluster_version := next_version v |})
| em_maintenance_started :
    emitted v signer CallStartMaintenance
      (EvMaintenanceStarted {| mts_by := signer; mts_cluster_version := next_version v |})
| em_maintenance_finished :
    emitted v signer CallFinishMaintenance
      (EvMaintenanceFinished {| mtf_cluster_version := next_version v |})
| em_added idx operator :
    fits 8 idx → (idx ≤ Z.of_nat (length (slots (v_node_operators v))))%Z →
    contains_idx (v_node_operators v) idx = false →
    emitted v signer (CallAddNodeOperator operator)
      (EvNodeOperatorAdded {| noa_idx := idx; noa_operator := operator;
                              noa_cluster_version := next_version v |})
| em_updated operator :
    emitted v signer (CallUpdateNodeOperator operator)
      (EvNodeOperatorUpdated {| nou_operator := operator; nou_cluster_version := next_version v |})
| em_removed id :
    emitted v signer (CallRemoveNodeOperator id)
      (EvNodeOperatorRemoved {| nor_id := id; nor_cluster_version := next_version v |})
| em_settings settings :
    emitted v signer (CallUpdateSettings settings)
      (EvSettingsUpdated {| su_settings := settings; su_cluster_version := next_version v |}).

(** The outcome the theorem promises: the event is admissible and applies. *)
Definition applies v (event : Event) : Prop :=
  event_admissible v event ∧ ∃ v', apply_event v event = Ok v'.

Lemma apply_event_next v event (m : res view_error (View N S)) v' :
  event_cluster_version event = next_version v →
  m = Ok v' →
  (if decide (event_cluster_version event ≠ wrap 128 (v_cluster_version v + 1)) then
     Err (ClusterVersionNotMonotonic (v_cluster_version v) (event_cluster_version event))
   else (view ← m; Ok (set_cluster_version view (event_cluster_version event))))
  = Ok (set_cluster_version v' (next_version v)).
Proof.
  intros -> ->. unfold next_version. rewrite decide_False by tauto. done.
Qed.

Lemma plan_remove_spec v ids ops new :
  plan_remove_operators v ids ops = Ok new →
  ∃ idxs, Forall2 (λ id idx, get_idx (v_node_operators v) id = Some idx) ids idxs ∧
    (∀ idx, idx ∈ idxs → idx ∈ ks_operators (v_keyspace v)) ∧ new = ops ∖ list_to_set idxs.
Proof.
  revert ops; induction ids as [|id ids IH]; intros ops; cbn [plan_remove_operators].
  { intros <-%Ok_inj. exists []. split_and!; [done|set_solver|set_solver]. }
  intros (idx & Hidx%map_err_Ok%ok_or_Ok & Hrest)%bind_Ok.
  unfold contains_operator in Hrest. case_bool_decide as Hin; [|done].
  apply IH in Hrest as (idxs & Hall & Hks & ->). exists (idx :: idxs).
  split_and!; [by constructor|set_solver|set_solver].
Qed.

Lemma plan_add_spec v ids ops new :
  plan_add_operators v ids ops = Ok new →
  ∃ idxs, Forall2 (λ id idx, get_idx (v_node_operators v) id = Some idx) ids idxs ∧
    (∀ idx, idx ∈ idxs → idx ∉ ks_operators (v_keyspace v)) ∧ new = ops ∪ list_to_set idxs.
Proof.
  revert ops; induction ids as [|id ids IH]; intros ops; cbn [plan_add_operators].
  { intros <-%Ok_inj. exists []. split_and!; [done|set_solver|set_solver]. }
  intros (idx & Hidx%map_err_Ok%ok_or_Ok & Hrest)%bind_Ok.
  unfold contains_operator in Hrest. case_bool_decide as Hin; [done|].
  apply IH in Hrest as (idxs & Hall & Hks & ->). exists (idx :: idxs).
  split_and!; [by constructor|set_solver|set_solver].
Qed.

(** The keyspace of a migration plan. *)
Record planned v (signer : Z) (plan : Plan) (ks : ScKeyspace) (removed added : list Z) : Prop := {
  pl_owner : owner (v_ownership v) = signer;
  pl_idle : require_no_migration v = Ok () ∧ require_no_maintenance v = Ok ();
  pl_removed : Forall2 (λ id idx, get_idx (v_node_operators v) id = Some idx)
                 (hashset_iter (plan_remove plan)) removed;
  pl_added : Forall2 (λ id idx, get_idx (v_node_operators v) id = Some idx)
               (hashset_iter (plan_add plan)) added;
  pl_new idx : idx ∈ added → idx ∉ ks_operators (v_keyspace v);
  pl_old idx : idx ∈ removed → idx ∈ ks_operators (v_keyspace v);
  pl_operators : sc_ks_operators ks =
    (ks_operators (v_keyspace v) ∖ list_to_set removed) ∪ list_to_set added;
  pl_wf : ∃ k, keyspace_try_from_sc ks = Ok k ∧ ks_operators k = sc_ks_operators ks;
  pl_diff : ks_operators (v_keyspace v) ≠ sc_ks_operators ks;
}.

Lemma require_owner_Ok o address u : require_owner o address = Ok u → owner o = address.
Proof. unfold require_owner, is_owner. case_bool_decide; naive_solver. Qed.

Lemma cluster_start_migration_inv v signer plan call :
  cluster_start_migration v (Some signer) plan = Ok call →
  ∃ ks removed added, call = CallStartMigration ks ∧ planned v signer plan ks removed added.
Proof.
  unfold cluster_start_migration. intros Hc. cbn in Hc.
  apply bind_Ok in Hc as ([] & Hown%map_err_Ok & Hc). apply require_owner_Ok in Hown.
  apply bind_Ok in Hc as ([] & Hmig%map_err_Ok & Hc).
  apply bind_Ok in Hc as ([] & Hmnt%map_err_Ok & Hc).
  apply bind_Ok in Hc as (ops1 & Hrem & Hc). apply bind_Ok in Hc as (ops2 & Hadd & Hc).
  apply bind_Ok in Hc as (k & Hk%map_err_Ok & Hc).
  apply bind_Ok in Hc as ([] & Hdiff%map_err_Ok & Hc).
  apply Ok_inj in Hc as <-. apply keyspace_new_Ok in Hk as [-> Hwf].
  apply plan_remove_spec in Hrem as (removed & Hr & Hold & ->).
  apply plan_add_spec in Hadd as (added & Ha & Hnew & ->).
  assert (list_to_set (ks_operators_iter (v_keyspace v)) = ks_operators (v_keyspace v)) as Hiter.
  { unfold ks_operators_iter. rewrite (hashset_iter_perm (ks_operators (v_keyspace v))).
    by rewrite list_to_set_elements_L. }
  rewrite Hiter in *. rewrite require_diff_Ok in Hdiff.
  eexists _, removed, added. split; [done|]. split; try done.
  eexists. split; [by apply keyspace_try_from_into_sc|done].
Qed.

Lemma planned_known v signer plan ks removed added idx :
  view_wf v → planned v signer plan ks removed added → idx ∈ sc_ks_operators ks →
  fits 8 idx ∧ contains_idx (v_node_operators v) idx = true.
Proof.
  intros Hv Hp. rewrite (pl_operators _ _ _ _ _ _ Hp), elem_of_union, elem_of_difference.
  intros [[Hin _]|[k Hk]%elem_of_list_to_set%list_elem_of_lookup].
  - split; [by apply (ko_typed _ _ (vw_keyspace _ Hv))|by apply (ko_known _ _ (vw_keyspace _ Hv))].
  - destruct (Forall2_lookup_r _ _ _ _ _ (pl_added _ _ _ _ _ _ Hp) Hk) as (id & _ & Hid).
    split; [by eapply get_idx_fits; [apply Hv|]|].
    apply (get_idx_Some _ _ _ (vw_ops _ Hv)) in Hid as (_ & op & Hop & _).
    unfold contains_idx. by rewrite Hop.
Qed.

Lemma start_migration_applies v signer plan ks removed added id at_ t :
  view_wf v → planned v signer plan ks removed added → parse_timestamp at_ = Ok t →
  applies v (EvMigrationStarted
    {| ms_migration_id := id; ms_new_keyspace := ks; ms_at := at_;
       ms_cluster_version := next_version v |}).
Proof.
  intros Hv Hp Ht. split; cbn [event_admissible ms_new_keyspace].
  { intros idx Hidx. by eapply planned_known. }
  destruct (pl_wf _ _ _ _ _ _ Hp) as (k & Hk & Hops).
  destruct (pl_idle _ _ _ _ _ _ Hp) as [Hmig Hmnt].
  pose proof Hk as (Hwf & _ & _)%keyspace_try_from_sc_Ok.
  destruct (calculate_shards_ok view_error k Hwf) as (k' & Hcalc & _).
  assert (ks_validate k (v_node_operators v) = Ok ()) as Hval.
  { apply ks_validate_Ok. intros idx. rewrite Hops. intros Hidx.
    by eapply planned_known in Hidx as [_ ?]. }
  assert (require_diff (v_keyspace v) k = Ok ()) as Hdiff.
  { apply require_diff_Ok. rewrite Hops. apply (pl_diff _ _ _ _ _ _ Hp). }
  eexists. apply apply_event_next; [done|]. unfold apply_MigrationStarted. cbn.
  rewrite Hmig; cbn. rewrite Hmnt; cbn. rewrite Hk; cbn. rewrite Hval; cbn.
  rewrite Hdiff; cbn. rewrite Hcalc; cbn. rewrite Ht; cbn. done.
Qed.

Lemma complete_migration_inv v signer id call :
  cluster_complete_migration v (Some signer) id = Ok call →
  ∃ idx ks pulling, call = CallCompleteMigration id ∧
    get_idx (v_node_operators v) signer = Some idx ∧
    mig_state (v_migration v) = Started ks pulling ∧
    require_migration v = Ok (v_migration v) ∧ require_id (v_migration v) id = Ok () ∧
    require_pulling (v_migration v) idx = Ok ().
Proof.
  unfold cluster_complete_migration. intros Hc. cbn in Hc.
  apply bind_Ok in Hc as (idx & Hidx%map_err_Ok%ok_or_Ok & Hc).
  apply bind_Ok in Hc as (m & Hm%map_err_Ok & Hc).
  apply bind_Ok in Hc as ([] & Hid%map_err_Ok & Hc).
  apply bind_Ok in Hc as ([] & Hpull%map_err_Ok & Hc). apply Ok_inj in Hc as <-.
  assert (m = v_migration v) as ->.
  { unfold require_migration in Hm. case_match; naive_solver. }
  pose proof Hpull as (ks & pulling & Hs & _)%require_pulling_Ok.
  exists idx, ks, pulling. done.
Qed.

Lemma complete_migration_applies v signer id call ev :
  cluster_complete_migration v (Some signer) id = Ok call → emitted v signer call ev →
  applies v ev.
Proof.
  intros (idx & ks & pulling & -> & Hidx & Hs & Hmig & Hid & Hpull)%complete_migration_inv Hem.
  inversion Hem as [|? Hcnt|? Hcnt| | | | | | |]; subst; (split; [done|]); eexists;
    (apply apply_event_next; [done|]);
    unfold apply_MigrationDataPullCompleted, apply_MigrationCompleted, require_idx; cbn.
  - rewrite Hidx; cbn. rewrite Hmig; cbn. rewrite Hid; cbn. rewrite Hpull; cbn. done.
  - rewrite Hidx; cbn. rewrite Hmig; cbn. rewrite Hid; cbn. rewrite Hpull; cbn.
    unfold require_pulling_count. rewrite decide_True by done; cbn.
    unfold mig_complete. rewrite Hs. done.
Qed.

Lemma abort_migration_applies v signer id call ev :
  cluster_abort_migration v (Some signer) id = Ok call → emitted v signer call ev →
  applies v ev.
Proof.
  unfold cluster_abort_migration. intros Hc Hem. cbn in Hc.
  apply bind_Ok in Hc as ([] & _ & Hc).
  apply bind_Ok in Hc as (m & Hm%map_err_Ok & Hc).
  apply bind_Ok in Hc as ([] & Hid%map_err_Ok & Hc). apply Ok_inj in Hc as <-.
  inversion Hem as [| | |? ? t Ht| | | | | |]; subst. split; [done|]. eexists.
  apply apply_event_next; [done|]. unfold apply_MigrationAborted; cbn.
  rewrite Hm; cbn. rewrite Hid; cbn. rewrite Ht; cbn. done.
Qed.

Lemma maintenance_applies v signer call ev :
  cluster_start_maintenance v (Some signer) = Ok call ∨
  cluster_finish_maintenance v (Some signer) = Ok call →
  emitted v signer call ev → applies v ev.
Proof.
  unfold cluster_start_maintenance, cluster_finish_maintenance. cbn. intros [Hc|Hc] Hem.
  - destruct (_ || _); [|done].
    apply bind_Ok in Hc as ([] & Hmig%map_err_Ok & Hc).
    apply bind_Ok in Hc as ([] & Hmnt%map_err_Ok & Hc). apply Ok_inj in Hc as <-.
    inversion Hem; subst. split; [done|]. eexists. apply apply_event_next; [done|].
    unfold apply_MaintenanceStarted; cbn. rewrite Hmig; cbn. rewrite Hmnt; cbn. done.
  - apply bind_Ok in Hc as (m & Hm%map_err_Ok & Hc). destruct (_ || _); [|done].
    apply Ok_inj in Hc as <-.
    inversion Hem; subst. split; [done|]. eexists. apply apply_event_next; [done|].
    unfold apply_MaintenanceFinished; cbn. rewrite Hm; cbn. done.
Qed.

Lemma operator_try_into_sc_id key op sc :
  operator_try_into_sc key op = Ok sc → sc_op_id sc = op_id op.
Proof. unfold operator_try_into_sc. intros Hsc. by mon_inv. Qed.

Lemma add_node_operator_applies v signer op call ev :
  view_wf v → cluster_add_node_operator v (Some signer) op = Ok call →
  emitted v signer call ev → applies v ev.
Proof.
  unfold cluster_add_node_operator. intros Hv Hc Hem. cbn in Hc.
  apply bind_Ok in Hc as ([] & _ & Hc).
  apply bind_Ok in Hc as ([] & Hex%map_err_Ok & Hc).
  apply bind_Ok in Hc as ([] & _ & Hc).
  apply bind_Ok in Hc as (sc & Hsc%map_err_Ok%operator_try_into_sc_id & Hc).
  apply bind_Ok in Hc as ([] & _ & Hc). apply Ok_inj in Hc as <-.
  inversion Hem as [| | | | | |idx ? Hfit Hlen Hfree| | |]; subst.
  split; [done|]. destruct (operator_from_sc_wf (N := N) (E := view_error) sc) as (o & Ho & _).
  destruct (ops_set (E := view_error) (v_node_operators v) idx (Some o)) as [ops|e|] eqn:Hset.
  - eexists. apply apply_event_next; [done|]. unfold apply_NodeOperatorAdded; cbn.
    rewrite Hsc, Hex; cbn. unfold require_free_slot. rewrite Hfree; cbn.
    rewrite Ho; cbn. rewrite Hset; cbn. done.
  - unfold fits in Hfit. rewrite ops_set_cases, decide_True in Hset by lia. done.
  - unfold fits in Hfit. rewrite ops_set_cases, decide_True in Hset by lia. done.
Qed.

Lemma set_known_slot {E} v id idx slot :
  view_wf v → get_idx (v_node_operators v) id = Some idx →
  ∃ ops, ops_set (E := E) (v_node_operators v) idx slot = Ok ops.
Proof.
  intros Hv Hidx. destruct (get_idx_fits _ _ _ (vw_ops _ Hv) Hidx) as [[? _] ?].
  rewrite ops_set_cases, decide_True by lia. by eexists.
Qed.

Lemma update_node_operator_applies v signer op call ev :
  view_wf v → cluster_update_node_operator v (Some signer) op = Ok call →
  emitted v signer call ev → applies v ev.
Proof.
  unfold cluster_update_node_operator. intros Hv Hc Hem. cbn in Hc. destruct (_ || _); [|done].
  apply bind_Ok in Hc as (idx & Hidx%map_err_Ok%ok_or_Ok & Hc).
  apply bind_Ok in Hc as (sc & Hsc%map_err_Ok%operator_try_into_sc_id & Hc).
  apply bind_Ok in Hc as ([] & _ & Hc). apply Ok_inj in Hc as <-.
  inversion Hem; subst. split; [done|].
  destruct (operator_from_sc_wf (N := N) (E := view_error) sc) as (o & Ho & _).
  destruct (set_known_slot (E := view_error) v _ idx (Some o) Hv Hidx) as [ops Hset].
  eexists. apply apply_event_next; [done|]. unfold apply_NodeOperatorUpdated, require_idx; cbn.
  rewrite Hsc, Hidx; cbn. rewrite Ho; cbn. rewrite Hset; cbn. done.
Qed.

Lemma remove_node_operator_applies v signer id call ev :
  view_wf v → cluster_remove_node_operator v id = Ok call →
  emitted v signer call ev → applies v ev.
Proof.
  unfold cluster_remove_node_operator, contains_operator. intros Hv Hc Hem.
  apply bind_Ok in Hc as (idx & Hidx%map_err_Ok%ok_or_Ok & Hc).
  case_bool_decide as Hks; [done|].
  assert (call = CallRemoveNodeOperator id ∧
    ∀ ks p, mig_state (v_migration v) = Started ks p → idx ∉ ks_operators ks) as [-> Hmig].
  { unfold mig_keyspace in Hc. destruct (mig_state (v_migration v)) as [k p| |].
    - case_bool_decide; naive_solver.
    - naive_solver.
    - naive_solver. }
  inversion Hem; subst. split.
  { cbn. intros idx' Hidx'. rewrite Hidx in Hidx'. by simplify_eq. }
  destruct (set_known_slot (E := view_error) v _ idx None Hv Hidx) as [ops Hset].
  eexists. apply apply_event_next; [done|]. unfold apply_NodeOperatorRemoved, require_idx; cbn.
  rewrite Hidx; cbn. rewrite Hset; cbn. done.
Qed.

Lemma update_settings_applies v signer settings call ev :
  cluster_update_settings v (Some signer) settings = Ok call →
  emitted v signer call ev → applies v ev.
Proof.
  unfold cluster_update_settings. intros Hc Hem. cbn in Hc.
  apply bind_Ok in Hc as ([] & _ & Hc).
  apply bind_Ok in Hc as (sc & Hsc%map_err_Ok & Hc). apply Ok_inj in Hc as <-.
  inversion Hem; subst. split; [done|].
  assert (∃ st, settings_try_from_sc sc = Ok st) as [st Hst].
  { unfold settings_try_into_sc in Hsc.
    destruct (versioned_encode_Ok SettingsIntoCodec 1%Z (settings_to_extra_v1 settings))
      as (bytes & Henc & Hdec).
    rewrite Henc in Hsc. cbn in Hsc. apply Ok_inj in Hsc as <-.
    unfold settings_try_from_sc; cbn [sc_extra].
    rewrite decide_False, decide_True, Hdec by done. by eexists. }
  eexists. apply apply_event_next; [done|]. unfold apply_SettingsUpdated; cbn.
  rewrite Hst; cbn. done.
Qed.
End cluster_guards.

(** * The background task *)

Inductive task_error :=
| TaskApplyEvent (e : view_error)
| TaskInvalidClusterView (e : view_from_sc_error)
| TaskSmartContractRead.

(** An item of the event stream; the list ends when the stream finishes or the
    invalidation poll finds another version on chain. *)
Inductive StreamItem :=
| ItemEvent (event : Event)
| ItemReadError.

Section task.
Context `{PeerIds, Ff1, Hashing, UnixTime}.
Context `{!Postcard DataV0, !Postcard DataV1, !Postcard ExtraV0, !Postcard ExtraV1}.
Context {N S : Type} `{!Config N, !Calculate S}.
Implicit Types view : View N S.

(** [Task::apply_events]: the outcome of the loop and the views it stored, in
    order; every store notifies the watchers once. *)
Fixpoint task_apply_events view (items : list StreamItem)
    : res task_error () * list (View N S) :=
  match items with
  | [] => (Ok (), [])
  | ItemReadError :: _ => (Err TaskSmartContractRead, [])
  | ItemEvent event :: items =>
      match apply_event view event with
      | Ok view =>
          let '(r, stored) := task_apply_events view items in (r, view :: stored)
      | Err e => (Err (TaskApplyEvent e), [])
      | Panic => (Panic, [])
      end
  end.

(** [Task::update_view], given what [cluster_view] returned. *)
Definition task_update_view view (cluster_view : res () ClusterView) (items : list StreamItem)
    : res task_error () * list (View N S) :=
  match cluster_view with
  | Ok new_view =>
      if decide (v_cluster_version view ≠ cv_cluster_version new_view) then
        match view_try_from_sc new_view with
        | Ok new_view =>
            let '(r, stored) := task_apply_events new_view items in (r, new_view :: stored)
        | Err e => (Err (TaskInvalidClusterView e), [])
        | Panic => (Panic, [])
        end
      else task_apply_events view items
  | Err _ => (Err TaskSmartContractRead, [])
  | Panic => (Panic, [])
  end.
End task.

Section cluster_properties.
Context `{PeerIds, Ff1Laws, HashingLaws, UnixTime}.
Context `{!Postcard DataV0, !Postcard DataV1, !Postcard ExtraV0, !Postcard ExtraV1}.
Context `{!PostcardLaws DataV0, !PostcardLaws DataV1, !PostcardLaws ExtraV0, !PostcardLaws ExtraV1}.
Context {N S : Type} `{!Config N, !Calculate S, !CalculateSpec S}.
Implicit Types v : View N S.

(** The local checks of [Cluster] are as strong as the checks of the views
    that will see the result: whenever an operation passes them, the event the
    contract emits for the call is admissible and every node with the same
    view applies it successfully. *)
Theorem guarded_calls_apply v signer call ev :
  view_wf v → guarded v signer call → emitted v signer call ev → applies v ev.
Proof.
  intros Hv Hg Hem. destruct Hg as [plan ? Hc|id ? Hc|id ? Hc|? Hc|? Hc|op ? Hc|op ? Hc|id ? Hc|st ? Hc].
  - apply cluster_start_migration_inv in Hc as (ks & removed & added & -> & Hp).
    inversion Hem as [id ? at_ t Ht| | | | | | | | |]; subst.
    by eapply start_migration_applies.
  - by eapply complete_migration_applies.
  - by eapply abort_migration_applies.
  - eapply maintenance_applies; eauto.
  - eapply maintenance_applies; eauto.
  - by eapply add_node_operator_applies.
  - by eapply update_node_operator_applies.
  - by eapply remove_node_operator_applies.
  - by eapply update_settings_applies.
Qed.

(** [Cluster::start_migration] does what its plan says, and only for the
    owner of an idle cluster: the new keyspace is the current one without the
    operators to remove and with the operators to add, all of them known, the
    former all in the keyspace and the latter all outside it; it is valid and
    differs from the current one. *)
Theorem start_migration_plan v signer plan call :
  cluster_start_migration v (Some signer) plan = Ok call →
  ∃ ks removed added, call = CallStartMigration ks ∧ planned v signer plan ks removed added.
Proof. apply cluster_start_migration_inv. Qed.

(** The task never publishes a broken view and never skips a version: every
    view it stores is valid, consecutive ones differ by exactly one cluster
    version, and an event that fails to apply stores nothing, whatever comes
    after it in the stream. *)
Theorem task_stores_consecutive_views v events items r stored :
  view_wf v → events_admissible v events →
  task_apply_events v ((ItemEvent <$> events) ++ items) = (r, stored) →
  ∀ k v', take (length events) stored !! k = Some v' →
    view_wf v' ∧ v_cluster_version v' = wrap 128 (v_cluster_version v + Z.of_nat (Datatypes.S k)) ∧
    apply_events v (take (Datatypes.S k) events) = Ok v'.
Proof.
  revert v r stored; induction events as [|event events IH];
    intros v r stored Hv Hadm Htask k v' Hk; cbn in *; [done|].
  destruct Hadm as [Hadm Hrest]. destruct (apply_event v event) as [v1|e|] eqn:Happ; cycle 1.
  { injection Htask as <- <-. done. }
  { injection Htask as <- <-. done. }
  destruct (task_apply_events v1 _) as [r1 stored1] eqn:Ht1. injection Htask as <- <-.
  destruct (apply_event_wf_aux v event v1 Hv Hadm Happ) as [Hv1 Hver].
  destruct k as [|k]; cbn in Hk |- *.
  - injection Hk as <-. done.
  - destruct (IH v1 r1 stored1 Hv1 (Hrest _ eq_refl) Ht1 k v' Hk) as (? & Hver' & Hev).
    split_and!; [done| |done]. rewrite Hver', Hver. unfold wrap.
    rewrite Zplus_mod_idemp_l. f_equal. lia.
Qed.
End cluster_properties.

(** * Witnesses *)

#[local] Existing Instance toy_peer_ids.
#[local] Existing Instance toy_ff1.
#[local] Existing Instance toy_ff1_laws.
#[local] Existing Instance toy_hashing.
#[local] Existing Instance toy_hashing_laws.
#[local] Existing Instance toy_unix_time.
#[local] Existing Instance toy_config.
#[local] Existing Instance toy_d0.
#[local] Existing Instance toy_d1.
#[local] Existing Instance toy_e0.
#[local] Existing Instance toy_e1.
#[local] Existing Instance toy_e0_laws.
#[local] Existing Instance toy_e1_laws.
#[local] Instance toy_d0_laws'' : PostcardLaws DataV0 := toy_postcard_laws DataV0.
#[local] Instance toy_d1_laws'' : PostcardLaws DataV1 := toy_postcard_laws DataV1.

Definition toy_plan : Plan := {|
  plan_remove := {[1%Z]}; plan_add := {[6%Z]};
  plan_replication_strategy := UniformDistribution |}.

(** The keyspace [Cluster::start_migration] computes for the plan. *)
Definition toy_planned : ScKeyspace := {|
  sc_ks_operators := {[5%Z]} ∪ (list_to_set [4; 3; 2; 1; 0]%Z ∖ {[0%Z]});
  sc_ks_replication_strategy := 0%Z |}.

Lemma toy_view_wf : view_wf toy_view.
Proof. by apply (six_view_wf (toy_ks [0; 1; 2; 3; 4]%Z)). Qed.

Lemma toy_start_call :
  cluster_start_migration toy_view (Some 99%Z) toy_plan = Ok (CallStartMigration toy_planned).
Proof. reflexivity. Qed.

Lemma guarded_calls_apply_witness :
  applies toy_view
    (EvMigrationStarted {| ms_migration_id := 4%Z; ms_new_keyspace := toy_planned;
                           ms_at := 1000%Z; ms_cluster_version := 41%Z |}).
Proof.
  apply (guarded_calls_apply toy_view 99%Z (CallStartMigration toy_planned)).
  - apply toy_view_wf.
  - eapply gd_start, toy_start_call.
  - apply (em_started toy_view 99%Z 4%Z toy_planned 1000%Z 1000000000000%Z). reflexivity.
Defined.

Lemma start_migration_plan_witness :
  ∃ ks removed added, CallStartMigration toy_planned = CallStartMigration ks ∧
    planned toy_view 99%Z toy_plan ks removed added.
Proof. apply (start_migration_plan toy_view 99%Z toy_plan). apply toy_start_call. Defined.

Lemma task_stores_consecutive_views_witness :
  ∃ r v1 rest, task_apply_events toy_view (ItemEvent <$> toy_events) = (r, v1 :: rest) ∧
    view_wf v1 ∧ v_cluster_version v1 = 41%Z.
Proof.
  assert (∃ r v1 rest, task_apply_events toy_view (ItemEvent <$> toy_events) = (r, v1 :: rest))
    as (r & v1 & rest & Heq) by (eexists _, _, _; reflexivity).
  exists r, v1, rest. split; [exact Heq|].
  destruct (task_stores_consecutive_views toy_view toy_events [] r (v1 :: rest)
              toy_view_wf toy_events_admissible ltac:(rewrite app_nil_r; exact Heq) 0 v1 eq_refl)
    as (Hwf & Hver & _).
  exact (conj Hwf Hver).
Defined.
