(* ===== verification/Contract.v ===== *)
(** Contract: the smart contract of a cluster (src/contracts/src/Cluster.sol).

    A call gets the state of the contract and a [Msg] and either gives the new
    state and the event it emits, reverts with a custom error ([Err]) or fails a
    checked arithmetic operation ([Panic]); in the last two cases the transaction
    changes nothing.  Unsigned words are [Z] with the bit operations of Solidity;
    a slot or an index that was never written reads as zero.

    [LibBit] of solady is a parameter.  So is [Ownable2StepUpgradeable] of
    OpenZeppelin: [owner()] is part of the [Msg]. *)
From S2P Require Import Prelude.
From stdpp Require Import prelude gmap sets list.

(** * Structs *)

Record SolSettings := {
  maxOperatorDataBytes : Z;
  minOperators : Z;
  sol_extra : list Z;
}.

Record SolNodeOperator := { sol_addr : Z; sol_data : list Z }.

Record SolKeyspace := { sol_operatorBitmask : Z; sol_replicationStrategy : Z }.

Record SolMigration := {
  sol_mig_id : Z;
  sol_startedAt : Z;
  sol_abortedAt : Z;
  sol_pullingOperatorBitmask : Z;
}.

Record SolClusterView := {
  scv_owner : Z;
  scv_settings : SolSettings;
  scv_version : Z;
  scv_keyspaceVersion : Z;
  scv_operatorSlots : list SolNodeOperator;
  scv_keyspaces : SolKeyspace * SolKeyspace;
  scv_migration : SolMigration;
  scv_maintenanceSlot : Z;
}.

#[export] Instance SolKeyspace_eq_dec : EqDecision SolKeyspace.
Proof. solve_decision. Defined.

(** The custom errors, and the one [onlyOwner] reverts with. *)
Inductive contract_error :=
| EUnauthorized | EMigrationInProgress | ENoMigrationInProgress | EInvalidOperator
| EOperatorNotFound | EOperatorNotPulling | ECallerNotOperator | EOperatorExists
| EOperatorInKeyspace | ESameKeyspace | EWrongMigrationId | EInvalidOperatorData
| ETooManyOperators | EInsufficientOperators | EMaintenanceInProgress
| EOwnableUnauthorizedAccount (account : Z).

(** The events; those of the libraries carry nothing the program reads. *)
Inductive SolEvent :=
| SolClusterInitialized (operators : list SolNodeOperator) (settings : SolSettings) (version : Z)
| SolMigrationStarted (id : Z) (newKeyspace : SolKeyspace) (keyspaceVersion version : Z)
| SolMigrationDataPullCompleted (id operator version : Z)
| SolMigrationCompleted (id operator version : Z)
| SolMigrationAborted (id version : Z)
| SolNodeOperatorAdded (operator slot : Z) (operatorData : list Z) (version : Z)
| SolNodeOperatorUpdated (operator slot : Z) (operatorData : list Z) (version : Z)
| SolNodeOperatorRemoved (operator slot version : Z)
| SolMaintenanceToggled (operator : Z) (active : bool) (version : Z)
| SolSettingsUpdated (newSettings : SolSettings) (updatedBy version : Z)
| SolInitialized | SolOwnershipTransferStarted | SolOwnershipTransferred | SolUpgraded.

(** * [library Bitmask] *)

(** [LibBit] of solady: the number of set bits, the index of the least and of the
    most significant set bit, 256 if there is none. *)
Class LibBit := {
  popCount : Z → Z;
  ffs : Z → Z;
  fls : Z → Z;
}.

(** The indices of the set bits of a word of 256 bits. *)
Definition bits (bitmask : Z) : gset Z :=
  list_to_set (filter (λ i, Z.testbit bitmask i = true) (seqZ 0 256)).

Class LibBitLaws `{LibBit} := {
  popCount_law x : fits 256 x → popCount x = Z.of_nat (size (bits x));
  ffs_law x : fits 256 x → x ≠ 0%Z →
    ffs x ∈ bits x ∧ ∀ j, j ∈ bits x → (ffs x ≤ j)%Z;
  fls_law x : fits 256 x → x ≠ 0%Z →
    fls x ∈ bits x ∧ ∀ j, j ∈ bits x → (j ≤ fls x)%Z;
  ffs_zero : ffs 0 = 256%Z;
  fls_zero : fls 0 = 256%Z;
}.

(** [~x] on [uint256]. *)
Definition u256_not (x : Z) : Z := Z.lxor x (Z.ones 256).

Definition bm_fill (n : Z) : Z :=
  if decide (n = 256%Z) then Z.ones 256 else (Z.shiftl 1 n - 1)%Z.
Definition bm_set (self idx : Z) : Z := Z.lor self (Z.shiftl 1 idx).
Definition bm_unset (self idx : Z) : Z := Z.land self (u256_not (Z.shiftl 1 idx)).
Definition bm_isSet (self idx : Z) : bool := negb (Z.land self (Z.shiftl 1 idx) =? 0)%Z.
Definition bm_isUnset (self idx : Z) : bool := (Z.land self (Z.shiftl 1 idx) =? 0)%Z.
Definition bm_isSubsetOf (self other : Z) : bool := (Z.land self (u256_not other) =? 0)%Z.

Section bitmask.
Context `{LibBit}.
Definition bm_countSet (self : Z) : Z := wrap 16 (popCount self).
Definition bm_findFirstUnset (self : Z) : Z := wrap 8 (ffs (u256_not self)).
Definition bm_findLastSet (self : Z) : Z := wrap 8 (fls self).
End bitmask.

(** * State *)

Record Contract := {
  c_settings : SolSettings;
  c_version : Z;
  c_operatorSlots : gmap Z SolNodeOperator;
  c_operatorSlotIndexes : gmap Z Z;
  c_operatorBitmask : Z;
  c_keyspaces : SolKeyspace * SolKeyspace;
  c_keyspaceVersion : Z;
  c_migration : SolMigration;
  c_maintenanceSlot : Z;
}.

Record Msg := { msg_sender : Z; msg_owner : Z; block_timestamp : Z }.

Definition empty_slot : SolNodeOperator := {| sol_addr := 0%Z; sol_data := [] |}.

Definition slot_at (c : Contract) (idx : Z) : SolNodeOperator :=
  default empty_slot (c_operatorSlots c !! idx).
Definition index_of (c : Contract) (addr : Z) : Z :=
  default 0%Z (c_operatorSlotIndexes c !! addr).

Definition keyspace_at (ks : SolKeyspace * SolKeyspace) (version : Z) : SolKeyspace :=
  if decide (version mod 2 = 0)%Z then ks.1 else ks.2.
Definition keyspace_set (ks : SolKeyspace * SolKeyspace) (version : Z) (new : SolKeyspace)
    : SolKeyspace * SolKeyspace :=
  if decide (version mod 2 = 0)%Z then (new, ks.2) else (ks.1, new).

(** [++] and [--] of a [uintN]: checked. *)
Definition checked_inc {E} (w x : Z) : res E Z :=
  if decide (x + 1 < 2 ^ w)%Z then Ok (x + 1)%Z else Panic.
Definition checked_dec {E} (x : Z) : res E Z :=
  if decide (1 ≤ x)%Z then Ok (x - 1)%Z else Panic.

(** Assignments to parts of the state. *)
Definition set_c_migration (c : Contract) (ks : SolKeyspace * SolKeyspace) (keyspaceVersion : Z)
    (migration : SolMigration) (version : Z) : Contract := {|
  c_settings := c_settings c; c_version := version; c_operatorSlots := c_operatorSlots c;
  c_operatorSlotIndexes := c_operatorSlotIndexes c; c_operatorBitmask := c_operatorBitmask c;
  c_keyspaces := ks; c_keyspaceVersion := keyspaceVersion; c_migration := migration;
  c_maintenanceSlot := c_maintenanceSlot c |}.
Definition set_c_operators (c : Contract) (slots : gmap Z SolNodeOperator) (indexes : gmap Z Z)
    (bitmask version : Z) : Contract := {|
  c_settings := c_settings c; c_version := version; c_operatorSlots := slots;
  c_operatorSlotIndexes := indexes; c_operatorBitmask := bitmask;
  c_keyspaces := c_keyspaces c; c_keyspaceVersion := c_keyspaceVersion c;
  c_migration := c_migration c; c_maintenanceSlot := c_maintenanceSlot c |}.
Definition set_c_maintenance (c : Contract) (slot version : Z) : Contract := {|
  c_settings := c_settings c; c_version := version; c_operatorSlots := c_operatorSlots c;
  c_operatorSlotIndexes := c_operatorSlotIndexes c; c_operatorBitmask := c_operatorBitmask c;
  c_keyspaces := c_keyspaces c; c_keyspaceVersion := c_keyspaceVersion c;
  c_migration := c_migration c; c_maintenanceSlot := slot |}.
Definition set_c_settings (c : Contract) (settings : SolSettings) (version : Z) : Contract := {|
  c_settings := settings; c_version := version; c_operatorSlots := c_operatorSlots c;
  c_operatorSlotIndexes := c_operatorSlotIndexes c; c_operatorBitmask := c_operatorBitmask c;
  c_keyspaces := c_keyspaces c; c_keyspaceVersion := c_keyspaceVersion c;
  c_migration := c_migration c; c_maintenanceSlot := c_maintenanceSlot c |}.

(** * Functions *)

Definition revert_if {E} (b : bool) (e : E) : res E () := if b then Err e else Ok ().

Definition onlyOwner (msg : Msg) : res contract_error () :=
  revert_if (negb (bool_decide (msg_sender msg = msg_owner msg)))
    (EOwnableUnauthorizedAccount (msg_sender msg)).

Section contract.
Context `{LibBit}.
Implicit Types msg : Msg.
Implicit Types c : Contract.

Definition validateOperatorData (settings : SolSettings) (data : list Z) : res contract_error () :=
  _ ← revert_if (bool_decide (data = [])) EInvalidOperatorData;
  revert_if (bool_decide (maxOperatorDataBytes settings < Z.of_nat (length data))%Z)
    EInvalidOperatorData.

Definition isSlotInKeyspace c (slot keyspaceIndex : Z) : bool :=
  bm_isSet (sol_operatorBitmask (keyspace_at (c_keyspaces c) keyspaceIndex)) slot.

(** The loop of [initialize] over the initial operators. *)
Fixpoint initialize_loop c (i : Z) (operators : list SolNodeOperator) : res contract_error Contract :=
  match operators with
  | [] => Ok c
  | op :: operators =>
      _ ← validateOperatorData (c_settings c) (sol_data op);
      let slotIdx := wrap 8 i in
      _ ← revert_if (bm_isSet (c_operatorBitmask c) slotIdx) EOperatorExists;
      initialize_loop
        (set_c_operators c (<[slotIdx := op]> (c_operatorSlots c))
           (<[sol_addr op := slotIdx]> (c_operatorSlotIndexes c))
           (bm_set (c_operatorBitmask c) slotIdx) (c_version c)) (i + 1)%Z operators
  end.

(** Storage that was never written. *)
Definition zero_keyspace : SolKeyspace := {| sol_operatorBitmask := 0%Z; sol_replicationStrategy := 0%Z |}.
Definition zero_contract (settings : SolSettings) : Contract := {|
  c_settings := settings; c_version := 0%Z; c_operatorSlots := ∅; c_operatorSlotIndexes := ∅;
  c_operatorBitmask := 0%Z; c_keyspaces := (zero_keyspace, zero_keyspace);
  c_keyspaceVersion := 0%Z;
  c_migration := {| sol_mig_id := 0%Z; sol_startedAt := 0%Z; sol_abortedAt := 0%Z;
                    sol_pullingOperatorBitmask := 0%Z |};
  c_maintenanceSlot := 0%Z |}.

Definition initialize (initialSettings : SolSettings) (initialOperators : list SolNodeOperator)
    : res contract_error (Contract * SolEvent) :=
  let len := Z.of_nat (length initialOperators) in
  _ ← revert_if (bool_decide (256 < len)%Z) ETooManyOperators;
  _ ← revert_if (bool_decide (len < minOperators initialSettings)%Z) EInsufficientOperators;
  c ← initialize_loop (zero_contract initialSettings) 0 initialOperators;
  version ← checked_inc 128 (c_version c);
  Ok (set_c_migration c
        ({| sol_operatorBitmask := bm_fill len; sol_replicationStrategy := 0%Z |}, zero_keyspace)
        (c_keyspaceVersion c) (c_migration c) version,
      SolClusterInitialized initialOperators initialSettings version).

Definition startMigration msg c (newKeyspace : SolKeyspace) : res contract_error (Contract * SolEvent) :=
  _ ← onlyOwner msg;
  _ ← revert_if (negb (bool_decide (c_maintenanceSlot c = 0%Z))) EMaintenanceInProgress;
  _ ← revert_if (bool_decide (0 < sol_pullingOperatorBitmask (c_migration c))%Z) EMigrationInProgress;
  _ ← revert_if (bool_decide (bm_countSet (sol_operatorBitmask newKeyspace) <
                              minOperators (c_settings c))%Z) EInsufficientOperators;
  _ ← revert_if (negb (bm_isSubsetOf (sol_operatorBitmask newKeyspace) (c_operatorBitmask c)))
        EOperatorNotFound;
  let keyspace := keyspace_at (c_keyspaces c) (c_keyspaceVersion c) in
  _ ← revert_if (bool_decide (sol_operatorBitmask keyspace = sol_operatorBitmask newKeyspace) &&
                 bool_decide (sol_replicationStrategy keyspace = sol_replicationStrategy newKeyspace))
        ESameKeyspace;
  id ← checked_inc 64 (sol_mig_id (c_migration c));
  let migration := {|
    sol_mig_id := id; sol_startedAt := wrap 64 (block_timestamp msg);
    sol_abortedAt := sol_abortedAt (c_migration c);
    sol_pullingOperatorBitmask := sol_operatorBitmask newKeyspace |} in
  keyspaceVersion ← checked_inc 64 (c_keyspaceVersion c);
  version ← checked_inc 128 (c_version c);
  Ok (set_c_migration c (keyspace_set (c_keyspaces c) keyspaceVersion newKeyspace)
        keyspaceVersion migration version,
      SolMigrationStarted id newKeyspace keyspaceVersion version).

Definition completeMigration msg c (id : Z) : res contract_error (Contract * SolEvent) :=
  let migration := c_migration c in
  _ ← revert_if (bool_decide (sol_pullingOperatorBitmask migration = 0%Z)) ENoMigrationInProgress;
  _ ← revert_if (negb (bool_decide (id = sol_mig_id migration))) EWrongMigrationId;
  let slotIdx := index_of c (msg_sender msg) in
  _ ← revert_if (negb (bool_decide (sol_addr (slot_at c slotIdx) = msg_sender msg)))
        ECallerNotOperator;
  _ ← revert_if (bm_isUnset (sol_pullingOperatorBitmask migration) slotIdx) EOperatorNotPulling;
  let pulling := bm_unset (sol_pullingOperatorBitmask migration) slotIdx in
  version ← checked_inc 128 (c_version c);
  let c := set_c_migration c (c_keyspaces c) (c_keyspaceVersion c)
    {| sol_mig_id := sol_mig_id migration; sol_startedAt := sol_startedAt migration;
       sol_abortedAt := sol_abortedAt migration; sol_pullingOperatorBitmask := pulling |} version in
  Ok (c, if decide (pulling = 0%Z) then SolMigrationCompleted id (msg_sender msg) version
         else SolMigrationDataPullCompleted id (msg_sender msg) version).

Definition abortMigration msg c (id : Z) : res contract_error (Contract * SolEvent) :=
  let migration := c_migration c in
  _ ← onlyOwner msg;
  _ ← revert_if (bool_decide (sol_pullingOperatorBitmask migration = 0%Z)) ENoMigrationInProgress;
  _ ← revert_if (negb (bool_decide (id = sol_mig_id migration))) EWrongMigrationId;
  keyspaceVersion ← checked_dec (c_keyspaceVersion c);
  version ← checked_inc 128 (c_version c);
  Ok (set_c_migration c (c_keyspaces c) keyspaceVersion
        {| sol_mig_id := sol_mig_id migration; sol_startedAt := sol_startedAt migration;
           sol_abortedAt := wrap 64 (block_timestamp msg); sol_pullingOperatorBitmask := 0%Z |}
        version,
      SolMigrationAborted id version).

Definition addNodeOperator msg c (operator : SolNodeOperator) : res contract_error (Contract * SolEvent) :=
  _ ← onlyOwner msg;
  _ ← revert_if (bool_decide (c_operatorBitmask c = Z.ones 256)) ETooManyOperators;
  _ ← revert_if (bool_decide (sol_addr operator = 0%Z)) EInvalidOperator;
  _ ← revert_if (negb (bool_decide (index_of c (sol_addr operator) = 0%Z)) ||
                 bool_decide (sol_addr (slot_at c 0) = sol_addr operator)) EOperatorExists;
  _ ← validateOperatorData (c_settings c) (sol_data operator);
  let slotIdx := bm_findFirstUnset (c_operatorBitmask c) in
  version ← checked_inc 128 (c_version c);
  Ok (set_c_operators c (<[slotIdx := operator]> (c_operatorSlots c))
        (<[sol_addr operator := slotIdx]> (c_operatorSlotIndexes c))
        (bm_set (c_operatorBitmask c) slotIdx) version,
      SolNodeOperatorAdded (sol_addr operator) slotIdx (sol_data operator) version).

Definition updateNodeOperatorData msg c (operatorAddress : Z) (newData : list Z)
    : res contract_error (Contract * SolEvent) :=
  _ ← revert_if (negb (bool_decide (msg_sender msg = operatorAddress)) &&
                 negb (bool_decide (msg_sender msg = msg_owner msg))) EUnauthorized;
  _ ← validateOperatorData (c_settings c) newData;
  let slotIdx := index_of c operatorAddress in
  _ ← revert_if (negb (bool_decide (sol_addr (slot_at c slotIdx) = operatorAddress)))
        EOperatorNotFound;
  version ← checked_inc 128 (c_version c);
  Ok (set_c_operators c
        (<[slotIdx := {| sol_addr := sol_addr (slot_at c slotIdx); sol_data := newData |}]>
           (c_operatorSlots c)) (c_operatorSlotIndexes c) (c_operatorBitmask c) version,
      SolNodeOperatorUpdated operatorAddress slotIdx newData version).

Definition removeNodeOperator msg c (operatorAddr : Z) : res contract_error (Contract * SolEvent) :=
  _ ← onlyOwner msg;
  let slotIdx := index_of c operatorAddr in
  _ ← revert_if (negb (bool_decide (sol_addr (slot_at c slotIdx) = operatorAddr))) EOperatorNotFound;
  _ ← revert_if (bool_decide (bm_countSet (c_operatorBitmask c) ≤ minOperators (c_settings c))%Z)
        EInsufficientOperators;
  _ ← (if decide (0 < sol_pullingOperatorBitmask (c_migration c))%Z then
         revert_if (isSlotInKeyspace c slotIdx 0 || isSlotInKeyspace c slotIdx 1) EOperatorInKeyspace
       else
         revert_if (isSlotInKeyspace c slotIdx (c_keyspaceVersion c mod 2)) EOperatorInKeyspace);
  version ← checked_inc 128 (c_version c);
  Ok (set_c_operators c (delete slotIdx (c_operatorSlots c))
        (delete operatorAddr (c_operatorSlotIndexes c))
        (bm_unset (c_operatorBitmask c) slotIdx) version,
      SolNodeOperatorRemoved operatorAddr slotIdx version).

Definition setMaintenance msg c (active : bool) : res contract_error (Contract * SolEvent) :=
  maintenanceSlot ←
    (if active then
       _ ← revert_if (negb (bool_decide (c_maintenanceSlot c = 0%Z))) EMaintenanceInProgress;
       Ok (msg_sender msg)
     else
       _ ← revert_if (negb (bool_decide (c_maintenanceSlot c = msg_sender msg)) &&
                      negb (bool_decide (msg_sender msg = msg_owner msg))) EUnauthorized;
       Ok 0%Z);
  _ ← (if decide (msg_sender msg ≠ msg_owner msg) then
         revert_if (negb (bool_decide
           (sol_addr (slot_at c (index_of c (msg_sender msg))) = msg_sender msg))) EUnauthorized
       else Ok ());
  version ← checked_inc 128 (c_version c);
  Ok (set_c_maintenance c maintenanceSlot version,
      SolMaintenanceToggled (msg_sender msg) active version).

Definition updateSettings msg c (newSettings : SolSettings) : res contract_error (Contract * SolEvent) :=
  _ ← onlyOwner msg;
  _ ← revert_if (bool_decide (bm_countSet (c_operatorBitmask c) < minOperators newSettings)%Z)
        EInsufficientOperators;
  version ← checked_inc 128 (c_version c);
  Ok (set_c_settings c newSettings version,
      SolSettingsUpdated newSettings (msg_sender msg) version).

(** [getView]. *)
Definition getView msg c : SolClusterView :=
  let highestOccupiedSlot := bm_findLastSet (c_operatorBitmask c) in
  {| scv_owner := msg_owner msg; scv_settings := c_settings c; scv_version := c_version c;
     scv_keyspaceVersion := c_keyspaceVersion c;
     scv_operatorSlots :=
       (λ i, if bm_isSet (c_operatorBitmask c) i then slot_at c i else empty_slot)
         <$> seqZ 0 (highestOccupiedSlot + 1);
     scv_keyspaces := c_keyspaces c; scv_migration := c_migration c;
     scv_maintenanceSlot := c_maintenanceSlot c |}.
End contract.
