(* ===== verification/Evm.v ===== *)
(** Evm: the EVM implementation of the smart contract interface
    (src/crates/cluster/src/smart_contract/evm.rs).

    The generated bindings have the structs of the contract ([Contract]); this
    file has the conversions between them and the data of the cluster crate, the
    decoding of logs into events, the calls of [trait Write] and the mapping of
    errors.  ABI decoding, JSON and hex are parameters. *)
From S2P Require Import Prelude External SmartContract NodeOperators Keyspace Cluster Contract.
From stdpp Require Import prelude gmap sets list strings.

(** * Errors *)

Inductive ReadError :=
| ReTransport (message : string) | ReInvalidData (message : string) | ReOther (message : string).
Inductive WriteError :=
| WeTransport (message : string) | WeRevert (message : string) | WeOther (message : string).

(** What the code tells apart of [alloy]'s errors: the data of an error response
    of the node, if any; [shown] is the [Debug] output. *)
Inductive TransportError :=
| ErrorResp (data : option string) (shown : string)
| OtherTransportError (shown : string).
Inductive AlloyContractError :=
| AlloyTransportError (e : TransportError)
| AlloyOtherError (shown : string).
Inductive PendingTransactionError :=
| PendingTransportError (e : TransportError) (shown : string)
| PendingOtherError (shown : string).

Definition transport_shown (e : TransportError) : string :=
  match e with ErrorResp _ shown | OtherTransportError shown => shown end.

Definition strip_prefix (prefix s : string) : option string :=
  if String.prefix prefix s
  then Some (String.substring (String.length prefix) (String.length s) s) else None.

Section errors.
Context (json_string : string → option string) (hex_decode : string → option (list Z)).
Context (abi_decode_error : list Z → option contract_error) (show_error : contract_error → string).

Definition try_decode_error (err : TransportError) : option contract_error :=
  data ← match err with
         | ErrorResp data _ => data
         | _ => None
         end;
  data ← json_string data;
  data ← strip_prefix "0x" data;
  bytes ← hex_decode data;
  abi_decode_error bytes.

(** [From<PendingTransactionError> for WriteError]. *)
Definition write_error_of_pending (err : PendingTransactionError) : WriteError :=
  match err with
  | PendingTransportError e shown =>
      match try_decode_error e with
      | Some err => WeRevert (show_error err)
      | None => WeOther shown
      end
  | PendingOtherError shown => WeOther shown
  end.

(** [From<alloy::contract::Error> for WriteError] and [for ReadError]. *)
Definition write_error_of_contract (err : AlloyContractError) : WriteError :=
  match err with
  | AlloyTransportError e =>
      match try_decode_error e with
      | Some err => WeRevert (show_error err)
      | None => WeTransport (transport_shown e)
      end
  | AlloyOtherError shown => WeOther shown
  end.

Definition read_error_of_contract (err : AlloyContractError) : ReadError :=
  match err with
  | AlloyTransportError e => ReTransport (transport_shown e)
  | AlloyOtherError shown => ReOther shown
  end.

(** [check_receipt]: [sent] is what [call.send()] gives, its payload what
    [get_receipt()] gives: the status and the hash of the transaction. *)
Definition check_receipt
    (sent : res AlloyContractError (res PendingTransactionError (bool * string)))
    : res WriteError () :=
  pending ← map_err write_error_of_contract sent;
  '(status, transaction_hash) ← map_err write_error_of_pending pending;
  if negb status then Err (WeRevert transaction_hash) else Ok ().
End errors.

(** * Conversions *)

Definition operator_to_evm (op : ScNodeOperator) : SolNodeOperator :=
  {| sol_addr := sc_op_id op; sol_data := sc_op_data op |}.
Definition operator_of_evm (op : SolNodeOperator) : ScNodeOperator :=
  {| sc_op_id := sol_addr op; sc_op_data := sol_data op |}.

Definition settings_to_evm (settings : ScSettings) : SolSettings := {|
  maxOperatorDataBytes := sc_max_node_operator_data_bytes settings;
  minOperators := Z.of_nat MIN_OPERATORS;
  sol_extra := sc_extra settings |}.
Definition settings_of_evm (settings : SolSettings) : ScSettings := {|
  sc_max_node_operator_data_bytes := maxOperatorDataBytes settings;
  sc_extra := sol_extra settings |}.

(** The loop over [0..=u8::MAX]; [U256::bit] is [Z.testbit]. *)
Definition bitmask_to_hashset (bitmask : Z) : gset Z :=
  foldl (λ set idx, if Z.testbit bitmask idx then {[idx]} ∪ set else set) ∅ (seqZ 0 256).

(** [set_bit(idx, true)] over the iteration of the set. *)
Definition keyspace_to_evm `{Hashing} (keyspace : ScKeyspace) : SolKeyspace := {|
  sol_operatorBitmask := foldl Z.setbit 0%Z (hashset_iter (sc_ks_operators keyspace));
  sol_replicationStrategy := sc_ks_replication_strategy keyspace |}.
Definition keyspace_of_evm (keyspace : SolKeyspace) : ScKeyspace := {|
  sc_ks_operators := bitmask_to_hashset (sol_operatorBitmask keyspace);
  sc_ks_replication_strategy := sol_replicationStrategy keyspace |}.

Definition migration_of_evm (migration : SolMigration) : ScMigration := {|
  sc_mig_id := sol_mig_id migration;
  sc_mig_pulling_operators := bitmask_to_hashset (sol_pullingOperatorBitmask migration);
  sc_mig_started_at := sol_startedAt migration;
  sc_mig_aborted_at :=
    if bool_decide (sol_startedAt migration ≤ sol_abortedAt migration)%Z &&
       bool_decide (sol_pullingOperatorBitmask migration = 0%Z)
    then Some (sol_abortedAt migration) else None |}.

Definition slot_of_evm (slot : SolNodeOperator) : option ScNodeOperator :=
  if decide (sol_addr slot = 0%Z) then None else Some (operator_of_evm slot).

(** [TryFrom<bindings::ClusterView> for ClusterView]; it cannot fail. *)
Definition cluster_view_of_evm (view : SolClusterView) : res ReadError ClusterView :=
  let node_operators := slot_of_evm <$> scv_operatorSlots view in
  let maintenance := {|
    sc_maint_slot := if decide (scv_maintenanceSlot view = 0%Z) then None
                     else Some (scv_maintenanceSlot view) |} in
  Ok {| cv_owner := scv_owner view; cv_settings := settings_of_evm (scv_settings view);
        cv_node_operators := node_operators;
        cv_keyspaces := (keyspace_of_evm (scv_keyspaces view).1, keyspace_of_evm (scv_keyspaces view).2);
        cv_keyspace_version := scv_keyspaceVersion view;
        cv_migration := migration_of_evm (scv_migration view); cv_maintenance := maintenance;
        cv_cluster_version := scv_version view |}.

(** * Events *)

(** A log as the provider delivers it: its event or the decoding error, and the
    block it is in. *)
Record Log := {
  log_inner : SolEvent + string;
  log_block_timestamp : option Z;
  log_block_number : option Z;
}.

Section events.
(** [get_block_by_number]: the timestamp in the header of the block. *)
Context (get_block_by_number : Z → res TransportError (option Z)) (show_number : Z → string).

Definition get_block_timestamp (log : Log) : res ReadError Z :=
  match log_block_timestamp log with
  | Some ts => Ok ts
  | None =>
      number ← ok_or (log_block_number log) (ReOther "Missing block number");
      block ← map_err (λ e, ReTransport (transport_shown e)) (get_block_by_number number);
      ok_or block (ReOther ("Block(number: " ++ show_number number ++ ") not found"))
  end.

Definition from_migration_started (id : Z) (newKeyspace : SolKeyspace) (version block_timestamp : Z)
    : Event :=
  EvMigrationStarted {| ms_migration_id := id; ms_new_keyspace := keyspace_of_evm newKeyspace;
                        ms_at := block_timestamp; ms_cluster_version := version |}.
Definition from_migration_aborted (id version block_timestamp : Z) : Event :=
  EvMigrationAborted {| ma_migration_id := id; ma_at := block_timestamp;
                        ma_cluster_version := version |}.
Definition from_maintenance_toggled (operator : Z) (active : bool) (version : Z) : Event :=
  if active then EvMaintenanceStarted {| mts_by := operator; mts_cluster_version := version |}
  else EvMaintenanceFinished {| mtf_cluster_version := version |}.
Definition from_migration_data_pull_completed (id operator version : Z) : Event :=
  EvMigrationDataPullCompleted {| mdpc_migration_id := id; mdpc_operator_id := operator;
                                  mdpc_cluster_version := version |}.
Definition from_migration_completed (id operator version : Z) : Event :=
  EvMigrationCompleted {| mc_migration_id := id; mc_operator_id := operator;
                          mc_cluster_version := version |}.
Definition from_node_operator_added (operator slot : Z) (data : list Z) (version : Z) : Event :=
  EvNodeOperatorAdded {|
    noa_idx := slot; noa_operator := operator_of_evm {| sol_addr := operator; sol_data := data |};
    noa_cluster_version := version |}.
Definition from_node_operator_updated (operator : Z) (data : list Z) (version : Z) : Event :=
  EvNodeOperatorUpdated {|
    nou_operator := operator_of_evm {| sol_addr := operator; sol_data := data |};
    nou_cluster_version := version |}.
Definition from_node_operator_removed (operator version : Z) : Event :=
  EvNodeOperatorRemoved {| nor_id := operator; nor_cluster_version := version |}.
Definition from_settings_updated (newSettings : SolSettings) (version : Z) : Event :=
  EvSettingsUpdated {| su_settings := settings_of_evm newSettings; su_cluster_version := version |}.

(** [Event::try_from]. *)
Definition event_try_from (log : Log) : res ReadError (option Event) :=
  match log_inner log with
  | inr err => Err (ReInvalidData err)
  | inl evt =>
      match evt with
      | SolMaintenanceToggled operator active version =>
          Ok (Some (from_maintenance_toggled operator active version))
      | SolMigrationAborted id version =>
          ts ← get_block_timestamp log; Ok (Some (from_migration_aborted id version ts))
      | SolMigrationCompleted id operator version =>
          Ok (Some (from_migration_completed id operator version))
      | SolMigrationDataPullCompleted id operator version =>
          Ok (Some (from_migration_data_pull_completed id operator version))
      | SolMigrationStarted id newKeyspace _ version =>
          ts ← get_block_timestamp log; Ok (Some (from_migration_started id newKeyspace version ts))
      | SolNodeOperatorAdded operator slot data version =>
          Ok (Some (from_node_operator_added operator slot data version))
      | SolNodeOperatorRemoved operator _ version =>
          Ok (Some (from_node_operator_removed operator version))
      | SolNodeOperatorUpdated operator _ data version =>
          Ok (Some (from_node_operator_updated operator data version))
      | SolSettingsUpdated newSettings _ version =>
          Ok (Some (from_settings_updated newSettings version))
      | SolClusterInitialized _ _ _ | SolInitialized | SolOwnershipTransferStarted
      | SolOwnershipTransferred | SolUpgraded => Ok None
      end
  end.

(** [events()]: [filter_map] with [transpose]. *)
Definition evm_events (logs : list Log) : list (res ReadError Event) :=
  omap (λ log, match event_try_from log with
               | Ok (Some event) => Some (Ok event)
               | Ok None => None
               | Err e => Some (Err e)
               | Panic => Some Panic
               end) logs.
End events.

(** * Calls *)

(** [impl Write for SmartContract]: the function of the contract that each call
    runs.  Ownership is the library's. *)
Definition evm_write `{LibBit, Hashing} (msg : Msg) (c : Contract) (call : ScCall)
    : option (res contract_error (Contract * SolEvent)) :=
  match call with
  | CallStartMigration new_keyspace => Some (startMigration msg c (keyspace_to_evm new_keyspace))
  | CallCompleteMigration id => Some (completeMigration msg c id)
  | CallAbortMigration id => Some (abortMigration msg c id)
  | CallStartMaintenance => Some (setMaintenance msg c true)
  | CallFinishMaintenance => Some (setMaintenance msg c false)
  | CallAddNodeOperator operator => Some (addNodeOperator msg c (operator_to_evm operator))
  | CallUpdateNodeOperator operator =>
      let operator := operator_to_evm operator in
      Some (updateNodeOperatorData msg c (sol_addr operator) (sol_data operator))
  | CallRemoveNodeOperator id => Some (removeNodeOperator msg c id)
  | CallUpdateSettings new_settings => Some (updateSettings msg c (settings_to_evm new_settings))
  | CallTransferOwnership _ | CallAcceptOwnership => None
  end.

(** [Deployer::deploy]: the arguments of the initializer. *)
Definition evm_deploy `{LibBit} (initial_settings : ScSettings)
    (initial_operators : list ScNodeOperator) : res contract_error (Contract * SolEvent) :=
  initialize (settings_to_evm initial_settings) (operator_to_evm <$> initial_operators).

(** [Read::cluster_view]. *)
Definition evm_cluster_view `{LibBit} (msg : Msg) (c : Contract) : res ReadError ClusterView :=
  cluster_view_of_evm (getView msg c).

(** * Errors of calls *)

(** A call is reported as done exactly when the transaction was sent and included
    and did not revert; an error response that carries an error of the contract is
    reported as a revert wherever it comes up. *)
Lemma check_receipt_exact json_string hex_decode abi_decode_error show_error sent :
  let check := check_receipt json_string hex_decode abi_decode_error show_error in
  (check sent = Ok () ↔ ∃ hash, sent = Ok (Ok (true, hash))) ∧
  ∀ e err, try_decode_error json_string hex_decode abi_decode_error e = Some err →
    check (Err (AlloyTransportError e)) = Err (WeRevert (show_error err)) ∧
    ∀ shown, check (Ok (Err (PendingTransportError e shown))) = Err (WeRevert (show_error err)).
Proof.
  cbn zeta. split.
  - unfold check_receipt. destruct sent as [[[[] hash]| |]| |]; cbn; naive_solver.
  - intros e err He. unfold check_receipt. cbn. by rewrite He.
Qed.
