(* ===== verification/ContractBits.v ===== *)
(** ContractBits: the bitmasks of the contract as sets of slot indices, on both
    sides of the binding ([library Bitmask] of Cluster.sol, [bitmask_to_hashset]
    and the conversions of keyspaces of evm.rs). *)
From S2P Require Import Prelude External SmartContract Keyspace Contract Evm Concrete.
From stdpp Require Import prelude gmap sets list strings sorting.

(** * Sets of bits *)

Lemma elem_of_bits b i : i ∈ bits b ↔ fits 8 i ∧ Z.testbit b i = true.
Proof.
  unfold bits, fits. rewrite elem_of_list_to_set, list_elem_of_filter, elem_of_seqZ.
  change (2 ^ 8)%Z with 256%Z. naive_solver lia.
Qed.

Lemma elem_of_bitmask_to_hashset b i : i ∈ bitmask_to_hashset b ↔ i ∈ bits b.
Proof.
  unfold bitmask_to_hashset, bits. rewrite elem_of_list_to_set, list_elem_of_filter.
  assert (∀ (l : list Z) (s : gset Z),
    i ∈ foldl (λ set idx, if Z.testbit b idx then {[idx]} ∪ set else set) s l ↔
    i ∈ s ∨ Z.testbit b i = true ∧ i ∈ l) as Hfold.
  { induction l as [|x l IH]; intros s; cbn.
    { rewrite elem_of_nil. tauto. }
    rewrite IH, elem_of_cons. destruct (Z.testbit b x) eqn:Hx.
    - rewrite elem_of_union, elem_of_singleton. split; [|tauto].
      intros [[->|]|]; tauto.
    - split; [tauto|]. intros [|[? [->|]]]; [tauto|congruence|tauto]. }
  rewrite Hfold, elem_of_empty. tauto.
Qed.

Lemma bitmask_to_hashset_bits b : bitmask_to_hashset b = bits b.
Proof. apply set_eq, elem_of_bitmask_to_hashset. Qed.

Lemma testbit_high b j : fits 256 b → (256 ≤ j)%Z → Z.testbit b j = false.
Proof.
  intros [Hb0 Hb] Hj. rewrite <-(Z.mod_small b (2 ^ 256)) by done.
  apply Z.mod_pow2_bits_high. lia.
Qed.

Lemma fits_testbit b : (0 ≤ b)%Z → (∀ j, (256 ≤ j)%Z → Z.testbit b j = false) → fits 256 b.
Proof.
  intros Hb Hhigh. split; [done|]. destruct (decide (b = 0)%Z) as [->|Hne]; [done|].
  apply Z.log2_lt_pow2; [lia|]. destruct (decide (Z.log2 b < 256)%Z) as [|Hge]; [done|].
  pose proof (Z.bit_log2 b ltac:(lia)) as Hbit. rewrite Hhigh in Hbit by lia. done.
Qed.

Lemma testbit_shift1 i j : (0 ≤ i)%Z → (0 ≤ j)%Z → Z.testbit (Z.shiftl 1 i) j = bool_decide (i = j).
Proof.
  intros Hi Hj. rewrite Z.shiftl_1_l, Z.pow2_bits_eqb by done. apply eq_true_iff_eq.
  rewrite bool_decide_eq_true. apply Z.eqb_eq.
Qed.

Lemma testbit_not b j : (0 ≤ j < 256)%Z → Z.testbit (u256_not b) j = negb (Z.testbit b j).
Proof.
  intros Hj. unfold u256_not. rewrite Z.lxor_spec, Z.ones_spec_low by lia. apply xorb_true_r.
Qed.

Lemma not_fits b : fits 256 b → fits 256 (u256_not b).
Proof.
  intros Hb. apply fits_testbit.
  - unfold u256_not. apply Z.lxor_nonneg. pose proof (proj1 Hb). by split.
  - intros j Hj. unfold u256_not. rewrite Z.lxor_spec, testbit_high, Z.ones_spec_high by (done || lia).
    done.
Qed.

Lemma land_zero a b : fits 256 a →
  Z.land a b = 0%Z ↔ ∀ j, (0 ≤ j < 256)%Z → Z.testbit a j = true → Z.testbit b j = false.
Proof.
  intros Ha. split.
  - intros H0 j Hj Hbit. assert (Z.testbit (Z.land a b) j = false) as Hl by (rewrite H0; apply Z.testbit_0_l).
    rewrite Z.land_spec, Hbit in Hl. done.
  - intros Hno. apply Z.bits_inj'. intros j Hj. rewrite Z.land_spec, Z.testbit_0_l.
    destruct (decide (j < 256)%Z).
    + destruct (Z.testbit a j) eqn:Hbit; [|done]. by rewrite Hno by (done || lia).
    + rewrite (testbit_high a) by (done || lia). done.
Qed.

Lemma isSet_testbit b i : fits 256 b → fits 8 i → bm_isSet b i = Z.testbit b i.
Proof.
  intros Hb Hi. unfold fits in Hi. change (2 ^ 8)%Z with 256%Z in Hi. unfold bm_isSet.
  destruct (Z.testbit b i) eqn:Hbit.
  - apply negb_true_iff, Z.eqb_neq. rewrite land_zero by done. intros Hno.
    specialize (Hno i Hi Hbit). rewrite testbit_shift1, bool_decide_eq_false in Hno by lia. done.
  - apply negb_false_iff, Z.eqb_eq. apply land_zero; [done|]. intros j Hj Hbj.
    rewrite testbit_shift1 by lia. apply bool_decide_eq_false. intros ->. congruence.
Qed.

Lemma isUnset_isSet b i : bm_isUnset b i = negb (bm_isSet b i).
Proof. unfold bm_isUnset, bm_isSet. by rewrite negb_involutive. Qed.

Lemma isSet_bits b i : fits 256 b → fits 8 i → bm_isSet b i = bool_decide (i ∈ bits b).
Proof.
  intros Hb Hi. rewrite isSet_testbit by done. apply eq_true_iff_eq.
  rewrite bool_decide_eq_true, elem_of_bits. naive_solver.
Qed.

Lemma bits_set b i : fits 256 b → fits 8 i →
  fits 256 (bm_set b i) ∧ bits (bm_set b i) = {[i]} ∪ bits b.
Proof.
  intros Hb Hi. pose proof Hi as Hi'. unfold fits in Hi'. change (2 ^ 8)%Z with 256%Z in Hi'.
  assert (∀ j, (0 ≤ j)%Z →
    Z.testbit (bm_set b i) j = Z.testbit b j || bool_decide (i = j)) as Hbit.
  { intros j Hj. unfold bm_set. by rewrite Z.lor_spec, testbit_shift1 by lia. }
  split.
  - apply fits_testbit.
    + unfold bm_set. apply Z.lor_nonneg. split; [apply Hb|]. apply Z.shiftl_nonneg. lia.
    + intros j Hj. rewrite Hbit, testbit_high, bool_decide_eq_false_2 by (done || lia). done.
  - apply set_eq. intros j. rewrite elem_of_union, elem_of_singleton, !elem_of_bits.
    destruct (decide (fits 8 j)) as [Hj|Hj]; [|naive_solver].
    rewrite Hbit by apply Hj. rewrite orb_true_iff, bool_decide_eq_true. naive_solver.
Qed.

Lemma bits_unset b i : fits 256 b → fits 8 i →
  fits 256 (bm_unset b i) ∧ bits (bm_unset b i) = bits b ∖ {[i]}.
Proof.
  intros Hb Hi. pose proof Hi as Hi'. unfold fits in Hi'. change (2 ^ 8)%Z with 256%Z in Hi'.
  split.
  - apply fits_testbit.
    + unfold bm_unset. apply Z.land_nonneg. left. apply Hb.
    + intros j Hj. unfold bm_unset. by rewrite Z.land_spec, testbit_high by (done || lia).
  - apply set_eq. intros j. rewrite elem_of_difference, elem_of_singleton, !elem_of_bits.
    destruct (decide (fits 8 j)) as [Hj|Hj]; [|naive_solver].
    pose proof Hj as Hj'. unfold fits in Hj'. change (2 ^ 8)%Z with 256%Z in Hj'.
    unfold bm_unset. rewrite Z.land_spec, testbit_not, testbit_shift1 by lia.
    rewrite andb_true_iff, negb_true_iff, bool_decide_eq_false. naive_solver.
Qed.

Lemma bits_inj a b : fits 256 a → fits 256 b → bits a = bits b → a = b.
Proof.
  intros Ha Hb Heq. apply Z.bits_inj'. intros j Hj. destruct (decide (j < 256)%Z) as [Hlt|Hge].
  - apply eq_true_iff_eq. assert (fits 8 j) as Hj8 by (split; [done|exact Hlt]).
    pose proof (elem_of_bits a j) as Ea. pose proof (elem_of_bits b j) as Eb.
    rewrite Heq in Ea. naive_solver.
  - rewrite !testbit_high by (done || lia). done.
Qed.

Lemma bits_zero : bits 0 = ∅.
Proof. apply set_eq. intros j. rewrite elem_of_bits, Z.testbit_0_l. set_solver. Qed.

Lemma bits_empty b : fits 256 b → bits b = ∅ ↔ b = 0%Z.
Proof.
  intros Hb. split; [|intros ->; apply bits_zero]. intros He. apply bits_inj; [done|done|].
  by rewrite bits_zero.
Qed.

Lemma isSubsetOf_bits a b : fits 256 a → bm_isSubsetOf a b = bool_decide (bits a ⊆ bits b).
Proof.
  intros Ha. unfold bm_isSubsetOf. apply eq_true_iff_eq.
  rewrite Z.eqb_eq, bool_decide_eq_true, land_zero by done. split.
  - intros Hno j. rewrite !elem_of_bits. intros [Hj Hbit]. split; [done|].
    pose proof Hj as Hj'. unfold fits in Hj'. change (2 ^ 8)%Z with 256%Z in Hj'.
    specialize (Hno j Hj' Hbit). rewrite testbit_not in Hno by done. by apply negb_false_iff.
  - intros Hsub j Hj Hbit. rewrite testbit_not by done.
    assert (j ∈ bits b) as [_ ->]%elem_of_bits; [|done]. apply Hsub, elem_of_bits.
    split; [exact Hj|done].
Qed.

Lemma bits_fill n : (0 ≤ n ≤ 256)%Z →
  fits 256 (bm_fill n) ∧ bits (bm_fill n) = list_to_set (seqZ 0 n).
Proof.
  intros Hn. assert (bm_fill n = Z.ones n) as ->.
  { unfold bm_fill. case_decide; [by subst|]. unfold Z.ones. lia. }
  assert (∀ j, (0 ≤ j)%Z → Z.testbit (Z.ones n) j = bool_decide (j < n)%Z) as Hbit.
  { intros j Hj. case_bool_decide; [by apply Z.ones_spec_low|apply Z.ones_spec_high; lia]. }
  split.
  - apply fits_testbit.
    + rewrite Z.ones_equiv. pose proof (Z.pow_pos_nonneg 2 n). lia.
    + intros j Hj. rewrite Hbit by lia. apply bool_decide_eq_false. lia.
  - apply set_eq. intros j. rewrite elem_of_bits, elem_of_list_to_set, elem_of_seqZ.
    unfold fits. change (2 ^ 8)%Z with 256%Z. split.
    + intros [Hj Ht]. rewrite Hbit, bool_decide_eq_true in Ht by lia. lia.
    + intros Hj. split; [lia|]. rewrite Hbit by lia. apply bool_decide_eq_true. lia.
Qed.

Lemma size_bits b : size (bits b) ≤ 256.
Proof.
  unfold bits. rewrite size_list_to_set by apply NoDup_filter, NoDup_seqZ.
  etrans; [apply length_filter|]. by rewrite length_seqZ.
Qed.

#[global] Strategy 1000 [bits bitmask_to_hashset].

(** * [LibBit] *)
Section libbit.
Context `{LibBitLaws}.

Lemma countSet_bits b : fits 256 b → bm_countSet b = Z.of_nat (size (bits b)).
Proof.
  intros Hb. unfold bm_countSet. rewrite popCount_law by done. apply wrap_small.
  pose proof (size_bits b). split; [lia|]. change (2 ^ 16)%Z with 65536%Z. lia.
Qed.

Lemma findFirstUnset_bits b : fits 256 b → b ≠ Z.ones 256 →
  fits 8 (bm_findFirstUnset b) ∧ bm_findFirstUnset b ∉ bits b ∧
  ∀ j, (0 ≤ j < bm_findFirstUnset b)%Z → j ∈ bits b.
Proof.
  intros Hb Hne. assert (u256_not b ≠ 0%Z) as Hnz.
  { unfold u256_not. intros ?%Z.lxor_eq. done. }
  destruct (ffs_law _ (not_fits _ Hb) Hnz) as [[Hf Hbit]%elem_of_bits Hmin].
  unfold bm_findFirstUnset. rewrite wrap_small by done.
  pose proof Hf as Hf'. unfold fits in Hf'. change (2 ^ 8)%Z with 256%Z in Hf'.
  rewrite testbit_not in Hbit by done. split_and!; [done| |].
  - rewrite elem_of_bits. intros [_ Hb']. by rewrite Hb' in Hbit.
  - intros j Hj. apply elem_of_bits. split; [unfold fits; change (2 ^ 8)%Z with 256%Z; lia|].
    destruct (Z.testbit b j) eqn:Hbj; [done|]. assert (j ∈ bits (u256_not b)) as Hin.
    { apply elem_of_bits. split; [unfold fits; change (2 ^ 8)%Z with 256%Z; lia|].
      rewrite testbit_not by lia. by rewrite Hbj. }
    specialize (Hmin j Hin). lia.
Qed.

Lemma findLastSet_bits b : fits 256 b → bits b ≠ ∅ →
  bm_findLastSet b ∈ bits b ∧ ∀ j, j ∈ bits b → (j ≤ bm_findLastSet b)%Z.
Proof.
  intros Hb Hne. rewrite bits_empty in Hne by done.
  destruct (fls_law _ Hb Hne) as [Hin Hmax]. pose proof Hin as [Hf _]%elem_of_bits.
  unfold bm_findLastSet. by rewrite wrap_small.
Qed.
End libbit.

(** A bit counter, for witnesses. *)
Definition toy_libbit : LibBit := {|
  popCount x := Z.of_nat (size (bits x));
  ffs x := default 256%Z (head (filter (λ i, Z.testbit x i = true) (seqZ 0 256)));
  fls x := default 256%Z (last (filter (λ i, Z.testbit x i = true) (seqZ 0 256)));
|}.

Lemma set_bits_sorted x : StronglySorted Z.lt (filter (λ i, Z.testbit x i = true) (seqZ 0 256)).
Proof.
  apply StronglySorted_filter. unfold seqZ. generalize (Z.to_nat 256). intros n.
  generalize 0%Z as m. induction n as [|n IH]; intros m; cbn; [constructor|].
  rewrite <-fmap_S_seq, <-list_fmap_compose. constructor.
  - rewrite (list_fmap_ext _ (λ i : nat, (Z.of_nat i + (m + 1))%Z)) by (intros; cbn; lia).
    apply IH.
  - apply Forall_fmap, Forall_forall. intros i _. cbn. lia.
Qed.

Lemma set_bits_nonempty x : fits 256 x → x ≠ 0%Z → filter (λ i, Z.testbit x i = true) (seqZ 0 256) ≠ [].
Proof.
  intros Hx Hne Hnil. apply Hne, bits_empty; [done|]. unfold bits. by rewrite Hnil.
Qed.

Lemma toy_libbit_laws : @LibBitLaws toy_libbit.
Proof.
  split; cbn [popCount ffs fls toy_libbit]; [done| | |done|done]; intros x Hx Hne;
    pose proof (set_bits_nonempty x Hx Hne) as Hnil; pose proof (set_bits_sorted x) as Hs;
    unfold bits; setoid_rewrite elem_of_list_to_set;
    revert Hnil Hs; generalize (filter (λ i, Z.testbit x i = true) (seqZ 0 256)); intros l Hnil Hs.
  - destruct l as [|i l]; [done|]. cbn. apply StronglySorted_inv in Hs as [_ Hall].
    rewrite Forall_forall in Hall. split; [left|]. intros j [->|Hj]%elem_of_cons; [lia|].
    specialize (Hall j Hj). lia.
  - destruct l as [|i l _] using rev_ind; [done|]. rewrite last_snoc. cbn.
    split; [apply elem_of_app; right; by left|]. intros j [Hj| ->%list_elem_of_singleton]%elem_of_app; [|lia].
    apply StronglySorted_app in Hs as (Hlt & _). specialize (Hlt j i Hj ltac:(by left)). lia.
Qed.

(** * Keyspaces *)
Section keyspaces.
Context `{HashingLaws}.

Lemma foldl_setbit l b :
  fits 256 b → Forall (fits 8) l →
  fits 256 (foldl Z.setbit b l) ∧ bits (foldl Z.setbit b l) = list_to_set l ∪ bits b.
Proof.
  intros Hb Hl. revert b Hb. induction Hl as [|i l Hi _ IH]; intros b Hb; cbn [foldl].
  { split; [done|]. set_solver. }
  destruct (bits_set b i Hb Hi) as [Hb' Hbits]. change (Z.setbit b i) with (bm_set b i).
  destruct (IH _ Hb') as [Hf ->]. split; [done|]. rewrite Hbits. set_solver.
Qed.

Lemma keyspace_to_evm_bits sc :
  (∀ i, i ∈ sc_ks_operators sc → fits 8 i) →
  fits 256 (sol_operatorBitmask (keyspace_to_evm sc)) ∧
  bits (sol_operatorBitmask (keyspace_to_evm sc)) = sc_ks_operators sc.
Proof.
  intros Hty. unfold keyspace_to_evm; cbn.
  destruct (foldl_setbit (hashset_iter (sc_ks_operators sc)) 0) as [Hf Hbits].
  - done.
  - apply Forall_forall. intros i Hi. apply Hty.
    by rewrite hashset_iter_perm, elem_of_elements in Hi.
  - split; [done|]. rewrite Hbits, bits_zero. apply set_eq. intros i.
    rewrite elem_of_union, elem_of_list_to_set, hashset_iter_perm, elem_of_elements, elem_of_empty. tauto.
Qed.

Lemma keyspace_of_to_evm sc :
  (∀ i, i ∈ sc_ks_operators sc → fits 8 i) → keyspace_of_evm (keyspace_to_evm sc) = sc.
Proof.
  intros Hty. unfold keyspace_of_evm. rewrite bitmask_to_hashset_bits.
  destruct (keyspace_to_evm_bits sc Hty) as [_ ->]. by destruct sc.
Qed.

Lemma keyspace_to_of_evm ks :
  fits 256 (sol_operatorBitmask ks) → keyspace_to_evm (keyspace_of_evm ks) = ks.
Proof.
  intros Hf. assert (∀ i, i ∈ sc_ks_operators (keyspace_of_evm ks) → fits 8 i) as Hty.
  { intros i. cbn. rewrite bitmask_to_hashset_bits, elem_of_bits. by intros [? _]. }
  destruct (keyspace_to_evm_bits _ Hty) as [Hf' Hbits].
  assert (sol_operatorBitmask (keyspace_to_evm (keyspace_of_evm ks)) = sol_operatorBitmask ks) as Heq.
  { apply bits_inj; [done|done|]. rewrite Hbits. apply bitmask_to_hashset_bits. }
  destruct ks as [b s]; cbn in Heq. unfold keyspace_to_evm; cbn. by rewrite Heq.
Qed.
End keyspaces.

(** Keyspaces survive the trip to the contract and back in both directions:
    the set of operator indices and the bitmask of 256 bits determine each other,
    in whatever order the set is iterated. *)
Theorem evm_keyspace_roundtrip `{HashingLaws} sc ks :
  (∀ i, i ∈ sc_ks_operators sc → fits 8 i) → fits 256 (sol_operatorBitmask ks) →
  keyspace_of_evm (keyspace_to_evm sc) = sc ∧ keyspace_to_evm (keyspace_of_evm ks) = ks.
Proof. intros Hsc Hks. split; [by apply keyspace_of_to_evm|by apply keyspace_to_of_evm]. Qed.

Lemma evm_keyspace_roundtrip_witness :
  let sc := {| sc_ks_operators := {[0; 3; 255]}%Z; sc_ks_replication_strategy := 0%Z |} in
  let ks := {| sol_operatorBitmask := 5%Z; sol_replicationStrategy := 0%Z |} in
  keyspace_of_evm (@keyspace_to_evm toy_hashing sc) = sc ∧
  @keyspace_to_evm toy_hashing (keyspace_of_evm ks) = ks.
Proof.
  intros sc ks. apply (@evm_keyspace_roundtrip toy_hashing toy_hashing_laws sc ks).
  - intros i Hi. cbn in Hi. rewrite !elem_of_union, !elem_of_singleton in Hi. unfold fits.
    change (2 ^ 8)%Z with 256%Z. lia.
  - done.
Defined.
