(* ===== verification/ContractInv.v ===== *)
(** ContractInv: the invariant of the contract.

    [contract_wf] ties the bitmask of the operators to the slots and to the index
    of addresses, and the keyspaces and the pulling operators to the bitmask.  It
    holds after deployment and is kept by every call of the cluster. *)
From S2P Require Import Prelude External SmartContract NodeOperators Keyspace Settings Migration.
From S2P Require Import Cluster Contract Evm ContractBits.
From stdpp Require Import prelude gmap sets list strings.

(** * Inversion of calls *)

Lemma revert_if_Ok {E} b (e : E) u : revert_if b e = Ok u → b = false.
Proof. by destruct b. Qed.

Lemma checked_inc_Ok {E} w x y : checked_inc (E := E) w x = Ok y → (x + 1 < 2 ^ w)%Z ∧ y = (x + 1)%Z.
Proof. unfold checked_inc. case_decide; [|done]. by intros <-%Ok_inj. Qed.

Lemma checked_dec_Ok {E} x y : checked_dec (E := E) x = Ok y → (1 ≤ x)%Z ∧ y = (x - 1)%Z.
Proof. unfold checked_dec. case_decide; [|done]. by intros <-%Ok_inj. Qed.

(** [call_inv] takes apart a hypothesis that says a call of the contract
    succeeded: the negated guards and the new state. *)
Ltac call_inv_step :=
  match goal with
  | H : revert_if _ _ = Ok _ |- _ => apply revert_if_Ok in H
  | H : checked_inc _ _ = Ok _ |- _ => apply checked_inc_Ok in H as [H ->]
  | H : checked_dec _ = Ok _ |- _ => apply checked_dec_Ok in H as [H ->]
  | H : negb _ = false |- _ => apply negb_false_iff in H
  | H : _ || _ = false |- _ => apply orb_false_iff in H as [? H]
  | H : bool_decide _ = true |- _ => apply bool_decide_eq_true in H
  | H : bool_decide _ = false |- _ => apply bool_decide_eq_false in H
  end.
Ltac call_inv := mon_inv; repeat (call_inv_step; mon_inv).

(** * The invariant *)
Section contract_inv.
Context `{HashingLaws, UnixTime, LibBitLaws}.
Context `{!Postcard ExtraV0, !Postcard ExtraV1}.
Implicit Types c : Contract.

Definition operators_of c : gset Z := bits (c_operatorBitmask c).
Definition pulling_of c : Z := sol_pullingOperatorBitmask (c_migration c).

(** The keyspace in use: while a migration runs, the one before the last. *)
Definition primary_of c : SolKeyspace :=
  keyspace_at (c_keyspaces c)
    (if decide (pulling_of c = 0%Z) then c_keyspaceVersion c else c_keyspaceVersion c - 1).
Definition latest_of c : SolKeyspace := keyspace_at (c_keyspaces c) (c_keyspaceVersion c).

Record keyspace_valid (operators : gset Z) (ks : SolKeyspace) : Prop := {
  kv_fits : fits 256 (sol_operatorBitmask ks);
  kv_strategy : sol_replicationStrategy ks = 0%Z;
  kv_known : bits (sol_operatorBitmask ks) ⊆ operators;
  kv_size : MIN_OPERATORS ≤ size (bits (sol_operatorBitmask ks));
}.

Record slots_valid c : Prop := {
  sv_bitmask : fits 256 (c_operatorBitmask c);
  sv_set idx : idx ∈ operators_of c →
    sol_addr (slot_at c idx) ≠ 0%Z ∧ index_of c (sol_addr (slot_at c idx)) = idx;
  sv_unset idx : idx ∉ operators_of c → slot_at c idx = empty_slot;
  sv_index addr : index_of c addr ≠ 0%Z →
    index_of c addr ∈ operators_of c ∧ sol_addr (slot_at c (index_of c addr)) = addr;
}.

Record contract_wf c : Prop := {
  cw_slots : slots_valid c;
  cw_min : minOperators (c_settings c) = Z.of_nat MIN_OPERATORS;
  cw_settings : ∃ s, settings_try_from_sc (settings_of_evm (c_settings c)) = Ok s;
  cw_primary : keyspace_valid (operators_of c) (primary_of c);
  cw_pulling : fits 256 (pulling_of c);
  cw_secondary : pulling_of c ≠ 0%Z →
    keyspace_valid (operators_of c) (latest_of c) ∧
    bits (pulling_of c) ⊆ bits (sol_operatorBitmask (latest_of c)) ∧ (1 ≤ c_keyspaceVersion c)%Z;
  cw_keyspaceVersion : fits 64 (c_keyspaceVersion c);
  cw_version : fits 128 (c_version c);
  cw_started : ∃ t, parse_timestamp (sol_startedAt (c_migration c)) = Ok t;
  cw_aborted : ∃ t, parse_timestamp (sol_abortedAt (c_migration c)) = Ok t;
}.

(** What the callers make sure of: indices and strategies of keyspaces are those
    of the cluster crate, settings can be read back, addresses are not zero;
    maintenance starts without a migration and finishes when there is one. *)
Definition call_sane c (call : ScCall) : Prop :=
  match call with
  | CallStartMigration ks =>
      (∀ i, i ∈ sc_ks_operators ks → fits 8 i) ∧ sc_ks_replication_strategy ks = 0%Z
  | CallStartMaintenance => pulling_of c = 0%Z
  | CallFinishMaintenance => c_maintenanceSlot c ≠ 0%Z
  | CallUpdateNodeOperator op => sc_op_id op ≠ 0%Z
  | CallRemoveNodeOperator id => id ≠ 0%Z
  | CallUpdateSettings s => ∃ s', settings_try_from_sc s = Ok s'
  | _ => True
  end.

(** Accounts are not the zero address; block times are dates. *)
Record msg_sane (msg : Msg) : Prop := {
  ms_sender : msg_sender msg ≠ 0%Z;
  ms_time : fits 64 (block_timestamp msg);
  ms_date : ∃ t, parse_timestamp (block_timestamp msg) = Ok t;
}.

(** ** Slots *)

Lemma operators_fit c idx : idx ∈ operators_of c → fits 8 idx.
Proof. by intros [? _]%elem_of_bits. Qed.

Lemma operator_slot c addr :
  slots_valid c → addr ≠ 0%Z → sol_addr (slot_at c (index_of c addr)) = addr →
  index_of c addr ∈ operators_of c.
Proof.
  intros Hs Hne Haddr. destruct (decide (index_of c addr ∈ operators_of c)) as [|Hout]; [done|].
  rewrite (sv_unset _ Hs _ Hout) in Haddr. done.
Qed.

Lemma operator_slot_unique c addr idx :
  slots_valid c → idx ∈ operators_of c → sol_addr (slot_at c idx) = addr → idx = index_of c addr.
Proof. intros Hs Hin <-. by destruct (sv_set _ Hs _ Hin) as [_ ->]. Qed.

(** An address the guard of [addNodeOperator] lets through has no slot. *)
Lemma operator_new c addr :
  slots_valid c → index_of c addr = 0%Z → sol_addr (slot_at c 0) ≠ addr →
  ∀ idx, idx ∈ operators_of c → sol_addr (slot_at c idx) ≠ addr.
Proof.
  intros Hs Hidx Hne idx Hin Haddr. pose proof (operator_slot_unique _ _ _ Hs Hin Haddr) as ->.
  by rewrite Hidx in Haddr.
Qed.

Lemma slot_at_insert c slots indexes bm ver i j op :
  slot_at (set_c_operators c (<[i := op]> slots) indexes bm ver) j =
    if decide (i = j) then op else default empty_slot (slots !! j).
Proof.
  unfold slot_at; cbn. case_decide as Heq; [subst; by rewrite lookup_insert_eq|].
  by rewrite lookup_insert_ne.
Qed.

Lemma index_of_insert c slots indexes bm ver a b i :
  index_of (set_c_operators c slots (<[a := i]> indexes) bm ver) b =
    if decide (a = b) then i else default 0%Z (indexes !! b).
Proof.
  unfold index_of; cbn. case_decide as Heq; [subst; by rewrite lookup_insert_eq|].
  by rewrite lookup_insert_ne.
Qed.

Lemma slots_valid_add c op i ver :
  slots_valid c → fits 8 i → i ∉ operators_of c → sol_addr op ≠ 0%Z →
  index_of c (sol_addr op) = 0%Z → sol_addr (slot_at c 0) ≠ sol_addr op →
  slots_valid (set_c_operators c (<[i := op]> (c_operatorSlots c))
    (<[sol_addr op := i]> (c_operatorSlotIndexes c)) (bm_set (c_operatorBitmask c) i) ver).
Proof.
  intros Hs Hi Hout Hne Hidx Hz. pose proof (operator_new _ _ Hs Hidx Hz) as Hnew.
  destruct (bits_set _ i (sv_bitmask _ Hs) Hi) as [Hf Hbits].
  split; [done| | |]; unfold operators_of; cbn [c_operatorBitmask set_c_operators].
  - rewrite Hbits. intros j [->%elem_of_singleton|Hj]%elem_of_union;
      rewrite !slot_at_insert, index_of_insert.
    { rewrite !decide_True by done. done. }
    assert (i ≠ j) as Hij by (intros ->; done). rewrite !(decide_False (P := i = j)) by done.
    rewrite decide_False by (intros Heq; apply (Hnew j Hj); by rewrite Heq).
    apply (sv_set _ Hs j Hj).
  - rewrite Hbits. intros j [Hij%not_elem_of_singleton Hj]%not_elem_of_union.
    rewrite slot_at_insert, decide_False by congruence. apply (sv_unset _ Hs j Hj).
  - intros addr. rewrite index_of_insert, Hbits. case_decide as Heq.
    + intros _. rewrite slot_at_insert, decide_True by done. split; [set_solver|done].
    + intros Hnz. destruct (sv_index _ Hs _ Hnz) as [Hin Haddr].
      rewrite slot_at_insert, decide_False by (intros ->; done). split; [|done].
      apply elem_of_union. by right.
Qed.

Lemma slots_valid_update c i op ver :
  slots_valid c → i ∈ operators_of c → sol_addr op = sol_addr (slot_at c i) →
  slots_valid (set_c_operators c (<[i := op]> (c_operatorSlots c)) (c_operatorSlotIndexes c)
    (c_operatorBitmask c) ver).
Proof.
  intros Hs Hin Haddr. assert (∀ j, sol_addr (slot_at (set_c_operators c
    (<[i := op]> (c_operatorSlots c)) (c_operatorSlotIndexes c) (c_operatorBitmask c) ver) j)
    = sol_addr (slot_at c j)) as Hsame.
  { intros j. rewrite slot_at_insert. case_decide; [by subst|done]. }
  split; [apply Hs| | |]; intros j; rewrite ?Hsame.
  - apply (sv_set _ Hs).
  - intros Hj. rewrite slot_at_insert, decide_False by (intros ->; done). by apply (sv_unset _ Hs).
  - apply (sv_index _ Hs).
Qed.

Lemma slots_valid_remove c addr ver :
  slots_valid c → addr ≠ 0%Z → sol_addr (slot_at c (index_of c addr)) = addr →
  slots_valid (set_c_operators c (delete (index_of c addr) (c_operatorSlots c))
    (delete addr (c_operatorSlotIndexes c)) (bm_unset (c_operatorBitmask c) (index_of c addr)) ver).
Proof.
  intros Hs Hne Haddr. pose proof (operator_slot _ _ Hs Hne Haddr) as Hin.
  set (i := index_of c addr) in *.
  destruct (bits_unset _ i (sv_bitmask _ Hs) (operators_fit _ _ Hin)) as [Hf Hbits].
  split; [done| | |]; unfold operators_of, slot_at, index_of; cbn [c_operatorBitmask
    c_operatorSlots c_operatorSlotIndexes set_c_operators]; rewrite Hbits.
  - intros j [Hj Hji%not_elem_of_singleton]%elem_of_difference.
    rewrite lookup_delete_ne by congruence. destruct (sv_set _ Hs _ Hj) as [Hnz Hidx].
    split; [done|]. rewrite lookup_delete_ne; [done|]. intros Heq. apply Hji.
    rewrite <-Hidx. unfold i. by rewrite Heq.
  - intros j Hj. destruct (decide (j = i)) as [->|Hji]; [by rewrite lookup_delete_eq|].
    rewrite lookup_delete_ne by congruence. apply (sv_unset _ Hs). intros Hin'. apply Hj.
    apply elem_of_difference. split; [done|]. by apply not_elem_of_singleton.
  - intros b. destruct (decide (addr = b)) as [<-|Hb]; [by rewrite lookup_delete_eq|].
    rewrite lookup_delete_ne by done. intros Hnz. destruct (sv_index _ Hs _ Hnz) as [Hin' Hb'].
    unfold index_of in Hin', Hb'. assert (default 0%Z (c_operatorSlotIndexes c !! b) ≠ i) as Hi.
    { intros Heq. rewrite Heq, Haddr in Hb'. done. }
    rewrite lookup_delete_ne by congruence. split; [|done].
    apply elem_of_difference. split; [done|]. by apply not_elem_of_singleton.
Qed.

(** ** Keyspaces *)

Lemma keyspace_at_set ks version new : keyspace_at (keyspace_set ks version new) version = new.
Proof. unfold keyspace_at, keyspace_set. repeat case_decide; done. Qed.

Lemma keyspace_at_set_prev ks version new :
  keyspace_at (keyspace_set ks (version + 1) new) version = keyspace_at ks version.
Proof.
  unfold keyspace_at, keyspace_set. repeat case_decide; try done; exfalso;
    pose proof (Z.mod_pos_bound version 2 ltac:(lia));
    pose proof (Z.mod_pos_bound (version + 1) 2 ltac:(lia));
    pose proof (Z.div_mod version 2 ltac:(lia)); pose proof (Z.div_mod (version + 1) 2 ltac:(lia)); lia.
Qed.

Lemma keyspace_at_cases ks version :
  keyspace_at ks version = keyspace_at ks 0 ∨ keyspace_at ks version = keyspace_at ks 1.
Proof. unfold keyspace_at. cbn. case_decide; auto. Qed.

Lemma keyspace_at_mod ks version : keyspace_at ks (version mod 2) = keyspace_at ks version.
Proof. unfold keyspace_at. by rewrite Zmod_mod. Qed.

Lemma keyspace_valid_nonzero operators ks :
  keyspace_valid operators ks → sol_operatorBitmask ks ≠ 0%Z.
Proof.
  intros [_ _ _ Hsize] Heq. rewrite Heq, bits_zero, size_empty in Hsize.
  unfold MIN_OPERATORS in Hsize. lia.
Qed.

Lemma keyspace_valid_mono operators operators' ks :
  bits (sol_operatorBitmask ks) ⊆ operators' → keyspace_valid operators ks →
  keyspace_valid operators' ks.
Proof. intros Hsub []. by split. Qed.

(** The operators of the keyspaces in use. *)
Lemma contract_wf_operators c slots indexes bm ver :
  contract_wf c → fits 128 ver →
  slots_valid (set_c_operators c slots indexes bm ver) →
  bits (sol_operatorBitmask (primary_of c)) ⊆ bits bm →
  (pulling_of c ≠ 0%Z → bits (sol_operatorBitmask (latest_of c)) ⊆ bits bm) →
  contract_wf (set_c_operators c slots indexes bm ver).
Proof.
  intros Hc Hver Hs Hp Hl. destruct Hc. split; try done.
  - by eapply keyspace_valid_mono.
  - intros Hpull. destruct (cw_secondary0 Hpull) as (Hv & ? & ?). split_and!; [|done|done].
    eapply keyspace_valid_mono; [by apply Hl|done].
Qed.

(** ** Calls *)

Lemma startMigration_Ok msg c ks c' evt :
  startMigration msg c ks = Ok (c', evt) →
  c_maintenanceSlot c = 0%Z ∧ ¬ (0 < pulling_of c)%Z ∧
  (minOperators (c_settings c) ≤ bm_countSet (sol_operatorBitmask ks))%Z ∧
  bm_isSubsetOf (sol_operatorBitmask ks) (c_operatorBitmask c) = true ∧
  (sol_operatorBitmask (latest_of c) ≠ sol_operatorBitmask ks ∨
   sol_replicationStrategy (latest_of c) ≠ sol_replicationStrategy ks) ∧
  (c_keyspaceVersion c + 1 < 2 ^ 64)%Z ∧ (c_version c + 1 < 2 ^ 128)%Z ∧
  c' = set_c_migration c (keyspace_set (c_keyspaces c) (c_keyspaceVersion c + 1) ks)
         (c_keyspaceVersion c + 1)
         {| sol_mig_id := sol_mig_id (c_migration c) + 1;
            sol_startedAt := wrap 64 (block_timestamp msg);
            sol_abortedAt := sol_abortedAt (c_migration c);
            sol_pullingOperatorBitmask := sol_operatorBitmask ks |} (c_version c + 1) ∧
  evt = SolMigrationStarted (sol_mig_id (c_migration c) + 1) ks (c_keyspaceVersion c + 1)
          (c_version c + 1).
Proof.
  unfold startMigration. intros Hcall. call_inv. apply andb_false_iff in Hm4.
  split_and!; try done; [lia|].
  destruct Hm4 as [?%bool_decide_eq_false|?%bool_decide_eq_false]; [by left|by right].
Qed.

Lemma completeMigration_Ok msg c id c' evt :
  completeMigration msg c id = Ok (c', evt) →
  let slotIdx := index_of c (msg_sender msg) in
  let pulling := bm_unset (pulling_of c) slotIdx in
  pulling_of c ≠ 0%Z ∧ id = sol_mig_id (c_migration c) ∧
  sol_addr (slot_at c slotIdx) = msg_sender msg ∧ bm_isSet (pulling_of c) slotIdx = true ∧
  (c_version c + 1 < 2 ^ 128)%Z ∧
  c' = set_c_migration c (c_keyspaces c) (c_keyspaceVersion c)
         {| sol_mig_id := id; sol_startedAt := sol_startedAt (c_migration c);
            sol_abortedAt := sol_abortedAt (c_migration c);
            sol_pullingOperatorBitmask := pulling |} (c_version c + 1) ∧
  evt = if decide (pulling = 0%Z) then SolMigrationCompleted id (msg_sender msg) (c_version c + 1)
        else SolMigrationDataPullCompleted id (msg_sender msg) (c_version c + 1).
Proof.
  unfold completeMigration. intros Hcall. call_inv. rewrite isUnset_isSet in Hm2. call_inv.
  subst id. by split_and!.
Qed.

Lemma abortMigration_Ok msg c id c' evt :
  abortMigration msg c id = Ok (c', evt) →
  pulling_of c ≠ 0%Z ∧ id = sol_mig_id (c_migration c) ∧ (1 ≤ c_keyspaceVersion c)%Z ∧
  (c_version c + 1 < 2 ^ 128)%Z ∧
  c' = set_c_migration c (c_keyspaces c) (c_keyspaceVersion c - 1)
         {| sol_mig_id := id; sol_startedAt := sol_startedAt (c_migration c);
            sol_abortedAt := wrap 64 (block_timestamp msg);
            sol_pullingOperatorBitmask := 0%Z |} (c_version c + 1) ∧
  evt = SolMigrationAborted id (c_version c + 1).
Proof. unfold abortMigration. intros Hcall. call_inv. subst id. by split_and!. Qed.

Lemma addNodeOperator_Ok msg c op c' evt :
  addNodeOperator msg c op = Ok (c', evt) →
  let slotIdx := bm_findFirstUnset (c_operatorBitmask c) in
  c_operatorBitmask c ≠ Z.ones 256 ∧ sol_addr op ≠ 0%Z ∧ index_of c (sol_addr op) = 0%Z ∧
  sol_addr (slot_at c 0) ≠ sol_addr op ∧ (c_version c + 1 < 2 ^ 128)%Z ∧
  c' = set_c_operators c (<[slotIdx := op]> (c_operatorSlots c))
         (<[sol_addr op := slotIdx]> (c_operatorSlotIndexes c))
         (bm_set (c_operatorBitmask c) slotIdx) (c_version c + 1) ∧
  evt = SolNodeOperatorAdded (sol_addr op) slotIdx (sol_data op) (c_version c + 1).
Proof. unfold addNodeOperator. intros Hcall. call_inv. by split_and!. Qed.

Lemma updateNodeOperatorData_Ok msg c addr data c' evt :
  updateNodeOperatorData msg c addr data = Ok (c', evt) →
  sol_addr (slot_at c (index_of c addr)) = addr ∧ (c_version c + 1 < 2 ^ 128)%Z ∧
  c' = set_c_operators c
         (<[index_of c addr := {| sol_addr := addr; sol_data := data |}]> (c_operatorSlots c))
         (c_operatorSlotIndexes c) (c_operatorBitmask c) (c_version c + 1) ∧
  evt = SolNodeOperatorUpdated addr (index_of c addr) data (c_version c + 1).
Proof. unfold updateNodeOperatorData. intros Hcall. call_inv. by rewrite Hm1. Qed.

Lemma removeNodeOperator_Ok msg c addr c' evt :
  removeNodeOperator msg c addr = Ok (c', evt) →
  let slotIdx := index_of c addr in
  sol_addr (slot_at c slotIdx) = addr ∧
  (minOperators (c_settings c) < bm_countSet (c_operatorBitmask c))%Z ∧
  isSlotInKeyspace c slotIdx (c_keyspaceVersion c) = false ∧
  ((0 < pulling_of c)%Z → ∀ version, isSlotInKeyspace c slotIdx version = false) ∧
  (c_version c + 1 < 2 ^ 128)%Z ∧
  c' = set_c_operators c (delete slotIdx (c_operatorSlots c))
         (delete addr (c_operatorSlotIndexes c)) (bm_unset (c_operatorBitmask c) slotIdx)
         (c_version c + 1) ∧
  evt = SolNodeOperatorRemoved addr slotIdx (c_version c + 1).
Proof.
  unfold removeNodeOperator. intros Hcall. call_inv.
  assert (isSlotInKeyspace c (index_of c addr) (c_keyspaceVersion c) = false ∧
    ((0 < pulling_of c)%Z → ∀ version, isSlotInKeyspace c (index_of c addr) version = false))
    as [? ?]; [|by split_and!; [|lia|..]].
  unfold pulling_of, isSlotInKeyspace in *. case_decide; call_inv.
  - assert (∀ version, bm_isSet (sol_operatorBitmask (keyspace_at (c_keyspaces c) version))
      (index_of c addr) = false); [|done].
    intros version. by destruct (keyspace_at_cases (c_keyspaces c) version) as [-> | ->].
  - rewrite keyspace_at_mod in Hm2. done.
Qed.

Lemma setMaintenance_Ok msg c active c' evt :
  setMaintenance msg c active = Ok (c', evt) →
  (active = true → c_maintenanceSlot c = 0%Z) ∧ (c_version c + 1 < 2 ^ 128)%Z ∧
  c' = set_c_maintenance c (if active then msg_sender msg else 0%Z) (c_version c + 1) ∧
  evt = SolMaintenanceToggled (msg_sender msg) active (c_version c + 1).
Proof. unfold setMaintenance. intros Hcall. call_inv. destruct active; call_inv; done. Qed.

Lemma updateSettings_Ok msg c settings c' evt :
  updateSettings msg c settings = Ok (c', evt) →
  (c_version c + 1 < 2 ^ 128)%Z ∧ c' = set_c_settings c settings (c_version c + 1) ∧
  evt = SolSettingsUpdated settings (msg_sender msg) (c_version c + 1).
Proof. unfold updateSettings. intros Hcall. call_inv. done. Qed.

(** ** Preservation *)

Lemma keyspace_to_evm_valid c sc :
  contract_wf c → (∀ i, i ∈ sc_ks_operators sc → fits 8 i) → sc_ks_replication_strategy sc = 0%Z →
  (minOperators (c_settings c) ≤ bm_countSet (sol_operatorBitmask (keyspace_to_evm sc)))%Z →
  bm_isSubsetOf (sol_operatorBitmask (keyspace_to_evm sc)) (c_operatorBitmask c) = true →
  keyspace_valid (operators_of c) (keyspace_to_evm sc).
Proof.
  intros Hc Hty Hst Hmin Hsub. destruct (keyspace_to_evm_bits sc Hty) as [Hf _].
  rewrite isSubsetOf_bits, bool_decide_eq_true in Hsub by done.
  rewrite countSet_bits, (cw_min _ Hc) in Hmin by done. split; [done|done|done|lia].
Qed.

Lemma startMigration_wf msg c sc c' evt :
  contract_wf c → msg_sane msg → call_sane c (CallStartMigration sc) →
  startMigration msg c (keyspace_to_evm sc) = Ok (c', evt) → contract_wf c'.
Proof.
  intros Hc Hmsg [Hty Hst] (_ & Hp & Hmin & Hsub & _ & Hkv & Hver & -> & _)%startMigration_Ok.
  pose proof (keyspace_to_evm_valid _ _ Hc Hty Hst Hmin Hsub) as Hnew.
  pose proof (keyspace_valid_nonzero _ _ Hnew) as Hnz.
  assert (pulling_of c = 0%Z) as Hp0 by (pose proof (proj1 (cw_pulling _ Hc)); lia).
  destruct (cw_keyspaceVersion _ Hc) as [Hkv0 _]. destruct (cw_version _ Hc) as [Hver0 _].
  split; try apply Hc.
  - destruct (cw_slots _ Hc). by split.
  - unfold primary_of, pulling_of, operators_of. cbn. rewrite decide_False by done.
    rewrite Z.add_simpl_r, keyspace_at_set_prev. pose proof (cw_primary _ Hc) as Hpri.
    unfold primary_of in Hpri. by rewrite Hp0, decide_True in Hpri.
  - apply Hnew.
  - intros _. unfold latest_of, pulling_of, operators_of. cbn.
    rewrite keyspace_at_set. split_and!; [done|done|lia].
  - cbn. split; lia.
  - cbn. split; lia.
  - cbn. rewrite wrap_small by apply Hmsg. apply Hmsg.
Qed.

Lemma completeMigration_wf msg c id c' evt :
  contract_wf c → msg_sane msg → completeMigration msg c id = Ok (c', evt) → contract_wf c'.
Proof.
  intros Hc Hmsg (Hp & -> & Haddr & Hset & Hver & -> & _)%completeMigration_Ok.
  pose proof (operator_slot _ _ (cw_slots _ Hc) (ms_sender _ Hmsg) Haddr) as Hin.
  destruct (bits_unset _ _ (cw_pulling _ Hc) (operators_fit _ _ Hin)) as [Hf Hbits].
  destruct (cw_secondary _ Hc Hp) as (Hsec & Hsub & Hkv). destruct (cw_version _ Hc) as [Hver0 _].
  split; try apply Hc.
  - destruct (cw_slots _ Hc). by split.
  - unfold primary_of, pulling_of, operators_of. cbn. case_decide; [exact Hsec|].
    pose proof (cw_primary _ Hc) as Hpri. unfold primary_of in Hpri.
    by rewrite decide_False in Hpri.
  - exact Hf.
  - intros _. split_and!; [done| |done].
    change (bits (bm_unset (pulling_of c) (index_of c (msg_sender msg))) ⊆
      bits (sol_operatorBitmask (latest_of c))).
    rewrite Hbits. etrans; [|exact Hsub]. set_solver.
  - cbn. split; lia.
Qed.

Lemma abortMigration_wf msg c id c' evt :
  contract_wf c → msg_sane msg → abortMigration msg c id = Ok (c', evt) → contract_wf c'.
Proof.
  intros Hc Hmsg (Hp & -> & Hkv & Hver & -> & _)%abortMigration_Ok.
  destruct (cw_keyspaceVersion _ Hc) as [Hkv0 Hkv1]. destruct (cw_version _ Hc) as [Hver0 _].
  split; try apply Hc.
  - destruct (cw_slots _ Hc). by split.
  - unfold primary_of, pulling_of, operators_of. cbn.
    pose proof (cw_primary _ Hc) as Hpri. unfold primary_of in Hpri. by rewrite decide_False in Hpri.
  - split; [done|]. done.
  - done.
  - cbn. split; lia.
  - cbn. split; lia.
  - cbn. rewrite wrap_small by apply Hmsg. apply Hmsg.
Qed.

Lemma addNodeOperator_wf msg c op c' evt :
  contract_wf c → addNodeOperator msg c op = Ok (c', evt) → contract_wf c'.
Proof.
  intros Hc (Hfull & Hne & Hidx & Hz & Hver & -> & _)%addNodeOperator_Ok.
  pose proof (cw_slots _ Hc) as Hs. destruct (cw_version _ Hc) as [Hver0 _].
  destruct (findFirstUnset_bits _ (sv_bitmask _ Hs) Hfull) as (Hi & Hout & _).
  destruct (bits_set _ _ (sv_bitmask _ Hs) Hi) as [_ Hbits].
  apply contract_wf_operators; [done|split; lia| | |].
  - by apply slots_valid_add.
  - rewrite Hbits. etrans; [apply (kv_known _ _ (cw_primary _ Hc))|]. set_solver.
  - intros Hp. rewrite Hbits. destruct (cw_secondary _ Hc Hp) as (Hsec & _).
    etrans; [apply (kv_known _ _ Hsec)|]. set_solver.
Qed.

Lemma updateNodeOperatorData_wf msg c addr data c' evt :
  contract_wf c → addr ≠ 0%Z → updateNodeOperatorData msg c addr data = Ok (c', evt) →
  contract_wf c'.
Proof.
  intros Hc Hne (Haddr & Hver & -> & _)%updateNodeOperatorData_Ok.
  pose proof (cw_slots _ Hc) as Hs. destruct (cw_version _ Hc) as [Hver0 _].
  apply contract_wf_operators; [done|split; lia| | |].
  - apply slots_valid_update; [done|by apply operator_slot|done].
  - apply (kv_known _ _ (cw_primary _ Hc)).
  - intros Hp. destruct (cw_secondary _ Hc Hp) as (Hsec & _). apply (kv_known _ _ Hsec).
Qed.

(** The removed operator is in no keyspace in use. *)
Lemma removeNodeOperator_unused c slotIdx :
  contract_wf c → fits 8 slotIdx →
  isSlotInKeyspace c slotIdx (c_keyspaceVersion c) = false →
  ((0 < pulling_of c)%Z → ∀ version, isSlotInKeyspace c slotIdx version = false) →
  slotIdx ∉ bits (sol_operatorBitmask (primary_of c)) ∧
  (pulling_of c ≠ 0%Z → slotIdx ∉ bits (sol_operatorBitmask (latest_of c))).
Proof.
  intros Hc Hi Hlast Hall. unfold isSlotInKeyspace in *. destruct (cw_pulling _ Hc) as [Hp0 _]. split.
  - rewrite <-bool_decide_eq_false, <-isSet_bits by (done || apply (cw_primary _ Hc)).
    unfold primary_of. case_decide as Hp; [done|]. apply Hall. lia.
  - intros Hp. destruct (cw_secondary _ Hc Hp) as (Hsec & _).
    rewrite <-bool_decide_eq_false, <-isSet_bits by (done || apply Hsec). done.
Qed.

Lemma removeNodeOperator_wf msg c addr c' evt :
  contract_wf c → addr ≠ 0%Z → removeNodeOperator msg c addr = Ok (c', evt) → contract_wf c'.
Proof.
  intros Hc Hne (Haddr & _ & Hlast & Hall & Hver & -> & _)%removeNodeOperator_Ok.
  pose proof (cw_slots _ Hc) as Hs. destruct (cw_version _ Hc) as [Hver0 _].
  pose proof (operator_slot _ _ Hs Hne Haddr) as Hin. pose proof (operators_fit _ _ Hin) as Hi.
  destruct (bits_unset _ _ (sv_bitmask _ Hs) Hi) as [_ Hbits].
  destruct (removeNodeOperator_unused _ _ Hc Hi Hlast Hall) as [Hpri Hsec].
  apply contract_wf_operators; [done|split; lia|by apply slots_valid_remove| |].
  - rewrite Hbits. pose proof (kv_known _ _ (cw_primary _ Hc)). set_solver.
  - intros Hp. rewrite Hbits. destruct (cw_secondary _ Hc Hp) as (Hv & _).
    pose proof (kv_known _ _ Hv). specialize (Hsec Hp). set_solver.
Qed.

Lemma contract_wf_maintenance c slot : contract_wf c → (c_version c + 1 < 2 ^ 128)%Z →
  contract_wf (set_c_maintenance c slot (c_version c + 1)).
Proof.
  intros Hc Hver. destruct (cw_version _ Hc) as [? _]. destruct Hc as [[] ? ? ? ? ? ? ? ? ?].
  split; try done. cbn. split; lia.
Qed.

Lemma updateSettings_wf msg c sc c' evt :
  contract_wf c → (∃ s, settings_try_from_sc sc = Ok s) →
  updateSettings msg c (settings_to_evm sc) = Ok (c', evt) → contract_wf c'.
Proof.
  intros Hc Hset (Hver & -> & _)%updateSettings_Ok. destruct (cw_version _ Hc) as [? _].
  destruct Hc as [[] ? ? ? ? ? ? ? ? ?]. split; try done. cbn. split; lia.
Qed.

Lemma evm_write_wf msg c call c' evt :
  contract_wf c → msg_sane msg → call_sane c call →
  evm_write msg c call = Some (Ok (c', evt)) → contract_wf c'.
Proof.
  intros Hc Hmsg Hsane. destruct call; cbn [evm_write]; intros [= Hcall].
  - by eapply startMigration_wf.
  - by eapply completeMigration_wf.
  - by eapply abortMigration_wf.
  - apply setMaintenance_Ok in Hcall as (_ & Hver & -> & _). by apply contract_wf_maintenance.
  - apply setMaintenance_Ok in Hcall as (_ & Hver & -> & _). by apply contract_wf_maintenance.
  - by eapply addNodeOperator_wf.
  - by eapply updateNodeOperatorData_wf.
  - by eapply removeNodeOperator_wf.
  - by eapply updateSettings_wf.
Qed.

(** ** Deployment *)

(** The state of the loop of [initialize] after the operators [dn]. *)
Record initializing (settings : SolSettings) (dn : list SolNodeOperator) c : Prop := {
  in_state : ∃ slots indexes bm, c = set_c_operators (zero_contract settings) slots indexes bm 0;
  in_slots : slots_valid c;
  in_operators : operators_of c = list_to_set (seqZ 0 (Z.of_nat (length dn)));
  in_addrs idx : idx ∈ operators_of c → sol_addr (slot_at c idx) ∈ sol_addr <$> dn;
}.

Lemma zero_initializing settings : initializing settings [] (zero_contract settings).
Proof.
  assert (operators_of (zero_contract settings) = ∅) as He by apply bits_zero.
  split.
  - by exists ∅, ∅, 0%Z.
  - split; [done| | |].
    + intros idx. rewrite He. set_solver.
    + done.
    + intros addr. unfold index_of. cbn. rewrite lookup_empty. done.
  - by rewrite He.
  - intros idx. rewrite He. set_solver.
Qed.

Lemma initializing_step settings dn c op :
  initializing settings dn c → length dn < 256 → sol_addr op ≠ 0%Z → sol_addr op ∉ sol_addr <$> dn →
  initializing settings (dn ++ [op])
    (set_c_operators c (<[Z.of_nat (length dn) := op]> (c_operatorSlots c))
       (<[sol_addr op := Z.of_nat (length dn)]> (c_operatorSlotIndexes c))
       (bm_set (c_operatorBitmask c) (Z.of_nat (length dn))) (c_version c)).
Proof.
  intros [(sl & ix & bm & Hc) Hs Hops Haddrs] Hlen Hne Hnew.
  assert (fits 8 (Z.of_nat (length dn))) as Hi
    by (unfold fits; change (2 ^ 8)%Z with 256%Z; lia).
  assert (Z.of_nat (length dn) ∉ operators_of c) as Hout.
  { rewrite Hops, elem_of_list_to_set, elem_of_seqZ. lia. }
  destruct (bits_set _ _ (sv_bitmask _ Hs) Hi) as [_ Hbits].
  assert (∀ idx, sol_addr (slot_at c idx) ≠ sol_addr op) as Hno.
  { intros idx Heq. destruct (decide (idx ∈ operators_of c)) as [Hin|Hin].
    - apply Hnew. rewrite <-Heq. by apply Haddrs.
    - rewrite (sv_unset _ Hs _ Hin) in Heq. done. }
  split.
  - subst c. eauto.
  - apply slots_valid_add; try done. destruct (decide (index_of c (sol_addr op) = 0%Z)) as [|Hnz]; [done|].
    destruct (sv_index _ Hs _ Hnz) as [_ Heq]. by destruct (Hno _ Heq).
  - unfold operators_of in *. cbn [c_operatorBitmask set_c_operators]. rewrite Hbits, Hops.
    apply set_eq. intros j. rewrite elem_of_union, elem_of_singleton, !elem_of_list_to_set, !elem_of_seqZ.
    rewrite length_app. cbn. lia.
  - intros idx. unfold operators_of. cbn [c_operatorBitmask set_c_operators]. rewrite Hbits.
    rewrite slot_at_insert, fmap_app, elem_of_app. case_decide as Heq.
    + intros _. right. by left.
    + intros [->%elem_of_singleton|Hin]%elem_of_union; [done|]. left. by apply Haddrs.
Qed.

Lemma initialize_loop_inv settings dn ops c c' :
  initializing settings dn c → length (dn ++ ops) ≤ 256 →
  NoDup (sol_addr <$> dn ++ ops) → 0%Z ∉ sol_addr <$> ops →
  initialize_loop c (Z.of_nat (length dn)) ops = Ok c' → initializing settings (dn ++ ops) c'.
Proof.
  revert dn c. induction ops as [|op ops IH]; intros dn c Hin Hlen Hnd Hz; cbn [initialize_loop].
  { intros <-%Ok_inj. by rewrite app_nil_r. }
  intros Hloop. call_inv. rewrite length_app in Hlen; cbn in Hlen.
  rewrite wrap_small in Hloop by (unfold fits; change (2 ^ 8)%Z with 256%Z; lia).
  rewrite fmap_app in Hnd. apply NoDup_app in Hnd as (Hnd1 & Hdis & Hnd2).
  cbn in Hz. apply not_elem_of_cons in Hz as [Hz0 Hz].
  replace (dn ++ op :: ops) with ((dn ++ [op]) ++ ops) by by rewrite <-app_assoc.
  eapply IH; [apply initializing_step; [done|lia|congruence|]| | |done|].
  - intros Hold. apply (Hdis _ Hold). cbn. left.
  - rewrite !length_app. cbn. lia.
  - rewrite <-app_assoc. rewrite fmap_app. by apply NoDup_app.
  - rewrite length_app, Nat2Z.inj_add. exact Hloop.
Qed.

Lemma initialize_wf sc operators c evt :
  (∃ s, settings_try_from_sc sc = Ok s) → (∃ t, parse_timestamp 0 = Ok t) →
  NoDup (sc_op_id <$> operators) → 0%Z ∉ sc_op_id <$> operators →
  evm_deploy sc operators = Ok (c, evt) →
  contract_wf c ∧ c_version c = 1%Z ∧ primary_of c = latest_of c ∧
  operators_of c = bits (sol_operatorBitmask (primary_of c)).
Proof.
  intros Hset Htime Hnd Hz. unfold evm_deploy, initialize. intros Hinit. call_inv.
  set (ops := operator_to_evm <$> operators) in *.
  assert (sol_addr <$> ops = sc_op_id <$> operators) as Haddrs.
  { unfold ops. rewrite <-list_fmap_compose. by apply list_fmap_ext. }
  assert (initializing (settings_to_evm sc) ops a1) as [(sl & ix & bm & ->) Hs Hops _].
  { apply (initialize_loop_inv _ [] ops _ _ (zero_initializing _)); cbn [app]; rewrite ?Haddrs;
      done || lia. }
  destruct (bits_fill (Z.of_nat (length ops)) ltac:(lia)) as [Hf Hbits].
  assert (keyspace_valid (bits bm)
    {| sol_operatorBitmask := bm_fill (Z.of_nat (length ops)); sol_replicationStrategy := 0%Z |}) as Hks.
  { split; cbn; [done|done| |]; rewrite Hbits; [by rewrite <-Hops|].
    rewrite size_list_to_set, length_seqZ by apply NoDup_seqZ. cbn in Hm0. lia. }
  split; [|split_and!; [done|done|]].
  - split; try done; by destruct Hs.
  - change (bits bm = bits (bm_fill (Z.of_nat (length ops)))). by rewrite Hbits, <-Hops.
Qed.
End contract_inv.
