(* ===== verification/Chain.v ===== *)
(** Chain: views follow the contract.

    [follows] says that a view shows the state of a contract: the same operators
    in the same slots, the same keyspaces, versions, settings, maintenance and
    migration.  A view read from the contract follows it, and the event of every
    call takes a view that follows the state before the call to one that follows
    the state after it, so that a node that reads the contract once and then
    applies its events always shows it.  This discharges [event_admissible]. *)
From S2P Require Import Prelude External Sharding SmartContract NodeOperator NodeOperators.
From S2P Require Import Keyspace Settings Migration View ViewInvariant Cluster.
From S2P Require Import Contract Evm ContractBits ContractInv.
From stdpp Require Import prelude gmap sets list strings.

Lemma singleton_of_difference (s : gset Z) x : x ∈ s → s ∖ {[x]} = ∅ → s = {[x]}.
Proof.
  intros Hx He. apply set_eq. intros j. rewrite elem_of_singleton. split; [|by intros ->].
  intros Hj. destruct (decide (j = x)) as [|Hne]; [done|].
  assert (j ∈ s ∖ {[x]}) as Hd; [|by rewrite He in Hd].
  apply elem_of_difference. split; [done|]. by rewrite elem_of_singleton.
Qed.

Section chain.
Context `{PeerIds, Ff1Laws, HashingLaws, UnixTime, LibBitLaws}.
Context `{!Postcard DataV0, !Postcard DataV1, !Postcard ExtraV0, !Postcard ExtraV1}.
Context `{!PostcardLaws DataV0, !PostcardLaws DataV1, !PostcardLaws ExtraV0, !PostcardLaws ExtraV1}.
Context {N S : Type} `{!Config N, !Calculate S, !CalculateSpec S}.
Implicit Types c : Contract.
Implicit Types v : View N S.
Implicit Types ops : NodeOperators N.

(** * The relation *)

(** The operator decoded from a slot, up to its load-balancing counter. *)
Definition operator_follows (sol : SolNodeOperator) (op : NodeOperator N) : Prop :=
  ∃ counter, operator_from_sc (E := Empty_set) (operator_of_evm sol) = Ok (op_with_counter op counter).

Record operators_follow c ops : Prop := {
  of_set idx : idx ∈ operators_of c →
    ∃ op, get_by_idx ops idx = Some op ∧ operator_follows (slot_at c idx) op;
  of_unset idx : (0 ≤ idx)%Z → idx ∉ operators_of c → get_by_idx ops idx = None;
}.

Record migration_follows c (m : Migration S) : Prop := {
  mf_id : mig_id m = sol_mig_id (c_migration c);
  mf_started : parse_timestamp (sol_startedAt (c_migration c)) = Ok (mig_started_at m);
  mf_idle : pulling_of c = 0%Z → is_in_progress m = false;
  mf_pulling : pulling_of c ≠ 0%Z →
    ∃ ks, mig_state m = Started ks (bits (pulling_of c)) ∧
      keyspace_into_sc ks = keyspace_of_evm (latest_of c);
}.

Record follows c v : Prop := {
  fo_operators : operators_follow c (v_node_operators v);
  fo_settings : settings_try_from_sc (settings_of_evm (c_settings c)) = Ok (v_settings v);
  fo_keyspace : keyspace_into_sc (v_keyspace v) = keyspace_of_evm (primary_of c);
  fo_keyspace_version : v_keyspace_version v = c_keyspaceVersion c;
  fo_migration : migration_follows c (v_migration v);
  fo_maintenance : v_maintenance v =
    if decide (c_maintenanceSlot c = 0%Z) then None
    else Some {| maintenance_slot := c_maintenanceSlot c |};
  fo_version : v_cluster_version v = c_version c;
}.

(** * Operators *)

Lemma operator_from_sc_any {E E'} sc (op : NodeOperator N) :
  operator_from_sc (E := E) sc = Ok op → operator_from_sc (E := E') sc = Ok op.
Proof.
  unfold operator_from_sc. destruct (operator_try_from_sc sc); [|intros <-%Ok_inj|]; congruence.
Qed.

(** Decoding gives an operator that follows its slot. *)
Lemma operator_from_sc_follows {E} sol :
  ∃ op : NodeOperator N, operator_from_sc (E := E) (operator_of_evm sol) = Ok op ∧ op_wf op ∧
    op_id op = sol_addr sol ∧ operator_follows sol op.
Proof.
  destruct (operator_from_sc_wf (N := N) (E := E) (operator_of_evm sol)) as (op & Hop & Hwf & Hid).
  exists op. split_and!; [done|done|done|]. exists (op_counter op).
  rewrite (operator_from_sc_any (E' := Empty_set) _ _ Hop). by destruct op.
Qed.

Lemma operator_follows_id sol (op : NodeOperator N) : operator_follows sol op → op_id op = sol_addr sol.
Proof.
  intros [cnt Hop]. destruct (operator_from_sc_wf (N := N) (E := Empty_set) (operator_of_evm sol))
    as (op' & Hop' & _ & Hid). rewrite Hop in Hop'. apply Ok_inj in Hop' as <-. exact Hid.
Qed.

Section operators.
Context (c : Contract) (ops : NodeOperators N).
Context (Hs : slots_valid c) (Hops : ops_wf ops) (Hf : operators_follow c ops).

Lemma follow_get_idx addr :
  addr ≠ 0%Z → sol_addr (slot_at c (index_of c addr)) = addr →
  get_idx ops addr = Some (index_of c addr).
Proof.
  intros Hne Haddr. pose proof (operator_slot _ _ Hs Hne Haddr) as Hin.
  destruct (of_set _ _ Hf _ Hin) as (op & Hop & Hid%operator_follows_id).
  apply get_idx_Some; [done|]. split; [apply (operators_fit _ _ Hin)|].
  exists op. split; [done|congruence].
Qed.

Lemma follow_get_by_idx idx op :
  (0 ≤ idx)%Z → get_by_idx ops idx = Some op →
  idx ∈ operators_of c ∧ op_id op = sol_addr (slot_at c idx).
Proof.
  intros Hidx Hop. destruct (decide (idx ∈ operators_of c)) as [Hin|Hout].
  - split; [done|]. destruct (of_set _ _ Hf _ Hin) as (op' & Hop' & Hid%operator_follows_id).
    congruence.
  - rewrite (of_unset _ _ Hf _ Hidx Hout) in Hop. done.
Qed.

Lemma follow_get_idx_None addr :
  (∀ idx, idx ∈ operators_of c → sol_addr (slot_at c idx) ≠ addr) → get_idx ops addr = None.
Proof.
  intros Hnone. destruct (get_idx ops addr) as [idx|] eqn:Hidx; [|done].
  apply get_idx_Some in Hidx as (Hnn & op & Hop & Hid); [|done].
  destruct (follow_get_by_idx _ _ Hnn Hop) as [Hin Heq]. destruct (Hnone idx Hin). congruence.
Qed.

Lemma follow_contains_idx idx : idx ∈ operators_of c → contains_idx ops idx = true.
Proof. intros Hin. destruct (of_set _ _ Hf _ Hin) as (op & Hop & _). unfold contains_idx. by rewrite Hop. Qed.

(** The first free slot of the contract is at most one past the slots of the view. *)
Lemma follow_length idx :
  (0 ≤ idx)%Z → (∀ j, (0 ≤ j < idx)%Z → j ∈ operators_of c) →
  (idx ≤ Z.of_nat (length (slots ops)))%Z.
Proof.
  intros Hidx Hall. destruct (decide (idx = 0%Z)) as [->|Hne]; [lia|].
  destruct (of_set _ _ Hf (idx - 1)%Z (Hall (idx - 1)%Z ltac:(lia))) as (op & Hop & _).
  apply get_by_idx_Some, lookup_lt_Some in Hop. lia.
Qed.
End operators.

(** A slot is filled or emptied on both sides. *)
Lemma operators_follow_set {E} c ops idx (slot : option (NodeOperator N)) c' :
  ops_wf ops → operators_follow c ops → fits 8 idx →
  (idx ≤ Z.of_nat (length (slots ops)))%Z → slot_free_for ops idx slot →
  (∀ j, j ≠ idx → slot_at c' j = slot_at c j ∧ (j ∈ operators_of c' ↔ j ∈ operators_of c)) →
  match slot with
  | Some op => idx ∈ operators_of c' ∧ operator_follows (slot_at c' idx) op
  | None => idx ∉ operators_of c'
  end →
  ∃ ops', ops_set (E := E) ops idx slot = Ok ops' ∧ operators_follow c' ops'.
Proof.
  intros Hwf Hf Hidx Hlen Hfree Hothers Hslot.
  pose proof (ops_set_update (E := E) ops idx slot Hwf Hidx Hfree) as Hupd.
  rewrite decide_True in Hupd by done. destruct Hupd as (ops' & Hset & _ & Hget & Hsame & _).
  exists ops'. split; [done|]. split.
  - intros j Hj. destruct (decide (j = idx)) as [->|Hne].
    + destruct slot as [op|]; [|done]. rewrite Hget. exists op. split; [done|apply Hslot].
    + destruct (Hothers j Hne) as [-> Hiff]. apply Hiff in Hj as Hj'.
      rewrite Hsame by (done || apply (operators_fit _ _ Hj)). by apply (of_set _ _ Hf).
  - intros j Hnn Hj. destruct (decide (j = idx)) as [->|Hne].
    + destruct slot as [op|]; [by destruct Hslot|done].
    + rewrite Hsame by done. apply (of_unset _ _ Hf); [done|]. by rewrite <-(proj2 (Hothers j Hne)).
Qed.

(** * Keyspaces and migrations *)

Lemma list_to_set_hashset_iter (s : gset Z) : list_to_set (hashset_iter s) = s.
Proof.
  apply set_eq. intros i. by rewrite elem_of_list_to_set, hashset_iter_perm, elem_of_elements.
Qed.

(** A keyspace of the contract decodes. *)
Lemma keyspace_valid_decodes operators ks :
  keyspace_valid operators ks →
  ∃ ks0, keyspace_try_from_sc (keyspace_of_evm ks) = Ok ks0 ∧ ks_wf ks0 ∧
    ks_operators ks0 = bits (sol_operatorBitmask ks) ∧ keyspace_into_sc ks0 = keyspace_of_evm ks.
Proof.
  intros [Hf Hst _ Hsize].
  set (ks0 := {| ks_operators := bits (sol_operatorBitmask ks); ks_shards := ();
                 ks_replication_strategy := UniformDistribution |}).
  assert (ks_wf ks0) as Hwf.
  { unfold ks_wf, REPLICATION_FACTOR, MAX_KEYSPACE_OPERATORS. cbn [ks_operators ks0].
    unfold MIN_OPERATORS in Hsize. split; [done|apply size_bits]. }
  exists ks0. split_and!; [|done|done|].
  - unfold keyspace_try_from_sc, strategy_try_from. cbn [keyspace_of_evm sc_ks_replication_strategy
      sc_ks_operators]. rewrite Hst, decide_True, bitmask_to_hashset_bits by done. cbn [ok_or mbind res_bind].
    by rewrite (proj2 (keyspace_new_Ok _ _ ks0) (conj eq_refl Hwf)).
  - unfold keyspace_into_sc, keyspace_of_evm. rewrite bitmask_to_hashset_bits, Hst. done.
Qed.

Lemma keyspace_into_sc_operators (ks : Keyspace S) sol :
  keyspace_into_sc ks = keyspace_of_evm sol → ks_operators ks = bits (sol_operatorBitmask sol).
Proof. intros [= -> _]. apply bitmask_to_hashset_bits. Qed.

(** A calculated keyspace shows what the plain one does. *)
Lemma calculate_into_sc {E} ks0 :
  ks_wf ks0 → ∃ ks : Keyspace S, calculate_shards (E := E) ks0 = Ok ks ∧
    keyspace_into_sc ks = keyspace_into_sc ks0.
Proof.
  intros Hwf. destruct (calculate_shards_ok E ks0 Hwf) as (ks & Hcalc & Hops & Hst & _).
  exists ks. split; [done|]. unfold keyspace_into_sc. by rewrite Hops, Hst.
Qed.

(** Parts of the contract that a migration step leaves alone. *)
Lemma operators_follow_migration c ks kv mig ver ops :
  operators_follow c ops → operators_follow (set_c_migration c ks kv mig ver) ops.
Proof. intros []. by split. Qed.

(** * Events *)

(** The event takes a view that follows the old state to one that follows the
    new state. *)
Definition tracks c' v (event : Event) : Prop :=
  event_admissible v event ∧ ∃ v', apply_event v event = Ok v' ∧ follows c' v'.

Section steps.
Context (c : Contract) (v : View N S) (Hc : contract_wf c) (Hv : view_wf v) (Hf : follows c v).
Context (msg : Msg) (Hmsg : msg_sane msg).

Lemma version_step : (c_version c + 1 < 2 ^ 128)%Z → wrap 128 (v_cluster_version v + 1) = (c_version c + 1)%Z.
Proof.
  intros Hver. rewrite (fo_version _ _ Hf). apply wrap_small. destruct (cw_version _ Hc). split; lia.
Qed.

Ltac by_event Hver Happ :=
  eexists; split; [unfold apply_event; cbn [event_cluster_version ms_cluster_version
    mdpc_cluster_version mc_cluster_version ma_cluster_version mts_cluster_version
    mtf_cluster_version noa_cluster_version nou_cluster_version nor_cluster_version
    su_cluster_version]; rewrite (version_step Hver), decide_False by tauto; rewrite Happ; reflexivity|].

Lemma no_migration_step : pulling_of c = 0%Z → require_no_migration v = Ok ().
Proof. intros Hp. unfold require_no_migration. by rewrite (mf_idle _ _ (fo_migration _ _ Hf) Hp). Qed.

Lemma no_maintenance_step : c_maintenanceSlot c = 0%Z → require_no_maintenance v = Ok ().
Proof.
  intros Hm. unfold require_no_maintenance. rewrite (fo_maintenance _ _ Hf), decide_True by done. done.
Qed.

Lemma migration_step : pulling_of c ≠ 0%Z → require_migration v = Ok (v_migration v).
Proof.
  intros Hp. destruct (mf_pulling _ _ (fo_migration _ _ Hf) Hp) as (ks & Hst & _).
  unfold require_migration, is_in_progress. by rewrite Hst.
Qed.

(** The keyspace of a call to start a migration passes the checks of the view. *)
Lemma new_keyspace_step sc :
  pulling_of c = 0%Z → keyspace_valid (operators_of c) (keyspace_to_evm sc) →
  sol_operatorBitmask (latest_of c) ≠ sol_operatorBitmask (keyspace_to_evm sc) ∨
  sol_replicationStrategy (latest_of c) ≠ sol_replicationStrategy (keyspace_to_evm sc) →
  ∃ ks0, keyspace_try_from_sc (keyspace_of_evm (keyspace_to_evm sc)) = Ok ks0 ∧ ks_wf ks0 ∧
    ks_validate ks0 (v_node_operators v) = Ok () ∧ require_diff (v_keyspace v) ks0 = Ok () ∧
    keyspace_into_sc ks0 = keyspace_of_evm (keyspace_to_evm sc).
Proof.
  intros Hp Hnew Hdiff.
  destruct (keyspace_valid_decodes _ _ Hnew) as (ks0 & Hdec & Hwf0 & Hops0 & Hinto).
  exists ks0. split_and!; [done|done| | |done].
  - apply ks_validate_Ok. intros idx. rewrite Hops0. intros Hin.
    apply (follow_contains_idx c); [apply (fo_operators _ _ Hf)|]. by apply (kv_known _ _ Hnew).
  - unfold require_diff. rewrite decide_False; [done|]. intros [Hops _].
    assert (primary_of c = latest_of c) as Hpri by (unfold primary_of; by rewrite decide_True).
    rewrite (keyspace_into_sc_operators _ _ (fo_keyspace _ _ Hf)), Hpri, Hops0 in Hops.
    pose proof (cw_primary _ Hc) as Hprv. rewrite Hpri in Hprv.
    apply bits_inj in Hops; [|apply Hprv|apply Hnew].
    destruct Hdiff as [?|Hs]; [done|]. apply Hs. rewrite (kv_strategy _ _ Hprv). symmetry. apply Hnew.
Qed.

Lemma started_applies sc :
  pulling_of c = 0%Z → c_maintenanceSlot c = 0%Z →
  keyspace_valid (operators_of c) (keyspace_to_evm sc) →
  sol_operatorBitmask (latest_of c) ≠ sol_operatorBitmask (keyspace_to_evm sc) ∨
  sol_replicationStrategy (latest_of c) ≠ sol_replicationStrategy (keyspace_to_evm sc) →
  ∃ ks t, keyspace_into_sc ks = keyspace_of_evm (keyspace_to_evm sc) ∧
    parse_timestamp (block_timestamp msg) = Ok t ∧
    ∀ id ver, apply_MigrationStarted {| ms_migration_id := id;
        ms_new_keyspace := keyspace_of_evm (keyspace_to_evm sc); ms_at := block_timestamp msg;
        ms_cluster_version := ver |} v =
      Ok (set_keyspaces v (v_keyspace v) (u64_add (v_keyspace_version v) 1)
            {| mig_id := id; mig_started_at := t;
               mig_state := Started ks (bits (sol_operatorBitmask (keyspace_to_evm sc))) |}).
Proof.
  intros Hp Hmaint Hnew Hdiff.
  destruct (new_keyspace_step sc Hp Hnew Hdiff) as (ks0 & Hdec & Hwf0 & Hval & Hdiff' & Hinto).
  destruct (calculate_into_sc (E := view_error) ks0 Hwf0) as (ks & Hcalc & Hks).
  assert (ks_operators ks = bits (sol_operatorBitmask (keyspace_to_evm sc))) as Hkso.
  { apply keyspace_into_sc_operators. congruence. }
  destruct (ms_date _ Hmsg) as [t Ht]. exists ks, t. split_and!; [congruence|done|]. intros id ver.
  unfold apply_MigrationStarted. rewrite no_migration_step, no_maintenance_step by done.
  cbn [map_err mbind res_bind ms_new_keyspace]. rewrite Hdec. cbn [map_err mbind res_bind].
  rewrite Hval. cbn [map_err mbind res_bind]. rewrite Hdiff'. cbn [map_err mbind res_bind].
  rewrite Hcalc. cbn [mbind res_bind ms_at]. rewrite Ht. unfold ks_operators_iter.
  by rewrite list_to_set_hashset_iter, Hkso.
Qed.

Lemma tracks_startMigration sc c' evt :
  call_sane c (CallStartMigration sc) →
  startMigration msg c (keyspace_to_evm sc) = Ok (c', evt) →
  tracks c' v (from_migration_started (sol_mig_id (c_migration c) + 1) (keyspace_to_evm sc)
    (c_version c + 1) (block_timestamp msg)).
Proof.
  intros [Hty Hst] (Hmaint & Hp & Hmin & Hsub & Hdiff & Hkv & Hver & -> & _)%startMigration_Ok.
  pose proof (keyspace_to_evm_valid _ _ Hc Hty Hst Hmin Hsub) as Hnew.
  pose proof (keyspace_valid_nonzero _ _ Hnew) as Hnz.
  assert (pulling_of c = 0%Z) as Hp0 by (pose proof (proj1 (cw_pulling _ Hc)); lia).
  destruct (cw_keyspaceVersion _ Hc) as [Hkv0 _].
  destruct (started_applies sc Hp0 Hmaint Hnew Hdiff) as (ks & t & Hks & Ht & Happ).
  split.
  { intros idx. cbn. rewrite bitmask_to_hashset_bits, elem_of_bits. by intros [? _]. }
  unfold from_migration_started. by_event Hver Happ.
  destruct Hf as [Hfo Hfs Hfk Hfkv Hfm Hfma Hfve]. split; cbn [v_node_operators v_settings v_keyspace
    v_keyspace_version v_migration v_maintenance v_cluster_version set_cluster_version set_keyspaces];
    try done.
  - by apply operators_follow_migration.
  - rewrite Hfk. unfold primary_of, pulling_of in *. cbn. rewrite Hp0, decide_True by done.
    by rewrite decide_False, Z.add_simpl_r, keyspace_at_set_prev by done.
  - cbn. rewrite Hfkv. apply wrap_small. split; lia.
  - split; cbn; [done| |done|].
    + rewrite wrap_small by apply Hmsg. done.
    + intros _. exists ks. unfold latest_of; cbn. by rewrite keyspace_at_set.
Qed.

(** The operator that reports a finished pull, as the view sees it. *)
Lemma pulling_step :
  pulling_of c ≠ 0%Z → sol_addr (slot_at c (index_of c (msg_sender msg))) = msg_sender msg →
  bm_isSet (pulling_of c) (index_of c (msg_sender msg)) = true →
  let idx := index_of c (msg_sender msg) in
  ∃ ks, mig_state (v_migration v) = Started ks (bits (pulling_of c)) ∧
    keyspace_into_sc ks = keyspace_of_evm (latest_of c) ∧ fits 8 idx ∧ idx ∈ bits (pulling_of c) ∧
    require_idx (v_node_operators v) (msg_sender msg) = Ok idx ∧
    require_migration v = Ok (v_migration v) ∧
    require_id (v_migration v) (sol_mig_id (c_migration c)) = Ok () ∧
    require_pulling (v_migration v) idx = Ok ().
Proof.
  intros Hp Haddr Hset idx. pose proof (ms_sender _ Hmsg) as Hne.
  pose proof (operators_fit _ _ (operator_slot _ _ (cw_slots _ Hc) Hne Haddr)) as Hi.
  destruct (mf_pulling _ _ (fo_migration _ _ Hf) Hp) as (ks & Hst & Hks).
  rewrite isSet_bits, bool_decide_eq_true in Hset by (done || apply Hc).
  exists ks. split_and!; [done|done|done|done| | | |].
  - unfold require_idx. rewrite (follow_get_idx c); [done|apply Hc|apply Hv|apply Hf|done|done].
  - by apply migration_step.
  - apply require_id_Ok. symmetry. apply (mf_id _ _ (fo_migration _ _ Hf)).
  - apply require_pulling_Ok. eauto.
Qed.

(** The state of the contract after a finished pull. *)
Definition pulled (id : Z) : Contract :=
  set_c_migration c (c_keyspaces c) (c_keyspaceVersion c)
    {| sol_mig_id := id; sol_startedAt := sol_startedAt (c_migration c);
       sol_abortedAt := sol_abortedAt (c_migration c);
       sol_pullingOperatorBitmask := bm_unset (pulling_of c) (index_of c (msg_sender msg)) |}
    (c_version c + 1).

Lemma tracks_pull_completed :
  let id := sol_mig_id (c_migration c) in
  pulling_of c ≠ 0%Z → sol_addr (slot_at c (index_of c (msg_sender msg))) = msg_sender msg →
  bm_isSet (pulling_of c) (index_of c (msg_sender msg)) = true → (c_version c + 1 < 2 ^ 128)%Z →
  bm_unset (pulling_of c) (index_of c (msg_sender msg)) ≠ 0%Z →
  tracks (pulled id) v (from_migration_data_pull_completed id (msg_sender msg) (c_version c + 1)).
Proof.
  intros id Hp Haddr Hset Hver Hleft. subst id.
  destruct (pulling_step Hp Haddr Hset) as (ks & Hst & Hks & Hi & Hin & Hidx & Hmig & Hid & Hpull).
  destruct (bits_unset _ _ (cw_pulling _ Hc) Hi) as [_ Hbits].
  split; [done|]. assert (apply_MigrationDataPullCompleted {| mdpc_migration_id := sol_mig_id (c_migration c);
    mdpc_operator_id := msg_sender msg; mdpc_cluster_version := c_version c + 1 |} v =
    Ok (set_keyspaces v (v_keyspace v) (v_keyspace_version v)
      (complete_pull (v_migration v) (index_of c (msg_sender msg))))) as Happ.
  { unfold apply_MigrationDataPullCompleted. cbn [mdpc_operator_id mdpc_migration_id].
    rewrite Hidx, Hmig. cbn [map_err mbind res_bind]. rewrite Hid. cbn [map_err mbind res_bind].
    by rewrite Hpull. }
  unfold from_migration_data_pull_completed. by_event Hver Happ. unfold complete_pull. rewrite Hst.
  destruct Hf as [Hfo Hfs Hfk Hfkv [Hmi Hms Hm0 Hm1] Hfma Hfve].
  split; cbn [v_node_operators v_settings v_keyspace v_keyspace_version v_migration v_maintenance
    v_cluster_version set_cluster_version set_keyspaces]; try done.
  - by apply operators_follow_migration.
  - rewrite Hfk. unfold primary_of. cbn. by rewrite !decide_False.
  - split; cbn; [done|done|done|]. intros _. exists ks. unfold pulling_of at 1; cbn. by rewrite Hbits.
Qed.

Lemma tracks_completed :
  let id := sol_mig_id (c_migration c) in
  pulling_of c ≠ 0%Z → sol_addr (slot_at c (index_of c (msg_sender msg))) = msg_sender msg →
  bm_isSet (pulling_of c) (index_of c (msg_sender msg)) = true → (c_version c + 1 < 2 ^ 128)%Z →
  bm_unset (pulling_of c) (index_of c (msg_sender msg)) = 0%Z →
  tracks (pulled id) v (from_migration_completed id (msg_sender msg) (c_version c + 1)).
Proof.
  intros id Hp Haddr Hset Hver Hlast. subst id.
  destruct (pulling_step Hp Haddr Hset) as (ks & Hst & Hks & Hi & Hin & Hidx & Hmig & Hid & Hpull).
  destruct (bits_unset _ _ (cw_pulling _ Hc) Hi) as [_ Hbits]. rewrite Hlast, bits_zero in Hbits.
  assert (require_pulling_count (v_migration v) 1 = Ok ()) as Hcount.
  { unfold require_pulling_count, pulling_count. rewrite Hst, decide_True; [done|].
    rewrite (singleton_of_difference _ _ Hin (eq_sym Hbits)). apply size_singleton. }
  split; [done|]. assert (apply_MigrationCompleted {| mc_migration_id := sol_mig_id (c_migration c);
    mc_operator_id := msg_sender msg; mc_cluster_version := c_version c + 1 |} v =
    Ok (set_keyspaces v ks (v_keyspace_version v) {| mig_id := mig_id (v_migration v);
      mig_started_at := mig_started_at (v_migration v); mig_state := Completed |})) as Happ.
  { unfold apply_MigrationCompleted. cbn [mc_operator_id mc_migration_id].
    rewrite Hidx, Hmig. cbn [map_err mbind res_bind]. rewrite Hid. cbn [map_err mbind res_bind].
    rewrite Hpull. cbn [map_err mbind res_bind]. rewrite Hcount. cbn [map_err mbind res_bind].
    unfold mig_complete. by rewrite Hst. }
  unfold from_migration_completed. by_event Hver Happ.
  destruct Hf as [Hfo Hfs Hfk Hfkv [Hmi Hms Hm0 Hm1] Hfma Hfve].
  split; cbn [v_node_operators v_settings v_keyspace v_keyspace_version v_migration v_maintenance
    v_cluster_version set_cluster_version set_keyspaces]; try done.
  - by apply operators_follow_migration.
  - rewrite Hks. unfold primary_of. cbn. by rewrite decide_True.
Qed.

Lemma tracks_abortMigration id c' evt :
  abortMigration msg c id = Ok (c', evt) →
  tracks c' v (from_migration_aborted id (c_version c + 1) (block_timestamp msg)).
Proof.
  intros (Hp & -> & Hkv & Hver & -> & _)%abortMigration_Ok.
  destruct (ms_date _ Hmsg) as [t Ht]. destruct (cw_keyspaceVersion _ Hc) as [_ Hkv1].
  split; [done|]. assert (apply_MigrationAborted {| ma_migration_id := sol_mig_id (c_migration c);
    ma_at := block_timestamp msg; ma_cluster_version := c_version c + 1 |} v =
    Ok (set_keyspaces v (v_keyspace v) (u64_sub (v_keyspace_version v) 1)
      {| mig_id := mig_id (v_migration v); mig_started_at := mig_started_at (v_migration v);
         mig_state := Aborted t |})) as Happ.
  { unfold apply_MigrationAborted. rewrite (migration_step Hp). cbn [map_err mbind res_bind ma_migration_id].
    rewrite (proj2 (require_id_Ok _ _)) by (symmetry; apply (mf_id _ _ (fo_migration _ _ Hf))).
    cbn [map_err mbind res_bind ma_at]. by rewrite Ht. }
  unfold from_migration_aborted. by_event Hver Happ.
  destruct Hf as [Hfo Hfs Hfk Hfkv [Hmi Hms Hm0 Hm1] Hfma Hfve].
  split; cbn [v_node_operators v_settings v_keyspace v_keyspace_version v_migration v_maintenance
    v_cluster_version set_cluster_version set_keyspaces]; try done.
  - by apply operators_follow_migration.
  - rewrite Hfk. unfold primary_of. cbn. by rewrite decide_False.
  - cbn. rewrite Hfkv. apply wrap_small. split; lia.
Qed.

(** A change of the operators leaves the rest of the relation alone. *)
Lemma follows_operators slots indexes bm ops' :
  operators_follow (set_c_operators c slots indexes bm (c_version c + 1)) ops' →
  follows (set_c_operators c slots indexes bm (c_version c + 1))
    (set_cluster_version (set_node_operators v ops') (c_version c + 1)).
Proof.
  intros Hops. destruct Hf as [Hfo Hfs Hfk Hfkv [Hmi Hms Hm0 Hm1] Hfma Hfve]. split; try done.
Qed.

Lemma tracks_addNodeOperator op c' evt :
  addNodeOperator msg c op = Ok (c', evt) →
  tracks c' v (from_node_operator_added (sol_addr op) (bm_findFirstUnset (c_operatorBitmask c))
    (sol_data op) (c_version c + 1)).
Proof.
  intros (Hfull & Hne & Hidx & Hz & Hver & -> & _)%addNodeOperator_Ok.
  pose proof (cw_slots _ Hc) as Hs. set (i := bm_findFirstUnset (c_operatorBitmask c)) in *.
  destruct (findFirstUnset_bits _ (sv_bitmask _ Hs) Hfull) as (Hi & Hout & Hbelow).
  destruct (bits_set _ _ (sv_bitmask _ Hs) Hi) as [_ Hbits]. fold i in Hi, Hout, Hbelow, Hbits.
  assert (i ≤ Z.of_nat (length (slots (v_node_operators v))))%Z as Hlen.
  { apply (follow_length c); [apply Hf|apply Hi|done]. }
  split; [by split|].
  destruct (operator_from_sc_follows (E := view_error) op) as (nop & Hdec & _ & Hid & Hfol).
  assert (get_idx (v_node_operators v) (sol_addr op) = None) as Hnone.
  { apply (follow_get_idx_None c); [apply Hv|apply Hf|]. by apply operator_new. }
  destruct (operators_follow_set (E := view_error) c (v_node_operators v) i (Some nop)
    (set_c_operators c (<[i := op]> (c_operatorSlots c)) (<[sol_addr op := i]> (c_operatorSlotIndexes c))
       (bm_set (c_operatorBitmask c) i) (c_version c + 1))) as (ops' & Hset & Hfol');
    [apply Hv|apply Hf|done|done|left; by rewrite Hid| | |].
  { intros j Hj. rewrite slot_at_insert, decide_False by done. split; [done|]. unfold operators_of; cbn.
    rewrite Hbits, elem_of_union, elem_of_singleton. tauto. }
  { rewrite slot_at_insert, decide_True by done. split; [|done]. unfold operators_of; cbn.
    rewrite Hbits, elem_of_union, elem_of_singleton. by left. }
  assert (apply_NodeOperatorAdded {| noa_idx := i; noa_operator := operator_of_evm
    {| sol_addr := sol_addr op; sol_data := sol_data op |}; noa_cluster_version := c_version c + 1 |} v =
    Ok (set_node_operators v ops')) as Happ; [|unfold from_node_operator_added; by_event Hver Happ;
      by apply follows_operators].
  unfold apply_NodeOperatorAdded, require_not_exists, require_free_slot, ops_contains, contains_idx.
  cbn [noa_operator noa_idx sc_op_id operator_of_evm sol_addr]. rewrite Hnone.
  rewrite (of_unset _ _ (fo_operators _ _ Hf)); [|apply Hi|done]. cbn [map_err mbind res_bind].
  destruct op as [addr data]. cbn in Hdec |- *. rewrite Hdec. cbn [mbind res_bind]. by rewrite Hset.
Qed.

(** The slot of an operator the contract knows. *)
Lemma known_operator_step addr :
  addr ≠ 0%Z → sol_addr (slot_at c (index_of c addr)) = addr →
  index_of c addr ∈ operators_of c ∧ fits 8 (index_of c addr) ∧
  get_idx (v_node_operators v) addr = Some (index_of c addr) ∧
  (index_of c addr ≤ Z.of_nat (length (slots (v_node_operators v))))%Z.
Proof.
  intros Hne Haddr. pose proof (operator_slot _ _ (cw_slots _ Hc) Hne Haddr) as Hin.
  assert (get_idx (v_node_operators v) addr = Some (index_of c addr)) as Hidx.
  { apply (follow_get_idx c); [apply Hc|apply Hv|apply Hf|done|done]. }
  destruct (get_idx_fits _ _ _ (vw_ops _ Hv) Hidx) as [? ?]. split_and!; [done|done|done|lia].
Qed.

Lemma tracks_updateNodeOperatorData addr data c' evt :
  addr ≠ 0%Z → updateNodeOperatorData msg c addr data = Ok (c', evt) →
  tracks c' v (from_node_operator_updated addr data (c_version c + 1)).
Proof.
  intros Hne (Haddr & Hver & -> & _)%updateNodeOperatorData_Ok.
  destruct (known_operator_step addr Hne Haddr) as (Hin & Hi & Hidx & Hlen). split; [done|].
  set (op := {| sol_addr := addr; sol_data := data |}).
  destruct (operator_from_sc_follows (E := view_error) op) as (nop & Hdec & _ & Hid & Hfol).
  destruct (operators_follow_set (E := view_error) c (v_node_operators v) (index_of c addr) (Some nop)
    (set_c_operators c (<[index_of c addr := op]> (c_operatorSlots c)) (c_operatorSlotIndexes c)
       (c_operatorBitmask c) (c_version c + 1))) as (ops' & Hset & Hfol');
    [apply Hv|apply Hf|done|done|right; by rewrite Hid| | |].
  { intros j Hj. by rewrite slot_at_insert, decide_False by done. }
  { by rewrite slot_at_insert, decide_True by done. }
  assert (apply_NodeOperatorUpdated {| nou_operator := operator_of_evm op;
    nou_cluster_version := c_version c + 1 |} v = Ok (set_node_operators v ops')) as Happ;
    [|unfold from_node_operator_updated; fold op; by_event Hver Happ; by apply follows_operators].
  unfold apply_NodeOperatorUpdated, require_idx. cbn [nou_operator sc_op_id operator_of_evm sol_addr op].
  rewrite Hidx. cbn [ok_or map_err mbind res_bind]. cbn in Hdec |- *. rewrite Hdec.
  cbn [mbind res_bind]. by rewrite Hset.
Qed.

Lemma tracks_removeNodeOperator addr c' evt :
  addr ≠ 0%Z → removeNodeOperator msg c addr = Ok (c', evt) →
  tracks c' v (from_node_operator_removed addr (c_version c + 1)).
Proof.
  intros Hne (Haddr & _ & Hlast & Hall & Hver & -> & _)%removeNodeOperator_Ok.
  destruct (known_operator_step addr Hne Haddr) as (Hin & Hi & Hidx & Hlen).
  destruct (removeNodeOperator_unused _ _ Hc Hi Hlast Hall) as [Hpri Hsec].
  destruct (bits_unset _ _ (sv_bitmask _ (cw_slots _ Hc)) Hi) as [_ Hbits]. split.
  { intros idx Hget. cbn in Hget. rewrite Hidx in Hget. injection Hget as <-. split.
    - by rewrite (keyspace_into_sc_operators _ _ (fo_keyspace _ _ Hf)).
    - intros ks p Hst. destruct (decide (pulling_of c = 0%Z)) as [Hp|Hp].
      + pose proof (mf_idle _ _ (fo_migration _ _ Hf) Hp) as Hidle.
        unfold is_in_progress in Hidle. by rewrite Hst in Hidle.
      + destruct (mf_pulling _ _ (fo_migration _ _ Hf) Hp) as (ks' & Hst' & Hks').
        rewrite Hst in Hst'. injection Hst' as <- _.
        rewrite (keyspace_into_sc_operators _ _ Hks'). by apply Hsec. }
  destruct (operators_follow_set (E := view_error) c (v_node_operators v) (index_of c addr) None
    (set_c_operators c (delete (index_of c addr) (c_operatorSlots c))
       (delete addr (c_operatorSlotIndexes c)) (bm_unset (c_operatorBitmask c) (index_of c addr))
       (c_version c + 1))) as (ops' & Hset & Hfol'); [apply Hv|apply Hf|done|done|done| | |].
  { intros j Hj. unfold slot_at, operators_of; cbn. rewrite lookup_delete_ne, Hbits by congruence.
    split; [done|]. rewrite elem_of_difference, elem_of_singleton. tauto. }
  { unfold operators_of; cbn. rewrite Hbits, elem_of_difference, elem_of_singleton. tauto. }
  assert (apply_NodeOperatorRemoved {| nor_id := addr; nor_cluster_version := c_version c + 1 |} v =
    Ok (set_node_operators v ops')) as Happ;
    [|unfold from_node_operator_removed; by_event Hver Happ; by apply follows_operators].
  unfold apply_NodeOperatorRemoved, require_idx. cbn [nor_id]. rewrite Hidx.
  cbn [ok_or map_err mbind res_bind]. by rewrite Hset.
Qed.

Lemma follows_maintenance slot :
  follows (set_c_maintenance c slot (c_version c + 1))
    (set_cluster_version (set_maintenance v
      (if decide (slot = 0%Z) then None else Some {| maintenance_slot := slot |})) (c_version c + 1)).
Proof.
  destruct Hf as [[] Hfs Hfk Hfkv [Hmi Hms Hm0 Hm1] Hfma Hfve]. split; try done.
Qed.

Lemma tracks_setMaintenance (active : bool) c' evt :
  (if active then pulling_of c = 0%Z else c_maintenanceSlot c ≠ 0%Z) →
  setMaintenance msg c active = Ok (c', evt) →
  tracks c' v (from_maintenance_toggled (msg_sender msg) active (c_version c + 1)).
Proof.
  intros Hsane (Hslot & Hver & -> & _)%setMaintenance_Ok. split; [by destruct active|].
  destruct active; cbn [from_maintenance_toggled].
  - assert (apply_MaintenanceStarted {| mts_by := msg_sender msg;
      mts_cluster_version := c_version c + 1 |} v = Ok (set_maintenance v
        (Some {| maintenance_slot := msg_sender msg |}))) as Happ.
    { unfold apply_MaintenanceStarted. by rewrite no_migration_step, no_maintenance_step by auto. }
    by_event Hver Happ. pose proof (follows_maintenance (msg_sender msg)) as Hfol.
    rewrite decide_False in Hfol by apply Hmsg. exact Hfol.
  - assert (apply_MaintenanceFinished {| mtf_cluster_version := c_version c + 1 |} v =
      Ok (set_maintenance v None)) as Happ.
    { unfold apply_MaintenanceFinished, require_maintenance.
      by rewrite (fo_maintenance _ _ Hf), decide_False by done. }
    by_event Hver Happ. exact (follows_maintenance 0).
Qed.

Lemma tracks_updateSettings sc c' evt :
  (∃ s, settings_try_from_sc sc = Ok s) → updateSettings msg c (settings_to_evm sc) = Ok (c', evt) →
  tracks c' v (from_settings_updated (settings_to_evm sc) (c_version c + 1)).
Proof.
  intros [s Hset] (Hver & -> & _)%updateSettings_Ok. split; [done|].
  assert (settings_of_evm (settings_to_evm sc) = sc) as Hsc by by destruct sc.
  assert (apply_SettingsUpdated {| su_settings := settings_of_evm (settings_to_evm sc);
    su_cluster_version := c_version c + 1 |} v = Ok (set_settings v s)) as Happ.
  { unfold apply_SettingsUpdated. cbn [su_settings]. by rewrite Hsc, Hset. }
  unfold from_settings_updated. by_event Hver Happ.
  destruct Hf as [[] Hfs Hfk Hfkv [] Hfma Hfve]. split; try done.
Qed.
End steps.
End chain.
