(* ===== verification/ChainRead.v ===== *)
(** ChainRead: reading a view from the contract.

    [evm_cluster_view] of a contract in a valid state always decodes to a view
    that follows it. *)
From S2P Require Import Prelude External Sharding SmartContract NodeOperator NodeOperators.
From S2P Require Import Keyspace Settings Migration View ViewInvariant Cluster Concrete.
From S2P Require Import Contract Evm ContractBits ContractInv Chain.
From stdpp Require Import prelude gmap sets list strings.

Lemma NoDup_slot_ids `{PeerIds} {N} (l : list (option (NodeOperator N))) :
  (∀ i j op op', l !! i = Some (Some op) → l !! j = Some (Some op') → op_id op = op_id op' → i = j) →
  NoDup (slot_ids l).
Proof.
  induction l as [|[op|] l IH]; intros Hinj; unfold slot_ids; cbn; [constructor| |].
  - constructor.
    + intros Hin. apply elem_of_slot_ids in Hin as (i & op' & Hi & Hid).
      discriminate (Hinj 0 (Datatypes.S i) op op' eq_refl Hi (eq_sym Hid)).
    + apply IH. intros i j o o' Hi Hj Heq.
      specialize (Hinj (Datatypes.S i) (Datatypes.S j) o o' Hi Hj Heq). lia.
  - apply IH. intros i j o o' Hi Hj Heq.
    specialize (Hinj (Datatypes.S i) (Datatypes.S j) o o' Hi Hj Heq). lia.
Qed.

Section reading.
Context `{PeerIds, Ff1Laws, HashingLaws, UnixTime, LibBitLaws}.
Context `{!Postcard DataV0, !Postcard DataV1, !Postcard ExtraV0, !Postcard ExtraV1}.
Context `{!PostcardLaws DataV0, !PostcardLaws DataV1, !PostcardLaws ExtraV0, !PostcardLaws ExtraV1}.
Context {N S : Type} `{!Config N, !Calculate S, !CalculateSpec S}.
Implicit Types c : Contract.
Implicit Types v : View N S.

(** ** Slots *)

(** A decoded slot. *)
Definition slot_follows (sol : SolNodeOperator) (slot : option (NodeOperator N)) : Prop :=
  if decide (sol_addr sol = 0%Z) then slot = None
  else ∃ op, slot = Some op ∧ op_id op = sol_addr sol ∧ operator_follows sol op.

Lemma decode_slots_follow {E} sols :
  ∃ l, res_map (E := E) (option_mapM operator_from_sc) (slot_of_evm <$> sols) = Ok l ∧
    Forall2 slot_follows sols l.
Proof.
  induction sols as [|sol sols (l & Hl & Hall)]; [by exists []|].
  rewrite fmap_cons. cbn [res_map].
  destruct (decide (sol_addr sol = 0%Z)) as [Hz|Hnz].
  - assert (slot_of_evm sol = None) as -> by (unfold slot_of_evm; by rewrite decide_True).
    exists (None :: l). cbn [option_mapM mbind res_bind]. rewrite Hl. split; [done|].
    constructor; [|done]. unfold slot_follows. by rewrite decide_True.
  - assert (slot_of_evm sol = Some (operator_of_evm sol)) as ->
      by (unfold slot_of_evm; by rewrite decide_False).
    destruct (operator_from_sc_follows (N := N) (E := E) sol) as (op & Hop & _ & Hid & Hfol).
    exists (Some op :: l). cbn [option_mapM]. rewrite Hop. cbn [mbind res_bind]. rewrite Hl.
    split; [done|]. constructor; [|done]. unfold slot_follows. rewrite decide_False by done. eauto.
Qed.

Section slots.
Context (c : Contract) (Hc : contract_wf c).

Let highest : Z := bm_findLastSet (c_operatorBitmask c).
Let sols : list SolNodeOperator :=
  (λ i, if bm_isSet (c_operatorBitmask c) i then slot_at c i else empty_slot) <$> seqZ 0 (highest + 1).

Lemma enough_operators : MIN_OPERATORS ≤ size (operators_of c).
Proof.
  etrans; [apply (kv_size _ _ (cw_primary _ Hc))|]. apply subseteq_size, (kv_known _ _ (cw_primary _ Hc)).
Qed.

Lemma highest_spec : fits 8 highest ∧ ∀ j, j ∈ operators_of c → (j ≤ highest)%Z.
Proof.
  destruct (findLastSet_bits _ (sv_bitmask _ (cw_slots _ Hc))) as [Hin Hmax].
  - intros He. pose proof enough_operators as Hen. unfold operators_of in Hen.
    rewrite He, size_empty in Hen. unfold MIN_OPERATORS in Hen. lia.
  - split; [by apply elem_of_bits in Hin as [? _]|done].
Qed.

Lemma highest_bounds : (Z.of_nat MIN_OPERATORS ≤ highest + 1 ≤ 256)%Z.
Proof.
  destruct highest_spec as [[Hh0 Hh1] Hmax]. change (2 ^ 8)%Z with 256%Z in Hh1. split; [|lia].
  pose proof enough_operators as Hen.
  assert (operators_of c ⊆ list_to_set (seqZ 0 (highest + 1))) as Hsub.
  { intros j Hj. apply elem_of_list_to_set, elem_of_seqZ. pose proof (Hmax j Hj).
    pose proof (proj1 (operators_fit _ _ Hj)). lia. }
  apply subseteq_size in Hsub. rewrite size_list_to_set, length_seqZ in Hsub by apply NoDup_seqZ. lia.
Qed.

(** What the slots of [getView] hold. *)
Lemma sols_lookup (i : nat) sol :
  sols !! i = Some sol → (Z.of_nat i ≤ highest)%Z ∧ sol = slot_at c (Z.of_nat i).
Proof.
  destruct highest_spec as [[Hh0 Hh1] _]. change (2 ^ 8)%Z with 256%Z in Hh1. unfold sols.
  rewrite list_lookup_fmap. intros (z & Hz & ->)%fmap_Some.
  apply lookup_seqZ in Hz as [-> Hi]. rewrite Z.add_0_l. split; [lia|].
  rewrite isSet_bits by (apply (cw_slots _ Hc) || (unfold fits; change (2 ^ 8)%Z with 256%Z; lia)).
  case_bool_decide as Hin; [done|]. by rewrite (sv_unset _ (cw_slots _ Hc)).
Qed.

Lemma sols_length : length sols = Z.to_nat (highest + 1).
Proof. unfold sols. by rewrite length_fmap, length_seqZ. Qed.

(** An occupied decoded slot is the contract's. *)
Lemma decoded_slot l (i : nat) op :
  Forall2 slot_follows sols l → l !! i = Some (Some op) →
  Z.of_nat i ∈ operators_of c ∧ op_id op = sol_addr (slot_at c (Z.of_nat i)) ∧
  operator_follows (slot_at c (Z.of_nat i)) op.
Proof.
  intros Hall Hi. destruct (Forall2_lookup_r _ _ _ _ _ Hall Hi) as (sol & Hsol & Hfol).
  apply sols_lookup in Hsol as [_ ->]. unfold slot_follows in Hfol.
  case_decide as Hz; [done|]. destruct Hfol as (op' & [= <-] & Hid & Hfol). split; [|done].
  destruct (decide (Z.of_nat i ∈ operators_of c)) as [|Hout]; [done|].
  rewrite (sv_unset _ (cw_slots _ Hc) _ Hout) in Hz. done.
Qed.

Lemma decoded_slots_NoDup l : Forall2 slot_follows sols l → NoDup (slot_ids l).
Proof.
  intros Hall. apply NoDup_slot_ids. intros i j op op' Hi Hj Heq.
  destruct (decoded_slot _ _ _ Hall Hi) as (Hini & Hidi & _).
  destruct (decoded_slot _ _ _ Hall Hj) as (Hinj & Hidj & _).
  pose proof (operator_slot_unique c _ _ (cw_slots _ Hc) Hini (eq_sym Hidi)) as Hi'.
  pose proof (operator_slot_unique c _ _ (cw_slots _ Hc) Hinj (eq_sym Hidj)) as Hj'.
  rewrite Heq, <-Hj' in Hi'. lia.
Qed.

Lemma from_slots_follow l :
  Forall2 slot_follows sols l →
  ∃ ops, from_slots l = Ok ops ∧ ops_wf ops ∧ operators_follow c ops.
Proof.
  intros Hall. pose proof (Forall2_length _ _ _ Hall) as Hlen. rewrite sols_length in Hlen.
  pose proof highest_bounds as Hb. pose proof (from_slots_cases l) as Hcases.
  destruct (from_slots l) as [ops|[n|n|id]|].
  - destruct Hcases as (Hwf & Hslots & _). exists ops. split_and!; [done|done|]. split.
    + intros idx Hin. destruct (operators_fit _ _ Hin) as [Hidx _].
      pose proof (proj2 highest_spec idx Hin) as Hle.
      destruct (lookup_lt_is_Some_2 sols (Z.to_nat idx)) as [sol Hsol]; [rewrite sols_length; lia|].
      destruct (Forall2_lookup_l _ _ _ _ _ Hall Hsol) as (slot & Hslot & Hfol).
      apply sols_lookup in Hsol as [_ ->]. rewrite Z2Nat.id in Hfol by done.
      unfold slot_follows in Hfol. destruct (sv_set _ (cw_slots _ Hc) _ Hin) as [Hnz _].
      rewrite decide_False in Hfol by done. destruct Hfol as (op & -> & _ & Hfol).
      exists op. split; [|done]. apply get_by_idx_Some. by rewrite Hslots.
    + intros idx Hidx Hout. destruct (get_by_idx ops idx) as [op|] eqn:Hop; [|done].
      apply get_by_idx_Some in Hop. rewrite Hslots in Hop.
      destruct (decoded_slot _ _ _ Hall Hop) as (Hin & _). rewrite Z2Nat.id in Hin by done. done.
  - destruct Hcases as [-> ?]. unfold MAX_OPERATORS in *. lia.
  - destruct Hcases as [-> ?]. lia.
  - destruct Hcases. by apply decoded_slots_NoDup.
  - done.
Qed.
End slots.

(** ** Keyspaces and the migration *)

Lemma pulling_empty c :
  contract_wf c → bitmask_to_hashset (pulling_of c) = ∅ ↔ pulling_of c = 0%Z.
Proof. intros Hc. rewrite bitmask_to_hashset_bits. apply bits_empty, Hc. Qed.

(** The keyspaces in the order in which [try_from_sc] takes them. *)
Lemma keyspaces_split c version :
  (if decide (version mod 2 = 0)%Z
   then (keyspace_of_evm (c_keyspaces c).1, keyspace_of_evm (c_keyspaces c).2)
   else (keyspace_of_evm (c_keyspaces c).2, keyspace_of_evm (c_keyspaces c).1)) =
  (keyspace_of_evm (keyspace_at (c_keyspaces c) version),
   keyspace_of_evm (keyspace_at (c_keyspaces c) (version + 1))).
Proof.
  unfold keyspace_at. repeat case_decide; try done; exfalso;
    pose proof (Z.mod_pos_bound version 2 ltac:(lia));
    pose proof (Z.mod_pos_bound (version + 1) 2 ltac:(lia));
    pose proof (Z.div_mod version 2 ltac:(lia)); pose proof (Z.div_mod (version + 1) 2 ltac:(lia)); lia.
Qed.

(** The migration decodes to one that follows the contract. *)
Lemma migration_decodes {E} c sec ops :
  contract_wf c → operators_follow (N := N) c ops →
  (pulling_of c ≠ 0%Z → sec = keyspace_of_evm (latest_of c)) →
  ∃ m0 m, migration_try_from_sc (migration_of_evm (c_migration c)) sec = Ok m0 ∧
    match mig_keyspace m0 with
    | Some ks => map_err TKeyspaceUnknownOperator (ks_validate ks ops)
    | None => Ok ()
    end = Ok () ∧
    calculate_keyspace (E := E) m0 = Ok m ∧ migration_follows (S := S) c m.
Proof.
  intros Hc Hops Hsec. destruct (cw_started _ Hc) as [t Ht]. destruct (cw_aborted _ Hc) as [ta Hta].
  unfold migration_try_from_sc, migration_of_evm. cbn [sc_mig_aborted_at sc_mig_pulling_operators
    sc_mig_started_at sc_mig_id]. fold (pulling_of c). rewrite Ht.
  destruct (decide (pulling_of c = 0%Z)) as [Hp|Hp].
  - rewrite (bool_decide_eq_true_2 _ Hp), andb_true_r. case_bool_decide.
    + rewrite Hta. eexists _, _; split_and!; [reflexivity|reflexivity|reflexivity|].
      by split; cbn.
    + rewrite decide_True by (by apply pulling_empty). eexists _, _; split_and!;
        [reflexivity|reflexivity|reflexivity|]. by split; cbn.
  - rewrite (bool_decide_eq_false_2 _ Hp), andb_false_r, decide_False by (by rewrite pulling_empty).
    destruct (cw_secondary _ Hc Hp) as (Hv & _ & _). rewrite (Hsec Hp).
    destruct (keyspace_valid_decodes _ _ Hv) as (ks0 & Hdec & Hwf & Hkops & Hinto).
    destruct (calculate_into_sc (S := S) (E := E) ks0 Hwf) as (ks & Hcalc & Hks).
    rewrite Hdec. cbn [map_err mbind res_bind].
    eexists _, _; split_and!; [reflexivity| | |].
    + cbn. rewrite (proj2 (ks_validate_Ok ks0 ops)); [done|]. intros idx. rewrite Hkops.
      intros Hin. apply (follow_contains_idx c); [done|]. by apply (kv_known _ _ Hv).
    + unfold calculate_keyspace. cbn [mig_state]. rewrite Hcalc. reflexivity.
    + split; cbn; [done|done|done|]. intros _. exists ks. rewrite bitmask_to_hashset_bits.
      split; [done|congruence].
Qed.

Lemma primary_version c :
  contract_wf c →
  (if negb (bool_decide (bitmask_to_hashset (pulling_of c) = ∅)) then
     ok_or (u64_checked_sub (c_keyspaceVersion c) 1) TInvalidKeyspaceVersion
   else Ok (c_keyspaceVersion c)) =
  Ok (if decide (pulling_of c = 0%Z) then c_keyspaceVersion c else c_keyspaceVersion c - 1)%Z.
Proof.
  intros Hc. destruct (decide (pulling_of c = 0%Z)) as [Hp|Hp].
  - by rewrite bool_decide_eq_true_2 by (by apply pulling_empty).
  - rewrite bool_decide_eq_false_2 by (by rewrite pulling_empty). cbn [negb].
    destruct (cw_secondary _ Hc Hp) as (_ & _ & Hkv). unfold u64_checked_sub.
    by rewrite decide_True by lia.
Qed.

Lemma cluster_view_typed_evm msg c cv :
  contract_wf c → evm_cluster_view msg c = Ok cv → cluster_view_typed cv.
Proof.
  intros Hc <-%Ok_inj. split; cbn; [|apply Hc|apply Hc].
  intros idx. rewrite !bitmask_to_hashset_bits, !elem_of_bits. tauto.
Qed.

(** ** Reading *)

Lemma view_try_from_sc_parts cv l (ops : NodeOperators N) s pver prim sec ks0 (ks : Keyspace S) m0 m :
  res_map (E := view_from_sc_error) (option_mapM operator_from_sc) (cv_node_operators cv) = Ok l →
  from_slots l = Ok ops →
  settings_try_from_sc (cv_settings cv) = Ok s →
  (if negb (bool_decide (sc_mig_pulling_operators (cv_migration cv) = ∅)) then
     ok_or (u64_checked_sub (cv_keyspace_version cv) 1) TInvalidKeyspaceVersion
   else Ok (cv_keyspace_version cv)) = Ok pver →
  (if decide (pver mod 2 = 0)%Z then ((cv_keyspaces cv).1, (cv_keyspaces cv).2)
   else ((cv_keyspaces cv).2, (cv_keyspaces cv).1)) = (prim, sec) →
  keyspace_try_from_sc prim = Ok ks0 → ks_validate ks0 ops = Ok () →
  migration_try_from_sc (cv_migration cv) sec = Ok m0 →
  match mig_keyspace m0 with
  | Some ks => map_err TKeyspaceUnknownOperator (ks_validate ks ops)
  | None => Ok ()
  end = Ok () →
  calculate_shards (E := view_from_sc_error) ks0 = Ok ks →
  calculate_keyspace (E := view_from_sc_error) m0 = Ok m →
  view_try_from_sc cv = Ok {|
    v_node_operators := ops; v_ownership := {| owner := cv_owner cv |}; v_settings := s;
    v_keyspace := ks; v_keyspace_version := cv_keyspace_version cv; v_migration := m;
    v_maintenance := (λ slot, {| maintenance_slot := slot |}) <$> sc_maint_slot (cv_maintenance cv);
    v_cluster_version := cv_cluster_version cv |}.
Proof.
  intros Hl Hfrom Hs Hver Hsplit Hdec Hval Hm0 Hmval Hcalc Hm. unfold view_try_from_sc.
  rewrite Hl. cbn [mbind res_bind]. rewrite Hfrom. cbn [map_err mbind res_bind]. rewrite Hs.
  cbn [map_err mbind res_bind]. rewrite Hver. cbn [mbind res_bind].
  destruct (cv_keyspaces cv) as [k0 k1]. cbn [fst snd] in Hsplit. rewrite Hsplit.
  rewrite Hdec. cbn [map_err mbind res_bind]. rewrite Hval. cbn [map_err mbind res_bind].
  rewrite Hm0. cbn [map_err mbind res_bind]. rewrite Hmval. cbn [mbind res_bind]. rewrite Hcalc.
  cbn [mbind res_bind]. rewrite Hm. reflexivity.
Qed.

Lemma read_decodes msg c cv :
  contract_wf c → evm_cluster_view msg c = Ok cv →
  ∃ v, view_try_from_sc (N := N) (S := S) cv = Ok v ∧ follows c v ∧
    owner (v_ownership v) = msg_owner msg.
Proof.
  intros Hc Hcv%Ok_inj. destruct (decode_slots_follow (E := view_from_sc_error)
    (scv_operatorSlots (getView msg c))) as (l & Hl & Hall).
  destruct (from_slots_follow c Hc l Hall) as (ops & Hfrom & Hopswf & Hops).
  destruct (cw_settings _ Hc) as [s Hs]. pose proof (primary_version c Hc) as Hver.
  set (pver := if decide (pulling_of c = 0%Z) then c_keyspaceVersion c
               else (c_keyspaceVersion c - 1)%Z) in *.
  destruct (keyspace_valid_decodes _ _ (cw_primary _ Hc)) as (ks0 & Hdec & Hwf & Hkops & Hinto).
  destruct (calculate_into_sc (S := S) (E := view_from_sc_error) ks0 Hwf) as (ks & Hcalc & Hks).
  destruct (migration_decodes (E := view_from_sc_error) c
    (keyspace_of_evm (keyspace_at (c_keyspaces c) (pver + 1))) ops Hc Hops)
    as (m0 & m & Hm0 & Hmval & Hm & Hmf).
  { intros Hp. unfold pver. rewrite decide_False by done. unfold latest_of. do 2 f_equal. lia. }
  assert (ks_validate ks0 ops = Ok ()) as Hval.
  { apply ks_validate_Ok. intros idx. rewrite Hkops. intros Hin.
    apply (follow_contains_idx c); [done|]. by apply (kv_known _ _ (cw_primary _ Hc)). }
  eexists. split; [eapply view_try_from_sc_parts; subst cv; eauto; apply keyspaces_split|].
  subst cv. split; [|done]. split; cbn [v_node_operators v_settings v_keyspace
    v_keyspace_version v_migration v_maintenance v_cluster_version]; [done|done|congruence|done|done| |done].
  cbn [cv_maintenance sc_maint_slot]. change (scv_maintenanceSlot (getView msg c)) with (c_maintenanceSlot c).
  by destruct (decide (c_maintenanceSlot c = 0%Z)).
Qed.

Lemma read_follows msg c :
  contract_wf c →
  ∃ cv v, evm_cluster_view msg c = Ok cv ∧ view_try_from_sc cv = Ok v ∧ view_wf v ∧ follows c v ∧
    owner (v_ownership v) = msg_owner msg.
Proof.
  intros Hc. destruct (evm_cluster_view msg c) as [cv| |] eqn:Hcv; [|done..].
  destruct (read_decodes _ _ _ Hc Hcv) as (v & Hv & Hfol & Hown). exists cv, v.
  split_and!; [done|done| |done|done]. eapply view_try_from_sc_wf; [|done].
  by eapply cluster_view_typed_evm.
Qed.
End reading.
