(* ===== verification/ChainRuns.v ===== *)
(** ChainRuns: whole runs of the contract and the views of the nodes.

    A run is a sequence of calls with the logs they emit.  The invariant of the
    contract holds along every run, and a node that reads the contract and then
    applies the events of the logs shows the state of the contract at every
    point.  Then: the calls the contract accepts although views reject their
    events, and a completed migration that reads back as an aborted one. *)
From S2P Require Import Prelude External Sharding SmartContract NodeOperator NodeOperators.
From S2P Require Import Keyspace Settings Migration View ViewInvariant Cluster Concrete.
From S2P Require Import Contract Evm ContractBits ContractInv Chain ChainRead.
From stdpp Require Import prelude gmap sets list strings.

Section runs.
Context `{PeerIds, Ff1Laws, HashingLaws, UnixTime, LibBitLaws}.
Context `{!Postcard DataV0, !Postcard DataV1, !Postcard ExtraV0, !Postcard ExtraV1}.
Context `{!PostcardLaws DataV0, !PostcardLaws DataV1, !PostcardLaws ExtraV0, !PostcardLaws ExtraV1}.
Context {N S : Type} `{!Config N, !Calculate S, !CalculateSpec S}.
Context (get_block_by_number : Z → res TransportError (option Z)) (show_number : Z → string).
Implicit Types c : Contract.
Implicit Types v : View N S.

(** * One call *)

(** The log of an event emitted in the block of [msg]. *)
Definition log_of (msg : Msg) (evt : SolEvent) (log : Log) : Prop :=
  log_inner log = inl evt ∧
  get_block_timestamp get_block_by_number show_number log = Ok (block_timestamp msg).

Lemma event_tracked msg c v call c' evt log :
  contract_wf c → view_wf v → follows c v → msg_sane msg → call_sane c call →
  evm_write msg c call = Some (Ok (c', evt)) → log_of msg evt log →
  ∃ ev, event_try_from get_block_by_number show_number log = Ok (Some ev) ∧ tracks c' v ev.
Proof.
  intros Hc Hv Hf Hmsg Hsane Hcall [Hlog Hts]. unfold event_try_from. rewrite Hlog.
  destruct call; cbn [evm_write] in Hcall; try discriminate Hcall; injection Hcall as Hcall.
  - pose proof (startMigration_Ok _ _ _ _ _ Hcall) as (_ & _ & _ & _ & _ & _ & _ & _ & ->).
    rewrite Hts. eexists. split; [reflexivity|]. by eapply tracks_startMigration.
  - pose proof (completeMigration_Ok _ _ _ _ _ Hcall) as (Hp & -> & Haddr & Hset & Hver & -> & ->).
    case_decide as Hz; eexists; (split; [reflexivity|]).
    + by apply tracks_completed.
    + by apply tracks_pull_completed.
  - pose proof (abortMigration_Ok _ _ _ _ _ Hcall) as (_ & _ & _ & _ & _ & ->).
    rewrite Hts. eexists. split; [reflexivity|]. by eapply tracks_abortMigration.
  - pose proof (setMaintenance_Ok _ _ _ _ _ Hcall) as (_ & _ & _ & ->).
    eexists. split; [reflexivity|]. by eapply tracks_setMaintenance.
  - pose proof (setMaintenance_Ok _ _ _ _ _ Hcall) as (_ & _ & _ & ->).
    eexists. split; [reflexivity|]. by eapply tracks_setMaintenance.
  - pose proof (addNodeOperator_Ok _ _ _ _ _ Hcall) as (_ & _ & _ & _ & _ & _ & ->).
    eexists. split; [reflexivity|]. by eapply tracks_addNodeOperator.
  - pose proof (updateNodeOperatorData_Ok _ _ _ _ _ _ Hcall) as (_ & _ & _ & ->).
    eexists. split; [reflexivity|]. by eapply tracks_updateNodeOperatorData.
  - pose proof (removeNodeOperator_Ok _ _ _ _ _ Hcall) as (_ & _ & _ & _ & _ & _ & ->).
    eexists. split; [reflexivity|]. by eapply tracks_removeNodeOperator.
  - pose proof (updateSettings_Ok _ _ _ _ _ Hcall) as (_ & _ & ->).
    eexists. split; [reflexivity|]. by eapply tracks_updateSettings.
Qed.

(** * Runs *)

(** The events of the libraries the contract inherits from. *)
Definition library_event (evt : SolEvent) : Prop :=
  evt = SolOwnershipTransferStarted ∨ evt = SolOwnershipTransferred ∨ evt = SolUpgraded.

Inductive chain_run : Contract → list Log → Contract → Prop :=
| run_end c : chain_run c [] c
| run_call c msg call c1 evt log logs c2 :
    msg_sane msg → call_sane c call → evm_write msg c call = Some (Ok (c1, evt)) →
    log_of msg evt log → chain_run c1 logs c2 → chain_run c (log :: logs) c2
| run_library c evt log logs c2 :
    log_inner log = inl evt → library_event evt → chain_run c logs c2 → chain_run c (log :: logs) c2.

Lemma chain_run_wf c logs c' : contract_wf c → chain_run c logs c' → contract_wf c'.
Proof.
  intros Hc Hrun. induction Hrun as [|c msg call c1 evt log logs c2 Hmsg Hsane Hcall Hlog _ IH|]; auto.
  apply IH. by eapply evm_write_wf.
Qed.

Lemma library_event_ignored log evt :
  log_inner log = inl evt → library_event evt →
  event_try_from get_block_by_number show_number log = Ok None.
Proof. intros Hlog Hevt. unfold event_try_from. rewrite Hlog. by destruct Hevt as [->|[->| ->]]. Qed.

Lemma chain_run_followed c logs c' v :
  contract_wf c → view_wf v → follows c v → chain_run c logs c' →
  ∃ events v', evm_events get_block_by_number show_number logs = Ok <$> events ∧
    events_admissible v events ∧ apply_events v events = Ok v' ∧ view_wf v' ∧ follows c' v'.
Proof.
  intros Hc Hv Hf Hrun. revert v Hv Hf.
  induction Hrun as [c|c msg call c1 evt log logs c2 Hmsg Hsane Hcall Hlog _ IH
    |c evt log logs c2 Hlog Hevt _ IH]; intros v Hv Hf.
  - exists [], v. by split_and!.
  - destruct (event_tracked _ _ _ _ _ _ _ Hc Hv Hf Hmsg Hsane Hcall Hlog)
      as (ev & Hev & Hadm & v1 & Happ & Hf1).
    destruct (apply_event_wf_aux _ _ _ Hv Hadm Happ) as [Hv1 _].
    destruct (IH (evm_write_wf _ _ _ _ _ Hc Hmsg Hsane Hcall) v1 Hv1 Hf1)
      as (events & v' & Hevs & Hadms & Happs & Hv' & Hf').
    exists (ev :: events), v'. split_and!; [| | |done|done].
    + unfold evm_events in *. cbn. rewrite Hev. cbn. by rewrite <-Hevs.
    + split; [done|]. intros v1'. rewrite Happ. by intros <-%Ok_inj.
    + cbn [apply_events]. rewrite Happ. exact Happs.
  - destruct (IH Hc v Hv Hf) as (events & v' & Hevs & Hrest). exists events, v'. split; [|done].
    unfold evm_events in *. cbn. by rewrite (library_event_ignored _ _ Hlog Hevt).
Qed.

(** * Theorems *)



(** The contract accepts the start of a maintenance during a migration, which
    the documentation of the interface forbids, and every view that follows the
    contract rejects the event. *)
Theorem maintenance_during_migration_rejected msg c v :
  contract_wf c → follows c v → pulling_of c ≠ 0%Z → c_maintenanceSlot c = 0%Z →
  msg_sender msg = msg_owner msg → (c_version c + 1 < 2 ^ 128)%Z →
  ∃ c' ver, evm_write msg c CallStartMaintenance =
      Some (Ok (c', SolMaintenanceToggled (msg_sender msg) true ver)) ∧
    apply_event v (from_maintenance_toggled (msg_sender msg) true ver) =
      Err (VMigrationInProgress (MigrationInProgress (sol_mig_id (c_migration c)))).
Proof.
  intros Hc Hf Hp Hslot Howner Hver. exists (set_c_maintenance c (msg_sender msg) (c_version c + 1)),
    (c_version c + 1)%Z. split.
  - unfold evm_write, setMaintenance. rewrite Hslot. cbn [bool_decide negb revert_if mbind res_bind].
    rewrite (bool_decide_eq_true_2 (0 = 0)%Z) by done. cbn [negb revert_if mbind res_bind].
    rewrite decide_False by tauto. cbn [mbind res_bind]. unfold checked_inc. by rewrite decide_True.
  - unfold apply_event. cbn [from_maintenance_toggled event_cluster_version mts_cluster_version].
    rewrite (version_step c v Hc Hf Hver), decide_False by tauto.
    unfold apply_MaintenanceStarted, require_no_migration.
    destruct (mf_pulling _ _ (fo_migration _ _ Hf) Hp) as (ks & Hst & _).
    unfold is_in_progress. rewrite Hst, (mf_id _ _ (fo_migration _ _ Hf)). done.
Qed.

(** ** What a completed migration reads back as *)

Lemma view_try_from_sc_aborted cv v at_ :
  view_try_from_sc cv = Ok v → sc_mig_aborted_at (cv_migration cv) = Some at_ →
  v_keyspace_version v = cv_keyspace_version cv ∧
  ∃ t, parse_timestamp at_ = Ok t ∧ mig_state (v_migration v) = Aborted t.
Proof.
  unfold view_try_from_sc. intros Hv Hat. destruct (cv_keyspaces cv) as [k0 k1].
  apply bind_Ok in Hv as (l & _ & Hv). apply bind_Ok in Hv as (ops & _ & Hv).
  apply bind_Ok in Hv as (s & _ & Hv). apply bind_Ok in Hv as (pver & _ & Hv).
  destruct (if decide (pver mod 2 = 0)%Z then (k0, k1) else (k1, k0)) as [prim sec].
  apply bind_Ok in Hv as (ks0 & _ & Hv). apply bind_Ok in Hv as (u & _ & Hv).
  apply bind_Ok in Hv as (m0 & Hm0%map_err_Ok & Hv). apply bind_Ok in Hv as (u' & _ & Hv).
  apply bind_Ok in Hv as (ks & _ & Hv). apply bind_Ok in Hv as (m & Hm & Hv).
  apply Ok_inj in Hv as <-. split; [done|]. unfold migration_try_from_sc in Hm0. rewrite Hat in Hm0.
  apply bind_Ok in Hm0 as (st & (t & Ht & <-%Ok_inj)%bind_Ok & Hm0).
  apply bind_Ok in Hm0 as (t' & _ & <-%Ok_inj). exists t. split; [done|].
  unfold calculate_keyspace in Hm. cbn in Hm. apply Ok_inj in Hm as <-. done.
Qed.

Lemma apply_completed_state e v v' :
  apply_event v (EvMigrationCompleted e) = Ok v' → mig_state (v_migration v') = Completed.
Proof.
  unfold apply_event. case_decide; [done|]. intros (w & Hw & <-%Ok_inj)%bind_Ok.
  unfold apply_MigrationCompleted, mig_complete in Hw. mon_inv.
  destruct (mig_state (v_migration v)); by mon_inv.
Qed.

End runs.

(** * Witnesses *)

#[local] Existing Instance toy_peer_ids.
#[local] Existing Instance toy_ff1.
#[local] Existing Instance toy_ff1_laws.
#[local] Existing Instance toy_hashing.
#[local] Existing Instance toy_hashing_laws.
#[local] Existing Instance toy_unix_time.
#[local] Existing Instance toy_config.
#[local] Existing Instance toy_libbit.
#[local] Existing Instance toy_libbit_laws.
#[local] Existing Instance toy_d0.
#[local] Existing Instance toy_d1.
#[local] Existing Instance toy_e0.
#[local] Existing Instance toy_e1.
#[local] Existing Instance toy_d0_laws.
#[local] Existing Instance toy_d1_laws.
#[local] Existing Instance toy_e0_laws.
#[local] Existing Instance toy_e1_laws.

Definition chain_settings : ScSettings := cv_settings toy_cluster_view.
Definition chain_operators : list ScNodeOperator :=
  (λ id, {| sc_op_id := id; sc_op_data := [7]%Z |}) <$> [1; 2; 3; 4; 5; 6]%Z.

(** The state after a call, or the state before it if it fails. *)
Definition after (msg : Msg) (c : Contract) (call : ScCall) : Contract :=
  match evm_write msg c call with Some (Ok (c', _)) => c' | _ => c end.

Definition deployed : Contract :=
  match evm_deploy chain_settings chain_operators with
  | Ok (c, _) => c
  | _ => zero_contract (settings_to_evm chain_settings)
  end.

Definition by_owner : Msg := {| msg_sender := 99%Z; msg_owner := 99%Z; block_timestamp := 1000%Z |}.
Definition by_operator (id : Z) : Msg :=
  {| msg_sender := id; msg_owner := 99%Z; block_timestamp := 1000%Z |}.

Definition shrink : ScCall :=
  CallStartMigration {| sc_ks_operators := list_to_set [0; 1; 2; 3; 4]%Z;
                        sc_ks_replication_strategy := 0%Z |}.
Definition migrating : Contract := after by_owner deployed shrink.

Definition no_blocks : Z → res TransportError (option Z) := λ _, Ok None.
Definition no_show : Z → string := λ _, EmptyString.

Lemma toy_msg_sane msg :
  msg_sender msg ≠ 0%Z → block_timestamp msg = 1000%Z → msg_sane msg.
Proof. intros Hs Ht. split; [done|by rewrite Ht|]. rewrite Ht. by eexists. Qed.

(** A call that succeeds is a run of one log. *)
Lemma after_run msg c call :
  msg_sane msg → call_sane c call →
  match evm_write msg c call with Some (Ok _) => true | _ => false end = true →
  ∃ log, chain_run no_blocks no_show c [log] (after msg c call).
Proof.
  intros Hmsg Hsane Hok. unfold after.
  destruct (evm_write msg c call) as [[[c' evt]| |]|] eqn:Hcall; try discriminate Hok.
  exists {| log_inner := inl evt; log_block_timestamp := Some (block_timestamp msg);
            log_block_number := None |}.
  eapply run_call; [done|done|done| |constructor]. by split.
Qed.

Lemma deploy_ok : ∃ evt, evm_deploy chain_settings chain_operators = Ok (deployed, evt).
Proof.
  assert (is_ok (evm_deploy chain_settings chain_operators) = true) as Hok by (vm_compute; reflexivity).
  unfold deployed. destruct (evm_deploy chain_settings chain_operators) as [[c evt]| |];
    [by exists evt|discriminate Hok|discriminate Hok].
Qed.

Lemma epoch_ok : ∃ t, parse_timestamp 0 = Ok t.
Proof. by eexists. Qed.

Lemma chain_settings_ok : ∃ s, settings_try_from_sc chain_settings = Ok s.
Proof.
  assert (is_ok (settings_try_from_sc chain_settings) = true) as Hok by (vm_compute; reflexivity).
  destruct (settings_try_from_sc chain_settings) as [s| |]; [by exists s|done|done].
Qed.

Lemma chain_operators_ok :
  NoDup (sc_op_id <$> chain_operators) ∧ 0%Z ∉ sc_op_id <$> chain_operators.
Proof.
  split; [apply (bool_decide_unpack (NoDup _))|apply (bool_decide_unpack (_ ∉ _))];
    vm_compute; exact I.
Qed.

Lemma deployed_wf : contract_wf deployed.
Proof.
  destruct deploy_ok as [evt Hdep]. destruct chain_operators_ok as [Hnd Hz].
  destruct (initialize_wf _ _ _ _ chain_settings_ok epoch_ok Hnd Hz Hdep) as [Hwf _].
  exact Hwf.
Qed.

Lemma shrink_sane c : call_sane c shrink.
Proof.
  split; [|done]. intros i Hi. cbn in Hi.
  rewrite !elem_of_union, !elem_of_singleton, elem_of_empty in Hi. unfold fits.
  change (2 ^ 8)%Z with 256%Z. lia.
Qed.

Lemma migrating_run : ∃ log, chain_run no_blocks no_show deployed [log] migrating.
Proof. apply after_run; [by apply toy_msg_sane|apply shrink_sane|vm_compute; reflexivity]. Qed.



Lemma migrating_view : ∃ v : View Z (), view_wf v ∧ follows migrating v.
Proof.
  destruct migrating_run as [log Hrun].
  pose proof (chain_run_wf _ _ _ _ _ deployed_wf Hrun) as Hwf.
  destruct (read_follows (N := Z) (S := ()) by_owner migrating Hwf) as (_ & v & _ & _ & Hv & Hf & _).
  by exists v.
Qed.

Lemma migrating_wf : contract_wf migrating.
Proof. destruct migrating_run as [log Hrun]. eapply chain_run_wf; [apply deployed_wf|exact Hrun]. Qed.

Lemma maintenance_during_migration_rejected_witness :
  ∃ (v : View Z ()) c' ver, follows migrating v ∧
    evm_write by_owner migrating CallStartMaintenance =
      Some (Ok (c', SolMaintenanceToggled 99 true ver)) ∧
    is_ok (apply_event v (from_maintenance_toggled 99 true ver)) = false.
Proof.
  destruct migrating_view as (v & _ & Hf). exists v.
  destruct (maintenance_during_migration_rejected by_owner migrating v migrating_wf Hf)
    as (c' & ver & Hcall & Happ); [vm_compute; discriminate|vm_compute; reflexivity|reflexivity
    |vm_compute; reflexivity|].
  exists c', ver. split; [exact Hf|]. split; [exact Hcall|].
  change (msg_sender by_owner) with 99%Z in Happ. rewrite Happ. reflexivity.
Defined.

(** A state of the kind [completed_migration_reads_aborted] describes: a first
    migration is aborted and a second one started in the same second, and four of
    its five operators have pulled. *)
Definition steps_after (c : Contract) (steps : list (Msg * ScCall)) : Contract :=
  fold_left (λ c step, after step.1 c step.2) steps c.

Definition second_try : list (Msg * ScCall) :=
  [(by_owner, CallAbortMigration 1); (by_owner, shrink)] ++
  ((λ id, (by_operator id, CallCompleteMigration 2)) <$> [1; 2; 3; 4]%Z).

Lemma after_wf msg c call :
  contract_wf c → msg_sane msg → call_sane c call → contract_wf (after msg c call).
Proof.
  intros Hc Hmsg Hsane. unfold after.
  destruct (evm_write msg c call) as [[[c' evt]| |]|] eqn:Hcall; [|done..].
  by eapply evm_write_wf.
Qed.

Lemma steps_after_wf steps c :
  contract_wf c → (∀ msg call, (msg, call) ∈ steps → msg_sane msg ∧ ∀ c, call_sane c call) →
  contract_wf (steps_after c steps).
Proof.
  revert c. induction steps as [|[msg call] steps IH]; intros c Hc Hsane; [done|].
  apply IH.
  - destruct (Hsane msg call) as [Hmsg Hcall]; [apply elem_of_cons; by left|].
    apply after_wf; [done|done|apply Hcall].
  - intros msg' call' Hin. apply Hsane. apply elem_of_cons. by right.
Qed.

Definition nearly_complete : Contract := steps_after migrating second_try.

Lemma nearly_complete_wf : contract_wf nearly_complete.
Proof.
  apply steps_after_wf; [apply migrating_wf|]. intros msg call Hin. cbn in Hin.
  repeat (apply elem_of_cons in Hin as [[= -> ->]|Hin];
    [split; [by apply toy_msg_sane|intros c; first [done|apply shrink_sane]]|]).
  by apply elem_of_nil in Hin.
Qed.

Definition completed_try : Contract := after (by_operator 5) nearly_complete (CallCompleteMigration 2).

