(* ===== verification/FakeContract.v ===== *)
(** FakeContract: the contract that lives in memory and stands in for the chain in the
    tests of the cluster (src/crates/cluster/src/smart_contract/testing.rs).

    A contract keeps two copies of the cluster: [fi_sc_view], which readers get, and
    [fi_view], which it changes by the event of each call before it broadcasts the event.
    A [Mutex] whose holder panics is poisoned and panics from then on. *)
From S2P Require Import Prelude External Sharding SmartContract NodeOperator NodeOperators.
From S2P Require Import Keyspace Settings Migration View ViewInvariant Concrete Cluster.
From S2P Require Import Contract Evm ContractBits ContractInv Chain ChainRead ChainRuns.
From stdpp Require Import prelude gmap sets list strings.

(** [account_address]: twenty times the byte. *)
Definition account_address (n : Z) : Z := from_be_bytes (replicate 20 n).

(** [testing::encryption_key] *)
Definition fake_encryption_key : list Z := wrap 8 ∘ Z.of_nat <$> seq 0 32.

Inductive fake_write_error := FakeWriteOther (e : view_error).
Inductive fake_connection_error := UnknownContract.
Inductive fake_deployment_error := FakeDeployment (e : view_from_sc_error).
Inductive fake_read_error := FakeLagged (missed : nat).

(** * The contract *)
Section fake_contract.
Context `{PeerIds, Ff1, Hashing, UnixTime}.
Context `{!Postcard DataV0, !Postcard DataV1, !Postcard ExtraV0, !Postcard ExtraV1}.

(** [Config::dummy]: nodes are plain, keyspaces have no shards. *)
#[local] Instance fake_config : Config Node := plain_config fake_encryption_key.

(** [Inner]; [fi_events] are the events sent so far. *)
Record FakeInner := {
  fi_address : Z;
  fi_sc_view : ClusterView;
  fi_view : View Node ();
  fi_next_migration_id : Z;
  fi_events : list Event;
}.
Implicit Types this : FakeInner.

(** [Arc<Mutex<Inner>>] *)
Inductive Cell := Alive (this : FakeInner) | Poisoned.

Definition fi_with_sc this (sc : ClusterView) : FakeInner :=
  {| fi_address := fi_address this; fi_sc_view := sc; fi_view := fi_view this;
     fi_next_migration_id := fi_next_migration_id this; fi_events := fi_events this |}.

(** [this.view = view; this.events.send(event)] *)
Definition fi_commit this (view : View Node ()) (event : Event) : FakeInner :=
  {| fi_address := fi_address this; fi_sc_view := fi_sc_view this; fi_view := view;
     fi_next_migration_id := fi_next_migration_id this; fi_events := fi_events this ++ [event] |}.

(** [Inner::next_migration_id] *)
Definition fi_next_id this : Z * FakeInner :=
  (fi_next_migration_id this,
   {| fi_address := fi_address this; fi_sc_view := fi_sc_view this; fi_view := fi_view this;
      fi_next_migration_id := u64_add (fi_next_migration_id this) 1; fi_events := fi_events this |}).

(** Assignments to the fields of [sc_view], each with [cluster_version += 1]. *)
Definition sc_assign (sc : ClusterView) (settings : ScSettings) (operators : list (option ScNodeOperator))
    (keyspaces : ScKeyspace * ScKeyspace) (keyspace_version : Z) (migration : ScMigration)
    (maintenance : ScMaintenance) : ClusterView :=
  {| cv_owner := cv_owner sc; cv_settings := settings; cv_node_operators := operators;
     cv_keyspaces := keyspaces; cv_keyspace_version := keyspace_version; cv_migration := migration;
     cv_maintenance := maintenance; cv_cluster_version := wrap 128 (cv_cluster_version sc + 1) |}.
Definition sc_set_settings sc settings : ClusterView :=
  sc_assign sc settings (cv_node_operators sc) (cv_keyspaces sc) (cv_keyspace_version sc) (cv_migration sc) (cv_maintenance sc).
Definition sc_set_operators sc operators : ClusterView :=
  sc_assign sc (cv_settings sc) operators (cv_keyspaces sc) (cv_keyspace_version sc) (cv_migration sc) (cv_maintenance sc).
Definition sc_set_migration sc keyspaces keyspace_version migration : ClusterView :=
  sc_assign sc (cv_settings sc) (cv_node_operators sc) keyspaces keyspace_version migration (cv_maintenance sc).
Definition sc_set_maintenance sc slot : ClusterView :=
  sc_assign sc (cv_settings sc) (cv_node_operators sc) (cv_keyspaces sc) (cv_keyspace_version sc) (cv_migration sc)
    {| sc_maint_slot := slot |}.

(** [this.view.cluster_version + 1] *)
Definition fake_next_version this : Z := wrap 128 (v_cluster_version (fi_view this) + 1).

(** The closures of [Write], which change the contract and give the event; [None] is a panic. *)
Definition fake_start_migration (now : Z) (new_keyspace : ScKeyspace) this : option (FakeInner * Event) :=
  let '(id, this) := fi_next_id this in
  let sc := fi_sc_view this in
  let migration := {| sc_mig_id := id; sc_mig_pulling_operators := sc_ks_operators new_keyspace;
                      sc_mig_started_at := wrap 64 now; sc_mig_aborted_at := None |} in
  let version := u64_add (cv_keyspace_version sc) 1 in
  let keyspaces := if decide (version mod 2 = 0)%Z then (new_keyspace, (cv_keyspaces sc).2)
                   else ((cv_keyspaces sc).1, new_keyspace) in
  Some (fi_with_sc this (sc_set_migration sc keyspaces version migration),
        EvMigrationStarted {| ms_migration_id := id; ms_new_keyspace := new_keyspace;
          ms_at := wrap 64 now; ms_cluster_version := fake_next_version this |}).

Definition fake_complete_migration (signer id : Z) this : option (FakeInner * Event) :=
  operator_idx ← get_idx (v_node_operators (fi_view this)) signer;
  let sc := fi_sc_view this in
  let m := cv_migration sc in
  let migration := {| sc_mig_id := sc_mig_id m; sc_mig_pulling_operators := sc_mig_pulling_operators m ∖ {[operator_idx]};
                      sc_mig_started_at := sc_mig_started_at m; sc_mig_aborted_at := sc_mig_aborted_at m |} in
  let event :=
    if decide (1 < pulling_count (v_migration (fi_view this))) then
      EvMigrationDataPullCompleted {| mdpc_migration_id := id; mdpc_operator_id := signer;
        mdpc_cluster_version := fake_next_version this |}
    else
      EvMigrationCompleted {| mc_migration_id := id; mc_operator_id := signer;
        mc_cluster_version := fake_next_version this |} in
  Some (fi_with_sc this (sc_set_migration sc (cv_keyspaces sc) (cv_keyspace_version sc) migration), event).

Definition fake_abort_migration (now id : Z) this : option (FakeInner * Event) :=
  let sc := fi_sc_view this in
  let m := cv_migration sc in
  let migration := {| sc_mig_id := sc_mig_id m; sc_mig_pulling_operators := ∅;
                      sc_mig_started_at := sc_mig_started_at m; sc_mig_aborted_at := Some (wrap 64 now) |} in
  Some (fi_with_sc this (sc_set_migration sc (cv_keyspaces sc) (u64_add (cv_keyspace_version sc) 1) migration),
        EvMigrationAborted {| ma_migration_id := id; ma_at := wrap 64 now;
          ma_cluster_version := fake_next_version this |}).

Definition fake_start_maintenance (signer : Z) this : option (FakeInner * Event) :=
  Some (fi_with_sc this (sc_set_maintenance (fi_sc_view this) (Some signer)),
        EvMaintenanceStarted {| mts_by := signer; mts_cluster_version := fake_next_version this |}).

Definition fake_finish_maintenance this : option (FakeInner * Event) :=
  Some (fi_with_sc this (sc_set_maintenance (fi_sc_view this) None),
        EvMaintenanceFinished {| mtf_cluster_version := fake_next_version this |}).

(** [operators.iter().find_position(|slot| slot.is_none())] *)
Definition find_empty_slot (operators : list (option ScNodeOperator)) : option nat :=
  fst <$> list_find (λ slot, slot = None) operators.

Definition fake_add_node_operator (operator : ScNodeOperator) this : option (FakeInner * Event) :=
  let operators := cv_node_operators (fi_sc_view this) in
  let '(idx, operators) :=
    match find_empty_slot operators with
    | Some idx => (idx, <[idx := Some operator]> operators)
    | None => (length operators, operators ++ [Some operator])
    end in
  Some (fi_with_sc this (sc_set_operators (fi_sc_view this) operators),
        EvNodeOperatorAdded {| noa_idx := wrap 8 (Z.of_nat idx); noa_operator := operator;
          noa_cluster_version := fake_next_version this |}).

Definition fake_update_node_operator (operator : ScNodeOperator) this : option (FakeInner * Event) :=
  let operators := cv_node_operators (fi_sc_view this) in
  idx ← find_empty_slot operators;
  Some (fi_with_sc this (sc_set_operators (fi_sc_view this) (<[idx := Some operator]> operators)),
        EvNodeOperatorUpdated {| nou_operator := operator; nou_cluster_version := fake_next_version this |}).

Definition fake_remove_node_operator (id : Z) this : option (FakeInner * Event) :=
  let operators := cv_node_operators (fi_sc_view this) in
  idx ← find_empty_slot operators;
  Some (fi_with_sc this (sc_set_operators (fi_sc_view this) (<[idx := None]> operators)),
        EvNodeOperatorRemoved {| nor_id := id; nor_cluster_version := fake_next_version this |}).

Definition fake_update_settings (new_settings : ScSettings) this : option (FakeInner * Event) :=
  Some (fi_with_sc this (sc_set_settings (fi_sc_view this) new_settings),
        EvSettingsUpdated {| su_settings := new_settings; su_cluster_version := fake_next_version this |}).

(** [write]: the view is cloned before the closure runs, and stored once the event applied. *)
Definition fake_write (cell : Cell) (f : FakeInner → option (FakeInner * Event)) : Cell * res fake_write_error () :=
  match cell with
  | Poisoned => (Poisoned, Panic)
  | Alive this =>
      let view := fi_view this in
      match f this with
      | None => (Poisoned, Panic)
      | Some (this, event) =>
          match apply_event view event with
          | Ok view => (Alive (fi_commit this view event), Ok ())
          | Err err => (Alive this, Err (FakeWriteOther err))
          | Panic => (Alive this, Panic)
          end
      end
  end.

(** [impl Write for FakeSmartContract] *)
Definition fake_call (signer now : Z) (cell : Cell) (call : ScCall) : Cell * res fake_write_error () :=
  match call with
  | CallStartMigration new_keyspace => fake_write cell (fake_start_migration now new_keyspace)
  | CallCompleteMigration id => fake_write cell (fake_complete_migration signer id)
  | CallAbortMigration id => fake_write cell (fake_abort_migration now id)
  | CallStartMaintenance => fake_write cell (fake_start_maintenance signer)
  | CallFinishMaintenance => fake_write cell fake_finish_maintenance
  | CallAddNodeOperator operator => fake_write cell (fake_add_node_operator operator)
  | CallUpdateNodeOperator operator => fake_write cell (fake_update_node_operator operator)
  | CallRemoveNodeOperator id => fake_write cell (fake_remove_node_operator id)
  | CallUpdateSettings new_settings => fake_write cell (fake_update_settings new_settings)
  | CallTransferOwnership _ | CallAcceptOwnership => (cell, Ok ())
  end.

(** [impl Read for FakeSmartContract]: a subscription starts behind the events sent so far;
    a subscriber that is more than [capacity] events behind loses the oldest of them. *)
Definition fake_cluster_view this : ClusterView := fi_sc_view this.
Definition fake_subscribe this : nat := length (fi_events this).
Definition fake_received (capacity : nat) this (from : nat) : list (res fake_read_error Event) :=
  let pending := drop from (fi_events this) in
  let missed := length pending - capacity in
  (if decide (missed = 0) then [] else [Err (FakeLagged missed)]) ++ (Ok <$> drop missed pending).

(** * The registry *)

Record FakeRegistry := {
  fr_next_contract_id : Z;
  fr_contracts : gmap Z nat;
  fr_cells : list Cell;
}.

Definition fake_registry_default : FakeRegistry :=
  {| fr_next_contract_id := 0; fr_contracts := ∅; fr_cells := [] |}.

(** A [FakeSmartContract]: the signer and the contract. *)
Record FakeHandle := { fh_signer : Z; fh_cell : nat }.

(** The view of a fresh contract. *)
Definition fake_initial_view (signer : Z) (settings : ScSettings) (operators : list ScNodeOperator) : ClusterView :=
  {| cv_owner := signer; cv_settings := settings; cv_node_operators := Some <$> operators;
     cv_keyspaces := ({| sc_ks_operators := list_to_set (wrap 8 ∘ Z.of_nat <$> seq 0 (length operators));
                         sc_ks_replication_strategy := 0 |},
                      {| sc_ks_operators := ∅; sc_ks_replication_strategy := 0 |});
     cv_keyspace_version := 0;
     cv_migration := {| sc_mig_id := 0; sc_mig_pulling_operators := ∅; sc_mig_started_at := 0; sc_mig_aborted_at := None |};
     cv_maintenance := {| sc_maint_slot := None |}; cv_cluster_version := 0 |}.

Definition fake_deploy (registry : FakeRegistry) (signer : Z) (settings : ScSettings) (operators : list ScNodeOperator)
    : FakeRegistry * res fake_deployment_error FakeHandle :=
  let sc_view := fake_initial_view signer settings operators in
  match view_try_from_sc sc_view with
  | Err err => (registry, Err (FakeDeployment err))
  | Panic => (registry, Panic)
  | Ok view =>
      let id := wrap 8 (fr_next_contract_id registry + 1) in
      let address := account_address id in
      let contract := {| fi_address := address; fi_sc_view := sc_view; fi_view := view;
                         fi_next_migration_id := 1; fi_events := [] |} in
      let cell := length (fr_cells registry) in
      ({| fr_next_contract_id := id; fr_contracts := <[address := cell]> (fr_contracts registry);
          fr_cells := fr_cells registry ++ [Alive contract] |},
       Ok {| fh_signer := signer; fh_cell := cell |})
  end.

Definition fake_connect (registry : FakeRegistry) (signer address : Z) : res fake_connection_error FakeHandle :=
  cell ← ok_or (fr_contracts registry !! address) UnknownContract;
  Ok {| fh_signer := signer; fh_cell := cell |}.

(** A call through a handle. *)
Definition fake_handle_call (now : Z) (registry : FakeRegistry) (handle : FakeHandle) (call : ScCall)
    : FakeRegistry * res fake_write_error () :=
  match fr_cells registry !! fh_cell handle with
  | None => (registry, Panic)
  | Some cell =>
      let '(cell, r) := fake_call (fh_signer handle) now cell call in
      ({| fr_next_contract_id := fr_next_contract_id registry; fr_contracts := fr_contracts registry;
          fr_cells := <[fh_cell handle := cell]> (fr_cells registry) |}, r)
  end.

(** Calls in turn: signer, time and call. *)
Definition fake_calls (cell : Cell) (calls : list (Z * Z * ScCall)) : Cell :=
  foldl (λ cell c, (fake_call c.1.1 c.1.2 cell c.2).1) cell calls.
End fake_contract.

(** * What subscribers see *)
Section subscribers.
Context `{PeerIds, Ff1, Hashing, UnixTime}.
Context `{!Postcard DataV0, !Postcard DataV1, !Postcard ExtraV0, !Postcard ExtraV1}.
#[local] Existing Instance fake_config.
Implicit Types this : FakeInner.

(** The closures leave the view, the events and the address alone. *)
Definition closure_ok (f : FakeInner → option (FakeInner * Event)) : Prop :=
  ∀ this this' event, f this = Some (this', event) →
    fi_view this' = fi_view this ∧ fi_events this' = fi_events this ∧
    cv_cluster_version (fi_sc_view this') = wrap 128 (cv_cluster_version (fi_sc_view this) + 1).

Lemma closure_start_migration now ks : closure_ok (fake_start_migration now ks).
Proof. by intros this this' event [= <- <-]. Qed.
Lemma closure_complete_migration signer id : closure_ok (fake_complete_migration signer id).
Proof. intros this this' event. unfold fake_complete_migration. destruct (get_idx _ _); [|done]. by intros [= <- <-]. Qed.
Lemma closure_abort_migration now id : closure_ok (fake_abort_migration now id).
Proof. by intros this this' event [= <- <-]. Qed.
Lemma closure_start_maintenance signer : closure_ok (fake_start_maintenance signer).
Proof. by intros this this' event [= <- <-]. Qed.
Lemma closure_finish_maintenance : closure_ok fake_finish_maintenance.
Proof. by intros this this' event [= <- <-]. Qed.
Lemma closure_add_node_operator op : closure_ok (fake_add_node_operator op).
Proof. intros this this' event. unfold fake_add_node_operator. case_match. by intros [= <- <-]. Qed.
Lemma closure_update_node_operator op : closure_ok (fake_update_node_operator op).
Proof. intros this this' event. unfold fake_update_node_operator. destruct (find_empty_slot _); [|done]. by intros [= <- <-]. Qed.
Lemma closure_remove_node_operator id : closure_ok (fake_remove_node_operator id).
Proof. intros this this' event. unfold fake_remove_node_operator. destruct (find_empty_slot _); [|done]. by intros [= <- <-]. Qed.
Lemma closure_update_settings settings : closure_ok (fake_update_settings settings).
Proof. by intros this this' event [= <- <-]. Qed.

(** Every call is a write of such a closure, or does nothing. *)
Lemma fake_call_cases signer now cell call :
  (∃ f, closure_ok f ∧ fake_call signer now cell call = fake_write cell f) ∨
  fake_call signer now cell call = (cell, Ok ()).
Proof.
  destruct call; first [by right|left; eexists; split; [|reflexivity]];
    auto using closure_start_migration, closure_complete_migration, closure_abort_migration,
      closure_start_maintenance, closure_finish_maintenance, closure_add_node_operator,
      closure_update_node_operator, closure_remove_node_operator, closure_update_settings.
Qed.

(** What a write does to the view and the events. *)
Lemma fake_write_followed this this' f r :
  closure_ok f → fake_write (Alive this) f = (Alive this', r) →
  (r = Ok () ∧ ∃ event, fi_events this' = fi_events this ++ [event] ∧ apply_event (fi_view this) event = Ok (fi_view this')) ∨
  (r ≠ Ok () ∧ fi_events this' = fi_events this ∧ fi_view this' = fi_view this ∧
   cv_cluster_version (fi_sc_view this') = wrap 128 (cv_cluster_version (fi_sc_view this) + 1)).
Proof.
  intros Hf. cbn. destruct (f this) as [[this1 event]|] eqn:Hfe; [|done].
  apply Hf in Hfe as (Hv & He & Hc). destruct (apply_event (fi_view this) event) eqn:Ha; intros [= <- <-].
  - left. split; [done|]. exists event. cbn. by rewrite He.
  - right. done.
  - right. done.
Qed.

Lemma fake_call_poisoned signer now call : (fake_call signer now Poisoned call).1 = Poisoned.
Proof. by destruct call. Qed.

Lemma fake_calls_poisoned calls : fake_calls Poisoned calls = Poisoned.
Proof.
  unfold fake_calls. induction calls as [|c calls IH]; [done|]. cbn [foldl]. by rewrite fake_call_poisoned.
Qed.

Lemma apply_events_app (v v1 : View Node ()) es es' :
  apply_events v es = Ok v1 → apply_events v (es ++ es') = apply_events v1 es'.
Proof.
  revert v. induction es as [|e es IH]; intros v; cbn; [by intros <-%Ok_inj|].
  intros (v2 & Hv2 & Hes)%bind_Ok. rewrite Hv2. cbn. by apply IH.
Qed.

Lemma fake_calls_followed calls this this' :
  fake_calls (Alive this) calls = Alive this' →
  ∃ es, fi_events this' = fi_events this ++ es ∧ length es ≤ length calls ∧
    apply_events (fi_view this) es = Ok (fi_view this').
Proof.
  revert this. induction calls as [|[[signer now] call] calls IH]; intros this Hrun.
  { injection Hrun as <-. exists []. rewrite app_nil_r. done. }
  unfold fake_calls in Hrun. cbn [foldl fst snd] in Hrun.
  destruct (fake_call signer now (Alive this) call) as [[this1|] r] eqn:Hcall.
  2: { pose proof (fake_calls_poisoned calls) as Hp. unfold fake_calls in Hp. cbn [fst] in Hrun. congruence. }
  destruct (IH this1 Hrun) as (es & He & Hlen & Happ).
  destruct (fake_call_cases signer now (Alive this) call) as [(f & Hf & Heq)|Heq]; rewrite Heq in Hcall.
  2: { injection Hcall as <- <-. exists es. cbn. split_and!; [done|lia|done]. }
  apply (fake_write_followed _ _ _ _ Hf) in Hcall as [(_ & event & He1 & Happ1)|(_ & He1 & Hv1 & _)].
  - exists (event :: es). rewrite He, He1, <-app_assoc. cbn. split_and!; [done|lia|]. by rewrite Happ1.
  - exists es. rewrite He, He1, <-Hv1. cbn. split_and!; [done|lia|done].
Qed.

Lemma fake_received_all capacity this from :
  length (drop from (fi_events this)) ≤ capacity → fake_received capacity this from = Ok <$> drop from (fi_events this).
Proof. intros Hle. unfold fake_received. by replace (length _ - capacity) with 0 by lia. Qed.

(** A cluster that follows the fake contract sees its view: after any calls, whoever had the view of the
    contract at some point and subscribed then, and is not further behind than the channel holds, receives
    events that all apply, one after the other, and lead to the contract's present view. Rejected calls
    send no event, and a contract that is still alive never lost one. *)
Theorem fake_subscriber_follows capacity calls this this' :
  fake_calls (Alive this) calls = Alive this' → length calls ≤ capacity →
  ∃ es, fake_received capacity this' (fake_subscribe this) = Ok <$> es ∧
    apply_events (fi_view this) es = Ok (fi_view this').
Proof.
  intros Hrun Hcap. destruct (fake_calls_followed calls this this' Hrun) as (es & He & Hlen & Happ).
  exists es. split; [|done]. unfold fake_subscribe.
  assert (drop (length (fi_events this)) (fi_events this') = es) as Hdrop by by rewrite He, drop_app_length.
  rewrite fake_received_all; rewrite Hdrop; [done|lia].
Qed.
End subscribers.

(** * The two copies of the cluster *)
Section in_sync.
Context `{PeerIds, Ff1, HashingLaws, UnixTime}.
Context `{!Postcard DataV0, !Postcard DataV1, !Postcard ExtraV0, !Postcard ExtraV1}.
#[local] Existing Instance fake_config.
Implicit Types this : FakeInner.

(** Who is in which slot. *)
Definition sc_slot_ids (l : list (option ScNodeOperator)) : list (option Z) := option_map sc_op_id <$> l.
Definition view_slot_ids (l : list (option (NodeOperator Node))) : list (option Z) := option_map (op_id (N := Node)) <$> l.

(** The copies agree on the versions, the settings, the maintenance, who is in which slot,
    and which migration there is with who is still pulling. *)
Record copies_agree (sc : ClusterView) (v : View Node ()) : Prop := {
  ag_version : cv_cluster_version sc = v_cluster_version v;
  ag_keyspace_version : cv_keyspace_version sc = v_keyspace_version v;
  ag_maintenance : sc_maint_slot (cv_maintenance sc) = maintenance_slot <$> v_maintenance v;
  ag_settings : settings_try_from_sc (cv_settings sc) = Ok (v_settings v);
  ag_slots : sc_slot_ids (cv_node_operators sc) = view_slot_ids (slots (v_node_operators v));
  ag_migration : sc_mig_id (cv_migration sc) = mig_id (v_migration v);
  ag_pulling : sc_mig_pulling_operators (cv_migration sc) = default ∅ (mig_pulling_operators (v_migration v));
}.

Definition in_sync this : Prop := copies_agree (fi_sc_view this) (fi_view this).

(** The calls that keep the copies together when they succeed. *)
Definition calm (call : ScCall) : bool :=
  match call with
  | CallAbortMigration _ | CallUpdateNodeOperator _ | CallRemoveNodeOperator _ => false
  | _ => true
  end.

Lemma fake_write_Ok this this' f :
  fake_write (Alive this) f = (Alive this', Ok ()) →
  ∃ this1 event v, f this = Some (this1, event) ∧ apply_event (fi_view this) event = Ok v ∧
    this' = fi_commit this1 v event.
Proof.
  cbn. destruct (f this) as [[this1 event]|]; [|done].
  destruct (apply_event (fi_view this) event) as [v| |] eqn:Ha; intros Heq; try discriminate Heq.
  injection Heq as <-. by exists this1, event, v.
Qed.

(** An event with the next version is applied by its handler. *)
Lemma apply_event_handler this event v :
  apply_event (fi_view this) event = Ok v → event_cluster_version event = fake_next_version this ∧
  ∃ w, v = set_cluster_version w (fake_next_version this) ∧
  match event with
  | EvMigrationStarted evt => apply_MigrationStarted evt (fi_view this)
  | EvMigrationDataPullCompleted evt => apply_MigrationDataPullCompleted evt (fi_view this)
  | EvMigrationCompleted evt => apply_MigrationCompleted evt (fi_view this)
  | EvMigrationAborted evt => apply_MigrationAborted evt (fi_view this)
  | EvMaintenanceStarted evt => apply_MaintenanceStarted evt (fi_view this)
  | EvMaintenanceFinished evt => apply_MaintenanceFinished evt (fi_view this)
  | EvNodeOperatorAdded evt => apply_NodeOperatorAdded evt (fi_view this)
  | EvNodeOperatorUpdated evt => apply_NodeOperatorUpdated evt (fi_view this)
  | EvNodeOperatorRemoved evt => apply_NodeOperatorRemoved evt (fi_view this)
  | EvSettingsUpdated evt => apply_SettingsUpdated evt (fi_view this)
  end = Ok w.
Proof.
  unfold apply_event. case_decide as Hv; [done|].
  intros (w & Hw & <-%Ok_inj)%bind_Ok. split; [exact Hv|]. exists w. split; [|exact Hw]. by rewrite Hv.
Qed.

(** Takes apart a successful call. *)
Ltac open_call Hcall :=
  let this1 := fresh "this1" in let event := fresh "event" in let v := fresh "v" in
  let Hf := fresh "Hf" in let Ha := fresh "Ha" in
  apply fake_write_Ok in Hcall as (this1 & event & v & Hf & Ha & ->);
  apply apply_event_handler in Ha as [_ (?w & -> & Ha)].

Lemma sync_version this : in_sync this → wrap 128 (cv_cluster_version (fi_sc_view this) + 1) = fake_next_version this.
Proof. intros Hs. unfold fake_next_version. by rewrite (ag_version _ _ Hs). Qed.

Lemma sync_start_migration now ks this this' :
  in_sync this → fake_write (Alive this) (fake_start_migration now ks) = (Alive this', Ok ()) → in_sync this'.
Proof.
  intros Hs Hcall. open_call Hcall. injection Hf as <- <-. unfold apply_MigrationStarted in Ha. mon_inv.
  apply keyspace_try_from_sc_Ok in Hm1 as (_ & Hops & _).
  split; cbn; try apply Hs; [by apply sync_version|by rewrite (ag_keyspace_version _ _ Hs)|done|].
  unfold ks_operators_iter. by rewrite list_to_set_hashset_iter, Hops.
Qed.

Lemma sync_maintenance signer (starts : bool) this this' :
  in_sync this →
  fake_write (Alive this) (if starts then fake_start_maintenance signer else fake_finish_maintenance) = (Alive this', Ok ()) →
  in_sync this'.
Proof.
  intros Hs Hcall. destruct starts; open_call Hcall; injection Hf as <- <-.
  - unfold apply_MaintenanceStarted in Ha. mon_inv. split; cbn; try apply Hs; [by apply sync_version|done].
  - unfold apply_MaintenanceFinished in Ha. mon_inv. split; cbn; try apply Hs; [by apply sync_version|done].
Qed.

Lemma sync_update_settings settings this this' :
  in_sync this → fake_write (Alive this) (fake_update_settings settings) = (Alive this', Ok ()) → in_sync this'.
Proof.
  intros Hs Hcall. open_call Hcall. injection Hf as <- <-. unfold apply_SettingsUpdated in Ha. mon_inv.
  split; cbn; try apply Hs; [by apply sync_version|done].
Qed.

(** The last operator to pull. *)
Lemma last_puller (s : gset Z) idx : idx ∈ s → size s = 1 → s ∖ {[idx]} = ∅.
Proof. intros Hin [x Hx]%size_1_elem_of. set_solver. Qed.

Lemma sync_complete_migration signer id this this' :
  in_sync this → fake_write (Alive this) (fake_complete_migration signer id) = (Alive this', Ok ()) → in_sync this'.
Proof.
  intros Hs Hcall. open_call Hcall. unfold fake_complete_migration in Hf.
  destruct (get_idx (v_node_operators (fi_view this)) signer) as [idx|] eqn:Hidx; [|done]. cbn in Hf.
  injection Hf as <- <-. pose proof (ag_pulling _ _ Hs) as Hp. case_decide as Hcount.
  - unfold apply_MigrationDataPullCompleted, require_idx in Ha. cbn in Ha. rewrite Hidx in Ha. mon_inv.
    apply require_pulling_Ok in Hm1 as (ks & pulling & Hst & Hin).
    unfold require_migration in Hm. destruct (is_in_progress _) eqn:Hip; mon_inv.
    unfold mig_pulling_operators in Hp. rewrite Hst in Hp. cbn in Hp.
    split; cbn; try apply Hs; [by apply sync_version| |].
    + unfold complete_pull. rewrite Hst. apply (ag_migration _ _ Hs).
    + unfold complete_pull, mig_pulling_operators. rewrite Hst. cbn. by rewrite Hp.
  - unfold apply_MigrationCompleted, require_idx in Ha. cbn in Ha. rewrite Hidx in Ha. cbn in Ha.
    unfold mig_complete in Ha. mon_inv.
    apply require_pulling_Ok in Hm1 as (ks & pulling & Hst & Hin).
    unfold require_migration in Hm. destruct (is_in_progress _) eqn:Hip; mon_inv.
    unfold mig_pulling_operators in Hp. rewrite Hst in Hp, Ha. cbn in Hp, Ha. mon_inv.
    unfold require_pulling_count, pulling_count in Hm2. rewrite Hst in Hm2. case_decide as Hsz; [|done].
    split; cbn; try apply Hs; [by apply sync_version|].
    by apply last_puller.
Qed.

(** The slot the fake puts an operator in. *)
Lemma empty_slot_cases l :
  match find_empty_slot l with
  | Some idx => l !! idx = Some None ∧ ∀ j, j < idx → ∃ op, l !! j = Some (Some op)
  | None => ∀ j, j < length l → ∃ op, l !! j = Some (Some op)
  end.
Proof.
  unfold find_empty_slot. destruct (list_find _ l) as [[idx slot]|] eqn:Hf; cbn.
  - apply list_find_Some in Hf as (Hl & -> & Hbefore). split; [done|]. intros j Hj.
    destruct (l !! j) as [[op|]|] eqn:Hlj; [by exists op|by destruct (Hbefore j None Hlj Hj)|].
    apply lookup_ge_None in Hlj. apply lookup_lt_Some in Hl. lia.
  - apply list_find_None in Hf. intros j [slot Hlj]%lookup_lt_is_Some. rewrite Forall_lookup in Hf.
    specialize (Hf _ _ Hlj). destruct slot as [op|]; [by exists op|done].
Qed.

Lemma slot_ids_occupied l (ops : list (option (NodeOperator Node))) j op :
  sc_slot_ids l = view_slot_ids ops → l !! j = Some (Some op) → ∃ op', ops !! j = Some (Some op').
Proof.
  intros Heq Hl. assert (sc_slot_ids l !! j = Some (Some (sc_op_id op))) as Hj.
  { unfold sc_slot_ids. by rewrite list_lookup_fmap, Hl. }
  rewrite Heq in Hj. unfold view_slot_ids in Hj. rewrite list_lookup_fmap in Hj.
  destruct (ops !! j) as [[op'|]|]; [by exists op'|done|done].
Qed.

Lemma slot_ids_length l (ops : list (option (NodeOperator Node))) :
  sc_slot_ids l = view_slot_ids ops → length l = length ops.
Proof. intros Heq%(f_equal length). unfold sc_slot_ids, view_slot_ids in Heq. by rewrite !length_fmap in Heq. Qed.

(** An index that does not fit a byte reads as that of an occupied slot. *)
Lemma wrapped_slot_free l (ops : NodeOperators Node) (idx : nat) :
  sc_slot_ids l = view_slot_ids (slots ops) → (∀ j, j < idx → ∃ op, l !! j = Some (Some op)) →
  require_free_slot ops (wrap 8 (Z.of_nat idx)) = Ok () → wrap 8 (Z.of_nat idx) = Z.of_nat idx.
Proof.
  intros Heq Hbefore Hfree. destruct (decide (Z.of_nat idx < 256)%Z) as [?|Hge].
  { unfold wrap. apply Z.mod_small. lia. }
  exfalso. set (k := wrap 8 (Z.of_nat idx)) in *. assert (0 ≤ k < 256)%Z as Hk by (unfold k, wrap; apply Z.mod_pos_bound; lia).
  destruct (Hbefore (Z.to_nat k)) as [op Hop]; [lia|]. destruct (slot_ids_occupied _ _ _ _ Heq Hop) as [op' Hop'].
  unfold require_free_slot, contains_idx, get_by_idx in Hfree. rewrite Hop' in Hfree. done.
Qed.

Lemma operator_from_sc_id {E} sc (op : NodeOperator Node) : operator_from_sc (E := E) sc = Ok op → op_id op = sc_op_id sc.
Proof.
  unfold operator_from_sc. destruct (operator_try_from_sc sc) as [op'| |] eqn:Hop; intros Heq; [|by apply Ok_inj in Heq as <-|done].
  apply Ok_inj in Heq as <-. by apply try_from_sc_wf in Hop as [_ ->].
Qed.

Lemma sync_add_node_operator op this this' :
  in_sync this → fake_write (Alive this) (fake_add_node_operator op) = (Alive this', Ok ()) → in_sync this'.
Proof.
  intros Hs Hcall. open_call Hcall. unfold fake_add_node_operator in Hf. pose proof (ag_slots _ _ Hs) as Hids.
  set (l := cv_node_operators (fi_sc_view this)) in *. set (ops := v_node_operators (fi_view this)) in *.
  pose proof (slot_ids_length _ _ Hids) as Hlen. pose proof (empty_slot_cases l) as Hslot.
  assert (∃ idx l', (match find_empty_slot l with Some idx => (idx, <[idx := Some op]> l) | None => (length l, l ++ [Some op]) end) = (idx, l') ∧
    (∀ j, j < idx → ∃ op, l !! j = Some (Some op)) ∧ idx ≤ length l ∧
    l' = if decide (idx = length l) then l ++ [Some op] else <[idx := Some op]> l) as (idx & l' & Heq & Hbefore & Hle & ->).
  { destruct (find_empty_slot l) as [idx|].
    - destruct Hslot as [Hidx Hb]. apply lookup_lt_Some in Hidx. exists idx, (<[idx := Some op]> l).
      rewrite decide_False by lia. split_and!; [done|done|lia|done].
    - exists (length l), (l ++ [Some op]). rewrite decide_True by done. split_and!; [done|done|lia|done]. }
  rewrite Heq in Hf. injection Hf as <- <-. unfold apply_NodeOperatorAdded in Ha. mon_inv.
  apply (wrapped_slot_free _ _ _ Hids Hbefore) in Hm0. rewrite Hm0 in Hm2.
  rewrite ops_set_cases, decide_True in Hm2 by (fold ops; lia). cbn zeta in Hm2. apply Ok_inj in Hm2 as <-.
  apply operator_from_sc_id in Hm1 as Hid.
  split; cbn; try apply Hs; [by apply sync_version|].
  fold ops. rewrite expand_eq, Nat2Z.id by lia. unfold sc_slot_ids, view_slot_ids in *. case_decide as Hd.
  - rewrite decide_True by lia. rewrite fmap_app, Hids, insert_app_r_alt by lia.
    replace (idx - length (slots ops)) with 0 by lia. cbn. rewrite fmap_app. cbn. by rewrite Hid.
  - rewrite decide_False by lia. rewrite !list_fmap_insert, Hids. cbn. by rewrite Hid.
Qed.

Lemma sync_call signer now call this this' :
  calm call = true → in_sync this → fake_call signer now (Alive this) call = (Alive this', Ok ()) → in_sync this'.
Proof.
  destruct call; cbn [calm fake_call]; try done; intros _ Hs Hcall.
  - by eapply sync_start_migration.
  - by eapply sync_complete_migration.
  - by apply (sync_maintenance signer true this).
  - by apply (sync_maintenance signer false this).
  - by eapply sync_add_node_operator.
  - by eapply sync_update_settings.
  - by injection Hcall as <-.
  - by injection Hcall as <-.
Qed.

(** ** Deployment *)

Lemma decoded_slot_ids {E} l ops :
  res_map (E := E) (option_mapM operator_from_sc) l = Ok ops → sc_slot_ids l = view_slot_ids ops.
Proof.
  revert ops. induction l as [|slot l IH]; intros ops Hm; cbn in Hm; [by apply Ok_inj in Hm as <-|].
  apply bind_Ok in Hm as (o & Ho & Hm). apply bind_Ok in Hm as (os & Hos & <-%Ok_inj).
  unfold sc_slot_ids, view_slot_ids. cbn. f_equal; [|by apply IH]. destruct slot as [sc|]; cbn in Ho.
  - apply bind_Ok in Ho as (op & Hop & <-%Ok_inj). cbn. by rewrite (operator_from_sc_id _ _ Hop).
  - by apply Ok_inj in Ho as <-.
Qed.

Lemma deployed_agrees signer settings operators v :
  view_try_from_sc (fake_initial_view signer settings operators) = Ok v →
  copies_agree (fake_initial_view signer settings operators) v.
Proof.
  unfold view_try_from_sc. intros Hv. apply bind_Ok in Hv as (l & Hl & Hv).
  apply bind_Ok in Hv as (ops & Hfrom%map_err_Ok & Hv). apply bind_Ok in Hv as (s & Hset%map_err_Ok & Hv).
  apply bind_Ok in Hv as (pver & _ & Hv). cbn [cv_keyspaces fake_initial_view] in Hv.
  case_match; apply bind_Ok in Hv as (ks & _ & Hv); apply bind_Ok in Hv as (u & _ & Hv).
  apply bind_Ok in Hv as (m & Hm%map_err_Ok & Hv). apply bind_Ok in Hv as (u' & _ & Hv).
  apply bind_Ok in Hv as (ks' & _ & Hv). apply bind_Ok in Hv as (m' & Hm' & Hv). apply Ok_inj in Hv as <-.
  unfold migration_try_from_sc in Hm. cbn in Hm. apply bind_Ok in Hm as (st & <-%Ok_inj & (t & _ & <-%Ok_inj)%bind_Ok).
  unfold calculate_keyspace in Hm'. cbn in Hm'. apply Ok_inj in Hm' as <-.
  apply decoded_slot_ids in Hl. pose proof (from_slots_cases l) as Hc. rewrite Hfrom in Hc. destruct Hc as (_ & Hslots & _).
  split; cbn; try done. by rewrite Hslots.
Qed.

(** Calls in turn that all succeed. *)
Fixpoint fake_calls_ok (cell : Cell) (calls : list (Z * Z * ScCall)) : option Cell :=
  match calls with
  | [] => Some cell
  | (signer, now, call) :: calls =>
      match fake_call signer now cell call with
      | (cell, Ok _) => fake_calls_ok cell calls
      | _ => None
      end
  end.

Lemma fake_calls_ok_sync calls this cell :
  in_sync this → Forall (λ c, calm c.2 = true) calls → fake_calls_ok (Alive this) calls = Some cell →
  ∃ this', cell = Alive this' ∧ in_sync this'.
Proof.
  intros Hs Hcalm. revert this Hs. induction Hcalm as [|[[signer now] call] calls Hc _ IH]; intros this Hs Hrun.
  { injection Hrun as <-. by exists this. }
  cbn in Hrun. destruct (fake_call signer now (Alive this) call) as [cell1 [[]| |]] eqn:Hcall; try done.
  destruct cell1 as [this1|].
  - apply (IH this1); [|done]. by apply (sync_call signer now call this).
  - destruct call; cbn in Hcall; try done; repeat case_match; simplify_eq.
Qed.

(** C29. The two copies of the cluster in the fake contract stay together: a deployed contract starts with copies
    that agree, everyone who connects to its address gets that same contract, and after any
    successful calls other than aborting a migration and updating or removing an operator, what readers
    get and what followers of the events have agree on the versions, the settings, the maintenance,
    who is in which slot, and the migration with who is still pulling. *)
Theorem fake_contract_in_sync registry signer settings operators registry' handle calls cell :
  fake_deploy registry signer settings operators = (registry', Ok handle) →
  fr_cells registry' !! fh_cell handle = Some cell →
  (∀ other, fake_connect registry' other (account_address (fr_next_contract_id registry')) =
     Ok {| fh_signer := other; fh_cell := fh_cell handle |}) ∧
  ∀ cell', Forall (λ c, calm c.2 = true) calls → fake_calls_ok cell calls = Some cell' →
    ∃ this, cell' = Alive this ∧ in_sync this.
Proof.
  unfold fake_deploy. destruct (view_try_from_sc (fake_initial_view signer settings operators)) as [v| |] eqn:Hv; [|done|done].
  intros Hdeploy. pose proof (f_equal fst Hdeploy) as Hr. pose proof (f_equal snd Hdeploy) as Hh. clear Hdeploy.
  cbn [fst snd] in Hr, Hh. apply Ok_inj in Hh as <-. rewrite <-Hr. clear Hr registry'.
  cbn [fr_cells fh_cell fr_next_contract_id]. rewrite list_lookup_middle by done. intros Hcell. apply (inj Some) in Hcell as <-. split.
  - intros other. unfold fake_connect. cbn [fr_contracts]. by rewrite lookup_insert_eq.
  - intros cell'. apply fake_calls_ok_sync. by apply deployed_agrees.
Qed.

(** ** The calls that part the copies *)

Lemma abort_parts now id this this' :
  in_sync this → fake_write (Alive this) (fake_abort_migration now id) = (Alive this', Ok ()) →
  cv_keyspace_version (fi_sc_view this') = u64_add (v_keyspace_version (fi_view this)) 1 ∧
  v_keyspace_version (fi_view this') = u64_sub (v_keyspace_version (fi_view this)) 1.
Proof.
  intros Hs Hcall. open_call Hcall. injection Hf as <- <-. unfold apply_MigrationAborted in Ha. mon_inv.
  cbn. by rewrite (ag_keyspace_version _ _ Hs).
Qed.

Lemma remove_keeps id this this' :
  fake_write (Alive this) (fake_remove_node_operator id) = (Alive this', Ok ()) →
  cv_node_operators (fi_sc_view this') = cv_node_operators (fi_sc_view this).
Proof.
  intros Hcall. open_call Hcall. unfold fake_remove_node_operator in Hf.
  pose proof (empty_slot_cases (cv_node_operators (fi_sc_view this))) as Hslot.
  destruct (find_empty_slot _) as [idx|]; [|done]. injection Hf as <- <-. apply list_insert_id, Hslot.
Qed.

Lemma full_slots_panic call this signer now :
  find_empty_slot (cv_node_operators (fi_sc_view this)) = None →
  (∃ op, call = CallUpdateNodeOperator op) ∨ (∃ id, call = CallRemoveNodeOperator id) →
  fake_call signer now (Alive this) call = (Poisoned, Panic).
Proof.
  intros Hfull [[op ->]|[id ->]]; cbn; unfold fake_update_node_operator, fake_remove_node_operator; by rewrite Hfull.
Qed.

Lemma rejected_parts signer now call this this' e :
  in_sync this → fits 128 (cv_cluster_version (fi_sc_view this)) →
  fake_call signer now (Alive this) call = (Alive this', Err e) →
  fi_view this' = fi_view this ∧ fi_events this' = fi_events this ∧ ¬ in_sync this'.
Proof.
  intros Hs Hfits Hcall. destruct (fake_call_cases signer now (Alive this) call) as [(f & Hf & Heq)|Heq]; rewrite Heq in Hcall; [|done].
  apply (fake_write_followed _ _ _ _ Hf) in Hcall as [[? _]|(_ & He & Hv & Hc)]; [done|]. split_and!; [done|done|].
  intros Hs'. apply ag_version in Hs, Hs'. rewrite Hc, Hv, <-Hs in Hs'. unfold fits, wrap in *.
  destruct (decide (cv_cluster_version (fi_sc_view this) + 1 < 2 ^ 128)%Z).
  - rewrite Z.mod_small in Hs' by lia. lia.
  - replace (cv_cluster_version (fi_sc_view this) + 1)%Z with (2 ^ 128)%Z in Hs' by lia. rewrite Z_mod_same_full in Hs'. lia.
Qed.

(** The other calls part the copies of the fake contract: an aborted migration leaves readers two
    keyspace versions ahead of followers; a removed operator stays in what readers get;
    updating or removing an operator while every slot is taken, as after deployment, poisons the contract;
    and a rejected call sends nothing and leaves the view alone, but readers get its effects. *)
Theorem fake_contract_parts signer now call this this' r :
  in_sync this → (1 ≤ v_keyspace_version (fi_view this) < 2 ^ 64 - 1)%Z → fits 128 (cv_cluster_version (fi_sc_view this)) →
  (fake_call signer now (Alive this) call = (Alive this', r) →
    (∀ id, call = CallAbortMigration id → r = Ok () →
      cv_keyspace_version (fi_sc_view this') = v_keyspace_version (fi_view this') + 2)%Z ∧
    (∀ id, call = CallRemoveNodeOperator id → r = Ok () →
      cv_node_operators (fi_sc_view this') = cv_node_operators (fi_sc_view this)) ∧
    (∀ e, r = Err e → fi_view this' = fi_view this ∧ fi_events this' = fi_events this ∧ ¬ in_sync this')) ∧
  (find_empty_slot (cv_node_operators (fi_sc_view this)) = None →
   (∃ op, call = CallUpdateNodeOperator op) ∨ (∃ id, call = CallRemoveNodeOperator id) →
   fake_call signer now (Alive this) call = (Poisoned, Panic)).
Proof.
  intros Hs Hkv Hfits. split; [|apply full_slots_panic]. intros Hcall. split_and!.
  - intros id -> ->. apply (abort_parts _ _ _ _ Hs) in Hcall as [-> ->].
    unfold u64_add, u64_sub, wrap. rewrite !Z.mod_small; lia.
  - intros id -> ->. by eapply remove_keeps.
  - intros e ->. by eapply rejected_parts.
Qed.
End in_sync.

(** * Witnesses *)
#[local] Existing Instance toy_peer_ids.
#[local] Existing Instance toy_ff1.
#[local] Existing Instance toy_hashing.
#[local] Existing Instance toy_hashing_laws.
#[local] Existing Instance toy_unix_time.
#[local] Existing Instance toy_d0.
#[local] Existing Instance toy_d1.
#[local] Existing Instance toy_e0.
#[local] Existing Instance toy_e1.
#[local] Existing Instance fake_config.

Definition fake_deployed : FakeRegistry * res fake_deployment_error FakeHandle :=
  fake_deploy fake_registry_default 99 chain_settings chain_operators.
Definition fake_fresh : Cell := default Poisoned (fr_cells fake_deployed.1 !! 0).

(** Six operators; the fifth leaves the keyspace, and the migration is aborted. *)
Definition fake_shrink : ScCall :=
  CallStartMigration {| sc_ks_operators := list_to_set [0; 1; 2; 3; 5]%Z; sc_ks_replication_strategy := 0 |}.
Definition fake_migrating : Cell := fake_calls fake_fresh [(99, 1000, fake_shrink)]%Z.

Lemma fake_deployed_ok : fake_deployed.2 = Ok {| fh_signer := 99; fh_cell := 0 |}.
Proof. vm_compute. reflexivity. Qed.

(** What is tested of a contract that should be alive. *)
Definition alive_with (test : FakeInner → bool) (cell : Cell) : bool :=
  match cell with Alive this => test this | Poisoned => false end.

Lemma alive_with_true test cell : alive_with test cell = true → ∃ this, cell = Alive this ∧ test this = true.
Proof. destruct cell as [this|]; [by exists this|done]. Qed.

Lemma fake_fresh_alive : ∃ this, fake_fresh = Alive this.
Proof.
  destruct (alive_with_true (λ _, true) fake_fresh) as (this & Hthis & _); [vm_compute; reflexivity|].
  exists this. exact Hthis.
Qed.

Definition fake_migrating_test (this : FakeInner) : bool :=
  bool_decide (v_keyspace_version (fi_view this) = 1%Z) && bool_decide (cv_cluster_version (fi_sc_view this) = 1%Z) &&
  bool_decide (find_empty_slot (cv_node_operators (fi_sc_view this)) = None).

Definition call_succeeds (cell : Cell) (now : Z) (call : ScCall) : bool :=
  match fake_call 99 now cell call with (Alive _, Ok _) => true | _ => false end.

Lemma call_succeeds_true cell now call :
  call_succeeds cell now call = true → ∃ this, fake_call 99 now cell call = (Alive this, Ok ()).
Proof.
  unfold call_succeeds. destruct (fake_call 99 now cell call) as [[this|] [[]| |]]; try done. by exists this.
Qed.

Lemma fake_migrating_alive : ∃ this, fake_calls_ok fake_fresh [(99, 1000, fake_shrink)]%Z = Some (Alive this) ∧
  fake_migrating = Alive this ∧ v_keyspace_version (fi_view this) = 1%Z ∧ cv_cluster_version (fi_sc_view this) = 1%Z ∧
  find_empty_slot (cv_node_operators (fi_sc_view this)) = None.
Proof.
  destruct (alive_with_true fake_migrating_test fake_migrating) as (this & Hthis & Htest); [vm_compute; reflexivity|].
  destruct (call_succeeds_true fake_fresh 1000 fake_shrink) as (this1 & Hcall); [vm_compute; reflexivity|].
  exists this. unfold fake_migrating_test in Htest. apply andb_true_iff in Htest as [[Hkv Hcv]%andb_true_iff Hslot].
  apply bool_decide_eq_true_1 in Hkv, Hcv, Hslot.
  assert (this1 = this) as ->.
  { unfold fake_migrating, fake_calls in Hthis. cbn [foldl fst snd] in Hthis. rewrite Hcall in Hthis. cbn [fst] in Hthis. congruence. }
  split; [|exact (conj Hthis (conj Hkv (conj Hcv Hslot)))]. cbn [fake_calls_ok]. by rewrite Hcall.
Qed.

Lemma fake_fresh_sync this : fake_fresh = Alive this → in_sync this.
Proof.
  unfold fake_fresh, fake_deployed, fake_deploy.
  pose proof (deployed_agrees 99 chain_settings chain_operators) as Hag.
  destruct (view_try_from_sc (fake_initial_view 99 chain_settings chain_operators)) as [v| |]; [|discriminate..].
  intros Heq. change (Alive {| fi_address := account_address 1; fi_sc_view := fake_initial_view 99 chain_settings chain_operators;
    fi_view := v; fi_next_migration_id := 1; fi_events := [] |} = Alive this) in Heq.
  assert (this = {| fi_address := account_address 1; fi_sc_view := fake_initial_view 99 chain_settings chain_operators;
    fi_view := v; fi_next_migration_id := 1; fi_events := [] |}) as -> by congruence.
  exact (Hag v eq_refl).
Qed.

Lemma fake_subscriber_follows_witness : ∃ this this' es,
  fake_fresh = Alive this ∧ fake_migrating = Alive this' ∧
  fake_received 100 this' (fake_subscribe this) = Ok <$> es ∧ apply_events (fi_view this) es = Ok (fi_view this').
Proof.
  destruct fake_fresh_alive as [this Hthis], fake_migrating_alive as (this' & _ & Hthis' & _).
  destruct (fake_subscriber_follows 100 [(99, 1000, fake_shrink)]%Z this this') as (es & Hes & Happ);
    [rewrite <-Hthis; exact Hthis'|cbn; lia|].
  exists this, this', es. exact (conj Hthis (conj Hthis' (conj Hes Happ))).
Defined.

Lemma fake_contract_in_sync_witness : ∃ this,
  fake_calls_ok fake_fresh [(99, 1000, fake_shrink)]%Z = Some (Alive this) ∧ in_sync this ∧
  fake_connect fake_deployed.1 7 (account_address (fr_next_contract_id fake_deployed.1)) = Ok {| fh_signer := 7; fh_cell := 0 |}.
Proof.
  assert (fake_deployed = (fake_deployed.1, Ok {| fh_signer := 99; fh_cell := 0 |})) as Hdep.
  { rewrite <-fake_deployed_ok. apply surjective_pairing. }
  assert (fr_cells fake_deployed.1 !! 0 = Some fake_fresh) as Hcell.
  { destruct fake_fresh_alive as [this Hthis]. unfold fake_fresh in *. by destruct (fr_cells fake_deployed.1 !! 0). }
  destruct (fake_contract_in_sync fake_registry_default 99 chain_settings chain_operators fake_deployed.1
    {| fh_signer := 99; fh_cell := 0 |} [(99, 1000, fake_shrink)]%Z fake_fresh Hdep Hcell) as [Hcon Hrun].
  destruct fake_migrating_alive as (this & Hthis & _). exists this. split; [exact Hthis|]. split; [|apply Hcon].
  destruct (Hrun (Alive this)) as (this' & Heq & Hs); [constructor; [reflexivity|constructor]|exact Hthis|].
  injection Heq as Heq. rewrite Heq. exact Hs.
Defined.

Lemma fake_contract_parts_witness : ∃ this this',
  fake_migrating = Alive this ∧ fake_call 99 2000 (Alive this) (CallAbortMigration 1) = (Alive this', Ok ()) ∧
  cv_keyspace_version (fi_sc_view this') = (v_keyspace_version (fi_view this') + 2)%Z ∧
  fake_call 99 2000 (Alive this) (CallRemoveNodeOperator 1) = (Poisoned, Panic).
Proof.
  destruct fake_migrating_alive as (this & Hok & Hthis & Hkv & Hcv & Hfull).
  destruct fake_fresh_alive as [this0 Hthis0].
  assert (in_sync this) as Hs.
  { assert (in_sync this0) as Hs0.
    { apply fake_fresh_sync, Hthis0. }
    rewrite Hthis0 in Hok. destruct (fake_calls_ok_sync [(99, 1000, fake_shrink)]%Z this0 (Alive this) Hs0) as (this1 & Heq & Hs);
      [constructor; [reflexivity|constructor]|exact Hok|]. injection Heq as Heq. rewrite Heq. exact Hs. }
  destruct (call_succeeds_true fake_migrating 2000 (CallAbortMigration 1)) as [this' Habort]; [vm_compute; reflexivity|].
  rewrite Hthis in Habort. exists this, this'. split; [exact Hthis|]. split; [exact Habort|].
  assert (1 ≤ v_keyspace_version (fi_view this) < 2 ^ 64 - 1)%Z as Hkv' by (rewrite Hkv; lia).
  assert (fits 128 (cv_cluster_version (fi_sc_view this))) as Hcv' by (rewrite Hcv; unfold fits; lia).
  split.
  - destruct (fake_contract_parts 99 2000 (CallAbortMigration 1) this this' (Ok ()) Hs Hkv' Hcv') as [Hparts _].
    destruct (Hparts Habort) as (Hab & _). by apply (Hab 1%Z).
  - apply (fake_contract_parts 99 2000 (CallRemoveNodeOperator 1) this this' (Ok ()) Hs Hkv' Hcv'); [exact Hfull|right; by exists 1%Z].
Defined.
