(* ===== verification/Rpc.v ===== *)
(** Rpc: names, connection status and handshake of the RPC layer
    (src/crates/rpc/src/lib.rs, [connect] of client.rs, [accept_connection],
    [ConnectionRouter] and [PendingConnection] of server.rs).

    A stream is the list of bytes that one side has written to it; reading more
    than there is fails.  The QUIC connection itself, with the peer ids it
    authenticates, is given. *)
From S2P Require Import Prelude External.
From stdpp Require Import prelude list strings.

(** * Names *)

Definition PROTOCOL_VERSION : Z := 0%Z.

(** [struct ApiName([u8; 16])]. *)
Definition ApiName := list Z.

(** The recursion goes on until the index is the length of the source; [fuel] is
    at least the number of calls that are left. *)
Fixpoint copy_slice_recursive (fuel idx : nat) (src dst : list Z) : res Empty_set (list Z) :=
  match fuel with
  | O => Panic
  | S fuel =>
      if decide (idx = length src) then Ok dst
      else
        byte ← unwrap (src !! idx);
        if decide (idx < length dst) then copy_slice_recursive fuel (S idx) src (<[idx := byte]> dst)
        else Panic
  end.

Definition api_name_new (s : list Z) : res Empty_set ApiName :=
  if decide (length s ≤ 16) then copy_slice_recursive (S (length s)) 0 s (replicate 16 0%Z)
  else Panic.

(** * Connection status *)

Inductive ConnectionStatus :=
| StatusOk
| StatusUnsupportedProtocol
| StatusUnknownApi
| StatusUnauthorized
| StatusRejected (reason : Z).

Definition status_try_from (code : Z) : option ConnectionStatus :=
  if decide (code = 0)%Z then Some StatusOk
  else if decide (code = -1)%Z then Some StatusUnsupportedProtocol
  else if decide (code = -2)%Z then Some StatusUnknownApi
  else if decide (code = -3)%Z then Some StatusUnauthorized
  else if decide (-1255 ≤ code ≤ -1000)%Z then Some (StatusRejected (wrap 8 (- code - 1000)))
  else None.

Definition status_code (self : ConnectionStatus) : Z :=
  match self with
  | StatusOk => 0
  | StatusUnsupportedProtocol => -1
  | StatusUnknownApi => -2
  | StatusUnauthorized => -2
  | StatusRejected reason => - reason - 1000
  end%Z.

(** * Streams *)

(** [write_i32] and [write_u32] are big endian; a negative number is written in
    two's complement. *)
Definition write_i32 (z : Z) : list Z := to_be_bytes 4 (wrap 32 z).
Definition write_u32 (z : Z) : list Z := to_be_bytes 4 z.

(** [read_exact]: the bytes and the rest of the stream. *)
Definition read_exact (n : nat) (stream : list Z) : option (list Z * list Z) :=
  if decide (n ≤ length stream) then Some (take n stream, drop n stream) else None.

Definition read_u32 (stream : list Z) : option (Z * list Z) :=
  '(bytes, rest) ← read_exact 4 stream; Some (from_be_bytes bytes, rest).

Definition read_i32 (stream : list Z) : option (Z * list Z) :=
  '(u, rest) ← read_u32 stream;
  Some (if decide (u < 2 ^ 31)%Z then u else (u - 2 ^ 32)%Z, rest).

(** * Errors *)

(** [client::ErrorInner]; the payloads of other crates are rendered. *)
Inductive RpcClientError `{PeerIds} :=
| CeNotConnected
| CeQuic (e : string)
| CeExtractPeerId (e : string)
| CeWrongPeerId (peer : PeerId)
| CeConnect (e : string)
| CeConnection (e : string)
| CeIo (e : string)
| CeWrite (e : string)
| CeTooManyConcurrentRpcs
| CeSendBufferFull
| CeTimeout
| CeCodec (e : string)
| CeStreamFinished
| CeWrongResponse (e : string)
| CeUnknownConnectionStatusCode (code : Z)
| CeUnsupportedProtocol
| CeUnknownApi
| CeInvalidRpcId (id : Z)
| CeConnectionRejected (reason : Z).

(** [server::ErrorInner]. *)
Inductive RpcServerError :=
| SeGenCertificate (e : string)
| SeRustls (e : string)
| SeQuic (e : string)
| SeExtractPeerId (e : string)
| SeConnection (e : string)
| SeConnectionTimeout
| SeIo (e : string)
| SeReadHeader (e : string)
| SeUnsupportedProtocolVersion (ver : Z)
| SeUnknownApi (name : ApiName)
| SeCodec (e : string)
| SeStreamFinished
| SeReadRpcIdTimeout
| SeUnknownRpcId (id : Z)
| SeTimeout.

Definition is_unknown_api (e : RpcServerError) : bool :=
  match e with SeUnknownApi _ => true | _ => false end.

Section rpc.
Context `{PeerIds}.

(** * The server's side *)

(** What the connection handler of an API does with a pending connection:
    [accept], [reject], or an error before either. *)
Inductive PendingOutcome :=
| Accepted
| Rejected (reason : Z)
| Failed (e : RpcServerError).

(** [Api::handle_connection] up to the decision. *)
Definition Handler : Type := PeerId → PendingOutcome.

Inductive Router :=
| ApiServer (name : ApiName) (handle_connection : Handler)
| Multiplexer (head tail : Router).

(** [Api::into_server] and [Server::multiplex]. *)
Definition into_server (api : ApiName * Handler) : Router := ApiServer api.1 api.2.
Definition multiplex (self : Router) (api : ApiName * Handler) : Router :=
  Multiplexer (into_server api) self.

Fixpoint contains_api (self : Router) (api_name : ApiName) : bool :=
  match self with
  | ApiServer name _ => bool_decide (api_name = name)
  | Multiplexer head tail => contains_api head api_name || contains_api tail api_name
  end.

Fixpoint route_connection (self : Router) (api_name : ApiName) (peer : PeerId)
    : res RpcServerError PendingOutcome :=
  match self with
  | ApiServer _ handle_connection =>
      if negb (contains_api self api_name) then Err (SeUnknownApi api_name)
      else Ok (handle_connection peer)
  | Multiplexer head tail =>
      if contains_api head api_name then route_connection head api_name peer
      else route_connection tail api_name peer
  end.

(** [accept] and [reject] write the status. *)
Definition pending_status (o : PendingOutcome) : list Z :=
  match o with
  | Accepted => write_i32 (status_code StatusOk)
  | Rejected reason => write_i32 (status_code (StatusRejected reason))
  | Failed _ => []
  end.

(** [accept_connection], once the QUIC connection is there: what it writes to
    the stream and how it ends. *)
Definition accept_connection (router : Router) (peer : PeerId) (rx : list Z)
    : list Z * res RpcServerError PendingOutcome :=
  match read_u32 rx with
  | None => ([], Err (SeIo "unexpected end of file"))
  | Some (protocol_version, rx) =>
      if decide (protocol_version = PROTOCOL_VERSION) then
        match read_exact 16 rx with
        | None => ([], Err (SeReadHeader "stream finished early"))
        | Some (api_name, _) =>
            match route_connection router api_name peer with
            | Ok outcome => (pending_status outcome, Ok outcome)
            | Err e =>
                (if is_unknown_api e then write_i32 (status_code StatusUnknownApi) else [], Err e)
            | Panic => ([], Panic)
            end
        end
      else (write_i32 (status_code StatusUnsupportedProtocol),
            Err (SeUnsupportedProtocolVersion protocol_version))
  end.

(** * The client's side *)

Definition check_connection_status (code : Z) : res RpcClientError () :=
  status ← ok_or (status_try_from code) (CeUnknownConnectionStatusCode code);
  match status with
  | StatusOk => Ok ()
  | StatusUnsupportedProtocol => Err CeUnsupportedProtocol
  | StatusUnknownApi => Err CeUnknownApi
  | StatusUnauthorized => Err CeUnknownApi
  | StatusRejected reason => Err (CeConnectionRejected reason)
  end.

(** [connect] up to the connection handler: [remote_peer_id] is the peer of the
    QUIC connection, [serve] what the server writes after reading the header. *)
Definition connect (version : Z) (name : ApiName) (peer_id remote_peer_id : PeerId)
    (serve : list Z → list Z) : res RpcClientError () :=
  if decide (peer_id ≠ remote_peer_id) then Err (CeWrongPeerId remote_peer_id)
  else
    match read_i32 (serve (write_u32 version ++ name)) with
    | None => Err (CeIo "unexpected end of file")
    | Some (code, _) => check_connection_status code
    end.

Definition connection_rejection_reason (e : RpcClientError) : option Z :=
  match e with CeConnectionRejected reason => Some reason | _ => None end.

(** * Names and status codes *)

Lemma copy_slice_spec fuel src dst idx :
  idx ≤ length src → length src ≤ length dst → length src < fuel + idx →
  copy_slice_recursive fuel idx src dst =
    Ok (take idx dst ++ drop idx src ++ drop (length src) dst).
Proof.
  revert dst idx. induction fuel as [|fuel IH]; intros dst idx Hidx Hlen Hfuel; [lia|]. cbn.
  case_decide as He.
  - subst idx. rewrite drop_all. cbn [app]. by rewrite take_drop.
  - destruct (lookup_lt_is_Some_2 src idx ltac:(lia)) as [b Hb]. rewrite Hb. cbn.
    rewrite decide_True by lia. rewrite IH by (rewrite ?length_insert; lia). f_equal.
    rewrite drop_insert_lt by lia. rewrite (drop_S _ _ _ Hb).
    rewrite (take_S_r _ _ b) by (apply list_lookup_insert_eq; lia).
    rewrite take_insert_ge by lia. by rewrite <- app_assoc.
Qed.

Lemma api_name_spec s :
  length s ≤ 16 → api_name_new s = Ok (s ++ replicate (16 - length s) 0%Z).
Proof.
  intros Hs. unfold api_name_new. rewrite decide_True by done.
  rewrite copy_slice_spec by (rewrite ?length_replicate; lia).
  by rewrite take_0, drop_0, drop_replicate.
Qed.

Lemma read_exact_app n a b : length a = n → read_exact n (a ++ b) = Some (a, b).
Proof.
  intros <-. unfold read_exact. rewrite decide_True by (rewrite length_app; lia).
  by rewrite take_app_length, drop_app_length.
Qed.

Lemma read_write_u32 z rest : fits 32 z → read_u32 (write_u32 z ++ rest) = Some (z, rest).
Proof.
  intros Hz. unfold read_u32, write_u32. rewrite read_exact_app by apply length_to_be_bytes.
  cbn [mbind option_bind].
  rewrite from_to_be_bytes; [done|exact Hz].
Qed.

Lemma read_write_i32 z rest :
  (- 2 ^ 31 ≤ z < 2 ^ 31)%Z → read_i32 (write_i32 z ++ rest) = Some (z, rest).
Proof.
  intros Hz. unfold read_i32, write_i32.
  change (to_be_bytes 4 (wrap 32 z)) with (write_u32 (wrap 32 z)).
  rewrite read_write_u32 by (apply wrap_fits; lia). cbn [mbind option_bind]. unfold wrap.
  destruct (decide (0 ≤ z)%Z).
  - rewrite Z.mod_small by lia. rewrite decide_True by lia. done.
  - replace (z mod 2 ^ 32)%Z with (z + 2 ^ 32)%Z.
    + rewrite decide_False by lia. do 2 f_equal. lia.
    + symmetry. rewrite <- (Z.mod_add z 1) by lia. apply Z.mod_small. lia.
Qed.

(** Statuses survive the wire, except that [Unauthorized] has the code of
    [UnknownApi]. *)
Lemma status_code_read s :
  (∀ reason, s = StatusRejected reason → fits 8 reason) →
  read_i32 (write_i32 (status_code s)) = Some (status_code s, []) ∧
  status_try_from (status_code s) =
    Some (match s with StatusUnauthorized => StatusUnknownApi | _ => s end).
Proof.
  intros Hs. split.
  - rewrite <- (app_nil_r (write_i32 _)). apply read_write_i32.
    destruct s as [| | | |r]; cbn; [lia..|]. specialize (Hs r eq_refl). unfold fits in Hs. lia.
  - destruct s as [| | | |r]; [done..|]. specialize (Hs r eq_refl). unfold fits in Hs.
    change (2 ^ 8)%Z with 256%Z in Hs. unfold status_try_from. cbn [status_code].
    rewrite !decide_False by lia. rewrite decide_True by lia. do 2 f_equal.
    replace (- (- r - 1000) - 1000)%Z with r by lia. by apply wrap_small.
Qed.

(** * Routing *)

(** A server of several APIs: the first, then the others multiplexed onto it. *)
Definition serve_apis (api : ApiName * Handler) (more : list (ApiName * Handler)) : Router :=
  foldl multiplex (into_server api) more.

(** The API that serves a name: the one that was added last. *)
Definition served_api (api : ApiName * Handler) (more : list (ApiName * Handler)) (name : ApiName)
    : option (ApiName * Handler) :=
  head (filter (λ a, name = a.1) (reverse (api :: more))).

Lemma route_spec api more name peer :
  contains_api (serve_apis api more) name = bool_decide (is_Some (served_api api more name)) ∧
  route_connection (serve_apis api more) name peer =
    match served_api api more name with
    | Some a => Ok (a.2 peer)
    | None => Err (SeUnknownApi name)
    end.
Proof.
  unfold serve_apis, served_api. induction more as [|a more IH] using rev_ind.
  - rewrite reverse_singleton, filter_cons, filter_nil.
    cbn [foldl contains_api route_connection into_server negb].
    destruct (decide (name = api.1)) as [He|He];
      [rewrite bool_decide_eq_true_2 by done|rewrite bool_decide_eq_false_2 by done]; cbn; split;
      try done; by case_bool_decide as Hs; [|destruct Hs; eexists].
  - rewrite foldl_snoc. change (reverse (api :: more ++ [a])) with (reverse ((api :: more) ++ [a])).
    rewrite reverse_snoc, filter_cons. unfold multiplex at 1 3.
    cbn [contains_api route_connection into_server].
    destruct (decide (name = a.1)) as [He|He];
      [rewrite (bool_decide_eq_true_2 (name = _)) by done
      |rewrite (bool_decide_eq_false_2 (name = _)) by done; exact IH].
    cbn [head orb negb]. split; [|done]. symmetry. by apply bool_decide_eq_true_2.
Qed.

(** * Theorems *)

(** What the client learns of a decision. *)
Definition decision_seen (o : PendingOutcome) : res RpcClientError () :=
  match o with
  | Accepted => Ok ()
  | Rejected reason => Err (CeConnectionRejected reason)
  | Failed _ => Err (CeIo "unexpected end of file")
  end.

(** The handshake on both sides. *)
Lemma handshake_spec api more name peer_id server_peer client_peer version :
  length name = 16 → fits 32 version →
  (∀ a reason, a ∈ api :: more → a.2 client_peer = Rejected reason → fits 8 reason) →
  let router := serve_apis api more in
  let serve rx := (accept_connection router client_peer rx).1 in
  let header v := write_u32 v ++ name in
  connect version name peer_id server_peer serve =
    (if decide (peer_id = server_peer) then
       if decide (version = PROTOCOL_VERSION) then
         match served_api api more name with
         | Some a => decision_seen (a.2 client_peer)
         | None => Err CeUnknownApi
         end
       else Err CeUnsupportedProtocol
     else Err (CeWrongPeerId server_peer)) ∧
  (accept_connection router client_peer (header PROTOCOL_VERSION)).2 =
    match served_api api more name with
    | Some a => Ok (a.2 client_peer)
    | None => Err (SeUnknownApi name)
    end.
Proof.
  intros Hname Hver Hreasons. cbn zeta.
  assert (∀ v, fits 32 v → read_u32 (write_u32 v ++ name) = Some (v, name)) as Hread
    by (intros v Hv; by apply read_write_u32).
  assert (read_exact 16 name = Some (name, [])) as Hex
    by (rewrite <- (app_nil_r name) at 1; by apply read_exact_app).
  pose proof (proj2 (route_spec api more name client_peer)) as Hroute.
  assert (∀ a, served_api api more name = Some a → a ∈ api :: more) as Hin.
  { intros a Ha. apply head_Some_elem_of, list_elem_of_filter in Ha as [_ Ha].
    exact (proj1 (elem_of_reverse _ _) Ha). }
  split.
  - unfold connect. destruct (decide (peer_id = server_peer)) as [He|He];
      [rewrite decide_False by tauto|by rewrite decide_True].
    unfold accept_connection. rewrite Hread by done. case_decide.
    + rewrite Hex, Hroute. destruct (served_api api more name) as [a|] eqn:Ha.
      * destruct (a.2 client_peer) as [|reason|e] eqn:Hd; cbn [pending_status fst decision_seen];
          [destruct (status_code_read StatusOk) as [-> Hs]; [done|]
          |destruct (status_code_read (StatusRejected reason)) as [-> Hs];
             [intros ? [= <-]; by eapply Hreasons; [apply Hin|]|]
          |done]; unfold check_connection_status; by rewrite Hs.
      * cbn [is_unknown_api fst].
        destruct (status_code_read StatusUnknownApi) as [-> Hs]; [done|].
        unfold check_connection_status. by rewrite Hs.
    + cbn [fst]. destruct (status_code_read StatusUnsupportedProtocol) as [-> Hs]; [done|].
      unfold check_connection_status. by rewrite Hs.
  - unfold accept_connection. rewrite Hread by done. rewrite decide_True by done. rewrite Hex, Hroute.
    by destruct (served_api api more name).
Qed.

(** C26. The handshake is exact: a client is connected only to the peer it asked
    for, and then it and the server agree.  The server hands the connection to
    the handler of the API the client named (the one added last, if several have
    the name), the client learns the handler's decision with the reason of a
    rejection, an API the server does not have is an [UnknownApi] on both sides,
    and a client of another protocol version is told so. *)
Theorem handshake_exact api more name peer_id server_peer client_peer version :
  length name = 16 → fits 32 version →
  (∀ a reason, a ∈ api :: more → a.2 client_peer = Rejected reason → fits 8 reason) →
  let router := serve_apis api more in
  let serve rx := (accept_connection router client_peer rx).1 in
  let header v := write_u32 v ++ name in
  connect version name peer_id server_peer serve =
    (if decide (peer_id = server_peer) then
       if decide (version = PROTOCOL_VERSION) then
         match served_api api more name with
         | Some a => decision_seen (a.2 client_peer)
         | None => Err CeUnknownApi
         end
       else Err CeUnsupportedProtocol
     else Err (CeWrongPeerId server_peer)) ∧
  (accept_connection router client_peer (header PROTOCOL_VERSION)).2 =
    match served_api api more name with
    | Some a => Ok (a.2 client_peer)
    | None => Err (SeUnknownApi name)
    end.
Proof. intros. by apply handshake_spec. Qed.

(** Names of APIs as they are sent are 16 bytes long and differ if the names do
    (names have no NUL byte at the end). *)
Lemma api_names_distinct s s' n n' :
  api_name_new s = Ok n → api_name_new s' = Ok n' → last s ≠ Some 0%Z → last s' ≠ Some 0%Z →
  length n = 16 ∧ (n = n' → s = s').
Proof.
  destruct (decide (length s ≤ 16)) as [Hs|Hs];
    [rewrite (api_name_spec s Hs)|unfold api_name_new; by rewrite decide_False].
  destruct (decide (length s' ≤ 16)) as [Hs'|Hs'];
    [rewrite (api_name_spec s' Hs')|unfold api_name_new at 1; by rewrite decide_False].
  intros <-%Ok_inj <-%Ok_inj Hl Hl'. split; [rewrite length_app, length_replicate; lia|].
  revert Hl Hl'. generalize (16 - length s) (16 - length s'). clear.
  intros k k' Hl Hl' He.
  assert (∀ (a b : list Z) m m', last a ≠ Some 0%Z → length a < length b →
    last b ≠ Some 0%Z → a ++ replicate m 0%Z = b ++ replicate m' 0%Z → False) as Hlt.
  { intros a b m m' _ Hlen Hb Heq. apply Hb. rewrite last_lookup.
    assert (length (a ++ replicate m 0%Z) = length (b ++ replicate m' 0%Z)) as Hlens by (by f_equal).
    rewrite !length_app, !length_replicate in Hlens.
    rewrite <- (lookup_app_l b (replicate m' 0%Z)) by lia. rewrite <- Heq.
    rewrite lookup_app_r by lia. apply lookup_replicate_2. lia. }
  destruct (Nat.lt_trichotomy (length s) (length s')) as [Hc|[Hc|Hc]].
  - destruct (Hlt s s' k k' Hl Hc Hl' He).
  - by apply app_inj_1 in He as [? _].
  - by destruct (Hlt s' s k' k Hl' Hc Hl (eq_sym He)).
Qed.
End rpc.

(** * Witness *)

#[local] Existing Instance toy_peer_ids.

Definition toy_name (s : list Z) : ApiName :=
  match api_name_new s with Ok n => n | _ => [] end.

(** Two APIs; the second lets only peer 7 in. *)
Definition toy_api : ApiName * Handler := (toy_name [67]%Z, λ _, Accepted).
Definition toy_more : list (ApiName * Handler) :=
  [(toy_name [82; 101]%Z, λ peer : Z, if decide (peer = 7%Z) then Accepted else Rejected 1)].

Lemma handshake_exact_witness :
  let serve peer rx := (accept_connection (serve_apis toy_api toy_more) peer rx).1 in
  connect 0 (toy_name [82; 101]%Z) 5%Z 5%Z (serve 7%Z) = Ok () ∧
  connect 0 (toy_name [82; 101]%Z) 5%Z 5%Z (serve 8%Z) = Err (CeConnectionRejected 1).
Proof.
  cbn zeta. split.
  - refine (eq_trans (proj1 (handshake_exact toy_api toy_more (toy_name [82; 101]%Z) 5%Z 5%Z 7%Z 0 _ _ _)) _);
      [reflexivity|unfold fits; lia| |reflexivity].
    intros a reason Ha. apply elem_of_cons in Ha as [->|Ha]; [done|].
    apply list_elem_of_singleton in Ha as ->. done.
  - refine (eq_trans (proj1 (handshake_exact toy_api toy_more (toy_name [82; 101]%Z) 5%Z 5%Z 8%Z 0 _ _ _)) _);
      [reflexivity|unfold fits; lia| |reflexivity].
    intros a reason Ha. apply elem_of_cons in Ha as [->|Ha]; [done|].
    apply list_elem_of_singleton in Ha as ->. cbn. intros [= <-]. unfold fits. lia.
Defined.
