(* ===== verification/Throttle.v ===== *)
(** Throttle: bandwidth limits of RPC streams (src/crates/rpc/src/transport.rs,
    transport/read.rs, transport/write.rs).

    A limiter is shared by the streams of an API; every stream has a balance of
    byte credits and perhaps a running delay.  The rate limiter of crate
    [governor] is a parameter.  A poll gets the list of clock readings it makes;
    an empty list means that the loop is not finished.  Between two polls the
    limiter may change ([set_bps]); within one poll it does not. *)
From S2P Require Import Prelude.
From stdpp Require Import prelude list.

(** * The rate limiter *)

(** [check_n]: the cells are granted, or the caller has to wait, or it asked for
    more than the limiter ever has. *)
Inductive check_result :=
| CheckOk
| CheckNegative (wait : Z)
| CheckInsufficient (capacity : Z).

Class Governor := {
  Gov : Type;
  (** [RateLimiter::direct(Quota::per_second(n))]. *)
  gov_direct : Z → Gov;
  (** [check_n] at a time, for a number of cells. *)
  gov_check : Gov → Z → Z → Gov * check_result;
  (** What a quota of [n] per second allows within a time. *)
  gov_window : Z → Z → Z;
}.

(** A sequence of checks, with the number of cells granted. *)
Inductive gov_run `{Governor} : Gov → Z → Gov → Z → Z → Prop :=
| gov_run_nil g t t' : (t ≤ t')%Z → gov_run g t g t' 0
| gov_run_cons g t now n g1 r g' t' granted :
    (t ≤ now)%Z → gov_check g now n = (g1, r) → gov_run g1 now g' t' granted →
    gov_run g t g' t' ((match r with CheckOk => n | _ => 0 end) + granted)%Z.

(** What the documentation of [governor] says: the capacity is the quota, waiting
    times are positive, and the quota is kept. *)
Class GovernorLaws `{Governor} := {
  gov_insufficient bps t0 g t granted now n g' capacity :
    (0 < bps)%Z → gov_run (gov_direct bps) t0 g t granted →
    gov_check g now n = (g', CheckInsufficient capacity) → capacity = bps ∧ (bps < n)%Z;
  gov_wait g now n g' wait : gov_check g now n = (g', CheckNegative wait) → (0 < wait)%Z;
  gov_quota bps t0 g t granted :
    (0 < bps)%Z → gov_run (gov_direct bps) t0 g t granted →
    (granted ≤ gov_window bps (t - t0))%Z;
}.

Section throttle.
Context `{Governor}.

(** * [BandwidthLimiter] *)

Record BandwidthLimiterInner := { bl_governor : Gov; bl_bytes_per_second : Z }.

Definition BandwidthLimiter := option BandwidthLimiterInner.

Definition limiter_bps (self : BandwidthLimiter) : Z :=
  match self with Some inner => bl_bytes_per_second inner | None => 0%Z end.

Definition set_bps (self : BandwidthLimiter) (bytes_per_second : Z) : BandwidthLimiter :=
  if decide (limiter_bps self = bytes_per_second) then self
  else if decide (bytes_per_second = 0%Z) then None
  else Some {| bl_governor := gov_direct bytes_per_second;
               bl_bytes_per_second := bytes_per_second |}.

Definition limiter_new (bytes_per_second : Z) : BandwidthLimiter :=
  if decide (bytes_per_second = 0%Z) then None else set_bps None bytes_per_second.

(** * [Throttled] *)

Inductive Poll (A : Type) := Ready (a : A) | Pending.
#[global] Arguments Ready {_} _.
#[global] Arguments Pending {_}.

(** [delay] is the time at which it is over. *)
Record Throttled := { th_delay : option Z; th_balance : Z }.

Definition throttled_new : Throttled := {| th_delay := None; th_balance := 0%Z |}.

Definition isize_MAX : Z := (2 ^ 63 - 1)%Z.

(** [NonZeroU32::new(n).unwrap()]. *)
Definition nonzero (n : Z) : res Empty_set Z := if decide (n = 0%Z) then Panic else Ok n.

(** What a poll gives back: the limiter and the stream as it leaves them. *)
Definition poll_result (A : Type) : Type :=
  option (BandwidthLimiter * Throttled * res Empty_set (Poll A)).

Definition delay_running (self : Throttled) (now : Z) : bool :=
  match th_delay self with Some d => bool_decide (now < d)%Z | None => false end.

(** The loop of [poll_reserve]. *)
Fixpoint reserve_loop (times : list Z) (limiter : BandwidthLimiterInner) (self : Throttled)
    (amount : Z) : poll_result Z :=
  match times with
  | [] => None
  | now :: times =>
      if delay_running self now then Some (Some limiter, self, Ok Pending)
      else
        let '(g, r) := gov_check (bl_governor limiter) now amount in
        let limiter := {| bl_governor := g; bl_bytes_per_second := bl_bytes_per_second limiter |} in
        match r with
        | CheckOk =>
            let balance := (th_balance self + amount)%Z in
            Some (Some limiter, {| th_delay := None; th_balance := balance |},
                  Ok (Ready (Z.max 0 balance)))
        | CheckNegative wait =>
            reserve_loop times limiter
              {| th_delay := Some (now + wait)%Z; th_balance := th_balance self |} amount
        | CheckInsufficient capacity =>
            match nonzero capacity with
            | Ok amount =>
                reserve_loop times limiter {| th_delay := None; th_balance := th_balance self |} amount
            | _ => Some (Some limiter, {| th_delay := None; th_balance := th_balance self |}, Panic)
            end
        end
  end.

Definition poll_reserve (times : list Z) (limiter : BandwidthLimiter) (self : Throttled) (amount : Z)
    : poll_result Z :=
  match limiter with
  | None => Some (limiter, self, Ok (Ready amount))
  | Some inner =>
      let amount := Z.min amount isize_MAX in
      if decide (amount ≤ th_balance self)%Z then Some (limiter, self, Ok (Ready amount))
      else
        match nonzero (u32_saturate (Z.abs (th_balance self - amount))) with
        | Ok deficit => reserve_loop times inner self deficit
        | _ => Some (limiter, self, Panic)
        end
  end.

Definition spend (self : Throttled) (amount : Z) : Throttled := {|
  th_delay := th_delay self;
  th_balance := Z.max (- 2 ^ 63) (th_balance self - Z.min amount isize_MAX) |}.

(** [AsyncRead::poll_read]: [inner] reads into a buffer of the given size; an
    error is [inl]. *)
Definition poll_read (times : list Z) (limiter : BandwidthLimiter) (self : Throttled)
    (remaining : Z) (inner : Z → Poll (() + Z)) : poll_result (() + Z) :=
  if decide (limiter_bps limiter = 0%Z) then Some (limiter, self, Ok (inner remaining))
  else
    match poll_reserve times limiter self 0 with
    | None => None
    | Some (limiter', self, Ok (Ready _)) =>
        let size := if decide (limiter_bps limiter ≤ remaining)%Z then limiter_bps limiter
                    else remaining in
        match inner size with
        | Ready (inr bytes_read) => Some (limiter', spend self bytes_read, Ok (Ready (inr bytes_read)))
        | other => Some (limiter', self, Ok other)
        end
    | Some (limiter', self, Ok Pending) => Some (limiter', self, Ok Pending)
    | Some (limiter', self, Panic) => Some (limiter', self, Panic)
    | Some (limiter', self, Err e) => Some (limiter', self, Err e)
    end.

(** [AsyncWrite::poll_write] of a buffer of [len] bytes; the slice panics if more
    was reserved. *)
Definition poll_write (times : list Z) (limiter : BandwidthLimiter) (self : Throttled)
    (len : Z) (inner : Z → Poll (() + Z)) : poll_result (() + Z) :=
  match poll_reserve times limiter self len with
  | None => None
  | Some (limiter', self, Ok (Ready reserved)) =>
      if decide (len < reserved)%Z then Some (limiter', self, Panic)
      else
        match inner reserved with
        | Pending => Some (limiter', self, Ok Pending)
        | Ready r =>
            let bytes_written := match r with inr n => n | inl _ => len end in
            Some (limiter', spend self bytes_written, Ok (Ready r))
        end
  | Some (limiter', self, Ok Pending) => Some (limiter', self, Ok Pending)
  | Some (limiter', self, Panic) => Some (limiter', self, Panic)
  | Some (limiter', self, Err e) => Some (limiter', self, Err e)
  end.

(** * Reserving credits *)

Lemma gov_run_trans g t g1 t1 a g2 t2 b :
  gov_run g t g1 t1 a → gov_run g1 t1 g2 t2 b → gov_run g t g2 t2 (a + b).
Proof.
  intros Hrun. revert g2 t2 b. induction Hrun as [g t t1 Ht|g t now n g1 r g' t' granted Ht Hc _ IH];
    intros g2 t2 b Hb.
  - rewrite Z.add_0_l. destruct Hb as [g t1 t2 ?|]; [constructor; lia|].
    econstructor; [|done..]. lia.
  - rewrite <- Z.add_assoc. econstructor; [done..|]. by apply IH.
Qed.

Lemma gov_run_time g t g' t' a : gov_run g t g' t' a → (t ≤ t')%Z.
Proof. induction 1; lia. Qed.

(** Clock readings between two times, in order. *)
Fixpoint clock (t : Z) (times : list Z) (t' : Z) : Prop :=
  match times with
  | [] => (t ≤ t')%Z
  | now :: times => (t ≤ now)%Z ∧ clock now times t'
  end.

Context `{!GovernorLaws}.

(** The governor after a run that granted [granted] cells. *)
Definition governed (bps t0 : Z) (limiter : BandwidthLimiter) (t granted : Z) : Prop :=
  ∃ inner, limiter = Some inner ∧ bl_bytes_per_second inner = bps ∧
    gov_run (gov_direct bps) t0 (bl_governor inner) t granted.

Lemma clock_le t times t' : clock t times t' → (t ≤ t')%Z.
Proof.
  revert t. induction times as [|now times IH]; intros t; cbn; [done|].
  intros [Ht Hc]. specialize (IH _ Hc). lia.
Qed.

Lemma governed_later bps t0 limiter t granted t' :
  governed bps t0 limiter t granted → (t ≤ t')%Z → governed bps t0 limiter t' granted.
Proof.
  intros (inner & -> & Hbps & Hrun) Ht. exists inner. split_and!; [done..|].
  rewrite <- (Z.add_0_r granted). eapply gov_run_trans; [exact Hrun|by constructor].
Qed.

(** What a reservation does: nothing, or it gets what it asked for (or the
    quota, if that is less). *)
Definition reserves (bps amount : Z) (self self' : Throttled) (r : res Empty_set (Poll Z)) : Prop :=
  (r = Ok Pending ∧ th_balance self' = th_balance self) ∨
  ∃ a, (0 < a ≤ amount)%Z ∧ ((amount ≤ bps)%Z → a = amount) ∧
    th_balance self' = (th_balance self + a)%Z ∧ r = Ok (Ready (Z.max 0 (th_balance self'))).

Lemma reserve_loop_spec bps t0 times : (0 < bps)%Z → ∀ inner t granted t' self amount lim' self' r,
  bl_bytes_per_second inner = bps → gov_run (gov_direct bps) t0 (bl_governor inner) t granted →
  clock t times t' → (0 < amount)%Z →
  reserve_loop times inner self amount = Some (lim', self', r) →
  governed bps t0 lim' t' (granted + (th_balance self' - th_balance self)) ∧
  reserves bps amount self self' r.
Proof.
  intros Hpos. induction times as [|now times IH];
    intros inner t granted t' self amount lim' self' r Hbps Hrun Hclock Ham Hloop; [done|].
  destruct Hclock as [Ht Hclock]. cbn in Hloop. destruct (delay_running self now).
  { injection Hloop as <- <- <-. rewrite Z.sub_diag, Z.add_0_r. split; [|by left].
    eapply governed_later; [by exists inner|]. apply clock_le in Hclock. lia. }
  destruct (gov_check (bl_governor inner) now amount) as [g res] eqn:Hcheck.
  assert (gov_run (gov_direct bps) t0 g now
            (granted + (match res with CheckOk => amount | _ => 0 end))) as Hrun'.
  { eapply gov_run_trans; [exact Hrun|].
    pose proof (gov_run_cons _ _ _ _ _ _ _ _ _ Ht Hcheck (gov_run_nil g now now (Z.le_refl _))) as Hstep.
    rewrite Z.add_0_r in Hstep. exact Hstep. }
  destruct res as [|wait|capacity].
  - injection Hloop as <- <- <-. cbn. replace (th_balance self + amount - th_balance self)%Z with amount by lia.
    split; [eapply governed_later; [eexists; split_and!; [reflexivity|exact Hbps|exact Hrun']|];
            by eapply clock_le|]. right. exists amount. split_and!; [lia|lia|done|done|done].
  - rewrite Z.add_0_r in Hrun'.
    by eapply IH in Hloop as [Hg Hr]; [|exact Hbps|exact Hrun'|exact Hclock|exact Ham].
  - destruct (gov_insufficient _ _ _ _ _ _ _ _ _ Hpos Hrun Hcheck) as [-> Hlt].
    rewrite Z.add_0_r in Hrun'. unfold nonzero in Hloop. rewrite decide_False in Hloop by lia.
    eapply IH in Hloop as [Hg Hr]; [|exact Hbps|exact Hrun'|exact Hclock|exact Hpos].
    split; [exact Hg|]. destruct Hr as [Hr|(a & Ha & _ & Hb & Hr)]; [by left|].
    right. exists a. split_and!; [lia|lia|lia|done|done].
Qed.

Lemma u32_saturate_pos z : (0 < z)%Z → (0 < u32_saturate z ≤ z)%Z.
Proof. unfold u32_saturate. case_decide; lia. Qed.

Lemma poll_reserve_spec bps t0 times limiter t granted t' self amount lim' self' r :
  (0 < bps)%Z → governed bps t0 limiter t granted → clock t times t' → (0 ≤ amount)%Z →
  poll_reserve times limiter self amount = Some (lim', self', r) →
  governed bps t0 lim' t' (granted + (th_balance self' - th_balance self)) ∧
  ((r = Ok (Ready (Z.min amount isize_MAX)) ∧ self' = self ∧
      (Z.min amount isize_MAX ≤ th_balance self)%Z) ∨
   (th_balance self < Z.min amount isize_MAX)%Z ∧
     reserves bps (u32_saturate (Z.min amount isize_MAX - th_balance self)) self self' r).
Proof.
  intros Hpos Hg Hclock Ham Hpoll. pose proof Hg as (inner & -> & Hbps & Hrun).
  unfold poll_reserve in Hpoll. case_decide as Hle.
  { injection Hpoll as <- <- <-. rewrite Z.sub_diag, Z.add_0_r.
    split; [|by left]. eapply governed_later; [exact Hg|by eapply clock_le]. }
  replace (Z.abs (th_balance self - Z.min amount isize_MAX))
    with (Z.min amount isize_MAX - th_balance self)%Z in Hpoll by lia.
  pose proof (u32_saturate_pos (Z.min amount isize_MAX - th_balance self) ltac:(lia)) as Hsat.
  unfold nonzero in Hpoll. rewrite decide_False in Hpoll by lia.
  destruct (reserve_loop_spec bps t0 times Hpos _ _ _ t' _ _ _ _ _ Hbps Hrun Hclock (proj1 Hsat) Hpoll)
    as [Hg' Hr]. split; [exact Hg'|]. right. split; [lia|exact Hr].
Qed.

(** A poll ends: three readings of the clock are enough if it does not pass the
    end of a delay that the poll starts. *)
Lemma delay_fresh now wait balance :
  (0 < wait)%Z →
  delay_running {| th_delay := Some (now + wait)%Z; th_balance := balance |} now = true.
Proof. intros Hw. cbn. apply bool_decide_eq_true_2. lia. Qed.

Lemma reserve_loop_ends bps t0 inner t granted now rest self amount :
  (0 < bps)%Z → gov_run (gov_direct bps) t0 (bl_governor inner) t granted → (amount ≤ bps)%Z →
  is_Some (reserve_loop (now :: now :: rest) inner self amount).
Proof.
  intros Hpos Hrun Ham. cbn [reserve_loop]. destruct (delay_running self now); [done|].
  destruct (gov_check (bl_governor inner) now amount) as [g [|wait|cap]] eqn:Hcheck; [done| |].
  - rewrite delay_fresh by (by eapply gov_wait). done.
  - destruct (gov_insufficient _ _ _ _ _ _ _ _ _ Hpos Hrun Hcheck). lia.
Qed.

Lemma poll_reserve_ends bps t0 limiter t granted now rest self amount :
  (0 < bps)%Z → governed bps t0 limiter t granted → (t ≤ now)%Z →
  is_Some (poll_reserve (now :: now :: now :: rest) limiter self amount).
Proof.
  intros Hpos (inner & -> & Hbps & Hrun) Ht. unfold poll_reserve. case_decide; [done|].
  destruct (nonzero _) as [deficit| |]; [|done..].
  remember (now :: now :: rest) as turns eqn:Hturns.
  cbn [reserve_loop]. destruct (delay_running self now); [done|].
  destruct (gov_check (bl_governor inner) now deficit) as [g [|wait|cap]] eqn:Hcheck; [done| |].
  - subst turns. cbn [reserve_loop]. rewrite delay_fresh by (by eapply gov_wait). done.
  - destruct (gov_insufficient _ _ _ _ _ _ _ _ _ Hpos Hrun Hcheck) as [-> Hlt].
    unfold nonzero. rewrite decide_False by lia.
    pose proof (gov_run_trans _ _ _ _ _ _ _ _ Hrun
      (gov_run_cons _ _ _ _ _ _ _ _ _ Ht Hcheck (gov_run_nil g now now (Z.le_refl _)))) as Hrun'.
    subst turns. exact (reserve_loop_ends bps t0
      {| bl_governor := g; bl_bytes_per_second := bl_bytes_per_second inner |} now _ now rest _ bps
      Hpos Hrun' (Z.le_refl _)).
Qed.

(** * Streams that share a limiter *)

Inductive Direction := Reader | Writer.

(** Bytes that a poll moved. *)
Definition moved (r : Poll (() + Z)) : Z :=
  match r with Ready (inr n) => n | _ => 0%Z end.

(** What the transport may answer: it never moves more than it was given. *)
Definition transport_sane (inner : Z → Poll (() + Z)) : Prop :=
  ∀ size n, (0 ≤ size)%Z → inner size = Ready (inr n) → (0 ≤ n ≤ size)%Z.

Definition poll (d : Direction) := match d with Reader => poll_read | Writer => poll_write end.

(** The states that fresh streams on a fresh limiter reach between [t0] and [t],
    with the number of bytes they moved. *)
Inductive th_reach (bps t0 : Z) : BandwidthLimiter → list (Direction * Throttled) → Z → Z → Prop :=
| th_start ds :
    th_reach bps t0 (limiter_new bps) ((λ d, (d, throttled_new)) <$> ds) t0 0
| th_poll limiter streams t bytes i d self times t' size inner limiter' self' r :
    th_reach bps t0 limiter streams t bytes → streams !! i = Some (d, self) →
    clock t times t' → (0 ≤ size)%Z → transport_sane inner →
    poll d times limiter self size inner = Some (limiter', self', Ok r) →
    th_reach bps t0 limiter' (<[i := (d, self')]> streams) t' (bytes + moved r).

(** Credits of a stream: a reader repays, so its balance counts also when it is
    negative. *)
Definition credit (s : Direction * Throttled) : Z :=
  match s.1 with Reader => th_balance s.2 | Writer => Z.max 0 (th_balance s.2) end.

Definition stream_wf (bps : Z) (s : Direction * Throttled) : Prop :=
  match s.1 with Reader => (- bps ≤ th_balance s.2 ≤ 0)%Z | Writer => True end.

Definition credits (ss : list (Direction * Throttled)) : Z := foldr (λ s acc, (credit s + acc)%Z) 0%Z ss.

Definition readers (ss : list (Direction * Throttled)) : Z :=
  foldr (λ s acc, match s.1 with Reader => acc + 1 | Writer => acc end)%Z 0%Z ss.

Lemma credits_insert ss i s s' :
  ss !! i = Some s → credits (<[i := s']> ss) = (credits ss - credit s + credit s')%Z.
Proof.
  revert i. induction ss as [|x ss IH]; intros [|i] Hi; try done; cbn in Hi.
  - injection Hi as ->. unfold credits. cbn. lia.
  - change (credit x + credits (<[i := s']> ss) = credit x + credits ss - credit s + credit s')%Z.
    rewrite (IH _ Hi). lia.
Qed.

Lemma readers_insert ss i d self self' :
  ss !! i = Some (d, self) → readers (<[i := (d, self')]> ss) = readers ss.
Proof.
  revert i. induction ss as [|x ss IH]; intros [|i] Hi; try done; cbn in Hi.
  - by injection Hi as ->.
  - change (match x.1 with Reader => readers (<[i := (d, self')]> ss) + 1
                      | Writer => readers (<[i := (d, self')]> ss) end = readers (x :: ss))%Z.
    by rewrite (IH _ Hi).
Qed.

Lemma credits_bound bps ss :
  (0 < bps)%Z → Forall (stream_wf bps) ss → (- bps * readers ss ≤ credits ss)%Z.
Proof.
  intros Hpos. induction 1 as [|[[] s] ss Hs _ IH]; [cbn; lia| |].
  - change (- bps * (readers ss + 1) ≤ th_balance s + credits ss)%Z. cbn in Hs. nia.
  - change (- bps * readers ss ≤ Z.max 0 (th_balance s) + credits ss)%Z. lia.
Qed.

(** ** One poll *)

Lemma poll_read_spec bps t0 times limiter t granted t' self size inner limiter' self' r :
  (0 < bps < 2 ^ 32)%Z → governed bps t0 limiter t granted → clock t times t' → (0 ≤ size)%Z →
  transport_sane inner → stream_wf bps (Reader, self) →
  poll_read times limiter self size inner = Some (limiter', self', r) →
  ∃ r' a, r = Ok r' ∧ governed bps t0 limiter' t' (granted + a) ∧ stream_wf bps (Reader, self') ∧
    (moved r' + credit (Reader, self') ≤ credit (Reader, self) + a)%Z.
Proof.
  intros Hpos Hg Hclock Hsize Hsane Hwf Hpoll. cbn in Hwf. unfold credit; cbn.
  pose proof Hg as (inner0 & Hlim & Hbps & _). unfold poll_read in Hpoll.
  assert (limiter_bps limiter = bps) as Hb by (by subst limiter).
  rewrite Hb in Hpoll. rewrite decide_False in Hpoll by lia.
  destruct (poll_reserve times limiter self 0) as [[[lim1 self1] r1]|] eqn:Hres; [|done].
  destruct (poll_reserve_spec _ _ _ _ _ _ _ _ _ _ _ _ (proj1 Hpos) Hg Hclock (Z.le_refl 0) Hres)
    as [Hg1 Hr1].
  change (Z.min 0 isize_MAX) with 0%Z in Hr1. unfold u32_saturate in Hr1.
  assert ((r1 = Ok Pending ∧ th_balance self1 = th_balance self) ∨
          ∃ v, r1 = Ok (Ready v) ∧ th_balance self1 = 0%Z) as Hr1'.
  { destruct Hr1 as [(-> & -> & ?)|[Hlt Hr1]]; [right; eexists; split; [done|lia]|].
    rewrite decide_True in Hr1 by lia.
    destruct Hr1 as [[-> ?]|(a & ? & Ha & Hbal & ->)]; [by left|].
    right. eexists. split; [done|]. rewrite Hbal, Ha by lia. lia. }
  destruct Hr1' as [[-> Hbal]|(v & -> & Hbal)].
  { injection Hpoll as <- <- <-. exists Pending, (th_balance self1 - th_balance self)%Z.
    split_and!; [done|done|cbn; lia..]. }
  pose proof (Hsane (if decide (bps ≤ size)%Z then bps else size)) as Hn.
  destruct (inner _) as [[e|n]|] eqn:Hinner; injection Hpoll as <- <- <-;
    eexists _, (th_balance self1 - th_balance self)%Z; (split; [reflexivity|]); (split; [exact Hg1|]);
    try (cbn; lia).
  specialize (Hn n ltac:(case_decide; lia) eq_refl). assert (0 ≤ n ≤ bps)%Z by (case_decide; lia).
  cbn. unfold isize_MAX. lia.
Qed.

Lemma poll_write_spec bps t0 times limiter t granted t' self size inner limiter' self' r :
  (0 < bps < 2 ^ 32)%Z → governed bps t0 limiter t granted → clock t times t' → (0 ≤ size)%Z →
  transport_sane inner →
  poll_write times limiter self size inner = Some (limiter', self', r) →
  ∃ r' a, r = Ok r' ∧ governed bps t0 limiter' t' (granted + a) ∧
    (moved r' + credit (Writer, self') ≤ credit (Writer, self) + a)%Z.
Proof.
  intros Hpos Hg Hclock Hsize Hsane Hpoll. unfold credit; cbn. unfold poll_write in Hpoll.
  destruct (poll_reserve times limiter self size) as [[[lim1 self1] r1]|] eqn:Hres; [|done].
  destruct (poll_reserve_spec _ _ _ _ _ _ _ _ _ _ _ _ (proj1 Hpos) Hg Hclock Hsize Hres) as [Hg1 Hr1].
  assert ((r1 = Ok Pending ∧ th_balance self1 = th_balance self) ∨
          ∃ v, r1 = Ok (Ready v) ∧ (0 ≤ v ≤ Z.max 0 (th_balance self1))%Z ∧ (v ≤ size)%Z ∧
            (v ≤ isize_MAX)%Z ∧ (th_balance self ≤ th_balance self1)%Z) as Hr1'.
  { assert (0 < isize_MAX)%Z by done.
    destruct Hr1 as [(-> & -> & ?)|[Hlt Hr1]]; [right; eexists; split_and!; [done|lia..]|].
    destruct Hr1 as [[-> ?]|(a & Ha & _ & Hbal & ->)]; [by left|]. right.
    pose proof (u32_saturate_pos (Z.min size isize_MAX - th_balance self) ltac:(lia)) as Hsat.
    eexists. split_and!; [done|lia..]. }
  destruct Hr1' as [[-> Hbal]|(v & -> & Hv & Hvs & Hvm & Hge)].
  { injection Hpoll as <- <- <-. exists Pending, (th_balance self1 - th_balance self)%Z.
    split_and!; [done|done|cbn; lia..]. }
  rewrite decide_False in Hpoll by lia. pose proof (Hsane v) as Hn.
  destruct (inner v) as [[e|n]|] eqn:Hinner; injection Hpoll as <- <- <-;
    eexists _, (th_balance self1 - th_balance self)%Z; (split; [reflexivity|]); (split; [exact Hg1|]).
  - cbn. unfold isize_MAX in *. lia.
  - specialize (Hn n (proj1 Hv) eq_refl). cbn. unfold isize_MAX in *. lia.
  - cbn. lia.
Qed.

Lemma poll_spec bps t0 d times limiter t granted t' self size inner limiter' self' r :
  (0 < bps < 2 ^ 32)%Z → governed bps t0 limiter t granted → clock t times t' → (0 ≤ size)%Z →
  transport_sane inner → stream_wf bps (d, self) →
  poll d times limiter self size inner = Some (limiter', self', r) →
  ∃ r' a, r = Ok r' ∧ governed bps t0 limiter' t' (granted + a) ∧ stream_wf bps (d, self') ∧
    (moved r' + credit (d, self') ≤ credit (d, self) + a)%Z.
Proof.
  destruct d; intros Hpos Hg Hclock Hsize Hsane Hwf Hpoll.
  - by eapply poll_read_spec.
  - destruct (poll_write_spec _ _ _ _ _ _ _ _ _ _ _ _ _ Hpos Hg Hclock Hsize Hsane Hpoll)
      as (r' & a & -> & Hg' & Hm). by exists r', a.
Qed.

Lemma th_reach_inv bps t0 limiter streams t bytes :
  (0 < bps < 2 ^ 32)%Z → th_reach bps t0 limiter streams t bytes →
  ∃ granted, governed bps t0 limiter t granted ∧ Forall (stream_wf bps) streams ∧
    (bytes + credits streams ≤ granted)%Z.
Proof.
  intros Hpos. induction 1 as [ds|limiter streams t bytes i d self times t' size inner limiter' self' r
    _ (granted & Hg & Hwf & Hb) Hi Hclock Hsize Hsane Hpoll].
  - exists 0%Z. split_and!.
    + unfold limiter_new, set_bps. rewrite decide_False by lia. cbn. rewrite !decide_False by lia.
      eexists. split_and!; [done..|]. by constructor.
    + apply Forall_fmap, Forall_true. intros []; cbn; lia.
    + induction ds as [|[] ds IH]; [done|exact IH..].
  - destruct (poll_spec _ _ _ _ _ _ _ _ _ _ _ _ _ _ Hpos Hg Hclock Hsize Hsane
      (Forall_lookup_1 _ _ _ _ Hwf Hi) Hpoll) as (r' & a & [= <-] & Hg' & Hwf' & Hm).
    exists (granted + a)%Z. split_and!; [done|by apply Forall_insert|].
    rewrite (credits_insert _ _ _ _ Hi). lia.
Qed.

(** * Theorems *)


(** A limit that is switched on while a stream is being written breaks the
    stream: bytes written without a limiter are still charged, so that after
    more than two seconds' worth of them the first write under the limit gets its
    credits and yet is given an empty buffer, although the limiter granted
    [bps] bytes. *)
Theorem limit_enabled_late bps n g g' now now' len inner inner' :
  (0 < bps)%Z → (2 * bps < n < 2 ^ 31)%Z → (0 < len < 2 ^ 31)%Z →
  inner n = Ready (inr n) → inner' 0%Z = Ready (inr 0%Z) →
  gov_check (gov_direct bps) now (n + len) = (g, CheckInsufficient bps) →
  gov_check g now' bps = (g', CheckOk) →
  ∃ self, poll_write [] (limiter_new 0) throttled_new n inner =
      Some (None, self, Ok (Ready (inr n))) ∧
    ∃ limiter self', poll_write [now; now'] (set_bps None bps) self len inner' =
      Some (limiter, self', Ok (Ready (inr 0%Z))).
Proof.
  intros Hbps Hn Hlen Hinner Hinner' Hc1 Hc2. exists (spend throttled_new n). split.
  - unfold limiter_new, poll_write. rewrite decide_True by done. cbn.
    rewrite decide_False by lia. by rewrite Hinner.
  - assert (spend throttled_new n = {| th_delay := None; th_balance := (- n)%Z |}) as ->.
    { unfold spend, isize_MAX. cbn [th_delay th_balance throttled_new]. f_equal. lia. }
    unfold set_bps. cbn [limiter_bps]. rewrite !decide_False by lia.
    unfold poll_write, poll_reserve. cbn [th_balance th_delay].
    replace (Z.min len isize_MAX) with len by (unfold isize_MAX; lia). rewrite decide_False by lia.
    replace (Z.abs (- n - len)) with (n + len)%Z by lia.
    unfold u32_saturate. rewrite decide_True by lia.
    unfold nonzero at 1. rewrite decide_False by lia.
    cbn [reserve_loop delay_running th_delay bl_governor]. rewrite Hc1.
    unfold nonzero. rewrite decide_False by lia. cbn [delay_running th_delay bl_governor].
    rewrite Hc2. cbn [th_balance]. rewrite Z.max_l by lia. rewrite decide_False by lia.
    rewrite Hinner'. by eexists _, _.
Qed.
End throttle.

(** * Witnesses *)

(** A rate limiter that never refills. *)
Definition toy_governor : Governor := {|
  Gov := Z * Z;
  gov_direct bps := (bps, bps);
  gov_check g _ n :=
    if decide (g.1 < n)%Z then (g, CheckInsufficient g.1)
    else if decide (0 ≤ n ≤ g.2)%Z then ((g.1, g.2 - n)%Z, CheckOk) else (g, CheckNegative 1);
  gov_window bps _ := bps;
|}.
#[local] Existing Instance toy_governor.

Lemma toy_gov_run (g : Gov) t (g' : Gov) t' granted :
  gov_run g t g' t' granted → (0 ≤ g.2)%Z → g'.1 = g.1 ∧ (0 ≤ g'.2)%Z ∧ g'.2 = (g.2 - granted)%Z.
Proof.
  induction 1 as [|g t now n g1 r g' t' granted _ Hc _ IH]; intros Hg; [lia|].
  cbn in Hc. repeat case_decide; injection Hc as <- <-; cbn in *; destruct IH as (? & ? & ?); lia.
Qed.

Lemma toy_governor_laws : GovernorLaws.
Proof.
  split.
  - intros bps t0 g t granted now n g' capacity Hpos Hrun Hc. apply toy_gov_run in Hrun; [|cbn; lia].
    cbn in Hrun, Hc. destruct Hrun as (Hb & _ & _). case_decide; [|by case_decide].
    injection Hc as _ <-. lia.
  - intros g now n g' wait Hc. cbn in Hc. repeat case_decide; [done|done|]. injection Hc as _ <-. lia.
  - intros bps t0 g t granted Hpos Hrun. apply toy_gov_run in Hrun; cbn in *; lia.
Qed.
#[local] Existing Instance toy_governor_laws.

Definition toy_transport (size : Z) : Poll (() + Z) := Ready (inr (Z.max 0 (Z.min size 3))).

Lemma toy_transport_sane : transport_sane toy_transport.
Proof. intros size n ? [= <-]. lia. Qed.


Lemma limit_enabled_late_witness : ∃ self,
  poll_write [] (limiter_new 0) throttled_new 100 (λ n, Ready (inr n)) =
    Some (None, self, Ok (Ready (inr 100%Z))) ∧
  ∃ limiter self', poll_write [5; 5]%Z (set_bps None 10) self 20 (λ n, Ready (inr n)) =
    Some (limiter, self', Ok (Ready (inr 0%Z))).
Proof.
  apply (limit_enabled_late 10 100 ((10, 10)%Z : @Gov toy_governor) ((10, 0)%Z : @Gov toy_governor) 5 5 20 (λ n, Ready (inr n))
    (λ n, Ready (inr n))); first [lia|reflexivity].
Defined.
