(* ===== verification/RpcServer.v ===== *)
(** RpcServer: which connections and RPCs a server accepts
    (src/crates/rpc/src/connection_filter.rs, [accept_connections],
    [accept_rpc] and [read_id] of server.rs).

    Semaphores and rate limiters are shared objects: limiters of a client address
    live in a heap, the cache maps addresses to them, and a permit remembers the
    limiter it was taken from.  The cache of crate [mini_moka] may evict an entry
    when it holds more than its capacity. *)
From S2P Require Import Prelude Rpc Throttle.
From stdpp Require Import prelude gmap sets list strings.

Definition LOCAL_LIMITERS_LRU_CAPACITY : nat := 500.

(** * Semaphores *)

(** [Semaphore]: the permits that are available. *)
Definition Semaphore := Z.

Definition try_acquire (self : Semaphore) : option Semaphore :=
  if decide (0 < self)%Z then Some (self - 1)%Z else None.
Definition release (self : Semaphore) : Semaphore := (self + 1)%Z.

Section server.
Context `{Governor}.

(** * The filter *)

Record LocalLimiters := { ll_semaphore : Semaphore; ll_rate_limiter : Gov }.

Record FilterConfig := {
  max_connections : Z;
  max_connections_per_ip : Z;
  max_connection_rate_per_ip : Z;
}.

Record Filter := {
  f_global_semaphore : Semaphore;
  (** The limiters that exist, and the cache from addresses to them. *)
  f_heap : list LocalLimiters;
  f_local_limiters : gmap Z nat;
  f_max_connection_rate : Z;
  f_max_connections_per_ip : Z;
}.

Inductive RejectionReason :=
| GlobalSemaphore | LocalSemaphore | RateLimit | AddressNotValidated.

(** [quic::Error]. *)
Inductive QuicError :=
| QuicTls (e : string)
| QuicSocket (e : string)
| QuicInvalidConnectionRate.

(** The limiter a permit was taken from. *)
Record Permit := { permit_local : nat }.

Definition local_limiters_new (max_connections max_rate : Z) : LocalLimiters :=
  {| ll_semaphore := max_connections; ll_rate_limiter := gov_direct max_rate |}.

Definition filter_new (cfg : FilterConfig) : res QuicError Filter :=
  if decide (max_connection_rate_per_ip cfg = 0%Z) then Err QuicInvalidConnectionRate
  else Ok {| f_global_semaphore := max_connections cfg; f_heap := []; f_local_limiters := ∅;
             f_max_connection_rate := max_connection_rate_per_ip cfg;
             f_max_connections_per_ip := max_connections_per_ip cfg |}.

Definition set_global (self : Filter) (sem : Semaphore) : Filter := {|
  f_global_semaphore := sem; f_heap := f_heap self; f_local_limiters := f_local_limiters self;
  f_max_connection_rate := f_max_connection_rate self;
  f_max_connections_per_ip := f_max_connections_per_ip self |}.

Definition set_limiters (self : Filter) (heap : list LocalLimiters) (cache : gmap Z nat) : Filter := {|
  f_global_semaphore := f_global_semaphore self; f_heap := heap; f_local_limiters := cache;
  f_max_connection_rate := f_max_connection_rate self;
  f_max_connections_per_ip := f_max_connections_per_ip self |}.

(** The limiter of an address, created and cached if there is none. *)
Definition limiters_of (self : Filter) (remote_addr : Z) : Filter * nat :=
  match f_local_limiters self !! remote_addr with
  | Some idx => (self, idx)
  | None =>
      let idx := length (f_heap self) in
      (set_limiters self
         (f_heap self ++
            [local_limiters_new (f_max_connections_per_ip self) (f_max_connection_rate self)])
         (<[remote_addr := idx]> (f_local_limiters self)), idx)
  end.

Definition set_local (self : Filter) (idx : nat) (l : LocalLimiters) : Filter :=
  set_limiters self (<[idx := l]> (f_heap self)) (f_local_limiters self).

(** [try_acquire_permit] at a time, for a connection attempt from an address.  The
    indices of cached limiters are in the heap ([filter_inv] below). *)
Definition try_acquire_permit (now : Z) (self : Filter) (validated : bool) (remote_addr : Z)
    : Filter * (RejectionReason + Permit) :=
  if negb validated then (self, inl AddressNotValidated)
  else
    let '(self, idx) := limiters_of self remote_addr in
    match f_heap self !! idx with
    | None => (self, inl LocalSemaphore)
    | Some limiters =>
        let '(rate_limiter, r) := gov_check (ll_rate_limiter limiters) now 1 in
        let self := set_local self idx
          {| ll_semaphore := ll_semaphore limiters; ll_rate_limiter := rate_limiter |} in
        match r with
        | CheckOk =>
            match try_acquire (ll_semaphore limiters) with
            | None => (self, inl LocalSemaphore)
            | Some local =>
                match try_acquire (f_global_semaphore self) with
                | None => (self, inl GlobalSemaphore)
                | Some global =>
                    (set_global (set_local self idx
                       {| ll_semaphore := local; ll_rate_limiter := rate_limiter |}) global,
                     inr {| permit_local := idx |})
                end
            end
        | _ => (self, inl RateLimit)
        end
    end.

(** Dropping a permit releases both semaphores. *)
Definition drop_permit (self : Filter) (permit : Permit) : Filter :=
  let self := set_global self (release (f_global_semaphore self)) in
  match f_heap self !! permit_local permit with
  | None => self
  | Some l => set_local self (permit_local permit)
      {| ll_semaphore := release (ll_semaphore l); ll_rate_limiter := ll_rate_limiter l |}
  end.

(** * Incoming connections and RPCs *)

(** What [accept_connections] does with an incoming connection. *)
Inductive Incoming := IncomingAccept (permit : Permit) | IncomingRetry | IncomingIgnore.

Definition accept_incoming (now : Z) (self : Filter) (validated : bool) (remote_addr : Z)
    : Filter * Incoming :=
  let '(self, r) := try_acquire_permit now self validated remote_addr in
  (self, match r with
         | inr permit => IncomingAccept permit
         | inl AddressNotValidated => IncomingRetry
         | inl _ => IncomingIgnore
         end).

(** [accept_rpc]: streams are dropped while no permit is available; [available]
    is the semaphore when each of them arrives. *)
Fixpoint accept_rpc {A} (incoming : list (Semaphore * A)) : option (Semaphore * A * list (Semaphore * A)) :=
  match incoming with
  | [] => None
  | (available, stream) :: incoming =>
      match try_acquire available with
      | Some available => Some (available, stream, incoming)
      | None => accept_rpc incoming
      end
  end.

(** [read_id]: [timed_out] if the byte does not come within 100 ms. *)
Definition read_id {Id} (try_from : Z → option Id) (timed_out : bool) (rx : list Z)
    : res RpcServerError (Id * list Z) :=
  if timed_out then Err SeReadRpcIdTimeout
  else
    match rx with
    | [] => Err (SeIo "unexpected end of file")
    | id :: rx => rpc_id ← ok_or (try_from id) (SeUnknownRpcId id); Ok (rpc_id, rx)
    end.

(** * Runs *)

(** A server: its filter, the open connections with their addresses and permits,
    the semaphore of RPCs with the number of RPCs being handled, and (not part of
    the server) the addresses that were ever evicted from the cache. *)
Record ServerState := {
  ss_filter : Filter;
  ss_connections : list (Z * Permit);
  ss_rpc_semaphore : Semaphore;
  ss_rpcs : nat;
  ss_evicted : gset Z;
}.

Inductive server_run (cfg : FilterConfig) (max_rpcs : Z) : ServerState → Prop :=
| server_start f :
    filter_new cfg = Ok f →
    server_run cfg max_rpcs {| ss_filter := f; ss_connections := []; ss_rpc_semaphore := max_rpcs;
                               ss_rpcs := 0; ss_evicted := ∅ |}
| server_accept s now validated addr f r :
    server_run cfg max_rpcs s →
    accept_incoming now (ss_filter s) validated addr = (f, r) →
    server_run cfg max_rpcs {|
      ss_filter := f;
      ss_connections := match r with
                        | IncomingAccept p => (addr, p) :: ss_connections s
                        | _ => ss_connections s
                        end;
      ss_rpc_semaphore := ss_rpc_semaphore s; ss_rpcs := ss_rpcs s; ss_evicted := ss_evicted s |}
| server_close s before c after :
    server_run cfg max_rpcs s → ss_connections s = before ++ c :: after →
    server_run cfg max_rpcs {|
      ss_filter := drop_permit (ss_filter s) c.2; ss_connections := before ++ after;
      ss_rpc_semaphore := ss_rpc_semaphore s; ss_rpcs := ss_rpcs s; ss_evicted := ss_evicted s |}
| server_evict s addr :
    server_run cfg max_rpcs s → LOCAL_LIMITERS_LRU_CAPACITY < size (f_local_limiters (ss_filter s)) →
    server_run cfg max_rpcs {|
      ss_filter := set_limiters (ss_filter s) (f_heap (ss_filter s))
                     (delete addr (f_local_limiters (ss_filter s)));
      ss_connections := ss_connections s; ss_rpc_semaphore := ss_rpc_semaphore s;
      ss_rpcs := ss_rpcs s; ss_evicted := {[addr]} ∪ ss_evicted s |}
| server_rpc s sem (stream : ()) rest :
    server_run cfg max_rpcs s →
    accept_rpc [(ss_rpc_semaphore s, stream)] = Some (sem, stream, rest) →
    server_run cfg max_rpcs {|
      ss_filter := ss_filter s; ss_connections := ss_connections s; ss_rpc_semaphore := sem;
      ss_rpcs := S (ss_rpcs s); ss_evicted := ss_evicted s |}
| server_rpc_done s n :
    server_run cfg max_rpcs s → ss_rpcs s = S n →
    server_run cfg max_rpcs {|
      ss_filter := ss_filter s; ss_connections := ss_connections s;
      ss_rpc_semaphore := release (ss_rpc_semaphore s); ss_rpcs := n; ss_evicted := ss_evicted s |}.

(** Connections whose permit comes from a limiter, and from an address. *)
Definition from_limiter (cs : list (Z * Permit)) (idx : nat) : nat :=
  length (filter (λ c, permit_local c.2 = idx) cs).
Definition from_addr (cs : list (Z * Permit)) (addr : Z) : nat :=
  length (filter (λ c, c.1 = addr) cs).

(** * The invariant *)

Record filter_inv (cfg : FilterConfig) (f : Filter) (cs : list (Z * Permit)) (evicted : gset Z)
    : Prop := {
  fi_per_ip : f_max_connections_per_ip f = max_connections_per_ip cfg;
  fi_global : f_global_semaphore f = (max_connections cfg - Z.of_nat (length cs))%Z;
  fi_global_pos : (0 ≤ f_global_semaphore f)%Z;
  fi_local idx l : f_heap f !! idx = Some l →
    ll_semaphore l = (max_connections_per_ip cfg - Z.of_nat (from_limiter cs idx))%Z ∧
    (0 ≤ ll_semaphore l)%Z;
  fi_cached addr idx : f_local_limiters f !! addr = Some idx → idx < length (f_heap f);
  fi_permits addr p : (addr, p) ∈ cs → permit_local p < length (f_heap f);
  fi_known addr p : (addr, p) ∈ cs → addr ∉ evicted → f_local_limiters f !! addr = Some (permit_local p);
}.

#[local] Arguments from_limiter : simpl never.
#[local] Arguments from_addr : simpl never.

Lemma from_limiter_cons c cs idx :
  from_limiter (c :: cs) idx =
    (if decide (permit_local c.2 = idx) then 1 else 0) + from_limiter cs idx.
Proof. unfold from_limiter. rewrite filter_cons. by case_decide. Qed.

Lemma from_limiter_app cs cs' idx :
  from_limiter (cs ++ cs') idx = from_limiter cs idx + from_limiter cs' idx.
Proof. unfold from_limiter. by rewrite filter_app, length_app. Qed.

Lemma from_limiter_fresh cfg f cs evicted :
  filter_inv cfg f cs evicted → from_limiter cs (length (f_heap f)) = 0.
Proof.
  intros Hinv. unfold from_limiter.
  destruct (filter _ cs) as [|[addr p] l] eqn:Hf; [done|].
  assert ((addr, p) ∈ filter (λ c, permit_local c.2 = length (f_heap f)) cs) as Hin
    by (rewrite Hf; apply elem_of_cons; by left).
  apply list_elem_of_filter in Hin as [Hp Hin]. apply (fi_permits _ _ _ _ Hinv) in Hin. cbn in Hp. lia.
Qed.

Lemma limiters_of_inv cfg f cs evicted addr f' idx :
  (0 ≤ max_connections_per_ip cfg)%Z → filter_inv cfg f cs evicted →
  limiters_of f addr = (f', idx) →
  filter_inv cfg f' cs evicted ∧ f_local_limiters f' !! addr = Some idx ∧
  f_global_semaphore f' = f_global_semaphore f.
Proof.
  intros Hmax Hinv. unfold limiters_of. destruct (f_local_limiters f !! addr) as [i|] eqn:Ha;
    intros [= <- <-]; [done|]. split; [|split; [by cbn; rewrite lookup_insert_eq|done]].
  pose proof (from_limiter_fresh _ _ _ _ Hinv) as Hfresh.
  split; cbn; try apply Hinv.
  - intros i l [Hl|[Hi Hl]]%lookup_app_Some; [by apply Hinv|].
    apply list_lookup_singleton_Some in Hl as [Hz <-].
    replace i with (length (f_heap f)) by lia. rewrite Hfresh. cbn.
    rewrite (fi_per_ip _ _ _ _ Hinv). lia.
  - intros addr' i. rewrite length_app; cbn. destruct (decide (addr' = addr)) as [->|Hne].
    + rewrite lookup_insert_eq. intros [= <-]. lia.
    + rewrite lookup_insert_ne by done. intros Hi%(fi_cached _ _ _ _ Hinv). lia.
  - intros addr' p Hp%(fi_permits _ _ _ _ Hinv). rewrite length_app. lia.
  - intros addr' p Hp He. pose proof (fi_known _ _ _ _ Hinv _ _ Hp He) as Hk.
    rewrite lookup_insert_ne by congruence. exact Hk.
Qed.

(** Replacing a limiter by one that has as many permits left as it should. *)
Lemma set_local_inv cfg f cs evicted idx l :
  filter_inv cfg f cs evicted →
  ll_semaphore l = (max_connections_per_ip cfg - Z.of_nat (from_limiter cs idx))%Z →
  (0 ≤ ll_semaphore l)%Z → filter_inv cfg (set_local f idx l) cs evicted.
Proof.
  intros Hinv Hl Hpos. split; cbn; try apply Hinv.
  - intros i l' Hi. destruct (decide (i = idx)) as [->|Hne].
    + apply list_lookup_insert_Some in Hi as [(_ & <- & _)|[? _]]; [done|done].
    + rewrite list_lookup_insert_ne in Hi by done. by apply Hinv.
  - intros addr i Hi. rewrite length_insert. by eapply (fi_cached _ _ _ _ Hinv).
  - intros addr q Hq. rewrite length_insert. by eapply (fi_permits _ _ _ _ Hinv).
Qed.

Lemma try_acquire_permit_inv cfg now f cs evicted validated addr f' r :
  (0 ≤ max_connections_per_ip cfg)%Z → filter_inv cfg f cs evicted →
  try_acquire_permit now f validated addr = (f', r) →
  match r with
  | inl _ => filter_inv cfg f' cs evicted
  | inr p => filter_inv cfg f' ((addr, p) :: cs) evicted
  end.
Proof.
  intros Hmax Hinv. unfold try_acquire_permit. destruct validated; cbn [negb];
    [|by intros [= <- <-]].
  destruct (limiters_of f addr) as [f1 idx] eqn:Hf1.
  destruct (limiters_of_inv _ _ _ _ _ _ _ Hmax Hinv Hf1) as (Hinv1 & Hcache & _).
  destruct (f_heap f1 !! idx) as [l|] eqn:Hl; [|by intros [= <- <-]].
  destruct (fi_local _ _ _ _ Hinv1 _ _ Hl) as [Hsem Hpos].
  destruct (gov_check (ll_rate_limiter l) now 1) as [g c].
  assert (filter_inv cfg (set_local f1 idx {| ll_semaphore := ll_semaphore l; ll_rate_limiter := g |})
            cs evicted) as Hinv2 by (by apply set_local_inv).
  destruct c; [|by intros [= <- <-]..].
  unfold try_acquire. case_decide as Hloc; [|by intros [= <- <-]].
  case_decide as Hglob; [|by intros [= <- <-]]. intros [= <- <-]. cbn in Hglob.
  split; cbn.
  - apply Hinv1.
  - rewrite (fi_global _ _ _ _ Hinv1). lia.
  - lia.
  - intros i l'. rewrite list_insert_insert_eq. intros Hi. rewrite from_limiter_cons. cbn.
    destruct (decide (i = idx)) as [->|Hne].
    + rewrite decide_True by done.
      apply list_lookup_insert_Some in Hi as [(_ & <- & _)|[? _]]; [cbn; lia|done].
    + rewrite decide_False by congruence. rewrite list_lookup_insert_ne in Hi by done.
      by apply (fi_local _ _ _ _ Hinv1).
  - intros a i Hi. rewrite !length_insert. by eapply (fi_cached _ _ _ _ Hinv1).
  - intros a q [[= -> ->]|Hq]%elem_of_cons; rewrite !length_insert;
      [by eapply lookup_lt_Some|by eapply (fi_permits _ _ _ _ Hinv1)].
  - intros a q [[= -> ->]|Hq]%elem_of_cons He; [done|by eapply (fi_known _ _ _ _ Hinv1)].
Qed.

Lemma drop_permit_inv cfg f before c after evicted :
  filter_inv cfg f (before ++ c :: after) evicted →
  filter_inv cfg (drop_permit f c.2) (before ++ after) evicted.
Proof.
  intros Hinv. destruct c as [addr p]. unfold drop_permit. cbn [snd set_global f_heap f_global_semaphore].
  assert ((addr, p) ∈ before ++ (addr, p) :: after) as Hin
    by (apply elem_of_app; right; apply elem_of_cons; by left).
  destruct (lookup_lt_is_Some_2 (f_heap f) (permit_local p)) as [l Hl];
    [by eapply (fi_permits _ _ _ _ Hinv)|]. rewrite Hl.
  destruct (fi_local _ _ _ _ Hinv _ _ Hl) as [Hsem Hpos].
  assert (∀ a q, (a, q) ∈ before ++ after → (a, q) ∈ before ++ (addr, p) :: after) as Hsub.
  { intros a q. rewrite !elem_of_app, elem_of_cons. tauto. }
  pose proof (fi_global _ _ _ _ Hinv) as Hg. pose proof (fi_global_pos _ _ _ _ Hinv) as Hgp.
  rewrite length_app in Hg; cbn in Hg.
  split; cbn; unfold release; rewrite ?length_app, ?length_insert.
  - apply Hinv.
  - lia.
  - lia.
  - intros i l' Hi. destruct (decide (i = permit_local p)) as [->|Hne].
    + apply list_lookup_insert_Some in Hi as [(_ & <- & _)|[? _]]; [cbn|done].
      rewrite from_limiter_app, from_limiter_cons in Hsem. cbn in Hsem.
      rewrite decide_True in Hsem by done. rewrite from_limiter_app. lia.
    + rewrite list_lookup_insert_ne in Hi by done.
      destruct (fi_local _ _ _ _ Hinv _ _ Hi) as [Hs Hp].
      rewrite from_limiter_app, from_limiter_cons in Hs. cbn in Hs.
      rewrite decide_False in Hs by congruence. rewrite from_limiter_app. lia.
  - apply Hinv.
  - intros a q Hq%Hsub. by eapply (fi_permits _ _ _ _ Hinv).
  - intros a q Hq%Hsub. by apply (fi_known _ _ _ _ Hinv).
Qed.

Lemma from_addr_limiter cs addr idx :
  (∀ p, (addr, p) ∈ cs → permit_local p = idx) → from_addr cs addr ≤ from_limiter cs idx.
Proof.
  unfold from_addr. induction cs as [|[a p] cs IH]; intros Hp; [cbn; lia|].
  rewrite from_limiter_cons, filter_cons. cbn [fst snd].
  assert (length (filter (λ c, c.1 = addr) cs) ≤ from_limiter cs idx) as IH'
    by (apply IH; intros q Hq; apply Hp, elem_of_cons; by right).
  case_decide as Ha; [subst a|case_decide; lia].
  rewrite decide_True by (apply Hp, elem_of_cons; by left). cbn. lia.
Qed.

Lemma filter_inv_per_ip cfg f cs evicted addr :
  (0 ≤ max_connections_per_ip cfg)%Z → filter_inv cfg f cs evicted → addr ∉ evicted →
  (Z.of_nat (from_addr cs addr) ≤ max_connections_per_ip cfg)%Z.
Proof.
  intros Hmax Hinv He. destruct (f_local_limiters f !! addr) as [idx|] eqn:Hc.
  - assert (from_addr cs addr ≤ from_limiter cs idx) as Hle.
    { apply from_addr_limiter. intros p Hp. pose proof (fi_known _ _ _ _ Hinv _ _ Hp He). congruence. }
    destruct (lookup_lt_is_Some_2 (f_heap f) idx) as [l Hl]; [by eapply (fi_cached _ _ _ _ Hinv)|].
    destruct (fi_local _ _ _ _ Hinv _ _ Hl). lia.
  - assert (from_addr cs addr = 0) as ->; [|lia]. unfold from_addr.
    destruct (filter _ cs) as [|[a p] l] eqn:Hf; [done|].
    assert ((a, p) ∈ filter (λ c, c.1 = addr) cs) as Hin by (rewrite Hf; apply elem_of_cons; by left).
    apply list_elem_of_filter in Hin as [Ha Hin]. cbn in Ha. subst a.
    pose proof (fi_known _ _ _ _ Hinv _ _ Hin He). congruence.
Qed.

Lemma server_run_inv cfg max_rpcs s :
  (0 ≤ max_connections cfg)%Z → (0 ≤ max_connections_per_ip cfg)%Z → (0 ≤ max_rpcs)%Z →
  server_run cfg max_rpcs s →
  filter_inv cfg (ss_filter s) (ss_connections s) (ss_evicted s) ∧
  (0 ≤ ss_rpc_semaphore s)%Z ∧ ss_rpc_semaphore s = (max_rpcs - Z.of_nat (ss_rpcs s))%Z.
Proof.
  intros Hc Hip Hr. induction 1 as [f Hf|s now validated addr f r _ [IH IHr] Hacc
    |s before c after _ [IH IHr] Hcs|s addr _ [IH IHr] _|s sem u rest _ [IH IHr] Hacc|s n _ [IH IHr] Hn]; cbn.
  - split; [|lia]. unfold filter_new in Hf. case_decide; [done|]. injection Hf as <-.
    split; cbn; try done; [lia|set_solver..].
  - split; [|done]. unfold accept_incoming in Hacc.
    destruct (try_acquire_permit now (ss_filter s) validated addr) as [f' r'] eqn:Htry.
    pose proof (try_acquire_permit_inv _ _ _ _ _ _ _ _ _ Hip IH Htry) as Hinv. clear Htry.
    injection Hacc as <- <-. by destruct r' as [[]|].
  - split; [|done]. apply drop_permit_inv. by rewrite <- Hcs.
  - split; [clear IHr|done]. split; cbn; try apply IH.
    + intros a idx [_ Ha]%lookup_delete_Some. by eapply (fi_cached _ _ _ _ IH).
    + intros a q Hq Ha. rewrite lookup_delete_ne by set_solver. apply (fi_known _ _ _ _ IH); set_solver.
  - split; [done|]. cbn in Hacc. unfold try_acquire in Hacc. case_decide; [|done].
    injection Hacc as <- _. lia.
  - split; [done|]. unfold release. lia.
Qed.

(** * Theorems *)

(** C19. A server keeps its limits: in every run it has at most [max_connections]
    open connections and handles at most [max_concurrent_rpcs] RPCs, and an
    address has at most [max_connections_per_ip] connections as long as it was
    not evicted from the cache of limiters.  No permit leaks: a validated attempt
    that passes the rate limit is refused exactly when a limit is reached. *)
Theorem connection_limits cfg max_rpcs s :
  (0 ≤ max_connections cfg)%Z → (0 ≤ max_connections_per_ip cfg)%Z → (0 ≤ max_rpcs)%Z →
  server_run cfg max_rpcs s →
  (Z.of_nat (length (ss_connections s)) ≤ max_connections cfg)%Z ∧
  (Z.of_nat (ss_rpcs s) ≤ max_rpcs)%Z ∧
  (∀ addr, addr ∉ ss_evicted s →
     (Z.of_nat (from_addr (ss_connections s) addr) ≤ max_connections_per_ip cfg)%Z) ∧
  (∀ now validated addr f,
     try_acquire_permit now (ss_filter s) validated addr = (f, inl GlobalSemaphore) →
     Z.of_nat (length (ss_connections s)) = max_connections cfg) ∧
  (∀ now validated addr f,
     try_acquire_permit now (ss_filter s) validated addr = (f, inl LocalSemaphore) →
     ∃ idx, f_local_limiters f !! addr = Some idx ∧
       Z.of_nat (from_limiter (ss_connections s) idx) = max_connections_per_ip cfg).
Proof.
  intros Hc Hip Hr Hrun. destruct (server_run_inv _ _ _ Hc Hip Hr Hrun) as (Hinv & Hs & Hrpc).
  pose proof (fi_global _ _ _ _ Hinv). pose proof (fi_global_pos _ _ _ _ Hinv).
  split_and!; [lia|lia| | |].
  - intros addr He. by eapply filter_inv_per_ip.
  - intros now validated addr f. unfold try_acquire_permit. destruct validated; [|done]. cbn [negb].
    destruct (limiters_of (ss_filter s) addr) as [f1 idx] eqn:Hf1.
    destruct (limiters_of_inv _ _ _ _ _ _ _ Hip Hinv Hf1) as (_ & _ & Hg).
    destruct (f_heap f1 !! idx) as [l|]; [|done].
    destruct (gov_check (ll_rate_limiter l) now 1) as [g []]; [|done..].
    destruct (try_acquire (ll_semaphore l)); [|done].
    cbn. unfold try_acquire. case_decide; [done|]. intros _. rewrite Hg in *. lia.
  - intros now validated addr f. unfold try_acquire_permit. destruct validated; [|done]. cbn [negb].
    destruct (limiters_of (ss_filter s) addr) as [f1 idx] eqn:Hf1.
    destruct (limiters_of_inv _ _ _ _ _ _ _ Hip Hinv Hf1) as (Hinv1 & Hcache & Hg).
    destruct (lookup_lt_is_Some_2 (f_heap f1) idx) as [l Hl]; [by eapply (fi_cached _ _ _ _ Hinv1)|].
    rewrite Hl. destruct (gov_check (ll_rate_limiter l) now 1) as [g []]; [|done..].
    destruct (fi_local _ _ _ _ Hinv1 _ _ Hl) as [Hsem Hpos].
    unfold try_acquire. case_decide as Hlt; [by case_decide|].
    intros [= <-]. exists idx. split; [exact Hcache|]. lia.
Qed.
End server.

(** * Witnesses *)

#[local] Existing Instance toy_governor.

Definition toy_server_config : FilterConfig :=
  {| max_connections := 1000; max_connections_per_ip := 1; max_connection_rate_per_ip := 5 |}.

Definition accept_from (s : ServerState) (addr : Z) : ServerState :=
  let '(f, r) := accept_incoming 0 (ss_filter s) true addr in
  {| ss_filter := f;
     ss_connections := match r with
                       | IncomingAccept p => (addr, p) :: ss_connections s
                       | _ => ss_connections s
                       end;
     ss_rpc_semaphore := ss_rpc_semaphore s; ss_rpcs := ss_rpcs s; ss_evicted := ss_evicted s |}.

Definition fresh_server : ServerState := {|
  ss_filter := match filter_new toy_server_config with
               | Ok f => f
               | _ => {| f_global_semaphore := 0%Z; f_heap := []; f_local_limiters := ∅;
                         f_max_connection_rate := 0; f_max_connections_per_ip := 0 |}
               end;
  ss_connections := []; ss_rpc_semaphore := 10%Z; ss_rpcs := 0; ss_evicted := ∅ |}.

Lemma accept_from_run s addr :
  server_run toy_server_config 10 s → server_run toy_server_config 10 (accept_from s addr).
Proof.
  intros Hs. unfold accept_from.
  destruct (accept_incoming 0 (ss_filter s) true addr) as [f r] eqn:Ha. by eapply server_accept.
Qed.

Lemma accepting_run s addrs :
  server_run toy_server_config 10 s → server_run toy_server_config 10 (foldl accept_from s addrs).
Proof.
  revert s. induction addrs as [|addr addrs IH]; intros s Hs; [done|].
  apply IH, accept_from_run, Hs.
Qed.

Lemma connection_limits_witness :
  server_run toy_server_config 10 (accept_from (accept_from fresh_server 7) 7) ∧
  (Z.of_nat (from_addr (ss_connections (accept_from (accept_from fresh_server 7) 7)) 7) ≤ 1)%Z.
Proof.
  assert (server_run toy_server_config 10 (accept_from (accept_from fresh_server 7) 7)) as Hrun
    by (apply accept_from_run, accept_from_run; by apply server_start).
  split; [exact Hrun|].
  destruct (connection_limits toy_server_config 10 _ ltac:(cbn; lia) ltac:(cbn; lia) ltac:(lia) Hrun)
    as (_ & _ & Hip & _). apply Hip. vm_compute. discriminate.
Defined.

Definition crowd : list Z := seqZ 0 501.

Definition after_eviction : ServerState :=
  let s := foldl accept_from fresh_server crowd in
  {| ss_filter := set_limiters (ss_filter s) (f_heap (ss_filter s))
                    (delete 0%Z (f_local_limiters (ss_filter s)));
     ss_connections := ss_connections s; ss_rpc_semaphore := ss_rpc_semaphore s;
     ss_rpcs := ss_rpcs s; ss_evicted := {[0%Z]} ∪ ss_evicted s |}.

(** The limit per address is not absolute: once 501 addresses have connected
    the cache evicts the limiter of one of them, a fresh limiter is made at its
    next attempt, and an address that may have one connection has two. *)
Theorem per_ip_limit_exceeded :
  ∃ s, server_run toy_server_config 10 s ∧
    max_connections_per_ip toy_server_config = 1%Z ∧ from_addr (ss_connections s) 0 = 2.
Proof.
  exists (accept_from after_eviction 0). split_and!; [|done|vm_compute; reflexivity].
  apply accept_from_run. unfold after_eviction. apply server_evict.
  - apply accepting_run. by apply server_start.
  - apply (bool_decide_unpack (_ < _)). vm_compute. exact I.
Qed.
