(* ===== verification/RpcClient.v ===== *)
(** RpcClient: outbound connections of the RPC layer (src/crates/rpc/src/client.rs).

    A connection holds the current QUIC connection behind a watch channel; a
    mutex makes sure that at most one task tries to reconnect.  The model has the
    value of the channel and the interval of the running task, if there is one.
    What QUIC does during an operation is an argument. *)
From S2P Require Import Prelude External Rpc Throttle.
From stdpp Require Import prelude list strings.

Section client.
Context `{PeerIds}.

(** QUIC connections are numbered. *)
Record QuicEnv := {
  (** [close_reason().is_some()]. *)
  qe_closed : Z → bool;
  (** [open_bi().now_or_never()] and [write_u8(id).now_or_never()]: [None] if it
      would block. *)
  qe_open_bi : Z → option (() + string);
  qe_write_id : Z → option (() + string);
}.

Record Conn := {
  cn_is_reconnect_enabled : bool;
  cn_watch : option Z;
  (** The interval of the reconnection task that holds the mutex. *)
  cn_task : option Z;
  (** [config.reconnect_interval]. *)
  cn_reconnect_interval : Z;
}.

Definition set_cn (self : Conn) (watch task : option Z) : Conn := {|
  cn_is_reconnect_enabled := cn_is_reconnect_enabled self; cn_watch := watch; cn_task := task;
  cn_reconnect_interval := cn_reconnect_interval self |}.

(** [requires_reconnect]; durations are nanoseconds. *)
Definition requires_reconnect (self : RpcClientError) (configured_interval : Z) : option Z :=
  match self with
  | CeNotConnected | CeQuic _ | CeConnect _ | CeConnection _ | CeIo _ | CeWrite _ | CeTimeout =>
      Some configured_interval
  | CeExtractPeerId _ | CeWrongPeerId _ | CeUnknownConnectionStatusCode _ | CeUnsupportedProtocol
  | CeUnknownApi | CeConnectionRejected _ => Some (Z.max (10 ^ 9) configured_interval)
  | CeCodec _ | CeWrongResponse _ | CeStreamFinished | CeTooManyConcurrentRpcs | CeInvalidRpcId _
  | CeSendBufferFull => None
  end.

(** [reconnect]: nothing if it is disabled or the mutex is locked. *)
Definition reconnect (self : Conn) (interval : Z) : Conn :=
  if negb (cn_is_reconnect_enabled self) then self
  else
    match cn_task self with
    | Some _ => self
    | None => set_cn self (cn_watch self) (Some interval)
    end.

Definition new_connection_inner (interval : Z) (quic : option Z) : Conn := {|
  cn_is_reconnect_enabled := match quic with None => true | Some _ => false end;
  cn_watch := quic; cn_task := None; cn_reconnect_interval := interval |}.

(** [Client::new_connection]. *)
Definition new_connection (interval : Z) : Conn :=
  reconnect (new_connection_inner interval None) interval.

(** An iteration of the reconnection task, with the result of [connect]. *)
Definition reconnect_tick (self : Conn) (r : res RpcClientError Z) : Conn :=
  match cn_task self, r with
  | Some _, Ok quic => set_cn self (Some quic) None
  | _, _ => self
  end.

Definition is_closed (env : QuicEnv) (self : Conn) : Conn * bool :=
  let is_closed := match cn_watch self with Some conn => qe_closed env conn | None => true end in
  (if is_closed then reconnect self (cn_reconnect_interval self) else self, is_closed).

(** [wait_open] up to the point where it waits for the channel to change. *)
Definition wait_open_ (env : QuicEnv) (self : Conn) : Conn * Poll () :=
  match cn_watch self with
  | Some conn =>
      if qe_closed env conn then (reconnect self (cn_reconnect_interval self), Pending)
      else (self, Ready ())
  | None => (reconnect self (cn_reconnect_interval self), Pending)
  end.

Definition new_outbound_rpc (env : QuicEnv) (self : Conn) : res RpcClientError Z :=
  conn ← ok_or (cn_watch self) CeNotConnected;
  _ ← match qe_open_bi env conn with
      | Some (inl _) => Ok ()
      | Some (inr e) => Err (CeConnection e)
      | None => Err CeTooManyConcurrentRpcs
      end;
  _ ← match qe_write_id env conn with
      | Some (inl _) => Ok ()
      | Some (inr e) => Err (CeIo e)
      | None => Err CeSendBufferFull
      end;
  Ok conn.

(** [send_]. *)
Definition send_ (env : QuicEnv) (self : Conn) : Conn * res RpcClientError Z :=
  let r := new_outbound_rpc env self in
  (match r with
   | Err e =>
       match requires_reconnect e (cn_reconnect_interval self) with
       | Some interval => reconnect self interval
       | None => self
       end
   | _ => self
   end, r).

(** [with_timeout]: [elapsed] is how long the future takes. *)
Definition with_timeout {A} (timeout : option Z) (elapsed : Z) (fut : res RpcClientError A)
    : res RpcClientError A :=
  match timeout with
  | Some t => if decide (t ≤ elapsed)%Z then Err CeTimeout else fut
  | None => fut
  end.

(** [send]: [known_id] if the API has an RPC with this id, [f] is what the caller
    does with the streams. *)
Definition send {A} (env : QuicEnv) (self : Conn) (id : Z) (known_id : bool)
    (timeout : option Z) (elapsed : Z) (f : res RpcClientError A) : Conn * res RpcClientError A :=
  if negb known_id then (self, Err (CeInvalidRpcId id))
  else
    let '(self, r) := send_ env self in
    (self, _ ← r; with_timeout timeout elapsed f).

(** * Runs *)

Inductive ConnOp :=
| OpIsClosed | OpWaitOpen | OpSend (id timeout elapsed : Z) | OpTickFails (e : RpcClientError).

(** What an operation leaves behind; the task runs in between. *)
Definition conn_apply (self : Conn) (step : QuicEnv * ConnOp) : Conn :=
  match step.2 with
  | OpIsClosed => (is_closed step.1 self).1
  | OpWaitOpen => (wait_open_ step.1 self).1
  | OpSend id timeout elapsed =>
      (send (A := ()) step.1 self id true (Some timeout) elapsed (Ok ())).1
  | OpTickFails e => reconnect_tick self (Err e)
  end.

(** An operation that finds that the connection does not work. *)
Definition finds_broken (self : Conn) (step : QuicEnv * ConnOp) : Prop :=
  match step.2 with
  | OpIsClosed => (is_closed step.1 self).2 = true
  | OpWaitOpen => (wait_open_ step.1 self).2 = Pending
  | OpSend _ _ _ => ∃ e, (send_ step.1 self).2 = Err e ∧
                         requires_reconnect e (cn_reconnect_interval self) ≠ None
  | OpTickFails _ => False
  end.

(** What operations keep of a connection with reconnection. *)
Record keeps (self self' : Conn) : Prop := {
  keeps_enabled : cn_is_reconnect_enabled self' = true;
  keeps_watch : cn_watch self' = cn_watch self;
  keeps_interval : cn_reconnect_interval self' = cn_reconnect_interval self;
  keeps_task i : cn_task self = Some i → cn_task self' = Some i;
}.

Lemma keeps_refl self : cn_is_reconnect_enabled self = true → keeps self self.
Proof. by split. Qed.

Lemma keeps_trans a b c : keeps a b → keeps b c → keeps a c.
Proof. intros [] []. split; [done|congruence|congruence|auto]. Qed.

Lemma reconnect_keeps self interval :
  cn_is_reconnect_enabled self = true → keeps self (reconnect self interval).
Proof.
  intros He. unfold reconnect. rewrite He. cbn [negb]. destruct (cn_task self) eqn:Ht.
  - by apply keeps_refl.
  - by split; [..|intros i; rewrite Ht].
Qed.

Lemma reconnect_starts self interval :
  cn_is_reconnect_enabled self = true → cn_task self = None →
  cn_task (reconnect self interval) = Some interval.
Proof. intros He Ht. unfold reconnect. by rewrite He, Ht. Qed.

Lemma reconnect_disabled self interval :
  cn_is_reconnect_enabled self = false → reconnect self interval = self.
Proof. intros He. unfold reconnect. by rewrite He. Qed.

Lemma send_conn {A} env self id timeout elapsed (f : res RpcClientError A) :
  (send env self id true timeout elapsed f).1 = (send_ env self).1.
Proof. unfold send. cbn. by destruct (send_ env self). Qed.

(** Errors of [new_outbound_rpc] ask for the configured interval or for none. *)
Lemma outbound_interval env self e i :
  new_outbound_rpc env self = Err e →
  requires_reconnect e (cn_reconnect_interval self) = Some i → i = cn_reconnect_interval self.
Proof.
  unfold new_outbound_rpc. intros Hr.
  destruct (cn_watch self) as [q|]; cbn in Hr; [|injection Hr as <-; cbn; congruence].
  destruct (qe_open_bi env q) as [[]|]; cbn in Hr; [|injection Hr as <-; cbn; congruence
    |injection Hr as <-; done].
  destruct (qe_write_id env q) as [[]|]; cbn in Hr; [done|injection Hr as <-; cbn; congruence
    |injection Hr as <-; done].
Qed.

(** An operation on a connection with reconnection keeps it; one that finds it
    broken starts the task if there is none. *)
Lemma conn_apply_keeps self step :
  cn_is_reconnect_enabled self = true →
  keeps self (conn_apply self step) ∧
  (cn_task self = None →
     (finds_broken self step → cn_task (conn_apply self step) = Some (cn_reconnect_interval self)) ∧
     cn_task (conn_apply self step) ∈ [None; Some (cn_reconnect_interval self)]).
Proof.
  intros He. destruct step as [env op]. unfold conn_apply, finds_broken. cbn [fst snd].
  pose proof (reconnect_keeps self (cn_reconnect_interval self) He) as Hk.
  pose proof (reconnect_starts self (cn_reconnect_interval self) He) as Hs.
  assert (∀ P : Prop, (cn_task self = None → (P → cn_task (reconnect self (cn_reconnect_interval self)) =
     Some (cn_reconnect_interval self)) ∧ cn_task (reconnect self (cn_reconnect_interval self)) ∈
       [None; Some (cn_reconnect_interval self)])) as Hstart.
  { intros P Ht. split; [by intros _; apply Hs|]. rewrite Hs by done. repeat constructor. }
  assert (∀ P : Prop, ¬ P → cn_task self = None →
     (P → cn_task self = Some (cn_reconnect_interval self)) ∧
     cn_task self ∈ [None; Some (cn_reconnect_interval self)]) as Hstay.
  { intros P HP Ht. split; [done|]. rewrite Ht. constructor. }
  pose proof (keeps_refl self He) as Hrefl.
  destruct op as [| |id timeout elapsed|e].
  - unfold is_closed. destruct (cn_watch self) as [q|]; [destruct (qe_closed env q)|]; cbn [fst snd];
      split; [done|apply Hstart|done|by apply Hstay|done|apply Hstart].
  - unfold wait_open_. destruct (cn_watch self) as [q|]; [destruct (qe_closed env q)|]; cbn [fst snd];
      split; [done|apply Hstart|done|by apply Hstay|done|apply Hstart].
  - rewrite send_conn. unfold send_. cbn [fst snd].
    destruct (new_outbound_rpc env self) as [q|e|] eqn:Ho;
      [split; [done|apply Hstay; by intros (? & ? & ?)]| |split; [done|apply Hstay; by intros (? & ? & ?)]].
    destruct (requires_reconnect e (cn_reconnect_interval self)) as [i|] eqn:Hi.
    + rewrite (outbound_interval _ _ _ _ Ho Hi). split; [done|]. apply Hstart.
    + split; [done|]. apply Hstay. intros (e' & [= <-] & Hne). done.
  - assert (reconnect_tick self (Err e) = self) as -> by (unfold reconnect_tick; by destruct (cn_task self)).
    split; [done|]. exact (Hstay False (λ h, h)).
Qed.

Lemma conn_applies_keeps steps self :
  cn_is_reconnect_enabled self = true → keeps self (foldl conn_apply self steps).
Proof.
  revert self. induction steps as [|step steps IH]; intros self He; [by apply keeps_refl|]. cbn.
  destruct (conn_apply_keeps self step He) as [Hk _].
  eapply keeps_trans; [exact Hk|]. apply IH, Hk.
Qed.

(** * Theorems *)


Lemma connect_never_reconnects interval quic steps :
  let self := new_connection_inner interval (Some quic) in
  foldl conn_apply self steps = self.
Proof.
  induction steps as [|[env op] steps IH]; [done|]. cbn [foldl]. rewrite <- IH at 2. f_equal.
  unfold conn_apply. cbn [fst snd].
  destruct op as [| |id timeout elapsed|e]; [| |rewrite send_conn|done].
  - unfold is_closed. cbn. by destruct (qe_closed env quic).
  - unfold wait_open_. cbn. by destruct (qe_closed env quic).
  - unfold send_. cbn [fst]. destruct (new_outbound_rpc _ _); [done| |done].
    destruct (requires_reconnect e _); [by apply reconnect_disabled|done].
Qed.

(** Rejected connections are retried as fast as any other: the interval of at
    least a second that [requires_reconnect] has for rejections, wrong peers and
    unknown APIs is never used, because only [connect] returns such errors and
    the task that calls it keeps its interval.  Every task runs at the configured
    interval. *)
Theorem slow_retry_unused interval steps :
  let self := foldl conn_apply (new_connection interval) steps in
  cn_task self = Some interval ∧
  (∀ e, reconnect_tick self (Err e) = self) ∧
  (∀ quic env op, let repaired := reconnect_tick self (Ok quic) in
     cn_task (conn_apply repaired (env, op)) ∈ [None; Some interval]).
Proof.
  cbn zeta. pose proof (conn_applies_keeps steps (new_connection interval) eq_refl) as Hk.
  pose proof (keeps_task _ _ Hk interval eq_refl) as Ht.
  split_and!; [done|by intros e; unfold reconnect_tick; rewrite Ht|].
  intros quic env op. unfold reconnect_tick. rewrite Ht.
  destruct (conn_apply_keeps (set_cn (foldl conn_apply (new_connection interval) steps) (Some quic) None)
    (env, op) (keeps_enabled _ _ Hk)) as [_ Hstart].
  destruct (Hstart eq_refl) as [_ Hin]. cbn [set_cn cn_reconnect_interval] in Hin.
  rewrite (keeps_interval _ _ Hk) in Hin. exact Hin.
Qed.
End client.

(** * Witness *)

#[local] Existing Instance toy_peer_ids.

(** A connection that breaks: connection 1 is closed, connection 2 works. *)
Definition broken_env : QuicEnv := {|
  qe_closed q := bool_decide (q = 1%Z);
  qe_open_bi _ := Some (inl ());
  qe_write_id _ := Some (inl ()) |}.

Definition broken_conn : Conn := reconnect_tick (new_connection 5) (Ok 1%Z).

