(* ===== verification/RpcCall.v ===== *)
(** RpcCall: calls over a stream ([send_request] and [ResponseStream] of
    src/crates/rpc/src/client.rs, [handle_unary], [handle], [Responder],
    [RequestStream] and [ResponseSink] of server.rs, the codecs of transport.rs).

    After the byte with the id of the RPC a stream carries frames
    ([LengthDelimitedCodec] of crate [tokio-util], which refuses frames above
    [max_frame_length]); the content of a frame is a message written by the codec
    of the RPC.  A server that fails drops the stream, and its client sees the end
    of it. *)
From S2P Require Import Prelude External Rpc RpcClient.
From stdpp Require Import prelude countable list strings.

(** * Codecs *)

(** [trait Codec<M>]. *)
Class Message (M : Type) := {
  message_serialize : M → res string (list Z);
  message_deserialize : list Z → res string M;
}.

#[global] Arguments message_serialize {_ _} _ : simpl never.
#[global] Arguments message_deserialize {_ _} _ : simpl never.

(** Messages survive a codec, and no bytes make it panic. *)
Class MessageLaws M `{Message M} := {
  message_roundtrip m :
    ∃ bytes, message_serialize m = Ok bytes ∧ message_deserialize bytes = Ok m;
  message_safe bytes : message_deserialize bytes ≠ Panic;
}.

(** [PostcardCodec]. *)
Class PostcardType (T : Type) := {
  postcard_type :: Postcard T;
  postcard_type_io :: PostcardIo T;
}.
Class PostcardTypeLaws T `{PostcardType T} := postcard_type_laws :: PostcardIoLaws T.

#[export] Instance postcard_codec T `{PostcardType T} : Message T := {|
  message_serialize data := _ ← postcard_serialized_size data; postcard_to_io data;
  message_deserialize src := postcard_from_bytes src;
|}.

#[export] Instance postcard_codec_laws T `{PostcardTypeLaws T} : MessageLaws T.
Proof.
  split; unfold message_serialize, message_deserialize; cbn.
  - intros v. destruct (postcard_io_size_ok v) as [n Hn].
    destruct (postcard_io_roundtrip v) as (b & Hb & Hr). exists b. by rewrite Hn.
  - apply postcard_io_from_bytes_safe.
Qed.

(** [JsonCodec]: [serde_json::to_vec] and [from_slice]. *)
Class Json (T : Type) := {
  json_to_vec : T → res string (list Z);
  json_from_slice : list Z → res string T;
}.
Class JsonLaws T `{Json T} := {
  json_roundtrip v : ∃ bytes, json_to_vec v = Ok bytes ∧ json_from_slice bytes = Ok v;
  json_safe bytes : json_from_slice bytes ≠ Panic;
}.

#[export] Instance json_codec T `{Json T} : Message T | 10 := {|
  message_serialize data := json_to_vec data;
  message_deserialize src := json_from_slice src;
|}.

#[export] Instance json_codec_laws T `{JsonLaws T} : MessageLaws T.
Proof. split; [apply json_roundtrip|apply json_safe]. Qed.

Section calls.
Context `{PeerIds} (max_frame_length : nat).

(** * One request, one response *)

(** [FramedWrite]: too long a frame is an error. *)
Definition frame {E} (too_big : E) (bytes : list Z) : res E (list Z) :=
  ensure (bool_decide (length bytes ≤ max_frame_length)) too_big ≫= λ _, Ok bytes.

(** [ResponseSink::start_send] and [RequestSink::start_send]. *)
Definition server_send `{Message T} (item : T) : res RpcServerError (list Z) :=
  bytes ← map_err SeCodec (message_serialize item);
  frame (SeIo "frame size too big") bytes.
Definition client_send `{Message T} (item : T) : res RpcClientError (list Z) :=
  bytes ← map_err CeCodec (message_serialize item);
  frame (CeIo "frame size too big") bytes.

(** [handle_unary] with a responder. *)
Definition handle_unary `{Message Req, Message Resp} (handler : Req → Resp) (request : list (list Z))
    : res RpcServerError (list (list Z)) :=
  bytes ← ok_or (head request) SeStreamFinished;
  req ← map_err SeCodec (message_deserialize bytes);
  response ← server_send (handler req);
  Ok [response].

(** What [send_request] does with the streams; [serve] is the server at the other
    end. *)
Definition send_request `{Message Req, Message Resp} (serve : Z → list (list Z) → list (list Z))
    (id : Z) (req : Req) : res RpcClientError Resp :=
  bytes ← client_send req;
  response ← ok_or (head (serve id [bytes])) CeStreamFinished;
  map_err CeCodec (message_deserialize response).

(** [handle]: the frames the client gets.  A failure or the timeout drops the
    stream after what was written. *)
Definition handle (timeout : option Z) (elapsed : Z) (written : res RpcServerError (list (list Z)))
    : list (list Z) :=
  match timeout with
  | Some t => if decide (t ≤ elapsed)%Z then [] else default [] (res_ok written)
  | None => default [] (res_ok written)
  end.

(** [send_all]: the frames up to the first that cannot be sent. *)
Fixpoint send_all `{Message T} (items : list T) : list (list Z) :=
  match items with
  | [] => []
  | item :: items =>
      match server_send item with
      | Ok bytes => bytes :: send_all items
      | _ => []
      end
  end.

(** * Messages survive *)

Definition fits_frame `{Message T} (v : T) : Prop :=
  ∀ bytes, message_serialize v = Ok bytes → length bytes ≤ max_frame_length.

(** Sending gives the frame of the message, or fails because it is too long. *)
Lemma send_cases {E} (f : string → E) (too_big : E) `{MessageLaws T} (v : T) :
  ∃ bytes, message_deserialize bytes = Ok v ∧ (fits_frame v ↔ length bytes ≤ max_frame_length) ∧
    (b ← map_err f (message_serialize v); frame too_big b) =
      (if decide (length bytes ≤ max_frame_length) then Ok bytes else Err too_big).
Proof.
  destruct (message_roundtrip v) as (b & Hs & Hd). exists b. split_and!; [done| |].
  - unfold fits_frame. rewrite Hs. split; [by intros Hf; apply Hf|by intros ? ? [= <-]].
  - rewrite Hs. cbn. unfold frame. case_decide as Hc;
      [rewrite bool_decide_eq_true_2 by done|rewrite bool_decide_eq_false_2 by done]; done.
Qed.

(** A unary RPC gives the handler's response, or fails as a transport does; it
    succeeds if the frames fit and the server is in time. *)
Lemma send_request_exact `{MessageLaws Req, MessageLaws Resp} (handler : Req → Resp) serve id req
    timeout elapsed :
  (∀ bytes, serve id [bytes] = handle timeout elapsed (handle_unary handler [bytes])) →
  (send_request serve id req = Ok (handler req) ∨ ∃ e, send_request (Resp := Resp) serve id req = Err e) ∧
  (fits_frame req → fits_frame (handler req) → (∀ t, timeout = Some t → (elapsed < t)%Z) →
     send_request serve id req = Ok (handler req)).
Proof.
  intros Hserve. unfold send_request, client_send.
  destruct (send_cases CeCodec (CeIo "frame size too big") req) as (b & Hd & Hfit & ->).
  case_decide as Hb; cbn [mbind res_bind]; [|split; [right; by eexists|tauto]].
  rewrite Hserve. unfold handle_unary, server_send. cbn [head ok_or mbind res_bind map_err].
  rewrite Hd. cbn [map_err mbind res_bind].
  destruct (send_cases SeCodec (SeIo "frame size too big") (handler req)) as (b' & Hd' & Hfit' & ->).
  case_decide as Hb'; cbn [mbind res_bind].
  - unfold handle. destruct timeout as [t|]; [case_decide as Ht|]; cbn; rewrite ?Hd'.
    + split; [right; by eexists|]. intros _ _ Hin. specialize (Hin t eq_refl). lia.
    + split; [by left|done].
    + split; [by left|done].
  - assert (handle timeout elapsed (Err (SeIo "frame size too big")) = []) as ->
      by (unfold handle; destruct timeout; [by case_decide|done]).
    split; [right; by eexists|tauto].
Qed.

Lemma server_send_fits `{MessageLaws T} (v : T) :
  ∃ bytes, message_deserialize bytes = Ok v ∧
    (server_send v = Ok bytes ∨ (¬ fits_frame v ∧ ∃ e, server_send v = Err e)).
Proof.
  unfold server_send.
  destruct (send_cases SeCodec (SeIo "frame size too big") v) as (b & Hd & Hfit & ->).
  exists b. split; [done|]. case_decide; [by left|right; split; [tauto|by eexists]].
Qed.


(** [send_all] sends a prefix of the messages, all of them if they fit. *)
Lemma send_all_prefix `{MessageLaws T} (items : list T) :
  ∃ n, Forall2 (λ b m, message_deserialize b = Ok m) (send_all items) (take n items) ∧
    (Forall fits_frame items → n = length items).
Proof.
  induction items as [|m items (n & Hf & Hn)]; [by exists 0|]. cbn.
  destruct (server_send_fits m) as (b & Hd & [->|(Hno & e & ->)]).
  - exists (S n). split; [by constructor|]. intros [_ Hall]%Forall_cons. by rewrite Hn.
  - exists 0. split; [constructor|]. by intros [Hm _]%Forall_cons.
Qed.
End calls.

(** * For the witnesses *)

Definition toy_json T `{Countable T} : Json T := {|
  json_to_vec v := Ok (toy_bits (encode v));
  json_from_slice bytes := ok_or (decode (toy_unbits bytes)) "expected value";
|}.

Lemma toy_json_laws T `{Countable T} : @JsonLaws T (toy_json T).
Proof.
  split; cbn.
  - intros v. eexists. split; [done|]. by rewrite toy_unbits_bits, decode_encode.
  - intros bytes. apply ok_or_Panic.
Qed.

Definition fits_toy `{Message T} (n : nat) (v : T) : bool :=
  match message_serialize v with Ok b => bool_decide (length b ≤ n) | _ => true end.

Lemma fits_toy_spec `{Message T} n (v : T) : fits_toy n v = true → fits_frame n v.
Proof.
  unfold fits_toy, fits_frame. intros Hf b Hb. rewrite Hb in Hf. by apply bool_decide_eq_true in Hf.
Qed.
