(* ===== verification/StorageApi.v ===== *)
(** StorageApi: the storage operations, their outputs and errors, and the
    error codes of the RPC layer (src/crates/storage_api/src/lib.rs,
    operation.rs, rpc/mod.rs).

    [Operation::Owned] and [Operation::Borrowed] carry the same data and differ
    only in who owns it; [Operation] is that data.  Keys, fields and values are
    lists of bytes. *)
From S2P Require Import Prelude.
From stdpp Require Import prelude gmap sets list strings.

(** * Namespaces *)

(** [struct Namespace([u8; 21])]. *)
Definition Namespace := list Z.

(** [Namespace::node_operator_id]: the first 20 bytes, as an address. *)
Definition node_operator_id (ns : Namespace) : Z := from_be_bytes (take 20 ns).

(** [Namespace::idx]. *)
Definition namespace_idx {E} (ns : Namespace) : res E Z := unwrap (last ns).

Definition namespace_wf (ns : Namespace) : Prop := length ns = 21 ∧ Forall is_byte ns.

(** * Records *)

Record Record := {
  rec_value : list Z;
  rec_expiration : Z;
  rec_version : Z;
}.

Record MapEntry := {
  entry_field : list Z;
  entry_record : Record;
}.

Record MapPage := {
  page_entries : list MapEntry;
  page_has_next : bool;
}.

#[export] Instance Record_eq_dec : EqDecision Record.
Proof. solve_decision. Defined.
#[export] Instance MapEntry_eq_dec : EqDecision MapEntry.
Proof. solve_decision. Defined.
#[export] Instance MapPage_eq_dec : EqDecision MapPage.
Proof. solve_decision. Defined.

(** [MapPage::next_page_cursor]. *)
Definition next_page_cursor (self : MapPage) : option (list Z) :=
  if page_has_next self then entry_field <$> last (page_entries self) else None.

(** * Operations *)

(** The last argument is [keyspace_version]. *)
Inductive Operation :=
| Get (ns : Namespace) (key : list Z) (kv : option Z)
| SetOp (ns : Namespace) (key : list Z) (record : Record) (kv : option Z)
| Del (ns : Namespace) (key : list Z) (version : Z) (kv : option Z)
| GetExp (ns : Namespace) (key : list Z) (kv : option Z)
| SetExp (ns : Namespace) (key : list Z) (expiration version : Z) (kv : option Z)
| HGet (ns : Namespace) (key field : list Z) (kv : option Z)
| HSet (ns : Namespace) (key : list Z) (entry : MapEntry) (kv : option Z)
| HDel (ns : Namespace) (key field : list Z) (version : Z) (kv : option Z)
| HGetExp (ns : Namespace) (key field : list Z) (kv : option Z)
| HSetExp (ns : Namespace) (key field : list Z) (expiration version : Z) (kv : option Z)
| HCard (ns : Namespace) (key : list Z) (kv : option Z)
| HScan (ns : Namespace) (key : list Z) (count : Z) (cursor : option (list Z)) (kv : option Z).

Definition op_namespace (self : Operation) : Namespace :=
  match self with
  | Get ns _ _ | SetOp ns _ _ _ | Del ns _ _ _ | GetExp ns _ _ | SetExp ns _ _ _ _
  | HGet ns _ _ _ | HSet ns _ _ _ | HDel ns _ _ _ _ | HGetExp ns _ _ _
  | HSetExp ns _ _ _ _ _ | HCard ns _ _ | HScan ns _ _ _ _ => ns
  end.

Definition op_key (self : Operation) : list Z :=
  match self with
  | Get _ key _ | SetOp _ key _ _ | Del _ key _ _ | GetExp _ key _ | SetExp _ key _ _ _
  | HGet _ key _ _ | HSet _ key _ _ | HDel _ key _ _ _ | HGetExp _ key _ _
  | HSetExp _ key _ _ _ _ | HCard _ key _ | HScan _ key _ _ _ => key
  end.

Definition is_write (self : Operation) : bool :=
  match self with
  | SetOp _ _ _ _ | Del _ _ _ _ | SetExp _ _ _ _ _ | HSet _ _ _ _ | HDel _ _ _ _ _
  | HSetExp _ _ _ _ _ _ => true
  | Get _ _ _ | GetExp _ _ _ | HGet _ _ _ _ | HGetExp _ _ _ _ | HCard _ _ _
  | HScan _ _ _ _ _ => false
  end.

Definition op_keyspace_version (self : Operation) : option Z :=
  match self with
  | Get _ _ kv | SetOp _ _ _ kv | Del _ _ _ kv | GetExp _ _ kv | SetExp _ _ _ _ kv
  | HGet _ _ _ kv | HSet _ _ _ kv | HDel _ _ _ _ kv | HGetExp _ _ _ kv
  | HSetExp _ _ _ _ _ kv | HCard _ _ kv | HScan _ _ _ _ kv => kv
  end.

Definition set_keyspace_version (self : Operation) (version : Z) : Operation :=
  let kv := Some version in
  match self with
  | Get ns key _ => Get ns key kv
  | SetOp ns key record _ => SetOp ns key record kv
  | Del ns key v _ => Del ns key v kv
  | GetExp ns key _ => GetExp ns key kv
  | SetExp ns key e v _ => SetExp ns key e v kv
  | HGet ns key field _ => HGet ns key field kv
  | HSet ns key entry _ => HSet ns key entry kv
  | HDel ns key field v _ => HDel ns key field v kv
  | HGetExp ns key field _ => HGetExp ns key field kv
  | HSetExp ns key field e v _ => HSetExp ns key field e v kv
  | HCard ns key _ => HCard ns key kv
  | HScan ns key count cursor _ => HScan ns key count cursor kv
  end.

Inductive Output :=
| OutRecord (r : option Record)
| OutExpiration (e : option Z)
| OutMapPage (p : MapPage)
| OutCardinality (n : Z)
| OutNone.

#[export] Instance Output_eq_dec : EqDecision Output.
Proof. solve_decision. Defined.

(** * Errors *)

Inductive ErrorKind :=
| Unauthorized | KeyspaceVersionMismatch | Timeout_ | Internal | InvalidArgument
| Transport | Unknown.

#[export] Instance ErrorKind_eq_dec : EqDecision ErrorKind.
Proof. solve_decision. Defined.

Record Error := {
  err_kind : ErrorKind;
  err_message : option string;
}.

#[export] Instance Error_eq_dec : EqDecision Error.
Proof. solve_decision. Defined.

Definition error_new (kind : ErrorKind) : Error := {| err_kind := kind; err_message := None |}.
Definition error_with_message (self : Error) (message : string) : Error :=
  {| err_kind := err_kind self; err_message := Some message |}.

Definition is_transient (self : Error) : bool :=
  match err_kind self with
  | Unauthorized | InvalidArgument | Unknown => false
  | KeyspaceVersionMismatch | Timeout_ | Internal | Transport => true
  end.

(** [storage_api::Result<operation::Output>]. *)
Inductive Response :=
| ROk (out : Output)
| RErr (e : Error).

#[export] Instance Response_eq_dec : EqDecision Response.
Proof. solve_decision. Defined.

Definition response_is_ok (r : Response) : bool :=
  match r with ROk _ => true | RErr _ => false end.

(** * Errors on the wire *)

Inductive ErrorCode := CodeInternal | CodeUnauthorized | CodeKeyspaceVersionMismatch | CodeInvalidArgument.

Definition error_code_as_u8 (c : ErrorCode) : Z :=
  match c with
  | CodeInternal => 0 | CodeUnauthorized => 1 | CodeKeyspaceVersionMismatch => 2
  | CodeInvalidArgument => 3
  end%Z.

(** [ErrorCode::try_from(u8)]. *)
Definition error_code_try_from (z : Z) : option ErrorCode :=
  match z with
  | 0 => Some CodeInternal | 1 => Some CodeUnauthorized
  | 2 => Some CodeKeyspaceVersionMismatch | 3 => Some CodeInvalidArgument
  | _ => None
  end%Z.

(** [rpc::Error]. *)
Record RpcError := { rpc_code : Z; rpc_message : option string }.

Definition error_code_from_kind (kind : ErrorKind) : ErrorCode :=
  match kind with
  | Unauthorized => CodeUnauthorized
  | KeyspaceVersionMismatch => CodeKeyspaceVersionMismatch
  | InvalidArgument => CodeInvalidArgument
  | Internal | Timeout_ | Transport | Unknown => CodeInternal
  end.

Definition error_to_rpc (err : Error) : RpcError := {|
  rpc_code := error_code_as_u8 (error_code_from_kind (err_kind err));
  rpc_message := err_message err;
|}.

(** [From<rpc::Error> for Error]; the message of an unexpected code names the
    code, [fmt] renders it. *)
Definition error_from_rpc (fmt : Z → string) (err : RpcError) : Error :=
  match error_code_try_from (rpc_code err) with
  | None => error_with_message (error_new Unknown) (fmt (rpc_code err))
  | Some code =>
      {| err_kind := match code with
                     | CodeUnauthorized => Unauthorized
                     | CodeKeyspaceVersionMismatch => KeyspaceVersionMismatch
                     | CodeInternal => Internal
                     | CodeInvalidArgument => InvalidArgument
                     end;
         err_message := rpc_message err |}
  end.

(** [Responder::send_result]: an output of the wrong type for the RPC becomes an
    internal error; [expected] is the downcast of the RPC's response type. *)
Definition responder_result {T} (downcast : Output → option T) (r : Response)
    : T + RpcError :=
  match r with
  | ROk out =>
      match downcast out with
      | Some t => inl t
      | None => inr {| rpc_code := error_code_as_u8 CodeInternal; rpc_message := None |}
      end
  | RErr e => inr (error_to_rpc e)
  end.

(** * Properties *)

(** Stamping an operation with a keyspace version changes nothing else: the
    version read back is the one stamped, and namespace, key and the kind of
    operation (so whether it is a write) are kept. *)
Lemma set_keyspace_version_spec op version :
  let op' := set_keyspace_version op version in
  op_keyspace_version op' = Some version ∧ op_namespace op' = op_namespace op ∧
  op_key op' = op_key op ∧ is_write op' = is_write op ∧
  (op_keyspace_version op = Some version → op' = op).
Proof. destruct op; cbn; split_and!; try done; by intros ->. Qed.

(** An error crosses the wire without losing what a client needs: the
    message is kept, kinds with a code of their own are kept, the others arrive
    as internal errors, and whether the error is worth retrying never changes
    from yes to no; only an [Unknown] error becomes retryable. *)
Theorem error_rpc_roundtrip fmt e :
  let e' := error_from_rpc fmt (error_to_rpc e) in
  err_message e' = err_message e ∧
  (err_kind e' = err_kind e ∨ (err_kind e' = Internal ∧ err_kind e ∈ [Timeout_; Transport; Unknown])) ∧
  (is_transient e = true → is_transient e' = true) ∧
  (is_transient e' = true → is_transient e = true ∨ err_kind e = Unknown).
Proof. destruct e as [[] m]; cbn; set_solver. Qed.
