(* ===== verification/Coordinator.v ===== *)
(** Coordinator: the replication coordinator
    (src/crates/replication/src/coordinator/mod.rs, reconciliation.rs,
    read_repair.rs).

    A storage operation is sent to the five primary replicas of its key and,
    for a write during a migration, to the secondary replicas that are not
    primary ones.  The answers arrive in any order; [coordinator_loop] consumes
    them until a majority of the replica set (of both sets) has given the same
    answer.  A read without a majority is reconciled where the operation allows
    it ([reconcile]); replicas that answered a read differently from the
    majority are repaired ([ReadRepair]).

    The merged stream of answers is the list of (operator, response) pairs in
    order of arrival. *)
From S2P Require Import Prelude External SmartContract NodeOperator NodeOperators.
From S2P Require Import Keyspace Settings Migration View StorageApi.
From stdpp Require Import prelude gmap sets list sorting strings.

Definition RF : nat := REPLICATION_FACTOR.
Definition MAJORITY_QUORUM_THRESHOLD : nat := RF / 2 + 1.
Definition RESPONSE_BUFFER_LEN : nat := RF * 2.

Section quorum.
Context `{PeerIds} {N : Type}.

(** * Responses *)

(** [receive_response]: the position of the response in the buffer, where it is
    stored if it is new; a full buffer panics. *)
Fixpoint receive_response {E} (buf : list (option Response)) (response : Response)
    : res E (nat * list (option Response)) :=
  match buf with
  | [] => Panic
  | slot :: buf =>
      match slot with
      | Some resp =>
          if decide (resp = response) then Ok (0, slot :: buf)
          else '(idx, buf) ← receive_response buf response; Ok (S idx, slot :: buf)
      | None => Ok (0, Some response :: buf)
      end
  end.

Definition response_buffer_new : list (option Response) := replicate RESPONSE_BUFFER_LEN None.

(** * Quorum *)

Record Quorum := {
  q_response_idx : option nat;
  q_replica_set : list (NodeOperator N);
  q_replica_responses : list (option nat);
  q_replicas_per_response : list Z;
}.

Definition quorum_new (replica_set : list (NodeOperator N)) : Quorum := {|
  q_response_idx := None;
  q_replica_set := replica_set;
  q_replica_responses := replicate RF None;
  q_replicas_per_response := replicate RESPONSE_BUFFER_LEN 0%Z;
|}.

(** [replica_set.iter().position(|op| op.id == operator.id)]. *)
Fixpoint replica_position (replica_set : list (NodeOperator N)) (id : Z) : option nat :=
  match replica_set with
  | [] => None
  | op :: rest => if decide (op_id op = id) then Some 0 else S <$> replica_position rest id
  end.

(** [response_received]: out-of-range indices panic. *)
Definition response_received {E} (self : Quorum) (operator : NodeOperator N) (response_idx : nat)
    : res E (option nat * Quorum) :=
  match replica_position (q_replica_set self) (op_id operator) with
  | None => Ok (q_response_idx self, self)
  | Some replica_idx =>
      _ ← unwrap (q_replica_responses self !! replica_idx);
      count ← unwrap (q_replicas_per_response self !! response_idx);
      let count := wrap 8 (count + 1) in
      let response_idx' :=
        if decide (Z.of_nat MAJORITY_QUORUM_THRESHOLD ≤ count)%Z
        then Some response_idx else q_response_idx self in
      let self := {|
        q_response_idx := response_idx';
        q_replica_set := q_replica_set self;
        q_replica_responses := <[replica_idx := Some response_idx]> (q_replica_responses self);
        q_replicas_per_response := <[response_idx := count]> (q_replicas_per_response self) |} in
      Ok (response_idx', self)
  end.

(** * The response loop *)

(** The state when the loop breaks; [lr_rest] are the answers not consumed. *)
Record LoopResult := {
  lr_idx : option nat;
  lr_responses : list (option Response);
  lr_primary : Quorum;
  lr_secondary : option Quorum;
  lr_rest : list (NodeOperator N * Response);
}.

Fixpoint coordinator_loop {E} (responses : list (option Response)) (primary : Quorum)
    (secondary : option Quorum) (items : list (NodeOperator N * Response))
    : res E LoopResult :=
  match items with
  | [] => Ok {| lr_idx := None; lr_responses := responses; lr_primary := primary;
                lr_secondary := secondary; lr_rest := [] |}
  | (operator, response) :: items =>
      '(response_idx, responses) ← receive_response responses response;
      '(primary_response, primary) ← response_received primary operator response_idx;
      '(secondary_response, secondary) ←
        match secondary with
        | None => Ok (None, None)
        | Some q => '(r, q) ← response_received q operator response_idx; Ok (r, Some q)
        end;
      let done idx := Ok {| lr_idx := idx; lr_responses := responses; lr_primary := primary;
                            lr_secondary := secondary; lr_rest := items |} in
      match primary_response, secondary_response, secondary with
      | Some idx, _, None => done (Some idx)
      | Some a, Some b, Some _ => done (if decide (a = b) then Some a else None)
      | _, _, _ => coordinator_loop responses primary secondary items
      end
  end.

(** * Requests *)

(** The operators an operation is sent to: a secondary replica that is also a
    primary one is asked once. *)
Definition replica_requests (primary : list (NodeOperator N))
    (secondary : option (list (NodeOperator N))) : list (NodeOperator N) :=
  primary ++
  match secondary with
  | None => []
  | Some secondary =>
      filter (λ op, op_id op ∉ op_id <$> primary) secondary
  end.

(** [execute]: the nodes of an operator in load-balanced order; a transport
    error is retried on the next node. *)
Fixpoint execute_nodes (conn : N → Operation → Response) (operation : Operation)
    (nodes : list N) (res : Response) : Response :=
  match nodes with
  | [] => res
  | node :: nodes =>
      match conn node operation with
      | RErr err =>
          if decide (err_kind err = Transport)
          then execute_nodes conn operation nodes (RErr err) else RErr err
      | ROk out => ROk out
      end
  end.

Definition operator_execute {E} (conn : N → Operation → Response) (operator : NodeOperator N)
    (operation : Operation) : res E (Response * NodeOperator N) :=
  '(nodes, operator) ← nodes_lb_iter operator;
  Ok (execute_nodes conn operation nodes (RErr (error_new Internal)), operator).
End quorum.
Arguments Quorum {_} _.
Arguments LoopResult {_} _.

(** * Reconciliation *)

(** The pages of a list of responses with the number of replicas behind each. *)
Definition weighted_pages (responses : list (option Response)) (weights : list Z)
    : list (MapPage * Z) :=
  omap (λ e, match e.1 with
             | Some (ROk (OutMapPage page)) => Some (page, e.2)
             | _ => None
             end) (zip responses weights).

Definition weighted_cards (responses : list (option Response)) (weights : list Z)
    : list (Z * Z) :=
  omap (λ e, match e.1 with
             | Some (ROk (OutCardinality card)) => Some (card, e.2)
             | _ => None
             end) (zip responses weights).

Definition sum_weights {A} (l : list (A * Z)) : Z := foldr (λ e acc, e.2 + acc)%Z 0%Z l.

(** [counters.entry(entry).or_insert(0) += weight] over all entries, as the
    total weight of an entry. *)
Definition entry_weight (pages : list (MapPage * Z)) (entry : MapEntry) : Z :=
  foldr (λ p acc,
    Z.of_nat (length (filter (λ e, e = entry) (page_entries p.1))) * p.2 + acc)%Z 0%Z pages.

Definition field_le (a b : MapEntry) : Prop := bytes_le (entry_field a) (entry_field b).

#[export] Instance field_le_dec : RelDecision field_le.
Proof. intros a b. unfold field_le. apply _. Defined.

(** [reconcile_map_page]: [hashmap_iter] is the order in which the counters are
    iterated. *)
Definition reconcile_map_page (hashmap_iter : list MapEntry → list MapEntry)
    (responses : list (option Response)) (weights : list Z) : option MapPage :=
  let pages := weighted_pages responses weights in
  if decide (sum_weights pages < Z.of_nat MAJORITY_QUORUM_THRESHOLD)%Z then None
  else
    let has_next :=
      bool_decide (Z.of_nat MAJORITY_QUORUM_THRESHOLD ≤
        foldr (λ p acc, (if page_has_next p.1 then p.2 else 0) + acc) 0 pages)%Z in
    let counted := hashmap_iter (remove_dups (mjoin (page_entries ∘ fst <$> pages))) in
    let entries :=
      filter (λ e, Z.of_nat MAJORITY_QUORUM_THRESHOLD ≤ entry_weight pages e)%Z counted in
    Some {| page_entries := merge_sort field_le entries; page_has_next := has_next |}.

(** [Ord] of [(u64, u8)]. *)
Definition card_le (a b : Z * Z) : Prop := (a.1 < b.1 ∨ (a.1 = b.1 ∧ a.2 ≤ b.2))%Z.
#[export] Instance card_le_dec : RelDecision card_le.
Proof. intros a b. unfold card_le. apply _. Defined.

(** The [for] loop: the first cardinality at which the running [u8] weight
    reaches the threshold. *)
Fixpoint pick_card (total_weight : Z) (cards : list (Z * Z)) : option Z :=
  match cards with
  | [] => None
  | (card, weight) :: cards =>
      let total_weight := wrap 8 (total_weight + weight) in
      if decide (Z.of_nat MAJORITY_QUORUM_THRESHOLD ≤ total_weight)%Z then Some card
      else pick_card total_weight cards
  end.

Definition reconcile_map_cardinality (responses : list (option Response)) (weights : list Z)
    : option Z :=
  pick_card 0 (merge_sort card_le (weighted_cards responses weights)).

Definition reconcile (hashmap_iter : list MapEntry → list MapEntry) (operation : Operation)
    (responses : list (option Response)) (weights : list Z) : option Output :=
  match operation with
  | HScan _ _ _ _ _ => OutMapPage <$> reconcile_map_page hashmap_iter responses weights
  | HCard _ _ _ => OutCardinality <$> reconcile_map_cardinality responses weights
  | _ => None
  end.

(** * Read repair *)

Definition MAX_TARGETS : nat := RF - MAJORITY_QUORUM_THRESHOLD.

Definition is_repairable (operation : Operation) : bool :=
  match operation with
  | Get _ _ _ | HGet _ _ _ _ => true
  | _ => false
  end.

Definition repair_operation (operation : Operation) (output : Output) : option Operation :=
  match operation, output with
  | Get ns key kv, OutRecord (Some record) => Some (SetOp ns key record kv)
  | HGet ns key field kv, OutRecord (Some record) =>
      Some (HSet ns key {| entry_field := field; entry_record := record |} kv)
  | _, _ => None
  end.

Section read_repair.
Context `{PeerIds} {N : Type}.

Record ReadRepair := {
  rr_output : Output;
  rr_targets : list (option (NodeOperator N));
}.

(** The replicas with a successful answer other than the quorum's. *)
Definition repair_candidates (responses : list (option Response)) (quorum : Quorum N)
    (quorum_response_idx : nat) : list (NodeOperator N) :=
  omap (λ e, match e.2 with
             | Some idx =>
                 if decide (idx = quorum_response_idx) then None
                 else match responses !! idx with
                      | Some (Some (ROk _)) => Some e.1
                      | _ => None
                      end
             | None => None
             end) (zip (q_replica_set quorum) (q_replica_responses quorum)).

Definition read_repair_new (operation : Operation) (responses : list (option Response))
    (quorum : Quorum N) : option ReadRepair :=
  if is_repairable operation then
    quorum_response_idx ← q_response_idx quorum;
    match responses !! quorum_response_idx with
    | Some (Some (ROk output)) =>
        let targets := repair_candidates responses quorum quorum_response_idx in
        Some {| rr_output := output;
                rr_targets := (λ i, targets !! i) <$> seq 0 MAX_TARGETS |}
    | _ => None
    end
  else None.

(** The first empty slot, if any, takes the operator. *)
Fixpoint add_target (targets : list (option (NodeOperator N))) (operator : NodeOperator N)
    : list (option (NodeOperator N)) :=
  match targets with
  | [] => []
  | None :: targets => Some operator :: targets
  | Some t :: targets => Some t :: add_target targets operator
  end.

Definition check_response (self : ReadRepair) (operator : NodeOperator N) (response : Response)
    : ReadRepair :=
  match response with
  | ROk output =>
      if decide (output = rr_output self) then self
      else {| rr_output := rr_output self; rr_targets := add_target (rr_targets self) operator |}
  | RErr _ => self
  end.

(** [run]: the repairs that are sent, one per target. *)
Definition repair_requests (operation : Operation) (self : ReadRepair)
    : list (NodeOperator N * Operation) :=
  match repair_operation operation (rr_output self) with
  | None => []
  | Some repair => (λ op, (op, repair)) <$> omap id (rr_targets self)
  end.
End read_repair.
Arguments ReadRepair {_} _.

(** * [execute_callback] *)
Section execute_callback.
Context `{PeerIds} {N : Type}.

(** What an operation comes to: the response given to the caller and the
    repairs sent afterwards. *)
Record CallbackResult := {
  cb_response : Response;
  cb_repairs : list (NodeOperator N * Operation);
}.

(** Everything after the loop: the answer, and read repair fed with the answers
    the loop did not wait for. *)
Definition coordinator_finish (hashmap_iter : list MapEntry → list MapEntry)
    (operation : Operation) (lr : LoopResult N) : CallbackResult :=
  let quorum_response :=
    match lr_idx lr with
    | None =>
        if is_write operation then None
        else ROk <$> reconcile hashmap_iter operation (take RF (lr_responses lr))
                       (take RF (q_replicas_per_response (lr_primary lr)))
    | Some idx => slot ← lr_responses lr !! idx; slot
    end in
  let repair :=
    match read_repair_new operation (lr_responses lr) (lr_primary lr) with
    | None => []
    | Some repair =>
        repair_requests operation
          (foldl (λ repair e, check_response repair e.1 e.2) repair (lr_rest lr))
    end in
  {| cb_response := default (RErr (error_new Internal)) quorum_response;
     cb_repairs := repair |}.

(** [execute_callback] of a view with shards: [hash_key] is the xxh3 hash of the
    key, [arrive] the order in which the replicas' answers come in. *)
Definition execute_callback {E} (hash_key : list Z → Z)
    (hashmap_iter : list MapEntry → list MapEntry)
    (arrive : list (NodeOperator N) → Operation → list (NodeOperator N * Response))
    (now : Z) (view : View N Shards) (peer : PeerId) (operation : Operation)
    : res E CallbackResult :=
  let operation := set_keyspace_version operation (keyspace_version now view) in
  let namespace := op_namespace operation in
  idx ← namespace_idx namespace;
  if is_authorized_client (v_node_operators view) peer (node_operator_id namespace) idx then
    let key := hash_key (op_key operation) in
    primary ← primary_replica_set view key;
    secondary ← (if is_write operation then secondary_replica_set now view key else Ok None);
    let items := arrive (replica_requests primary secondary) operation in
    lr ← coordinator_loop response_buffer_new (quorum_new primary) (quorum_new <$> secondary) items;
    Ok (coordinator_finish hashmap_iter operation lr)
  else Ok {| cb_response := RErr (error_new Unauthorized); cb_repairs := [] |}.
End execute_callback.
