(* ===== verification/QuorumProofs.v ===== *)
(** QuorumProofs: what the response loop of the coordinator guarantees.

    [votes] counts the replicas of a set behind a response.  The invariant
    [quorum_inv] says that the arrays of [Quorum] are exactly these counts; from
    it follow soundness (an answer is given only with a majority behind it),
    completeness (a majority is never missed, whatever the order of arrival),
    the absence of panics, and that two quorums intersect. *)
From S2P Require Import Prelude External SmartContract NodeOperator NodeOperators.
From S2P Require Import Keyspace Settings Migration View StorageApi Coordinator.
From stdpp Require Import prelude gmap sets list sorting strings.

Section votes.
Context `{PeerIds} {N : Type}.
Implicit Types rs : list (NodeOperator N).
Implicit Types seen items : list (NodeOperator N * Response).

Definition replica_ids rs : list Z := op_id <$> rs.
Definition item_ids seen : list Z := op_id ∘ fst <$> seen.

(** The replicas of [rs] that answered [r]. *)
Definition voters rs (r : Response) seen : list Z :=
  item_ids (filter (λ it, op_id it.1 ∈ replica_ids rs ∧ it.2 = r) seen).
Definition votes rs r seen : nat := length (voters rs r seen).

Lemma voters_snoc rs r seen it :
  voters rs r (seen ++ [it]) =
  voters rs r seen ++
  (if decide (op_id it.1 ∈ replica_ids rs ∧ it.2 = r) then [op_id it.1] else []).
Proof.
  unfold voters, item_ids. rewrite filter_app, fmap_app. f_equal.
  destruct (decide _); [by rewrite filter_cons_True|by rewrite filter_cons_False].
Qed.

Lemma votes_snoc rs r seen it :
  votes rs r (seen ++ [it]) =
  votes rs r seen + if decide (op_id it.1 ∈ replica_ids rs ∧ it.2 = r) then 1 else 0.
Proof.
  unfold votes. rewrite voters_snoc, length_app. by destruct (decide _).
Qed.

Lemma elem_of_voters rs r seen id :
  id ∈ voters rs r seen ↔ id ∈ replica_ids rs ∧ ∃ op, (op, r) ∈ seen ∧ op_id op = id.
Proof.
  unfold voters, item_ids. rewrite list_elem_of_fmap. setoid_rewrite list_elem_of_filter.
  split.
  - intros ([op r'] & -> & [? <-] & ?). eauto.
  - intros (? & op & ? & <-). exists (op, r). done.
Qed.

Lemma voters_NoDup rs r seen : NoDup (item_ids seen) → NoDup (voters rs r seen).
Proof.
  intros Hnd. unfold voters, item_ids in *. eapply sublist_NoDup; [exact Hnd|].
  clear. induction seen as [|it seen IH]; [done|].
  rewrite filter_cons. case_decide; cbn; [by apply sublist_skip|by apply sublist_cons].
Qed.

(** Different answers come from different replicas. *)
Lemma votes_disjoint rs r1 r2 seen :
  NoDup (item_ids seen) → r1 ≠ r2 → votes rs r1 seen + votes rs r2 seen ≤ length rs.
Proof.
  intros Hnd Hne. unfold votes. rewrite <-length_app, <-(length_fmap op_id rs).
  apply submseteq_length, NoDup_submseteq.
  - apply NoDup_app. split_and!; [by apply voters_NoDup| |by apply voters_NoDup].
    intros id (_ & op1 & H1 & Hid1)%elem_of_voters (_ & op2 & H2 & Hid2)%elem_of_voters.
    apply Hne. apply list_elem_of_lookup in H1 as [i Hi], H2 as [j Hj].
    assert (i = j) as ->.
    { eapply (NoDup_lookup (item_ids seen) i j id Hnd); unfold item_ids;
        rewrite list_lookup_fmap, ?Hi, ?Hj; cbn; congruence. }
    congruence.
  - intros id. rewrite elem_of_app, !elem_of_voters. naive_solver.
Qed.

Lemma votes_le rs r seen : NoDup (item_ids seen) → votes rs r seen ≤ length rs.
Proof.
  intros Hnd. unfold votes. rewrite <-(length_fmap op_id rs).
  apply submseteq_length, NoDup_submseteq; [by apply voters_NoDup|].
  intros id. rewrite elem_of_voters. naive_solver.
Qed.

Lemma voters_app rs r seen items :
  voters rs r (seen ++ items) = voters rs r seen ++ voters rs r items.
Proof. unfold voters, item_ids. by rewrite filter_app, fmap_app. Qed.

Lemma votes_app_le rs r seen items : votes rs r seen ≤ votes rs r (seen ++ items).
Proof. unfold votes. rewrite voters_app, length_app. lia. Qed.

(** * The response buffer *)

(** A buffer of [n] slots that holds the distinct responses [ds]. *)
Definition buffer (n : nat) (ds : list Response) : list (option Response) :=
  (Some <$> ds) ++ replicate (n - length ds) None.

Lemma receive_response_spec {E} n ds r :
  NoDup ds → length ds ≤ n → (r ∈ ds ∨ length ds < n) →
  ∃ i ds', receive_response (E := E) (buffer n ds) r = Ok (i, buffer n ds') ∧
    ds' !! i = Some r ∧ NoDup ds' ∧ length ds' ≤ n ∧
    ((r ∈ ds ∧ ds' = ds) ∨ (r ∉ ds ∧ ds' = ds ++ [r])).
Proof.
  revert n; induction ds as [|d ds IH]; intros n Hnd Hle Hroom.
  - destruct n as [|n]; [destruct Hroom as [?%elem_of_nil|?]; [done|cbn in *; lia]|].
    exists 0, [r]. unfold buffer. cbn.
    replace (n - 0) with n by lia.
    split_and!; [done|done|apply NoDup_singleton|lia|]. right. set_solver.
  - destruct n as [|n]; [cbn in Hle; lia|]. apply NoDup_cons in Hnd as [Hd Hnd].
    unfold buffer; cbn. destruct (decide (d = r)) as [->|Hne].
    + exists 0, (r :: ds). split_and!; [done|done|by constructor|done|]. left. set_solver.
    + destruct (IH n) as (i & ds' & Hr & Hi & Hnd' & Hle' & Hcase);
        [done|cbn in Hle; lia| |].
      { destruct Hroom as [[->|?]%elem_of_cons|?]; [done|by left|right; cbn in *; lia]. }
      unfold buffer in Hr. rewrite Hr; cbn. exists (S i), (d :: ds').
      split_and!; [done|done| |cbn; lia|].
      * apply NoDup_cons. split; [|done]. destruct Hcase as [[_ ->]|[_ ->]]; [done|].
        rewrite elem_of_app, elem_of_cons, elem_of_nil. naive_solver.
      * rewrite !elem_of_cons. destruct Hcase as [[? ->]|[? ->]]; [left|right]; naive_solver.
Qed.

(** * The invariant of a quorum *)

Lemma replica_position_Some rs id k :
  replica_position rs id = Some k → ∃ op, rs !! k = Some op ∧ op_id op = id.
Proof.
  revert k; induction rs as [|op rs IH]; intros k; cbn; [done|]. case_decide.
  - intros [= <-]. eauto.
  - intros (k' & Hk & ->)%fmap_Some. apply IH in Hk. done.
Qed.

Lemma replica_position_None rs id :
  replica_position rs id = None ↔ id ∉ replica_ids rs.
Proof.
  induction rs as [|op rs IH]; cbn; [set_solver|]. case_decide.
  - split; [done|]. set_solver.
  - rewrite fmap_None, IH. set_solver.
Qed.

Record quorum_inv rs (ds : list Response) seen (q : Quorum N) : Prop := {
  qi_set : q_replica_set q = rs;
  qi_responses_len : length (q_replica_responses q) = RF;
  qi_counts_len : length (q_replicas_per_response q) = RESPONSE_BUFFER_LEN;
  qi_count i r : ds !! i = Some r →
    q_replicas_per_response q !! i = Some (Z.of_nat (votes rs r seen));
  qi_unused i : length ds ≤ i < RESPONSE_BUFFER_LEN → q_replicas_per_response q !! i = Some 0%Z;
  qi_idx i : q_response_idx q = Some i ↔
    ∃ r, ds !! i = Some r ∧ MAJORITY_QUORUM_THRESHOLD ≤ votes rs r seen;
  qi_answer k i op : q_replica_responses q !! k = Some (Some i) → rs !! k = Some op →
    ∃ op' r, (op', r) ∈ seen ∧ op_id op' = op_id op ∧ ds !! i = Some r;
  qi_answered k op op' r : rs !! k = Some op → (op', r) ∈ seen → op_id op' = op_id op →
    ∃ i, q_replica_responses q !! k = Some (Some i) ∧ ds !! i = Some r;
}.

Lemma quorum_new_inv rs : quorum_inv rs [] [] (quorum_new rs).
Proof.
  split; try done.
  - intros i [_ Hi]. by apply lookup_replicate.
  - intros i. split; [done|]. by intros (r & ? & _).
  - intros k i op Hk. apply lookup_replicate in Hk as [? _]. done.
  - by intros k op op' r _ ?%elem_of_nil.
Qed.

Lemma length_voters_bound rs r seen it :
  length rs = RF → NoDup (item_ids (seen ++ [it])) →
  op_id it.1 ∈ replica_ids rs → it.2 = r →
  votes rs r (seen ++ [it]) = S (votes rs r seen) ∧ votes rs r (seen ++ [it]) ≤ 5.
Proof.
  intros Hlen Hnd Hin Hr. pose proof (votes_le rs r _ Hnd) as Hle. rewrite Hlen in Hle.
  split; [|done]. rewrite votes_snoc, decide_True by done. lia.
Qed.

(** The buffer either knew the response or appends it. *)
Definition extends (ds ds' : list Response) (r : Response) seen : Prop :=
  ds' = ds ∨ (ds' = ds ++ [r] ∧ r ∉ ds ∧ r ∉ seen.*2).

Lemma extends_lookup ds ds' r seen j r' :
  extends ds ds' r seen → ds !! j = Some r' → ds' !! j = Some r'.
Proof. intros [->|(-> & _)]; [done|]. apply lookup_app_l_Some. Qed.

Lemma extends_lookup_ne ds ds' r seen j r' :
  extends ds ds' r seen → r' ≠ r → ds' !! j = Some r' → ds !! j = Some r'.
Proof.
  intros [->|(-> & _)] Hne; [done|]. intros [?|[_ Hj]]%lookup_app_Some; [done|].
  apply list_lookup_singleton_Some in Hj as [_ ?]. done.
Qed.

Lemma extends_counts rs ds ds' r seen q j r' :
  quorum_inv rs ds seen q → length ds' ≤ RESPONSE_BUFFER_LEN → extends ds ds' r seen →
  ds' !! j = Some r' →
  q_replicas_per_response q !! j = Some (Z.of_nat (votes rs r' seen)).
Proof.
  intros Hq Hlen [->|(-> & _ & Hnew)]; [apply Hq|].
  intros [Hj|[Hge Hj]]%lookup_app_Some; [by apply Hq|].
  apply list_lookup_singleton_Some in Hj as [Hj0 <-].
  rewrite length_app in Hlen; cbn [length] in Hlen.
  rewrite (qi_unused _ _ _ _ Hq) by lia. do 2 f_equal.
  unfold votes. enough (voters rs r seen = []) as -> by done.
  apply elem_of_nil_inv. intros id (_ & op' & Hop & _)%elem_of_voters.
  apply Hnew, list_elem_of_fmap. by exists (op', r).
Qed.

Lemma votes_other rs r r' seen op :
  r' ≠ r ∨ op_id op ∉ replica_ids rs → votes rs r' (seen ++ [(op, r)]) = votes rs r' seen.
Proof. intros Hne. rewrite votes_snoc, decide_False by (cbn; naive_solver). lia. Qed.

Lemma majority_unique rs r r' seen :
  length rs = RF → NoDup (item_ids seen) → MAJORITY_QUORUM_THRESHOLD ≤ votes rs r seen →
  MAJORITY_QUORUM_THRESHOLD ≤ votes rs r' seen → r' = r.
Proof.
  intros Hrs Hnd H1 H2. destruct (decide (r' = r)) as [|Hne]; [done|].
  pose proof (votes_disjoint rs r' r seen Hnd Hne) as Hle. rewrite Hrs in Hle.
  change RF with 5 in Hle. change MAJORITY_QUORUM_THRESHOLD with 3 in *. lia.
Qed.

(** An answer of an operator outside the set changes nothing. *)
Lemma foreign_response_inv rs ds ds' seen q op r :
  quorum_inv rs ds seen q → length ds' ≤ RESPONSE_BUFFER_LEN → extends ds ds' r seen →
  op_id op ∉ replica_ids rs → quorum_inv rs ds' (seen ++ [(op, r)]) q.
Proof.
  intros Hq Hlen Hext Hout. pose proof Hq as [Hset Hl1 Hl2 _ Hun Hidx Hans Had].
  split; [done|done|done| | | | |].
  - intros j r' Hj. rewrite votes_other by auto. by eapply extends_counts.
  - intros j Hj. apply Hun. destruct Hext as [->|(-> & _)]; [done|].
    rewrite length_app in Hj. lia.
  - intros j. rewrite Hidx. split; intros (r' & Hj & Hv); exists r'.
    + split; [by eapply extends_lookup|]. by rewrite votes_other by auto.
    + rewrite votes_other in Hv by auto. split; [|done].
      destruct Hext as [->|(-> & _ & Hnew)]; [done|].
      apply lookup_app_Some in Hj as [?|[_ Hj]]; [done|].
      apply list_lookup_singleton_Some in Hj as [_ <-].
      destruct (voters rs r seen) as [|id ?] eqn:Hvs.
      { unfold votes in Hv. rewrite Hvs in Hv. by apply Nat.nle_succ_0 in Hv. }
      assert (id ∈ voters rs r seen) as (_ & op' & Hop & _)%elem_of_voters
        by (rewrite Hvs; left).
      destruct Hnew. apply list_elem_of_fmap. by exists (op', r).
  - intros k i op' Hk Hop. destruct (Hans k i op' Hk Hop) as (op1 & r1 & Hin & Hid & Hi).
    exists op1, r1. split_and!; [set_solver|done|by eapply extends_lookup].
  - intros k op1 op2 r2 Hk [Hin|Hin]%elem_of_app Hid.
    + destruct (Had k op1 op2 r2 Hk Hin Hid) as (i & ? & ?). exists i.
      split; [done|by eapply extends_lookup].
    + apply list_elem_of_singleton in Hin as [= -> ->]. destruct Hout. rewrite Hid.
      apply list_elem_of_fmap. exists op1. split; [done|]. by eapply list_elem_of_lookup_2.
Qed.

(** The quorum index after one more answer [r], stored at [i]. *)
Lemma response_idx_step rs ds ds' seen q op r i j :
  length rs = RF → quorum_inv rs ds seen q → NoDup (item_ids (seen ++ [(op, r)])) →
  NoDup ds' → ds' !! i = Some r → extends ds ds' r seen → op_id op ∈ replica_ids rs →
  (if decide (MAJORITY_QUORUM_THRESHOLD ≤ S (votes rs r seen)) then Some i
   else q_response_idx q) = Some j ↔
  ∃ r', ds' !! j = Some r' ∧ MAJORITY_QUORUM_THRESHOLD ≤ votes rs r' (seen ++ [(op, r)]).
Proof.
  intros Hrs Hq Hnd Hds Hi Hext Hin.
  destruct (length_voters_bound rs r seen (op, r) Hrs Hnd Hin eq_refl) as [Hv _].
  case_decide as Hmaj; rewrite <-Hv in Hmaj; split.
  - intros [= <-]. eauto.
  - intros (r' & Hj & Hr'). f_equal. assert (r' = r) as -> by (by eapply majority_unique).
    by eapply NoDup_lookup.
  - intros (r' & Hj & Hr')%(qi_idx _ _ _ _ Hq). exists r'. split; [by eapply extends_lookup|].
    etrans; [exact Hr'|]. apply votes_app_le.
  - intros (r' & Hj & Hr'). apply (qi_idx _ _ _ _ Hq). exists r'.
    destruct (decide (r' = r)) as [->|Hne]; [done|].
    rewrite votes_other in Hr' by auto. split; [by eapply extends_lookup_ne|done].
Qed.

(** The table of answers after one more, of the replica at [k]. *)
Lemma answered_step rs ds ds' seen q op r i k op0 k' op1 op2 r2 :
  length rs = RF → NoDup (replica_ids rs) → quorum_inv rs ds seen q →
  NoDup (item_ids (seen ++ [(op, r)])) → ds' !! i = Some r → extends ds ds' r seen →
  rs !! k = Some op0 → op_id op0 = op_id op →
  rs !! k' = Some op1 → (op2, r2) ∈ seen ++ [(op, r)] → op_id op2 = op_id op1 →
  ∃ j, <[k := Some i]> (q_replica_responses q) !! k' = Some (Some j) ∧ ds' !! j = Some r2.
Proof.
  intros Hrs Hnd Hq Hit Hi Hext Hk Hid Hk' Hin Hid2.
  destruct (decide (k' = k)) as [->|Hne].
  - assert (op1 = op0) as -> by congruence. exists i.
    split; [|apply elem_of_app in Hin as [Hin|Hin]].
    + apply list_lookup_insert_eq. rewrite (qi_responses_len _ _ _ _ Hq), <-Hrs.
      by eapply lookup_lt_Some.
    + exfalso. unfold item_ids in Hit. rewrite fmap_app in Hit.
      apply NoDup_app in Hit as (_ & Hdis & _). apply (Hdis (op_id op)); [|cbn; left].
      apply list_elem_of_fmap. exists (op2, r2). split; [cbn; congruence|done].
    + apply list_elem_of_singleton in Hin as [= -> ->]. done.
  - rewrite list_lookup_insert_ne by done. apply elem_of_app in Hin as [Hin|Hin].
    + destruct (qi_answered _ _ _ _ Hq k' op1 op2 r2 Hk' Hin Hid2) as (j & ? & ?).
      exists j. split; [done|by eapply extends_lookup].
    + apply list_elem_of_singleton in Hin as [= -> ->]. destruct Hne.
      eapply (NoDup_lookup (replica_ids rs)); [done| |]; unfold replica_ids;
        rewrite list_lookup_fmap, ?Hk, ?Hk'; cbn; [reflexivity|congruence].
Qed.

(** One answer: the counts stay exact. *)
Lemma response_received_inv {E} rs ds ds' seen q op r i :
  length rs = RF → NoDup (replica_ids rs) → quorum_inv rs ds seen q → NoDup (item_ids (seen ++ [(op, r)])) →
  NoDup ds' → length ds' ≤ RESPONSE_BUFFER_LEN → ds' !! i = Some r → extends ds ds' r seen →
  ∃ q', response_received (E := E) q op i = Ok (q_response_idx q', q') ∧
    quorum_inv rs ds' (seen ++ [(op, r)]) q'.
Proof.
  intros Hrs Hdis Hq Hnd Hds Hlen Hi Hext. unfold response_received. rewrite (qi_set _ _ _ _ Hq).
  destruct (replica_position rs (op_id op)) as [k|] eqn:Hpos.
  2:{ exists q. split; [done|]. apply replica_position_None in Hpos.
      by eapply foreign_response_inv. }
  apply replica_position_Some in Hpos as (op0 & Hk & Hid).
  assert (op_id op ∈ replica_ids rs) as Hin.
  { rewrite <-Hid. apply list_elem_of_fmap. exists op0. split; [done|]. by eapply list_elem_of_lookup_2. }
  destruct (length_voters_bound rs r seen (op, r) Hrs Hnd Hin eq_refl) as [Hv Hb].
  destruct (lookup_lt_is_Some_2 (q_replica_responses q) k) as [old Hold].
  { rewrite (qi_responses_len _ _ _ _ Hq), <-Hrs. by eapply lookup_lt_Some. }
  rewrite Hold; cbn [unwrap mbind res_bind].
  rewrite (extends_counts rs ds ds' r seen q i r Hq Hlen Hext Hi); cbn [unwrap mbind res_bind].
  assert (wrap 8 (Z.of_nat (votes rs r seen) + 1) = Z.of_nat (S (votes rs r seen))) as ->.
  { rewrite wrap_small; [lia|]. unfold fits. lia. }
  assert ((if decide (Z.of_nat MAJORITY_QUORUM_THRESHOLD ≤ Z.of_nat (S (votes rs r seen)))%Z
           then Some i else q_response_idx q) =
          (if decide (MAJORITY_QUORUM_THRESHOLD ≤ S (votes rs r seen)) then Some i
           else q_response_idx q)) as -> by (repeat case_decide; done || lia).
  exists {| q_response_idx := if decide (MAJORITY_QUORUM_THRESHOLD ≤ S (votes rs r seen))
                              then Some i else q_response_idx q;
            q_replica_set := rs;
            q_replica_responses := <[k := Some i]> (q_replica_responses q);
            q_replicas_per_response :=
              <[i := Z.of_nat (S (votes rs r seen))]> (q_replicas_per_response q) |}.
  split; [reflexivity|]. apply lookup_lt_Some in Hi as Hilt.
  split; cbn [q_replica_set q_replica_responses q_replicas_per_response q_response_idx].
  - reflexivity.
  - rewrite length_insert. apply Hq.
  - rewrite length_insert. apply Hq.
  - intros j r' Hj. destruct (decide (j = i)) as [->|Hji].
    + rewrite list_lookup_insert_eq by (rewrite (qi_counts_len _ _ _ _ Hq); lia).
      rewrite Hi in Hj. injection Hj as <-. by rewrite Hv.
    + rewrite list_lookup_insert_ne by done.
      assert (r' ≠ r) by (intros ->; apply Hji; by eapply NoDup_lookup).
      rewrite votes_other by auto. by eapply extends_counts.
  - intros j Hj. rewrite list_lookup_insert_ne by lia. apply (qi_unused _ _ _ _ Hq).
    destruct Hext as [->|(-> & _)]; [done|]. rewrite length_app in Hj. lia.
  - intros j. by eapply response_idx_step.
  - intros k' i' op' Hk' Hop'. apply list_lookup_insert_Some in Hk' as [(-> & Hi' & _)|[Hne Hk']].
    + injection Hi' as <-. rewrite Hk in Hop'. injection Hop' as <-.
      exists op, r. split_and!; [set_solver|done|done].
    + destruct (qi_answer _ _ _ _ Hq k' i' op' Hk' Hop') as (op1 & r1 & Hin1 & Hid1 & Hi1).
      exists op1, r1. split_and!; [set_solver|done|by eapply extends_lookup].
  - intros k' op1 op2 r2 Hk' Hin2 Hid2.
    eapply (answered_step rs ds ds' seen q op r i k op0); eauto.
Qed.

(** * The loop *)

(** Replica sets as views provide them: five different operators. *)
Definition replica_set_ok rs : Prop := length rs = RF ∧ NoDup (replica_ids rs).

Definition secondary_inv (srs : option (list (NodeOperator N))) ds seen (s : option (Quorum N))
    : Prop :=
  match srs, s with
  | None, None => True
  | Some rs, Some q => replica_set_ok rs ∧ quorum_inv rs ds seen q
  | _, _ => False
  end.

(** The state of the loop after the answers [seen]. *)
Record loop_inv prs srs (ds : list Response) seen (p : Quorum N) (s : option (Quorum N)) : Prop := {
  li_primary_ok : replica_set_ok prs;
  li_primary : quorum_inv prs ds seen p;
  li_secondary : secondary_inv srs ds seen s;
  li_distinct : NoDup ds;
  li_len : length ds ≤ length seen;
  li_seen r : r ∈ ds ↔ r ∈ seen.*2;
}.

(** A majority of a set, and of every set that matters. *)
Definition majority rs r seen : Prop := MAJORITY_QUORUM_THRESHOLD ≤ votes rs r seen.
Definition agreed prs srs r seen : Prop :=
  majority prs r seen ∧ ∀ rs, srs = Some rs → majority rs r seen.

Lemma loop_step {E} prs srs ds seen p s op r :
  loop_inv prs srs ds seen p s → NoDup (item_ids (seen ++ [(op, r)])) →
  length seen < RESPONSE_BUFFER_LEN →
  ∃ i ds' p' s', receive_response (E := E) (buffer RESPONSE_BUFFER_LEN ds) r
      = Ok (i, buffer RESPONSE_BUFFER_LEN ds') ∧
    response_received (E := E) p op i = Ok (q_response_idx p', p') ∧
    match s with
    | None => Ok (None, None)
    | Some q => '(r, q) ← response_received (E := E) q op i; Ok (r, Some q)
    end = Ok (s' ≫= q_response_idx, s') ∧
    loop_inv prs srs ds' (seen ++ [(op, r)]) p' s'.
Proof.
  intros [[Hprs Hpd] Hp Hs Hds Hlen Hseen] Hnd Hroom.
  destruct (receive_response_spec (E := E) RESPONSE_BUFFER_LEN ds r) as
    (i & ds' & Hr & Hi & Hds' & Hle & Hcase); [done|lia|right; lia|].
  assert (extends ds ds' r seen) as Hext.
  { destruct Hcase as [[_ ->]|[Hn ->]]; [by left|right]. split_and!; [done|done|].
    by rewrite <-Hseen. }
  destruct (response_received_inv (E := E) prs ds ds' seen p op r i)
    as (p' & Hp' & Hpi); [done..|].
  assert (∃ s', match s with
    | None => Ok (None, None)
    | Some q => '(r, q) ← response_received (E := E) q op i; Ok (r, Some q)
    end = Ok (s' ≫= q_response_idx, s') ∧ secondary_inv srs ds' (seen ++ [(op, r)]) s')
    as (s' & Hs' & Hsi).
  { destruct srs as [rs|], s as [q|]; cbn in Hs; try done.
    - destruct Hs as [[Hl Hld] Hq].
      destruct (response_received_inv (E := E) rs ds ds' seen q op r i)
        as (q' & Hq' & Hqi); [done..|].
      rewrite Hq'. by exists (Some q').
    - by exists None. }
  exists i, ds', p', s'. split_and!; [done|done|done|]. split; try done.
  - rewrite length_app; cbn. destruct Hcase as [[_ ->]|[_ ->]]; rewrite ?length_app; cbn; lia.
  - intros x. rewrite fmap_app, elem_of_app, <-Hseen; cbn. rewrite list_elem_of_singleton.
    destruct Hcase as [[? ->]|[? ->]]; rewrite ?elem_of_app, ?list_elem_of_singleton; naive_solver.
Qed.

(** How the loop ended, after the answers [consumed]. *)
Record loop_post prs srs seen items (lr : LoopResult N) consumed ds : Prop := {
  lp_items : seen ++ items = consumed ++ lr_rest lr;
  lp_buffer : lr_responses lr = buffer RESPONSE_BUFFER_LEN ds;
  lp_inv : loop_inv prs srs ds consumed (lr_primary lr) (lr_secondary lr);
  lp_some i : lr_idx lr = Some i → ∃ r, ds !! i = Some r ∧ agreed prs srs r consumed;
  lp_none : lr_idx lr = None →
    (lr_rest lr = [] ∧ ¬ ∃ r, agreed prs srs r consumed) ∨
    ∃ rs a b, srs = Some rs ∧ majority prs a consumed ∧ majority rs b consumed ∧ a ≠ b;
}.

(** No set, or not both sets, have a majority yet. *)
Definition undecided (p : Quorum N) (s : option (Quorum N)) : Prop :=
  q_response_idx p = None ∨ ∃ q, s = Some q ∧ q_response_idx q = None.

Lemma undecided_not_agreed prs srs ds seen p s :
  loop_inv prs srs ds seen p s → undecided p s → ¬ ∃ r, agreed prs srs r seen.
Proof.
  intros [_ Hp Hs _ _ Hseen] Hund (r & Hmaj & Hsec).
  assert (∀ rs q, quorum_inv rs ds seen q → majority rs r seen → is_Some (q_response_idx q)) as Hq.
  { intros rs q Hq Hm. assert (r ∈ ds) as [i Hi]%list_elem_of_lookup.
    { apply Hseen. unfold majority, votes in Hm. destruct (voters rs r seen) as [|id ?] eqn:Hv.
      - by apply Nat.nle_succ_0 in Hm.
      - assert (id ∈ voters rs r seen) as (_ & op & Hop & _)%elem_of_voters
          by (rewrite Hv; left).
        apply list_elem_of_fmap. by exists (op, r). }
    exists i. apply (qi_idx _ _ _ _ Hq). eauto. }
  destruct Hund as [Hnone|(q & -> & Hnone)].
  - destruct (Hq prs p Hp Hmaj). congruence.
  - destruct srs as [rs|]; cbn in Hs; [|done]. destruct Hs as [_ Hqi].
    destruct (Hq rs q Hqi (Hsec rs eq_refl)). congruence.
Qed.

(** What the loop does with both quorums up to date: stop, or go on while
    undecided. *)
Lemma loop_decision prs srs ds seen items p s a :
  loop_inv prs srs ds seen p s → q_response_idx p = Some a →
  (∃ q, s = Some q ∧ q_response_idx q = None) ∨
  loop_post prs srs seen items
    {| lr_idx := match s with
                 | None => Some a
                 | Some q => b ← q_response_idx q; if decide (a = b) then Some a else None
                 end;
       lr_responses := buffer RESPONSE_BUFFER_LEN ds; lr_primary := p; lr_secondary := s;
       lr_rest := items |} seen ds.
Proof.
  intros Hinv Ha. pose proof Hinv as [_ Hp Hs Hds _ _].
  destruct (proj1 (qi_idx _ _ _ _ Hp a) Ha) as (r & Hr & Hmaj).
  destruct srs as [rs|], s as [q|]; cbn in Hs; try done.
  - destruct Hs as [_ Hq]. destruct (q_response_idx q) as [b|] eqn:Hb; [right|left; eauto].
    destruct (proj1 (qi_idx _ _ _ _ Hq b) Hb) as (r' & Hr' & Hmaj').
    split; cbn; try done; case_decide as Hab; try done; subst.
    + intros i [= <-]. exists r. split; [done|]. split; [done|]. intros rs' [= <-].
      assert (r' = r) as -> by congruence. done.
    + intros _. right. exists rs, r, r'. split_and!; [done..|]. intros ->.
      apply Hab. by eapply NoDup_lookup.
  - right. split; cbn; try done. intros i [= <-]. exists r. split; [done|]. by split.
Qed.

Lemma loop_spec {E} prs srs ds seen p s items :
  loop_inv prs srs ds seen p s → NoDup (item_ids (seen ++ items)) →
  length (seen ++ items) ≤ RESPONSE_BUFFER_LEN → undecided p s →
  ∃ lr consumed ds',
    coordinator_loop (E := E) (buffer RESPONSE_BUFFER_LEN ds) p s items = Ok lr ∧
    loop_post prs srs seen items lr consumed ds'.
Proof.
  revert ds seen p s; induction items as [|[op r] items IH]; intros ds seen p s Hinv Hnd Hlen Hund.
  { eexists _, seen, ds. split; [reflexivity|]. split; cbn; try done.
    intros _. left. split; [done|]. by eapply undecided_not_agreed. }
  replace (seen ++ (op, r) :: items) with ((seen ++ [(op, r)]) ++ items) in * by (by rewrite <-app_assoc).
  destruct (loop_step (E := E) prs srs ds seen p s op r) as
    (i & ds' & p' & s' & Hr & Hp' & Hs' & Hinv'); [done| | |].
  { unfold item_ids in *. rewrite fmap_app in Hnd. by apply NoDup_app in Hnd as [? _]. }
  { rewrite !length_app in Hlen; cbn in Hlen. unfold RESPONSE_BUFFER_LEN, RF in *. cbn in *. lia. }
  cbn [coordinator_loop]. rewrite Hr; cbn [mbind res_bind]. rewrite Hp'; cbn [mbind res_bind].
  rewrite Hs'; cbn [mbind res_bind].
  assert (undecided p' s' → ∃ lr consumed ds'',
    coordinator_loop (E := E) (buffer RESPONSE_BUFFER_LEN ds') p' s' items = Ok lr ∧
    loop_post prs srs seen ((op, r) :: items) lr consumed ds'') as Hgo.
  { intros Hu. destruct (IH ds' (seen ++ [(op, r)]) p' s' Hinv' Hnd Hlen Hu)
      as (lr & consumed & ds'' & Hok & [? ? ? ? ?]).
    exists lr, consumed, ds''. split; [done|]. split; try done; by rewrite <-app_assoc in *. }
  destruct (q_response_idx p') as [a|] eqn:Ha.
  2:{ destruct Hgo as (lr & c & ds'' & Hok & Hpost); [by left|]. exists lr, c, ds''.
      split; [|done]. by destruct (s' ≫= q_response_idx), s'. }
  destruct (loop_decision prs srs ds' (seen ++ [(op, r)]) items p' s' a Hinv' Ha)
    as [(q & -> & Hq)|Hpost].
  - cbn. rewrite Hq. apply Hgo. right. eauto.
  - destruct s' as [q|]; cbn in Hpost |- *; [destruct (q_response_idx q) eqn:Hq|];
      cbn in Hpost |- *; [| |].
    1,3: eexists _, _, _; split; [reflexivity|]; destruct Hpost as [Hit ? ? ? ?];
      split; try done; by rewrite <-app_assoc in Hit.
    apply Hgo. right. eauto.
Qed.
End votes.
