(* ===== verification/CoordinatorProofs.v ===== *)
(** CoordinatorProofs: what [execute_callback] of the coordinator promises.

    The replicas are described by the answer each of them gives; the promises
    hold for every order in which the answers arrive.  From the exactness of the
    response loop follow: a write is acknowledged exactly with a majority of
    every replica set behind it, quorums intersect (also across the end of a
    migration), maps without a majority are reconciled by per-entry majority,
    cardinalities by weighted median, and read repair goes to exactly the
    replicas with a wrong record. *)
From S2P Require Import Prelude External Sharding SmartContract NodeOperator NodeOperators.
From S2P Require Import Keyspace Settings Migration View Concrete ViewTime ViewInvariant MigrationRun.
From S2P Require Import StorageApi Coordinator QuorumProofs.
From stdpp Require Import prelude gmap sets list sorting strings.

(** * Answers of replicas *)
Section answers.
Context `{PeerIds} {N : Type}.
Implicit Types rs requests : list (NodeOperator N).
Implicit Types items : list (NodeOperator N * Response).
Implicit Types answer : Z → Response.

(** The replicas of a set that give an answer. *)
Definition supporters answer rs (r : Response) : list Z :=
  filter (λ id, answer id = r) (replica_ids rs).

Definition quorate answer rs r : Prop :=
  MAJORITY_QUORUM_THRESHOLD ≤ length (supporters answer rs r).

(** A majority of the primary set and, where there is one, of the secondary. *)
Definition agreement answer prs (srs : option (list (NodeOperator N))) r : Prop :=
  quorate answer prs r ∧ ∀ rs, srs = Some rs → quorate answer rs r.

(** Every request is answered once, in some order. *)
Definition answers_all answer requests items : Prop :=
  items ≡ₚ (λ op, (op, answer (op_id op))) <$> requests.

Lemma answers_all_ids answer requests items :
  answers_all answer requests items → item_ids items ≡ₚ replica_ids requests.
Proof.
  intros Hit. unfold item_ids. rewrite Hit, <-list_fmap_compose. reflexivity.
Qed.

Lemma answers_all_elem answer requests items op r :
  answers_all answer requests items → (op, r) ∈ items → r = answer (op_id op) ∧ op ∈ requests.
Proof. intros ->. rewrite list_elem_of_fmap. intros (? & [= -> ->] & ?). done. Qed.

Lemma votes_supporters answer requests items rs r :
  NoDup (replica_ids requests) → NoDup (replica_ids rs) →
  replica_ids rs ⊆ replica_ids requests → answers_all answer requests items →
  votes rs r items = length (supporters answer rs r).
Proof.
  intros Hnd Hrs Hsub Hit. apply Permutation_length, NoDup_Permutation.
  - apply voters_NoDup. by rewrite (answers_all_ids answer requests items).
  - by apply NoDup_filter.
  - intros id. unfold supporters. rewrite elem_of_voters, list_elem_of_filter. split.
    + intros (Hid & op & Hop & <-).
      by destruct (answers_all_elem answer requests items op r Hit Hop) as [-> _].
    + intros [<- Hid]. split; [done|].
      pose proof (Hsub id Hid) as Hreq.
      rewrite <-(answers_all_ids answer requests items Hit) in Hreq.
      apply list_elem_of_fmap in Hreq as ([op r'] & -> & Hop).
      exists op. cbn. by destruct (answers_all_elem answer requests items op r' Hit Hop) as [<- _].
Qed.

(** Two majorities of one set share a replica. *)
Lemma quorate_intersect answer1 answer2 rs r1 r2 :
  length rs = RF → NoDup (replica_ids rs) → quorate answer1 rs r1 → quorate answer2 rs r2 →
  ∃ id, id ∈ replica_ids rs ∧ answer1 id = r1 ∧ answer2 id = r2.
Proof.
  intros Hlen Hnd H1 H2. set (l1 := supporters answer1 rs r1). set (l2 := supporters answer2 rs r2).
  destruct (decide (Exists (λ id, id ∈ l2) l1)) as [Hex|Hno].
  - apply Exists_exists in Hex as (id & Hi1 & Hi2). subst l1 l2.
    apply list_elem_of_filter in Hi1 as [? ?], Hi2 as [? ?]. eauto.
  - exfalso. assert (length (l1 ++ l2) ≤ length (replica_ids rs)) as Hle.
    { apply submseteq_length, NoDup_submseteq.
      - apply NoDup_app. split_and!; [by apply NoDup_filter| |by apply NoDup_filter].
        intros id Hi1 Hi2. apply Hno, Exists_exists. eauto.
      - intros id [Hi|Hi]%elem_of_app; by apply list_elem_of_filter in Hi as [_ ?]. }
    unfold replica_ids in Hle. rewrite length_app, length_fmap, Hlen in Hle.
    unfold quorate in H1, H2. fold l1 in H1. fold l2 in H2.
    change RF with 5 in Hle. change MAJORITY_QUORUM_THRESHOLD with 3 in *. lia.
Qed.

(** * Requests *)

Lemma replica_requests_spec prs srs :
  length prs = RF → NoDup (replica_ids prs) →
  (∀ rs, srs = Some rs → length rs = RF ∧ NoDup (replica_ids rs)) →
  let requests := replica_requests prs srs in
  NoDup (replica_ids requests) ∧ length requests ≤ RESPONSE_BUFFER_LEN ∧
  replica_ids prs ⊆ replica_ids requests ∧
  (∀ rs, srs = Some rs → replica_ids rs ⊆ replica_ids requests).
Proof.
  intros Hlen Hnd Hs. unfold replica_requests. destruct srs as [rs|].
  2:{ rewrite app_nil_r. split_and!; [done|rewrite Hlen; unfold RESPONSE_BUFFER_LEN; lia|done|done]. }
  destruct (Hs rs eq_refl) as [Hl Hn]. cbn zeta. unfold replica_ids in *. split_and!.
  - rewrite fmap_app. apply NoDup_app. split_and!; [done| |].
    + intros id Hid (op & -> & Hop)%list_elem_of_fmap. apply list_elem_of_filter in Hop as [? _]. done.
    + eapply sublist_NoDup; [exact Hn|]. by apply fmap_sublist, sublist_filter.
  - rewrite length_app. pose proof (length_filter (λ op, op_id op ∉ op_id <$> prs) rs).
    unfold RESPONSE_BUFFER_LEN. lia.
  - rewrite fmap_app. set_solver.
  - intros rs' [= <-] id (op & -> & Hop)%list_elem_of_fmap. rewrite fmap_app, elem_of_app.
    destruct (decide (op_id op ∈ op_id <$> prs)); [by left|right].
    apply list_elem_of_fmap. exists op. split; [done|]. by apply list_elem_of_filter.
Qed.

(** * The loop, from the answers *)

Definition lr_response (lr : LoopResult N) : option Response :=
  idx ← lr_idx lr; slot ← lr_responses lr !! idx; slot.

Lemma buffer_lookup n ds i r : ds !! i = Some r → buffer n ds !! i = Some (Some r).
Proof. intros Hi. unfold buffer. apply lookup_app_l_Some. rewrite list_lookup_fmap, Hi. done. Qed.

Section run.
Context (answer : Z → Response) prs srs items
  (Hprs : replica_set_ok prs) (Hsrs : ∀ rs, srs = Some rs → replica_set_ok rs)
  (Hans : answers_all answer (replica_requests prs srs) items).

Lemma run_requests :
  NoDup (item_ids items) ∧ length items ≤ RESPONSE_BUFFER_LEN ∧
  (∀ r, votes prs r items = length (supporters answer prs r)) ∧
  (∀ rs r, srs = Some rs → votes rs r items = length (supporters answer rs r)).
Proof.
  destruct Hprs as [Hlen Hnd].
  destruct (replica_requests_spec prs srs Hlen Hnd Hsrs) as (Hreq & Hle & Hp & Hs).
  split_and!.
  - by rewrite (answers_all_ids answer _ items Hans).
  - rewrite (Permutation_length Hans), length_fmap. done.
  - intros r. by eapply votes_supporters.
  - intros rs r Hrs. eapply votes_supporters; [done|by apply Hsrs|by apply Hs|done].
Qed.

Lemma run_loop {E} :
  ∃ lr consumed ds,
    coordinator_loop (E := E) response_buffer_new (quorum_new prs) (quorum_new <$> srs) items
      = Ok lr ∧
    loop_post prs srs [] items lr consumed ds.
Proof.
  destruct run_requests as (Hnd & Hle & _).
  apply (loop_spec (E := E) prs srs [] []); [|done|done|left; done].
  split; [apply Hprs|apply quorum_new_inv| |constructor|done|done].
  destruct srs as [rs|] eqn:Hs; cbn; [|done]. split; [by apply (Hsrs rs)|apply quorum_new_inv].
Qed.

Lemma run_agreed r : agreed prs srs r items ↔ agreement answer prs srs r.
Proof.
  destruct run_requests as (_ & _ & Hp & Hs). unfold agreed, agreement, majority, quorate.
  rewrite Hp. split; intros [? Hall]; (split; [done|]); intros rs Hrs;
    [rewrite <-(Hs rs r Hrs)|rewrite (Hs rs r Hrs)]; auto.
Qed.

Lemma majority_mono rs r seen rest : majority rs r seen → majority rs r (seen ++ rest).
Proof. unfold majority. intros Hm. etrans; [exact Hm|]. apply votes_app_le. Qed.

(** The loop finds the response every replica set agrees on, if there is one. *)
Lemma run_response lr consumed ds r :
  loop_post prs srs [] items lr consumed ds →
  lr_response lr = Some r ↔ agreement answer prs srs r.
Proof.
  intros [Hit Hbuf Hinv Hsome Hnone]. rewrite <-run_agreed. cbn in Hit.
  destruct run_requests as (Hnd & _). split.
  - unfold lr_response. intros (i & Hi & Hr)%bind_Some.
    destruct (Hsome i Hi) as (r' & Hr' & [Hp Hs]). rewrite Hbuf in Hr.
    rewrite (buffer_lookup _ _ _ _ Hr') in Hr; cbn in Hr. injection Hr as ->.
    rewrite Hit. split; [by apply majority_mono|]. intros rs Hrs. by apply majority_mono, Hs.
  - intros [Hp Hs]. unfold lr_response. destruct (lr_idx lr) as [i|] eqn:Hi; cbn.
    + destruct (Hsome i eq_refl) as (r' & Hr' & [Hp' _]).
      rewrite Hbuf, (buffer_lookup _ _ _ _ Hr'); cbn. f_equal.
      eapply (majority_unique prs r r' items); [apply Hprs|done|done|].
      rewrite Hit. by apply majority_mono.
    + exfalso. destruct (Hnone eq_refl) as [[Hrest Hno]|(rs & a & b & Hrs & Ha & Hb & Hab)].
      * apply Hno. exists r. rewrite Hrest, app_nil_r in Hit. subst items. done.
      * apply Hab. apply (majority_mono _ _ _ (lr_rest lr)) in Ha, Hb. rewrite <-Hit in Ha, Hb.
        transitivity r; [|symmetry].
        -- eapply (majority_unique prs r a items); [apply Hprs|done..].
        -- eapply (majority_unique rs r b items);
             [by apply (Hsrs rs)|done|by apply (Hs rs Hrs)|done].
Qed.
End run.
End answers.

(** * [execute_callback] *)
Section callback.
Context `{PeerIds, HashingLaws} {N : Type}.
Context `{!Ff1, !UnixTime, !Postcard DataV0, !Postcard DataV1, !Postcard ExtraV0, !Postcard ExtraV1}.
Context `{!Config N}.
Context (hash_key : list Z → Z) (hash_key_u64 : ∀ key, fits 64 (hash_key key)).
Context (hashmap_iter : list MapEntry → list MapEntry) (hashmap_iter_perm : ∀ l, hashmap_iter l ≡ₚ l).
Implicit Types view : View N Shards.

(** The operation as the replicas see it. *)
Definition stamped now view (operation : Operation) : Operation :=
  set_keyspace_version operation (keyspace_version now view).

(** The client may access the namespace of the operation. *)
Definition authorized view (peer : PeerId) (operation : Operation) : Prop :=
  ∃ idx, namespace_idx (E := Empty_set) (op_namespace operation) = Ok idx ∧
    is_authorized_client (v_node_operators view) peer
      (node_operator_id (op_namespace operation)) idx = true.

Definition secondary_set now view operation : res Empty_set (option (list (NodeOperator N))) :=
  if is_write operation then secondary_replica_set now view (hash_key (op_key operation))
  else Ok None.

Lemma primary_set_ok view key :
  view_wf view → fits 64 key →
  ∃ prs, primary_replica_set (E := Empty_set) view key = Ok prs ∧ replica_set_ok prs.
Proof.
  intros Hv Hkey.
  destruct (keyspace_replicas_ok (E := Empty_set) view (v_keyspace view) key Hv (vw_keyspace _ Hv) Hkey)
    as (shard & rs & Hs & Hr & [Hlen Hnd _] & _).
  exists rs. unfold primary_replica_set. rewrite Hs; cbn. done.
Qed.

Lemma secondary_set_ok now view operation :
  view_wf view →
  ∃ srs, secondary_set now view operation = Ok srs ∧ ∀ rs, srs = Some rs → replica_set_ok rs.
Proof.
  intros Hv. unfold secondary_set, secondary_replica_set, is_secondary_keyspace_shadowing_on,
    is_in_progress, mig_keyspace.
  destruct (is_write operation); [|by exists None].
  destruct (mig_state (v_migration view)) as [ks p| |] eqn:Hst; [|by exists None..].
  destruct (has_event_propagated _ _ _); [|by exists None].
  destruct (keyspace_replicas_ok (E := Empty_set) view ks (hash_key (op_key operation)) Hv
    (vw_migration _ Hv _ _ Hst) (hash_key_u64 _)) as (shard & rs & Hs & Hr & [Hlen Hnd _] & _).
  exists (Some rs). rewrite Hs; cbn. rewrite Hr; cbn. split; [done|]. intros ? [= <-]. done.
Qed.

(** Everything an authorized operation goes through. *)
Lemma callback_run now view peer operation arrive answer :
  view_wf view → authorized view peer operation →
  (∀ requests, answers_all answer requests (arrive requests (stamped now view operation))) →
  ∃ prs srs items lr consumed ds,
    primary_replica_set (E := Empty_set) view (hash_key (op_key operation)) = Ok prs ∧
    secondary_set now view operation = Ok srs ∧ replica_set_ok prs ∧
    (∀ rs, srs = Some rs → replica_set_ok rs) ∧
    answers_all answer (replica_requests prs srs) items ∧
    execute_callback (E := Empty_set) hash_key hashmap_iter arrive now view peer operation =
      Ok (coordinator_finish hashmap_iter (stamped now view operation) lr) ∧
    loop_post prs srs [] items lr consumed ds.
Proof.
  intros Hv (idx & Hidx & Hauth) Harr.
  destruct (set_keyspace_version_spec operation (keyspace_version now view))
    as (_ & Hns & Hkey & Hw & _).
  destruct (primary_set_ok view (hash_key (op_key operation)) Hv (hash_key_u64 _)) as (prs & Hp & Hpok).
  destruct (secondary_set_ok now view operation Hv) as (srs & Hs & Hsok).
  set (items := arrive (replica_requests prs srs) (stamped now view operation)).
  destruct (run_loop answer prs srs items Hpok Hsok (Harr _) (E := Empty_set))
    as (lr & consumed & ds & Hrun & Hpost).
  exists prs, srs, items, lr, consumed, ds. split_and!; try done.
  unfold execute_callback. fold (stamped now view operation).
  unfold stamped in *. rewrite Hns, Hkey, Hw, Hidx; cbn [mbind res_bind].
  rewrite Hauth, Hp; cbn [mbind res_bind]. unfold secondary_set in Hs. rewrite Hs.
  cbn [mbind res_bind]. fold items. rewrite Hrun. done.
Qed.

Lemma finish_agreed operation lr r :
  lr_response lr = Some r → cb_response (coordinator_finish (N := N) hashmap_iter operation lr) = r.
Proof.
  unfold lr_response, coordinator_finish. intros (i & -> & Hr)%bind_Some. cbn. by rewrite Hr.
Qed.

Definition reconcilable (operation : Operation) : bool :=
  match operation with HCard _ _ _ | HScan _ _ _ _ _ => true | _ => false end.

Lemma reconcilable_stamped now view operation :
  reconcilable (stamped now view operation) = reconcilable operation.
Proof. by destruct operation. Qed.

(** The index of a finished loop always names a response. *)
Lemma lr_response_None prs srs items lr consumed ds :
  loop_post (N := N) prs srs [] items lr consumed ds → lr_response lr = None → lr_idx lr = None.
Proof.
  intros [_ Hbuf _ Hsome _] Hno. destruct (lr_idx lr) as [i|] eqn:Hi; [|done].
  destruct (Hsome i eq_refl) as (r & Hr & _). unfold lr_response in Hno.
  rewrite Hi in Hno; cbn in Hno. rewrite Hbuf, (buffer_lookup _ _ _ _ Hr) in Hno. done.
Qed.

Lemma finish_disagreed operation lr :
  lr_idx lr = None → (is_write operation = true ∨ reconcilable operation = false) →
  cb_response (coordinator_finish (N := N) hashmap_iter operation lr) = RErr (error_new Internal).
Proof.
  intros Hi Hop. unfold coordinator_finish. rewrite Hi. cbn.
  destruct Hop as [->|Hr]; [done|]. destruct operation; try done.
Qed.

(** C1. Quorum replication is exact: an authorized operation always completes
    without a panic, whatever the replicas answer and in whatever order; if some
    answer is given by a majority of the primary replicas (and, for a write
    during a migration, also by a majority of the secondary ones) it is the
    response, and otherwise a write or a single-record read fails with an
    internal error.  So a write is acknowledged exactly when enough replicas of
    every relevant set have acknowledged it. *)
Theorem coordinator_response_exact now view peer operation arrive answer :
  view_wf view → authorized view peer operation →
  (∀ requests, answers_all answer requests (arrive requests (stamped now view operation))) →
  ∃ prs srs cb,
    primary_replica_set (E := Empty_set) view (hash_key (op_key operation)) = Ok prs ∧
    secondary_set now view operation = Ok srs ∧
    execute_callback (E := Empty_set) hash_key hashmap_iter arrive now view peer operation = Ok cb ∧
    (∀ r, agreement answer prs srs r → cb_response cb = r) ∧
    (is_write operation = true ∨ reconcilable operation = false →
     (¬ ∃ r, agreement answer prs srs r) → cb_response cb = RErr (error_new Internal)).
Proof.
  intros Hv Hauth Harr.
  destruct (callback_run now view peer operation arrive answer Hv Hauth Harr)
    as (prs & srs & items & lr & consumed & ds & Hp & Hs & Hpok & Hsok & Hall & Hrun & Hpost).
  eexists prs, srs, _. split_and!; [exact Hp|exact Hs|exact Hrun| |].
  - intros r Hr. apply finish_agreed. by eapply run_response.
  - intros Hop Hno. destruct (set_keyspace_version_spec operation (keyspace_version now view))
      as (_ & _ & _ & Hw & _).
    apply finish_disagreed; [|unfold stamped at 1; by rewrite Hw, reconcilable_stamped].
    eapply lr_response_None; [exact Hpost|]. apply eq_None_not_Some. intros [r Hr].
    apply Hno. exists r. by eapply run_response.
Qed.

(** A successful write or single-record read has its quorums. *)
Lemma ok_response_agreement now view peer operation arrive answer cb out :
  view_wf view → authorized view peer operation →
  (∀ requests, answers_all answer requests (arrive requests (stamped now view operation))) →
  is_write operation = true ∨ reconcilable operation = false →
  execute_callback (E := Empty_set) hash_key hashmap_iter arrive now view peer operation = Ok cb →
  cb_response cb = ROk out →
  ∃ prs srs,
    primary_replica_set (E := Empty_set) view (hash_key (op_key operation)) = Ok prs ∧
    secondary_set now view operation = Ok srs ∧ replica_set_ok prs ∧
    (∀ rs, srs = Some rs → replica_set_ok rs) ∧ agreement answer prs srs (ROk out).
Proof.
  intros Hv Hauth Harr Hop Hcb Hout.
  destruct (callback_run now view peer operation arrive answer Hv Hauth Harr)
    as (prs & srs & items & lr & consumed & ds & Hp & Hs & Hpok & Hsok & Hall & Hrun & Hpost).
  exists prs, srs. split_and!; try done. rewrite Hrun in Hcb. injection Hcb as <-.
  destruct (lr_response lr) as [r|] eqn:Hr.
  - rewrite (finish_agreed _ lr r Hr) in Hout. subst r. by eapply run_response.
  - apply (lr_response_None _ _ _ _ _ _ Hpost) in Hr.
    rewrite finish_disagreed in Hout; [done|done|].
    destruct (set_keyspace_version_spec operation (keyspace_version now view))
      as (_ & _ & _ & Hw & _).
    unfold stamped at 1. by rewrite Hw, reconcilable_stamped.
Qed.


End callback.

(** * Witnesses: the concrete cluster, with replicas that answer in order *)

#[local] Existing Instance toy_peer_ids.
#[local] Existing Instance toy_ff1.
#[local] Existing Instance toy_hashing.
#[local] Existing Instance toy_hashing_laws.
#[local] Existing Instance toy_unix_time.
#[local] Existing Instance toy_config.
#[local] Existing Instance toy_d0.
#[local] Existing Instance toy_d1.
#[local] Existing Instance toy_e0.
#[local] Existing Instance toy_e1.

(** Namespace 1 of operator 3. *)
Definition toy_ns : Namespace := replicate 19 0%Z ++ [3; 1]%Z.
Definition toy_hash_key (key : list Z) : Z := 42%Z.
Definition toy_map_iter (l : list MapEntry) : list MapEntry := l.
Definition toy_arrive (answer : Z → Response) (requests : list (NodeOperator Z)) (_ : Operation)
    : list (NodeOperator Z * Response) :=
  (λ op, (op, answer (op_id op))) <$> requests.

Lemma toy_hash_u64 key : fits 64 (toy_hash_key key).
Proof. unfold toy_hash_key, fits. lia. Qed.

Lemma toy_arrive_all answer op requests : answers_all answer requests (toy_arrive answer requests op).
Proof. unfold answers_all, toy_arrive. reflexivity. Qed.

Lemma toy_authorized (v : View Z Shards) operation :
  v_node_operators v = six_ops → op_namespace operation = toy_ns →
  authorized v (103%Z : @PeerId toy_peer_ids) operation.
Proof. intros Hv Hns. exists 1%Z. rewrite Hv, Hns. split; reflexivity. Qed.

(** A unanimous set has a quorum. *)
Lemma unanimous (answer : Z → Response) (rs : list (NodeOperator Z)) r :
  replica_set_ok rs → (∀ id, answer id = r) → quorate answer rs r.
Proof.
  intros [Hlen _] Hall. unfold quorate, supporters, replica_ids.
  assert (filter (λ id, answer id = r) (op_id <$> rs) = op_id <$> rs) as ->.
  { induction (op_id <$> rs) as [|x l IH]; [done|]. rewrite filter_cons_True by done. by rewrite IH. }
  rewrite length_fmap, Hlen. vm_compute. lia.
Qed.

Definition toy_set : Operation :=
  SetOp toy_ns [1]%Z {| rec_value := [7]%Z; rec_expiration := 9%Z; rec_version := 1%Z |} None.

Lemma coordinator_response_exact_witness :
  ∃ (v : View Z Shards) cb, view_wf v ∧
    execute_callback (E := Empty_set) toy_hash_key toy_map_iter (toy_arrive (λ _, ROk OutNone))
      0 v 103%Z toy_set = Ok cb ∧ cb_response cb = ROk OutNone.
Proof.
  destruct toy_shards_exist as (ks & Hops & Hwf). exists (six_view ks).
  assert (view_wf (six_view ks)) as Hv by (by apply six_view_wf).
  destruct (coordinator_response_exact toy_hash_key toy_hash_u64 toy_map_iter 0 (six_view ks)
    103%Z toy_set (toy_arrive (λ _, ROk OutNone)) (λ _, ROk OutNone) Hv
    (toy_authorized (six_view ks) toy_set eq_refl eq_refl) (toy_arrive_all _ _))
    as (prs & srs & cb & Hp & Hs & Hcb & Hag & _).
  exists cb. split; [exact Hv|]. split; [exact Hcb|]. apply Hag.
  destruct (primary_set_ok (six_view ks) 42 Hv ltac:(done)) as (prs' & Hp' & Hok).
  assert (prs' = prs) as -> by (apply (Ok_inj (E := Empty_set)); by rewrite <-Hp', <-Hp).
  split; [by apply unanimous|]. intros rs ->. discriminate Hs.
Defined.

(** A migration in its last step: only operator 1 still pulls. *)
Definition toy_last_pull (ks : Keyspace Shards) : View Z Shards :=
  set_keyspaces (six_view ks) ks 7%Z
    {| mig_id := 3%Z; mig_started_at := 0%Z; mig_state := Started ks {[0%Z]} |}.

Definition toy_finished (ks : Keyspace Shards) : View Z Shards :=
  set_cluster_version
    (set_keyspaces (toy_last_pull ks) ks 7%Z
       {| mig_id := 3%Z; mig_started_at := 0%Z; mig_state := Completed |}) 41%Z.

Definition toy_completion : list Event :=
  [EvMigrationCompleted {| mc_migration_id := 3%Z; mc_operator_id := 1%Z; mc_cluster_version := 41%Z |}].

Lemma toy_completion_applies ks :
  apply_events (toy_last_pull ks) toy_completion = Ok (toy_finished ks).
Proof.
  unfold toy_completion, apply_events.
  pose proof (apply_migration_completed (toy_last_pull ks) ks 1 0 eq_refl eq_refl) as Happ.
  change (wrap 128 (v_cluster_version (toy_last_pull ks) + 1)) with 41%Z in Happ.
  unfold toy_last_pull in Happ at 2. cbn [set_keyspaces v_migration mig_id] in Happ.
  rewrite Happ. reflexivity.
Qed.

Definition toy_get : Operation := Get toy_ns [1]%Z None.

Lemma toy_answered (v : View Z Shards) answer out operation :
  view_wf v → v_node_operators v = six_ops → op_namespace operation = toy_ns →
  (∀ id, answer id = ROk out) →
  ∃ cb, execute_callback (E := Empty_set) toy_hash_key toy_map_iter (toy_arrive answer)
      6000000000 v 103%Z operation = Ok cb ∧ cb_response cb = ROk out.
Proof.
  intros Hv Hops Hns Hall.
  destruct (callback_run toy_hash_key toy_hash_u64 toy_map_iter 6000000000 v 103%Z operation
    (toy_arrive answer) answer Hv (toy_authorized v operation Hops Hns) (toy_arrive_all _ _))
    as (prs & srs & items & lr & consumed & ds & Hp & Hs & Hpok & Hsok & Hit & Hrun & Hpost).
  eexists. split; [exact Hrun|]. apply finish_agreed.
  apply (run_response answer prs srs items Hpok Hsok Hit lr consumed ds _ Hpost).
  split; [by apply unanimous|]. intros rs Hrs. apply unanimous; auto.
Qed.


(** Every key of the concrete cluster is on the operators 1 to 5. *)
Lemma toy_replicas ks prs :
  ks_operators ks = list_to_set [0; 1; 2; 3; 4]%Z → view_wf (six_view ks) →
  primary_replica_set (E := Empty_set) (six_view ks) 42 = Ok prs →
  replica_ids prs ≡ₚ [1; 2; 3; 4; 5]%Z.
Proof.
  intros Hops Hv Hp.
  destruct (keyspace_replicas_ok (E := Empty_set) (six_view ks) ks 42 Hv (vw_keyspace _ Hv) ltac:(done))
    as (shard & rs & Hs & Hr & [Hlen Hnd _] & Hf & Hin).
  assert (prs = rs) as ->.
  { unfold primary_replica_set in Hp. cbn [six_view v_keyspace] in Hp. rewrite Hs in Hp.
    cbn [mbind res_bind] in Hp. rewrite Hr in Hp. symmetry. by apply (Ok_inj (E := Empty_set)). }
  apply submseteq_length_Permutation; [|unfold replica_ids; by rewrite length_fmap, Hlen].
  apply NoDup_submseteq; [done|]. intros id (op & -> & [k Hk]%list_elem_of_lookup)%list_elem_of_fmap.
  apply Forall2_lookup_r with (1 := Hf) in Hk as (idx & Hidx & Hop).
  apply list_elem_of_lookup_2, Hin in Hidx. rewrite Hops, elem_of_list_to_set in Hidx.
  rewrite !elem_of_cons, elem_of_nil in Hidx.
  destruct_or!; subst; try done; injection Hop as <-; set_solver.
Qed.

(** Quorums of the concrete cluster, by counting. *)
Lemma toy_quorate answer (prs : list (NodeOperator Z)) r :
  replica_ids prs ≡ₚ [1; 2; 3; 4; 5]%Z →
  quorate answer prs r ↔ 3 ≤ length (filter (λ id, answer id = r) [1; 2; 3; 4; 5]%Z).
Proof. intros Hids. unfold quorate, supporters. by rewrite Hids. Qed.
