(* ===== verification/RepairProofs.v ===== *)
(** RepairProofs: read repair reaches exactly the replicas with a wrong record.

    [ReadRepair] collects its targets in two phases: the replicas among the
    answers that were in when the quorum was reached, then the stragglers.  A
    quorum leaves at most [MAX_TARGETS] replicas with another answer, so the
    fixed number of target slots never drops one. *)
From S2P Require Import Prelude External Sharding SmartContract NodeOperator NodeOperators.
From S2P Require Import Keyspace Settings Migration View Concrete ViewInvariant.
From S2P Require Import StorageApi Coordinator QuorumProofs CoordinatorProofs.
From stdpp Require Import prelude gmap sets list sorting strings.

Section repair.
Context `{PeerIds} {N : Type}.
Implicit Types rs prs : list (NodeOperator N).
Implicit Types items consumed : list (NodeOperator N * Response).

(** A successful answer other than [out]. *)
Definition differs (out : Output) (r : Response) : bool :=
  match r with
  | ROk o => bool_decide (o ≠ out)
  | RErr _ => false
  end.

Lemma differs_true out r : differs out r = true ↔ ∃ o, r = ROk o ∧ r ≠ ROk out.
Proof.
  destruct r as [o|e]; cbn; [rewrite bool_decide_eq_true|]; naive_solver.
Qed.

(** The operators among [items] to repair. *)
Definition deviating (out : Output) items : list (NodeOperator N) :=
  (filter (λ it, differs out it.2 = true) items).*1.

(** * Target slots *)

Definition target_slots (n : nat) (l : list (NodeOperator N)) : list (option (NodeOperator N)) :=
  (Some <$> l) ++ replicate (n - length l) None.

Lemma target_slots_omap n l : omap id (target_slots n l) = l.
Proof.
  unfold target_slots. rewrite omap_app. replace (omap id (replicate _ None)) with (@nil (NodeOperator N)).
  - rewrite app_nil_r. induction l; cbn; congruence.
  - by induction (n - length l).
Qed.

Lemma target_slots_seq n l :
  length l ≤ n → (λ i, l !! i) <$> seq 0 n = target_slots n l.
Proof.
  revert n; induction l as [|x l IH]; intros n Hlen.
  - unfold target_slots; cbn. rewrite Nat.sub_0_r. clear Hlen. generalize 0.
    induction n as [|n IH]; intros k; cbn; [done|]. by rewrite IH.
  - destruct n as [|n]; cbn in Hlen; [lia|]. cbn [seq]. rewrite fmap_cons, <-fmap_S_seq.
    rewrite <-list_fmap_compose. cbn. unfold target_slots in *; cbn. f_equal.
    apply IH. lia.
Qed.

Lemma add_target_slots n l op :
  length l < n → add_target (target_slots n l) op = target_slots n (l ++ [op]).
Proof.
  revert n; induction l as [|x l IH]; intros n Hlen.
  - destruct n as [|n]; cbn in Hlen; [lia|]. unfold target_slots; cbn. by rewrite Nat.sub_0_r.
  - destruct n as [|n]; cbn in Hlen; [lia|]. unfold target_slots in *; cbn. f_equal. apply IH. lia.
Qed.

Lemma check_responses_slots n out l items :
  length l + length (deviating out items) ≤ n →
  foldl (λ repair it, check_response repair it.1 it.2)
    {| rr_output := out; rr_targets := target_slots n l |} items =
  {| rr_output := out; rr_targets := target_slots n (l ++ deviating out items) |}.
Proof.
  revert l; induction items as [|[op r] items IH]; intros l Hlen.
  { by rewrite app_nil_r. }
  unfold deviating in *. cbn [foldl fst snd]. rewrite filter_cons in Hlen |- *. cbn [snd] in *.
  destruct r as [o|e]; cbn [check_response rr_output rr_targets differs] in *.
  - destruct (decide (o = out)) as [->|Hne].
    + rewrite decide_False in Hlen |- * by (rewrite bool_decide_eq_true; tauto). by apply IH.
    + rewrite decide_True in Hlen |- * by (by rewrite bool_decide_eq_true). cbn in Hlen.
      rewrite add_target_slots by lia. rewrite IH by (rewrite length_app; cbn; lia).
      by rewrite <-app_assoc.
  - rewrite decide_False in Hlen |- * by done. by apply IH.
Qed.

(** * Candidates *)

Lemma omap_fst_sublist {A B} (f : A * B → option A) (l : list (A * B)) :
  (∀ e x, f e = Some x → x = e.1) → omap f l `sublist_of` l.*1.
Proof.
  intros Hf. induction l as [|e l IH]; [constructor|]. cbn. destruct (f e) as [x|] eqn:Hx.
  - apply Hf in Hx as ->. by apply sublist_skip.
  - by apply sublist_cons.
Qed.

Lemma zip_fst_sublist {A B} (l : list A) (k : list B) : (zip l k).*1 `sublist_of` l.
Proof.
  revert k; induction l as [|x l IH]; intros [|y k]; cbn; try constructor; [|apply IH].
  apply sublist_nil_l.
Qed.

Lemma elem_of_repair_candidates (responses : list (option Response)) (q : Quorum N) i op :
  op ∈ repair_candidates responses q i ↔
  ∃ k idx o, q_replica_set q !! k = Some op ∧ q_replica_responses q !! k = Some (Some idx) ∧
    idx ≠ i ∧ responses !! idx = Some (Some (ROk o)).
Proof.
  unfold repair_candidates. rewrite list_elem_of_omap. split.
  - intros ([op' [idx|]] & [k Hk]%list_elem_of_lookup & Hf); cbn in Hf; [|done].
    apply lookup_zip_Some in Hk as [Hop Hr]. cbn in *.
    destruct (decide _); [done|]. destruct (responses !! idx) as [[[o|]|]|] eqn:Hi; try done.
    injection Hf as ->. by exists k, idx, o.
  - intros (k & idx & o & Hop & Hr & Hne & Hi). exists (op, Some idx). split.
    + apply list_elem_of_lookup. exists k. by apply lookup_zip_Some.
    + cbn. by rewrite decide_False, Hi by done.
Qed.

Lemma NoDup_fmap_id rs : NoDup (replica_ids rs) → NoDup rs.
Proof. apply NoDup_fmap_1. Qed.

Lemma repair_candidates_NoDup responses (q : Quorum N) i :
  NoDup (replica_ids (q_replica_set q)) → NoDup (repair_candidates responses q i).
Proof.
  intros Hnd%NoDup_fmap_id. eapply sublist_NoDup; [exact Hnd|].
  etrans; [|apply (zip_fst_sublist _ (q_replica_responses q))]. apply omap_fst_sublist.
  intros [op [idx|]] x; cbn; [|done]. destruct (decide _); [done|].
  destruct (responses !! idx) as [[[]|]|]; naive_solver.
Qed.

Lemma buffer_lookup_inv n ds i r : buffer n ds !! i = Some (Some r) → ds !! i = Some r.
Proof.
  unfold buffer. intros [Hi|[_ Hi]]%lookup_app_Some.
  - rewrite list_lookup_fmap in Hi. by apply fmap_Some in Hi as (? & -> & [= ->]).
  - by apply lookup_replicate in Hi as [? _].
Qed.

(** The first phase: the replicas already known to deviate. *)
Lemma repair_candidates_spec rs ds consumed q i out :
  replica_set_ok rs → quorum_inv rs ds consumed q → NoDup ds → NoDup (item_ids consumed) →
  (∀ op r, (op, r) ∈ consumed → op ∈ rs) → ds !! i = Some (ROk out) →
  repair_candidates (buffer RESPONSE_BUFFER_LEN ds) q i ≡ₚ deviating out consumed.
Proof.
  intros [Hlen Hnd] Hq Hds Hit Hsub Hi. pose proof (qi_set _ _ _ _ Hq) as Hset.
  assert (∀ op op', op ∈ rs → op' ∈ rs → op_id op = op_id op' → op = op') as Hinj.
  { intros op op' [k Hk]%list_elem_of_lookup [k' Hk']%list_elem_of_lookup Hid.
    assert (k = k') as ->; [|congruence].
    apply (NoDup_lookup (replica_ids rs) k k' (op_id op)); [done| |]; unfold replica_ids;
      rewrite list_lookup_fmap, ?Hk, ?Hk'; cbn; congruence. }
  apply NoDup_Permutation.
  - apply repair_candidates_NoDup. by rewrite Hset.
  - apply NoDup_fmap_id. unfold replica_ids, deviating. rewrite <-list_fmap_compose.
    eapply sublist_NoDup; [exact Hit|]. apply fmap_sublist, sublist_filter.
  - intros op. rewrite elem_of_repair_candidates, Hset. unfold deviating.
    rewrite list_elem_of_fmap. setoid_rewrite list_elem_of_filter. split.
    + intros (k & idx & o & Hk & Hr & Hne & Ho%buffer_lookup_inv).
      destruct (qi_answer _ _ _ _ Hq k idx op Hr Hk) as (op' & r & Hin & Hid & Hidx).
      apply list_elem_of_lookup_2 in Hk.
      assert (op' = op) as -> by (apply Hinj; eauto). exists (op, r). split; [done|].
      split; [|done]. apply differs_true. exists o. cbn. split; [congruence|]. intros ->.
      apply Hne. by apply (NoDup_lookup ds idx i (ROk out)).
    + intros ([op' r] & -> & (o & Ho & Hne)%differs_true & Hin). cbn in Ho, Hne. subst r.
      destruct (list_elem_of_lookup_1 _ _ (Hsub _ _ Hin)) as [k Hk].
      destruct (qi_answered _ _ _ _ Hq k op' op' (ROk o) Hk Hin eq_refl) as (idx & Hr & Hidx).
      exists k, idx, o. split_and!; [done|done| |by apply buffer_lookup].
      intros ->. cbn in *. congruence.
Qed.

(** * A finished read *)

(** The replicas of a set that gave another answer than [out]. *)
Definition deviating_replicas (answer : Z → Response) (out : Output) prs : list (NodeOperator N) :=
  filter (λ op, differs out (answer (op_id op)) = true) prs.

Lemma deviating_answers answer out prs items :
  answers_all answer prs items → deviating out items ≡ₚ deviating_replicas answer out prs.
Proof.
  unfold answers_all, deviating, deviating_replicas. intros ->.
  rewrite filter_fmap_comm, <-list_fmap_compose. by rewrite list_fmap_id.
Qed.

(** A quorum leaves at most [MAX_TARGETS] replicas to repair. *)
Lemma deviating_few answer out prs :
  replica_set_ok prs → quorate answer prs (ROk out) →
  length (deviating_replicas answer out prs) ≤ MAX_TARGETS.
Proof.
  intros [Hlen Hnd] Hq. unfold quorate, supporters, replica_ids in Hq.
  rewrite filter_fmap_comm, length_fmap in Hq.
  assert (length (deviating_replicas answer out prs ++
    filter (λ op, answer (op_id op) = ROk out) prs) ≤ length prs) as Hle.
  { apply submseteq_length, NoDup_submseteq.
    - apply NoDup_fmap_id in Hnd. apply NoDup_app.
      split_and!; [by apply NoDup_filter| |by apply NoDup_filter].
      intros op [Hd _]%list_elem_of_filter [Ho _]%list_elem_of_filter. cbn in *.
      apply differs_true in Hd as (o & _ & Hne). done.
    - intros op [[_ ?]%list_elem_of_filter|[_ ?]%list_elem_of_filter]%elem_of_app; done. }
  rewrite length_app, Hlen in Hle. change RF with 5 in Hle. change MAX_TARGETS with 2.
  change MAJORITY_QUORUM_THRESHOLD with 3 in Hq. lia.
Qed.

(** The quorum index of a finished read, and whose response it is. *)
Lemma read_quorum_idx answer prs items lr consumed ds i r :
  replica_set_ok prs → answers_all answer prs items →
  loop_post prs None [] items lr consumed ds →
  q_response_idx (lr_primary lr) = Some i → ds !! i = Some r → quorate answer prs r.
Proof.
  intros Hok Hans Hpost Hi Hr. pose proof Hpost as [Hit _ [_ Hq _ _ _ _] _ _]. cbn in Hit.
  apply (qi_idx _ _ _ _ Hq) in Hi as (r' & Hr' & Hm). assert (r' = r) as -> by congruence.
  assert (agreed prs None r items) as Hag.
  { split; [|done]. rewrite Hit. by apply majority_mono. }
  apply (run_agreed answer prs None items Hok) in Hag as [? _];
    [done|done|by unfold replica_requests; rewrite app_nil_r].
Qed.

Lemma read_repair_targets answer prs items lr consumed ds operation out :
  replica_set_ok prs → answers_all answer prs items →
  loop_post prs None [] items lr consumed ds → is_repairable operation = true →
  quorate answer prs (ROk out) →
  ∃ l repair, l ≡ₚ deviating_replicas answer out prs ∧
    read_repair_new operation (lr_responses lr) (lr_primary lr) = Some repair ∧
    foldl (λ repair e, check_response repair e.1 e.2) repair (lr_rest lr) =
      {| rr_output := out; rr_targets := target_slots MAX_TARGETS l |}.
Proof.
  intros Hok Hans Hpost Hop Hq.
  assert (answers_all answer (replica_requests prs None) items) as Hans'
    by (by unfold replica_requests; rewrite app_nil_r).
  assert (lr_response lr = Some (ROk out)) as Hresp.
  { apply (run_response answer prs None items Hok ltac:(done) Hans' lr consumed ds _ Hpost).
    by split. }
  pose proof Hpost as [Hit Hbuf [_ Hqi _ Hds _ _] Hsome _]. cbn in Hit.
  unfold lr_response in Hresp. apply bind_Some in Hresp as (i & Hi & Hslot).
  destruct (Hsome i Hi) as (r & Hr & [Hm _]). rewrite Hbuf in Hslot.
  rewrite (buffer_lookup _ _ _ _ Hr) in Hslot; cbn in Hslot. injection Hslot as ->.
  destruct (run_requests answer prs None items Hok ltac:(done) Hans') as (Hnd & _).
  set (cands := repair_candidates (lr_responses lr) (lr_primary lr) i).
  assert (cands ≡ₚ deviating out consumed) as Hcands.
  { subst cands. rewrite Hbuf. eapply repair_candidates_spec; try done.
    - rewrite Hit in Hnd. unfold item_ids in *. rewrite fmap_app in Hnd.
      by apply NoDup_app in Hnd as [? _].
    - intros op r Hin. eapply (answers_all_elem answer prs items); [done|].
      rewrite Hit. apply elem_of_app. by left. }
  assert (cands ++ deviating out (lr_rest lr) ≡ₚ deviating_replicas answer out prs) as Hall.
  { rewrite Hcands, <-(deviating_answers answer out prs items Hans), Hit.
    unfold deviating. by rewrite filter_app, fmap_app. }
  exists (cands ++ deviating out (lr_rest lr)),
    {| rr_output := out; rr_targets := target_slots MAX_TARGETS cands |}. split; [done|].
  assert (length cands + length (deviating out (lr_rest lr)) ≤ MAX_TARGETS) as Hle.
  { rewrite <-length_app, (Permutation_length Hall). by apply deviating_few. }
  unfold read_repair_new. rewrite Hop.
  replace (q_response_idx (lr_primary lr)) with (Some i)
    by (symmetry; apply (qi_idx _ _ _ _ Hqi); eauto).
  cbn [mbind option_bind]. rewrite Hbuf, (buffer_lookup _ _ _ _ Hr), <-Hbuf. fold cands.
  rewrite target_slots_seq by lia. split; [done|]. by apply check_responses_slots.
Qed.
End repair.

Section repair_callback.
Context `{PeerIds, HashingLaws} {N : Type}.
Context (hash_key : list Z → Z) (hash_key_u64 : ∀ key, fits 64 (hash_key key)).
Context (hashmap_iter : list MapEntry → list MapEntry).
Implicit Types view : View N Shards.

Lemma finish_repairs operation (lr : LoopResult N) :
  cb_repairs (coordinator_finish hashmap_iter operation lr) =
  match read_repair_new operation (lr_responses lr) (lr_primary lr) with
  | None => []
  | Some repair =>
      repair_requests operation
        (foldl (λ repair e, check_response repair e.1 e.2) repair (lr_rest lr))
  end.
Proof. reflexivity. Qed.

Lemma check_response_output (self : ReadRepair N) op r :
  rr_output (check_response self op r) = rr_output self.
Proof. unfold check_response. destruct r; [case_decide|]; done. Qed.

Lemma check_responses_output (items : list (NodeOperator N * Response)) (self : ReadRepair N) :
  rr_output (foldl (λ repair e, check_response repair e.1 e.2) self items) = rr_output self.
Proof.
  revert self; induction items as [|it items IH]; intros self; [done|].
  cbn. by rewrite IH, check_response_output.
Qed.

Lemma is_repairable_stamped now view operation :
  is_repairable (stamped now view operation) = is_repairable operation.
Proof. by destruct operation. Qed.

Lemma repairable_read operation : is_repairable operation = true → is_write operation = false.
Proof. by destruct operation. Qed.

Lemma repair_operation_Some operation out repair :
  repair_operation operation out = Some repair →
  is_repairable operation = true ∧ ∃ record, out = OutRecord (Some record).
Proof. destruct operation, out as [[]| | | |]; cbn; intros [=]; eauto. Qed.

(** Repairs need a quorum on a record. *)
Lemma repairs_sound answer prs items lr consumed ds operation :
  replica_set_ok prs → answers_all answer prs items →
  loop_post prs None [] items lr consumed ds →
  cb_repairs (coordinator_finish (N := N) hashmap_iter operation lr) ≠ [] →
  ∃ record, quorate answer prs (ROk (OutRecord (Some record))).
Proof.
  intros Hok Hans Hpost. rewrite finish_repairs.
  destruct (read_repair_new _ _ _) as [repair|] eqn:Hnew; [|done].
  unfold repair_requests. rewrite check_responses_output.
  destruct (repair_operation _ _) as [op|] eqn:Hop; [|done]. intros _.
  apply repair_operation_Some in Hop as (Hrep & record & Hout). exists record.
  unfold read_repair_new in Hnew. rewrite Hrep in Hnew.
  apply bind_Some in Hnew as (i & Hi & Hnew). pose proof Hpost as [_ Hbuf _ _ _].
  destruct (lr_responses lr !! i) as [[[out|]|]|] eqn:Hslot; try done.
  injection Hnew as <-. cbn in Hout. subst out. rewrite Hbuf in Hslot.
  apply buffer_lookup_inv in Hslot. by eapply read_quorum_idx.
Qed.

(** C17. Read repair is exact: after a single-record read whose quorum is a
    record, that record is written back, with its original version, to exactly
    the primary replicas that gave another successful answer, including the
    ones that answered after the quorum was reached; none is dropped for lack
    of a target slot.  Nothing is repaired otherwise: not without a quorum on a
    record, and not for any other operation. *)
Theorem read_repair_exact now view peer operation arrive answer :
  view_wf view → authorized view peer operation →
  (∀ requests, answers_all answer requests (arrive requests (stamped now view operation))) →
  ∃ prs cb,
    primary_replica_set (E := Empty_set) view (hash_key (op_key operation)) = Ok prs ∧
    execute_callback (E := Empty_set) hash_key hashmap_iter arrive now view peer operation = Ok cb ∧
    (∀ record repair, quorate answer prs (ROk (OutRecord (Some record))) →
       repair_operation (stamped now view operation) (OutRecord (Some record)) = Some repair →
       cb_repairs cb ≡ₚ (λ op, (op, repair)) <$>
         deviating_replicas answer (OutRecord (Some record)) prs) ∧
    (cb_repairs cb ≠ [] → is_repairable operation = true ∧
       ∃ record, quorate answer prs (ROk (OutRecord (Some record)))).
Proof.
  intros Hv Hauth Harr.
  destruct (callback_run hash_key hash_key_u64 hashmap_iter now view peer operation arrive answer
    Hv Hauth Harr)
    as (prs & srs & items & lr & consumed & ds & Hp & Hs & Hpok & Hsok & Hall & Hrun & Hpost).
  eexists prs, _. split_and!; [exact Hp|exact Hrun| |].
  all: destruct (is_repairable operation) eqn:Hrep;
    [unfold secondary_set in Hs;
     rewrite (repairable_read _ Hrep) in Hs; injection Hs as <-;
     unfold replica_requests in Hall; rewrite app_nil_r in Hall|].
  - intros record repair Hq Hop.
    destruct (read_repair_targets answer prs items lr consumed ds
      (stamped now view operation) (OutRecord (Some record))) as (l & rr & Hl & Hnew & Hfold);
      [done..|by rewrite is_repairable_stamped|done|].
    rewrite finish_repairs, Hnew, Hfold. unfold repair_requests. cbn [rr_output rr_targets].
    rewrite Hop, target_slots_omap. by rewrite Hl.
  - intros record repair _ [Hr _]%repair_operation_Some. rewrite is_repairable_stamped in Hr.
    congruence.
  - intros Hne. split; [done|]. by eapply repairs_sound.
  - intros Hne. destruct Hne. rewrite finish_repairs. unfold read_repair_new.
    by rewrite is_repairable_stamped, Hrep.
Qed.
End repair_callback.

(** * Witness: operator 2 has lost a record *)

#[local] Existing Instance toy_peer_ids.
#[local] Existing Instance toy_hashing.
#[local] Existing Instance toy_hashing_laws.

Definition toy_record : Record :=
  {| rec_value := [7]%Z; rec_expiration := 9%Z; rec_version := 1%Z |}.
Definition stale_answer (id : Z) : Response :=
  if decide (id = 2%Z) then ROk (OutRecord None) else ROk (OutRecord (Some toy_record)).

Lemma read_repair_exact_witness :
  ∃ (v : View Z Shards) cb, view_wf v ∧
    execute_callback (E := Empty_set) toy_hash_key toy_map_iter (toy_arrive stale_answer)
      0 v 103%Z toy_get = Ok cb ∧
    (λ e, (op_id e.1, e.2)) <$> cb_repairs cb = [(2%Z, SetOp toy_ns [1]%Z toy_record (Some 7%Z))].
Proof.
  destruct toy_shards_exist as (ks & Hops & Hwf). exists (six_view ks).
  assert (view_wf (six_view ks)) as Hv by (by apply six_view_wf).
  destruct (read_repair_exact toy_hash_key toy_hash_u64 toy_map_iter 0 (six_view ks) 103%Z toy_get
    (toy_arrive stale_answer) stale_answer Hv
    (toy_authorized (six_view ks) toy_get eq_refl eq_refl) (toy_arrive_all _ _))
    as (prs & cb & Hp & Hcb & Hrep & _).
  exists cb. split; [exact Hv|]. split; [exact Hcb|].
  pose proof (toy_replicas ks prs Hops Hv Hp) as Hids.
  assert (quorate stale_answer prs (ROk (OutRecord (Some toy_record)))) as Hq.
  { apply toy_quorate; [exact Hids|]. vm_compute. lia. }
  specialize (Hrep toy_record (SetOp toy_ns [1]%Z toy_record (Some 7%Z)) Hq eq_refl).
  apply Permutation_singleton_r. rewrite Hrep, <-list_fmap_compose.
  set (f := λ id : Z, (id, SetOp toy_ns [1]%Z toy_record (Some 7%Z))).
  transitivity (f <$> (op_id <$> deviating_replicas stale_answer (OutRecord (Some toy_record)) prs));
    [by rewrite <-list_fmap_compose|].
  change [(2%Z, SetOp toy_ns [1]%Z toy_record (Some 7%Z))] with (f <$> [2%Z]).
  apply fmap_Permutation. unfold deviating_replicas.
  transitivity (filter (λ id, differs (OutRecord (Some toy_record)) (stale_answer id) = true)
    (replica_ids prs)); [unfold replica_ids; by rewrite filter_fmap_comm|].
  rewrite Hids. reflexivity.
Defined.
