(* ===== verification/ReconcileProofs.v ===== *)
(** ReconcileProofs: what a map operation without a quorum returns.

    [reconcile] works on the buffer of distinct responses and the number of
    replicas behind each; the theorems restate its result over the replicas
    themselves: a page holds exactly the entries a majority of the replicas
    reported, in strictly increasing field order, and a cardinality is the
    third smallest of the reported ones. *)
From S2P Require Import Prelude External Sharding SmartContract NodeOperator NodeOperators.
From S2P Require Import Keyspace Settings Migration View Concrete ViewInvariant.
From S2P Require Import StorageApi Coordinator QuorumProofs CoordinatorProofs.
From stdpp Require Import prelude gmap sets list sorting strings.

(** * Weighted sums *)

Definition sumZ {A} (f : A → Z) (l : list A) : Z := foldr (λ x acc, f x + acc)%Z 0%Z l.

Arguments sumZ : simpl never.

Lemma sumZ_nil {A} (f : A → Z) : sumZ f [] = 0%Z.
Proof. reflexivity. Qed.

Lemma sumZ_cons {A} (f : A → Z) x l : sumZ f (x :: l) = (f x + sumZ f l)%Z.
Proof. reflexivity. Qed.

Lemma sumZ_ext {A} (f g : A → Z) l : (∀ x, x ∈ l → f x = g x) → sumZ f l = sumZ g l.
Proof.
  intros Hfg. induction l as [|x l IH]; [done|]. rewrite !sumZ_cons, Hfg by left.
  rewrite IH; [done|]. intros y Hy. apply Hfg. by right.
Qed.

Lemma sumZ_add {A} (f g : A → Z) l : sumZ (λ x, f x + g x)%Z l = (sumZ f l + sumZ g l)%Z.
Proof. induction l as [|x l IH]; [done|]. rewrite !sumZ_cons, IH. lia. Qed.

Lemma sumZ_zero {A} (l : list A) : sumZ (λ _, 0%Z) l = 0%Z.
Proof. induction l as [|x l IH]; [done|]. by rewrite sumZ_cons, IH. Qed.

Lemma sumZ_omap {A B} (k : A → option B) (h : B → Z) l :
  sumZ h (omap k l) = sumZ (λ x, default 0%Z (h <$> k x)) l.
Proof.
  induction l as [|x l IH]; [done|]. cbn. rewrite sumZ_cons, <-IH. by destruct (k x).
Qed.

Lemma sumZ_filter {A} (P : A → Prop) `{!∀ x, Decision (P x)} l :
  sumZ (λ x, if decide (P x) then 1%Z else 0%Z) l = Z.of_nat (length (filter P l)).
Proof.
  induction l as [|x l IH]; [done|]. rewrite sumZ_cons, IH, filter_cons.
  case_decide; cbn [length]; lia.
Qed.

(** One term of a sum over a list without duplicates. *)
Lemma sumZ_single {A} `{EqDecision A} (x : A) (c : Z) l :
  NoDup l → x ∈ l → sumZ (λ y, if decide (x = y) then c else 0%Z) l = c.
Proof.
  induction l as [|y l IH]; intros Hnd Hin; [by apply elem_of_nil in Hin|].
  apply NoDup_cons in Hnd as [Hy Hnd]. rewrite sumZ_cons. destruct (decide (x = y)) as [->|Hne].
  - rewrite (sumZ_ext _ (λ _, 0%Z)), sumZ_zero; [lia|].
    intros z Hz. rewrite decide_False; [done|]. by intros ->.
  - apply elem_of_cons in Hin as [?|Hin]; [done|]. by rewrite IH.
Qed.

Section replicas.
Context (answer : Z → Response).

Definition weight (ids : list Z) (r : Response) : Z :=
  Z.of_nat (length (filter (λ id, answer id = r) ids)).

(** Summing over distinct responses with their weights is summing over the
    replicas. *)
Lemma sumZ_weight (F : Response → Z) ds ids :
  NoDup ds → (∀ id, id ∈ ids → answer id ∈ ds) →
  sumZ (λ r, F r * weight ids r)%Z ds = sumZ (λ id, F (answer id)) ids.
Proof.
  intros Hnd. induction ids as [|id ids IH]; intros Hin.
  { rewrite (sumZ_ext _ (λ _, 0%Z)), sumZ_zero; [done|]. intros r _.
    unfold weight; cbn. lia. }
  rewrite sumZ_cons, <-IH by set_solver.
  rewrite <-(sumZ_single (answer id) (F (answer id)) ds) by (try done; set_solver).
  rewrite <-sumZ_add. apply sumZ_ext. intros r _. unfold weight. rewrite filter_cons.
  destruct (decide (answer id = r)) as [<-|]; cbn [length]; lia.
Qed.

(** What a read without quorum hands to [reconcile]. *)
Lemma weighted_omap {A} (g : Response → option A) (w : Response → Z) n ds ws :
  length ds ≤ n → length ws = n → (∀ i r, ds !! i = Some r → ws !! i = Some (w r)) →
  omap (λ e : option Response * Z, r ← e.1; (λ a, (a, e.2)) <$> g r)
    (zip ((Some <$> ds) ++ replicate (n - length ds) None) ws) =
  omap (λ r, (λ a, (a, w r)) <$> g r) ds.
Proof.
  revert n ws; induction ds as [|r ds IH]; intros n ws Hle Hws Hw.
  - cbn. rewrite Nat.sub_0_r. clear Hle Hw. revert ws Hws; induction n as [|n IHn]; intros [|z ws] Hws;
      try done. cbn. apply IHn. by injection Hws.
  - destruct n as [|n]; cbn in Hle; [lia|]. destruct ws as [|z ws]; [done|].
    pose proof (Hw 0 r eq_refl) as [= ->]. cbn. rewrite (IH n ws); [done|lia|by injection Hws|].
    intros i. apply (Hw (S i)).
Qed.
End replicas.

(** * The order of fields *)

#[export] Instance field_le_total : Total field_le.
Proof. intros a b. apply bytes_le_total. Qed.

#[export] Instance field_le_trans : Transitive field_le.
Proof. intros a b c. apply bytes_le_trans. Qed.

(** Strictly increasing fields. *)
Definition field_lt (a b : MapEntry) : Prop := field_le a b ∧ entry_field a ≠ entry_field b.

Lemma sorted_strict l :
  StronglySorted field_le l → NoDup (entry_field <$> l) → StronglySorted field_lt l.
Proof.
  induction 1 as [|x l Hs IH Hall]; [constructor|]. rewrite fmap_cons.
  intros [Hx Hnd]%NoDup_cons. constructor; [by apply IH|].
  apply Forall_forall. intros y Hy. split; [by eapply Forall_forall in Hall|].
  intros Heq. apply Hx. rewrite Heq. by apply list_elem_of_fmap_2.
Qed.

(** A strictly sorted list is determined by its elements. *)
Lemma strictly_sorted_unique l1 l2 :
  StronglySorted field_lt l1 → StronglySorted field_lt l2 → (∀ e, e ∈ l1 ↔ e ∈ l2) → l1 = l2.
Proof.
  assert (∀ x y l, StronglySorted field_lt (x :: l) → y ∈ x :: l → x = y ∨ field_lt x y) as Hmin.
  { intros x y l [_ Hall]%StronglySorted_inv [->|Hy]%elem_of_cons; [by left|right].
    by eapply Forall_forall in Hall. }
  intros H1; revert l2; induction H1 as [|x l1 Hs1 IH Hall1]; intros l2 Hs2 Heq.
  { destruct l2 as [|y l2]; [done|]. specialize (Heq y). set_solver. }
  destruct l2 as [|y l2]; [specialize (Heq x); set_solver|].
  assert (x = y) as ->.
  { destruct (Hmin x y l1) as [?|[Hxy Hne]]; [by constructor|apply Heq; left|done|].
    destruct (Hmin y x l2) as [?|[Hyx _]]; [done|apply Heq; left|done|].
    destruct Hne. by apply (anti_symm bytes_le). }
  f_equal. apply StronglySorted_inv in Hs2 as [Hs2 Hall2]. apply IH; [done|].
  assert (∀ l, Forall (field_lt y) l → y ∉ l) as Hirr.
  { intros l Hl Hy. eapply Forall_forall in Hl; [|exact Hy]. by destruct Hl as [_ []]. }
  pose proof (Hirr _ Hall1). pose proof (Hirr _ Hall2).
  intros e. specialize (Heq e). set_solver.
Qed.

(** * Reconciliation over the replicas *)

Definition page_of (r : Response) : option MapPage :=
  match r with ROk (OutMapPage page) => Some page | _ => None end.
Definition card_of (r : Response) : option Z :=
  match r with ROk (OutCardinality card) => Some card | _ => None end.

(** The pages (cardinalities) of the replicas, one per replica that gave one. *)
Definition replica_pages (answer : Z → Response) ids : list MapPage :=
  omap (λ id, page_of (answer id)) ids.
Definition replica_cards (answer : Z → Response) ids : list Z :=
  omap (λ id, card_of (answer id)) ids.

(** The pages with an entry. *)
Definition reporting (e : MapEntry) (pages : list MapPage) : list MapPage :=
  filter (λ p, e ∈ page_entries p) pages.

(** A replica's page is sorted by field, so no field occurs twice. *)
Definition pages_ok (pages : list MapPage) : Prop :=
  ∀ p, p ∈ pages → NoDup (entry_field <$> page_entries p).

Section reconcile.
Context (answer : Z → Response) (ids : list Z) (ds : list Response)
  (Hds : NoDup ds) (Hcover : ∀ id, id ∈ ids → answer id ∈ ds).

Definition weighted {A} (g : Response → option A) : list (A * Z) :=
  omap (λ r, (λ a, (a, weight answer ids r)) <$> g r) ds.

Lemma weighted_sum {A} (g : Response → option A) (h : A → Z) :
  sumZ (λ e, h e.1 * e.2)%Z (weighted g) = sumZ h (omap (λ id, g (answer id)) ids).
Proof.
  unfold weighted. rewrite !sumZ_omap.
  etrans; [|apply (sumZ_weight answer (λ r, default 0%Z (h <$> g r)) ds ids Hds Hcover)].
  apply sumZ_ext. intros r _. destruct (g r); cbn; lia.
Qed.

Lemma sum_weights_pages :
  sum_weights (weighted page_of) = Z.of_nat (length (replica_pages answer ids)).
Proof.
  transitivity (sumZ (λ _ : MapPage, 1%Z) (replica_pages answer ids)).
  - unfold replica_pages. rewrite <-weighted_sum. apply (sumZ_ext snd). intros e _. lia.
  - induction (replica_pages answer ids); [done|]. rewrite sumZ_cons, IHl. cbn. lia.
Qed.

Lemma has_next_pages :
  foldr (λ p acc, (if page_has_next p.1 then p.2 else 0) + acc)%Z 0%Z (weighted page_of) =
  Z.of_nat (length (filter (λ p, page_has_next p = true) (replica_pages answer ids))).
Proof.
  rewrite <-sumZ_filter. unfold replica_pages. rewrite <-weighted_sum.
  apply (sumZ_ext (λ p, if page_has_next p.1 then p.2 else 0)%Z). intros [p w] _; cbn.
  case_decide as Hp; destruct (page_has_next p); try done; lia.
Qed.

Lemma filter_eq_length (e : MapEntry) l :
  NoDup l → length (filter (λ x, x = e) l) = if decide (e ∈ l) then 1 else 0.
Proof.
  induction l as [|x l IH]; [done|]. intros [Hx Hnd]%NoDup_cons. rewrite filter_cons.
  destruct (decide (x = e)) as [->|Hne].
  - cbn [length]. rewrite IH by done. rewrite decide_False by done.
    rewrite decide_True by left. done.
  - rewrite IH by done. destruct (decide (e ∈ l)); [rewrite decide_True by set_solver|
      rewrite decide_False by set_solver]; done.
Qed.

Lemma elem_of_weighted {A} (g : Response → option A) a w :
  (a, w) ∈ weighted g → ∃ r, r ∈ ds ∧ g r = Some a.
Proof.
  unfold weighted. rewrite list_elem_of_omap. intros (r & Hr & Hf).
  apply fmap_Some in Hf as (a' & Hg & [= -> _]). eauto.
Qed.

Lemma entry_weight_pages e (Hok : ∀ r p, r ∈ ds → page_of r = Some p →
    NoDup (entry_field <$> page_entries p)) :
  entry_weight (weighted page_of) e =
  Z.of_nat (length (reporting e (replica_pages answer ids))).
Proof.
  unfold reporting. rewrite <-sumZ_filter. unfold replica_pages. rewrite <-weighted_sum.
  apply (sumZ_ext (λ p, Z.of_nat (length (filter (λ x, x = e) (page_entries p.1))) * p.2)%Z).
  intros [p w] (r & Hr & Hp)%elem_of_weighted. cbn [fst snd]. rewrite filter_eq_length.
  - by case_decide.
  - by eapply NoDup_fmap_1, Hok.
Qed.
End reconcile.

(** Two entries with a majority of five pages each share a page. *)
Lemma reporting_share pages e1 e2 :
  length pages ≤ RF → MAJORITY_QUORUM_THRESHOLD ≤ length (reporting e1 pages) →
  MAJORITY_QUORUM_THRESHOLD ≤ length (reporting e2 pages) →
  ∃ p, p ∈ pages ∧ e1 ∈ page_entries p ∧ e2 ∈ page_entries p.
Proof.
  intros Hlen H1 H2. unfold reporting in *.
  destruct (decide (Exists (λ p, e1 ∈ page_entries p ∧ e2 ∈ page_entries p) pages)) as [Hex|Hno].
  { apply Exists_exists in Hex as (p & ? & ? & ?). eauto. }
  assert (length (filter (λ p, e1 ∈ page_entries p) pages) +
          length (filter (λ p, e2 ∈ page_entries p) pages) ≤ length pages) as Hle.
  { clear Hlen H1 H2. induction pages as [|p pages IH]; [done|].
    rewrite Exists_cons in Hno. rewrite !filter_cons.
    specialize (IH ltac:(tauto)). repeat case_decide; cbn [length]; try lia. tauto. }
  change RF with 5 in Hlen. change MAJORITY_QUORUM_THRESHOLD with 3 in *. lia.
Qed.

(** What a reconciled page is, over the pages of the replicas. *)
Record page_reconciled (pages : list MapPage) (page : MapPage) : Prop := {
  pr_sorted : StronglySorted field_lt (page_entries page);
  pr_entries e : e ∈ page_entries page ↔
    MAJORITY_QUORUM_THRESHOLD ≤ length (reporting e pages);
  pr_has_next : page_has_next page = true ↔
    MAJORITY_QUORUM_THRESHOLD ≤ length (filter (λ p, page_has_next p = true) pages);
}.

(** ... which determines it. *)
Lemma page_reconciled_unique pages p1 p2 :
  page_reconciled pages p1 → page_reconciled pages p2 → p1 = p2.
Proof.
  destruct p1 as [e1 n1], p2 as [e2 n2]. intros [S1 E1 N1] [S2 E2 N2]; cbn in *. f_equal.
  - apply strictly_sorted_unique; [done|done|]. intros e. by rewrite E1, E2.
  - apply eq_bool_prop_intro. rewrite !Is_true_true, N1, N2. done.
Qed.

Section reconcile_page.
Context (answer : Z → Response) (ids : list Z) (ds : list Response)
  (Hds : NoDup ds) (Hcover : ∀ r, r ∈ ds ↔ ∃ id, id ∈ ids ∧ answer id = r)
  (Hids : length ids ≤ RF).
Context (hashmap_iter : list MapEntry → list MapEntry) (hashmap_iter_perm : ∀ l, hashmap_iter l ≡ₚ l).

Lemma replica_pages_length : length (replica_pages answer ids) ≤ RF.
Proof.
  etrans; [|exact Hids]. unfold replica_pages. clear.
  induction ids as [|id l IH]; [done|]. cbn. destruct (page_of _); cbn; lia.
Qed.

Lemma reported_somewhere e :
  1 ≤ length (reporting e (replica_pages answer ids)) →
  e ∈ mjoin (page_entries ∘ fst <$> weighted answer ids ds page_of).
Proof.
  unfold reporting. destruct (filter _ _) as [|p l] eqn:Hf; [cbn; lia|]. intros _.
  assert (p ∈ filter (λ p, e ∈ page_entries p) (replica_pages answer ids))
    as [He Hp]%list_elem_of_filter by (rewrite Hf; left).
  apply list_elem_of_omap in Hp as (id & Hid & Hp).
  apply list_elem_of_join. exists (page_entries p). split; [done|]. apply list_elem_of_fmap.
  exists (p, weight answer ids (answer id)). split; [done|]. apply list_elem_of_omap.
  exists (answer id). split; [apply Hcover; eauto|]. by rewrite Hp.
Qed.

Lemma reconcile_map_page_spec responses weights :
  weighted_pages responses weights = weighted answer ids ds page_of →
  pages_ok (replica_pages answer ids) →
  let pages := replica_pages answer ids in
  if decide (MAJORITY_QUORUM_THRESHOLD ≤ length pages)
  then ∃ page, reconcile_map_page hashmap_iter responses weights = Some page ∧
    page_reconciled pages page
  else reconcile_map_page hashmap_iter responses weights = None.
Proof.
  intros Hw Hok pages. unfold reconcile_map_page. rewrite Hw.
  assert (∀ id, id ∈ ids → answer id ∈ ds) as Hc by (intros id ?; apply Hcover; eauto).
  rewrite sum_weights_pages, has_next_pages by done. fold pages.
  destruct (decide (MAJORITY_QUORUM_THRESHOLD ≤ length pages)) as [Hm|Hm];
    [rewrite decide_False by lia|by rewrite decide_True by lia].
  eexists; split; [reflexivity|].
  set (counted := hashmap_iter _).
  assert (∀ e, entry_weight (weighted answer ids ds page_of) e =
    Z.of_nat (length (reporting e pages))) as Hew.
  { intros e. apply entry_weight_pages; [done|done|]. intros r p Hr Hp.
    apply Hok. apply Hcover in Hr as (id & Hid & <-). apply list_elem_of_omap. eauto. }
  set (sel := filter _ counted).
  assert (∀ e, e ∈ sel ↔ MAJORITY_QUORUM_THRESHOLD ≤ length (reporting e pages)) as Hsel.
  { intros e. subst sel. rewrite list_elem_of_filter, Hew, <-Nat2Z.inj_le. split; [tauto|].
    intros He. split; [done|]. subst counted. rewrite hashmap_iter_perm, elem_of_remove_dups.
    apply reported_somewhere. etrans; [|exact He]. unfold MAJORITY_QUORUM_THRESHOLD. lia. }
  assert (NoDup sel) as Hnd.
  { apply NoDup_filter. subst counted. rewrite hashmap_iter_perm. apply NoDup_remove_dups. }
  pose proof (merge_sort_Permutation field_le sel) as Hperm.
  split; cbn [page_entries page_has_next].
  - apply sorted_strict; [apply (StronglySorted_merge_sort field_le)|].
    rewrite Hperm. apply NoDup_fmap_2_strong; [|done].
    intros e1 e2 H1%Hsel H2%Hsel Hf.
    destruct (reporting_share pages e1 e2 replica_pages_length H1 H2) as (p & Hp & Hi1 & Hi2).
    specialize (Hok p Hp). apply list_elem_of_lookup in Hi1 as [i Hi], Hi2 as [j Hj].
    assert (i = j) as ->; [|congruence].
    apply (NoDup_lookup _ i j (entry_field e1) Hok); rewrite list_lookup_fmap, ?Hi, ?Hj; cbn;
      congruence.
  - intros e. by rewrite Hperm.
  - rewrite bool_decide_eq_true. lia.
Qed.
End reconcile_page.

(** * Cardinalities *)

#[export] Instance card_le_total : Total card_le.
Proof. intros [a x] [b y]. unfold card_le; cbn. lia. Qed.
#[export] Instance card_le_trans : Transitive card_le.
Proof. intros [a x] [b y] [c z]. unfold card_le; cbn. lia. Qed.

Lemma sumZ_app {A} (f : A → Z) l k : sumZ f (l ++ k) = (sumZ f l + sumZ f k)%Z.
Proof. induction l as [|x l IH]; [done|]. rewrite <-app_comm_cons, !sumZ_cons, IH. lia. Qed.

Lemma sumZ_perm {A} (f : A → Z) l k : l ≡ₚ k → sumZ f l = sumZ f k.
Proof. induction 1; rewrite ?sumZ_cons; lia || congruence. Qed.

Lemma sumZ_mono {A} (f g : A → Z) l :
  (∀ x, x ∈ l → f x ≤ g x)%Z → (sumZ f l ≤ sumZ g l)%Z.
Proof.
  intros Hfg. induction l as [|x l IH]; [done|]. rewrite !sumZ_cons.
  pose proof (Hfg x ltac:(left)). specialize (IH (λ y Hy, Hfg y (list_elem_of_further _ _ _ Hy))). lia.
Qed.

(** Where the running weight reaches the threshold. *)
Lemma pick_card_spec l t :
  (∀ e, e ∈ l → 0 ≤ e.2)%Z → (0 ≤ t < Z.of_nat MAJORITY_QUORUM_THRESHOLD)%Z →
  (t + sumZ snd l < 256)%Z →
  match pick_card t l with
  | Some c => ∃ l1 w l2, l = l1 ++ (c, w) :: l2 ∧
      (t + sumZ snd l1 < Z.of_nat MAJORITY_QUORUM_THRESHOLD ≤ t + sumZ snd l1 + w)%Z
  | None => (t + sumZ snd l < Z.of_nat MAJORITY_QUORUM_THRESHOLD)%Z
  end.
Proof.
  revert t; induction l as [|[c w] l IH]; intros t Hpos Ht Hsum; cbn [pick_card].
  { rewrite sumZ_nil. lia. }
  rewrite sumZ_cons in Hsum; cbn [snd] in Hsum.
  assert (0 ≤ w)%Z as Hw by (apply (Hpos (c, w)); left).
  assert (0 ≤ sumZ snd l)%Z as Hl.
  { rewrite <-(sumZ_zero l). apply sumZ_mono. intros e He. apply Hpos. by right. }
  rewrite wrap_small by (unfold fits; lia). case_decide as Hd.
  - exists [], w, l. split; [done|]. rewrite sumZ_nil. lia.
  - specialize (IH (t + w)%Z). destruct (pick_card (t + w) l) as [c'|].
    + destruct IH as (l1 & w' & l2 & -> & Hb); [intros e He; apply Hpos; by right|lia|lia|].
      exists ((c, w) :: l1), w', l2. split; [done|]. rewrite sumZ_cons; cbn [snd]. lia.
    + rewrite sumZ_cons; cbn [snd]. rewrite Z.add_assoc. apply IH; [|lia|lia].
      intros e He. apply Hpos. by right.
Qed.

(** The weight behind the cardinalities with a property. *)
Definition weight_where (P : Z → Prop) `{!∀ x, Decision (P x)} (l : list (Z * Z)) : Z :=
  sumZ (λ e : Z * Z, (if decide (P e.1) then 1 else 0) * e.2)%Z l.

Lemma weight_where_perm P `{!∀ x, Decision (P x)} l k : l ≡ₚ k → weight_where P l = weight_where P k.
Proof. apply sumZ_perm. Qed.

(** The cardinality picked from a list sorted by cardinality is its weighted
    median. *)
Lemma weighted_median l1 l2 c w :
  (∀ e, e ∈ l1 ++ (c, w) :: l2 → 0 ≤ e.2)%Z →
  StronglySorted card_le (l1 ++ (c, w) :: l2) →
  (weight_where (λ x, x < c) (l1 ++ (c, w) :: l2) ≤ sumZ snd l1)%Z ∧
  (sumZ snd l1 + w ≤ weight_where (λ x, x ≤ c) (l1 ++ (c, w) :: l2))%Z.
Proof.
  intros Hpos Hs. unfold weight_where. rewrite !sumZ_app, !sumZ_cons; cbn [fst snd].
  assert (∀ e, e ∈ l1 → e.1 ≤ c)%Z as H1.
  { intros e He. pose proof (StronglySorted_app_1_elem_of _ _ _ e (c, w) Hs He ltac:(left)) as [?|[? _]];
      cbn in *; lia. }
  assert (∀ e, e ∈ l2 → c ≤ e.1)%Z as H2.
  { intros e He. apply StronglySorted_app_1_r, StronglySorted_inv in Hs as [_ Hall].
    eapply Forall_forall in Hall; [|exact He]. destruct Hall as [?|[? _]]; cbn in *; lia. }
  rewrite (decide_False (P := (c < c)%Z)) by lia. rewrite (decide_True (P := (c ≤ c)%Z)) by lia.
  split.
  - assert (sumZ (λ e, (if decide (e.1 < c) then 1 else 0) * e.2) l1 ≤ sumZ snd l1)%Z.
    { apply sumZ_mono. intros e He. assert (0 ≤ e.2)%Z by (apply Hpos; set_solver).
      case_decide; lia. }
    rewrite (sumZ_ext (λ e, (if decide (e.1 < c) then 1 else 0) * e.2)%Z (λ _, 0%Z) l2), sumZ_zero; [lia|].
    intros e He. specialize (H2 e He). rewrite decide_False by lia. lia.
  - assert (sumZ snd l1 ≤ sumZ (λ e, (if decide (e.1 ≤ c) then 1 else 0) * e.2) l1)%Z.
    { apply sumZ_mono. intros e He. specialize (H1 e He). rewrite decide_True by lia. lia. }
    assert (0 ≤ sumZ (λ e, (if decide (e.1 ≤ c) then 1 else 0) * e.2) l2)%Z; [|lia].
    transitivity (sumZ (λ _, 0%Z) l2); [by rewrite sumZ_zero|]. apply sumZ_mono. intros e He.
    assert (0 ≤ e.2)%Z by (apply Hpos; set_solver). cbn beta. case_decide; lia.
Qed.

(** The third smallest of the replicas' cardinalities. *)
Record card_reconciled (cards : list Z) (c : Z) : Prop := {
  cr_member : c ∈ cards;
  cr_at_least : MAJORITY_QUORUM_THRESHOLD ≤ length (filter (λ x, x ≤ c)%Z cards);
  cr_below : length (filter (λ x, x < c)%Z cards) < MAJORITY_QUORUM_THRESHOLD;
}.

Section reconcile_card.
Context (answer : Z → Response) (ids : list Z) (ds : list Response)
  (Hds : NoDup ds) (Hcover : ∀ r, r ∈ ds ↔ ∃ id, id ∈ ids ∧ answer id = r)
  (Hids : length ids ≤ RF).

Lemma weight_where_cards P `{!∀ x, Decision (P x)} :
  weight_where P (weighted answer ids ds card_of) =
  Z.of_nat (length (filter P (replica_cards answer ids))).
Proof.
  unfold weight_where, replica_cards. rewrite <-sumZ_filter.
  set (h := λ x, if decide (P x) then 1%Z else 0%Z). change (sumZ (λ e, h e.1 * e.2)%Z
    (weighted answer ids ds card_of) = sumZ h (omap (λ id, card_of (answer id)) ids)).
  apply weighted_sum; [done|]. intros id Hid. apply Hcover. eauto.
Qed.

Lemma weighted_cards_total :
  sumZ snd (weighted answer ids ds card_of) = Z.of_nat (length (replica_cards answer ids)).
Proof.
  transitivity (weight_where (λ _, True) (weighted answer ids ds card_of)).
  - apply sumZ_ext. intros e _. rewrite decide_True by done. lia.
  - rewrite weight_where_cards. do 2 f_equal. 
    induction (replica_cards answer ids) as [|x l IH]; [done|].
    rewrite filter_cons_True by done. by rewrite IH.
Qed.

Lemma replica_cards_length : length (replica_cards answer ids) ≤ RF.
Proof.
  etrans; [|exact Hids]. unfold replica_cards. clear.
  induction ids as [|id l IH]; [done|]. cbn. destruct (card_of _); cbn; lia.
Qed.

Lemma reconcile_cardinality_spec responses weights :
  weighted_cards responses weights = weighted answer ids ds card_of →
  let cards := replica_cards answer ids in
  if decide (MAJORITY_QUORUM_THRESHOLD ≤ length cards)
  then ∃ c, reconcile_map_cardinality responses weights = Some c ∧ card_reconciled cards c
  else reconcile_map_cardinality responses weights = None.
Proof.
  intros Hw cards. unfold reconcile_map_cardinality. rewrite Hw.
  pose proof (merge_sort_Permutation card_le (weighted answer ids ds card_of)) as Hperm.
  pose proof (StronglySorted_merge_sort card_le (weighted answer ids ds card_of)) as Hsort.
  set (l := merge_sort card_le (weighted answer ids ds card_of)) in *.
  assert (sumZ snd l = Z.of_nat (length cards)) as Hsum.
  { rewrite (sumZ_perm _ _ _ Hperm). apply weighted_cards_total. }
  assert (∀ e, e ∈ l → 0 ≤ e.2)%Z as Hpos.
  { intros e. rewrite Hperm. unfold weighted. rewrite list_elem_of_omap.
    intros (r & _ & Hr). apply fmap_Some in Hr as (a & _ & ->). cbn. unfold weight. lia. }
  pose proof (pick_card_spec l 0 Hpos) as Hpick. rewrite Hsum in Hpick.
  pose proof replica_cards_length as Hle. fold cards in Hle. change RF with 5 in Hle.
  change MAJORITY_QUORUM_THRESHOLD with 3 in *.
  specialize (Hpick ltac:(lia) ltac:(lia)).
  destruct (pick_card 0 l) as [c|].
  - destruct Hpick as (l1 & w & l2 & Hl & Hb).
    rewrite Hl in Hpos, Hsort. destruct (weighted_median l1 l2 c w Hpos Hsort) as [Hlt Hge].
    assert (l1 ++ (c, w) :: l2 ≡ₚ weighted answer ids ds card_of) as Hp by (by rewrite <-Hl).
    rewrite (weight_where_perm _ _ _ Hp), weight_where_cards in Hlt.
    rewrite (weight_where_perm _ _ _ Hp), weight_where_cards in Hge. fold cards in Hlt, Hge.
    pose proof (length_filter (λ x, x ≤ c)%Z cards).
    rewrite decide_True by lia. exists c. split; [done|].
    split; [|change MAJORITY_QUORUM_THRESHOLD with 3; lia..].
    assert ((c, w) ∈ weighted answer ids ds card_of) as (r & Hr & Hc)%elem_of_weighted
      by (rewrite <-Hp; set_solver).
    apply Hcover in Hr as (id & Hid & <-). apply list_elem_of_omap. eauto.
  - rewrite decide_False by lia. done.
Qed.
End reconcile_card.

(** * Map operations of the coordinator *)
Section reconcile_callback.
Context `{PeerIds, HashingLaws} {N : Type}.
Context (hash_key : list Z → Z) (hash_key_u64 : ∀ key, fits 64 (hash_key key)).
Context (hashmap_iter : list MapEntry → list MapEntry) (hashmap_iter_perm : ∀ l, hashmap_iter l ≡ₚ l).
Implicit Types view : View N Shards.

Lemma take_buffer ds :
  length ds ≤ RF →
  take RF (buffer RESPONSE_BUFFER_LEN ds) = (Some <$> ds) ++ replicate (RF - length ds) None.
Proof.
  intros Hle. unfold buffer. rewrite take_app, length_fmap, take_replicate.
  rewrite take_ge by (rewrite length_fmap; done). do 2 f_equal.
  unfold RESPONSE_BUFFER_LEN. lia.
Qed.

(** A read without quorum has waited for every replica. *)
Lemma read_exhausted answer prs items (lr : LoopResult N) consumed ds :
  replica_set_ok prs → answers_all answer prs items →
  loop_post prs None [] items lr consumed ds → lr_idx lr = None →
  NoDup ds ∧ (∀ r, r ∈ ds ↔ ∃ id, id ∈ replica_ids prs ∧ answer id = r) ∧
  ∀ A (g : Response → option A),
    omap (λ e : option Response * Z, r ← e.1; (λ a, (a, e.2)) <$> g r)
      (zip (take RF (lr_responses lr)) (take RF (q_replicas_per_response (lr_primary lr)))) =
    weighted answer (replica_ids prs) ds g.
Proof.
  intros Hok Hans [Hit Hbuf Hinv _ Hnone] Hidx. destruct Hinv as [_ Hq _ Hds Hlen Hseen].
  destruct (Hnone Hidx) as [[Hrest _]|(rs & ? & ? & [=] & _)].
  cbn in Hit. rewrite Hrest, app_nil_r in Hit. subst consumed.
  assert (∀ r, r ∈ ds ↔ ∃ id, id ∈ replica_ids prs ∧ answer id = r) as Hcover.
  { intros r. rewrite Hseen, (Hans : items ≡ₚ _), <-list_fmap_compose. unfold replica_ids.
    rewrite list_elem_of_fmap. setoid_rewrite list_elem_of_fmap. cbn. naive_solver. }
  split_and!; [done|done|]. intros A g. rewrite Hbuf.
  assert (length ds ≤ RF) as Hle.
  { etrans; [exact Hlen|]. rewrite (Permutation_length Hans), length_fmap. by destruct Hok as [-> _]. }
  rewrite take_buffer by done. apply weighted_omap; [done| |].
  - rewrite length_take, (qi_counts_len _ _ _ _ Hq). unfold RESPONSE_BUFFER_LEN. lia.
  - intros i r Hi. rewrite lookup_take_lt by (apply lookup_lt_Some in Hi; lia).
    rewrite (qi_count _ _ _ _ Hq i r Hi). f_equal. unfold weight. f_equal. destruct Hok as [_ Hnd].
    by apply (votes_supporters answer prs items prs r).
Qed.

Lemma weighted_pages_eq responses weights :
  weighted_pages responses weights =
  omap (λ e : option Response * Z, r ← e.1; (λ a, (a, e.2)) <$> page_of r) (zip responses weights).
Proof.
  unfold weighted_pages. induction (zip responses weights) as [|[r w] l IH]; [done|].
  cbn. rewrite IH. by destruct r as [[[]|]|].
Qed.

Lemma weighted_cards_eq responses weights :
  weighted_cards responses weights =
  omap (λ e : option Response * Z, r ← e.1; (λ a, (a, e.2)) <$> card_of r) (zip responses weights).
Proof.
  unfold weighted_cards. induction (zip responses weights) as [|[r w] l IH]; [done|].
  cbn. rewrite IH. by destruct r as [[[]|]|].
Qed.

(** The response of a map operation without a quorum. *)
Lemma callback_reconciled now view peer operation arrive answer :
  view_wf view → authorized view peer operation →
  (∀ requests, answers_all answer requests (arrive requests (stamped now view operation))) →
  is_write operation = false →
  ∃ prs cb,
    primary_replica_set (E := Empty_set) view (hash_key (op_key operation)) = Ok prs ∧
    execute_callback (E := Empty_set) hash_key hashmap_iter arrive now view peer operation = Ok cb ∧
    replica_set_ok prs ∧
    ((¬ ∃ r, quorate answer prs r) → ∃ ds responses weights,
      NoDup ds ∧ (∀ r, r ∈ ds ↔ ∃ id, id ∈ replica_ids prs ∧ answer id = r) ∧
      cb_response cb = default (RErr (error_new Internal))
        (ROk <$> reconcile hashmap_iter (stamped now view operation) responses weights) ∧
      weighted_pages responses weights = weighted answer (replica_ids prs) ds page_of ∧
      weighted_cards responses weights = weighted answer (replica_ids prs) ds card_of).
Proof.
  intros Hv Hauth Harr Hrd.
  destruct (callback_run hash_key hash_key_u64 hashmap_iter now view peer operation arrive answer
    Hv Hauth Harr)
    as (prs & srs & items & lr & consumed & ds & Hp & Hs & Hpok & Hsok & Hall & Hrun & Hpost).
  unfold secondary_set in Hs. rewrite Hrd in Hs. injection Hs as <-.
  eexists prs, _. split_and!; [exact Hp|exact Hrun|done|]. intros Hno.
  assert (lr_idx lr = None) as Hidx.
  { eapply lr_response_None; [exact Hpost|]. apply eq_None_not_Some. intros [r Hr].
    apply Hno. exists r. by apply (run_response answer prs None items Hpok Hsok Hall _ _ _ _ Hpost) in Hr as [? _]. }
  unfold replica_requests in Hall. rewrite app_nil_r in Hall.
  destruct (read_exhausted answer prs items lr consumed ds Hpok Hall Hpost Hidx)
    as (Hnd & Hcover & Hw).
  eexists ds, _, _. split_and!; [done|done| |by rewrite weighted_pages_eq, Hw|by rewrite weighted_cards_eq, Hw].
  unfold coordinator_finish. rewrite Hidx. cbn [cb_response].
  replace (is_write (stamped now view operation)) with false by (by destruct operation).
  done.
Qed.

(** C21. A map scan without a quorum is reconciled entry by entry: if at least
    three replicas answered with a page, the response is a page with exactly the
    entries at least three of them reported, in strictly increasing order of
    their fields, that has a next page exactly when three replicas say so.  This
    determines the page: the order in which the hash map of counters is
    iterated, or an unstable sort, cannot be observed.  With fewer pages the
    scan fails with an internal error. *)
Theorem hscan_reconciled now view peer ns key count cursor kv arrive answer :
  let operation := HScan ns key count cursor kv in
  view_wf view → authorized view peer operation →
  (∀ requests, answers_all answer requests (arrive requests (stamped now view operation))) →
  ∃ prs cb,
    primary_replica_set (E := Empty_set) view (hash_key key) = Ok prs ∧
    execute_callback (E := Empty_set) hash_key hashmap_iter arrive now view peer operation = Ok cb ∧
    let pages := replica_pages answer (replica_ids prs) in
    (¬ (∃ r, quorate answer prs r) → pages_ok pages →
     if decide (MAJORITY_QUORUM_THRESHOLD ≤ length pages)
     then ∃ page, cb_response cb = ROk (OutMapPage page) ∧ page_reconciled pages page ∧
       ∀ page', page_reconciled pages page' → page' = page
     else cb_response cb = RErr (error_new Internal)).
Proof.
  intros operation Hv Hauth Harr.
  destruct (callback_reconciled now view peer operation arrive answer Hv Hauth Harr eq_refl)
    as (prs & cb & Hp & Hcb & [Hlen Hnd] & Hrec).
  exists prs, cb. split_and!; [done|done|]. intros pages Hno Hok.
  destruct (Hrec Hno) as (ds & responses & weights & Hds & Hcover & Hresp & Hw & _).
  assert (length (replica_ids prs) ≤ RF) as Hids by (unfold replica_ids; by rewrite length_fmap, Hlen).
  pose proof (reconcile_map_page_spec answer (replica_ids prs) ds Hds Hcover Hids hashmap_iter
    hashmap_iter_perm responses weights Hw Hok) as Hpage. cbn zeta in Hpage. fold pages in Hpage.
  unfold operation, stamped in Hresp. cbn [set_keyspace_version reconcile] in Hresp.
  destruct (decide _).
  - destruct Hpage as (page & Hpg & Hpr). rewrite Hpg in Hresp. exists page.
    split_and!; [done|done|]. intros page' Hp'. by eapply page_reconciled_unique.
  - by rewrite Hpage in Hresp.
Qed.

(** A cardinality without a quorum is the median: if at least three
    replicas answered with a cardinality, the response is the third smallest of
    their values (one of them; at least three are at most it, fewer than three
    below it); with fewer answers the operation fails with an internal error. *)
Theorem hcard_reconciled now view peer ns key kv arrive answer :
  let operation := HCard ns key kv in
  view_wf view → authorized view peer operation →
  (∀ requests, answers_all answer requests (arrive requests (stamped now view operation))) →
  ∃ prs cb,
    primary_replica_set (E := Empty_set) view (hash_key key) = Ok prs ∧
    execute_callback (E := Empty_set) hash_key hashmap_iter arrive now view peer operation = Ok cb ∧
    let cards := replica_cards answer (replica_ids prs) in
    (¬ (∃ r, quorate answer prs r) →
     if decide (MAJORITY_QUORUM_THRESHOLD ≤ length cards)
     then ∃ c, cb_response cb = ROk (OutCardinality c) ∧ card_reconciled cards c
     else cb_response cb = RErr (error_new Internal)).
Proof.
  intros operation Hv Hauth Harr.
  destruct (callback_reconciled now view peer operation arrive answer Hv Hauth Harr eq_refl)
    as (prs & cb & Hp & Hcb & [Hlen Hnd] & Hrec).
  exists prs, cb. split_and!; [done|done|]. intros cards Hno.
  destruct (Hrec Hno) as (ds & responses & weights & Hds & Hcover & Hresp & _ & Hw).
  assert (length (replica_ids prs) ≤ RF) as Hids by (unfold replica_ids; by rewrite length_fmap, Hlen).
  pose proof (reconcile_cardinality_spec answer (replica_ids prs) ds Hds Hcover Hids
    responses weights Hw) as Hcard. cbn zeta in Hcard. fold cards in Hcard.
  unfold operation, stamped in Hresp. cbn [set_keyspace_version reconcile] in Hresp.
  destruct (decide _).
  - destruct Hcard as (c & Hc & Hcr). rewrite Hc in Hresp. by exists c.
  - by rewrite Hcard in Hresp.
Qed.
End reconcile_callback.

(** * Witnesses: five replicas that all answer differently *)

#[local] Existing Instance toy_peer_ids.
#[local] Existing Instance toy_hashing.
#[local] Existing Instance toy_hashing_laws.

Definition toy_entry (z : Z) : MapEntry :=
  {| entry_field := [z]; entry_record :=
       {| rec_value := [z]; rec_expiration := 9%Z; rec_version := 1%Z |} |}.

(** Replica [id] misses the entries above [id]. *)
Definition partial_page (id : Z) : Response :=
  ROk (OutMapPage {| page_entries := toy_entry <$> filter (λ z, z ≤ id)%Z [1; 2; 3; 4; 5]%Z;
                     page_has_next := false |}).
Definition partial_card (id : Z) : Response := ROk (OutCardinality (10 * id)).

Definition toy_scan : Operation := HScan toy_ns [1]%Z 10 None None.
Definition toy_card : Operation := HCard toy_ns [1]%Z None.

Lemma no_quorum answer (prs : list (NodeOperator Z)) :
  replica_ids prs ≡ₚ [1; 2; 3; 4; 5]%Z →
  (∀ i j, i ∈ [1; 2; 3; 4; 5]%Z → j ∈ [1; 2; 3; 4; 5]%Z → answer i = answer j → i = j) →
  ¬ ∃ r, quorate answer prs r.
Proof.
  intros Hids Hinj (r & Hq%(toy_quorate answer prs r Hids)).
  assert (NoDup (filter (λ id, answer id = r) [1; 2; 3; 4; 5]%Z)) as Hnd.
  { apply NoDup_filter. repeat constructor; set_solver. }
  destruct (filter _ _) as [|i [|j l]] eqn:Hf; cbn in Hq; [lia..|].
  assert (∀ k, k ∈ i :: j :: l → answer k = r ∧ k ∈ [1; 2; 3; 4; 5]%Z) as Hk.
  { intros k. rewrite <-Hf, list_elem_of_filter. done. }
  destruct (Hk i ltac:(left)) as [Hi Hi']. destruct (Hk j ltac:(right; left)) as [Hj Hj'].
  apply NoDup_cons in Hnd as [Hn _]. apply Hn. rewrite (Hinj i j Hi' Hj' ltac:(congruence)). left.
Qed.

Lemma partial_pages_ok ids : pages_ok (replica_pages partial_page ids).
Proof.
  intros p (id & _ & Hp)%list_elem_of_omap. injection Hp as <-. cbn [page_entries].
  rewrite <-list_fmap_compose. apply (NoDup_fmap_2 (λ z, [z])), NoDup_filter.
  repeat constructor; set_solver.
Qed.

Lemma hscan_reconciled_witness :
  ∃ (v : View Z Shards) cb page, view_wf v ∧
    execute_callback (E := Empty_set) toy_hash_key toy_map_iter (toy_arrive partial_page)
      0 v 103%Z toy_scan = Ok cb ∧ cb_response cb = ROk (OutMapPage page) ∧
    page_reconciled (replica_pages partial_page [1; 2; 3; 4; 5]%Z) page.
Proof.
  destruct toy_shards_exist as (ks & Hops & Hwf). exists (six_view ks).
  assert (view_wf (six_view ks)) as Hv by (by apply six_view_wf).
  destruct (hscan_reconciled toy_hash_key toy_hash_u64 toy_map_iter (λ l, reflexivity l) 0
    (six_view ks) 103%Z toy_ns [1]%Z 10 None None (toy_arrive partial_page) partial_page Hv
    (toy_authorized (six_view ks) toy_scan eq_refl eq_refl) (toy_arrive_all _ _))
    as (prs & cb & Hp & Hcb & Hrec).
  exists cb. pose proof (toy_replicas ks prs Hops Hv Hp) as Hids.
  pose proof (omap_Permutation (λ id, page_of (partial_page id)) _ _ Hids) as Hpages.
  fold (replica_pages partial_page (replica_ids prs)) in Hpages.
  cbn zeta in Hrec. rewrite decide_True in Hrec by (rewrite Hpages; vm_compute; lia).
  destruct Hrec as (page & Hpage & [Hs He Hn] & _).
  - apply no_quorum; [exact Hids|]. intros i j Hi Hj. rewrite !elem_of_cons, elem_of_nil in Hi, Hj.
    intros Heq. destruct_or!; subst; done.
  - apply partial_pages_ok.
  - exists page. split; [exact Hv|]. split; [exact Hcb|]. split; [exact Hpage|].
    split; [exact Hs| |].
    + intros e. rewrite He. unfold reporting. by rewrite Hpages.
    + rewrite Hn. by rewrite Hpages.
Defined.

Lemma hcard_reconciled_witness :
  ∃ (v : View Z Shards) cb, view_wf v ∧
    execute_callback (E := Empty_set) toy_hash_key toy_map_iter (toy_arrive partial_card)
      0 v 103%Z toy_card = Ok cb ∧ cb_response cb = ROk (OutCardinality 30).
Proof.
  destruct toy_shards_exist as (ks & Hops & Hwf). exists (six_view ks).
  assert (view_wf (six_view ks)) as Hv by (by apply six_view_wf).
  destruct (hcard_reconciled toy_hash_key toy_hash_u64 toy_map_iter 0
    (six_view ks) 103%Z toy_ns [1]%Z None (toy_arrive partial_card) partial_card Hv
    (toy_authorized (six_view ks) toy_card eq_refl eq_refl) (toy_arrive_all _ _))
    as (prs & cb & Hp & Hcb & Hrec).
  exists cb. pose proof (toy_replicas ks prs Hops Hv Hp) as Hids.
  pose proof (omap_Permutation (λ id, card_of (partial_card id)) _ _ Hids) as Hcards.
  fold (replica_cards partial_card (replica_ids prs)) in Hcards.
  cbn zeta in Hrec. rewrite decide_True in Hrec by (rewrite Hcards; vm_compute; lia).
  destruct Hrec as (c & Hc & [Hm Hge Hlt]).
  - apply no_quorum; [exact Hids|]. intros i j _ _ [= Heq]. lia.
  - split; [exact Hv|]. split; [exact Hcb|]. rewrite Hc. do 2 f_equal.
    rewrite Hcards in Hm, Hge, Hlt. cbn [omap list_omap card_of partial_card] in Hm, Hge, Hlt.
    rewrite !elem_of_cons, elem_of_nil in Hm. destruct_or!; subst c; try done;
      vm_compute in Hge, Hlt; lia.
Defined.
