(* ===== verification/Replica.v ===== *)
(** Replica: the replica in front of a database and its connection to the
    coordinator (src/crates/replication/src/replica/mod.rs,
    src/crates/storage_api/src/rpc).

    A replica checks the keyspace version of an operation against its own view
    and clock and forwards it to its database.  Over the RPC layer the output is
    downcast to the type of the RPC and errors become error codes.  The main
    theorem composes the coordinator, the RPC layer and the replicas. *)
From S2P Require Import Prelude External Sharding SmartContract NodeOperator NodeOperators.
From S2P Require Import Keyspace Settings Migration View Concrete ViewTime ViewInvariant.
From S2P Require Import StorageApi Coordinator QuorumProofs CoordinatorProofs.
From stdpp Require Import prelude gmap sets list strings.

(** * The RPC layer *)

(** The response type of each RPC. *)
Inductive OutputKind := KRecord | KExpiration | KMapPage | KCardinality | KNone.

#[export] Instance OutputKind_eq_dec : EqDecision OutputKind.
Proof. solve_decision. Defined.

Definition rpc_output_kind (op : Operation) : OutputKind :=
  match op with
  | Get _ _ _ | HGet _ _ _ _ => KRecord
  | GetExp _ _ _ | HGetExp _ _ _ _ => KExpiration
  | SetOp _ _ _ _ | Del _ _ _ _ | SetExp _ _ _ _ _ | HSet _ _ _ _ | HDel _ _ _ _ _
  | HSetExp _ _ _ _ _ _ => KNone
  | HCard _ _ _ => KCardinality
  | HScan _ _ _ _ _ => KMapPage
  end.

Definition output_kind (out : Output) : OutputKind :=
  match out with
  | OutRecord _ => KRecord
  | OutExpiration _ => KExpiration
  | OutMapPage _ => KMapPage
  | OutCardinality _ => KCardinality
  | OutNone => KNone
  end.

(** [TryInto] to the response type of the RPC; the wire carries the value, which
    [into] turns back into the same [Output]. *)
Definition downcast (op : Operation) (out : Output) : option Output :=
  if decide (output_kind out = rpc_output_kind op) then Some out else None.

(** [execute_ref] of a connection: [transport] is [Some] when the RPC itself
    fails; [fmt] renders unexpected error codes. *)
Definition connection_execute_ref (fmt : Z → string) (transport : option string)
    (serve : Operation → Response) (op : Operation) : Response :=
  match transport with
  | Some err =>
      RErr (error_with_message (error_new Transport) ("wcn_rpc::client::Error: " +:+ err))
  | None =>
      match responder_result (downcast op) (serve op) with
      | inl out => ROk out
      | inr err => RErr (error_from_rpc fmt err)
      end
  end.

(** * The replica *)
Section replica.
Context `{PeerIds} {N S : Type}.
Implicit Types view : View N S.

(** [Replica::new_inbound_connection] and [Coordinator::new_inbound_connection],
    through [Factory::new_storage_api]. *)
Definition replica_new_storage_api (node_peer_id : N → PeerId) view (peer : PeerId)
    : res Error () :=
  ensure (contains_node node_peer_id (v_node_operators view) peer) (error_new Unauthorized).

Definition coordinator_new_storage_api view (peer : PeerId) : res Error () :=
  ensure (contains_client (v_node_operators view) peer) (error_new Unauthorized).

(** [execute_ref]; [show] renders an error for the message. *)
Definition replica_execute_ref (show : Error → string) (database : Operation → Response)
    (now : Z) view (operation : Operation) : Response :=
  match op_keyspace_version operation with
  | Some version =>
      if validate_storage_operation now view version then
        match database operation with
        | ROk out => ROk out
        | RErr err =>
            RErr (error_with_message (error_new Internal) ("Database error: " +:+ show err))
        end
      else RErr (error_new KeyspaceVersionMismatch)
  | None => RErr (error_new KeyspaceVersionMismatch)
  end.

(** [read_data]: the stream of the database, passed on unchanged. *)
Definition replica_read_data {D} (database : Z * Z → Z → res Error D)
    (now : Z) view (keyrange : Z * Z) (keyspace_version : Z) : res Error D :=
  if validate_data_pull now view keyspace_version
  then database keyrange keyspace_version
  else Err (error_new KeyspaceVersionMismatch).
End replica.

(** * Composition *)
Section composition.
Context `{PeerIds, HashingLaws} {N : Type}.
Context (hash_key : list Z → Z) (hash_key_u64 : ∀ key, fits 64 (hash_key key)).
Context (hashmap_iter : list MapEntry → list MapEntry).
Context (fmt : Z → string) (show : Error → string).
Implicit Types view : View N Shards.

(** A deployment: per operator, its clock, its database and whether the RPC to
    it fails. *)
Record Deployment := {
  dep_clock : Z → Z;
  dep_database : Z → Operation → Response;
  dep_transport : Z → option string;
}.

(** The answer of an operator to the coordinator. *)
Definition deployed_answer (d : Deployment) view (operation : Operation) (id : Z) : Response :=
  connection_execute_ref fmt (dep_transport d id)
    (replica_execute_ref show (dep_database d id) (dep_clock d id) view) operation.

(** Reachable operators whose database gives an output of the right type. *)
Definition serves (d : Deployment) operation out (id : Z) : Prop :=
  dep_transport d id = None ∧ dep_database d id operation = ROk out.

#[export] Instance serves_dec d operation out id : Decision (serves d operation out id).
Proof. unfold serves. apply _. Defined.

(** When the versions match, an operator answers [out] exactly if its database
    does. *)
Lemma deployed_answer_ok d view operation out id ver :
  op_keyspace_version operation = Some ver → output_kind out = rpc_output_kind operation →
  validate_storage_operation (dep_clock d id) view ver = true →
  deployed_answer d view operation id = ROk out ↔ serves d operation out id.
Proof.
  intros Hver Hkind Hval. unfold deployed_answer, connection_execute_ref, serves.
  destruct (dep_transport d id); [naive_solver|].
  unfold responder_result, replica_execute_ref. rewrite Hver, Hval.
  destruct (dep_database d id operation) as [o|e]; [|naive_solver].
  unfold downcast. split.
  - case_decide; [|done]. intros [= ->]. done.
  - intros [_ [= ->]]. by rewrite decide_True.
Qed.

(** Without a matching version no operator answers successfully. *)
Lemma deployed_answer_mismatch d view operation id out :
  (∀ ver, op_keyspace_version operation = Some ver →
     validate_storage_operation (dep_clock d id) view ver = false) →
  deployed_answer d view operation id ≠ ROk out.
Proof.
  intros Hval. unfold deployed_answer, connection_execute_ref, replica_execute_ref.
  destruct (dep_transport d id); [done|].
  destruct (op_keyspace_version operation) as [ver|]; [rewrite Hval by done|]; done.
Qed.

(** The operators of a set that serve an output. *)
Definition servers (d : Deployment) operation out (rs : list (NodeOperator N)) : list Z :=
  filter (serves d operation out) (replica_ids rs).

Definition served (d : Deployment) operation out prs (srs : option (list (NodeOperator N))) : Prop :=
  MAJORITY_QUORUM_THRESHOLD ≤ length (servers d operation out prs) ∧
  ∀ rs, srs = Some rs → MAJORITY_QUORUM_THRESHOLD ≤ length (servers d operation out rs).

Lemma filter_ext_length {A} (P Q : A → Prop) `{!∀ x, Decision (P x), !∀ x, Decision (Q x)} l :
  (∀ x, P x ↔ Q x) → length (filter P l) = length (filter Q l).
Proof.
  intros HPQ. induction l as [|x l IH]; [done|]. rewrite !filter_cons.
  destruct (decide (P x)), (decide (Q x)); cbn [length]; naive_solver.
Qed.

Lemma agreement_served d view operation out ver prs srs :
  op_keyspace_version operation = Some ver → output_kind out = rpc_output_kind operation →
  (∀ id, validate_storage_operation (dep_clock d id) view ver = true) →
  agreement (deployed_answer d view operation) prs srs (ROk out) ↔ served d operation out prs srs.
Proof.
  intros Hver Hkind Hval. unfold agreement, served, quorate, supporters, servers.
  assert (∀ rs : list (NodeOperator N), length (filter (λ id, deployed_answer d view operation id = ROk out) (replica_ids rs))
    = length (filter (serves d operation out) (replica_ids rs))) as Heq.
  { intros rs. apply filter_ext_length. intros id. by eapply deployed_answer_ok. }
  rewrite Heq. split; intros [? Hs]; (split; [done|]); intros rs Hrs; specialize (Hs rs Hrs);
    by rewrite Heq in *.
Qed.

(** C4. End to end: in a cluster whose nodes have the same view and clocks
    within the configured skew, no operation is lost to a version check, not
    even around a keyspace transition: a write (or a single-record read)
    succeeds with an output exactly when the databases of a majority of the
    primary replicas, and of the secondary ones while a migration shadows
    writes, are reachable and give that output. *)
Theorem replicated_operation_exact d now view peer operation arrive out :
  let op := stamped now view operation in
  view_wf view → authorized view peer operation →
  (∀ id, Z.abs (now - dep_clock d id) ≤ clock_skew (v_settings view))%Z →
  (∀ requests, answers_all (deployed_answer d view op) requests (arrive requests op)) →
  is_write operation = true ∨ reconcilable operation = false →
  output_kind out = rpc_output_kind operation →
  ∃ prs srs cb,
    primary_replica_set (E := Empty_set) view (hash_key (op_key operation)) = Ok prs ∧
    secondary_set hash_key now view operation = Ok srs ∧
    execute_callback (E := Empty_set) hash_key hashmap_iter arrive now view peer operation = Ok cb ∧
    (cb_response cb = ROk out ↔ served d op out prs srs).
Proof.
  intros op Hv Hauth Hclock Harr Hop Hkind.
  destruct (callback_run hash_key hash_key_u64 hashmap_iter now view peer operation arrive
    (deployed_answer d view op) Hv Hauth Harr)
    as (prs & srs & items & lr & consumed & ds & Hp & Hs & Hpok & Hsok & Hall & Hrun & Hpost).
  eexists prs, srs, _. split_and!; [exact Hp|exact Hs|exact Hrun|].
  destruct (set_keyspace_version_spec operation (keyspace_version now view))
    as (Hver & _ & _ & Hw & _).
  rewrite <-(agreement_served d view op out (keyspace_version now view) prs srs); [|exact Hver| |].
  - rewrite <-(run_response _ prs srs items Hpok Hsok Hall lr consumed ds _ Hpost). split.
    + destruct (lr_response lr) as [r|] eqn:Hr.
      * by rewrite (finish_agreed hashmap_iter _ lr r Hr); intros ->.
      * rewrite finish_disagreed; [done|by eapply lr_response_None|].
        rewrite reconcilable_stamped. unfold stamped. by rewrite Hw.
    + apply finish_agreed.
  - rewrite Hkind. by destruct operation.
  - intros id. apply stamped_accepted, Hclock.
Qed.
End composition.

(** * Witness: a write in the concrete cluster with one dead and one failing
    operator *)

#[local] Existing Instance toy_peer_ids.
#[local] Existing Instance toy_hashing.
#[local] Existing Instance toy_hashing_laws.

Definition toy_deployment : Deployment := {|
  dep_clock _ := 1000000%Z;
  dep_database id _ := if decide (id = 4%Z) then RErr (error_new Internal) else ROk OutNone;
  dep_transport id := if decide (id = 5%Z) then Some "closed" else None;
|}.

Lemma replicated_operation_exact_witness :
  ∃ (v : View Z Shards) cb, view_wf v ∧
    execute_callback (E := Empty_set) toy_hash_key toy_map_iter
      (toy_arrive (deployed_answer (λ _, "") (λ _, "") toy_deployment v (stamped 0 v toy_set)))
      0 v 103%Z toy_set = Ok cb ∧ cb_response cb = ROk OutNone.
Proof.
  destruct toy_shards_exist as (ks & Hops & Hwf). exists (six_view ks).
  assert (view_wf (six_view ks)) as Hv by (by apply six_view_wf).
  destruct (replicated_operation_exact toy_hash_key toy_hash_u64 toy_map_iter (λ _, "") (λ _, "")
    toy_deployment 0 (six_view ks) 103%Z toy_set
    (toy_arrive (deployed_answer (λ _, "") (λ _, "") toy_deployment (six_view ks)
                   (stamped 0 (six_view ks) toy_set))) OutNone Hv
    (toy_authorized (six_view ks) toy_set eq_refl eq_refl)) as (prs & srs & cb & Hp & Hs & Hcb & Hiff);
    [intros id; vm_compute; discriminate|apply toy_arrive_all|left; reflexivity|reflexivity|].
  exists cb. split; [exact Hv|]. split; [exact Hcb|]. apply Hiff. split.
  - unfold servers. rewrite (toy_replicas ks prs Hops Hv Hp). vm_compute. lia.
  - intros rs ->. discriminate Hs.
Defined.
