(* ===== verification/ClientLib.v ===== *)
(** ClientLib: the client library (src/crates/client/src).

    A client picks a node, sends the operation to its coordinator, retries
    transient errors and, with an encryption key, encrypts values on the way out
    and decrypts them on the way in.  The AEAD of crate [ring] is a parameter;
    what the network does during one attempt is an [Env]. *)
From S2P Require Import Prelude External SmartContract NodeOperator NodeOperators StorageApi Replica.
From stdpp Require Import prelude gmap sets list strings.

(** * Encryption (encryption.rs) *)

Inductive EncryptionError := EncData | EncSecret | EncEncrypt | EncDecrypt.

#[export] Instance EncryptionError_eq_dec : EqDecision EncryptionError.
Proof. solve_decision. Defined.

(** [ring]: HKDF key derivation and ChaCha20-Poly1305 with empty associated
    data.  Sealing gives the ciphertext and the tag apart; opening takes them
    concatenated. *)
Class Aead := {
  aead_key : Type;
  aead_derive : list Z → aead_key;
  aead_seal : aead_key → list Z → list Z → option (list Z * list Z);
  aead_open : aead_key → list Z → list Z → option (list Z);
}.

Definition NONCE_LEN : nat := 12.
Definition TAG_LEN : nat := 16.

Class AeadLaws `{Aead} := {
  aead_roundtrip key nonce data : length nonce = NONCE_LEN →
    ∃ ct tag, aead_seal key nonce data = Some (ct, tag) ∧ length ct = length data ∧
      length tag = TAG_LEN ∧ aead_open key nonce (ct ++ tag) = Some data;
}.

Section encryption.
Context `{Aead}.
Implicit Types key : aead_key.

Definition key_new (secret : list Z) : res EncryptionError aead_key :=
  if decide (secret = []) then Err EncSecret else Ok (aead_derive secret).

(** [Key::seal]; [nonce] is the random nonce of this call. *)
Definition key_seal key (nonce data : list Z) : res EncryptionError (list Z) :=
  if decide (data = []) then Ok []
  else
    '(ct, tag) ← ok_or (aead_seal key nonce data) EncEncrypt;
    Ok (nonce ++ ct ++ tag).

Definition open_in_place key (data : list Z) : res EncryptionError (list Z) :=
  if decide (data = []) then Ok data
  else if decide (length data < NONCE_LEN + TAG_LEN + 1) then Err EncData
  else
    let nonce := take NONCE_LEN data in
    nonce ← (if decide (length nonce = NONCE_LEN) then Ok nonce else Panic);
    ok_or (aead_open key nonce (drop NONCE_LEN data)) EncDecrypt.

Definition record_with_value (r : Record) (value : list Z) : Record :=
  {| rec_value := value; rec_expiration := rec_expiration r; rec_version := rec_version r |}.

Definition decrypt_record key (r : Record) : res EncryptionError Record :=
  record_with_value r <$> open_in_place key (rec_value r).

Definition entry_with_record (e : MapEntry) (r : Record) : MapEntry :=
  {| entry_field := entry_field e; entry_record := r |}.

Definition decrypt_output (output : Output) key : res EncryptionError Output :=
  match output with
  | OutRecord (Some rec) => (λ r, OutRecord (Some r)) <$> decrypt_record key rec
  | OutMapPage page =>
      (λ es, OutMapPage {| page_entries := es; page_has_next := page_has_next page |}) <$>
        res_map (λ e, entry_with_record e <$> decrypt_record key (entry_record e)) (page_entries page)
  | _ => Ok output
  end.

Definition encrypt_record key (nonce : list Z) (r : Record) : res EncryptionError Record :=
  record_with_value r <$> key_seal key nonce (rec_value r).

(** [Encrypt for Operation]: [Set] and [HSet] carry values. *)
Definition encrypt_operation key (nonce : list Z) (op : Operation) : res EncryptionError Operation :=
  match op with
  | SetOp ns k r kv => (λ r, SetOp ns k r kv) <$> encrypt_record key nonce r
  | HSet ns k e kv =>
      (λ r, HSet ns k (entry_with_record e r) kv) <$> encrypt_record key nonce (entry_record e)
  | _ => Ok op
  end.
End encryption.

(** * Time to live

    [RecordExpiration] to and from a [Duration], both in nanoseconds here;
    [datetime_valid] says which seconds [DateTime] can represent. *)

Definition as_i64 (z : Z) : Z := if decide (z < 2 ^ 63)%Z then z else (z - 2 ^ 64)%Z.

Definition expiration_from_duration (now_nanos dur : Z) : Z :=
  wrap 64 ((now_nanos + dur) / 10 ^ 9).

Definition expiration_into_duration (datetime_valid : Z → bool) (now_nanos exp : Z) : Z :=
  let secs := as_i64 exp in
  let expiry := if datetime_valid secs then (secs * 10 ^ 9)%Z else 0%Z in
  Z.max 0 (expiry - now_nanos).

(** * Connections (lib.rs) *)

(** Connections are handles whose state is the network's. *)
Definition Conn := Z.

Inductive Route := RouteAny | RoutePrivate.

Record Connector := { cn_public : Conn; cn_private : option Conn }.

(** What the network does while one request is attempted. *)
Record Env {N : Type} := {
  env_closed : Conn → bool;                 (* [is_closed] *)
  env_opens : Conn → bool;                  (* [wait_open] within the timeout *)
  env_public_first : bool;                  (* who wins a race *)
  env_shuffle : list N → list N;            (* [nodes.shuffle] *)
  env_execute : Conn → Operation → Response;
}.
Arguments Env : clear implicits.

Section connector.
Context {N : Type}.
Implicit Types env : Env N.
Implicit Types self : Connector.

Definition is_private_open env self : bool :=
  match cn_private self with
  | Some conn => negb (env_closed env conn)
  | None => false
  end.

Definition is_any_open env self : bool :=
  let public_open := negb (env_closed env (cn_public self)) in
  let private_open := is_private_open env self in
  public_open || private_open.

Definition is_open env self (route : Route) : bool :=
  match route with
  | RouteAny => is_any_open env self
  | RoutePrivate => is_private_open env self
  end.

(** [wait_open().with_timeout(..)]. *)
Definition wait_open env self : option Conn :=
  if is_private_open env self then cn_private self
  else
    let public_fut := if env_opens env (cn_public self) then Some (cn_public self) else None in
    match cn_private self with
    | Some private =>
        let private_fut := if env_opens env private then Some private else None in
        match public_fut, private_fut with
        | Some a, Some b => Some (if env_public_first env then a else b)
        | Some a, None => Some a
        | None, b => b
        end
    | None => public_fut
    end.
End connector.

(** * The client (client.rs, cluster.rs) *)

(** A node of the client's cluster view: its connections to the coordinator API
    and to the cluster API. *)
Record CNode `{PeerIds} := {
  cnode_peer_id : PeerId;
  cnode_coordinator : Connector;
  cnode_cluster : Connector;
}.

(** The errors of cluster creation, the RPC client, the cluster API and the smart
    contract are passed on as they are; they are their messages here. *)
Inductive ClientError :=
| CNoAvailableNodes | CRetriesExhausted
| CClusterCreation (message : string) | CRpc (message : string)
| CClusterApi (message : string) | CCoordinatorApi (e : Error)
| CSmartContract (message : string) | CEncryption (e : EncryptionError)
| CInvalidResponseType | CInternal (message : string).

#[export] Instance ClientError_eq_dec : EqDecision ClientError.
Proof. solve_decision. Defined.

Section client.
Context `{PeerIds, Aead}.
Implicit Types env : Env CNode.

(** [BaseClient] with its [Cluster]: the operators that may be used, the counter
    of requests, the current view. *)
Record ClientState := {
  cl_operators : list Z;
  cl_operator_idx : Z;
  cl_view : NodeOperators CNode;
  cl_max_attempts : Z;
  cl_key : option aead_key;
}.
Implicit Types st : ClientState.

Definition cl_with st (idx : Z) (view : NodeOperators CNode) : ClientState := {|
  cl_operators := cl_operators st; cl_operator_idx := idx; cl_view := view;
  cl_max_attempts := cl_max_attempts st; cl_key := cl_key st |}.

(** [max_attempts: config.max_retries + 1]. *)
Definition max_attempts_of (max_retries : Z) : Z := u64_add max_retries 1.

(** The operators of a view that are not ignored. *)
Definition usable_operators (ignored : list Z) (view : NodeOperators CNode) : list Z :=
  filter (λ id, id ∉ ignored) (op_id <$> ops_iter view).

(** One round of the task that follows the cluster. *)
Definition client_update (ignored : list Z) st (new_view : NodeOperators CNode) : ClientState := {|
  cl_operators := usable_operators ignored new_view; cl_operator_idx := cl_operator_idx st;
  cl_view := new_view; cl_max_attempts := cl_max_attempts st; cl_key := cl_key st |}.

Definition first_some {A R} (cb : A → option R) (l : list A) : option R := head (omap cb l).

(** [Cluster::find_node]. *)
Definition find_node {R} env st (cb : CNode → option R) : option R * ClientState :=
  if decide (cl_operators st = []) then (None, st)
  else
    let '(next_operator, idx) := fetch_add_1 (cl_operator_idx st) in
    let mid := Z.to_nat (next_operator mod Z.of_nat (length (cl_operators st))) in
    let operator_ids := drop mid (cl_operators st) ++ take mid (cl_operators st) in
    (first_some (λ id,
       op ← ops_get (cl_view st) id;
       first_some cb (env_shuffle env (op_nodes op))) operator_ids,
     cl_with st idx (cl_view st)).

(** The counter of an operator is shared by everyone who holds the view. *)
Definition put_operator (view : NodeOperators CNode) (op : NodeOperator CNode) : NodeOperators CNode := {|
  id_to_idx := id_to_idx view;
  slots := (λ slot, match slot with
                    | Some o => Some (if decide (op_id o = op_id op) then op else o)
                    | None => None
                    end) <$> slots view;
  ops_counter := ops_counter view |}.

(** [select_open_connection]: one round of its loop, on the view it loaded; the
    cluster API is asked only of trusted operators, if there are any. *)
Definition select_next_node {E} (view : NodeOperators CNode)
    : res E (CNode * NodeOperators CNode) :=
  '(op, view) ← ops_next view;
  '(node, op) ← next_node op;
  Ok (node, put_operator view op).

Definition select_node {E} (trusted_operators : list Z) (view : NodeOperators CNode)
    : res E (CNode * NodeOperators CNode) :=
  if decide (trusted_operators = []) then select_next_node view
  else
    '(found, view) ← find_next_operator (λ operator,
        if decide (op_id operator ∈ trusted_operators) then Some operator else None) view;
    match found with
    | Some operator =>
        '(node, op) ← next_node operator;
        Ok (node, put_operator view op)
    | None => select_next_node view
    end.

Fixpoint select_open_connection {E} (envs : nat → Env CNode) (trusted_operators : list Z)
    (view : NodeOperators CNode) (rounds round : nat) : res E (option Conn) :=
  match rounds with
  | O => Ok None
  | S rounds =>
      '(node, view) ← select_node trusted_operators view;
      match wait_open (envs round) (cnode_cluster node) with
      | Some conn => Ok (Some conn)
      | None => select_open_connection envs trusted_operators view rounds (S round)
      end
  end.

(** [Cluster::next_node]. *)
Definition client_next_node {E} st : res E (CNode * ClientState) :=
  '(op, view) ← ops_next (cl_view st);
  '(node, op) ← next_node op;
  Ok (node, cl_with st (cl_operator_idx st) (put_operator view op)).

(** [find_next_node]: the closure it passes to [find_node], then the function. *)
Definition connected env (route : Route) (node : CNode) : option Connector :=
  let connector := cnode_coordinator node in
  if is_open env connector route then Some connector else None.

Definition client_find_next_node {E} env st (route : Route) : res E (Connector * ClientState) :=
  match find_node env st (connected env route) with
  | (Some connector, st) => Ok (connector, st)
  | (None, st) =>
      '(node, st) ← client_next_node st;
      Ok (cnode_coordinator node, st)
  end.

(** [execute_internal]. *)
Definition execute_internal env st (op : Operation) (route : Route)
    : ClientState * res ClientError Output :=
  match client_find_next_node (E := ClientError) env st route with
  | Ok (connector, st) =>
      (st, match wait_open env connector with
           | None => Err CNoAvailableNodes
           | Some conn =>
               match env_execute env conn op with
               | RErr e => Err (CCoordinatorApi e)
               | ROk output =>
                   match cl_key st with
                   | Some key => map_err CEncryption (decrypt_output output key)
                   | None => Ok output
                   end
               end
           end)
  | Err e => (st, Err e)
  | Panic => (st, Panic)
  end.

Definition is_transient_failure (r : res ClientError Output) : bool :=
  match r with
  | Err (CCoordinatorApi e) => is_transient e
  | _ => false
  end.

Definition route_of (attempt : nat) : Route :=
  match attempt with O => RouteAny | S _ => RoutePrivate end.

(** [execute_with_retries]: [remaining] is [max_attempts - attempt]. *)
Fixpoint retry_loop (envs : nat → Env CNode) st (op : Operation) (remaining attempt : nat)
    : ClientState * res ClientError Output :=
  match remaining with
  | O => (st, Err CRetriesExhausted)
  | S remaining =>
      let '(st, r) := execute_internal (envs attempt) st op (route_of attempt) in
      if is_transient_failure r then retry_loop envs st op remaining (S attempt) else (st, r)
  end.

Definition execute_with_retries (envs : nat → Env CNode) st (op : Operation)
    : ClientState * res ClientError Output :=
  retry_loop envs st op (Z.to_nat (cl_max_attempts st)) 0.

(** [execute]. *)
Definition client_execute (envs : nat → Env CNode) (nonce : list Z) st (op : Operation)
    : ClientState * res ClientError Output :=
  let op := match cl_key st with
            | Some key => map_err CEncryption (encrypt_operation key nonce op)
            | None => Ok op
            end in
  match op with
  | Ok op =>
      if decide (1 < cl_max_attempts st)%Z then execute_with_retries envs st op
      else execute_internal (envs 0) st op RouteAny
  | Err e => (st, Err e)
  | Panic => (st, Panic)
  end.

(** ** The API (lib.rs) *)

(** [execute_request]: the output must have the type of the call. *)
Definition execute_request {R} (downcast : Output → option R) envs nonce st (op : Operation)
    : ClientState * res ClientError R :=
  let '(st, r) := client_execute envs nonce st op in
  (st, output ← r; ok_or (downcast output) CInvalidResponseType).

Definition as_record (o : Output) : option (option Record) :=
  match o with OutRecord r => Some r | _ => None end.
Definition as_expiration (o : Output) : option (option Z) :=
  match o with OutExpiration e => Some e | _ => None end.
Definition as_unit (o : Output) : option () :=
  match o with OutNone => Some () | _ => None end.
Definition as_cardinality (o : Output) : option Z :=
  match o with OutCardinality n => Some n | _ => None end.
Definition as_page (o : Output) : option MapPage :=
  match o with OutMapPage p => Some p | _ => None end.

(** [now] is [RecordVersion::now()]; [ttl] has become an expiration. *)
Section api.
Context (envs : nat → Env CNode) (nonce : list Z) (datetime_valid : Z → bool) (now_nanos : Z).
Implicit Types key field value : list Z.

Definition client_get st (ns : Namespace) key :=
  execute_request as_record envs nonce st (Get ns key None).
Definition client_set st (ns : Namespace) key value (expiration now : Z) :=
  execute_request as_unit envs nonce st (SetOp ns key
    {| rec_value := value; rec_expiration := expiration; rec_version := now |} None).
Definition client_del st (ns : Namespace) key (now : Z) :=
  execute_request as_unit envs nonce st (Del ns key now None).
Definition client_get_exp st (ns : Namespace) key :=
  let '(st, r) := execute_request as_expiration envs nonce st (GetExp ns key None) in
  (st, (λ e : option Z, expiration_into_duration datetime_valid now_nanos <$> e) <$> r).
Definition client_set_exp st (ns : Namespace) key (expiration now : Z) :=
  execute_request as_unit envs nonce st (SetExp ns key expiration now None).
Definition client_hget st (ns : Namespace) key field :=
  execute_request as_record envs nonce st (HGet ns key field None).
Definition client_hset st (ns : Namespace) key field value (expiration now : Z) :=
  execute_request as_unit envs nonce st (HSet ns key {| entry_field := field; entry_record :=
    {| rec_value := value; rec_expiration := expiration; rec_version := now |} |} None).
Definition client_hdel st (ns : Namespace) key field (now : Z) :=
  execute_request as_unit envs nonce st (HDel ns key field now None).
Definition client_hget_exp st (ns : Namespace) key field :=
  let '(st, r) := execute_request as_expiration envs nonce st (HGetExp ns key field None) in
  (st, (λ e : option Z, expiration_into_duration datetime_valid now_nanos <$> e) <$> r).
Definition client_hset_exp st (ns : Namespace) key field (expiration now : Z) :=
  execute_request as_unit envs nonce st (HSetExp ns key field expiration now None).
Definition client_hcard st (ns : Namespace) key :=
  execute_request as_cardinality envs nonce st (HCard ns key None).
Definition client_hscan st (ns : Namespace) key (count : Z) (cursor : option (list Z)) :=
  execute_request as_page envs nonce st (HScan ns key count cursor None).
End api.
End client.

(** * Bootstrap (cluster.rs) *)

(** [fetch_cluster_view]: [offset] is [random_range(0..num_nodes)], which panics on
    an empty range; [fetch] is one attempt to connect and read the view. *)
Fixpoint fetch_loop {A V} (fetch : A → res ClientError V) (nodes : list A) (num_nodes offset : nat)
    (idxs : list nat) : res ClientError V :=
  match idxs with
  | [] => Err CNoAvailableNodes
  | idx :: idxs =>
      let idx := (idx + offset) mod num_nodes in
      node ← unwrap (nodes !! idx);
      match fetch node with
      | Ok view => Ok view
      | Err _ => fetch_loop fetch nodes num_nodes offset idxs
      | Panic => Panic
      end
  end.

Definition fetch_cluster_view {A V} (fetch : A → res ClientError V) (offset : nat) (nodes : list A)
    : res ClientError V :=
  let num_nodes := length nodes in
  if decide (num_nodes = 0) then Panic
  else fetch_loop fetch nodes num_nodes offset (seq 0 num_nodes).
