(* ===== verification/ClientProofs.v ===== *)
(** ClientProofs: retries, node selection, encryption and bootstrap of the
    client. *)
From S2P Require Import Prelude External SmartContract NodeOperator NodeOperators StorageApi Replica.
From S2P Require Import ClientLib.
From stdpp Require Import prelude gmap sets list strings.

(** * Encryption *)
Section encryption.
Context `{AeadLaws}.

Lemma seal_open key nonce data :
  length nonce = NONCE_LEN →
  ∃ sealed, key_seal key nonce data = Ok sealed ∧ open_in_place key sealed = Ok data ∧
    (data = [] → sealed = []) ∧
    (data ≠ [] → length sealed = NONCE_LEN + length data + TAG_LEN).
Proof.
  intros Hn. unfold key_seal. destruct (decide (data = [])) as [->|Hne]; [by exists []|].
  destruct (aead_roundtrip key nonce data Hn) as (ct & tag & Hs & Hct & Htag & Ho).
  exists (nonce ++ ct ++ tag). rewrite Hs. split_and!; [done| |done|].
  - unfold open_in_place. assert (0 < length data) by (destruct data; cbn; [done|lia]).
    assert (length (nonce ++ ct ++ tag) = NONCE_LEN + length data + TAG_LEN) as Hl
      by (rewrite !length_app; lia).
    rewrite decide_False by (intros ?%(f_equal length); rewrite Hl in *; cbn in *; lia).
    rewrite decide_False by lia.
    rewrite take_app_length' by done. rewrite decide_True by done. cbn [mbind res_bind].
    rewrite drop_app_length' by done. by rewrite Ho.
  - intros _. rewrite !length_app. lia.
Qed.

Lemma open_in_place_safe key data : open_in_place key data ≠ Panic.
Proof.
  unfold open_in_place. case_decide; [done|]. case_decide; [done|].
  rewrite decide_True by (rewrite length_take; lia). cbn. apply ok_or_Panic.
Qed.

(** An entry sealed under some nonce. *)
Definition sealed_as key (r r' : Record) : Prop :=
  ∃ nonce, length nonce = NONCE_LEN ∧ encrypt_record key nonce r = Ok r'.

Lemma sealed_decrypt key r r' : sealed_as key r r' → decrypt_record key r' = Ok r.
Proof.
  intros (nonce & Hn & He). unfold encrypt_record in He.
  destruct (seal_open key nonce (rec_value r) Hn) as (sealed & Hs & Ho & _).
  rewrite Hs in He. apply Ok_inj in He as <-. unfold decrypt_record. cbn [rec_value record_with_value].
  rewrite Ho. by destruct r.
Qed.

Lemma sealed_page_decrypt key es es' :
  Forall2 (λ e e', entry_field e = entry_field e' ∧ sealed_as key (entry_record e) (entry_record e')) es es' →
  res_map (λ e, entry_with_record e <$> decrypt_record key (entry_record e)) es' = Ok es.
Proof.
  induction 1 as [|e e' es es' [Hf Hs] _ IH]; cbn; [done|].
  rewrite (sealed_decrypt _ _ _ Hs). cbn. rewrite IH. cbn. do 2 f_equal.
  destruct e, e'. by cbn in *; subst.
Qed.

(** C31. Values travel encrypted and come back: what a client with a key writes
    ([set] and [hset]) leaves with its key, field, version and expiration
    unchanged and its value sealed; when the cluster returns such records, alone
    or in a page, the client gets the values it wrote.  Operations that carry no
    value are sent unchanged, and no answer, however corrupt, makes decryption
    panic. *)
Theorem client_encryption_roundtrip key nonce :
  length nonce = NONCE_LEN →
  (∀ ns k r kv, ∃ r', encrypt_operation key nonce (SetOp ns k r kv) = Ok (SetOp ns k r' kv) ∧
     rec_version r' = rec_version r ∧ rec_expiration r' = rec_expiration r ∧
     decrypt_output (OutRecord (Some r')) key = Ok (OutRecord (Some r))) ∧
  (∀ ns k e kv, ∃ e', encrypt_operation key nonce (HSet ns k e kv) = Ok (HSet ns k e' kv) ∧
     entry_field e' = entry_field e ∧ sealed_as key (entry_record e) (entry_record e')) ∧
  (∀ op, (∀ ns k r kv, op ≠ SetOp ns k r kv) → (∀ ns k e kv, op ≠ HSet ns k e kv) →
     encrypt_operation key nonce op = Ok op) ∧
  (∀ es es' more,
     Forall2 (λ e e', entry_field e = entry_field e' ∧
                      sealed_as key (entry_record e) (entry_record e')) es es' →
     decrypt_output (OutMapPage {| page_entries := es'; page_has_next := more |}) key =
       Ok (OutMapPage {| page_entries := es; page_has_next := more |})) ∧
  (∀ out, decrypt_output out key ≠ Panic).
Proof.
  intros Hn.
  assert (∀ r, ∃ r', encrypt_record key nonce r = Ok r' ∧ rec_version r' = rec_version r ∧
    rec_expiration r' = rec_expiration r) as Henc.
  { intros r. destruct (seal_open key nonce (rec_value r) Hn) as (sealed & Hs & _).
    unfold encrypt_record. rewrite Hs. by eexists. }
  split_and!.
  - intros ns k r kv. destruct (Henc r) as (r' & He & Hv & Hx). exists r'. cbn. rewrite He.
    split_and!; [done..|]. by rewrite (sealed_decrypt key r r') by by exists nonce.
  - intros ns k e kv. destruct (Henc (entry_record e)) as (r' & He & _).
    exists (entry_with_record e r'). cbn. rewrite He. split_and!; [done..|]. by exists nonce.
  - intros op Hset Hhset. destruct op; try done; [by edestruct Hset|by edestruct Hhset].
  - intros es es' more Hall. cbn. by rewrite (sealed_page_decrypt key es es').
  - assert (∀ r, decrypt_record key r ≠ Panic) as Hsafe.
    { intros r. unfold decrypt_record. pose proof (open_in_place_safe key (rec_value r)).
      by destruct (open_in_place _ _). }
    intros [[r|]|e|[es more]|n|]; try done; cbn.
    + specialize (Hsafe r). by destruct (decrypt_record key r).
    + assert (∀ es, res_map (λ e, entry_with_record e <$> decrypt_record key (entry_record e)) es ≠ Panic)
        as Hpage; [|specialize (Hpage es); by destruct (res_map _ es)].
      clear es. induction es as [|e es IH]; cbn; [done|]. specialize (Hsafe (entry_record e)).
      destruct (decrypt_record _ _); cbn; [|done|done]. by destruct (res_map _ es).
Qed.
End encryption.

(** * Retries *)
Section retries.
Context `{PeerIds, Aead}.
Implicit Types st : ClientState.

(** The state in which attempt [i] starts, if all earlier ones are made. *)
Fixpoint state_at (envs : nat → Env CNode) st (op : Operation) (i : nat) : ClientState :=
  match i with
  | O => st
  | S i => (execute_internal (envs i) (state_at envs st op i) op (route_of i)).1
  end.

(** What attempt [i] answers. *)
Definition outcome (envs : nat → Env CNode) st (op : Operation) (i : nat) : res ClientError Output :=
  (execute_internal (envs i) (state_at envs st op i) op (route_of i)).2.

Lemma retry_loop_from envs st op remaining attempt :
  (∀ i, i < attempt → is_transient_failure (outcome envs st op i) = true) →
  let r := (retry_loop envs (state_at envs st op attempt) op remaining attempt).2 in
  (r = Err CRetriesExhausted ∧
     ∀ i, i < attempt + remaining → is_transient_failure (outcome envs st op i) = true) ∨
  (∃ j, j < attempt + remaining ∧ r = outcome envs st op j ∧ is_transient_failure r = false ∧
     ∀ i, i < j → is_transient_failure (outcome envs st op i) = true).
Proof.
  revert attempt; induction remaining as [|remaining IH]; intros attempt Hall; cbn.
  { left. split; [done|]. intros i Hi. apply Hall. lia. }
  destruct (execute_internal (envs attempt) (state_at envs st op attempt) op (route_of attempt))
    as [st' r] eqn:He.
  assert (outcome envs st op attempt = r) as Ho by (unfold outcome; by rewrite He).
  assert (state_at envs st op (S attempt) = st') as Hs by (cbn; by rewrite He).
  destruct (is_transient_failure r) eqn:Ht.
  - rewrite <-Hs. replace (attempt + S remaining) with (S attempt + remaining) by lia. apply IH.
    intros i Hi. destruct (decide (i = attempt)) as [->|]; [by rewrite Ho|]. apply Hall. lia.
  - right. exists attempt. split_and!; [lia|done..].
Qed.


(** * Node selection *)

(** The nodes of the operators that may be used. *)
Definition usable_nodes st : list CNode :=
  mjoin ((λ id, match ops_get (cl_view st) id with Some op => op_nodes op | None => [] end)
           <$> cl_operators st).

Lemma first_some_Some {A R} (cb : A → option R) l r :
  first_some cb l = Some r → ∃ a, a ∈ l ∧ cb a = Some r.
Proof. apply head_omap_Some. Qed.

Lemma find_node_sweep {R} env st (cb : CNode → option R) :
  (∀ l, env_shuffle env l ≡ₚ l) →
  sweep_result (usable_nodes st) cb (find_node env st cb).1.
Proof.
  intros Hsh. unfold find_node. case_decide as Hne.
  { cbn. unfold usable_nodes. rewrite Hne. by intros a ?%elem_of_nil. }
  cbn [fetch_add_1]. destruct (fetch_add_1 (cl_operator_idx st)) as [n idx]. cbn [fst].
  set (mid := Z.to_nat _). set (ids := drop mid _ ++ take mid _).
  assert (ids ≡ₚ cl_operators st) as Hids by apply rotate_perm.
  destruct (first_some _ ids) as [r|] eqn:Hr; cbn.
  - apply first_some_Some in Hr as (id & Hid & Hr). apply bind_Some in Hr as (op & Hop & Hr).
    apply first_some_Some in Hr as (node & Hnode & Hcb). exists node. split; [|done].
    unfold usable_nodes. apply list_elem_of_join. exists (op_nodes op). rewrite Hsh in Hnode.
    split; [done|]. apply list_elem_of_fmap. exists id. rewrite Hop. split; [done|]. by rewrite <-Hids.
  - intros node (ns & Hnode & Hns)%list_elem_of_join.
    apply list_elem_of_fmap in Hns as (id & -> & Hid).
    destruct (ops_get (cl_view st) id) as [op|] eqn:Hop; [|by apply elem_of_nil in Hnode].
    unfold first_some in Hr at 1. rewrite head_omap_None in Hr. rewrite <-Hids in Hid.
    specialize (Hr id Hid). rewrite Hop in Hr. cbn in Hr. unfold first_some in Hr.
    rewrite head_omap_None in Hr. apply Hr. by rewrite Hsh.
Qed.

(** Open connections open at once. *)
Definition env_sane (env : Env CNode) : Prop :=
  (∀ c, env_closed env c = false → env_opens env c = true) ∧ (∀ l, env_shuffle env l ≡ₚ l).

Lemma wait_open_connected env connector route :
  env_sane env → is_open env connector route = true → is_Some (wait_open env connector).
Proof.
  intros [Ho _] Hopen. unfold wait_open.
  destruct (is_private_open env connector) eqn:Hp.
  { unfold is_private_open in Hp. by destruct (cn_private connector). }
  assert (env_closed env (cn_public connector) = false) as Hpub.
  { destruct route; cbn in Hopen; [|congruence]. unfold is_any_open in Hopen. rewrite Hp in Hopen.
    by destruct (env_closed env (cn_public connector)). }
  rewrite (Ho _ Hpub). destruct (cn_private connector) as [p|]; [|done]. by destruct (env_opens env p).
Qed.

(** A request reaches a connected node if there is one: as long as some node
    of a usable operator has an open connection for the route, the attempt is
    made on an open connection and never fails with [NoAvailableNodes]. *)
Theorem client_uses_connected_node env st op route node :
  env_sane env → node ∈ usable_nodes st → is_open env (cnode_coordinator node) route = true →
  ∃ node' conn, node' ∈ usable_nodes st ∧ is_open env (cnode_coordinator node') route = true ∧
    wait_open env (cnode_coordinator node') = Some conn ∧
    (execute_internal env st op route).2 =
      match env_execute env conn op with
      | RErr e => Err (CCoordinatorApi e)
      | ROk out =>
          match cl_key st with
          | Some key => map_err CEncryption (decrypt_output out key)
          | None => Ok out
          end
      end.
Proof.
  intros Hsane Hnode Hopen.
  pose proof (find_node_sweep env st (connected env route) (proj2 Hsane)) as Hs.
  unfold execute_internal, client_find_next_node.
  destruct (find_node env st (connected env route)) as [[connector|] st'] eqn:Hf; cbn in Hs.
  - destruct Hs as (node' & Hin & Hc). unfold connected in Hc. case_match eqn:Ho; [|done].
    injection Hc as <-. destruct (wait_open_connected _ _ _ Hsane Ho) as [conn Hw].
    exists node', conn. split_and!; [done..|]. rewrite Hw. cbn.
    assert (cl_key st' = cl_key st) as ->; [|done].
    unfold find_node in Hf. case_decide; [by simplify_eq|]. by simplify_eq/=.
  - specialize (Hs node Hnode). unfold connected in Hs. by rewrite Hopen in Hs.
Qed.
End retries.

(** * Bootstrap *)
Section bootstrap.
Context {A V : Type} (fetch : A → res ClientError V) (fetch_safe : ∀ node, fetch node ≠ Panic).

Lemma rotate_lookup (l : list A) o i :
  o < length l → i < length l →
  (drop o l ++ take o l) !! i = l !! ((i + o) mod length l).
Proof.
  intros Ho Hi. destruct (decide (i < length l - o)) as [Hlt|Hge].
  - rewrite lookup_app_l by (rewrite length_drop; lia). rewrite lookup_drop.
    rewrite Nat.mod_small by lia. f_equal. lia.
  - rewrite lookup_app_r by (rewrite length_drop; lia). rewrite length_drop.
    assert ((i + o) mod length l = i + o - length l) as ->.
    { symmetry. apply (Nat.mod_unique _ _ 1); lia. }
    rewrite lookup_take_lt by lia. f_equal. lia.
Qed.

Lemma fetch_loop_spec nodes offset k :
  offset < length nodes → k ≤ length nodes →
  fetch_loop fetch nodes (length nodes) offset (seq (length nodes - k) k) =
    match head (omap (res_ok ∘ fetch) (drop (length nodes - k) (drop offset nodes ++ take offset nodes))) with
    | Some v => Ok v
    | None => Err CNoAvailableNodes
    end.
Proof.
  intros Ho. set (rot := drop offset nodes ++ take offset nodes).
  assert (length rot = length nodes) as Hrot
    by (unfold rot; rewrite length_app, length_drop, length_take; lia).
  induction k as [|k IH]; intros Hk.
  { cbn. by rewrite drop_ge by lia. }
  cbn [seq fetch_loop]. set (i := length nodes - S k).
  destruct (lookup_lt_is_Some_2 rot i) as [node Hnode]; [unfold i; lia|].
  rewrite <-rotate_lookup by (unfold i; lia). fold rot. rewrite Hnode. cbn [unwrap mbind res_bind].
  rewrite (drop_S _ _ _ Hnode). cbn. specialize (fetch_safe node).
  replace (S i) with (length nodes - k) by (unfold i; lia).
  destruct (fetch node); cbn; [done|apply IH; lia|done].
Qed.

(** Bootstrapping asks every configured node once, from a random one on, and
    takes the first view it gets; [NoAvailableNodes] means that every node
    failed.  With no nodes configured it does not return that error: the random
    offset is drawn from an empty range, which panics. *)
Theorem fetch_cluster_view_exact offset nodes :
  nodes = [] ∨ offset < length nodes →
  fetch_cluster_view fetch offset nodes =
    match nodes, head (omap (res_ok ∘ fetch) (drop offset nodes ++ take offset nodes)) with
    | [], _ => Panic
    | _, Some v => Ok v
    | _, None => Err CNoAvailableNodes
    end.
Proof.
  intros [->|Ho]; [done|]. unfold fetch_cluster_view. rewrite decide_False by lia.
  pose proof (fetch_loop_spec nodes offset (length nodes) Ho ltac:(lia)) as Hl.
  rewrite Nat.sub_diag, drop_0 in Hl. rewrite Hl. destruct nodes; [cbn in Ho; lia|done].
Qed.
End bootstrap.

(** * Time to live *)

(** A time to live survives the trip through an expiration up to the second it
    is rounded down to. *)
Lemma ttl_roundtrip valid now dur :
  (0 ≤ now)%Z → (0 ≤ dur)%Z → (now + dur < 2 ^ 63)%Z →
  valid ((now + dur) / 10 ^ 9)%Z = true →
  let exp := expiration_from_duration now dur in
  (expiration_into_duration valid now exp ≤ dur < expiration_into_duration valid now exp + 10 ^ 9)%Z.
Proof.
  intros Hn Hd Hs Hv. unfold expiration_from_duration, expiration_into_duration.
  pose proof (Z.div_mod (now + dur) (10 ^ 9) ltac:(lia)) as Hdm.
  pose proof (Z.mod_pos_bound (now + dur) (10 ^ 9) ltac:(lia)) as Hm.
  set (q := ((now + dur) / 10 ^ 9)%Z) in *.
  assert (0 ≤ q)%Z by (apply Z.div_pos; lia).
  rewrite wrap_small by (unfold fits; lia).
  unfold as_i64. rewrite decide_True by lia. rewrite Hv. lia.
Qed.

(** * Retries without private connections *)
Section retry_route.
Context `{PeerIds, Aead}.

(** Without private connections a retry goes to the next node in turn, open or
    not. *)
Lemma retry_route_fallback env st :
  (∀ l, env_shuffle env l ≡ₚ l) →
  (∀ node, node ∈ usable_nodes st → cn_private (cnode_coordinator node) = None) →
  (find_node env st (connected env RoutePrivate)).1 = None.
Proof.
  intros Hsh Hpriv. pose proof (find_node_sweep env st (connected env RoutePrivate) Hsh) as Hs.
  destruct (find_node env st _) as [[c|] st']; [|done]. cbn in Hs |- *.
  destruct Hs as (node & Hin & Hc). unfold connected in Hc. cbn in Hc.
  unfold is_private_open in Hc. by rewrite Hpriv in Hc.
Qed.
End retry_route.

(** * Examples *)

(** The cipher adds the key to every byte; the tag is fixed. *)
Definition toy_aead : Aead := {|
  aead_key := Z;
  aead_derive secret := default 0%Z (head secret);
  aead_seal k nonce data := Some ((λ b, (b + k)%Z) <$> data, replicate 16 0%Z);
  aead_open k nonce data := Some ((λ b, (b - k)%Z) <$> take (length data - 16) data);
|}.

Lemma toy_aead_laws : @AeadLaws toy_aead.
Proof.
  split. intros k nonce data _. eexists _, _. split; [done|]. cbn. split_and!.
  - by rewrite length_fmap.
  - done.
  - set (ct := (λ b, (b + k)%Z) <$> data).
    assert (length (ct ++ replicate 16 0%Z) - 16 = length ct) as Hl
      by (rewrite length_app, length_replicate; lia).
    change (Some ((λ b, (b - k)%Z) <$> take (length (ct ++ replicate 16 0%Z) - 16)
      (ct ++ replicate 16 0%Z)) = Some data).
    rewrite Hl, take_app_length. unfold ct. f_equal. rewrite <-list_fmap_compose. rewrite <-(list_fmap_id data) at 2.
    apply list_fmap_ext. intros i x _. cbn. lia.
Qed.

Lemma client_encryption_roundtrip_witness :
  ∃ r', @encrypt_operation toy_aead 3%Z (replicate 12 7%Z)
      (SetOp [] [1%Z] {| rec_value := [5%Z]; rec_expiration := 9; rec_version := 4 |} None) =
      Ok (SetOp [] [1%Z] r' None) ∧
    @decrypt_output toy_aead (OutRecord (Some r')) 3%Z =
      Ok (OutRecord (Some {| rec_value := [5%Z]; rec_expiration := 9; rec_version := 4 |})).
Proof.
  destruct (@client_encryption_roundtrip toy_aead toy_aead_laws 3%Z (replicate 12 7%Z) eq_refl)
    as (Hset & _).
  destruct (Hset [] [1%Z] {| rec_value := [5%Z]; rec_expiration := 9; rec_version := 4 |} None)
    as (r' & He & _ & _ & Hd).
  by exists r'.
Defined.

(** Five operators with two nodes each, as in a fresh client: the nodes of the
    first operator are down, the others are up.  None has a private address. *)
Definition toy_cnode (conn : Conn) : @CNode toy_peer_ids :=
  @Build_CNode toy_peer_ids conn {| cn_public := conn; cn_private := None |}
    {| cn_public := conn; cn_private := None |}.

Definition toy_coperator (i : Z) : @NodeOperator toy_peer_ids (@CNode toy_peer_ids) :=
  @Build_NodeOperator toy_peer_ids _ i "op" [] [toy_cnode (2 * i)%Z; toy_cnode (2 * i + 1)%Z] usize_max.

Definition toy_cslots : list (option (@NodeOperator toy_peer_ids (@CNode toy_peer_ids))) :=
  (λ i, Some (toy_coperator i)) <$> [1; 2; 3; 4; 5]%Z.

Definition toy_cview : @NodeOperators toy_peer_ids (@CNode toy_peer_ids) :=
  @Build_NodeOperators toy_peer_ids _ [(1, 0); (2, 1); (3, 2); (4, 3); (5, 4)]%Z toy_cslots usize_max.

Lemma toy_cview_new : from_slots toy_cslots = Ok toy_cview.
Proof. reflexivity. Qed.

Definition toy_client : @ClientState toy_peer_ids toy_aead :=
  @Build_ClientState toy_peer_ids toy_aead (@usable_operators toy_peer_ids [] toy_cview) 0 toy_cview 3 None.

Definition toy_cnodes : list (@CNode toy_peer_ids) :=
  toy_cnode <$> [2; 3; 4; 5; 6; 7; 8; 9; 10; 11]%Z.

Lemma toy_usable : @usable_nodes toy_peer_ids toy_aead toy_client = toy_cnodes.
Proof. reflexivity. Qed.

Definition toy_get : Operation := Get [] [1%Z] None.

(** The nodes that are up answer with a timeout at first, then with a record. *)
Definition toy_cenvs (attempt : nat) : Env (@CNode toy_peer_ids) := {|
  env_closed conn := bool_decide (conn < 4)%Z;
  env_opens conn := bool_decide (4 ≤ conn)%Z;
  env_public_first := true;
  env_shuffle l := l;
  env_execute conn op :=
    match attempt with
    | O => RErr (error_new Timeout_)
    | S _ => ROk (OutRecord None)
    end;
|}.

(** Retries can give up although a connected node would answer: retries look
    for private connections only, and when no node has one they take the next
    node in turn even if it is down.  Here, in a cluster of five operators of which
    one is down, a connected node fails once with a timeout; the client, with two
    retries left, tries a node that is down and returns [NoAvailableNodes], an
    error it does not retry, while eight connected nodes would answer. *)
Theorem retry_gives_up_while_connected :
  let st1 := @state_at toy_peer_ids toy_aead toy_cenvs toy_client toy_get 1 in
  (@client_execute toy_peer_ids toy_aead toy_cenvs [] toy_client toy_get).2 = Err CNoAvailableNodes ∧
  is_transient_failure (@outcome toy_peer_ids toy_aead toy_cenvs toy_client toy_get 0) = true ∧
  (∀ conn, (4 ≤ conn ≤ 11)%Z →
     toy_cnode conn ∈ @usable_nodes toy_peer_ids toy_aead st1 ∧
     is_open (toy_cenvs 1) (@cnode_coordinator toy_peer_ids (toy_cnode conn)) RouteAny = true ∧
     env_execute (toy_cenvs 1) conn toy_get = ROk (OutRecord None)).
Proof.
  cbv zeta. split_and!; [reflexivity|reflexivity|]. intros conn Hconn.
  assert (@usable_nodes toy_peer_ids toy_aead
    (@state_at toy_peer_ids toy_aead toy_cenvs toy_client toy_get 1) = toy_cnodes) as -> by reflexivity.
  split_and!; [| |done].
  - apply list_elem_of_fmap. exists conn. split; [done|].
    assert (conn = 4 ∨ conn = 5 ∨ conn = 6 ∨ conn = 7 ∨ conn = 8 ∨ conn = 9 ∨ conn = 10 ∨ conn = 11)%Z
      by lia. set_solver.
  - unfold is_open, is_any_open; cbn. by rewrite bool_decide_false by lia.
Qed.


Lemma client_uses_connected_node_witness :
  ∃ node' conn, node' ∈ @usable_nodes toy_peer_ids toy_aead toy_client ∧
    wait_open (toy_cenvs 1) (@cnode_coordinator toy_peer_ids node') = Some conn.
Proof.
  destruct (@client_uses_connected_node toy_peer_ids toy_aead (toy_cenvs 1) toy_client toy_get RouteAny
    (toy_cnode 4%Z)) as (node' & conn & Hin & _ & Hw & _).
  - split; [|done]. intros c Hc. cbn in *. apply bool_decide_eq_false in Hc.
    apply bool_decide_eq_true. lia.
  - rewrite toy_usable. apply list_elem_of_fmap. exists 4%Z. set_solver.
  - reflexivity.
  - by exists node', conn.
Defined.

Lemma fetch_cluster_view_exact_witness :
  fetch_cluster_view (λ n : Z, if decide (n = 2)%Z then Ok n else Err CNoAvailableNodes) 2 [1; 2; 3]%Z
  = Ok 2%Z.
Proof.
  rewrite (fetch_cluster_view_exact (λ n : Z, if decide (n = 2)%Z then Ok n else Err CNoAvailableNodes)).
  - reflexivity.
  - intros n. by case_decide.
  - right. cbn. lia.
Defined.
