(* ===== verification/Manager.v ===== *)
(** Manager: the migration manager (src/crates/migration/src/manager/mod.rs).

    The manager of a node operator pulls the shards the operator is newly added
    to from the operators it replaces, reports completion to the contract and
    waits for the others.  [task_step] is the body of the loop of [Task::run];
    the futures of the states are functions of what they observe: the views, the
    replica connections and the database. *)
From S2P Require Import Prelude External Sharding SmartContract NodeOperator NodeOperators.
From S2P Require Import Keyspace Settings Migration View Cluster StorageApi.
From stdpp Require Import prelude gmap sets list strings.

(** * States and events *)

Inductive State :=
| TransferringData (id : Z)
| CompletingMigration (id : Z)
| AwaitingMigrationCompletion (id : Z)
| Idle.

#[export] Instance State_eq_dec : EqDecision State.
Proof. solve_decision. Defined.

Definition state_migration_id (self : State) : option Z :=
  match self with
  | TransferringData id | CompletingMigration id | AwaitingMigrationCompletion id => Some id
  | Idle => None
  end.

Definition can_shutdown (self : State) : bool :=
  match self with
  | TransferringData _ | CompletingMigration _ => false
  | AwaitingMigrationCompletion _ | Idle => true
  end.

Section manager.
Context `{PeerIds} {N : Type}.
Implicit Types view : View N Shards.

(** The outcome of the race in [Task::run]; a cluster update carries the view
    [sync_state] reads. *)
Inductive TaskEvent :=
| ClusterUpdate (view : View N Shards)
| StateTransition (state : State)
| Shutdown.

Definition sync_state view (current : State) : option State :=
  match state_migration_id current, mig_id <$> view_migration view with
  | Some a, Some b => if decide (a = b) then None else Some (TransferringData b)
  | None, None => None
  | Some _, None => Some Idle
  | None, Some id => Some (TransferringData id)
  end.

(** One iteration of the loop: [None] when the task returns. *)
Definition task_step (st : State * bool) (event : TaskEvent) : option (State * bool) :=
  let '(state, is_shutting_down) := st in
  let continue_with new_state :=
    match new_state with
    | None => Some (state, is_shutting_down)
    | Some new_state =>
        if is_shutting_down && can_shutdown state then None
        else Some (new_state, is_shutting_down)
    end in
  match event with
  | ClusterUpdate view => continue_with (sync_state view state)
  | StateTransition new_state => continue_with (Some new_state)
  | Shutdown => if can_shutdown state then None else Some (state, true)
  end.

(** * Data transfer *)

(** [replica_set_difference]: the operators of [a] that are not in [b]. *)
Definition replica_set_difference (a b : list (NodeOperator N)) : list (NodeOperator N) :=
  filter (λ op, op_id op ∉ op_id <$> b) a.

(** The closure of [filter_map]: where an operator pulls a shard from. *)
Definition shard_source {E} (node_operator_id : Z) (old new : list (NodeOperator N))
    : res E (option (NodeOperator N)) :=
  match list_find (λ op, op_id op = node_operator_id) (replica_set_difference new old) with
  | None => Ok None
  | Some (idx, _) =>
      source ← unwrap (replica_set_difference old new !! idx);
      Ok (Some source)
  end.

Inductive transfer_error := MissingMigration | MissingSecondaryShards.

(** The shards to pull and their sources. *)
Fixpoint transfer_plan {E} (node_operator_id : Z)
    (shards : list ((Z * Shard (NodeOperator N)) * (Z * Shard (NodeOperator N))))
    : res E (list (Z * NodeOperator N)) :=
  match shards with
  | [] => Ok []
  | ((shard_id, primary), (_, secondary)) :: shards =>
      source ← shard_source node_operator_id (replica_set primary) (replica_set secondary);
      rest ← transfer_plan node_operator_id shards;
      Ok (match source with Some source => (shard_id, source) :: rest | None => rest end)
  end.

(** Up to the sleep: when the transfer starts. *)
Definition transfer_start (now : Z) view : res transfer_error Z :=
  start_at ← ok_or (data_pull_scheduled_after view) MissingMigration;
  Ok (if decide (now < start_at)%Z then start_at else now).

(** After the sleep, with the view and the clock of that moment: the version the
    data is pulled with and the plan. *)
Definition transfer_data_plan (node_operator_id : Z) (now : Z) view
    : res transfer_error (Z * list (Z * NodeOperator N)) :=
  let ver := keyspace_version now view in
  primary_shards ← primary_keyspace_shards view;
  secondary_shards ← secondary_keyspace_shards now view;
  secondary_shards ← ok_or secondary_shards MissingSecondaryShards;
  plan ← transfer_plan node_operator_id (zip primary_shards secondary_shards);
  Ok (ver, plan).

(** [transfer_shard]: the nodes of the source in load-balanced order; transport
    errors are retried on the next node. *)
Fixpoint transfer_from_nodes {D} (read_data : N → Z * Z → Z → res Error D)
    (write_data : D → res Error ()) (range : Z * Z) (ver : Z) (nodes : list N) (last : res Error ())
    : res Error () :=
  match nodes with
  | [] => last
  | node :: nodes =>
      match read_data node range ver with
      | Err err =>
          if decide (err_kind err = Transport)
          then transfer_from_nodes read_data write_data range ver nodes (Err err)
          else Err err
      | Ok stream => write_data stream
      | Panic => Panic
      end
  end.

Definition transfer_shard {D} (read_data : N → Z * Z → Z → res Error D)
    (write_data : D → res Error ()) (shard_id : Z) (source : NodeOperator N) (ver : Z)
    : res Error (() * NodeOperator N) :=
  '(nodes, source) ← nodes_lb_iter source;
  u ← transfer_from_nodes read_data write_data (keyrange shard_id) ver nodes
        (Err (error_new Internal));
  Ok (u, source).

(** * Completion *)

Inductive complete_error :=
| CompleteFailed (e : complete_migration_error)
| CompleteContract
| CompleteTimeout.

(** The views observed while waiting for the commit to show, one every ten
    seconds until the timeout. *)
Fixpoint await_not_pulling (node_operator_id : Z) (migration_id : Z) (observed : list (View N Shards))
    : res complete_error State :=
  match observed with
  | [] => Err CompleteTimeout
  | view :: observed =>
      if view_is_pulling view node_operator_id
      then await_not_pulling node_operator_id migration_id observed
      else Ok (AwaitingMigrationCompletion migration_id)
  end.

(** [complete_migration]: [contract_ok] says whether the contract call went
    through. *)
Definition manager_complete_migration (node_operator_id : Z) (contract_ok : bool) view
    (observed : list (View N Shards)) (migration_id : Z) : res complete_error State :=
  match cluster_complete_migration view (Some node_operator_id) migration_id with
  | Ok _ =>
      if contract_ok then await_not_pulling node_operator_id migration_id observed
      else Err CompleteContract
  | Err (CmOperatorNotPulling _) => Ok (AwaitingMigrationCompletion migration_id)
  | Err e => Err (CompleteFailed e)
  | Panic => Panic
  end.

(** [await_migration_completion]: loops while the operator is not pulling;
    [None] while it still waits after the views observed. *)
Fixpoint await_migration_completion (node_operator_id : Z) (migration_id : Z)
    (observed : list (View N Shards)) : option State :=
  match observed with
  | [] => None
  | view :: observed =>
      if view_is_pulling view node_operator_id
      then Some (CompletingMigration migration_id)
      else await_migration_completion node_operator_id migration_id observed
  end.
End manager.
Arguments TaskEvent {_} _.
