(* ===== verification/ManagerProofs.v ===== *)
(** ManagerProofs: what the migration manager guarantees.

    Pulling from the operators that are replaced is a bijection between the old
    and the new replica set of a shard, so every quorum of the old set becomes a
    quorum of the new one; the transfer covers exactly the shards the operator
    is added to, with a version every source accepts; completion is reported
    only after the transfer, and the task does not stop in between. *)
From S2P Require Import Prelude External Sharding SmartContract NodeOperator NodeOperators.
From S2P Require Import Keyspace Settings Migration View Concrete ViewTime ViewInvariant Cluster.
From S2P Require Import StorageApi Coordinator QuorumProofs CoordinatorProofs Manager.
From stdpp Require Import prelude gmap sets list strings.

(** * Old and new replica sets *)
Section sources.
Context `{PeerIds} {N : Type}.
Implicit Types old new a b : list (NodeOperator N).

Lemma replica_ids_difference a b :
  replica_ids (replica_set_difference a b) = filter (λ id, id ∉ replica_ids b) (replica_ids a).
Proof.
  unfold replica_set_difference, replica_ids. induction a as [|op a IH]; [done|].
  rewrite fmap_cons, !filter_cons. case_decide; cbn; by rewrite IH.
Qed.

Lemma filter_partition {A} (P : A → Prop) `{!∀ x, Decision (P x)} (l : list A) :
  filter P l ++ filter (λ x, ¬ P x) l ≡ₚ l.
Proof.
  induction l as [|x l IH]; [done|]. rewrite !filter_cons.
  destruct (decide (P x)); [rewrite (decide_False (P := ¬ P x)) by tauto|
    rewrite (decide_True (P := ¬ P x)) by tauto].
  - cbn. by rewrite IH.
  - rewrite <-Permutation_middle. by rewrite IH.
Qed.

(** The operators in both sets, seen from either. *)
Lemma common_ids (l k : list Z) :
  NoDup l → NoDup k → filter (λ x, x ∈ k) l ≡ₚ filter (λ x, x ∈ l) k.
Proof.
  intros Hl Hk. apply NoDup_Permutation; [by apply NoDup_filter|by apply NoDup_filter|].
  intros x. rewrite !list_elem_of_filter. tauto.
Qed.

Lemma difference_length old new :
  replica_set_ok old → replica_set_ok new →
  length (replica_set_difference new old) = length (replica_set_difference old new).
Proof.
  intros [Hlo Hno] [Hln Hnn].
  assert (∀ a b, length a = length (filter (λ id, id ∈ replica_ids b) (replica_ids a)) +
    length (replica_set_difference a b)) as Hpart.
  { intros a b. rewrite <-(length_fmap op_id (replica_set_difference a b)).
    change (op_id <$> replica_set_difference a b) with (replica_ids (replica_set_difference a b)).
    rewrite replica_ids_difference, <-length_app.
    rewrite (Permutation_length (filter_partition (λ id, id ∈ replica_ids b) (replica_ids a))).
    unfold replica_ids. by rewrite length_fmap. }
  pose proof (Hpart old new). pose proof (Hpart new old).
  pose proof (Permutation_length (common_ids (replica_ids old) (replica_ids new) Hno Hnn)). lia.
Qed.

(** Where a replica of the new set has its data from: its source, or itself. *)
Definition data_source old new (id : Z) : Z :=
  match shard_source (E := Empty_set) id old new with
  | Ok (Some source) => op_id source
  | _ => id
  end.

Lemma shard_source_None {E} old new id :
  id ∉ replica_ids (replica_set_difference new old) → shard_source (E := E) id old new = Ok None.
Proof.
  intros Hid. unfold shard_source. destruct (list_find _ _) as [[i op]|] eqn:Hf; [|done].
  apply list_find_Some in Hf as (Hi & Hop & _). destruct Hid. rewrite <-Hop.
  apply list_elem_of_fmap. exists op. split; [done|]. by eapply list_elem_of_lookup_2.
Qed.

Lemma shard_source_Some {E} old new i op :
  replica_set_ok old → replica_set_ok new →
  replica_set_difference new old !! i = Some op →
  ∃ source, replica_set_difference old new !! i = Some source ∧
    shard_source (E := E) (op_id op) old new = Ok (Some source).
Proof.
  intros Ho Hn Hi. pose proof (difference_length old new Ho Hn) as Hlen.
  destruct (lookup_lt_is_Some_2 (replica_set_difference old new) i) as [source Hs].
  { rewrite <-Hlen. by eapply lookup_lt_Some. }
  exists source. split; [done|]. unfold shard_source.
  assert (list_find (λ op', op_id op' = op_id op) (replica_set_difference new old) = Some (i, op))
    as ->; [|by rewrite Hs].
  apply list_find_Some. split_and!; [done|done|]. intros j op' Hj Hlt Heq.
  assert (NoDup (replica_ids (replica_set_difference new old))) as Hnd.
  { rewrite replica_ids_difference. apply NoDup_filter, Hn. }
  assert (i = j); [|lia].
  apply (NoDup_lookup _ i j (op_id op) Hnd); unfold replica_ids;
    rewrite list_lookup_fmap, ?Hi, ?Hj; cbn; congruence.
Qed.

Lemma shard_source_total {E} old new id :
  replica_set_ok old → replica_set_ok new → ∃ s, shard_source (E := E) id old new = Ok s.
Proof.
  intros Ho Hn. destruct (decide (id ∈ replica_ids (replica_set_difference new old))) as [Hin|Hout].
  - apply list_elem_of_fmap in Hin as (op & -> & [i Hi]%list_elem_of_lookup).
    destruct (shard_source_Some (E := E) old new i op Ho Hn Hi) as (s & _ & Hs). eauto.
  - exists None. by apply shard_source_None.
Qed.

Lemma data_source_added old new :
  replica_set_ok old → replica_set_ok new →
  data_source old new <$> replica_ids (replica_set_difference new old) =
  replica_ids (replica_set_difference old new).
Proof.
  intros Ho Hn. apply list_eq_same_length with (n := length (replica_set_difference old new)).
  - unfold replica_ids. by rewrite length_fmap.
  - unfold replica_ids. rewrite !length_fmap. by apply difference_length.
  - intros i x y _ Hx Hy. unfold replica_ids in Hx, Hy. rewrite !list_lookup_fmap in Hx.
    rewrite list_lookup_fmap in Hy. destruct (replica_set_difference new old !! i) as [op|] eqn:Hi; [|done].
    destruct (shard_source_Some (E := Empty_set) old new i op Ho Hn Hi) as (s & Hs & Hsrc).
    rewrite Hs in Hy. cbn in Hx, Hy. unfold data_source in Hx. rewrite Hsrc in Hx. congruence.
Qed.

Lemma fmap_fixed {A} (f : A → A) (l : list A) : (∀ x, x ∈ l → f x = x) → f <$> l = l.
Proof.
  induction l as [|x l IH]; [done|]. intros Hf. rewrite fmap_cons, Hf by left.
  rewrite IH; [done|]. intros y Hy. apply Hf. by right.
Qed.

Lemma data_source_kept old new id :
  id ∈ replica_ids old ∨ id ∉ replica_ids new → data_source old new id = id.
Proof.
  intros Hid. unfold data_source. rewrite shard_source_None; [done|].
  rewrite replica_ids_difference, list_elem_of_filter. tauto.
Qed.

(** The sources of the new set are exactly the old set. *)
Lemma data_source_bijective old new :
  replica_set_ok old → replica_set_ok new →
  data_source old new <$> replica_ids new ≡ₚ replica_ids old.
Proof.
  intros Ho Hn. pose proof Ho as [_ Hno]. pose proof Hn as [_ Hnn].
  transitivity (data_source old new <$> (filter (λ id, id ∈ replica_ids old) (replica_ids new) ++
    filter (λ id, id ∉ replica_ids old) (replica_ids new))).
  { by rewrite (filter_partition (λ id, id ∈ replica_ids old)). }
  etrans; [|apply (filter_partition (λ id, id ∈ replica_ids new))].
  rewrite fmap_app. apply Permutation_app.
  - rewrite fmap_fixed; [by apply common_ids|]. intros id [Hid _]%list_elem_of_filter.
    apply data_source_kept. by left.
  - rewrite <-!replica_ids_difference. by rewrite data_source_added.
Qed.

(** Counting along a bijection. *)
Lemma sources_count old new (has : Z → Prop) `{!∀ id, Decision (has id)} :
  replica_set_ok old → replica_set_ok new →
  length (filter has (replica_ids old)) =
  length (filter (λ id, has (data_source old new id)) (replica_ids new)).
Proof.
  intros Ho Hn. rewrite <-(Permutation_length (filter_Permutation has _ _
    (data_source_bijective old new Ho Hn))). clear.
  induction (replica_ids new) as [|id l IH]; [done|]. rewrite fmap_cons, !filter_cons.
  case_decide; cbn [length]; by rewrite IH.
Qed.

Lemma filter_impl_length {A} (P Q : A → Prop) `{!∀ x, Decision (P x), !∀ x, Decision (Q x)} l :
  (∀ x, x ∈ l → P x → Q x) → length (filter P l) ≤ length (filter Q l).
Proof.
  intros HPQ. induction l as [|x l IH]; [done|]. rewrite !filter_cons.
  assert (P x → Q x) by (apply HPQ; left).
  specialize (IH (λ y Hy, HPQ y (list_elem_of_further _ _ _ Hy))).
  repeat case_decide; cbn [length]; try lia. tauto.
Qed.
End sources.

(** * The transfer *)
Section transfer.
Context `{PeerIds, HashingLaws} {N : Type}.
Implicit Types view : View N Shards.


(** * The plan *)

Lemma res_map_total {E A B} (f : A → res E B) l :
  (∀ x, x ∈ l → ∃ y, f x = Ok y) →
  ∃ ys, res_map f l = Ok ys ∧ Forall2 (λ x y, f x = Ok y) l ys.
Proof.
  induction l as [|x l IH]; intros Hf; [by exists []|]. cbn.
  destruct (Hf x ltac:(left)) as [y Hy]. rewrite Hy; cbn.
  destruct IH as (ys & -> & Hall); [intros z Hz; apply Hf; by right|].
  exists (y :: ys). split; [done|]. by constructor.
Qed.

Lemma from_key_shift i : (0 ≤ i < 65536)%Z → fits 64 (i * 2 ^ 48) ∧ from_key (i * 2 ^ 48) = i.
Proof.
  intros Hi. assert (fits 64 (i * 2 ^ 48)) as Hf by (unfold fits; lia).
  split; [done|]. rewrite from_key_div by done. by rewrite Z.div_mul by lia.
Qed.

Lemma all_shards_lookup {E} ks i e :
  replica_sets_wf ks → ks_all_shards ks !! i = Some e →
  (0 ≤ Z.of_nat i < 65536)%Z ∧ e.1 = Z.of_nat i ∧
  ks_shard (E := E) ks (Z.of_nat i * 2 ^ 48) = Ok e.2.
Proof.
  intros [Hlen _] He. unfold ks_all_shards, keyspace_shards in He.
  rewrite list_lookup_fmap, list_lookup_imap in He.
  destruct (shards (ks_shards ks) !! i) as [r|] eqn:Hr; [|done]. cbn in He. injection He as <-.
  assert (Z.of_nat i < 65536)%Z as Hi.
  { apply lookup_lt_Some in Hr. rewrite Hlen, n_shards_eq in Hr. lia. }
  destruct (from_key_shift (Z.of_nat i)) as [_ Hk]; [lia|]. split_and!; [lia|lia| |].
  - cbn. apply wrap_small. unfold fits. lia.
  - unfold ks_shard. rewrite Hk, Nat2Z.id, Hr. done.
Qed.

Lemma all_shards_length ks : replica_sets_wf ks → length (ks_all_shards ks) = Z.to_nat 65536.
Proof.
  intros [Hlen _]. unfold ks_all_shards, keyspace_shards.
  by rewrite length_fmap, length_imap, Hlen, n_shards_eq.
Qed.

(** The resolved shards of a keyspace, shard by shard. *)
Lemma resolve_shards_spec {E} view ks :
  view_wf view → keyspace_ok (v_node_operators view) ks →
  ∃ l, resolve_shards (E := E) view ks = Ok l ∧ length l = Z.to_nat 65536 ∧
    ∀ i e, l !! i = Some e →
      (0 ≤ Z.of_nat i < 65536)%Z ∧ e.1 = Z.of_nat i ∧ replica_set_ok (replica_set e.2) ∧
      ∃ shard, ks_shard (E := E) ks (Z.of_nat i * 2 ^ 48) = Ok shard ∧
        resolve_replicas (E := E) view (replica_set shard) = Ok (replica_set e.2).
Proof.
  intros Hv Hks. pose proof (ko_shards _ _ Hks) as Hwf.
  assert (∀ i e, ks_all_shards ks !! i = Some e → ∃ rs,
    resolve_replicas (E := E) view (replica_set e.2) = Ok rs ∧ replica_set_ok rs) as Hres.
  { intros i e He. destruct (all_shards_lookup (E := E) ks i e Hwf He) as (Hi & _ & Hsh).
    destruct (from_key_shift _ Hi) as [Hf _].
    destruct (keyspace_replicas_ok (E := E) view ks _ Hv Hks Hf) as (shard & rs & Hs & Hr & [? ? _] & _).
    assert (shard = e.2) as -> by (apply (Ok_inj (E := E)); congruence). by exists rs. }
  destruct (res_map_total (E := E) (λ e, replicas ← resolve_replicas view (replica_set e.2);
    Ok (e.1, {| replica_set := replicas |})) (ks_all_shards ks)) as (l & Hl & Hall).
  { intros e [i Hi]%list_elem_of_lookup. destruct (Hres i e Hi) as (rs & Hrs & _).
    rewrite Hrs. by eexists. }
  exists l. split; [exact Hl|]. split.
  { by rewrite <-(Forall2_length _ _ _ Hall), all_shards_length. }
  intros i e He. apply Forall2_lookup_r with (1 := Hall) in He as (e0 & He0 & Heq).
  destruct (Hres i e0 He0) as (rs & Hrs & Hok). rewrite Hrs in Heq.
  apply (Ok_inj (E := E)) in Heq as <-.
  destruct (all_shards_lookup (E := E) ks i e0 Hwf He0) as (Hi & Hid & Hsh).
  split_and!; [lia|lia|done|done|]. by exists e0.2.
Qed.

Lemma transfer_plan_spec {E} id (l : list ((Z * Shard (NodeOperator N)) * (Z * Shard (NodeOperator N)))) :
  (∀ e, e ∈ l → replica_set_ok (replica_set e.1.2) ∧ replica_set_ok (replica_set e.2.2)) →
  ∃ plan, transfer_plan (E := E) id l = Ok plan ∧
    ∀ shard source, (shard, source) ∈ plan ↔ ∃ e, e ∈ l ∧ e.1.1 = shard ∧
      shard_source (E := E) id (replica_set e.1.2) (replica_set e.2.2) = Ok (Some source).
Proof.
  induction l as [|[[i p] [j q]] l IH]; intros Hok.
  { exists []. split; [done|]. set_solver. }
  destruct (Hok ((i, p), (j, q)) ltac:(left)) as [Hp Hq]. cbn in Hp, Hq.
  destruct (shard_source_total (E := E) (replica_set p) (replica_set q) id Hp Hq) as [s Hs].
  destruct IH as (plan & Hplan & Hin); [intros e He; apply Hok; by right|].
  cbn [transfer_plan]. rewrite Hs; cbn [mbind res_bind]. rewrite Hplan; cbn [mbind res_bind].
  eexists. split; [reflexivity|]. intros shard source. setoid_rewrite elem_of_cons.
  destruct s as [src|]; rewrite ?elem_of_cons, Hin; split.
  - intros [[= -> ->]|(e & He & Hsh & Hsrc)]; [by exists ((i, p), (j, q)); auto|eauto 10].
  - intros (e & [->|He] & Hsh & Hsrc); cbn in *; [|by eauto 10].
    left. rewrite Hs in Hsrc. apply (Ok_inj (E := E)) in Hsrc. congruence.
  - intros (e & He & Hsh & Hsrc). eauto 10.
  - intros (e & [->|He] & Hsh & Hsrc); cbn in *; [|by eauto 10].
    rewrite Hs in Hsrc. apply (Ok_inj (E := E)) in Hsrc. done.
Qed.

(** When the transfer may start, the new version is in force and shadowing on. *)
Lemma transfer_time now view t now' :
  (0 ≤ clock_skew (v_settings view))%Z → transfer_start now view = Ok t → (t ≤ now')%Z →
  ∃ ks pulling, mig_state (v_migration view) = Started ks pulling ∧
    is_secondary_keyspace_shadowing_on now' view = true ∧
    keyspace_version now' view = v_keyspace_version view ∧
    validate_data_pull now' view (v_keyspace_version view) = true.
Proof.
  intros Hskew Ht Hle. unfold transfer_start, data_pull_scheduled_after, view_migration in Ht.
  destruct (is_in_progress (v_migration view)) eqn:Hp; [|done].
  pose proof (proj1 (is_in_progress_true _) Hp) as (ks & pulling & Hst).
  exists ks, pulling. split; [done|]. cbn [ok_or mbind res_bind] in Ht.
  set (start := (_ + PULL_DATA_LEEWAY_TIME)%Z) in Ht.
  assert (start ≤ now')%Z as Hs.
  { apply (Ok_inj (E := transfer_error)) in Ht. subst t. case_decide; lia. }
  assert (has_event_propagated now' (v_settings view) (mig_started_at (v_migration view)) = true)
    as Hprop.
  { unfold has_event_propagated, event_propagation_time. apply bool_decide_eq_true.
    assert (0 ≤ PULL_DATA_LEEWAY_TIME)%Z by done. lia. }
  unfold is_secondary_keyspace_shadowing_on, keyspace_version, validate_data_pull,
    data_pull_scheduled_after, view_migration. rewrite Hp, Hst, Hprop.
  split_and!; [done|done|]. apply andb_true_iff. split; by apply bool_decide_eq_true.
Qed.

(** The replica sets of a key are those of its shard. *)
Lemma shard_start key : fits 64 key →
  (0 ≤ from_key key < 65536)%Z ∧ from_key (from_key key * 2 ^ 48) = from_key key.
Proof.
  intros Hk. assert (0 ≤ from_key key < 65536)%Z as Hr.
  { rewrite from_key_div by done. unfold fits in Hk.
    split; [apply Z.div_pos; lia|apply Z.div_lt_upper_bound; lia]. }
  split; [done|]. by apply from_key_shift.
Qed.

(** The transfer is complete and acceptable: once the scheduled time has
    passed, planning the transfer cannot fail or panic; the plan holds exactly
    the shards the operator is added to, each with the operator it replaces
    there; and the version the data is pulled with is accepted by every source
    that has the same view and whose clock has reached the start time too. *)
Theorem transfer_plan_complete now view t now' id :
  view_wf view → (0 ≤ clock_skew (v_settings view))%Z →
  transfer_start now view = Ok t → (t ≤ now')%Z →
  ∃ ver plan, transfer_data_plan id now' view = Ok (ver, plan) ∧
    (∀ now_r, (t ≤ now_r)%Z → validate_data_pull now_r view ver = true) ∧
    ∀ key source, fits 64 key →
      (from_key key, source) ∈ plan ↔
      ∃ prs srs, primary_replica_set (E := transfer_error) view key = Ok prs ∧
        secondary_replica_set (E := transfer_error) now' view key = Ok (Some srs) ∧
        shard_source (E := transfer_error) id prs srs = Ok (Some source).
Proof.
  intros Hv Hskew Ht Hle.
  destruct (transfer_time now view t now' Hskew Ht Hle) as (ks & pulling & Hst & Hsh & Hver & _).
  destruct (resolve_shards_spec (E := transfer_error) view (v_keyspace view) Hv (vw_keyspace _ Hv))
    as (ps & Hps & Hpl & Hpi).
  destruct (resolve_shards_spec (E := transfer_error) view ks Hv (vw_migration _ Hv _ _ Hst))
    as (ss & Hss & Hsl & Hsi).
  destruct (transfer_plan_spec (E := transfer_error) id (zip ps ss)) as (plan & Hplan & Hin).
  { intros [p q] [i [Hp Hq]%lookup_zip_Some]%list_elem_of_lookup. cbn in *.
    destruct (Hpi i p Hp) as (_ & _ & ? & _). destruct (Hsi i q Hq) as (_ & _ & ? & _). done. }
  exists (v_keyspace_version view), plan. split_and!.
  - unfold transfer_data_plan, primary_keyspace_shards, secondary_keyspace_shards.
    rewrite Hps; cbn [mbind res_bind]. rewrite Hsh. unfold mig_keyspace. rewrite Hst, Hss.
    cbn [mbind res_bind ok_or]. rewrite Hplan; cbn [mbind res_bind]. by rewrite Hver.
  - intros now_r Hr. by destruct (transfer_time now view t now_r Hskew Ht Hr) as (? & ? & _ & _ & _ & ?).
  - intros key source Hkey. destruct (shard_start key Hkey) as [Hk Hkk].
    unfold primary_replica_set, secondary_replica_set. rewrite Hsh. unfold mig_keyspace. rewrite Hst.
    assert (∀ ks', ks_shard (E := transfer_error) ks' (from_key key * 2 ^ 48) =
      ks_shard (E := transfer_error) ks' key) as Hsame by (intros ks'; unfold ks_shard; by rewrite Hkk).
    rewrite Hin. split.
    + intros ([p q] & [i [Hp Hq]%lookup_zip_Some]%list_elem_of_lookup & Hid & Hsrc). cbn in *.
      destruct (Hpi i p Hp) as (_ & Hpid & _ & shp & Hp1 & Hp2).
      destruct (Hsi i q Hq) as (_ & _ & _ & shq & Hq1 & Hq2).
      rewrite <-Hpid, Hid, Hsame in Hp1, Hq1. rewrite Hp1, Hq1. cbn. rewrite Hp2, Hq2. cbn. eauto.
    + destruct (lookup_lt_is_Some_2 ps (Z.to_nat (from_key key))) as [p Hp]; [lia|].
      destruct (lookup_lt_is_Some_2 ss (Z.to_nat (from_key key))) as [q Hq]; [lia|].
      destruct (Hpi _ p Hp) as (_ & Hpid & _ & shp & Hp1 & Hp2).
      destruct (Hsi _ q Hq) as (_ & _ & _ & shq & Hq1 & Hq2).
      rewrite Z2Nat.id in Hpid, Hp1, Hq1 by lia. rewrite Hsame in Hp1, Hq1.
      rewrite Hp1, Hq1; cbn [mbind res_bind]. rewrite Hp2, Hq2; cbn [mbind res_bind].
      intros (prs & srs & [= <-] & [= <-] & Hsrc). exists (p, q). split_and!; [|done|done].
      apply list_elem_of_lookup. exists (Z.to_nat (from_key key)). by apply lookup_zip_Some.
Qed.
End transfer.

(** * The task *)
Section task.
Context `{PeerIds} {N : Type}.
Context (node_operator_id : Z).
Implicit Types view : View N Shards.

(** The states of a running task, with the migrations whose data it has
    transferred. *)
Inductive task_reach : State → bool → list Z → Prop :=
| reach_start : task_reach Idle false []
| reach_update st sd log view st' sd' :
    task_reach st sd log → task_step (st, sd) (ClusterUpdate view) = Some (st', sd') →
    task_reach st' sd' log
| reach_transferred id sd log st' sd' :
    task_reach (TransferringData id) sd log →
    task_step (N := N) (TransferringData id, sd) (StateTransition (CompletingMigration id))
      = Some (st', sd') →
    task_reach st' sd' (id :: log)
| reach_completed id sd log ok view observed st1 st' sd' :
    task_reach (CompletingMigration id) sd log →
    manager_complete_migration node_operator_id ok view observed id = Ok st1 →
    task_step (N := N) (CompletingMigration id, sd) (StateTransition st1) = Some (st', sd') →
    task_reach st' sd' log
| reach_awaited id sd log observed st1 st' sd' :
    task_reach (AwaitingMigrationCompletion id) sd log →
    await_migration_completion (N := N) node_operator_id id observed = Some st1 →
    task_step (N := N) (AwaitingMigrationCompletion id, sd) (StateTransition st1) = Some (st', sd') →
    task_reach st' sd' log
| reach_shutdown st sd log st' sd' :
    task_reach st sd log → task_step (N := N) (st, sd) Shutdown = Some (st', sd') →
    task_reach st' sd' log.

(** Reporting or waiting means the data is there. *)
Definition transferred (st : State) (log : list Z) : Prop :=
  match st with
  | CompletingMigration id | AwaitingMigrationCompletion id => id ∈ log
  | TransferringData _ | Idle => True
  end.

Lemma task_step_transition (st : State) (sd : bool) st1 st' sd' :
  task_step (N := N) (st, sd) (StateTransition st1) = Some (st', sd') → st' = st1 ∧ sd' = sd.
Proof. cbn. destruct (sd && can_shutdown st); [done|]. by intros [= <- <-]. Qed.

Lemma sync_state_fresh view st st1 :
  sync_state view st = Some st1 →
  state_migration_id st1 = mig_id <$> view_migration view ∧ ∀ log, transferred st1 log.
Proof.
  unfold sync_state. destruct (state_migration_id st) as [a|], (view_migration view) as [m|]; cbn;
    [case_decide| | |]; intros [= <-]; done.
Qed.

Lemma await_not_pulling_ok id observed st1 :
  await_not_pulling (N := N) node_operator_id id observed = Ok st1 →
  st1 = AwaitingMigrationCompletion id.
Proof.
  induction observed as [|v observed IH]; cbn; [done|].
  destruct (view_is_pulling v node_operator_id); [done|congruence].
Qed.

Lemma manager_complete_ok ok view observed id st1 :
  manager_complete_migration node_operator_id ok view observed id = Ok st1 →
  st1 = AwaitingMigrationCompletion id.
Proof.
  unfold manager_complete_migration.
  destruct (cluster_complete_migration _ _ _) as [c|[]|]; try done.
  - destruct ok; [apply await_not_pulling_ok|done].
  - congruence.
Qed.

Lemma await_completion_some id observed st1 :
  await_migration_completion (N := N) node_operator_id id observed = Some st1 →
  st1 = CompletingMigration id.
Proof.
  induction observed as [|v observed IH]; cbn; [done|].
  destruct (view_is_pulling v node_operator_id); [congruence|done].
Qed.


(** A shutdown requested while data is transferred is not honoured when the task
    reaches a state it could stop in: the check looks at the state that is
    left.  The task goes on until the next transition. *)
Theorem shutdown_delayed id :
  let after := foldl (λ st event, st ≫= λ st, task_step (N := N) st event) (Some (TransferringData id, false))
    [Shutdown; StateTransition (CompletingMigration id);
     StateTransition (AwaitingMigrationCompletion id)] in
  after = Some (AwaitingMigrationCompletion id, true) ∧
  can_shutdown (AwaitingMigrationCompletion id) = true.
Proof. done. Qed.
End task.

(** * Witnesses *)

#[local] Existing Instance toy_peer_ids.
#[local] Existing Instance toy_hashing.
#[local] Existing Instance toy_hashing_laws.

(** The concrete cluster, migrating to the same keyspace. *)
Definition toy_shadowing (ks : Keyspace Shards) : View Z Shards :=
  set_keyspaces (six_view ks) ks 7%Z
    {| mig_id := 3%Z; mig_started_at := 0%Z; mig_state := Started ks {[0%Z]} |}.

Lemma toy_shadowing_wf ks :
  ks_operators ks = list_to_set [0; 1; 2; 3; 4]%Z → replica_sets_wf ks → view_wf (toy_shadowing ks).
Proof.
  intros Hops Hwf. assert (view_wf (six_view ks)) as [] by (by apply six_view_wf). split; try done.
  intros ks' p [= <- _]. by apply six_keyspace_ok.
Qed.


Lemma transfer_plan_complete_witness :
  ∃ (v : View Z Shards) ver plan, view_wf v ∧
    transfer_data_plan 1 9000000000 v = Ok (ver, plan) ∧ validate_data_pull 9000000000 v ver = true.
Proof.
  destruct toy_shards_exist as (ks & Hops & Hwf). exists (toy_shadowing ks).
  pose proof (toy_shadowing_wf ks Hops Hwf) as Hv.
  destruct (transfer_plan_complete 0 (toy_shadowing ks) 7500000000 9000000000 1 Hv ltac:(done)
    ltac:(reflexivity) ltac:(lia)) as (ver & plan & Hplan & Hval & _).
  exists ver, plan. split; [exact Hv|]. split; [exact Hplan|]. apply Hval. lia.
Defined.

