(* ===== verification/RocksContext.v ===== *)
(** RocksContext: how a database combines the updates of a record
    (src/crates/rocks/src/db/context.rs, db/compaction/merge.rs,
    db/compaction/filters.rs).

    Every write is a merge operand.  RocksDB folds operands into the stored
    context when it reads or compacts ([full_merge]) and may combine neighbouring
    operands into one beforehand ([partial_merge]) whenever it likes.  Timestamps
    are the record versions. *)
From S2P Require Import Prelude.
From stdpp Require Import prelude list sorting.

(** * Data *)

Inductive MergeOpKind (T : Type) :=
| KindSet (value : T) (expiration : Z)
| KindSetVal (value : T)
| KindSetExp (expiration : Z)
| KindDel (expiration : Z).
Arguments KindSet {_} _ _.
Arguments KindSetVal {_} _.
Arguments KindSetExp {_} _.
Arguments KindDel {_} _.

Record MergeOp (T : Type) := { mo_kind : MergeOpKind T; mo_timestamp : Z }.
Arguments mo_kind {_} _.
Arguments mo_timestamp {_} _.
Arguments Build_MergeOp {_} _ _.

(** [Payload<T>] is an option under another name. *)
Record DataContext (T : Type) := {
  dc_payload : option T;
  dc_expires : Z;
  dc_updated : option Z;
  dc_created : Z;
}.
Arguments dc_payload {_} _.
Arguments dc_expires {_} _.
Arguments dc_updated {_} _.
Arguments dc_created {_} _.
Arguments Build_DataContext {_} _ _ _ _.

#[export] Instance DataContext_eq_dec {T} `{EqDecision T} : EqDecision (DataContext T).
Proof. solve_decision. Defined.

Definition LINGER_SECS : Z := 24 * 60 * 60.
Definition MAX_TTL_SECS : Z := 30 * 86400 + 120.
Definition UPDATE_TIMESTAMP_LEEWAY : Z := 120 * 1000 * 1000.

Section context.
Context {T : Type}.
Implicit Types op : MergeOp T.
Implicit Types ctx : DataContext T.

(** [MergeOp::set], [set_val], [set_exp] and [del]; [new] only logs. *)
Definition mo_set (value : T) (expiration timestamp : Z) : MergeOp T :=
  {| mo_kind := KindSet value expiration; mo_timestamp := timestamp |}.
Definition mo_set_val (value : T) (timestamp : Z) : MergeOp T :=
  {| mo_kind := KindSetVal value; mo_timestamp := timestamp |}.
Definition mo_set_exp (expiration timestamp : Z) : MergeOp T :=
  {| mo_kind := KindSetExp expiration; mo_timestamp := timestamp |}.
Definition mo_del (now_secs timestamp : Z) : MergeOp T :=
  {| mo_kind := KindDel (u64_add now_secs LINGER_SECS); mo_timestamp := timestamp |}.

(** [impl Merge<Self> for MergeOp<T>]. *)
Definition merge_kind (self input : MergeOpKind T) : MergeOpKind T :=
  match self, input with
  | _, KindSet v e => KindSet v e
  | _, KindDel e => KindDel e
  | KindSetVal _, KindSetVal v => KindSetVal v
  | KindSetExp _, KindSetExp e => KindSetExp e
  | KindSet _ e, KindSetVal v => KindSet v e
  | KindSet v _, KindSetExp e => KindSet v e
  | KindSetVal v, KindSetExp e => KindSet v e
  | KindSetExp e, KindSetVal v => KindSet v e
  | KindDel e, KindSetVal _ | KindDel e, KindSetExp _ => KindDel e
  end.

Definition merge_op (self input : MergeOp T) : MergeOp T :=
  if decide (mo_timestamp input ≤ mo_timestamp self)%Z then self
  else {| mo_kind := merge_kind (mo_kind self) (mo_kind input);
          mo_timestamp := mo_timestamp input |}.

(** * Contexts *)

Definition dc_default : DataContext T :=
  {| dc_payload := None; dc_expires := 0; dc_updated := None; dc_created := 0 |}.

(** [modification_timestamp().unwrap_or(creation_timestamp())]: the version. *)
Definition dc_version ctx : Z := default (dc_created ctx) (dc_updated ctx).

Definition expired (now_secs : Z) ctx : bool := bool_decide (dc_expires ctx ≤ now_secs)%Z.

Definition into_payload (now_secs : Z) ctx : option T :=
  if expired now_secs ctx then None else dc_payload ctx.

(** [impl Merge<MergeOp<T>> for DataContext<T>]. *)
Definition apply_kind (kind : MergeOpKind T) (payload : option T) (expires : Z) : option T * Z :=
  match kind with
  | KindSet v e => (Some v, e)
  | KindSetVal v => (Some v, expires)
  | KindSetExp e => (payload, e)
  | KindDel e => (None, e)
  end.

Definition ctx_merge ctx op : DataContext T :=
  if decide (mo_timestamp op ≤ dc_version ctx)%Z then ctx
  else
    let '(payload, expires) := apply_kind (mo_kind op) (dc_payload ctx) (dc_expires ctx) in
    {| dc_payload := payload; dc_expires := expires; dc_updated := Some (mo_timestamp op);
       dc_created := dc_created ctx |}.

(** [impl From<DataContext<T>> for MergeOp<T>], for the export of a shard. *)
Definition ctx_to_op (now_secs : Z) ctx : MergeOp T :=
  match dc_payload ctx with
  | Some value => mo_set value (dc_expires ctx) (dc_version ctx)
  | None => mo_del now_secs (dc_version ctx)
  end.

(** * The merge operator, on decoded operands *)

Definition full_merge (existing : option (DataContext T)) (ops : list (MergeOp T)) : DataContext T :=
  foldl ctx_merge (default dc_default existing) ops.

Definition partial_merge (ops : list (MergeOp T)) : option (MergeOp T) :=
  match ops with
  | [] => None
  | op :: ops => Some (foldl merge_op op ops)
  end.

(** * Compaction *)

Inductive CompactionDecision := Keep | Remove.

Definition filter_internal (now_secs now_micros : Z) ctx : CompactionDecision :=
  if expired now_secs ctx || bool_decide (dc_payload ctx = None) then Remove
  else
    let expires_in := Z.max 0 (dc_expires ctx - now_secs) in
    if decide (MAX_TTL_SECS < expires_in)%Z then Remove
    else if decide (u64_add now_micros UPDATE_TIMESTAMP_LEEWAY < dc_version ctx)%Z then Remove
    else Keep.
End context.

(** * Last writer wins *)
Section lww.
Context {T : Type}.
Implicit Types op : MergeOp T.
Implicit Types ctx : DataContext T.

(** Operations that determine the whole record. *)
Definition absolute op : Prop :=
  match mo_kind op with
  | KindSet _ _ | KindDel _ => True
  | KindSetVal _ | KindSetExp _ => False
  end.

Lemma ctx_merge_old ctx op : (mo_timestamp op ≤ dc_version ctx)%Z → ctx_merge ctx op = ctx.
Proof. intros Hle. unfold ctx_merge. by rewrite decide_True. Qed.

Lemma ctx_merge_version ctx op :
  dc_version (ctx_merge ctx op) = Z.max (dc_version ctx) (mo_timestamp op).
Proof.
  unfold ctx_merge. case_decide; [lia|].
  destruct (apply_kind _ _ _); unfold dc_version at 1; cbn. lia.
Qed.

(** An absolute operation forgets what was there. *)
Lemma ctx_merge_absolute ctx ctx' op :
  absolute op → (dc_version ctx < mo_timestamp op)%Z → (dc_version ctx' < mo_timestamp op)%Z →
  dc_created ctx = dc_created ctx' → ctx_merge ctx op = ctx_merge ctx' op.
Proof.
  intros Habs H1 H2 Hc. unfold ctx_merge. rewrite !decide_False by lia.
  destruct op as [[] ts]; cbn in *; by rewrite ?Hc.
Qed.

Lemma ctx_merge_created ctx op : dc_created (ctx_merge ctx op) = dc_created ctx.
Proof. unfold ctx_merge. case_decide; [done|]. by destruct (apply_kind _ _ _). Qed.

(** The outcome of a history of absolute operations: the newest of them, if it
    is newer than what was stored. *)
Lemma merge_winner ctx ops :
  Forall absolute ops →
  let r := foldl ctx_merge ctx ops in
  (r = ctx ∧ ∀ op, op ∈ ops → (mo_timestamp op ≤ dc_version ctx)%Z) ∨
  (∃ op, op ∈ ops ∧ (dc_version ctx < mo_timestamp op)%Z ∧
     (∀ op', op' ∈ ops → (mo_timestamp op' ≤ mo_timestamp op)%Z) ∧ r = ctx_merge ctx op).
Proof.
  revert ctx; induction ops as [|op ops IH]; intros ctx Habs; cbn.
  { left. split; [done|]. by intros op ?%elem_of_nil. }
  apply Forall_cons in Habs as [Ha Habs]. destruct (IH (ctx_merge ctx op) Habs)
    as [[-> Hle]|(o & Ho & Hlt & Hmax & Hr)]; rewrite ctx_merge_version in *.
  - destruct (decide (mo_timestamp op ≤ dc_version ctx)%Z) as [Hold|Hnew].
    + left. rewrite ctx_merge_old by done. split; [done|].
      intros o [->|Ho]%elem_of_cons; [done|]. specialize (Hle o Ho). lia.
    + right. exists op. split_and!; [left|lia| |done].
      intros o [->|Ho]%elem_of_cons; [done|]. specialize (Hle o Ho). lia.
  - right. exists o. split_and!; [by right|lia| |].
    + intros o' [->|Ho']%elem_of_cons; [lia|by apply Hmax].
    + cbn in Hr. rewrite Hr. apply ctx_merge_absolute; [|rewrite ctx_merge_version; lia|lia|
        apply ctx_merge_created].
      by eapply Forall_forall.
Qed.


(** * Partial merges *)

Lemma merge_op_absolute op op' :
  absolute op' →
  merge_op op op' = if decide (mo_timestamp op' ≤ mo_timestamp op)%Z then op else op'.
Proof.
  intros Habs. unfold merge_op. case_decide; [done|].
  destruct op as [[] ts], op' as [[] ts']; cbn in *; done.
Qed.

Lemma partial_merge_step ctx op op' :
  absolute op → absolute op' →
  ctx_merge ctx (merge_op op op') = ctx_merge (ctx_merge ctx op) op'.
Proof.
  intros Ha Ha'. rewrite merge_op_absolute by done. case_decide as Hts.
  - rewrite (ctx_merge_old (ctx_merge ctx op)); [done|]. rewrite ctx_merge_version. lia.
  - destruct (decide (mo_timestamp op' ≤ dc_version ctx)%Z) as [Hold|Hnew].
    + rewrite !ctx_merge_old; [done|lia|rewrite ctx_merge_version; lia|done].
    + apply ctx_merge_absolute; [done|lia|rewrite ctx_merge_version; lia|].
      by rewrite ctx_merge_created.
Qed.

Lemma merge_op_keeps_absolute op op' : absolute op → absolute op' → absolute (merge_op op op').
Proof. intros ??. rewrite merge_op_absolute by done. by case_decide. Qed.

Lemma partial_merge_fold ctx op ops :
  absolute op → Forall absolute ops →
  ctx_merge ctx (foldl merge_op op ops) = foldl ctx_merge (ctx_merge ctx op) ops.
Proof.
  revert op; induction ops as [|op' ops IH]; intros op Ha Hall; [done|].
  apply Forall_cons in Hall as [Ha' Hall]. cbn.
  rewrite IH by (try done; by apply merge_op_keeps_absolute). by rewrite partial_merge_step.
Qed.

(** Combining neighbouring writes and deletes before they are applied cannot
    be observed: replacing any run of operands by its partial merge, anywhere in
    a history, gives the same record. *)
Theorem partial_merge_sound existing (before run after : list (MergeOp T)) merged :
  Forall absolute run → partial_merge run = Some merged →
  full_merge existing (before ++ merged :: after) = full_merge existing (before ++ run ++ after).
Proof.
  intros Hall Hm. destruct run as [|op run]; [done|]. injection Hm as <-.
  apply Forall_cons in Hall as [Ha Hall]. unfold full_merge. rewrite !foldl_app. cbn.
  by rewrite partial_merge_fold.
Qed.

(** * Export and import *)

(** What a client sees of a record. *)
Definition visible (now_secs : Z) ctx : option (T * Z) :=
  (λ value, (value, dc_version ctx)) <$> into_payload now_secs ctx.

(** Moving a record to another database is a last-writer-wins join: after
    importing the exported record a client sees what it would have seen in the
    database with the newer version, also for deleted records; so a migration
    never brings an older version back over a newer one. *)
Theorem import_lww now_secs existing ctx :
  let target := default dc_default existing in
  visible now_secs (full_merge existing [ctx_to_op now_secs ctx]) =
    visible now_secs (if decide (dc_version target < dc_version ctx)%Z then ctx else target) ∧
  dc_version (full_merge existing [ctx_to_op now_secs ctx]) =
    Z.max (dc_version target) (dc_version ctx).
Proof.
  intros target.
  assert (mo_timestamp (ctx_to_op now_secs ctx) = dc_version ctx) as Hts
    by (unfold ctx_to_op; by destruct (dc_payload ctx)).
  unfold full_merge. cbn [foldl]. fold target. rewrite ctx_merge_version, Hts. split; [|done].
  unfold ctx_merge. rewrite Hts. case_decide as Hd.
  - by rewrite decide_False by lia.
  - rewrite decide_True by lia. unfold ctx_to_op.
    destruct (dc_payload ctx) as [v|] eqn:Hp; cbn; unfold visible, into_payload, expired, dc_version;
      cbn; rewrite Hp; [done|]. by repeat case_match.
Qed.
End lww.

(** * Where it breaks *)

(** With expiration updates, combining operands early can bring a stale
    value back: a stored value of version 10, a late write of version 5 and an
    expiration update of version 12 give version 10's value when applied one by
    one, but version 5's if RocksDB combines the two operands first. *)
Theorem partial_merge_stale_overwrite :
  let stored := full_merge None [mo_set 100%Z 1000 10] in
  let ops := [mo_set 50%Z 1000 5; mo_set_exp 2000 12] in
  ∃ merged, partial_merge ops = Some merged ∧
    visible 0 (full_merge (Some stored) ops) = Some (100, 12)%Z ∧
    visible 0 (full_merge (Some stored) [merged]) = Some (50, 12)%Z.
Proof. eexists. split_and!; reflexivity. Qed.

(** The mark of a deleted record does not linger: although it is written
    with an expiration a day ahead, so that a concurrent older write cannot bring
    the record back, compaction drops every context without a payload at once;
    the older write then succeeds. *)
Theorem tombstone_not_lingering {T} (value : T) now expiration version :
  (0 < version)%Z → fits 64 (now + LINGER_SECS) → (0 ≤ now)%Z → (now < expiration)%Z →
  let write := mo_set value expiration version in
  let deleted := full_merge None [write; mo_del now (version + 1)] in
  expired now deleted = false ∧ filter_internal now (version + 1) deleted = Remove ∧
  visible now (full_merge (Some deleted) [write]) = None ∧
  visible now (full_merge None [write]) = Some (value, version).
Proof.
  intros Hv Hfit Hn He write deleted.
  assert (u64_add now LINGER_SECS = now + LINGER_SECS)%Z as Hadd
    by (unfold u64_add; by apply wrap_small).
  assert (deleted = {| dc_payload := None; dc_expires := (now + LINGER_SECS)%Z;
                       dc_updated := Some (version + 1)%Z; dc_created := 0%Z |}) as ->.
  { unfold deleted, full_merge. cbn [foldl default].
    rewrite (ctx_merge_absolute _ dc_default (mo_del now (version + 1)));
      [|done|rewrite ctx_merge_version; cbn; lia|cbn; lia|by rewrite ctx_merge_created].
    unfold ctx_merge; cbn. rewrite decide_False by lia. by rewrite <-Hadd. }
  split_and!.
  - unfold expired; cbn. apply bool_decide_eq_false. unfold LINGER_SECS. lia.
  - unfold filter_internal; cbn. by rewrite orb_true_r.
  - unfold full_merge; cbn. rewrite ctx_merge_old by (unfold write, dc_version; cbn; lia).
    unfold visible, into_payload. cbn. by case_match.
  - unfold full_merge, ctx_merge; cbn. rewrite decide_False by (unfold dc_version; cbn; lia). cbn.
    unfold visible, into_payload, expired; cbn. by rewrite bool_decide_false by lia.
Qed.

(** * Witnesses *)

Definition toy_ops_history : list (MergeOp Z) :=
  [mo_set 7%Z 100 1; mo_del 10 3; mo_set 8%Z 100 2].


Lemma partial_merge_sound_witness :
  full_merge None (mo_set 7%Z 100 1 :: [mo_del 10 3]) =
  full_merge None ([mo_set 7%Z 100 1] ++ [mo_set 8%Z 100 2; mo_del 10 3] ++ []).
Proof.
  apply (partial_merge_sound None [mo_set 7%Z 100 1] [mo_set 8%Z 100 2; mo_del 10 3] []).
  - repeat constructor.
  - reflexivity.
Defined.

Lemma tombstone_not_lingering_witness :
  visible 0 (full_merge None [mo_set 7%Z 1000 5]) = Some (7%Z, 5%Z).
Proof.
  apply (tombstone_not_lingering 7%Z 0 1000 5); unfold fits, LINGER_SECS; lia.
Defined.
