(* ===== verification/RocksKeys.v ===== *)
(** RocksKeys: the keys of the database (src/crates/rocks/src/db/schema/keys.rs,
    db/schema.rs, db/schema/columns.rs, db/cf.rs, util/serde.rs,
    [dynamic_prefix_extractor] of db.rs, and [key] of src/crates/db/src/storage.rs).

    A storage key is the keyspace position, the length of the data and the data;
    a map entry is stored under the key of the map followed by the serialized
    field.  The theorems say that distinct keys cannot collide, that every entry
    of a map and no other has the prefix of the map, and that the byte order
    follows the keyspace position. *)
From S2P Require Import Prelude External StorageApi.
From stdpp Require Import prelude gmap sets list strings.

(** * Errors *)

(** [wcn_rocks::Error]. *)
Inductive RocksError :=
| RSerialize | RDeserialize | REntryNotFound
| RBackend (kind message : string)
| RInvalidColumnFamily | RWorkerChannelClosed | RWorkerQueueOverrun
| ROther (message : string).

#[export] Instance RocksError_eq_dec : EqDecision RocksError.
Proof. solve_decision. Defined.

Inductive StorageError :=
| SEntryNotFound | SEncryption (message : string) | SUnauthorized | SSerialize | SDeserialize
| SUnsupportedOperation | STimeout | SGossip (message : string)
| SDbEngine (message : string) | SOther (message : string)
| SWcnBackend (kind message : string).

Inductive KeyError :=
| KeyLength (n : nat) | ReadKeyringPosition | ReadBufferLength
| InvalidBuffer (expected actual : nat).

#[export] Instance KeyError_eq_dec : EqDecision KeyError.
Proof. solve_decision. Defined.

(** [map_err] of storage.rs; [show] is [err.to_string()]. *)
Definition storage_map_err (show : RocksError → string) (err : RocksError) : StorageError :=
  match err with
  | RSerialize => SSerialize
  | RDeserialize => SDeserialize
  | REntryNotFound => SEntryNotFound
  | RInvalidColumnFamily | RWorkerChannelClosed | RWorkerQueueOverrun => SDbEngine (show err)
  | RBackend kind message => SWcnBackend kind message
  | ROther message => SDbEngine message
  end.

(** * Column families *)

Inductive ColumnFamilyName :=
| GenericString | GenericMap | InternalGenericString | InternalGenericMap | InternalHintedOps.

#[export] Instance ColumnFamilyName_eq_dec : EqDecision ColumnFamilyName.
Proof. solve_decision. Defined.

Definition cf_as_str (self : ColumnFamilyName) : string :=
  match self with
  | GenericString => "generic_string"
  | GenericMap => "generic_map"
  | InternalGenericString => "internal_generic_string"
  | InternalGenericMap => "internal_generic_map"
  | InternalHintedOps => "internal_hinted_ops"
  end.

(** What [trait Column] fixes for a column, its sub-key type aside: the family,
    whether prefix seek is on, and whether compaction drops expired data. *)
Record Column := {
  NAME : ColumnFamilyName;
  PREFIX_SEEK_ENABLED : bool;
  drops_expired : bool;
}.

Definition StringColumn : Column :=
  {| NAME := GenericString; PREFIX_SEEK_ENABLED := false; drops_expired := true |}.
Definition InternalStringColumn : Column :=
  {| NAME := InternalGenericString; PREFIX_SEEK_ENABLED := false; drops_expired := false |}.
Definition MapColumn : Column :=
  {| NAME := GenericMap; PREFIX_SEEK_ENABLED := true; drops_expired := true |}.
Definition InternalMapColumn : Column :=
  {| NAME := InternalGenericMap; PREFIX_SEEK_ENABLED := true; drops_expired := false |}.

(** * Serialization *)

(** [util::serde::serialize]: the size first, then the bytes. *)
Definition serialize `{Postcard T, !PostcardIo T} (data : T) : res RocksError (list Z) :=
  map_err (λ _, RSerialize)
    (_ ← postcard_serialized_size data; postcard_to_io data).

Definition deserialize `{Postcard T} (data : list Z) : res RocksError T :=
  map_err (λ _, RDeserialize) (postcard_from_bytes data).

(** * [GenericKey] *)

Record GenericKey := { gk_position : Z; gk_data : list Z }.

#[export] Instance GenericKey_eq_dec : EqDecision GenericKey.
Proof. solve_decision. Defined.
#[export] Instance GenericKey_countable : Countable GenericKey.
Proof.
  apply (inj_countable' (λ k, (gk_position k, gk_data k))
    (λ p, {| gk_position := p.1; gk_data := p.2 |})). by intros [].
Defined.

Definition KEYRING_POSITION_PREFIX_LENGTH : nat := 8.

(** [bytes[l..r]]; an index out of range panics. *)
Definition slice {E} (bytes : list Z) (l r : nat) : res E (list Z) :=
  if decide (l ≤ r ∧ r ≤ length bytes) then Ok (take (r - l) (drop l bytes)) else Panic.
Definition slice_from {E} (bytes : list Z) (l : nat) : res E (list Z) :=
  slice bytes l (length bytes).

(** [Cursor::read_u64] and [read_u32] in big-endian order, at offset [pos]. *)
Definition read_be (n : nat) (bytes : list Z) (pos : nat) : option Z :=
  if decide (pos + n ≤ length bytes) then Some (from_be_bytes (take n (drop pos bytes))) else None.

(** [ToBytes for GenericKey]; the length is truncated to 32 bits ([as u32]), and
    writes into a [Vec] do not fail. *)
Definition gk_to_bytes (self : GenericKey) : list Z :=
  to_be_bytes 8 (gk_position self) ++
  to_be_bytes 4 (wrap 32 (Z.of_nat (length (gk_data self)))) ++ gk_data self.

Arguments gk_to_bytes : simpl never.

(** [FromBytes for GenericKey]. *)
Definition gk_from_bytes (bytes : list Z) : res StorageError GenericKey :=
  position ← ok_or (read_be 8 bytes 0) SDeserialize;
  data_len ← ok_or (read_be 4 bytes 8) SDeserialize;
  data ← slice_from bytes 12;
  if decide (Z.of_nat (length data) ≠ data_len) then Err SDeserialize
  else Ok {| gk_position := position; gk_data := data |}.

Definition MIN_LEN : nat := KEYRING_POSITION_PREFIX_LENGTH + 4 + 1.

Definition calculate_size (data : list Z) : res KeyError nat :=
  let actual_len := length data in
  if decide (actual_len < MIN_LEN) then Err (KeyLength actual_len)
  else
    _ ← ok_or (read_be 8 data 0) ReadKeyringPosition;
    buffer_len ← ok_or (read_be 4 data 8) ReadBufferLength;
    let expected_len := 12 + Z.to_nat buffer_len in
    if decide (expected_len ≤ actual_len) then Ok expected_len
    else Err (InvalidBuffer expected_len actual_len).

(** * Keys of a column ([trait Column]) *)

Definition storage_key (key : GenericKey) : res RocksError (list Z) := Ok (gk_to_bytes key).

Definition ext_key_from_slice (key : GenericKey) (value : list Z) : res RocksError (list Z) :=
  prefix ← storage_key key;
  Ok (prefix ++ value).

Definition ext_key `{Postcard F, !PostcardIo F} (key : GenericKey) (field : F)
    : res RocksError (list Z) :=
  bytes ← serialize field;
  ext_key_from_slice key bytes.

Definition parse_storage_key (storage_key : list Z) : res RocksError (GenericKey * nat) :=
  right ← map_err (λ _, RDeserialize) (calculate_size storage_key);
  bytes ← slice storage_key 0 right;
  parsed_key ← map_err (λ _, RDeserialize) (gk_from_bytes bytes);
  Ok (parsed_key, right).

Definition parse_ext_key `{Postcard F} (ext_key : list Z) : res RocksError (GenericKey * F) :=
  '(key, bytes_processed) ← parse_storage_key ext_key;
  bytes ← slice_from ext_key bytes_processed;
  value ← deserialize bytes;
  Ok (key, value).

Definition split_ext_key (storage_key : list Z) : res RocksError (list Z) :=
  prefix_len ← map_err (λ _, RDeserialize) (calculate_size storage_key);
  slice_from storage_key prefix_len.

(** The prefix extractor of the columns with prefix seek. *)
Definition dynamic_prefix_extractor (data : list Z) : list Z :=
  if decide (length data = KEYRING_POSITION_PREFIX_LENGTH) then data
  else
    match calculate_size data with
    | Ok prefix_len => if decide (length data < prefix_len) then data else take prefix_len data
    | Err _ | Panic => data
    end.

(** * Keys of the database server *)

Definition KIND_PRIVATE : Z := 0.

(** [KeyWrapper::private(namespace, key).into_bytes()]. *)
Definition key_private (namespace : Namespace) (bytes : list Z) : list Z :=
  KIND_PRIVATE :: namespace ++ bytes.

(** [storage::key]: the position is the hash of the key alone. *)
Definition db_key (hash_key : list Z → Z) (namespace : Namespace) (key : list Z) : GenericKey :=
  {| gk_position := hash_key key; gk_data := key_private namespace key |}.

(** * Lemmas *)

(** What keys the code can store: a [u64] position and data whose length
    survives [as u32]; prefixes can be found only if there is data. *)
Record gk_wf (k : GenericKey) : Prop := {
  gw_position : fits 64 (gk_position k);
  gw_length : (Z.of_nat (length (gk_data k)) < 2 ^ 32)%Z;
  gw_data : gk_data k ≠ [];
}.

#[export] Instance gk_wf_dec k : Decision (gk_wf k).
Proof.
  refine (cast_if (decide (fits 64 (gk_position k) ∧
    (Z.of_nat (length (gk_data k)) < 2 ^ 32)%Z ∧ gk_data k ≠ []))); [|by intros []; auto].
  by destruct_and!; split.
Defined.

Lemma slice_Ok {E} bytes l r : l ≤ r → r ≤ length bytes →
  slice (E := E) bytes l r = Ok (take (r - l) (drop l bytes)).
Proof. intros ??. unfold slice. by rewrite decide_True. Qed.

Lemma slice_from_app {E} a b : slice_from (E := E) (a ++ b) (length a) = Ok b.
Proof.
  unfold slice_from. rewrite slice_Ok by (rewrite length_app; lia).
  rewrite drop_app_length, length_app. f_equal. apply take_ge. lia.
Qed.

Lemma read_be_app n z a b :
  (0 ≤ z < 256 ^ Z.of_nat n)%Z → read_be n (a ++ to_be_bytes n z ++ b) (length a) = Some z.
Proof.
  intros Hz. unfold read_be. rewrite decide_True by (rewrite !length_app, length_to_be_bytes; lia).
  rewrite drop_app_length, take_app_length' by by rewrite length_to_be_bytes.
  by rewrite from_to_be_bytes.
Qed.

Lemma length_gk_to_bytes k : length (gk_to_bytes k) = 12 + length (gk_data k).
Proof. unfold gk_to_bytes. rewrite !length_app, !length_to_be_bytes. lia. Qed.

Section wf_keys.
Context (k : GenericKey) (Hwf : gk_wf k).

Lemma wf_length_wrap :
  wrap 32 (Z.of_nat (length (gk_data k))) = Z.of_nat (length (gk_data k)).
Proof. apply wrap_small. destruct Hwf. split; [lia|done]. Qed.

Lemma read_position suffix : read_be 8 (gk_to_bytes k ++ suffix) 0 = Some (gk_position k).
Proof.
  unfold gk_to_bytes. rewrite <-!app_assoc.
  apply (read_be_app 8 (gk_position k) []). apply (gw_position _ Hwf).
Qed.

Lemma read_data_len suffix :
  read_be 4 (gk_to_bytes k ++ suffix) 8 = Some (Z.of_nat (length (gk_data k))).
Proof.
  unfold gk_to_bytes. rewrite wf_length_wrap, <-!app_assoc.
  pose proof (read_be_app 4 (Z.of_nat (length (gk_data k))) (to_be_bytes 8 (gk_position k))
    (gk_data k ++ suffix)) as Hr.
  rewrite length_to_be_bytes in Hr. apply Hr. pose proof (gw_length _ Hwf). split; [lia|done].
Qed.

Lemma gk_to_bytes_head :
  gk_to_bytes k = (to_be_bytes 8 (gk_position k) ++
    to_be_bytes 4 (wrap 32 (Z.of_nat (length (gk_data k))))) ++ gk_data k.
Proof. unfold gk_to_bytes. by rewrite <-app_assoc. Qed.

Lemma gk_roundtrip : gk_from_bytes (gk_to_bytes k) = Ok k.
Proof.
  unfold gk_from_bytes. pose proof (read_position []) as H1. pose proof (read_data_len []) as H2.
  rewrite app_nil_r in H1, H2. rewrite H1, H2. cbn [ok_or mbind res_bind].
  assert (slice_from (E := StorageError) (gk_to_bytes k) 12 = Ok (gk_data k)) as ->.
  { rewrite gk_to_bytes_head, <-(slice_from_app (E := StorageError) (to_be_bytes 8 (gk_position k) ++
      to_be_bytes 4 (wrap 32 (Z.of_nat (length (gk_data k)))))).
    by rewrite length_app, !length_to_be_bytes. }
  cbn [mbind res_bind]. rewrite decide_False by lia. by destruct k.
Qed.

Lemma calculate_size_app suffix :
  calculate_size (gk_to_bytes k ++ suffix) = Ok (length (gk_to_bytes k)).
Proof.
  assert (length (gk_data k) ≠ 0) by (intros ?%nil_length_inv; by destruct Hwf).
  unfold calculate_size. rewrite read_position, read_data_len. cbn [ok_or mbind res_bind].
  rewrite length_app, length_gk_to_bytes.
  rewrite decide_False by (unfold MIN_LEN, KEYRING_POSITION_PREFIX_LENGTH; lia).
  rewrite Nat2Z.id, decide_True by lia. done.
Qed.

Lemma parse_storage_key_app suffix :
  parse_storage_key (gk_to_bytes k ++ suffix) = Ok (k, length (gk_to_bytes k)).
Proof.
  unfold parse_storage_key. rewrite calculate_size_app. cbn [map_err mbind res_bind].
  rewrite slice_Ok by (rewrite ?length_app; lia). cbn [mbind res_bind].
  rewrite drop_0, Nat.sub_0_r, take_app_length, gk_roundtrip. done.
Qed.

Lemma split_ext_key_app suffix : split_ext_key (gk_to_bytes k ++ suffix) = Ok suffix.
Proof.
  unfold split_ext_key. rewrite calculate_size_app. cbn [map_err mbind res_bind].
  apply slice_from_app.
Qed.

Lemma prefix_extractor_app suffix :
  dynamic_prefix_extractor (gk_to_bytes k ++ suffix) = gk_to_bytes k.
Proof.
  unfold dynamic_prefix_extractor. pose proof (length_gk_to_bytes k) as Hl.
  rewrite decide_False by (rewrite length_app, Hl; unfold KEYRING_POSITION_PREFIX_LENGTH; lia).
  rewrite calculate_size_app, decide_False by (rewrite length_app; lia).
  apply take_app_length.
Qed.
End wf_keys.

(** No storage key is a prefix of another. *)
Lemma gk_prefix_free k k' suffix suffix' :
  gk_wf k → gk_wf k' →
  gk_to_bytes k ++ suffix = gk_to_bytes k' ++ suffix' → k = k' ∧ suffix = suffix'.
Proof.
  intros Hk Hk' Heq. pose proof (parse_storage_key_app k Hk suffix) as Hp.
  rewrite Heq, (parse_storage_key_app k' Hk' suffix') in Hp. injection Hp as ->.
  split; [done|]. by apply (inj (gk_to_bytes k ++.)) in Heq.
Qed.

(** The byte order follows the position. *)
Lemma position_le_key p k suffix :
  fits 64 p → gk_wf k →
  bytes_le (to_be_bytes 8 p) (gk_to_bytes k ++ suffix) ↔ (p ≤ gk_position k)%Z.
Proof.
  intros Hp [Hk _ _]. unfold gk_to_bytes. rewrite <-(app_nil_r (to_be_bytes 8 p)), <-!app_assoc.
  rewrite bytes_le_app by by rewrite !length_to_be_bytes.
  rewrite <-(bytes_le_to_be 8 p (gk_position k)) by done.
  split; [intros [[? _]|[-> _]]; [done|apply bytes_le_refl]|].
  intros Hle. destruct (decide (to_be_bytes 8 p = to_be_bytes 8 (gk_position k))); [right|left]; done.
Qed.

Lemma key_lt_position p k suffix :
  fits 64 p → gk_wf k →
  bytes_lt (gk_to_bytes k ++ suffix) (to_be_bytes 8 p) ↔ (gk_position k < p)%Z.
Proof. intros Hp Hk. unfold bytes_lt. rewrite position_le_key by done. lia. Qed.

(** Namespaces separate keys. *)
Lemma db_key_inj hash_key ns ns' key key' :
  length ns = length ns' →
  db_key hash_key ns key = db_key hash_key ns' key' → ns = ns' ∧ key = key'.
Proof. intros Hlen [= _ Heq]. by apply app_inj_1 in Heq. Qed.

Lemma db_key_wf hash_key ns key :
  fits 64 (hash_key key) → length ns = 21 → (Z.of_nat (length key) < 2 ^ 32 - 22)%Z →
  gk_wf (db_key hash_key ns key).
Proof. intros ? Hns ?. split; cbn; [done| |done]. rewrite length_app, Hns. lia. Qed.

Section fields.
Context `{PostcardIoLaws F}.

Lemma serialize_Ok (v : F) : ∃ bytes, serialize v = Ok bytes ∧ deserialize bytes = Ok v.
Proof.
  destruct (postcard_io_size_ok v) as [n Hn].
  destruct (postcard_io_roundtrip v) as (bytes & Hw & Hr).
  exists bytes. unfold serialize, deserialize. rewrite Hn; cbn [mbind res_bind]. by rewrite Hw, Hr.
Qed.

Lemma serialize_inj (v v' : F) bytes : serialize v = Ok bytes → serialize v' = Ok bytes → v = v'.
Proof.
  intros Hs Hs'. destruct (serialize_Ok v) as (b & Hb & Hd), (serialize_Ok v') as (b' & Hb' & Hd').
  rewrite Hs in Hb. rewrite Hs' in Hb'. simplify_eq. by rewrite Hd in Hd'; simplify_eq.
Qed.

Lemma ext_key_Ok k (v : F) :
  ∃ bytes, ext_key k v = Ok (gk_to_bytes k ++ bytes) ∧ serialize v = Ok bytes ∧
    deserialize bytes = Ok v.
Proof.
  destruct (serialize_Ok v) as (bytes & Hs & Hd). exists bytes. split_and!; [|done..].
  unfold ext_key. by rewrite Hs.
Qed.
End fields.

Lemma calculate_size_bound data n : calculate_size data = Ok n → n ≤ length data.
Proof.
  unfold calculate_size. case_decide; [done|]. intros Hc. mon_inv. case_decide; by simplify_eq.
Qed.

Lemma calculate_size_no_panic data : calculate_size data ≠ Panic.
Proof.
  unfold calculate_size. case_decide; [done|]. intros Hc. panic_inv. by case_decide.
Qed.

Lemma slice_no_panic {E} bytes l r : l ≤ r → r ≤ length bytes → slice (E := E) bytes l r ≠ Panic.
Proof. intros ??. by rewrite slice_Ok. Qed.

Lemma read_be_length n bytes pos z : read_be n bytes pos = Some z → pos + n ≤ length bytes.
Proof. unfold read_be. by case_decide. Qed.

Lemma gk_from_bytes_no_panic bytes : gk_from_bytes bytes ≠ Panic.
Proof.
  unfold gk_from_bytes. intros Hc. panic_inv.
  - apply ok_or_Ok, read_be_length in Hm0. by apply slice_no_panic in Hc; lia.
  - by case_decide.
Qed.

Lemma parse_storage_key_bound bytes k n : parse_storage_key bytes = Ok (k, n) → n ≤ length bytes.
Proof.
  unfold parse_storage_key. intros (r & Hr & Hk)%bind_Ok.
  apply map_err_Ok, calculate_size_bound in Hr. by mon_inv.
Qed.

Lemma parse_storage_key_no_panic bytes : parse_storage_key bytes ≠ Panic.
Proof.
  unfold parse_storage_key. intros [Hc|(r & Hr & Hc)]%bind_Panic.
  { apply map_err_Panic in Hc. by apply calculate_size_no_panic in Hc. }
  apply map_err_Ok, calculate_size_bound in Hr. apply bind_Panic in Hc as [Hc|(bs & _ & Hc)].
  { apply slice_no_panic in Hc; [done|lia|done]. }
  panic_inv. by apply gk_from_bytes_no_panic in Hc.
Qed.

Lemma read_be_Some n bytes pos z :
  read_be n bytes pos = Some z → z = from_be_bytes (take n (drop pos bytes)).
Proof. unfold read_be. case_decide; naive_solver. Qed.

(** Only encodings are parsed. *)
Lemma gk_from_bytes_inv bytes k :
  Forall is_byte bytes → gk_from_bytes bytes = Ok k →
  gk_to_bytes k = bytes ∧ (Z.of_nat (length (gk_data k)) < 2 ^ 32)%Z.
Proof.
  intros Hb. unfold gk_from_bytes. intros Hk.
  apply bind_Ok in Hk as (pos & Hpos%ok_or_Ok & Hk).
  apply bind_Ok in Hk as (len & Hlen%ok_or_Ok & Hk).
  pose proof (read_be_length _ _ _ _ Hlen) as Hl.
  apply bind_Ok in Hk as (data & Hd & Hk).
  unfold slice_from in Hd. rewrite slice_Ok in Hd by lia. apply Ok_inj in Hd.
  rewrite take_ge in Hd by (rewrite length_drop; lia). case_decide as Hne; [done|].
  apply Ok_inj in Hk as <-. unfold gk_to_bytes; cbn [gk_position gk_data].
  apply read_be_Some in Hpos, Hlen.
  assert (Forall is_byte (take 4 (drop 8 bytes))) as Hb4 by by apply Forall_take, Forall_drop.
  pose proof (from_be_bytes_bound _ Hb4) as Hbound. rewrite <-Hlen in Hbound.
  rewrite length_take, length_drop in Hbound.
  replace (4 `min` (length bytes - 8)) with 4 in Hbound by lia.
  change (256 ^ Z.of_nat 4)%Z with (2 ^ 32)%Z in Hbound.
  rewrite Hne, wrap_small by exact Hbound. split; [|by destruct Hbound]. subst pos len.
  assert (∀ n bs, Forall is_byte bs → n ≤ length bs →
    to_be_bytes n (from_be_bytes (take n bs)) = take n bs) as Hto.
  { intros n bs Hbs Hn. rewrite <-(to_from_be_bytes (take n bs)) at 2 by by apply Forall_take.
    by rewrite length_take, Nat.min_l by lia. }
  rewrite drop_0, !Hto by (rewrite ?length_drop; try apply Forall_drop; done || lia).
  rewrite <-Hd. replace (drop 12 bytes) with (drop 4 (drop 8 bytes)) by by rewrite drop_drop.
  by rewrite !take_drop.
Qed.

(** * Properties *)

(** C28. Storage keys are unambiguous.  The storage key of a map entry parses
    back to its map and field, splits into the map's prefix and the serialized
    field, and the prefix extractor finds exactly the map's key in it; so two
    entries share a storage key only if map and field agree, and an entry has
    the prefix of a map only if it belongs to it. *)
Theorem entry_key_roundtrip `{PostcardIoLaws F} k (field : F) :
  gk_wf k →
  ∃ bytes, ext_key k field = Ok bytes ∧
    parse_ext_key bytes = Ok (k, field) ∧
    (split_ext_key bytes ≫= deserialize) = Ok field ∧
    dynamic_prefix_extractor bytes = gk_to_bytes k ∧
    (∀ k' (field' : F), gk_wf k' → ext_key k' field' = Ok bytes → k' = k ∧ field' = field) ∧
    (∀ k' suffix, gk_wf k' → bytes = gk_to_bytes k' ++ suffix → k' = k).
Proof.
  intros Hwf. destruct (ext_key_Ok k field) as (fb & Hk & Hs & Hd).
  exists (gk_to_bytes k ++ fb). split_and!; [done| | | | |].
  - unfold parse_ext_key. rewrite parse_storage_key_app by done. cbn [mbind res_bind].
    rewrite slice_from_app. cbn [mbind res_bind]. by rewrite Hd.
  - rewrite split_ext_key_app by done. done.
  - by apply prefix_extractor_app.
  - intros k' field' Hwf' Hk'. destruct (ext_key_Ok k' field') as (fb' & Hke & Hs' & Hd').
    rewrite Hk' in Hke. apply Ok_inj in Hke. apply gk_prefix_free in Hke as [-> ->]; [|done..].
    split; [done|]. by eapply serialize_inj.
  - intros k' suffix Hwf' Heq. by apply gk_prefix_free in Heq as [-> _].
Qed.

(** Reading keys back is safe and exact on every byte string, also corrupt
    ones: no parser indexes out of range, [GenericKey::from_bytes] accepts only
    what [to_bytes] writes, and it reads back every key whose data is shorter
    than 2^32 bytes. *)
Theorem key_parsing_exact `{PostcardIoLaws F} bytes :
  Forall is_byte bytes →
  calculate_size bytes ≠ Panic ∧ gk_from_bytes bytes ≠ Panic ∧
  parse_ext_key (F := F) bytes ≠ Panic ∧ split_ext_key bytes ≠ Panic ∧
  (∀ k, gk_wf k → gk_from_bytes bytes = Ok k ↔ bytes = gk_to_bytes k).
Proof.
  intros Hb. split_and!.
  - apply calculate_size_no_panic.
  - apply gk_from_bytes_no_panic.
  - unfold parse_ext_key. intros [Hc|([k n] & Hp & Hc)]%bind_Panic;
      [by apply parse_storage_key_no_panic in Hc|].
    apply bind_Panic in Hc as [Hc|(bs & _ & Hc)].
    + apply parse_storage_key_bound in Hp. apply slice_no_panic in Hc; [done|done|lia].
    + unfold deserialize in Hc. panic_inv. by apply postcard_io_from_bytes_safe in Hc.
  - unfold split_ext_key. intros [Hc|(n & Hn & Hc)]%bind_Panic.
    + apply map_err_Panic in Hc. by apply calculate_size_no_panic in Hc.
    + apply map_err_Ok, calculate_size_bound in Hn. apply slice_no_panic in Hc; [done|done|lia].
  - intros k Hk. split; [|intros ->; by apply gk_roundtrip].
    intros Hp. by apply gk_from_bytes_inv in Hp as [<- _].
Qed.

(** * Witnesses *)

Definition toy_gk : GenericKey := {| gk_position := 258; gk_data := [0; 7; 9]%Z |}.

Lemma entry_key_roundtrip_witness :
  ∃ bytes, @ext_key _ (toy_postcard (list Z)) (toy_postcard_io (list Z)) toy_gk [5%Z] = Ok bytes.
Proof.
  destruct (@entry_key_roundtrip _ _ _ (toy_postcard_io_laws (list Z)) toy_gk [5%Z]) as (b & Hb & _).
  { by vm_compute; split. }
  by exists b.
Defined.

Lemma key_parsing_exact_witness :
  @parse_ext_key _ (toy_postcard (list Z)) [1; 2; 3]%Z ≠ Panic.
Proof.
  apply (@key_parsing_exact _ _ _ (toy_postcard_io_laws (list Z)) [1; 2; 3]%Z).
  repeat constructor; lia.
Defined.
