(* ===== verification/RocksDb.v ===== *)
(** RocksDb: the interface to the [rocksdb] crate and the backend on top of it
    (src/crates/rocks/src/db.rs, db/batch.rs, db/reader.rs,
    db/compaction/merge.rs).

    RocksDB itself is a parameter: [RocksDb] has the calls the code makes,
    [RocksLaws] what the documentation of RocksDB promises of them for the
    options a column family was opened with (its merge operator and its prefix
    extractor, which are code of this program). *)
From S2P Require Import Prelude External StorageApi RocksContext RocksKeys.
From stdpp Require Import prelude gmap sets list strings sorting.

Notation bytes := (list Z).

(** * Serialized values *)

(** Fields, merge operands and contexts, as [postcard] writes them. *)
Class Codecs := {
  codec_field :: Postcard bytes;
  codec_field_io :: PostcardIo bytes;
  codec_op :: Postcard (MergeOp bytes);
  codec_op_io :: PostcardIo (MergeOp bytes);
  codec_ctx :: Postcard (DataContext bytes);
  codec_ctx_io :: PostcardIo (DataContext bytes);
}.

Class CodecLaws `{Codecs} := {
  codec_field_laws :: PostcardIoLaws bytes;
  codec_op_laws :: PostcardIoLaws (MergeOp bytes);
  codec_ctx_laws :: PostcardIoLaws (DataContext bytes);
}.

(** * The merge operator ([AsymmetricMerge]) *)
Section merge_operator.
Context `{Codecs}.

(** [op_iter]: operands that do not deserialize are skipped. *)
Definition op_iter (input : list bytes) : list (MergeOp bytes) :=
  omap (λ b, res_ok (deserialize b)) input.

Definition am_full_merge (output : option bytes) (input : list bytes) : res RocksError bytes :=
  output ← match output with
           | Some b => deserialize b
           | None => Ok dc_default
           end;
  serialize (foldl ctx_merge output (op_iter input)).

Definition am_partial_merge (input : list bytes) : res RocksError bytes :=
  match op_iter input with
  | [] => Err RDeserialize
  | output :: input => serialize (foldl merge_op output input)
  end.
End merge_operator.

(** * Options of a column family *)

Record CfOptions := {
  cf_prefix_extractor : option (bytes → bytes);
  (** the merge callback: [None] makes RocksDB fail *)
  cf_full_merge : option bytes → list bytes → option bytes;
}.

Definition create_cf_opts `{Codecs} (C : Column) : CfOptions := {|
  cf_prefix_extractor := if PREFIX_SEEK_ENABLED C then Some dynamic_prefix_extractor else None;
  cf_full_merge existing_value ops := res_ok (am_full_merge existing_value ops);
|}.

(** The columns that [Storage::new] registers. *)
Definition registered_columns : list Column :=
  [StringColumn; InternalStringColumn; MapColumn; InternalMapColumn].

Definition find_column (cf : ColumnFamilyName) : option Column :=
  head (filter (λ C, NAME C = cf) registered_columns).

(** * The [rocksdb] crate *)

Record NativeError := { ne_kind : string; ne_message : string }.

Record ReadOptions := {
  ro_iterate_lower_bound : option bytes;
  ro_iterate_upper_bound : option bytes;
  ro_total_order_seek : bool;
  ro_prefix_same_as_start : bool;
}.

Definition ro_default : ReadOptions := {|
  ro_iterate_lower_bound := None; ro_iterate_upper_bound := None;
  ro_total_order_seek := false; ro_prefix_same_as_start := false |}.

Inductive IteratorMode := IterStart | IterFrom (key : bytes).

Notation KVBytes := (bytes * bytes)%type.

(** One merge of a write batch. *)
Notation BatchOp := (ColumnFamilyName * bytes * bytes)%type.

Class RocksDb := {
  rdb : Type;
  rdb_get_cf : rdb → ColumnFamilyName → bytes → option bytes + NativeError;
  (** [write] of a batch of merges; [merge_cf] is a batch of one. *)
  rdb_merge_cf : rdb → ColumnFamilyName → bytes → bytes → rdb * (() + NativeError);
  rdb_write : rdb → list BatchOp → rdb * (() + NativeError);
  (** what a [DBIterator] yields *)
  rdb_iterator_cf : rdb → ColumnFamilyName → ReadOptions → IteratorMode → list (KVBytes + NativeError);
}.

Definition key_le (a b : KVBytes) : Prop := bytes_le a.1 b.1.
#[export] Instance key_le_dec : RelDecision key_le.
Proof. intros a b. unfold key_le. apply _. Defined.

(** The entries of a table in the order of their keys. *)
Definition sorted_entries (m : gmap bytes bytes) : list KVBytes :=
  merge_sort key_le (map_to_list m).

Notation Tables := (ColumnFamilyName → gmap bytes bytes).

(** A merge of one operand, as a read sees it. *)
Definition apply_merge (opts : ColumnFamilyName → option CfOptions) (t : Tables) (op : BatchOp)
    : option Tables :=
  let '(cf, key, operand) := op in
  o ← opts cf;
  v ← cf_full_merge o (t cf !! key) [operand];
  Some (λ cf', if decide (cf' = cf) then <[key := v]> (t cf) else t cf').

Fixpoint apply_batch (opts : ColumnFamilyName → option CfOptions) (t : Tables)
    (batch : list BatchOp) : option Tables :=
  match batch with
  | [] => Some t
  | op :: batch => t' ← apply_merge opts t op; apply_batch opts t' batch
  end.

(** Whether an iterator visits a key. *)
Definition iter_visits (o : CfOptions) (ro : ReadOptions) (mode : IteratorMode) (key : bytes) : Prop :=
  match ro_iterate_lower_bound ro with Some l => bytes_le l key | None => True end ∧
  match ro_iterate_upper_bound ro with Some u => bytes_lt key u | None => True end ∧
  match mode with
  | IterStart => True
  | IterFrom start =>
      bytes_le start key ∧
      match cf_prefix_extractor o with
      | Some extract =>
          if ro_prefix_same_as_start ro && negb (ro_total_order_seek ro)
          then extract key = extract start else True
      | None => True
      end
  end.

#[export] Instance iter_visits_dec o ro mode key : Decision (iter_visits o ro mode key).
Proof.
  unfold iter_visits. repeat apply and_dec;
    repeat first [apply _ | case_match]; apply and_dec; try apply _; repeat first [apply _ | case_match].
Defined.

(** A database that works: [rdb_table] is what it holds.  Reads see every
    earlier write, a write of a batch is all its merges in order, and iterators
    visit the keys of their range in byte order. *)
Class RocksLaws `{RocksDb} (opts : ColumnFamilyName → option CfOptions) := {
  rdb_table : rdb → Tables;
  rdb_get_law db cf key o :
    opts cf = Some o → rdb_get_cf db cf key = inl (rdb_table db cf !! key);
  rdb_write_law db batch t :
    apply_batch opts (rdb_table db) batch = Some t →
    ∃ db', rdb_write db batch = (db', inl ()) ∧ ∀ cf, rdb_table db' cf = t cf;
  rdb_merge_law db cf key operand t :
    apply_merge opts (rdb_table db) (cf, key, operand) = Some t →
    ∃ db', rdb_merge_cf db cf key operand = (db', inl ()) ∧ ∀ cf', rdb_table db' cf' = t cf';
  rdb_iterator_law db cf ro mode o :
    opts cf = Some o →
    rdb_iterator_cf db cf ro mode =
      inl <$> filter (λ kv, iter_visits o ro mode kv.1) (sorted_entries (rdb_table db cf));
}.

Definition cf_options `{Codecs} (cf : ColumnFamilyName) : option CfOptions :=
  create_cf_opts <$> find_column cf.

(** * The backend *)
Section backend.
Context `{Codecs, RocksDb}.

(** [From<rocksdb::Error> for Error]. *)
Definition from_native (err : NativeError) : RocksError := RBackend (ne_kind err) (ne_message err).

Definition native_res {A} (r : A + NativeError) : res RocksError A :=
  match r with
  | inl a => Ok a
  | inr err => Err (from_native err)
  end.

(** [RocksBackend]: the database, and whether the worker threads of the reader
    take the next request and answer it ([send_request], [send_raw_callback] and
    the receiving end of the channel). *)
Record RocksBackend := {
  be_db : rdb;
  be_batch_worker : res RocksError ();
  be_callback_worker : res RocksError ();
}.

Definition with_db (self : RocksBackend) (db : rdb) : RocksBackend :=
  {| be_db := db; be_batch_worker := be_batch_worker self;
     be_callback_worker := be_callback_worker self |}.

(** [cf_handle]: the family must be registered. *)
Definition cf_handle {E} (cf_name : ColumnFamilyName) : res E ColumnFamilyName :=
  match find_column cf_name with
  | Some _ => Ok cf_name
  | None => Panic
  end.

(** ** The reader *)

(** One request of a batch, with the channel its answer goes to. *)
Record ReadRequest := { rr_cf_name : ColumnFamilyName; rr_key : bytes; rr_channel : nat }.

(** [reader_thread] on the requests of one round: [groups] is the order in which
    the families of the hash map come; [batched_multi_get_cf] reads the keys one
    by one. *)
Definition reader_group (db : rdb) (reqs : list ReadRequest) (cf_name : ColumnFamilyName)
    : list (nat * res RocksError (option bytes)) :=
  let reqs := filter (λ req, rr_cf_name req = cf_name) reqs in
  match find_column cf_name with
  | Some _ =>
      let result := (λ req, rdb_get_cf db cf_name (rr_key req)) <$> reqs in
      zip_with (λ req r, (rr_channel req, native_res r)) reqs result
  | None => (λ req, (rr_channel req, Err RInvalidColumnFamily)) <$> reqs
  end.

Definition reader_batch (groups : list ReadRequest → list ColumnFamilyName) (db : rdb)
    (reqs : list ReadRequest) : list (nat * res RocksError (option bytes)) :=
  groups reqs ≫= reader_group db reqs.

(** What one request is answered, whatever it was batched with. *)
Definition reader_answer (db : rdb) (cf_name : ColumnFamilyName) (key : bytes)
    : res RocksError (option bytes) :=
  match find_column cf_name with
  | Some _ => native_res (rdb_get_cf db cf_name key)
  | None => Err RInvalidColumnFamily
  end.

Definition convert_result {T} `{Postcard T} (r : res RocksError (option bytes))
    : res RocksError (option T) :=
  slice ← r;
  match slice with
  | Some b => Some <$> deserialize b
  | None => Ok None
  end.

(** [Reader::read] and [RocksBackend::get]. *)
Definition reader_read {T} `{Postcard T} (self : RocksBackend) (cf_name : ColumnFamilyName)
    (key : bytes) : res RocksError (option T) :=
  _ ← be_batch_worker self;
  convert_result (reader_answer (be_db self) cf_name key).

Definition backend_get (self : RocksBackend) (cf_name : ColumnFamilyName) (key : bytes)
    : res RocksError (option (DataContext bytes)) :=
  reader_read self cf_name key.

(** [exec_blocking]. *)
Definition exec_blocking {T} (self : RocksBackend) (f : RocksBackend → res RocksError T)
    : res RocksError T :=
  _ ← be_callback_worker self; f self.

(** ** Writes *)

Definition backend_merge (self : RocksBackend) (cf_name : ColumnFamilyName) (key value : bytes)
    : RocksBackend * res RocksError () :=
  match cf_handle (E := RocksError) cf_name with
  | Ok cf => let '(db, r) := rdb_merge_cf (be_db self) cf key value in (with_db self db, native_res r)
  | Err _ | Panic => (self, Panic)
  end.

(** [WriteBatch::merge]. *)
Definition batch_merge (batch : list BatchOp) (cf : ColumnFamilyName) (key value : bytes)
    : res RocksError (list BatchOp) :=
  cf ← cf_handle cf;
  Ok (batch ++ [(cf, key, value)]).

Definition backend_write_batch (self : RocksBackend) (batch : list BatchOp)
    : RocksBackend * res RocksError () :=
  let '(db, r) := rdb_write (be_db self) batch in (with_db self db, native_res r).

(** ** Iterators *)

Definition range_iterator (self : RocksBackend) (C : Column) (left right : option bytes)
    : res RocksError (list (KVBytes + NativeError)) :=
  let ro := {| ro_iterate_lower_bound := left; ro_iterate_upper_bound := right;
               ro_total_order_seek := true; ro_prefix_same_as_start := false |} in
  cf ← cf_handle (NAME C);
  Ok (rdb_iterator_cf (be_db self) cf ro IterStart).

(** [prefix_iterator_cf] of the crate sets [prefix_same_as_start] and starts at
    the prefix. *)
Definition prefix_iterator (self : RocksBackend) (C : Column) (prefix : bytes)
    : res RocksError (list (KVBytes + NativeError)) :=
  let ro := {| ro_iterate_lower_bound := None; ro_iterate_upper_bound := None;
               ro_total_order_seek := false; ro_prefix_same_as_start := true |} in
  cf ← cf_handle (NAME C);
  Ok (rdb_iterator_cf (be_db self) cf ro (IterFrom prefix)).

Definition prefix_iterator_with_cursor (self : RocksBackend) (C : Column) (cursor : bytes)
    : res RocksError (list (KVBytes + NativeError)) :=
  let ro := {| ro_iterate_lower_bound := None; ro_iterate_upper_bound := None;
               ro_total_order_seek := false; ro_prefix_same_as_start := true |} in
  cf ← cf_handle (NAME C);
  Ok (rdb_iterator_cf (be_db self) cf ro (IterFrom cursor)).
End backend.

(** * Batched reads *)
Section reader.
Context `{RocksDb}.

Lemma reader_group_answers db reqs cf :
  reader_group db reqs cf =
    (λ req, (rr_channel req, reader_answer db (rr_cf_name req) (rr_key req)))
      <$> filter (λ req, rr_cf_name req = cf) reqs.
Proof.
  unfold reader_group, reader_answer.
  assert (Forall (λ req, rr_cf_name req = cf) (filter (λ req, rr_cf_name req = cf) reqs)) as Hall.
  { apply Forall_forall. by intros req [? _]%list_elem_of_filter. }
  destruct (find_column cf) eqn:Hf; induction Hall as [|req l Hreq _ IH]; cbn; rewrite ?Hreq, ?Hf;
    [done|by f_equal|done|by f_equal].
Qed.

(** Batching reads is not visible: whatever requests are pending and in whatever
    order the column families of a round come, every request is answered exactly
    once, on its own channel, with the value under its own key. *)
Theorem reader_batch_exact groups db reqs :
  NoDup (groups reqs) → (∀ cf, cf ∈ groups reqs ↔ cf ∈ rr_cf_name <$> reqs) →
  reader_batch groups db reqs ≡ₚ
    (λ req, (rr_channel req, reader_answer db (rr_cf_name req) (rr_key req))) <$> reqs.
Proof.
  unfold reader_batch. generalize (groups reqs). intros gs Hnd Hgs.
  assert (∀ cf, cf ∈ rr_cf_name <$> reqs → cf ∈ gs) as Hin by naive_solver. clear Hgs.
  revert reqs Hin; induction Hnd as [|cf gs Hnin _ IH]; intros reqs Hin; cbn.
  { destruct reqs as [|req reqs]; [done|]. exfalso. eapply elem_of_nil, (Hin (rr_cf_name req)). left. }
  rewrite reader_group_answers.
  set (answer := λ req, (rr_channel req, reader_answer db (rr_cf_name req) (rr_key req))).
  transitivity (answer <$> (filter (λ req, rr_cf_name req = cf) reqs ++
    filter (λ req, rr_cf_name req ≠ cf) reqs)); [|by rewrite filter_app_complement].
  rewrite fmap_app. f_equiv. unfold answer. rewrite <-IH.
  - clear IH Hin. induction gs as [|g gs IHg]; cbn; [done|].
    apply not_elem_of_cons in Hnin as [Hne Hnin]. rewrite IHg by done. f_equiv.
    rewrite !reader_group_answers, list_filter_filter. f_equiv. apply reflexive_eq, list_filter_iff.
    intros req. split; [intros ->; auto|by intros [? _]].
  - intros g (req & -> & [Hcf Hreq]%list_elem_of_filter)%list_elem_of_fmap.
    assert (rr_cf_name req ∈ cf :: gs) as [?|?]%elem_of_cons; [|done|done].
    apply Hin, list_elem_of_fmap. by exists req.
Qed.
End reader.
