(* ===== verification/RocksStorage.v ===== *)
(** RocksStorage: the string and map operations of the database, paging, and the
    export and import of key ranges (src/crates/rocks/src/db/types,
    src/crates/rocks/src/db/migration.rs).

    Reads take the backend, writes return it updated.  [now_secs] is
    [timestamp_secs()]. *)
From S2P Require Import Prelude External StorageApi RocksContext RocksKeys RocksDb.
From stdpp Require Import prelude gmap sets list strings sorting.

(** * Data *)

(** [types::Record], [types::MapRecord], [types::Pair]. *)
Record RocksRecord := { rrec_value : bytes; rrec_expiration : Z; rrec_version : Z }.
Record MapRecord := {
  mrec_field : bytes; mrec_value : bytes; mrec_expiration : Z; mrec_version : Z }.
Record Pair := { pair_field : bytes; pair_value : bytes }.

Record ScanResult := { sr_items : list MapRecord; sr_has_next : bool }.
Record ScanOptions := { so_count : nat; so_cursor : option bytes }.

Section storage.
Context `{Codecs, RocksDb}.
Implicit Types self : RocksBackend.
Implicit Types C : Column.

(** Continue a write with a computed argument; an error stops it. *)
Definition write_with {A} self (m : res RocksError A)
    (f : A → RocksBackend * res RocksError ()) : RocksBackend * res RocksError () :=
  match m with
  | Ok a => f a
  | Err e => (self, Err e)
  | Panic => (self, Panic)
  end.

(** The record a context stands for, as [get], [hget] and [MapRecords] build it. *)
Definition record_of (now_secs : Z) (data : DataContext bytes) : option RocksRecord :=
  let expiration := dc_expires data in
  let version := dc_version data in
  (λ value, {| rrec_value := value; rrec_expiration := expiration; rrec_version := version |})
    <$> into_payload now_secs data.

(** * Common operations *)

(** [expiration]. *)
Definition expiration (now_secs : Z) self C (key : GenericKey) (subkey : option bytes)
    : res RocksError Z :=
  key ← match subkey with Some subkey => ext_key key subkey | None => storage_key key end;
  data ← backend_get self (NAME C) key;
  data ← ok_or data REntryNotFound;
  if expired now_secs data || bool_decide (dc_payload data = None) then Err REntryNotFound
  else Ok (dc_expires data).

(** [scan_by_position]. *)
Definition scan_by_position self C (left right : option Z)
    : res RocksError (list (KVBytes + NativeError)) :=
  range_iterator self C (to_be_bytes 8 <$> left) (to_be_bytes 8 <$> right).

(** * Strings *)

Definition string_get (now_secs : Z) self C (key : GenericKey) : res RocksError (option RocksRecord) :=
  key ← storage_key key;
  data ← backend_get self (NAME C) key;
  Ok (data ≫= record_of now_secs).

Definition string_set self C (key : GenericKey) (value : bytes) (expiration update_timestamp : Z)
    : RocksBackend * res RocksError () :=
  write_with self (storage_key key) (λ key,
  write_with self (serialize (mo_set value expiration update_timestamp)) (λ value,
  backend_merge self (NAME C) key value)).

Definition string_set_val self C (key : GenericKey) (value : bytes) (update_timestamp : Z)
    : RocksBackend * res RocksError () :=
  write_with self (storage_key key) (λ key,
  write_with self (serialize (mo_set_val value update_timestamp)) (λ value,
  backend_merge self (NAME C) key value)).

Definition string_del (now_secs : Z) self C (key : GenericKey) (timestamp : Z)
    : RocksBackend * res RocksError () :=
  write_with self (storage_key key) (λ key,
  write_with self (serialize (mo_del (T := bytes) now_secs timestamp)) (λ value,
  backend_merge self (NAME C) key value)).

Definition string_get_exp (now_secs : Z) self C (key : GenericKey) : res RocksError Z :=
  expiration now_secs self C key None.

Definition string_set_exp self C (key : GenericKey) (expiration update_timestamp : Z)
    : RocksBackend * res RocksError () :=
  write_with self (storage_key key) (λ key,
  write_with self (serialize (mo_set_exp (T := bytes) expiration update_timestamp)) (λ value,
  backend_merge self (NAME C) key value)).

(** * Iterators *)

(** [KeyValueIterator] yields [Result]s; [flatten] keeps what is in the [Ok]s and
    drops the errors of the database. *)
Definition flatten_ok {A E} (l : list (A + E)) : list A :=
  omap (λ r, match r with inl a => Some a | inr _ => None end) l.

Definition parse_value (now_secs : Z) (kv : KVBytes) : res RocksError (option bytes) :=
  into_payload now_secs <$> deserialize (T := DataContext bytes) kv.2.

Definition parse_subkey (kv : KVBytes) : res RocksError bytes :=
  p ← parse_ext_key (F := bytes) kv.1; Ok p.2.

(** [Result::transpose]. *)
Definition transpose {A} (r : res RocksError (option A)) : option (res RocksError A) :=
  match r with
  | Ok (Some a) => Some (Ok a)
  | Ok None => None
  | Err e => Some (Err e)
  | Panic => Some Panic
  end.

(** [values]: deleted and expired entries are skipped. *)
Definition iter_values (now_secs : Z) (iter : list (KVBytes + NativeError))
    : list (res RocksError bytes) :=
  omap (λ kv, transpose (parse_value now_secs kv)) (flatten_ok iter).

(** [subkeys]. *)
Definition iter_subkeys (iter : list (KVBytes + NativeError)) : list (res RocksError bytes) :=
  parse_subkey <$> flatten_ok iter.

(** [MapRecords::map]. *)
Definition map_records (now_secs : Z) (kv : KVBytes) : res RocksError (option MapRecord) :=
  subkey_slice ← split_ext_key kv.1;
  field ← deserialize subkey_slice;
  data ← deserialize (T := DataContext bytes) kv.2;
  Ok ((λ r, {| mrec_field := field; mrec_value := rrec_value r;
               mrec_expiration := rrec_expiration r; mrec_version := rrec_version r |})
        <$> record_of now_secs data).

(** The loop of [scan]: [items] is what has been collected. *)
Fixpoint scan_loop (count : nat) (items : list MapRecord) (iter : list (res RocksError MapRecord))
    : res RocksError ScanResult :=
  match iter with
  | [] => Ok {| sr_items := items; sr_has_next := false |}
  | item :: iter =>
      item ← item;
      let items := items ++ [item] in
      if decide (count ≤ length items)
      then Ok {| sr_items := items; sr_has_next := bool_decide (iter ≠ []) |}
      else scan_loop count items iter
  end.

Definition is_same_cursor (iter : list (res RocksError MapRecord)) (cursor : option bytes) : bool :=
  match head iter, cursor with
  | Some (Ok rec), Some start_cursor => bool_decide (mrec_field rec = start_cursor)
  | _, _ => false
  end.

Definition scan (now_secs : Z) self C (key : GenericKey) (opts : ScanOptions)
    : res RocksError ScanResult :=
  iter ← match so_cursor opts with
         | Some cursor =>
             cursor ← serialize cursor;
             key ← ext_key_from_slice key cursor;
             prefix_iterator_with_cursor self C key
         | None =>
             key ← storage_key key;
             prefix_iterator self C key
         end;
  let iter := omap (λ kv, transpose (map_records now_secs kv)) (flatten_ok iter) in
  let iter := if is_same_cursor iter (so_cursor opts) then tail iter else iter in
  scan_loop (so_count opts) [] iter.

(** * Maps *)

Definition hset self C (key : GenericKey) (pair : Pair) (expiration update_timestamp : Z)
    : RocksBackend * res RocksError () :=
  write_with self (ext_key key (pair_field pair)) (λ key,
  write_with self (serialize (mo_set (pair_value pair) expiration update_timestamp)) (λ value,
  backend_merge self (NAME C) key value)).

Definition hset_val self C (key : GenericKey) (pair : Pair) (update_timestamp : Z)
    : RocksBackend * res RocksError () :=
  write_with self (ext_key key (pair_field pair)) (λ key,
  write_with self (serialize (mo_set_val (pair_value pair) update_timestamp)) (λ value,
  backend_merge self (NAME C) key value)).

Definition hmset_batch C (key : GenericKey) (pairs : list Pair) (expiration update_timestamp : Z)
    : res RocksError (list BatchOp) :=
  foldl (λ batch pair,
    batch ← batch;
    key ← ext_key key (pair_field pair);
    value ← serialize (mo_set (pair_value pair) expiration update_timestamp);
    batch_merge batch (NAME C) key value) (Ok []) pairs.

Definition hmset self C (key : GenericKey) (pairs : list Pair) (expiration update_timestamp : Z)
    : RocksBackend * res RocksError () :=
  write_with self (hmset_batch C key pairs expiration update_timestamp) (λ batch,
  backend_write_batch self batch).

Definition hget (now_secs : Z) self C (key : GenericKey) (field : bytes)
    : res RocksError (option RocksRecord) :=
  ext_key ← ext_key key field;
  data ← backend_get self (NAME C) ext_key;
  Ok (data ≫= record_of now_secs).

Definition hexists (now_secs : Z) self C (key : GenericKey) (field : bytes) : res RocksError bool :=
  (λ v : option RocksRecord, bool_decide (is_Some v)) <$> hget now_secs self C key field.

Definition hdel (now_secs : Z) self C (key : GenericKey) (field : bytes) (timestamp : Z)
    : RocksBackend * res RocksError () :=
  write_with self (ext_key key field) (λ key,
  write_with self (serialize (mo_del (T := bytes) now_secs timestamp)) (λ value,
  backend_merge self (NAME C) key value)).

Definition hvals (now_secs : Z) self C (key : GenericKey) : res RocksError (list bytes) :=
  key ← storage_key key;
  exec_blocking self (λ b, iter ← prefix_iterator b C key; res_map id (iter_values now_secs iter)).

Definition hfields self C (key : GenericKey) : res RocksError (list bytes) :=
  key ← storage_key key;
  exec_blocking self (λ b, iter ← prefix_iterator b C key; res_map id (iter_subkeys iter)).

(** The [find_map] of [hcard]. *)
Fixpoint count_values (count : nat) (iter : list (res RocksError bytes)) : res RocksError nat :=
  match iter with
  | [] => Ok count
  | Ok _ :: iter => count_values (S count) iter
  | Err e :: _ => Err e
  | Panic :: _ => Panic
  end.

Definition hcard (now_secs : Z) self C (key : GenericKey) : res RocksError nat :=
  key ← storage_key key;
  exec_blocking self (λ b, iter ← prefix_iterator b C key; count_values 0 (iter_values now_secs iter)).

Definition hscan (now_secs : Z) self C (key : GenericKey) (opts : ScanOptions)
    : res RocksError ScanResult :=
  exec_blocking self (λ b, scan now_secs b C key opts).

Definition hget_exp (now_secs : Z) self C (key : GenericKey) (subkey : bytes) : res RocksError Z :=
  expiration now_secs self C key (Some subkey).

Definition hset_exp self C (key : GenericKey) (subkey : bytes) (expiration update_timestamp : Z)
    : RocksBackend * res RocksError () :=
  write_with self (ext_key key subkey) (λ key,
  write_with self (serialize (mo_set_exp (T := bytes) expiration update_timestamp)) (λ value,
  backend_merge self (NAME C) key value)).
End storage.

(** * Export and import *)

Record ExportFrame := { ef_cf : ColumnFamilyName; ef_key : bytes; ef_value : bytes }.

Inductive ExportItem :=
| FrameItem (frame : ExportFrame + RocksError)
| DoneItem (count : Z).

Definition IMPORTER_BATCH_SIZE : nat := 1024.

Section migration.
Context `{Codecs, RocksDb}.
Implicit Types self : RocksBackend.
(** [Debug] of the errors that end up in messages. *)
Context {E : Type} (show_stream : E → string) (show_rocks : RocksError → string)
  (show_count : Z → string).

(** [DbIterator]: frames of one family. *)
Definition db_iterator (cf : ColumnFamilyName) (iter : list (KVBytes + NativeError))
    : list ExportItem :=
  (λ r, FrameItem match r with
                  | inl kv => inl {| ef_cf := cf; ef_key := kv.1; ef_value := kv.2 |}
                  | inr err => inr (from_native err)
                  end) <$> iter.

(** [export]: the stream of items; an error of [scan_by_position] becomes its
    last item. *)
Definition export self (range : Z * Z) : res RocksError (list ExportItem) :=
  let start := Some range.1 in
  let end_ := u64_checked_add range.2 1 in
  match (string_iter ← scan_by_position self StringColumn start end_;
         map_iter ← scan_by_position self MapColumn start end_;
         let frames := db_iterator (NAME StringColumn) string_iter ++
                       db_iterator (NAME MapColumn) map_iter in
         Ok (frames ++ [DoneItem (Z.of_nat (length frames))])) with
  | Ok items => Ok items
  | Err e => Ok [FrameItem (inr e)]
  | Panic => Panic
  end.

(** The loop of [import_all]. *)
Fixpoint import_loop (now_secs : Z) self (total items : nat) (batch : list BatchOp)
    (data : list (ExportItem + E)) : RocksBackend * res RocksError () :=
  match data with
  | [] => (self, Err (ROther "Corrupted data stream: `Done` frame missing"))
  | inr e :: _ => (self, Err (ROther ("Data stream errored: " +:+ show_stream e)))
  | inl (FrameItem (inr e)) :: _ => (self, Err (ROther ("Exporter errored: " +:+ show_rocks e)))
  | inl (DoneItem n) :: _ =>
      if decide (n ≠ Z.of_nat total)
      then (self, Err (ROther ("`Done(" +:+ show_count n +:+
             ")` frame indicates more items than were actually processed (" +:+
             show_count (Z.of_nat total) +:+ ")")))
      else backend_write_batch self batch
  | inl (FrameItem (inl frame)) :: data =>
      write_with self
        (ctx ← deserialize (T := DataContext bytes) (ef_value frame);
         value ← serialize (ctx_to_op now_secs ctx);
         batch_merge batch (ef_cf frame) (ef_key frame) value)
        (λ batch,
           let total := S total in
           let items := S items in
           if decide (IMPORTER_BATCH_SIZE ≤ items) then
             match backend_write_batch self batch with
             | (self, Ok _) => import_loop now_secs self total 0 [] data
             | (self, Err e) => (self, Err e)
             | (self, Panic) => (self, Panic)
             end
           else import_loop now_secs self total items batch data)
  end.

Definition import_all (now_secs : Z) self (data : list (ExportItem + E))
    : RocksBackend * res RocksError () :=
  import_loop now_secs self 0 0 [] data.
End migration.
