(* ===== verification/RocksProofs.v ===== *)
(** RocksProofs: the tables of a working database as an abstract store.

    An abstract store maps keys to contexts and map fields to contexts.  [holds]
    relates it to the tables of RocksDB; reads of the code read the store, and
    merges update it. *)
From S2P Require Import Prelude External StorageApi RocksContext RocksKeys RocksDb RocksStorage.
From stdpp Require Import prelude gmap sets list strings sorting.

(** * Serialized forms *)
Section encoding.
Context `{Postcard T, !PostcardIo T, !PostcardIoLaws T}.

Definition enc (v : T) : bytes := default [] (res_ok (serialize v)).

Lemma serialize_enc v : serialize v = Ok (enc v).
Proof. destruct (serialize_Ok v) as (b & Hb & _). unfold enc. by rewrite Hb. Qed.

Lemma deserialize_enc v : deserialize (enc v) = Ok v.
Proof. destruct (serialize_Ok v) as (b & Hb & Hd). unfold enc. by rewrite Hb. Qed.

#[export] Instance enc_inj : Inj (=) (=) enc.
Proof. intros v v' He. pose proof (deserialize_enc v). rewrite He, deserialize_enc in H0. naive_solver. Qed.
End encoding.

(** * Tables with encoded keys *)
Section table.
Context `{Codecs, !CodecLaws} {K : Type} `{Countable K} (key_bytes : K → bytes) (key_wf : K → Prop).
Context (key_bytes_inj : ∀ k k', key_wf k → key_wf k' → key_bytes k = key_bytes k' → k = k').
Implicit Types t : gmap bytes bytes.
Implicit Types m : gmap K (DataContext bytes).

(** The table has exactly the entries of the store. *)
Record table_holds t m : Prop := {
  th_wf : map_Forall (λ k _, key_wf k) m;
  th_entries b v : t !! b = Some v ↔ ∃ k c, m !! k = Some c ∧ key_bytes k = b ∧ enc c = v;
}.

Lemma table_holds_empty : table_holds ∅ ∅.
Proof.
  split; [apply map_Forall_empty|]. intros b v. rewrite lookup_empty. split; [done|].
  intros (k & c & Hc & _). by rewrite lookup_empty in Hc.
Qed.

Lemma table_holds_lookup t m k : table_holds t m → key_wf k → t !! key_bytes k = enc <$> m !! k.
Proof.
  intros [Hwf He] Hk. destruct (m !! k) as [c|] eqn:Hc; cbn.
  { apply He. eauto. }
  apply eq_None_not_Some. intros [v (k' & c & Hm & Hb & _)%He].
  apply key_bytes_inj in Hb; [congruence|by apply (Hwf _ _ Hm)|done].
Qed.

Lemma table_holds_insert t m k c :
  table_holds t m → key_wf k → table_holds (<[key_bytes k := enc c]> t) (<[k := c]> m).
Proof.
  intros [Hwf He] Hk. split; [by apply map_Forall_insert_2|]. intros b v.
  destruct (decide (b = key_bytes k)) as [->|Hne].
  - rewrite lookup_insert_eq. split.
    + intros [= <-]. exists k, c. by rewrite lookup_insert_eq.
    + intros (k' & c' & Hc & Hb & <-). destruct (decide (k' = k)) as [->|Hk'].
      * rewrite lookup_insert_eq in Hc. congruence.
      * rewrite lookup_insert_ne in Hc by done. destruct Hk'.
        apply key_bytes_inj; [by apply (Hwf _ _ Hc)|done|done].
  - rewrite lookup_insert_ne by done. rewrite He. split; intros (k' & c' & Hc & Hb & Hv);
      exists k', c'; split_and!; try done; destruct (decide (k' = k)) as [->|Hk'].
    + congruence.
    + by rewrite lookup_insert_ne.
    + congruence.
    + by rewrite lookup_insert_ne in Hc.
Qed.

(** The merge operator is [full_merge] on what is stored. *)
Lemma full_merge_enc (existing : option (DataContext bytes)) op :
  am_full_merge (enc <$> existing) [enc op] = Ok (enc (full_merge existing [op])).
Proof.
  unfold am_full_merge, op_iter. cbn. rewrite deserialize_enc. cbn.
  destruct existing; cbn; [rewrite deserialize_enc; cbn|]; by rewrite serialize_enc.
Qed.
End table.

(** * The store *)

Record Store := {
  st_strings : gmap GenericKey (DataContext bytes);
  st_maps : gmap (GenericKey * bytes) (DataContext bytes);
}.

Definition store_empty : Store := {| st_strings := ∅; st_maps := ∅ |}.

Definition merge_string (s : Store) (k : GenericKey) (op : MergeOp bytes) : Store :=
  {| st_strings := <[k := full_merge (st_strings s !! k) [op]]> (st_strings s);
     st_maps := st_maps s |}.

Definition merge_map (s : Store) (k : GenericKey) (f : bytes) (op : MergeOp bytes) : Store :=
  {| st_strings := st_strings s;
     st_maps := <[(k, f) := full_merge (st_maps s !! (k, f)) [op]]> (st_maps s) |}.

Section store.
Context `{Codecs, !CodecLaws}.
Implicit Types s : Store.

Definition entry_bytes (kf : GenericKey * bytes) : bytes := gk_to_bytes kf.1 ++ enc kf.2.

Lemma string_key_inj k k' : gk_wf k → gk_wf k' → gk_to_bytes k = gk_to_bytes k' → k = k'.
Proof.
  intros Hk Hk' Heq. apply (gk_prefix_free k k' [] []); [done|done|]. by rewrite Heq.
Qed.

Lemma entry_bytes_inj kf kf' : gk_wf kf.1 → gk_wf kf'.1 → entry_bytes kf = entry_bytes kf' → kf = kf'.
Proof.
  destruct kf, kf'; unfold entry_bytes; cbn. intros Hk Hk' Heq.
  apply gk_prefix_free in Heq as [-> Heq]; [|done..]. by apply enc_inj in Heq as ->.
Qed.

(** The tables of the user's column families hold the store. *)
Record holds (t : Tables) s : Prop := {
  ho_strings : table_holds gk_to_bytes gk_wf (t GenericString) (st_strings s);
  ho_maps : table_holds entry_bytes (λ kf, gk_wf kf.1) (t GenericMap) (st_maps s);
}.

Lemma cf_options_string : cf_options GenericString = Some (create_cf_opts StringColumn).
Proof. done. Qed.
Lemma cf_options_map : cf_options GenericMap = Some (create_cf_opts MapColumn).
Proof. done. Qed.

Lemma holds_merge_string t s k op :
  holds t s → gk_wf k →
  ∃ t', apply_merge cf_options t (GenericString, gk_to_bytes k, enc op) = Some t' ∧
    holds t' (merge_string s k op).
Proof.
  intros [Hs Hm] Hk. unfold apply_merge. rewrite cf_options_string. cbn [mbind option_bind].
  cbn [create_cf_opts cf_full_merge].
  rewrite (table_holds_lookup gk_to_bytes gk_wf string_key_inj _ _ k Hs Hk), full_merge_enc.
  cbn. eexists. split; [done|]. split; cbn; [|done].
  by apply (table_holds_insert gk_to_bytes gk_wf string_key_inj).
Qed.

Lemma holds_merge_map t s k f op :
  holds t s → gk_wf k →
  ∃ t', apply_merge cf_options t (GenericMap, gk_to_bytes k ++ enc f, enc op) = Some t' ∧
    holds t' (merge_map s k f op).
Proof.
  intros [Hs Hm] Hk. unfold apply_merge. rewrite cf_options_map. cbn [mbind option_bind].
  cbn [create_cf_opts cf_full_merge]. change (gk_to_bytes k ++ enc f) with (entry_bytes (k, f)).
  rewrite (table_holds_lookup entry_bytes (λ kf, gk_wf kf.1) entry_bytes_inj _ _ (k, f) Hm Hk),
    full_merge_enc.
  cbn. eexists. split; [done|]. split; cbn; [done|].
  by apply (table_holds_insert entry_bytes (λ kf, gk_wf kf.1) entry_bytes_inj _ _ (k, f)).
Qed.

Lemma apply_merge_ext t1 t2 op t1' :
  (∀ cf, t1 cf = t2 cf) → apply_merge cf_options t1 op = Some t1' →
  ∃ t2', apply_merge cf_options t2 op = Some t2' ∧ ∀ cf, t1' cf = t2' cf.
Proof.
  intros Heq. destruct op as [[cf k] o]. unfold apply_merge. rewrite <-Heq.
  destruct (cf_options cf) as [opts|]; cbn; [|done].
  destruct (cf_full_merge _ _ _) as [v|]; cbn; [|done]. intros [= <-].
  eexists. split; [done|]. intros cf'. cbn. case_decide; [by rewrite Heq|done].
Qed.

Lemma apply_batch_ext t1 t2 batch t1' :
  (∀ cf, t1 cf = t2 cf) → apply_batch cf_options t1 batch = Some t1' →
  ∃ t2', apply_batch cf_options t2 batch = Some t2' ∧ ∀ cf, t1' cf = t2' cf.
Proof.
  revert t1 t2; induction batch as [|op batch IH]; intros t1 t2 Heq; cbn.
  { intros [= <-]. eauto. }
  destruct (apply_merge cf_options t1 op) as [t|] eqn:Hm; cbn; [|done]. intros Hb.
  destruct (apply_merge_ext _ _ _ _ Heq Hm) as (t' & -> & Ht). cbn. by eapply IH.
Qed.

Lemma apply_batch_app t b1 b2 :
  apply_batch cf_options t (b1 ++ b2) =
  apply_batch cf_options t b1 ≫= λ t', apply_batch cf_options t' b2.
Proof.
  revert t; induction b1 as [|op b1 IH]; intros t; cbn; [done|].
  destruct (apply_merge cf_options t op); cbn; [apply IH|done].
Qed.

Lemma holds_ext t t' s : (∀ cf, t cf = t' cf) → holds t s → holds t' s.
Proof. intros Heq [??]. split; by rewrite <-Heq. Qed.
End store.

(** * Maps in the order of the database *)
Section entries.
Context `{Codecs, !CodecLaws}.
Implicit Types s : Store.

(** Fields are ordered by their serialized form. *)
Definition enc_le (a b : bytes * DataContext bytes) : Prop := bytes_le (enc a.1) (enc b.1).
#[export] Instance enc_le_dec : RelDecision enc_le.
Proof. intros a b. unfold enc_le. apply _. Defined.
#[export] Instance enc_le_total : Total enc_le.
Proof. intros a b. apply bytes_le_total. Qed.
#[export] Instance enc_le_trans : Transitive enc_le.
Proof. intros a b c. apply bytes_le_trans. Qed.
#[export] Instance key_le_total : Total key_le.
Proof. intros a b. apply bytes_le_total. Qed.
#[export] Instance key_le_trans : Transitive key_le.
Proof. intros a b c. apply bytes_le_trans. Qed.

Definition field_of (k : GenericKey) (e : GenericKey * bytes * DataContext bytes)
    : option (bytes * DataContext bytes) :=
  if decide (e.1.1 = k) then Some (e.1.2, e.2) else None.

(** The entries of map [k], in the order of the database. *)
Definition map_entries s (k : GenericKey) : list (bytes * DataContext bytes) :=
  merge_sort enc_le (omap (field_of k) (map_to_list (st_maps s))).

Lemma elem_of_map_entries s k f c : (f, c) ∈ map_entries s k ↔ st_maps s !! (k, f) = Some c.
Proof.
  unfold map_entries. rewrite merge_sort_Permutation, list_elem_of_omap. split.
  - intros ([[k' f'] c'] & Hin & Hf). apply elem_of_map_to_list in Hin.
    unfold field_of in Hf; cbn in Hf. case_decide; naive_solver.
  - intros Hc. exists ((k, f), c). split; [by apply elem_of_map_to_list|].
    unfold field_of; cbn. by rewrite decide_True.
Qed.

Lemma map_entries_NoDup s k : NoDup (map_entries s k).*1.
Proof.
  unfold map_entries. rewrite merge_sort_Permutation.
  pose proof (NoDup_fst_map_to_list (st_maps s)) as Hnd.
  induction (map_to_list (st_maps s)) as [|[[k' f] c] l IH]; cbn; [constructor|].
  apply NoDup_cons in Hnd as [Hnin Hnd]. specialize (IH Hnd).
  unfold field_of at 1; cbn. destruct (decide (k' = k)) as [->|]; cbn; [|done].
  constructor; [|done]. intros ([f' c'] & -> & Hin)%list_elem_of_fmap. apply Hnin.
  apply list_elem_of_omap in Hin as ([[k'' f''] c''] & Hin & Hf).
  unfold field_of in Hf; cbn in Hf. case_decide; [|done]. simplify_eq/=.
  apply list_elem_of_fmap. by exists (k, f', c').
Qed.

Lemma map_entries_sorted s k : StronglySorted enc_le (map_entries s k).
Proof. apply (StronglySorted_merge_sort _). Qed.

(** The part of the table that a prefix iterator visits. *)
Definition entry_kv (k : GenericKey) (e : bytes * DataContext bytes) : KVBytes :=
  (gk_to_bytes k ++ enc e.1, enc e.2).

Lemma prefix_entries t s k (P : KVBytes → Prop) `{!∀ kv, Decision (P kv)} :
  holds t s → gk_wf k →
  (∀ k' (f v : bytes), gk_wf k' → P (gk_to_bytes k' ++ enc f, v) ↔ k' = k) →
  filter P (sorted_entries (t GenericMap)) = entry_kv k <$> map_entries s k.
Proof.
  intros [_ [Hwf He]] Hk HP.
  apply (StronglySorted_unique_strong key_le).
  - intros [b v] [b' v'] Hin1 Hin2 Hle Hge. assert (b = b') as ->.
    { apply (anti_symm bytes_le); [apply Hle|apply Hge]. }
    apply list_elem_of_filter in Hin1 as [_ Hin1]. unfold sorted_entries in Hin1.
    rewrite merge_sort_Permutation in Hin1. apply elem_of_map_to_list in Hin1.
    apply list_elem_of_fmap in Hin2 as ([f c] & Heq & Hin2).
    unfold entry_kv in Heq; cbn [fst snd] in Heq. simplify_eq.
    apply elem_of_map_entries in Hin2. f_equal.
    assert (t GenericMap !! (gk_to_bytes k ++ enc f) = Some (enc c)) as Ht
      by (apply He; by exists (k, f), c).
    rewrite Ht in Hin1. congruence.
  - apply StronglySorted_filter, (StronglySorted_merge_sort key_le).
  - eapply StronglySorted_fmap; [|apply map_entries_sorted]. intros e e' Hle.
    unfold key_le, entry_kv; cbn. apply bytes_le_app; [done|]. by right.
  - apply NoDup_Permutation.
    + apply NoDup_filter. unfold sorted_entries. rewrite merge_sort_Permutation.
      apply NoDup_map_to_list.
    + apply NoDup_fmap_2_strong.
      * intros [f c] [f' c'] _ _ [= Hf%(inj (_ ++.)) Hc]. apply enc_inj in Hf, Hc. congruence.
      * eapply NoDup_fmap_1, map_entries_NoDup.
    + intros [b v]. rewrite list_elem_of_filter, list_elem_of_fmap.
      unfold sorted_entries. rewrite merge_sort_Permutation, elem_of_map_to_list, He. split.
      * intros [HPb ([k' f] & c & Hc & <- & <-)]. cbn in HPb.
        apply HP in HPb; [|by apply (Hwf _ _ Hc)]. cbn in HPb; subst k'. exists (f, c). split; [done|].
        by apply elem_of_map_entries.
      * intros ([f c] & Heq & Hin%elem_of_map_entries). unfold entry_kv in Heq; cbn [fst snd] in Heq.
        simplify_eq. split; [by apply HP|].
        by exists (k, f), c.
Qed.
End entries.

(** * Operations on a working database *)
Section operations.
Context `{Codecs, !CodecLaws, RocksDb, !RocksLaws cf_options}.
Implicit Types s : Store.
Implicit Types self : RocksBackend.

(** A backend that works and holds the store. *)
Record backend_holds self s : Prop := {
  bh_tables : holds (rdb_table (be_db self)) s;
  bh_batch : be_batch_worker self = Ok ();
  bh_callback : be_callback_worker self = Ok ();
}.

(** ** Reads *)

Lemma convert_result_enc {T} `{Postcard T, !PostcardIo T, !PostcardIoLaws T} (o : option T) :
  convert_result (native_res (inl (enc <$> o))) = Ok o.
Proof.
  unfold convert_result, native_res. destruct o; cbn [fmap option_fmap option_map mbind res_bind];
    [by rewrite deserialize_enc|done].
Qed.

Lemma backend_get_string self s k :
  backend_holds self s → gk_wf k →
  backend_get self GenericString (gk_to_bytes k) = Ok (st_strings s !! k).
Proof.
  intros [[Hs _] Hb _] Hk. unfold backend_get, reader_read. rewrite Hb. cbn [mbind res_bind].
  unfold reader_answer; cbn [find_column]. 
  rewrite (rdb_get_law _ _ _ _ cf_options_string).
  rewrite (table_holds_lookup gk_to_bytes gk_wf string_key_inj _ _ k Hs Hk).
  apply convert_result_enc.
Qed.

Lemma backend_get_map self s k f :
  backend_holds self s → gk_wf k →
  backend_get self GenericMap (gk_to_bytes k ++ enc f) = Ok (st_maps s !! (k, f)).
Proof.
  intros [[_ Hm] Hb _] Hk. unfold backend_get, reader_read. rewrite Hb. cbn [mbind res_bind].
  unfold reader_answer; cbn [find_column].
  rewrite (rdb_get_law _ _ _ _ cf_options_map).
  change (gk_to_bytes k ++ enc f) with (entry_bytes (k, f)).
  rewrite (table_holds_lookup entry_bytes (λ kf, gk_wf kf.1) entry_bytes_inj _ _ (k, f) Hm Hk).
  apply convert_result_enc.
Qed.

Lemma ext_key_enc k (f : bytes) : ext_key k f = Ok (gk_to_bytes k ++ enc f).
Proof. unfold ext_key. by rewrite serialize_enc. Qed.

(** What [expiration] answers for a context. *)
Definition expiration_of (now_secs : Z) (data : option (DataContext bytes)) : option Z :=
  data ≫= λ data,
    if expired now_secs data || bool_decide (dc_payload data = None) then None
    else Some (dc_expires data).

Lemma string_get_spec now self s k :
  backend_holds self s → gk_wf k →
  string_get now self StringColumn k = Ok (st_strings s !! k ≫= record_of now).
Proof.
  intros Hh Hk. unfold string_get. cbn [storage_key mbind res_bind].
  by erewrite backend_get_string by done.
Qed.

Lemma hget_spec now self s k f :
  backend_holds self s → gk_wf k →
  hget now self MapColumn k f = Ok (st_maps s !! (k, f) ≫= record_of now).
Proof.
  intros Hh Hk. unfold hget. rewrite ext_key_enc. cbn [mbind res_bind].
  by erewrite backend_get_map by done.
Qed.

Lemma expiration_string_spec now self s k :
  backend_holds self s → gk_wf k →
  expiration now self StringColumn k None =
    ok_or (expiration_of now (st_strings s !! k)) REntryNotFound.
Proof.
  intros Hh Hk. unfold expiration. cbn [storage_key mbind res_bind].
  erewrite backend_get_string by done. cbn. unfold expiration_of.
  destruct (st_strings s !! k); cbn; [by case_match|done].
Qed.

Lemma expiration_map_spec now self s k f :
  backend_holds self s → gk_wf k →
  expiration now self MapColumn k (Some f) =
    ok_or (expiration_of now (st_maps s !! (k, f))) REntryNotFound.
Proof.
  intros Hh Hk. unfold expiration. rewrite ext_key_enc. cbn [mbind res_bind].
  erewrite backend_get_map by done. cbn. unfold expiration_of.
  destruct (st_maps s !! (k, f)); cbn; [by case_match|done].
Qed.

(** ** Writes *)

Lemma backend_merge_registered self cf C key value :
  find_column cf = Some C →
  backend_merge self cf key value =
    let '(db, r) := rdb_merge_cf (be_db self) cf key value in (with_db self db, native_res r).
Proof. intros Hf. unfold backend_merge, cf_handle. by rewrite Hf. Qed.

Lemma backend_merge_string self s k op :
  backend_holds self s → gk_wf k →
  ∃ self', backend_merge self GenericString (gk_to_bytes k) (enc op) = (self', Ok ()) ∧
    backend_holds self' (merge_string s k op).
Proof.
  intros [Ht Hb Hc] Hk. destruct (holds_merge_string _ _ k op Ht Hk) as (t & Ha & Hh).
  destruct (rdb_merge_law _ _ _ _ _ Ha) as (db & Hm & Heq).
  erewrite backend_merge_registered by done. rewrite Hm. eexists. split; [done|]. split; [|done..]. eapply holds_ext; [|done]. cbn. by intros cf.
Qed.

Lemma backend_merge_map self s k f op :
  backend_holds self s → gk_wf k →
  ∃ self', backend_merge self GenericMap (gk_to_bytes k ++ enc f) (enc op) = (self', Ok ()) ∧
    backend_holds self' (merge_map s k f op).
Proof.
  intros [Ht Hb Hc] Hk. destruct (holds_merge_map _ _ k f op Ht Hk) as (t & Ha & Hh).
  destruct (rdb_merge_law _ _ _ _ _ Ha) as (db & Hm & Heq).
  erewrite backend_merge_registered by done. rewrite Hm. eexists. split; [done|]. split; [|done..]. eapply holds_ext; [|done]. cbn. by intros cf.
Qed.
End operations.
