(* ===== verification/RocksToy.v ===== *)
(** RocksToy: a small database and serializers that satisfy the laws, to run the
    storage code on. *)
From S2P Require Import Prelude External StorageApi RocksContext RocksKeys RocksDb RocksStorage.
From S2P Require Import RocksProofs.
From stdpp Require Import prelude gmap sets list strings sorting.

#[export] Instance MergeOpKind_eq_dec {T} `{EqDecision T} : EqDecision (MergeOpKind T).
Proof. solve_decision. Defined.
#[export] Instance MergeOp_eq_dec {T} `{EqDecision T} : EqDecision (MergeOp T).
Proof. solve_decision. Defined.

#[export] Instance MergeOp_countable {T} `{Countable T} : Countable (MergeOp T).
Proof.
  apply (inj_countable'
    (λ op, (match mo_kind op with
            | KindSet v e => (0, Some v, e)
            | KindSetVal v => (1, Some v, 0%Z)
            | KindSetExp e => (2, None, e)
            | KindDel e => (3, None, e)
            end, mo_timestamp op))
    (λ p, {| mo_kind := match p.1 with
                        | (0, Some v, e) => KindSet v e
                        | (1, Some v, _) => KindSetVal v
                        | (2, None, e) => KindSetExp e
                        | (_, _, e) => KindDel e
                        end; mo_timestamp := p.2 |})).
  by intros [[] ts].
Defined.

#[export] Instance DataContext_countable {T} `{Countable T} : Countable (DataContext T).
Proof.
  apply (inj_countable'
    (λ c, (dc_payload c, dc_expires c, dc_updated c, dc_created c))
    (λ p, {| dc_payload := p.1.1.1; dc_expires := p.1.1.2; dc_updated := p.1.2; dc_created := p.2 |})).
  by intros [].
Defined.

Definition toy_codecs : Codecs := {|
  codec_field := toy_postcard bytes; codec_field_io := toy_postcard_io bytes;
  codec_op := toy_postcard (MergeOp bytes); codec_op_io := toy_postcard_io (MergeOp bytes);
  codec_ctx := toy_postcard (DataContext bytes); codec_ctx_io := toy_postcard_io (DataContext bytes);
|}.

Lemma toy_codec_laws : @CodecLaws toy_codecs.
Proof. split; apply toy_postcard_io_laws. Qed.

Definition toy_error : NativeError := {| ne_kind := "Corruption"; ne_message := "merge" |}.

(** A database that is its tables. *)
Definition toy_rocks : RocksDb := {|
  rdb := Tables;
  rdb_get_cf t cf key := inl (t cf !! key);
  rdb_merge_cf t cf key operand :=
    match apply_merge (@cf_options toy_codecs) t (cf, key, operand) with
    | Some t' => (t', inl ())
    | None => (t, inr toy_error)
    end;
  rdb_write t batch :=
    match apply_batch (@cf_options toy_codecs) t batch with
    | Some t' => (t', inl ())
    | None => (t, inr toy_error)
    end;
  rdb_iterator_cf t cf ro mode :=
    match @cf_options toy_codecs cf with
    | Some o => inl <$> filter (λ kv, iter_visits o ro mode kv.1) (sorted_entries (t cf))
    | None => []
    end;
|}.

Definition toy_rocks_laws : @RocksLaws toy_rocks (@cf_options toy_codecs).
Proof.
  refine (@Build_RocksLaws toy_rocks _ (λ db, db) _ _ _ _).
  - done.
  - intros db batch t Hb. exists t. cbn. by rewrite Hb.
  - intros db cf key operand t Hb. exists t. cbn in *. by rewrite Hb.
  - intros db cf ro mode o Ho. cbn. by rewrite Ho.
Defined.

Definition toy_backend : @RocksBackend toy_rocks :=
  @Build_RocksBackend toy_rocks (λ _, ∅) (Ok ()) (Ok ()).

Lemma toy_backend_holds :
  @backend_holds toy_codecs toy_rocks toy_rocks_laws toy_backend store_empty.
Proof. split; [|done..]. split; apply table_holds_empty. Qed.

(** A database whose iterators fail at once. *)
Definition toy_broken : RocksDb := {|
  rdb := ();
  rdb_get_cf _ _ _ := inr toy_error;
  rdb_merge_cf _ _ _ _ := ((), inr toy_error);
  rdb_write _ _ := ((), inr toy_error);
  rdb_iterator_cf _ _ _ _ := [inr toy_error];
|}.

Definition toy_broken_backend : @RocksBackend toy_broken :=
  @Build_RocksBackend toy_broken () (Ok ()) (Ok ()).
