(* ===== verification/RocksScan.v ===== *)
(** RocksScan: iterating over a map of the database (src/crates/rocks/src/db/types/map.rs,
    db/types/common/iterators.rs).

    On a working database [hcard], [hvals] and [hscan] see exactly the live
    entries of the map in the order of the database, and a page of [hscan] is
    the next [count] of them after the cursor. *)
From S2P Require Import Prelude External StorageApi RocksContext RocksKeys RocksDb RocksStorage.
From S2P Require Import RocksProofs.
From stdpp Require Import prelude gmap sets list strings sorting.

(** * Pages of a list *)

(** What [scan] returns of the entries after its cursor: at least one, if there
    is one, also for a count of zero. *)
Definition page_of (count : nat) (l : list MapRecord) : ScanResult :=
  {| sr_items := take (Nat.max 1 count) l; sr_has_next := bool_decide (Nat.max 1 count < length l) |}.

Lemma scan_loop_spec count items l :
  length items < Nat.max 1 count →
  scan_loop count items (Ok <$> l) =
    Ok {| sr_items := items ++ take (Nat.max 1 count - length items) l;
          sr_has_next := bool_decide (Nat.max 1 count - length items < length l) |}.
Proof.
  revert items; induction l as [|r l IH]; intros items Hlen; cbn.
  { rewrite take_nil, app_nil_r. by rewrite bool_decide_false by lia. }
  rewrite length_app; cbn. destruct (decide (count ≤ length items + 1)) as [Hge|Hlt].
  - replace (Nat.max 1 count - length items) with 1 by lia. cbn. rewrite take_0. do 2 f_equal.
    apply bool_decide_ext. destruct l; cbn; naive_solver lia.
  - rewrite IH by (rewrite length_app; cbn; lia). rewrite length_app; cbn.
    replace (Nat.max 1 count - length items) with (S (Nat.max 1 count - (length items + 1))) by lia.
    cbn. rewrite <-app_assoc. cbn. do 2 f_equal. apply bool_decide_ext. lia.
Qed.

(** * The live entries *)
Section live.
Context `{Codecs, !CodecLaws}.
Implicit Types s : Store.
Implicit Types e : bytes * DataContext bytes.

Definition live_record (now : Z) e : option MapRecord :=
  (λ r, {| mrec_field := e.1; mrec_value := rrec_value r;
           mrec_expiration := rrec_expiration r; mrec_version := rrec_version r |})
    <$> record_of now e.2.

(** The live entries of map [k] after the cursor. *)
Definition live_after (now : Z) s (k : GenericKey) (cursor : option bytes) : list MapRecord :=
  omap (live_record now)
    (match cursor with
     | Some cur => filter (λ e, bytes_lt (enc cur) (enc e.1)) (map_entries s k)
     | None => map_entries s k
     end).

Lemma live_record_field now e r : live_record now e = Some r → mrec_field r = e.1.
Proof. unfold live_record. destruct (record_of now e.2); cbn; naive_solver. Qed.

Lemma map_records_entry now k e : gk_wf k → map_records now (entry_kv k e) = Ok (live_record now e).
Proof.
  intros Hk. unfold map_records, entry_kv; cbn [fst snd].
  rewrite split_ext_key_app by done. cbn [mbind res_bind].
  rewrite !deserialize_enc. done.
Qed.

Lemma scan_items now k (l : list (bytes * DataContext bytes)) :
  gk_wf k →
  omap (λ kv, transpose (map_records now kv)) (entry_kv k <$> l) = Ok <$> omap (live_record now) l.
Proof.
  intros Hk. induction l as [|e l IH]; cbn; [done|].
  rewrite map_records_entry by done. destruct (live_record now e); cbn; by rewrite IH.
Qed.

Lemma iter_values_items now k (l : list (bytes * DataContext bytes)) :
  omap (λ kv, transpose (parse_value now kv)) (entry_kv k <$> l) =
    Ok <$> (mrec_value <$> omap (live_record now) l).
Proof.
  induction l as [|e l IH]; cbn; [done|].
  unfold parse_value at 1, entry_kv at 1; cbn [fst snd]. rewrite deserialize_enc. cbn.
  unfold live_record at 1, record_of. destruct (into_payload now e.2); cbn; by rewrite IH.
Qed.

Lemma flatten_ok_inl {A E} (l : list A) : flatten_ok (E := E) (inl <$> l) = l.
Proof. induction l as [|x l IH]; cbn; [done|]. by f_equal. Qed.

(** ** The cursor *)

Lemma filter_key_single (l : list (bytes * DataContext bytes)) cur :
  NoDup l.*1 → ∃ o, filter (λ e, e.1 = cur) l = option_list o ∧ ∀ e, o = Some e → e.1 = cur.
Proof.
  induction l as [|e l IH]; intros Hnd; [by exists None|].
  apply NoDup_cons in Hnd as [Hnin Hnd]. rewrite filter_cons. case_decide as He.
  - exists (Some e). split; [|naive_solver]. cbn. f_equal. apply filter_none.
    intros e' Hin Heq. apply Hnin, list_elem_of_fmap. exists e'. by rewrite He, Heq.
  - by apply IH.
Qed.

Lemma bytes_lt_alt a b : bytes_lt a b ↔ bytes_le a b ∧ a ≠ b.
Proof.
  unfold bytes_lt. split.
  - intros Hn. split; [by apply bytes_lt_le|]. intros ->. by destruct Hn; apply bytes_le_refl.
  - intros [Hle Hne] Hge. by apply Hne, (anti_symm bytes_le).
Qed.

(** What an iterator that starts at the cursor visits, the cursor aside. *)
Lemma filter_from_cursor (E : list (bytes * DataContext bytes)) cur :
  StronglySorted enc_le E → NoDup E.*1 →
  filter (λ e, bytes_le (enc cur) (enc e.1)) E =
    filter (λ e, e.1 = cur) E ++ filter (λ e, bytes_lt (enc cur) (enc e.1)) E.
Proof.
  induction 1 as [|e E Hs IH Hall]; intros Hnd; [done|].
  apply NoDup_cons in Hnd as [Hnin Hnd]. rewrite !filter_cons.
  destruct (decide (e.1 = cur)) as [<-|Hne].
  - rewrite decide_True by apply bytes_le_refl.
    rewrite (decide_False (P := bytes_lt _ _)) by (rewrite bytes_lt_alt; naive_solver).
    cbn. by rewrite IH.
  - destruct (decide (bytes_le (enc cur) (enc e.1))) as [Hle|Hgt].
    + rewrite decide_True by (apply bytes_lt_alt; split; [done|]; by intros ?%enc_inj).
      rewrite IH by done.
      assert (filter (λ e0, e0.1 = cur) E = []) as ->; [|done].
      apply filter_none. intros e' Hin <-.
      eapply Forall_forall in Hall; [|done]. destruct Hne. apply enc_inj.
      by apply (anti_symm bytes_le).
    + rewrite decide_False by (rewrite bytes_lt_alt; naive_solver). by apply IH.
Qed.
End live.

(** * Iterators on a working database *)
Section scan.
Context `{Codecs, !CodecLaws, RocksDb, !RocksLaws cf_options}.
Implicit Types s : Store.
Implicit Types self : RocksBackend.

Lemma bytes_le_prefix a b : bytes_le a (a ++ b).
Proof. rewrite <-(app_nil_r a) at 1. apply bytes_le_app; [done|]. by right. Qed.

Lemma prefix_extractor_key k : gk_wf k → dynamic_prefix_extractor (gk_to_bytes k) = gk_to_bytes k.
Proof. intros Hk. pose proof (prefix_extractor_app k Hk []) as He. by rewrite app_nil_r in He. Qed.

Lemma visits_prefix k k' suffix start :
  gk_wf k → gk_wf k' →
  iter_visits (create_cf_opts MapColumn)
    {| ro_iterate_lower_bound := None; ro_iterate_upper_bound := None;
       ro_total_order_seek := false; ro_prefix_same_as_start := true |}
    (IterFrom (gk_to_bytes k ++ start)) (gk_to_bytes k' ++ suffix) ↔
  k' = k ∧ bytes_le start suffix.
Proof.
  intros Hk Hk'. unfold iter_visits; cbn. rewrite !prefix_extractor_app by done. split.
  - intros (_ & _ & Hle & Heq). apply string_key_inj in Heq as ->; [|done..]. split; [done|].
    apply bytes_le_app in Hle as [[_ Hne]|[_ ?]]; done.
  - intros [-> Hle]. split_and!; [done..| |done]. apply bytes_le_app; [done|]. by right.
Qed.

Lemma prefix_iterator_spec self s k :
  backend_holds self s → gk_wf k →
  prefix_iterator self MapColumn (gk_to_bytes k) = Ok (inl <$> (entry_kv k <$> map_entries s k)).
Proof.
  intros [Ht _ _] Hk. unfold prefix_iterator. cbn [cf_handle find_column mbind res_bind].
  change (cf_handle (NAME MapColumn)) with (@Ok RocksError _ GenericMap). cbn [mbind res_bind].
  rewrite (rdb_iterator_law _ _ _ _ _ cf_options_map). do 2 f_equal.
  apply prefix_entries; [done..|]. intros k' f v Hk'. cbn [fst].
  rewrite <-(app_nil_r (gk_to_bytes k)), visits_prefix by done. split; [by intros [? _]|done].
Qed.

Lemma cursor_iterator_spec self s k (cur : bytes) :
  backend_holds self s → gk_wf k →
  prefix_iterator_with_cursor self MapColumn (gk_to_bytes k ++ enc cur) =
    Ok (inl <$> (entry_kv k <$> filter (λ e, bytes_le (enc cur) (enc e.1)) (map_entries s k))).
Proof.
  intros [Ht _ _] Hk. unfold prefix_iterator_with_cursor.
  change (cf_handle (NAME MapColumn)) with (@Ok RocksError _ GenericMap). cbn [mbind res_bind].
  rewrite (rdb_iterator_law _ _ _ _ _ cf_options_map). do 2 f_equal.
  set (ro := Build_ReadOptions _ _ _ _).
  transitivity (filter (λ kv, bytes_le (gk_to_bytes k ++ enc cur) kv.1) (filter (λ kv,
    iter_visits (create_cf_opts MapColumn) ro (IterFrom (gk_to_bytes k ++ [])) kv.1)
      (sorted_entries (rdb_table (be_db self) GenericMap)))).
  - rewrite list_filter_filter. apply list_filter_iff. intros [b v]; cbn [fst].
    unfold iter_visits; cbn. rewrite !prefix_extractor_app by done. rewrite app_nil_r.
    split.
    + intros (_ & _ & Hle & Heq). refine (conj Hle (conj I (conj I (conj _ Heq)))).
      etrans; [apply bytes_le_prefix|exact Hle].
    + intros (Hle & _ & _ & _ & Heq). exact (conj I (conj I (conj Hle Heq))).
  - rewrite (prefix_entries _ s k); [|done|done|].
    + rewrite filter_fmap_comm. f_equal. apply list_filter_iff. intros e; cbn.
      rewrite bytes_le_app by done. split; [by intros [[_ ?]|[_ ?]]|by right].
    + intros k' f v Hk'. cbn [fst]. unfold ro. rewrite visits_prefix by done. split; [by intros [? _]|done].
Qed.

(** ** [hcard], [hvals] and [hscan] *)

Lemma res_map_Ok {A} (l : list A) : res_map (E := RocksError) id (Ok <$> l) = Ok l.
Proof. induction l as [|x l IH]; cbn; [done|]. by rewrite IH. Qed.

Lemma count_values_Ok n (l : list bytes) : count_values n (Ok <$> l) = Ok (n + length l).
Proof. revert n; induction l as [|v l IH]; intros n; cbn; [f_equal; lia|]. rewrite IH. f_equal; lia. Qed.

Lemma hvals_spec now self s k :
  backend_holds self s → gk_wf k →
  hvals now self MapColumn k = Ok (mrec_value <$> live_after now s k None).
Proof.
  intros Hh Hk. unfold hvals, exec_blocking. rewrite (bh_callback _ _ Hh). cbn [storage_key mbind res_bind].
  rewrite (prefix_iterator_spec _ s) by done. cbn [mbind res_bind].
  unfold iter_values. by rewrite flatten_ok_inl, iter_values_items, res_map_Ok.
Qed.

Lemma hcard_spec now self s k :
  backend_holds self s → gk_wf k →
  hcard now self MapColumn k = Ok (length (live_after now s k None)).
Proof.
  intros Hh Hk. unfold hcard, exec_blocking. rewrite (bh_callback _ _ Hh). cbn [storage_key mbind res_bind].
  rewrite (prefix_iterator_spec _ s) by done. cbn [mbind res_bind].
  unfold iter_values. by rewrite flatten_ok_inl, iter_values_items, count_values_Ok, length_fmap.
Qed.

Lemma scan_loop_page count l : scan_loop count [] (Ok <$> l) = Ok (page_of count l).
Proof. rewrite scan_loop_spec by (cbn; lia). cbn. by rewrite Nat.sub_0_r. Qed.

(** Skipping the entry under the cursor leaves the entries after it. *)
Lemma skip_cursor now s k cur :
  let iter : list (res RocksError MapRecord) := Ok <$> omap (live_record now)
    (filter (λ e, bytes_le (enc cur) (enc e.1)) (map_entries s k)) in
  (if is_same_cursor iter (Some cur) then tail iter else iter) = Ok <$> live_after now s k (Some cur).
Proof.
  cbn. rewrite filter_from_cursor by (apply map_entries_sorted || apply map_entries_NoDup).
  rewrite omap_app, fmap_app. unfold live_after.
  set (after := omap (live_record now) (filter (λ e, bytes_lt (enc cur) (enc e.1)) _)).
  assert (is_same_cursor (Ok <$> after) (Some cur) = false) as Hafter.
  { unfold is_same_cursor. destruct after as [|r l] eqn:Ha; cbn; [done|].
    apply bool_decide_eq_false. intros Hr. assert (r ∈ after) as Hin by (rewrite Ha; left).
    apply list_elem_of_omap in Hin as (e & [Hlt _]%list_elem_of_filter & He).
    apply live_record_field in He. rewrite <-He, Hr in Hlt. by apply Hlt, bytes_le_refl. }
  destruct (filter_key_single (map_entries s k) cur) as ([e|] & -> & He);
    [apply map_entries_NoDup| |]; cbn; [|by rewrite Hafter].
  destruct (live_record now e) as [r|] eqn:Hr; cbn; [|by rewrite Hafter].
  apply live_record_field in Hr. rewrite bool_decide_true; [done|]. rewrite Hr. auto.
Qed.

Lemma hscan_spec now self s k count cursor :
  backend_holds self s → gk_wf k →
  hscan now self MapColumn k {| so_count := count; so_cursor := cursor |} =
    Ok (page_of count (live_after now s k cursor)).
Proof.
  intros Hh Hk. unfold hscan, exec_blocking. rewrite (bh_callback _ _ Hh). cbn [mbind res_bind].
  unfold scan; cbn [so_cursor so_count]. destruct cursor as [cur|].
  - rewrite serialize_enc. cbn [mbind res_bind]. unfold ext_key_from_slice. cbn [storage_key mbind res_bind].
    rewrite (cursor_iterator_spec _ s) by done. cbn [mbind res_bind].
    rewrite flatten_ok_inl, scan_items, skip_cursor by done. apply scan_loop_page.
  - cbn [storage_key mbind res_bind]. rewrite (prefix_iterator_spec _ s) by done. cbn [mbind res_bind].
    rewrite flatten_ok_inl, scan_items by done.
    replace (is_same_cursor _ _) with false; [apply scan_loop_page|].
    unfold is_same_cursor. by destruct (head _) as [[]|].
Qed.
End scan.
