(* ===== verification/RocksReader.v ===== *)
(** RocksReader: the worker threads that read from RocksDB
    (src/crates/rocks/src/db/reader.rs).

    [RocksDb] has one round of a reader thread and takes it as given that a
    request is accepted and answered.  Here are the threads themselves: pools of
    workers with bounded queues, callers that send requests to them in turn, and
    a database that changes meanwhile, as a step relation. *)
From S2P Require Import Prelude External StorageApi NodeOperator RocksContext RocksKeys RocksDb RocksProofs RocksToy.
From stdpp Require Import prelude gmap sets list strings.

Definition CHANNEL_CAPACITY : nat := 1024.

(** * Pools of workers *)

(** A worker thread: the requests in its channel, those it has taken and not yet
    answered, and whether it is running.  A thread whose callback panicked has
    dropped the receiving end of its channel. *)
Record Worker (R : Type) := { wk_queue : list R; wk_batch : list R; wk_running : bool }.
Arguments wk_queue {_} _.
Arguments wk_batch {_} _.
Arguments wk_running {_} _.

(** The workers, and the counter that picks the next one. *)
Record Pool (R : Type) := { pl_workers : list (Worker R); pl_worker_idx : Z }.
Arguments pl_workers {_} _.
Arguments pl_worker_idx {_} _.

Section pool.
Context {R : Type}.

Definition worker_new : Worker R := {| wk_queue := []; wk_batch := []; wk_running := true |}.

Definition pool_new (threads : nat) : Pool R :=
  {| pl_workers := replicate threads worker_new; pl_worker_idx := 0 |}.

(** [SyncSender::try_send]: full, or disconnected. *)
Definition try_send (self : Worker R) (req : R) : option (Worker R) :=
  if wk_running self && bool_decide (length (wk_queue self) < CHANNEL_CAPACITY) then
    Some {| wk_queue := wk_queue self ++ [req]; wk_batch := wk_batch self; wk_running := true |}
  else None.

Definition set_worker (self : Pool R) (i : nat) (w : Worker R) : Pool R :=
  {| pl_workers := <[i := w]> (pl_workers self); pl_worker_idx := pl_worker_idx self |}.

(** [send_request] and [send_raw_callback]: the remainder by no workers panics. *)
Definition pool_send (self : Pool R) (req : R) : Pool R * res RocksError () :=
  let '(n, idx) := fetch_add_1 (pl_worker_idx self) in
  let self := {| pl_workers := pl_workers self; pl_worker_idx := idx |} in
  if decide (pl_workers self = []) then (self, Panic)
  else
    let idx := Z.to_nat (n mod Z.of_nat (length (pl_workers self))) in
    match pl_workers self !! idx with
    | None => (self, Panic)
    | Some w =>
        match try_send w req with
        | Some w => (set_worker self idx w, Ok ())
        | None => (self, Err RWorkerQueueOverrun)
        end
    end.

(** What is in the hands of the workers. *)
Definition worker_pending (w : Worker R) : list R := wk_queue w ++ wk_batch w.
Definition pool_pending (self : Pool R) : list R := pl_workers self ≫= worker_pending.
End pool.

(** * The reader *)

Section reader.
Context `{RocksDb} {U : Type}.

(** A callback on the database and the channel of its result; [None] stands for
    a callback that panics. *)
Record RawCallbackRequest := { raw_callback : rdb → option U; raw_channel : nat }.

(** [reader::Config]. *)
Record ReaderConfig := { num_batch_threads : nat; num_callback_threads : nat }.

Record DbReader := { rd_batch : Pool ReadRequest; rd_raw_cb : Pool RawCallbackRequest }.

Definition reader_new (config : ReaderConfig) : res RocksError DbReader :=
  if decide (num_batch_threads config = 0 ∨ num_callback_threads config = 0)
  then Err (ROther "Invalid number of reader threads")
  else Ok {| rd_batch := pool_new (num_batch_threads config);
             rd_raw_cb := pool_new (num_callback_threads config) |}.

Definition reader_send_request (self : DbReader) (req : ReadRequest) : DbReader * res RocksError () :=
  let '(pool, r) := pool_send (rd_batch self) req in
  ({| rd_batch := pool; rd_raw_cb := rd_raw_cb self |}, r).

Definition send_raw_callback (self : DbReader) (req : RawCallbackRequest) : DbReader * res RocksError () :=
  let '(pool, r) := pool_send (rd_raw_cb self) req in
  ({| rd_batch := rd_batch self; rd_raw_cb := pool |}, r).

(** ** The threads *)

(** A reader thread between two rounds takes the first request and every other
    one that is there. *)
Definition thread_recv (w : Worker ReadRequest) : option (Worker ReadRequest) :=
  match wk_batch w, wk_queue w with
  | [], req :: queue => Some {| wk_queue := []; wk_batch := req :: queue; wk_running := wk_running w |}
  | _, _ => None
  end.

(** One group of a round: the requests of one column family are read together. *)
Definition thread_group (db : rdb) (w : Worker ReadRequest) (cf_name : ColumnFamilyName)
    : Worker ReadRequest * list (nat * res RocksError (option bytes)) :=
  ({| wk_queue := wk_queue w; wk_batch := filter (λ req, rr_cf_name req ≠ cf_name) (wk_batch w);
      wk_running := wk_running w |},
   reader_group db (wk_batch w) cf_name).

(** [raw_cb_thread]: one request.  A panic ends the thread; what is left in its
    channel is dropped, which the callers see as a closed channel. *)
Definition raw_cb_run (db : rdb) (w : Worker RawCallbackRequest)
    : option (Worker RawCallbackRequest * list (nat * res RocksError U)) :=
  match wk_queue w with
  | [] => None
  | req :: queue =>
      Some match raw_callback req db with
           | Some u => ({| wk_queue := queue; wk_batch := wk_batch w; wk_running := wk_running w |},
                        [(raw_channel req, Ok u)])
           | None => ({| wk_queue := []; wk_batch := wk_batch w; wk_running := false |},
                      (λ req, (raw_channel req, Err RWorkerChannelClosed)) <$> wk_queue w)
           end
  end.

(** ** Runs *)

Inductive ReaderCall :=
| CallRead (cf_name : ColumnFamilyName) (key : bytes)
| CallExecRaw (cb : rdb → option U).

Inductive Reply :=
| ReplyRead (r : res RocksError (option bytes))
| ReplyRaw (r : res RocksError U).

(** The reader, the states of the database (the latest first), the calls with the
    number of states at the time, numbered by their channels, and the replies. *)
Record ReaderRun := {
  rn_reader : DbReader;
  rn_dbs : list rdb;
  rn_calls : list (ReaderCall * nat);
  rn_replies : list (nat * Reply);
}.

Definition run_start (reader : DbReader) (db : rdb) : ReaderRun :=
  {| rn_reader := reader; rn_dbs := [db]; rn_calls := []; rn_replies := [] |}.

(** [read] and [exec_raw] up to the point where they wait for their channel. *)
Definition run_call (st : ReaderRun) (call : ReaderCall) : option ReaderRun :=
  let channel := length (rn_calls st) in
  let '(reader, r, reply) :=
    match call with
    | CallRead cf_name key =>
        let '(reader, r) := reader_send_request (rn_reader st)
          {| rr_cf_name := cf_name; rr_key := key; rr_channel := channel |} in
        (reader, r, λ e, ReplyRead (Err e))
    | CallExecRaw cb =>
        let '(reader, r) := send_raw_callback (rn_reader st)
          {| raw_callback := cb; raw_channel := channel |} in
        (reader, r, λ e, ReplyRaw (Err e))
    end in
  let next replies :=
    {| rn_reader := reader; rn_dbs := rn_dbs st;
       rn_calls := rn_calls st ++ [(call, length (rn_dbs st))];
       rn_replies := rn_replies st ++ replies |} in
  match r with
  | Ok _ => Some (next [])
  | Err e => Some (next [(channel, reply e)])
  | Panic => None
  end.

Definition with_reader (st : ReaderRun) (reader : DbReader) (replies : list (nat * Reply)) : ReaderRun :=
  {| rn_reader := reader; rn_dbs := rn_dbs st; rn_calls := rn_calls st;
     rn_replies := rn_replies st ++ replies |}.

Definition set_batch (st : ReaderRun) (i : nat) (w : Worker ReadRequest) (replies : list (nat * Reply)) : ReaderRun :=
  with_reader st {| rd_batch := set_worker (rd_batch (rn_reader st)) i w;
                    rd_raw_cb := rd_raw_cb (rn_reader st) |} replies.

Definition set_raw (st : ReaderRun) (i : nat) (w : Worker RawCallbackRequest) (replies : list (nat * Reply)) : ReaderRun :=
  with_reader st {| rd_batch := rd_batch (rn_reader st);
                    rd_raw_cb := set_worker (rd_raw_cb (rn_reader st)) i w |} replies.

(** Steps of the threads. *)
Inductive thread_step : ReaderRun → ReaderRun → Prop :=
| thread_recvs st i w w' :
    pl_workers (rd_batch (rn_reader st)) !! i = Some w → thread_recv w = Some w' →
    thread_step st (set_batch st i w' [])
| thread_groups st i w db dbs cf_name w' answers :
    pl_workers (rd_batch (rn_reader st)) !! i = Some w → rn_dbs st = db :: dbs →
    cf_name ∈ rr_cf_name <$> wk_batch w → thread_group db w cf_name = (w', answers) →
    thread_step st (set_batch st i w' (prod_map id ReplyRead <$> answers))
| thread_runs_cb st i w db dbs w' answers :
    pl_workers (rd_raw_cb (rn_reader st)) !! i = Some w → rn_dbs st = db :: dbs →
    raw_cb_run db w = Some (w', answers) →
    thread_step st (set_raw st i w' (prod_map id ReplyRaw <$> answers)).

Inductive run_step : ReaderRun → ReaderRun → Prop :=
| step_thread st st' : thread_step st st' → run_step st st'
| step_call st call st' : run_call st call = Some st' → run_step st st'
| step_db st db :
    run_step st {| rn_reader := rn_reader st; rn_dbs := db :: rn_dbs st; rn_calls := rn_calls st;
                   rn_replies := rn_replies st |}.

(** Channels that wait for a reply. *)
Definition run_pending (st : ReaderRun) : list nat :=
  (rr_channel <$> pool_pending (rd_batch (rn_reader st))) ++
  (raw_channel <$> pool_pending (rd_raw_cb (rn_reader st))).

(** The states the database had from a point on. *)
Definition dbs_since (dbs : list rdb) (since : nat) : list rdb := take (S (length dbs) - since) dbs.

(** Some callback panics on some state of the database. *)
Definition crashed (st : ReaderRun) : Prop :=
  ∃ cb since db, (CallExecRaw cb, since) ∈ rn_calls st ∧ db ∈ rn_dbs st ∧ cb db = None.

(** The replies a call may get, from the states of the database it can have seen. *)
Inductive reply_ok (crash : Prop) (dbs : list rdb) : ReaderCall → Reply → Prop :=
| reply_read db cf_name key :
    db ∈ dbs → reply_ok crash dbs (CallRead cf_name key) (ReplyRead (reader_answer db cf_name key))
| reply_read_overrun cf_name key :
    reply_ok crash dbs (CallRead cf_name key) (ReplyRead (Err RWorkerQueueOverrun))
| reply_raw db cb u :
    db ∈ dbs → cb db = Some u → reply_ok crash dbs (CallExecRaw cb) (ReplyRaw (Ok u))
| reply_raw_overrun cb : reply_ok crash dbs (CallExecRaw cb) (ReplyRaw (Err RWorkerQueueOverrun))
| reply_raw_closed cb :
    crash → reply_ok crash dbs (CallExecRaw cb) (ReplyRaw (Err RWorkerChannelClosed)).
End reader.
Arguments DbReader {_} _.
Arguments ReaderRun {_} _.
Arguments ReaderCall {_} _.
Arguments Reply : clear implicits.
Arguments RawCallbackRequest {_} _.

(** * Pools: lemmas *)

Section pool_lemmas.
Context {R : Type}.
Implicit Types (p : Pool R) (w : Worker R) (req : R).

Definition worker_bounded w : Prop := length (wk_queue w) ≤ CHANNEL_CAPACITY.

Lemma set_worker_pending p i w w' :
  pl_workers p !! i = Some w →
  pool_pending (set_worker p i w') ++ worker_pending w ≡ₚ pool_pending p ++ worker_pending w'.
Proof.
  intros Hi. unfold pool_pending, set_worker; cbn. pose proof (lookup_lt_Some _ _ _ Hi) as Hlt.
  rewrite <-(take_drop_middle (pl_workers p) i w Hi) at 2. rewrite insert_take_drop by done.
  rewrite !bind_app, !bind_cons. solve_Permutation.
Qed.

Lemma pool_send_cases p req :
  pl_workers p ≠ [] →
  (∃ i w, pl_workers p !! i = Some w ∧ wk_running w = true ∧ length (wk_queue w) < CHANNEL_CAPACITY ∧
     pool_send p req =
       (set_worker {| pl_workers := pl_workers p; pl_worker_idx := u64_add (pl_worker_idx p) 1 |} i
          {| wk_queue := wk_queue w ++ [req]; wk_batch := wk_batch w; wk_running := true |}, Ok ())) ∨
  pool_send p req = ({| pl_workers := pl_workers p; pl_worker_idx := u64_add (pl_worker_idx p) 1 |},
                     Err RWorkerQueueOverrun).
Proof.
  intros Hne. unfold pool_send, fetch_add_1. cbn. rewrite decide_False by done.
  set (i := Z.to_nat _). assert (i < length (pl_workers p)) as Hi.
  { unfold i. assert (0 < length (pl_workers p)) by (destruct (pl_workers p); [done|cbn; lia]).
    pose proof (Z.mod_pos_bound (pl_worker_idx p) (Z.of_nat (length (pl_workers p)))). lia. }
  apply lookup_lt_is_Some_2 in Hi as [w Hw]. rewrite Hw. unfold try_send.
  destruct (wk_running w && _) eqn:Hok; [|by right]. apply andb_prop in Hok as [Hrun Hlen%bool_decide_eq_true].
  left. by exists i, w.
Qed.
End pool_lemmas.

(** * The invariant of a run *)

Section run_lemmas.
Context `{RocksDb} {U : Type}.
Implicit Types (st : ReaderRun U).

#[local] Abbreviation batch_of st := (rd_batch (rn_reader st)).
#[local] Abbreviation raw_of st := (rd_raw_cb (rn_reader st)).

(** The call a pending request belongs to. *)
Definition read_of st (req : ReadRequest) : Prop :=
  ∃ since, rn_calls st !! rr_channel req = Some (CallRead (rr_cf_name req) (rr_key req), since).
Definition raw_call_of st (req : RawCallbackRequest U) : Prop :=
  ∃ since, rn_calls st !! raw_channel req = Some (CallExecRaw (raw_callback req), since).

Definition replied_ok st (kr : nat * Reply U) : Prop :=
  ∃ call since, rn_calls st !! kr.1 = Some (call, since) ∧
    reply_ok (crashed st) (dbs_since (rn_dbs st) since) call kr.2.

Record run_wf st : Prop := {
  rw_batch : pl_workers (batch_of st) ≠ [];
  rw_raw : pl_workers (raw_of st) ≠ [];
  rw_batch_bound : Forall worker_bounded (pl_workers (batch_of st));
  rw_raw_bound : Forall worker_bounded (pl_workers (raw_of st));
  rw_raw_batch : Forall (λ w, wk_batch w = []) (pl_workers (raw_of st));
  rw_dbs : rn_dbs st ≠ [];
  rw_since : Forall (λ c, 1 ≤ c.2 ≤ length (rn_dbs st)) (rn_calls st);
  rw_once : run_pending st ++ (rn_replies st).*1 ≡ₚ seq 0 (length (rn_calls st));
  rw_reads : Forall (read_of st) (pool_pending (batch_of st));
  rw_raws : Forall (raw_call_of st) (pool_pending (raw_of st));
  rw_replies : Forall (replied_ok st) (rn_replies st);
}.

Lemma dbs_since_cons dbs since (db : rdb) :
  since ≤ length dbs → dbs_since (db :: dbs) since = db :: dbs_since dbs since.
Proof. intros Hs. unfold dbs_since. cbn [length]. by replace (S (S (length dbs)) - since) with (S (S (length dbs) - since)) by lia. Qed.

Lemma dbs_since_now (db : rdb) dbs since : since ≤ length (db :: dbs) → db ∈ dbs_since (db :: dbs) since.
Proof.
  intros Hs. unfold dbs_since. replace (S (length (db :: dbs)) - since) with (S (length (db :: dbs) - since)) by lia.
  cbn. left.
Qed.

Lemma reply_ok_mono (P Q : Prop) dbs dbs' call (r : Reply U) :
  (P → Q) → dbs ⊆ dbs' → reply_ok P dbs call r → reply_ok Q dbs' call r.
Proof. intros HPQ Hsub []; econstructor; eauto. Qed.

Lemma pool_new_pending {R} n : pool_pending (pool_new (R := R) n) = [].
Proof. unfold pool_pending, pool_new; cbn. induction n; [done|]. cbn. by rewrite IHn. Qed.

Lemma run_start_wf config reader db : reader_new config = Ok reader → run_wf (run_start reader db).
Proof.
  unfold reader_new. case_decide as Hz; [done|]. intros <-%Ok_inj.
  destruct (num_batch_threads config) as [|m] eqn:Hm; [tauto|].
  destruct (num_callback_threads config) as [|n] eqn:Hn; [tauto|].
  split; cbn [rn_reader run_start rd_batch rd_raw_cb rn_dbs rn_calls rn_replies]; rewrite ?pool_new_pending; try done.
  1-3: apply Forall_replicate; unfold worker_bounded; cbn; done || lia.
  unfold run_pending; cbn [rn_reader run_start rd_batch rd_raw_cb]. by rewrite !pool_new_pending.
Qed.

Lemma pool_pending_elem {R} (p : Pool R) i w req :
  pl_workers p !! i = Some w → req ∈ worker_pending w → req ∈ pool_pending p.
Proof. intros Hi Hreq. apply list_elem_of_bind. exists w. split; [done|]. by eapply list_elem_of_lookup_2. Qed.

(** Pending requests after one worker has changed. *)
Lemma set_worker_Forall {R} (P : R → Prop) (p : Pool R) i w w' :
  pl_workers p !! i = Some w → Forall P (pool_pending p) → Forall P (worker_pending w') →
  Forall P (pool_pending (set_worker p i w')).
Proof.
  intros Hi Hp Hw'. pose proof (set_worker_pending p i w w' Hi) as Hperm.
  assert (Forall P (pool_pending p ++ worker_pending w')) as Hall by (by apply Forall_app).
  rewrite <-Hperm in Hall. by apply Forall_app in Hall as [? _].
Qed.

Lemma set_worker_channels {R} (chan : R → nat) (p : Pool R) i w w' (replied : list nat) :
  pl_workers p !! i = Some w → chan <$> worker_pending w ≡ₚ (chan <$> worker_pending w') ++ replied →
  (chan <$> pool_pending (set_worker p i w')) ++ replied ≡ₚ chan <$> pool_pending p.
Proof.
  intros Hi Hw. pose proof (fmap_Permutation chan _ _ (set_worker_pending p i w w' Hi)) as Hperm.
  rewrite !fmap_app, Hw in Hperm. rewrite (Permutation_app_comm (_ <$> worker_pending w')), app_assoc in Hperm.
  by apply Permutation_app_inv_r in Hperm.
Qed.

Lemma worker_pending_read st i w req :
  run_wf st → pl_workers (batch_of st) !! i = Some w → req ∈ worker_pending w → read_of st req.
Proof. intros Hwf Hi Hreq. eapply Forall_forall; [apply (rw_reads _ Hwf)|]. by eapply pool_pending_elem. Qed.

Lemma worker_pending_raw st i w req :
  run_wf st → pl_workers (raw_of st) !! i = Some w → req ∈ worker_pending w → raw_call_of st req.
Proof. intros Hwf Hi Hreq. eapply Forall_forall; [apply (rw_raws _ Hwf)|]. by eapply pool_pending_elem. Qed.

Lemma set_batch_wf st i w w' replies :
  run_wf st → pl_workers (batch_of st) !! i = Some w → worker_bounded w' →
  rr_channel <$> worker_pending w ≡ₚ (rr_channel <$> worker_pending w') ++ replies.*1 →
  worker_pending w' ⊆ worker_pending w → Forall (replied_ok st) replies → run_wf (set_batch st i w' replies).
Proof.
  intros Hwf Hi Hb Hperm Hsub Hrep. pose proof Hwf as [? ? ? ? ? ? ? Honce ? ? ?].
  split; try done; cbn [rn_reader set_batch with_reader rd_batch rd_raw_cb].
  - cbn. intros Hnil. apply (f_equal length) in Hnil. rewrite length_insert in Hnil.
    apply lookup_lt_Some in Hi. cbn in Hnil. lia.
  - by apply Forall_insert.
  - cbn [rn_calls rn_replies with_reader]. rewrite <-Honce. unfold run_pending. cbn. rewrite fmap_app.
    pose proof (set_worker_channels rr_channel (batch_of st) i w w' _ Hi Hperm) as Hch.
    rewrite <-Hch. solve_Permutation.
  - eapply set_worker_Forall; [exact Hi|done|]. apply Forall_forall. intros req Hreq.
    eapply (worker_pending_read st); [done|exact Hi|by apply Hsub].
  - cbn. by apply Forall_app.
Qed.

Lemma set_raw_wf st i w w' replies :
  run_wf st → pl_workers (raw_of st) !! i = Some w → worker_bounded w' → wk_batch w' = [] →
  raw_channel <$> worker_pending w ≡ₚ (raw_channel <$> worker_pending w') ++ replies.*1 →
  worker_pending w' ⊆ worker_pending w → Forall (replied_ok st) replies → run_wf (set_raw st i w' replies).
Proof.
  intros Hwf Hi Hb Hnb Hperm Hsub Hrep. pose proof Hwf as [? ? ? ? ? ? ? Honce ? ? ?].
  split; try done; cbn [rn_reader set_raw with_reader rd_batch rd_raw_cb].
  - cbn. intros Hnil. apply (f_equal length) in Hnil. rewrite length_insert in Hnil.
    apply lookup_lt_Some in Hi. cbn in Hnil. lia.
  - by apply Forall_insert.
  - by apply Forall_insert.
  - cbn [rn_calls rn_replies with_reader]. rewrite <-Honce. unfold run_pending. cbn. rewrite fmap_app.
    pose proof (set_worker_channels raw_channel (raw_of st) i w w' _ Hi Hperm) as Hch.
    rewrite <-Hch. solve_Permutation.
  - eapply set_worker_Forall; [exact Hi|done|]. apply Forall_forall. intros req Hreq.
    eapply (worker_pending_raw st); [done|exact Hi|by apply Hsub].
  - cbn. by apply Forall_app.
Qed.

Lemma since_bound st k call since :
  run_wf st → rn_calls st !! k = Some (call, since) → 1 ≤ since ≤ length (rn_dbs st).
Proof. intros Hwf Hk. by eapply (Forall_lookup_1 _ _ _ _ (rw_since _ Hwf)) in Hk. Qed.

(** Replies from the current state of the database. *)
Lemma replied_read st db dbs req :
  run_wf st → rn_dbs st = db :: dbs → read_of st req →
  replied_ok st (rr_channel req, ReplyRead (reader_answer db (rr_cf_name req) (rr_key req))).
Proof.
  intros Hwf Hdbs [since Hc]. eexists _, since. split; [exact Hc|]. constructor. rewrite Hdbs.
  apply dbs_since_now. rewrite <-Hdbs. by apply (since_bound st _ _ _ Hwf Hc).
Qed.

Lemma replied_raw st db dbs req u :
  run_wf st → rn_dbs st = db :: dbs → raw_call_of st req → raw_callback req db = Some u →
  replied_ok st (raw_channel req, ReplyRaw (Ok u)).
Proof.
  intros Hwf Hdbs [since Hc] Hu. eexists _, since. split; [exact Hc|]. econstructor; [|exact Hu]. rewrite Hdbs.
  apply dbs_since_now. rewrite <-Hdbs. by apply (since_bound st _ _ _ Hwf Hc).
Qed.

Lemma recv_wf st i w w' :
  run_wf st → pl_workers (batch_of st) !! i = Some w → thread_recv w = Some w' → run_wf (set_batch st i w' []).
Proof.
  intros Hwf Hi Hrecv. unfold thread_recv in Hrecv.
  destruct (wk_batch w) eqn:Hb, (wk_queue w) as [|req queue] eqn:Hq; try done. injection Hrecv as <-.
  eapply set_batch_wf; [done|exact Hi|unfold worker_bounded; cbn; lia|..].
  - unfold worker_pending; cbn. by rewrite Hb, Hq, !app_nil_r.
  - unfold worker_pending; cbn. by rewrite Hb, Hq, !app_nil_r.
  - constructor.
Qed.

Lemma group_wf st i w db dbs cf w' answers :
  run_wf st → pl_workers (batch_of st) !! i = Some w → rn_dbs st = db :: dbs →
  thread_group db w cf = (w', answers) → run_wf (set_batch st i w' (prod_map id ReplyRead <$> answers)).
Proof.
  intros Hwf Hi Hdbs [= <- <-]. rewrite reader_group_answers.
  eapply set_batch_wf; [done|exact Hi| | | |].
  - by apply (Forall_lookup_1 _ _ _ _ (rw_batch_bound _ Hwf) Hi).
  - unfold worker_pending; cbn. rewrite <-!list_fmap_compose, <-(filter_app_complement (λ req, rr_cf_name req = cf) (wk_batch w)) at 1.
    rewrite !fmap_app. unfold compose; cbn. solve_Permutation.
  - unfold worker_pending; cbn. intros req. rewrite !elem_of_app, list_elem_of_filter. tauto.
  - rewrite <-list_fmap_compose. apply Forall_fmap, Forall_forall.
    intros req [Hcf Hreq]%list_elem_of_filter. cbn.
    eapply replied_read; [done|exact Hdbs|]. eapply worker_pending_read; [done|exact Hi|].
    apply elem_of_app. by right.
Qed.

Lemma raw_run_wf st i w db dbs w' answers :
  run_wf st → pl_workers (raw_of st) !! i = Some w → rn_dbs st = db :: dbs →
  raw_cb_run db w = Some (w', answers) → run_wf (set_raw st i w' (prod_map id ReplyRaw <$> answers)).
Proof.
  intros Hwf Hi Hdbs Hrun. unfold raw_cb_run in Hrun. destruct (wk_queue w) as [|req queue] eqn:Hq; [done|].
  pose proof (Forall_lookup_1 _ _ _ _ (rw_raw_batch _ Hwf) Hi) as Hb. cbn in Hb.
  pose proof (Forall_lookup_1 _ _ _ _ (rw_raw_bound _ Hwf) Hi) as Hlen. unfold worker_bounded in Hlen.
  rewrite Hq in Hlen. cbn in Hlen.
  assert (∀ req', req' ∈ req :: queue → raw_call_of st req') as Hcalls.
  { intros req' Hreq'. eapply worker_pending_raw; [done|exact Hi|]. unfold worker_pending. rewrite Hq.
    apply elem_of_app. by left. }
  assert (crashed st → Forall (replied_ok st) (prod_map id ReplyRaw <$>
    ((λ req, (raw_channel req, Err RWorkerChannelClosed)) <$> (req :: queue)))) as Hclosed.
  { intros Hcrash. rewrite <-list_fmap_compose. apply Forall_fmap, Forall_forall.
    intros req' Hreq'. destruct (Hcalls req' Hreq') as [since' Hsince']. cbn. eexists _, since'.
    split; [exact Hsince'|]. by constructor. }
  destruct (raw_callback req db) as [u|] eqn:Hu; injection Hrun as <- <-.
  - eapply set_raw_wf; [done|exact Hi|unfold worker_bounded; cbn; lia|done|..]; unfold worker_pending; cbn;
      rewrite ?Hb, ?Hq, ?app_nil_r.
    + cbn. solve_Permutation.
    + intros ? ?. by right.
    + repeat constructor. eapply replied_raw; [done|exact Hdbs| |exact Hu]. apply Hcalls. left.
  - destruct (Hcalls req ltac:(left)) as [since Hsince].
    assert (crashed st) as Hcrash.
    { exists (raw_callback req), since, db. split_and!; [by eapply list_elem_of_lookup_2|rewrite Hdbs; left|done]. }
    eapply set_raw_wf; [done|exact Hi|unfold worker_bounded; cbn; lia|done|..].
    + unfold worker_pending; cbn. by rewrite Hb, Hq, app_nil_r, <-!list_fmap_compose.
    + unfold worker_pending; cbn. rewrite Hb. by intros ? ?%not_elem_of_nil.
    + exact (Hclosed Hcrash).
Qed.

Lemma thread_step_wf st st' : run_wf st → thread_step st st' → run_wf st'.
Proof. intros Hwf Hstep; destruct Hstep; [by eapply recv_wf|by eapply group_wf|by eapply raw_run_wf]. Qed.

(** ** Calls and changes of the database *)

Definition more_calls st (call : ReaderCall U) (reader : DbReader U) (replies : list (nat * Reply U)) : ReaderRun U :=
  {| rn_reader := reader; rn_dbs := rn_dbs st; rn_calls := rn_calls st ++ [(call, length (rn_dbs st))];
     rn_replies := rn_replies st ++ replies |}.

Lemma more_calls_crashed st call reader replies : crashed st → crashed (more_calls st call reader replies).
Proof.
  intros (cb & since & db & Hin & Hdb & Hcb). exists cb, since, db. split_and!; [|done|done].
  apply elem_of_app. by left.
Qed.

Lemma more_calls_replied st call reader replies kr :
  replied_ok st kr → replied_ok (more_calls st call reader replies) kr.
Proof.
  intros (call' & since & Hc & Hok). exists call', since. split; [by apply lookup_app_l_Some|].
  eapply reply_ok_mono; [apply more_calls_crashed| |exact Hok]. done.
Qed.

Lemma more_calls_wf st call reader replies :
  run_wf st → pl_workers (rd_batch reader) ≠ [] → pl_workers (rd_raw_cb reader) ≠ [] →
  Forall worker_bounded (pl_workers (rd_batch reader)) → Forall worker_bounded (pl_workers (rd_raw_cb reader)) →
  Forall (λ w, wk_batch w = []) (pl_workers (rd_raw_cb reader)) →
  (rr_channel <$> pool_pending (rd_batch reader)) ++ (raw_channel <$> pool_pending (rd_raw_cb reader)) ++ replies.*1
    ≡ₚ length (rn_calls st) :: run_pending st →
  (∀ req, req ∈ pool_pending (rd_batch reader) → req ∈ pool_pending (batch_of st) ∨
     rr_channel req = length (rn_calls st) ∧ call = CallRead (rr_cf_name req) (rr_key req)) →
  (∀ req, req ∈ pool_pending (rd_raw_cb reader) → req ∈ pool_pending (raw_of st) ∨
     raw_channel req = length (rn_calls st) ∧ call = CallExecRaw (raw_callback req)) →
  Forall (replied_ok (more_calls st call reader replies)) replies →
  run_wf (more_calls st call reader replies).
Proof.
  intros Hwf ? ? ? ? ? Hperm Hreads Hraws Hrep. destruct Hwf as [? ? ? ? ? Hdbs Hsince Honce Hr Hw Hreplies].
  split; try done; cbn [rn_reader more_calls rn_dbs rn_calls rn_replies].
  - apply Forall_app. split; [done|]. constructor; [|done]. cbn. destruct (rn_dbs st); [done|cbn; lia].
  - rewrite length_app. cbn [length]. rewrite Nat.add_1_r, seq_S, fmap_app, <-Honce. unfold run_pending at 1. cbn.
    unfold run_pending at 1 in Hperm. rewrite (Permutation_app_comm (run_pending st ++ _)). cbn.
    rewrite app_comm_cons. unfold run_pending at 1. rewrite <-Hperm. solve_Permutation.
  - apply Forall_forall. intros req [Hreq|[Hch Hcall]]%Hreads.
    + eapply Forall_forall in Hr as [since Hc]; [|exact Hreq]. exists since. by apply lookup_app_l_Some.
    + exists (length (rn_dbs st)). cbn. rewrite Hch, Hcall. by rewrite lookup_app_r, Nat.sub_diag.
  - apply Forall_forall. intros req [Hreq|[Hch Hcall]]%Hraws.
    + eapply Forall_forall in Hw as [since Hc]; [|exact Hreq]. exists since. by apply lookup_app_l_Some.
    + exists (length (rn_dbs st)). cbn. rewrite Hch, Hcall. by rewrite lookup_app_r, Nat.sub_diag.
  - apply Forall_app. split; [|done]. eapply Forall_impl; [exact Hreplies|]. intros kr. apply more_calls_replied.
Qed.

Lemma pool_send_spec {R} (p : Pool R) req p' r :
  pl_workers p ≠ [] → Forall worker_bounded (pl_workers p) → pool_send p req = (p', r) →
  pl_workers p' ≠ [] ∧ Forall worker_bounded (pl_workers p') ∧
  (Forall (λ w, wk_batch w = []) (pl_workers p) → Forall (λ w, wk_batch w = []) (pl_workers p')) ∧
  (r = Ok () ∧ pool_pending p' ≡ₚ req :: pool_pending p ∨
   r = Err RWorkerQueueOverrun ∧ pool_pending p' = pool_pending p).
Proof.
  intros Hne Hb Hsend. destruct (pool_send_cases p req Hne) as [(i & w & Hi & Hrun & Hlen & Heq)|Heq];
    rewrite Heq in Hsend; injection Hsend as <- <-; [|by split_and!; [| | |right]].
  split_and!.
  - cbn. intros Hnil. apply (f_equal length) in Hnil. rewrite length_insert in Hnil. by destruct (pl_workers p).
  - cbn. apply Forall_insert; [done|]. unfold worker_bounded; cbn. rewrite length_app; cbn. lia.
  - intros Hnb. cbn. apply Forall_insert; [done|]. by apply (Forall_lookup_1 _ _ _ _ Hnb Hi).
  - left. split; [done|].
    match goal with |- pool_pending (set_worker ?p0 _ ?w') ≡ₚ _ =>
      pose proof (set_worker_pending p0 i w w' Hi) as Hperm end.
    unfold worker_pending at 2 in Hperm. cbn in Hperm.
    apply (Permutation_app_inv_r (worker_pending w)). rewrite Hperm. unfold worker_pending, pool_pending; cbn.
    solve_Permutation.
Qed.

Lemma run_call_wf st call :
  run_wf st → ∃ st', run_call st call = Some st' ∧ run_wf st'.
Proof.
  intros Hwf. pose proof Hwf as [? ? ? ? ? ? ? ? ? ? ?]. destruct call as [cf key|cb]; unfold run_call.
  - unfold reader_send_request. set (req := {| rr_cf_name := cf |}).
    destruct (pool_send (batch_of st) req) as [p' r] eqn:Hsend.
    destruct (pool_send_spec _ _ _ _ (rw_batch _ Hwf) (rw_batch_bound _ Hwf) Hsend) as (? & ? & _ & [[-> Hp]|[-> Hp]]).
    + eexists. split; [done|]. apply (more_calls_wf st (CallRead cf key) _ []); try done; cbn.
      * rewrite Hp. unfold run_pending. cbn. by rewrite app_nil_r.
      * intros req'. rewrite Hp, elem_of_cons. intros [->|?]; [by right|by left].
      * by left.
    + eexists. split; [done|]. apply (more_calls_wf st (CallRead cf key) _ [_]); try done; cbn.
      * rewrite Hp. unfold run_pending. solve_Permutation.
      * rewrite Hp. by left.
      * by left.
      * repeat constructor. eexists _, _. cbn. split; [by rewrite lookup_app_r, Nat.sub_diag|]. constructor.
  - unfold send_raw_callback. set (req := {| raw_callback := cb |}).
    destruct (pool_send (raw_of st) req) as [p' r] eqn:Hsend.
    destruct (pool_send_spec _ _ _ _ (rw_raw _ Hwf) (rw_raw_bound _ Hwf) Hsend) as (? & ? & Hb & [[-> Hp]|[-> Hp]]).
    + eexists. split; [done|]. apply (more_calls_wf st (CallExecRaw cb) _ []); try done; cbn; [by apply Hb| | |].
      * rewrite Hp. unfold run_pending. cbn. rewrite app_nil_r. solve_Permutation.
      * by left.
      * intros req'. rewrite Hp, elem_of_cons. intros [->|?]; [by right|by left].
    + eexists. split; [done|]. apply (more_calls_wf st (CallExecRaw cb) _ [_]); try done; cbn; [by apply Hb| | | |].
      * rewrite Hp. unfold run_pending. solve_Permutation.
      * by left.
      * rewrite Hp. by left.
      * repeat constructor. eexists _, _. cbn. split; [by rewrite lookup_app_r, Nat.sub_diag|]. constructor.
Qed.

Lemma db_change_wf st db :
  run_wf st → run_wf {| rn_reader := rn_reader st; rn_dbs := db :: rn_dbs st; rn_calls := rn_calls st;
                        rn_replies := rn_replies st |}.
Proof.
  intros Hwf. pose proof Hwf as [? ? ? ? ? ? Hsince ? ? ? Hrep]. split; try done; cbn.
  - eapply Forall_impl; [exact Hsince|]. intros [? ?] ?; cbn in *. lia.
  - eapply Forall_impl; [exact Hrep|]. intros kr (call & since & Hc & Hok). exists call, since. split; [done|].
    eapply reply_ok_mono; [| |exact Hok].
    + intros (cb & since' & db' & ? & ? & ?). exists cb, since', db'. split_and!; [done|by right|done].
    + cbn. rewrite dbs_since_cons by (by apply (since_bound st _ _ _ Hwf Hc)). intros ? ?. by right.
Qed.

Lemma run_step_wf st st' : run_wf st → run_step st st' → run_wf st'.
Proof.
  intros Hwf Hstep. destruct Hstep as [st st' Hstep|st call st' Hcall|st db].
  - by eapply thread_step_wf.
  - destruct (run_call_wf st call Hwf) as (st'' & Hcall' & Hwf'). congruence.
  - by apply db_change_wf.
Qed.

Lemma run_reachable_wf config reader db st :
  reader_new config = Ok reader → rtc run_step (run_start reader db) st → run_wf st.
Proof.
  intros Hnew%(run_start_wf _ _ db). induction 1 as [|st1 st2 st3 Hstep _ IH]; [done|].
  by eapply IH, run_step_wf.
Qed.

(** ** Progress *)

Definition batch_work (w : Worker ReadRequest) : nat := 2 * length (wk_queue w) + length (wk_batch w).
Definition raw_work (w : Worker (RawCallbackRequest U)) : nat := length (wk_queue w).

(** Steps the threads still have to make, at most. *)
Definition run_work st : nat :=
  sum_list_with batch_work (pl_workers (batch_of st)) + sum_list_with raw_work (pl_workers (raw_of st)).

Lemma sum_list_with_insert {A} (f : A → nat) l i x y :
  l !! i = Some x → sum_list_with f (<[i := y]> l) + f x = sum_list_with f l + f y.
Proof.
  intros Hi. rewrite <-(take_drop_middle l i x Hi) at 2. rewrite insert_take_drop by (by eapply lookup_lt_Some).
  rewrite !sum_list_with_app. cbn. lia.
Qed.

Lemma thread_step_work st st' : thread_step st st' → run_work st' < run_work st.
Proof.
  intros Hstep. destruct Hstep as [st i w w' Hi Hrecv|st i w db dbs cf w' answers Hi _ Hcf [= <- _]|st i w db dbs w' answers Hi _ Hrun];
    unfold run_work; cbn.
  - pose proof (sum_list_with_insert batch_work _ i w w' Hi) as Hsum. unfold thread_recv in Hrecv.
    destruct (wk_batch w) eqn:Hb, (wk_queue w) as [|req queue] eqn:Hq; try done. injection Hrecv as <-.
    unfold batch_work at 2 4 in Hsum. cbn in Hsum. rewrite Hb, Hq in Hsum. cbn in Hsum. lia.
  - match goal with |- context [<[i := ?w']> _] => pose proof (sum_list_with_insert batch_work _ i w w' Hi) as Hsum end.
    assert (length (filter (λ req, rr_cf_name req ≠ cf) (wk_batch w)) < length (wk_batch w)).
    { apply list_elem_of_fmap in Hcf as (req & -> & Hreq).
      apply length_filter_lt with req; [done|]. auto. }
    unfold batch_work at 2 4 in Hsum. cbn in Hsum. lia.
  - pose proof (sum_list_with_insert raw_work _ i w w' Hi) as Hsum. unfold raw_cb_run in Hrun.
    destruct (wk_queue w) as [|req queue] eqn:Hq; [done|]. unfold raw_work at 2 4 in Hsum. rewrite Hq in Hsum.
    destruct (raw_callback req db); injection Hrun as <- _; cbn in Hsum; lia.
Qed.

Lemma pool_pending_length {R} (p : Pool R) :
  length (pool_pending p) = sum_list_with (λ w, length (worker_pending w)) (pl_workers p).
Proof.
  unfold pool_pending. induction (pl_workers p) as [|w l IH]; [done|]. by rewrite bind_cons, length_app, IH.
Qed.

Lemma run_work_bound st : run_wf st → run_work st ≤ 2 * length (run_pending st).
Proof.
  intros Hwf. unfold run_work, run_pending. rewrite length_app, !length_fmap, !pool_pending_length.
  assert (sum_list_with batch_work (pl_workers (batch_of st)) ≤
    2 * sum_list_with (λ w, length (worker_pending w)) (pl_workers (batch_of st))).
  { induction (pl_workers (batch_of st)) as [|w l IH]; cbn; [done|]. pose proof (length_app (wk_queue w) (wk_batch w)).
    unfold worker_pending, batch_work in *. lia. }
  assert (sum_list_with raw_work (pl_workers (raw_of st)) ≤
    2 * sum_list_with (λ w, length (worker_pending w)) (pl_workers (raw_of st))).
  { induction (pl_workers (raw_of st)) as [|w l IH]; cbn; [done|]. pose proof (length_app (wk_queue w) (wk_batch w)).
    unfold worker_pending, raw_work in *. lia. }
  lia.
Qed.

Lemma thread_can_step st : run_wf st → run_pending st ≠ [] → ∃ st', thread_step st st'.
Proof.
  intros Hwf Hne. destruct (rn_dbs st) as [|db dbs] eqn:Hdbs; [by destruct (rw_dbs _ Hwf)|].
  destruct (pool_pending (batch_of st)) as [|req reqs] eqn:Hb.
  - destruct (pool_pending (raw_of st)) as [|req reqs] eqn:Hr; [by unfold run_pending in Hne; rewrite Hb, Hr in Hne|].
    assert (req ∈ pool_pending (raw_of st)) as (w & Hreq & [i Hi]%list_elem_of_lookup)%list_elem_of_bind
      by (rewrite Hr; left).
    pose proof (Forall_lookup_1 _ _ _ _ (rw_raw_batch _ Hwf) Hi) as Hwb. cbn in Hwb.
    unfold worker_pending in Hreq. rewrite Hwb, app_nil_r in Hreq.
    destruct (raw_cb_run db w) as [[w' answers]|] eqn:Hrun.
    + eexists. by eapply thread_runs_cb.
    + unfold raw_cb_run in Hrun. destruct (wk_queue w); [by apply not_elem_of_nil in Hreq|done].
  - assert (req ∈ pool_pending (batch_of st)) as (w & Hreq & [i Hi]%list_elem_of_lookup)%list_elem_of_bind
      by (rewrite Hb; left).
    destruct (wk_batch w) as [|req' batch] eqn:Hwb.
    + unfold worker_pending in Hreq. rewrite Hwb, app_nil_r in Hreq.
      destruct (thread_recv w) as [w'|] eqn:Hrecv; [eexists; by eapply thread_recvs|].
      unfold thread_recv in Hrecv. rewrite Hwb in Hrecv.
      destruct (wk_queue w); [by apply not_elem_of_nil in Hreq|done].
    + eexists. eapply (thread_groups st i w db dbs (rr_cf_name req')); [done|done| |done].
      rewrite Hwb. left.
Qed.

Lemma thread_step_same st st' :
  thread_step st st' → rn_dbs st' = rn_dbs st ∧ rn_calls st' = rn_calls st.
Proof. by destruct 1. Qed.
End run_lemmas.

(** * Theorems *)

Section reader_properties.
Context `{RocksDb} {U : Type}.
Implicit Types (st : ReaderRun U).

(** C33. However calls, worker threads and writes to the database interleave, sending
    a request never panics and no queue grows over its capacity; every call has
    exactly one reply or is still in the hands of a worker; and a reply is what
    the database held under that key (or what the callback returns) at some
    moment since the call, or that the queue was full; a closed channel is seen
    only once some callback has panicked. *)
Theorem reader_linearizable config reader db st :
  reader_new config = Ok reader → rtc run_step (run_start reader db) st →
  (∀ call, ∃ st', run_call st call = Some st') ∧
  (∀ w, w ∈ pl_workers (rd_batch (rn_reader st)) → length (wk_queue w) ≤ CHANNEL_CAPACITY) ∧
  (∀ w, w ∈ pl_workers (rd_raw_cb (rn_reader st)) → length (wk_queue w) ≤ CHANNEL_CAPACITY) ∧
  run_pending st ++ (rn_replies st).*1 ≡ₚ seq 0 (length (rn_calls st)) ∧
  (∀ k r, (k, r) ∈ rn_replies st → ∃ call since, rn_calls st !! k = Some (call, since) ∧
     reply_ok (crashed st) (dbs_since (rn_dbs st) since) call r).
Proof.
  intros Hnew Hrun. pose proof (run_reachable_wf _ _ _ _ Hnew Hrun) as Hwf. split_and!.
  - intros call. destruct (run_call_wf st call Hwf) as (st' & Hcall & _). by exists st'.
  - exact (proj1 (Forall_forall _ _) (rw_batch_bound _ Hwf)).
  - exact (proj1 (Forall_forall _ _) (rw_raw_bound _ Hwf)).
  - apply (rw_once _ Hwf).
  - intros k r Hkr. by apply (proj1 (Forall_forall _ _) (rw_replies _ Hwf) (k, r)).
Qed.

(** C36. The worker threads answer everything: while a request is pending some thread
    can make a step, and however the threads are scheduled they make at most two
    steps per pending request before nothing is pending. *)
Theorem reader_answers_all config reader db st n st' :
  reader_new config = Ok reader → rtc run_step (run_start reader db) st → nsteps thread_step n st st' →
  n ≤ 2 * length (run_pending st) ∧
  ((¬ ∃ st'', thread_step st' st'') →
    run_pending st' = [] ∧ (rn_replies st').*1 ≡ₚ seq 0 (length (rn_calls st))).
Proof.
  intros Hnew Hrun Hsteps. pose proof (run_reachable_wf _ _ _ _ Hnew Hrun) as Hwf.
  pose proof (run_work_bound st Hwf) as Hbound.
  assert (n + run_work st' ≤ run_work st ∧ run_wf st' ∧ rn_calls st' = rn_calls st) as (Hn & Hwf' & Hcalls).
  { clear Hrun Hbound. induction Hsteps as [|n st1 st2 st3 Hstep _ IH]; [done|].
    destruct IH as (? & ? & ?); [by eapply thread_step_wf|].
    pose proof (thread_step_work _ _ Hstep). destruct (thread_step_same _ _ Hstep) as [_ ?].
    split_and!; [lia|done|congruence]. }
  split; [lia|]. intros Hstuck.
  assert (run_pending st' = []) as Hnone.
  { destruct (run_pending st') eqn:Hp; [done|]. destruct Hstuck. apply thread_can_step; [done|]. by rewrite Hp. }
  split; [done|]. pose proof (rw_once _ Hwf') as Honce. by rewrite Hnone, Hcalls in Honce.
Qed.
End reader_properties.

(** The backend of [RocksDb], which reads at once from one state of the database or
    finds the queue full, is what a caller sees of the threads. *)
Lemma read_refines_backend `{RocksDb} {U T} `{Postcard T} (crash : Prop) dbs cf key r :
  dbs ≠ [] → reply_ok (U := U) crash dbs (CallRead cf key) (ReplyRead r) →
  ∃ self : RocksBackend, be_db self ∈ dbs ∧
    (be_batch_worker self = Ok () ∨ be_batch_worker self = Err RWorkerQueueOverrun) ∧
    convert_result (T := T) r = reader_read self cf key.
Proof.
  intros Hne Hok. inversion Hok as [db ? ? Hin| | | |]; subst.
  - exists {| be_db := db; be_batch_worker := Ok (); be_callback_worker := Ok () |}. auto.
  - destruct dbs as [|db dbs]; [done|].
    exists {| be_db := db; be_batch_worker := Err RWorkerQueueOverrun; be_callback_worker := Ok () |}.
    split_and!; [left|auto|done].
Qed.

(** * Witnesses *)

#[local] Existing Instance toy_rocks.

Definition toy_reader_config : ReaderConfig := {| num_batch_threads := 2; num_callback_threads := 1 |}.
Definition toy_reader : DbReader nat :=
  {| rd_batch := pool_new 2; rd_raw_cb := pool_new 1 |}.

(** The database gets a value under a key. *)
Definition toy_db (value : bytes) : rdb := λ _, {[ [1%Z] := value ]}.

(** A read that waits while the value is written. *)
Definition toy_waiting : option (ReaderRun nat) :=
  st ← run_call (run_start toy_reader (λ _, ∅)) (CallRead GenericString [1]%Z);
  Some {| rn_reader := rn_reader st; rn_dbs := toy_db [7]%Z :: rn_dbs st; rn_calls := rn_calls st;
          rn_replies := rn_replies st |}.

Lemma toy_waiting_counts :
  (λ st, (length (run_pending st), length (rn_calls st))) <$> toy_waiting = Some (1, 1).
Proof. vm_compute. reflexivity. Qed.

Lemma toy_waiting_reached : ∃ st, toy_waiting = Some st ∧
  rtc run_step (run_start toy_reader (λ _, ∅)) st ∧ length (run_pending st) = 1 ∧ length (rn_calls st) = 1.
Proof.
  pose proof toy_waiting_counts as Hcounts. unfold toy_waiting in *.
  destruct (run_call _ (CallRead GenericString [1]%Z)) as [st|] eqn:Hcall; [|discriminate Hcounts].
  eexists. split; [reflexivity|]. split.
  - eapply rtc_l; [eapply step_call; exact Hcall|]. apply rtc_once. apply step_db.
  - injection Hcounts. done.
Qed.

Lemma reader_linearizable_witness : ∃ st : ReaderRun nat, toy_waiting = Some st ∧
  run_pending st ++ (rn_replies st).*1 ≡ₚ [0].
Proof.
  destruct toy_waiting_reached as (st & Hst & Hrun & _ & Hlen). exists st. split; [exact Hst|].
  destruct (reader_linearizable toy_reader_config toy_reader (λ _, ∅) st eq_refl Hrun)
    as (_ & _ & _ & Honce & _).
  rewrite Hlen in Honce. exact Honce.
Defined.

Lemma reader_answers_all_witness : ∃ st : ReaderRun nat, toy_waiting = Some st ∧
  ∀ n st', nsteps thread_step n st st' → n ≤ 2.
Proof.
  destruct toy_waiting_reached as (st & Hst & Hrun & Hlen & _). exists st. split; [exact Hst|].
  intros n st' Hsteps.
  destruct (reader_answers_all toy_reader_config toy_reader (λ _, ∅) st n st' eq_refl Hrun Hsteps) as [Hn _].
  rewrite Hlen in Hn. exact Hn.
Defined.
