(* ===== verification/DbConfig.v ===== *)
(** DbConfig: the configuration of the database server and what becomes of it
    (src/crates/db/src/config.rs, src/crates/rocks/src/db.rs).

    Environment variables are given as the record they deserialize to; binding a
    socket, the keypair and opening RocksDB are arguments. *)
From S2P Require Import Prelude External RocksContext RocksKeys RocksDb RocksProofs RocksToy RocksReader.
From stdpp Require Import prelude list strings.
#[local] Open Scope Z_scope.

(** [as] to a signed integer of [w] bits. *)
Definition wrap_signed (w z : Z) : Z := (z + 2 ^ (w - 1)) mod 2 ^ w - 2 ^ (w - 1).

Lemma wrap_signed_small w z : 0 < w → 0 ≤ z < 2 ^ (w - 1) → wrap_signed w z = z.
Proof.
  intros Hw Hz. unfold wrap_signed. assert (2 ^ w = 2 * 2 ^ (w - 1)) as Heq.
  { rewrite <-Z.pow_succ_r by lia. f_equal. lia. }
  rewrite Z.mod_small; lia.
Qed.

(** * Parameters of RocksDB *)

Record RocksdbDatabaseConfig := {
  rc_num_batch_threads : Z;
  rc_num_callback_threads : Z;
  rc_max_subcompactions : Z;
  rc_max_background_jobs : Z;
  rc_ratelimiter : Z;
  rc_increase_parallelism : Z;
  rc_write_buffer_size : Z;
  rc_max_write_buffer_number : Z;
  rc_min_write_buffer_number_to_merge : Z;
  rc_block_cache_size : Z;
  rc_block_size : Z;
  rc_row_cache_size : Z;
  rc_enable_metrics : bool;
}.

(** [Default]; [None] if the number of cores is not known.  The products are of
    [usize]. *)
Definition rocksdb_config_default (available_parallelism : option Z) : RocksdbDatabaseConfig :=
  let num_cores := default 1 available_parallelism in
  {| rc_num_batch_threads := num_cores;
     rc_num_callback_threads := wrap 64 (num_cores * 4);
     rc_max_subcompactions := num_cores;
     rc_max_background_jobs := wrap 64 (num_cores * 4);
     rc_ratelimiter := 64 * 1024 * 1024;
     rc_increase_parallelism := wrap 64 (num_cores * 2);
     rc_write_buffer_size := 128 * 1024 * 1024;
     rc_max_write_buffer_number := 8;
     rc_min_write_buffer_number_to_merge := 2;
     rc_block_cache_size := 4 * 1024 * 1024 * 1024;
     rc_block_size := 4 * 1024;
     rc_row_cache_size := 1024 * 1024 * 1024;
     rc_enable_metrics := false |}.

(** [RawConfig]: what the environment gives. *)
Record RawConfig {Keypair : Type} := {
  raw_keypair : Keypair;
  raw_primary_rpc_server_port : Z;
  raw_secondary_rpc_server_port : Z;
  raw_metrics_server_port : Z;
  raw_db_connection_timeout_ms : option Z;
  raw_db_max_connections : option Z;
  raw_db_max_connections_per_ip : option Z;
  raw_db_max_connection_rate_per_ip : option Z;
  raw_db_max_concurrent_rpcs : option Z;
  raw_db_max_idle_connection_timeout_ms : option Z;
  raw_rocksdb_dir : string;
  raw_num_batch_threads : option Z;
  raw_num_callback_threads : option Z;
  raw_max_subcompactions : option Z;
  raw_max_background_jobs : option Z;
  raw_ratelimiter : option Z;
  raw_increase_parallelism : option Z;
  raw_write_buffer_size : option Z;
  raw_max_write_buffer_number : option Z;
  raw_min_write_buffer_number_to_merge : option Z;
  raw_block_cache_size : option Z;
  raw_block_size : option Z;
  raw_row_cache_size : option Z;
  raw_enable_metrics : option bool;
}.
Arguments RawConfig : clear implicits.

Definition create_rocksdb_config {Keypair} (cores : option Z) (raw : RawConfig Keypair)
    : RocksdbDatabaseConfig :=
  let defaults := rocksdb_config_default cores in
  {| rc_num_batch_threads := default (rc_num_batch_threads defaults) (raw_num_batch_threads raw);
     rc_num_callback_threads := default (rc_num_callback_threads defaults) (raw_num_callback_threads raw);
     rc_max_subcompactions := default (rc_max_subcompactions defaults) (raw_max_subcompactions raw);
     rc_max_background_jobs := default (rc_max_background_jobs defaults) (raw_max_background_jobs raw);
     rc_ratelimiter := default (rc_ratelimiter defaults) (raw_ratelimiter raw);
     rc_increase_parallelism := default (rc_increase_parallelism defaults) (raw_increase_parallelism raw);
     rc_write_buffer_size := default (rc_write_buffer_size defaults) (raw_write_buffer_size raw);
     rc_max_write_buffer_number :=
       default (rc_max_write_buffer_number defaults) (raw_max_write_buffer_number raw);
     rc_min_write_buffer_number_to_merge :=
       default (rc_min_write_buffer_number_to_merge defaults) (raw_min_write_buffer_number_to_merge raw);
     rc_block_cache_size := default (rc_block_cache_size defaults) (raw_block_cache_size raw);
     rc_block_size := default (rc_block_size defaults) (raw_block_size raw);
     rc_row_cache_size := default (rc_row_cache_size defaults) (raw_row_cache_size raw);
     rc_enable_metrics := default (rc_enable_metrics defaults) (raw_enable_metrics raw) |}.

(** * The configuration of the server *)

Record DbConfig {Keypair Socket Listener : Type} := {
  db_keypair : Keypair;
  db_primary_rpc_server_socket : Socket;
  db_secondary_rpc_server_socket : Socket;
  db_metrics_server_socket : Listener;
  db_connection_timeout : Z;
  db_max_connections : Z;
  db_max_connections_per_ip : Z;
  db_max_connection_rate_per_ip : Z;
  db_max_concurrent_rpcs : Z;
  db_max_idle_connection_timeout : Z;
  db_rocksdb_dir : string;
  db_rocksdb : RocksdbDatabaseConfig;
}.
Arguments DbConfig : clear implicits.

Inductive ConfigError := EnvInvalid | BindPrimary | BindSecondary | BindMetrics.

(** [Config::from_env], given what the environment deserializes to and the sockets
    that can be bound; durations are in milliseconds. *)
Definition from_env {Keypair Socket Listener} (cores : option Z) (raw : option (RawConfig Keypair))
    (new_high_priority new_low_priority : Z → option Socket) (bind : Z → option Listener)
    : res ConfigError (DbConfig Keypair Socket Listener) :=
  raw ← ok_or raw EnvInvalid;
  let rocksdb := create_rocksdb_config cores raw in
  primary ← ok_or (new_high_priority (raw_primary_rpc_server_port raw)) BindPrimary;
  secondary ← ok_or (new_low_priority (raw_secondary_rpc_server_port raw)) BindSecondary;
  metrics ← ok_or (bind (raw_metrics_server_port raw)) BindMetrics;
  Ok {| db_keypair := raw_keypair raw;
        db_primary_rpc_server_socket := primary;
        db_secondary_rpc_server_socket := secondary;
        db_metrics_server_socket := metrics;
        db_connection_timeout := default 10000 (raw_db_connection_timeout_ms raw);
        db_max_connections := default 500 (raw_db_max_connections raw);
        db_max_connections_per_ip := default 50 (raw_db_max_connections_per_ip raw);
        db_max_connection_rate_per_ip := default 50 (raw_db_max_connection_rate_per_ip raw);
        db_max_concurrent_rpcs := default 4000 (raw_db_max_concurrent_rpcs raw);
        db_max_idle_connection_timeout := default 200 (raw_db_max_idle_connection_timeout_ms raw);
        db_rocksdb_dir := raw_rocksdb_dir raw;
        db_rocksdb := rocksdb |}.

(** * Opening the database *)

(** The options given to RocksDB, at the widths its interface has. *)
Record DbOptions := {
  do_create_if_missing : bool;
  do_create_missing_column_families : bool;
  do_statistics : bool;
  do_level_compaction_dynamic_level_bytes : bool;
  do_max_subcompactions : Z;
  do_max_background_jobs : Z;
  do_ratelimiter : Z * Z * Z;
  do_increase_parallelism : Z;
  do_write_buffer_size : Z;
  do_max_write_buffer_number : Z;
  do_min_write_buffer_number_to_merge : Z;
  do_block_cache : Z;
  do_block_size : Z;
  do_cache_index_and_filter_blocks : bool;
  do_pin_l0_filter_and_index_blocks_in_cache : bool;
  do_format_version : Z;
  do_index_block_restart_interval : Z;
  do_bloom_filter_bits : Z;
  do_row_cache : Z;
}.

Definition create_db_opts (cfg : RocksdbDatabaseConfig) : DbOptions := {|
  do_create_if_missing := true;
  do_create_missing_column_families := true;
  do_statistics := rc_enable_metrics cfg;
  do_level_compaction_dynamic_level_bytes := true;
  do_max_subcompactions := wrap 32 (rc_max_subcompactions cfg);
  do_max_background_jobs := wrap_signed 32 (rc_max_background_jobs cfg);
  do_ratelimiter := (wrap_signed 64 (rc_ratelimiter cfg), 100 * 1000, 10);
  do_increase_parallelism := wrap_signed 32 (rc_increase_parallelism cfg);
  do_write_buffer_size := rc_write_buffer_size cfg;
  do_max_write_buffer_number := wrap_signed 32 (rc_max_write_buffer_number cfg);
  do_min_write_buffer_number_to_merge := wrap_signed 32 (rc_min_write_buffer_number_to_merge cfg);
  do_block_cache := rc_block_cache_size cfg;
  do_block_size := rc_block_size cfg;
  do_cache_index_and_filter_blocks := true;
  do_pin_l0_filter_and_index_blocks_in_cache := true;
  do_format_version := 5;
  do_index_block_restart_interval := 16;
  do_bloom_filter_bits := 15;
  do_row_cache := rc_row_cache_size cfg;
|}.

Section builder.
Context `{RocksDb} {U : Type}.

(** [RocksDatabaseBuilder]. *)
Record DatabaseBuilder := {
  bd_path : string;
  bd_cfs : list ColumnFamilyName;
  bd_cfg : RocksdbDatabaseConfig;
}.

Definition builder_new (cores : option Z) (path : string) : DatabaseBuilder :=
  {| bd_path := path; bd_cfs := []; bd_cfg := rocksdb_config_default cores |}.

Definition with_config (self : DatabaseBuilder) (cfg : RocksdbDatabaseConfig) : DatabaseBuilder :=
  {| bd_path := bd_path self; bd_cfs := bd_cfs self; bd_cfg := cfg |}.

Definition with_column_family (self : DatabaseBuilder) (C : Column) : DatabaseBuilder :=
  {| bd_path := bd_path self; bd_cfs := bd_cfs self ++ [NAME C]; bd_cfg := bd_cfg self |}.

(** [build]: the database is opened before the number of threads is looked at. *)
Definition build (open : DbOptions → string → list ColumnFamilyName → rdb + NativeError)
    (self : DatabaseBuilder) : res RocksError (rdb * DbReader U) :=
  db ← native_res (open (create_db_opts (bd_cfg self)) (bd_path self) (bd_cfs self));
  reader ← reader_new {| num_batch_threads := Z.to_nat (rc_num_batch_threads (bd_cfg self));
                         num_callback_threads := Z.to_nat (rc_num_callback_threads (bd_cfg self)) |};
  Ok (db, reader).

(** [Storage::new]. *)
Definition storage_new (show : RocksError → string) (cores : option Z)
    (open : DbOptions → string → list ColumnFamilyName → rdb + NativeError) (dir : string)
    (rocksdb : RocksdbDatabaseConfig) : res StorageError (rdb * DbReader U) :=
  let builder := with_config (builder_new cores dir) rocksdb in
  let builder := with_column_family builder StringColumn in
  let builder := with_column_family builder InternalStringColumn in
  let builder := with_column_family builder MapColumn in
  let builder := with_column_family builder InternalMapColumn in
  map_err (storage_map_err show) (build open builder).
End builder.

(** * Theorems *)

(** The numbers of a configuration that its options can hold. *)
Record config_in_range (cfg : RocksdbDatabaseConfig) : Prop := {
  cr_subcompactions : 0 ≤ rc_max_subcompactions cfg < 2 ^ 32;
  cr_background_jobs : 0 ≤ rc_max_background_jobs cfg < 2 ^ 31;
  cr_ratelimiter : 0 ≤ rc_ratelimiter cfg < 2 ^ 63;
  cr_parallelism : 0 ≤ rc_increase_parallelism cfg < 2 ^ 31;
  cr_buffers : 0 ≤ rc_max_write_buffer_number cfg < 2 ^ 31;
  cr_buffers_merge : 0 ≤ rc_min_write_buffer_number_to_merge cfg < 2 ^ 31;
}.

Lemma default_in_range cores :
  0 < default 1 cores < 2 ^ 29 → config_in_range (rocksdb_config_default cores).
Proof.
  intros Hc. split; cbn -[Z.pow]; try lia; rewrite wrap_small; unfold fits; lia.
Qed.

Lemma threads_zero d o : 0 < d → (∀ n, o = Some n → 0 ≤ n) → Z.to_nat (default d o) = 0%nat ↔ o = Some 0.
Proof. intros Hd Ho. destruct o as [n|]; cbn; [specialize (Ho n eq_refl)|]; split; intros ?; simplify_eq; f_equal; lia. Qed.

Section storage.
Context `{RocksDb} {U : Type}.

(** The database server starts exactly as its environment says: RocksDB is opened
    with the four column families of the program and with the configured numbers,
    unchanged if they fit the types of RocksDB's interface; the storage has the
    configured numbers of reader threads, by default as many as there are cores
    and four times as many; a failure to open and a thread number of zero are the
    errors, the latter only after the database was opened. *)
Theorem storage_starts_as_configured {Keypair} show cores (raw : RawConfig Keypair) open dir :
  let cfg := create_rocksdb_config cores raw in
  0 < default 1 cores < 2 ^ 62 →
  (∀ n, raw_num_batch_threads raw = Some n → 0 ≤ n) → (∀ n, raw_num_callback_threads raw = Some n → 0 ≤ n) →
  storage_new (U := U) show cores open dir cfg =
    match open (create_db_opts cfg) dir (NAME <$> registered_columns) with
    | inr err => Err (SWcnBackend (ne_kind err) (ne_message err))
    | inl db =>
        if decide (raw_num_batch_threads raw = Some 0 ∨ raw_num_callback_threads raw = Some 0)
        then Err (SDbEngine "Invalid number of reader threads")
        else Ok (db, {| rd_batch := pool_new (Z.to_nat (default (default 1 cores) (raw_num_batch_threads raw)));
                        rd_raw_cb := pool_new (Z.to_nat (default (4 * default 1 cores) (raw_num_callback_threads raw))) |})
    end ∧
  (config_in_range cfg →
    let opts := create_db_opts cfg in
    do_max_subcompactions opts = rc_max_subcompactions cfg ∧
    do_max_background_jobs opts = rc_max_background_jobs cfg ∧
    do_ratelimiter opts = (rc_ratelimiter cfg, 100000, 10) ∧
    do_increase_parallelism opts = rc_increase_parallelism cfg ∧
    do_max_write_buffer_number opts = rc_max_write_buffer_number cfg ∧
    do_min_write_buffer_number_to_merge opts = rc_min_write_buffer_number_to_merge cfg).
Proof.
  intros cfg Hcores Hb Hc. split.
  - unfold storage_new, build. cbn -[create_db_opts cfg].
    destruct (open (create_db_opts cfg) dir _) as [db|err]; cbn -[cfg]; [|done].
    assert (rc_num_callback_threads cfg = default (4 * default 1 cores) (raw_num_callback_threads raw)) as Hcb.
    { unfold cfg; cbn -[Z.mul]. rewrite wrap_small by (unfold fits; lia). by rewrite Z.mul_comm. }
    unfold reader_new. cbn -[cfg]. rewrite Hcb. change (rc_num_batch_threads cfg) with
      (default (default 1 cores) (raw_num_batch_threads raw)).
    pose proof (threads_zero (default 1 cores) (raw_num_batch_threads raw) ltac:(lia) Hb).
    pose proof (threads_zero (4 * default 1 cores) (raw_num_callback_threads raw) ltac:(lia) Hc).
    cbn -[Z.mul]. repeat case_decide; try done; tauto.
  - intros []. cbn -[Z.pow cfg]. split_and!; try (apply wrap_small; unfold fits; lia);
      try f_equal; try (apply wrap_signed_small; lia). f_equal. apply wrap_signed_small; lia.
Qed.
End storage.

(** * Witnesses *)

Definition toy_raw : RawConfig () := {|
  raw_keypair := (); raw_primary_rpc_server_port := 3000; raw_secondary_rpc_server_port := 3001;
  raw_metrics_server_port := 3002; raw_db_connection_timeout_ms := None; raw_db_max_connections := None;
  raw_db_max_connections_per_ip := None; raw_db_max_connection_rate_per_ip := None;
  raw_db_max_concurrent_rpcs := None; raw_db_max_idle_connection_timeout_ms := None;
  raw_rocksdb_dir := "/data"; raw_num_batch_threads := None; raw_num_callback_threads := Some 2;
  raw_max_subcompactions := None; raw_max_background_jobs := None; raw_ratelimiter := None;
  raw_increase_parallelism := None; raw_write_buffer_size := None; raw_max_write_buffer_number := None;
  raw_min_write_buffer_number_to_merge := None; raw_block_cache_size := None; raw_block_size := None;
  raw_row_cache_size := None; raw_enable_metrics := Some true |}.

Lemma storage_starts_as_configured_witness :
  ∃ reader, @storage_new toy_rocks nat (λ _, EmptyString) (Some 8) (λ _ _ _, inl (λ _, ∅)) "/data"
    (create_rocksdb_config (Some 8) toy_raw) = Ok (λ _, ∅, reader) ∧
  do_max_background_jobs (create_db_opts (create_rocksdb_config (Some 8) toy_raw)) = 32.
Proof.
  destruct (@storage_starts_as_configured toy_rocks nat () (λ _, EmptyString) (Some 8) toy_raw
    (λ _ _ _, inl (λ _, ∅)) "/data") as [Hnew Hopts]; [by split|done|by intros n [= <-]|].
  eexists. split; [exact Hnew|]. apply Hopts. by repeat split.
Defined.
