(* ===== verification/Database.v ===== *)
(** Database: the database server of a node (src/crates/db/src/server.rs).

    The server runs storage operations on the string and map columns and streams
    key ranges between databases.  On a working RocksDB it refines an abstract
    store keyed by namespace and key; its outputs have the type the RPC layer
    expects, whatever RocksDB does. *)
From S2P Require Import Prelude External StorageApi RocksContext RocksKeys RocksDb RocksStorage.
From S2P Require Import RocksProofs RocksScan Replica.
From stdpp Require Import prelude gmap sets list strings sorting.

(** * Data streams *)

Inductive DataType := DataKv | DataMap.

Record DataFrame := { df_data_type : DataType; df_key : bytes; df_value : bytes }.

Inductive DataItem :=
| DataFrameItem (frame : DataFrame)
| DataDone (count : Z).

(** * The server *)

Definition MAX_HSCAN_COUNT : Z := 5000.

Section server.
Context `{Codecs, RocksDb}.
(** xxh3 of the key, and the rendering of errors in messages. *)
Context (hash_key : list Z → Z) (show_rocks : RocksError → string)
  (show_error : Error → string) (show_count : Z → string).
Implicit Types self : RocksBackend.

Definition map_record (rec : RocksRecord) : Record := {|
  rec_value := rrec_value rec; rec_expiration := rrec_expiration rec;
  rec_version := rrec_version rec |}.

Definition map_entry (rec : MapRecord) : MapEntry := {|
  entry_field := mrec_field rec;
  entry_record := {| rec_value := mrec_value rec; rec_expiration := mrec_expiration rec;
                     rec_version := mrec_version rec |} |}.

Definition map_expiration (r : res RocksError Z) : res RocksError (option Z) :=
  match r with
  | Ok timestamp => Ok (Some timestamp)
  | Err REntryNotFound => Ok None
  | Err err => Err err
  | Panic => Panic
  end.

(** The [map_err] at the end of [execute]; a panic unwinds the task of the
    request, which [None] stands for. *)
Definition respond (r : res RocksError Output) : option Response :=
  match r with
  | Ok out => Some (ROk out)
  | Err err => Some (RErr (error_with_message (error_new Internal) (show_rocks err)))
  | Panic => None
  end.

(** Reads keep the backend. *)
Definition reading self (r : res RocksError Output) : RocksBackend * option Response :=
  (self, respond r).

(** Writes answer [Output::None]. *)
Definition writing (w : RocksBackend * res RocksError ()) : RocksBackend * option Response :=
  (w.1, respond ((λ _, OutNone) <$> w.2)).

Definition db_execute (now : Z) self (op : Operation) : RocksBackend * option Response :=
  match op with
  | Get ns key _ =>
      reading self ((λ r, OutRecord (map_record <$> r)) <$>
        string_get now self StringColumn (db_key hash_key ns key))
  | SetOp ns key record _ =>
      writing (string_set self StringColumn (db_key hash_key ns key)
        (rec_value record) (rec_expiration record) (rec_version record))
  | Del ns key version _ =>
      writing (string_del now self StringColumn (db_key hash_key ns key) version)
  | GetExp ns key _ =>
      reading self (OutExpiration <$>
        map_expiration (string_get_exp now self StringColumn (db_key hash_key ns key)))
  | SetExp ns key expiration version _ =>
      writing (string_set_exp self StringColumn (db_key hash_key ns key) expiration version)
  | HGet ns key field _ =>
      reading self ((λ r, OutRecord (map_record <$> r)) <$>
        hget now self MapColumn (db_key hash_key ns key) field)
  | HSet ns key entry _ =>
      let record := entry_record entry in
      let pair := {| pair_field := entry_field entry; pair_value := rec_value record |} in
      writing (hset self MapColumn (db_key hash_key ns key) pair
        (rec_expiration record) (rec_version record))
  | HDel ns key field version _ =>
      writing (hdel now self MapColumn (db_key hash_key ns key) field version)
  | HGetExp ns key field _ =>
      reading self (OutExpiration <$>
        map_expiration (hget_exp now self MapColumn (db_key hash_key ns key) field))
  | HSetExp ns key field expiration version _ =>
      writing (hset_exp self MapColumn (db_key hash_key ns key) field expiration version)
  | HCard ns key _ =>
      reading self ((λ card, OutCardinality (wrap 64 (Z.of_nat card))) <$>
        hcard now self MapColumn (db_key hash_key ns key))
  | HScan ns key count cursor _ =>
      if decide (MAX_HSCAN_COUNT < count)%Z then (self, Some (RErr (error_new InvalidArgument)))
      else
        let opts := {| so_count := Z.to_nat count; so_cursor := cursor |} in
        reading self ((λ r, OutMapPage {| page_entries := map_entry <$> sr_items r;
                                          page_has_next := sr_has_next r |}) <$>
          hscan now self MapColumn (db_key hash_key ns key) opts)
  end.

(** * Streams *)

Definition data_frame (r : ExportFrame + RocksError) : DataFrame + Error :=
  match r with
  | inr err => inr (error_with_message (error_new Internal) (show_rocks err))
  | inl frame =>
      match ef_cf frame with
      | GenericString =>
          inl {| df_data_type := DataKv; df_key := ef_key frame; df_value := ef_value frame |}
      | GenericMap =>
          inl {| df_data_type := DataMap; df_key := ef_key frame; df_value := ef_value frame |}
      | _ => inr (error_new Internal)
      end
  end.

Definition export_item (item : DataItem) : ExportItem :=
  match item with
  | DataFrameItem frame =>
      FrameItem (inl {| ef_cf := match df_data_type frame with
                                 | DataKv => GenericString
                                 | DataMap => GenericMap
                                 end;
                        ef_key := df_key frame; ef_value := df_value frame |})
  | DataDone count => DoneItem count
  end.

(** The [map] of [read_data]. *)
Definition data_item (item : ExportItem) : DataItem + Error :=
  match item with
  | FrameItem r =>
      match data_frame r with
      | inl frame => inl (DataFrameItem frame)
      | inr err => inr err
      end
  | DoneItem count => inl (DataDone count)
  end.

Definition db_read_data self (keyrange : Z * Z) : res RocksError (list (DataItem + Error)) :=
  (λ items : list ExportItem, data_item <$> items) <$> export self keyrange.

Definition db_write_data (now : Z) self (stream : list (DataItem + Error))
    : RocksBackend * res Error () :=
  let '(self, r) := import_all show_error show_rocks show_count now self
    ((λ r, match r with inl item => inl (export_item item) | inr err => inr err end) <$> stream) in
  (self, map_err (λ err, error_with_message (error_new Internal) (show_rocks err)) r).
End server.
