(* ===== verification/DatabaseProofs.v ===== *)
(** DatabaseProofs: the database server refines an abstract store, pages cover a
    map, outputs are typed. *)
From S2P Require Import Prelude External StorageApi RocksContext RocksKeys RocksDb RocksStorage.
From S2P Require Import RocksProofs RocksToy RocksScan Replica Database.
From stdpp Require Import prelude gmap sets list strings sorting.

(** * The abstract store *)
Section store_execute.
Context `{Codecs} (hash_key : list Z → Z).
Implicit Types s : Store.

(** What the server promises: finite maps from keys, and from maps' fields, to
    records, updated last-writer-wins; no bytes, tables or iterators. *)
Definition store_execute (now : Z) s (op : Operation) : Store * Response :=
  let k ns key := db_key hash_key ns key in
  match op with
  | Get ns key _ =>
      (s, ROk (OutRecord (map_record <$> (st_strings s !! k ns key ≫= record_of now))))
  | SetOp ns key r _ =>
      (merge_string s (k ns key) (mo_set (rec_value r) (rec_expiration r) (rec_version r)), ROk OutNone)
  | Del ns key version _ => (merge_string s (k ns key) (mo_del now version), ROk OutNone)
  | GetExp ns key _ => (s, ROk (OutExpiration (expiration_of now (st_strings s !! k ns key))))
  | SetExp ns key expiration version _ =>
      (merge_string s (k ns key) (mo_set_exp expiration version), ROk OutNone)
  | HGet ns key field _ =>
      (s, ROk (OutRecord (map_record <$> (st_maps s !! (k ns key, field) ≫= record_of now))))
  | HSet ns key e _ =>
      let r := entry_record e in
      (merge_map s (k ns key) (entry_field e)
         (mo_set (rec_value r) (rec_expiration r) (rec_version r)), ROk OutNone)
  | HDel ns key field version _ => (merge_map s (k ns key) field (mo_del now version), ROk OutNone)
  | HGetExp ns key field _ =>
      (s, ROk (OutExpiration (expiration_of now (st_maps s !! (k ns key, field)))))
  | HSetExp ns key field expiration version _ =>
      (merge_map s (k ns key) field (mo_set_exp expiration version), ROk OutNone)
  | HCard ns key _ =>
      (s, ROk (OutCardinality (wrap 64 (Z.of_nat (length (live_after now s (k ns key) None))))))
  | HScan ns key count cursor _ =>
      if decide (MAX_HSCAN_COUNT < count)%Z then (s, RErr (error_new InvalidArgument))
      else
        let l := live_after now s (k ns key) cursor in
        let n := Nat.max 1 (Z.to_nat count) in
        (s, ROk (OutMapPage {| page_entries := map_entry <$> take n l;
                               page_has_next := bool_decide (n < length l) |}))
  end.

(** Operations that arrive over the API: a namespace has 21 bytes, and the key
    fits the length field of the storage key. *)
Definition op_wf (op : Operation) : Prop :=
  length (op_namespace op) = 21 ∧ (Z.of_nat (length (op_key op)) < 2 ^ 32 - 22)%Z.
End store_execute.

(** A history of operations, each with its time. *)
Fixpoint db_run `{Codecs, RocksDb} hash_key show_rocks (self : RocksBackend)
    (history : list (Z * Operation)) : RocksBackend * list (option Response) :=
  match history with
  | [] => (self, [])
  | (now, op) :: history =>
      let '(self, r) := db_execute hash_key show_rocks now self op in
      let '(self, rs) := db_run hash_key show_rocks self history in
      (self, r :: rs)
  end.

Fixpoint store_run `{Codecs} hash_key (s : Store) (history : list (Z * Operation))
    : Store * list Response :=
  match history with
  | [] => (s, [])
  | (now, op) :: history =>
      let '(s, r) := store_execute hash_key now s op in
      let '(s, rs) := store_run hash_key s history in
      (s, r :: rs)
  end.

Section refinement.
Context `{Codecs, !CodecLaws, RocksDb, !RocksLaws cf_options}.
Context (hash_key : list Z → Z) (hash_key_u64 : ∀ key, fits 64 (hash_key key)).
Context (show_rocks : RocksError → string).
Implicit Types s : Store.
Implicit Types self : RocksBackend.

Lemma write_string self s k op :
  backend_holds self s → gk_wf k →
  ∃ self', write_with self (storage_key k) (λ key, write_with self (serialize op) (λ value,
             backend_merge self GenericString key value)) = (self', Ok ()) ∧
    backend_holds self' (merge_string s k op).
Proof. intros Hh Hk. cbn. rewrite serialize_enc. cbn. by apply backend_merge_string. Qed.

Lemma write_map self s k f op :
  backend_holds self s → gk_wf k →
  ∃ self', write_with self (ext_key k f) (λ key, write_with self (serialize op) (λ value,
             backend_merge self GenericMap key value)) = (self', Ok ()) ∧
    backend_holds self' (merge_map s k f op).
Proof. intros Hh Hk. rewrite ext_key_enc. cbn. rewrite serialize_enc. cbn. by apply backend_merge_map. Qed.

Lemma map_expiration_ok_or o :
  map_expiration (ok_or o REntryNotFound) = Ok o.
Proof. by destruct o. Qed.

Lemma db_execute_step now self s op :
  backend_holds self s → op_wf op →
  ∃ self', db_execute hash_key show_rocks now self op =
      (self', Some (store_execute hash_key now s op).2) ∧
    backend_holds self' (store_execute hash_key now s op).1.
Proof.
  intros Hh [Hns Hlen].
  assert (gk_wf (db_key hash_key (op_namespace op) (op_key op))) as Hk by by apply db_key_wf.
  destruct op; cbn [op_namespace op_key] in Hk; cbn [db_execute store_execute fst snd].
  - erewrite string_get_spec by done. by exists self.
  - edestruct (write_string self s) as (self' & Hw & Hh'); [done..|].
    exists self'. unfold string_set. cbn [NAME StringColumn]. by rewrite Hw.
  - edestruct (write_string self s) as (self' & Hw & Hh'); [done..|].
    exists self'. unfold string_del. cbn [NAME StringColumn]. by rewrite Hw.
  - unfold string_get_exp. erewrite expiration_string_spec by done.
    rewrite map_expiration_ok_or. by exists self.
  - edestruct (write_string self s) as (self' & Hw & Hh'); [done..|].
    exists self'. unfold string_set_exp. cbn [NAME StringColumn]. by rewrite Hw.
  - erewrite hget_spec by done. by exists self.
  - edestruct (write_map self s) as (self' & Hw & Hh'); [done..|].
    exists self'. unfold hset. cbn [NAME MapColumn pair_field pair_value]. by rewrite Hw.
  - edestruct (write_map self s) as (self' & Hw & Hh'); [done..|].
    exists self'. unfold hdel. cbn [NAME MapColumn]. by rewrite Hw.
  - unfold hget_exp. erewrite expiration_map_spec by done.
    rewrite map_expiration_ok_or. by exists self.
  - edestruct (write_map self s) as (self' & Hw & Hh'); [done..|].
    exists self'. unfold hset_exp. cbn [NAME MapColumn]. by rewrite Hw.
  - erewrite hcard_spec by done. by exists self.
  - case_decide; [by exists self|]. erewrite hscan_spec by done. by exists self.
Qed.

End refinement.

(** * Paging *)
Section paging.
Context `{Codecs, !CodecLaws}.
Implicit Types s : Store.
Implicit Types l : list MapRecord.

Definition rec_lt (a b : MapRecord) : Prop := bytes_lt (enc (mrec_field a)) (enc (mrec_field b)).

Lemma bytes_lt_trans a b c : bytes_lt a b → bytes_lt b c → bytes_lt a c.
Proof.
  rewrite !bytes_lt_alt. intros [Hab Hne] [Hbc Hne']. split; [by etrans|].
  intros <-. by apply Hne, (anti_symm bytes_le).
Qed.

Lemma live_sorted now s k : StronglySorted rec_lt (live_after now s k None).
Proof.
  unfold live_after. pose proof (map_entries_sorted s k) as Hs.
  pose proof (map_entries_NoDup s k) as Hnd.
  induction Hs as [|e E Hs IH Hall]; cbn; [constructor|].
  apply NoDup_cons in Hnd as [Hnin Hnd]. specialize (IH Hnd).
  destruct (live_record now e) as [r|] eqn:Hr; [|done]. constructor; [done|].
  apply Forall_forall. intros r' (e' & Hin & Hr')%list_elem_of_omap.
  apply live_record_field in Hr, Hr'. unfold rec_lt. rewrite Hr, Hr'. apply bytes_lt_alt. split.
  - by eapply Forall_forall in Hall.
  - intros Heq%enc_inj. apply Hnin, list_elem_of_fmap. by exists e'.
Qed.

Lemma live_after_filter now s k cur :
  live_after now s k (Some cur) =
    filter (λ r, bytes_lt (enc cur) (enc (mrec_field r))) (live_after now s k None).
Proof.
  unfold live_after. induction (map_entries s k) as [|e E IH]; [done|].
  rewrite filter_cons. cbn. destruct (live_record now e) as [r|] eqn:Hr.
  - rewrite filter_cons. apply live_record_field in Hr as Hf. rewrite Hf.
    case_decide; cbn; [rewrite Hr|]; by rewrite IH.
  - case_decide; cbn; [rewrite Hr|]; by rewrite IH.
Qed.

Lemma rec_lt_irrefl r : ¬ rec_lt r r.
Proof. unfold rec_lt. rewrite bytes_lt_alt. naive_solver. Qed.

Lemma filter_sorted_after l1 r l2 :
  StronglySorted rec_lt (l1 ++ r :: l2) → filter (λ r', rec_lt r r') (l1 ++ r :: l2) = l2.
Proof.
  intros Hs. rewrite filter_app, (filter_none _ l1).
  - rewrite filter_cons_False by apply rec_lt_irrefl. cbn.
    apply StronglySorted_app_1_r, StronglySorted_inv in Hs as [_ Hall].
    induction Hall as [|x l2 Hx _ IH]; [done|]. rewrite filter_cons_True by done. by rewrite IH.
  - intros x Hx Hlt. apply (rec_lt_irrefl r).
    assert (rec_lt x r) by (eapply (StronglySorted_app_1_elem_of rec_lt); [done..|left]).
    by eapply bytes_lt_trans.
Qed.

(** The entries after the last one of a page are those that the page left. *)
Lemma live_after_page now s k cursor n r :
  last (take n (live_after now s k cursor)) = Some r →
  live_after now s k (Some (mrec_field r)) = drop n (live_after now s k cursor).
Proof.
  intros [l1 Hl1]%last_Some.
  pose proof (take_drop n (live_after now s k cursor)) as Hsplit. rewrite Hl1, <-app_assoc in Hsplit.
  cbn in Hsplit. set (l2 := drop n (live_after now s k cursor)) in *.
  assert (StronglySorted rec_lt (live_after now s k cursor)) as Hs.
  { destruct cursor; [rewrite live_after_filter; apply StronglySorted_filter|]; apply live_sorted. }
  rewrite <-(filter_sorted_after l1 r l2), Hsplit by by rewrite Hsplit.
  rewrite live_after_filter. destruct cursor as [cur|]; [|done].
  assert (bytes_lt (enc cur) (enc (mrec_field r))) as Hcur.
  { assert (r ∈ live_after now s k (Some cur)) as Hin
      by (rewrite <-Hsplit; apply elem_of_app; right; left).
    rewrite live_after_filter in Hin. by apply list_elem_of_filter in Hin as [? _]. }
  rewrite live_after_filter, list_filter_filter. apply list_filter_iff. intros x.
  unfold rec_lt. split; [|by intros [? _]]. intros Hx. split; [done|]. by eapply bytes_lt_trans.
Qed.
End paging.

(** A client that asks for page after page, as long as there is a next one. *)
Fixpoint page_through `{Codecs, RocksDb} hash_key show_rocks (fuel : nat) (now : Z)
    (self : RocksBackend) (ns : Namespace) (key : bytes) (count : Z) (cursor : option bytes)
    : option (list MapEntry) :=
  match fuel with
  | O => None
  | S fuel =>
      match db_execute hash_key show_rocks now self (HScan ns key count cursor None) with
      | (self, Some (ROk (OutMapPage page))) =>
          match next_page_cursor page with
          | Some cursor =>
              app (page_entries page) <$>
                page_through hash_key show_rocks fuel now self ns key count (Some cursor)
          | None => Some (page_entries page)
          end
      | _ => None
      end
  end.

Section paging_terminates.
Context `{Codecs, !CodecLaws, RocksDb, !RocksLaws cf_options}.
Context (hash_key : list Z → Z) (hash_key_u64 : ∀ key, fits 64 (hash_key key)).
Context (show_rocks : RocksError → string).
Implicit Types s : Store.
Implicit Types self : RocksBackend.

Lemma page_through_from self s ns key count cursor now fuel :
  backend_holds self s → op_wf (HScan ns key count cursor None) →
  (count ≤ MAX_HSCAN_COUNT)%Z → 0 < fuel →
  length (live_after now s (db_key hash_key ns key) cursor) ≤ fuel * Nat.max 1 (Z.to_nat count) →
  page_through hash_key show_rocks fuel now self ns key count cursor =
    Some (map_entry <$> live_after now s (db_key hash_key ns key) cursor).
Proof.
  intros Hh Hwf Hmax. revert self cursor Hh Hwf.
  induction fuel as [|fuel IH]; intros self cursor Hh Hwf Hpos Hlen; [lia|].
  destruct (db_execute_step hash_key hash_key_u64 show_rocks now self s _ Hh Hwf) as (self' & He & Hh').
  cbn [store_execute] in He, Hh'. rewrite decide_False in He, Hh' by lia. cbn [fst snd] in He, Hh'.
  cbn [page_through]. rewrite He. unfold next_page_cursor; cbn [page_has_next page_entries].
  set (l := live_after now s (db_key hash_key ns key) cursor) in *.
  set (n := Nat.max 1 (Z.to_nat count)) in *.
  case_bool_decide as Hn; [|by rewrite take_ge by lia].
  rewrite fmap_last. destruct (last (take n l)) as [r|] eqn:Hr; cbn [fmap option_fmap option_map].
  - pose proof (live_after_page now s _ cursor n r Hr) as Hafter. fold l in Hafter.
    rewrite IH; [|done|done|cbn in Hlen; lia|].
    + change (entry_field (map_entry r)) with (mrec_field r). cbn [fmap option_fmap option_map].
      by rewrite Hafter, <-fmap_app, take_drop.
    + change (entry_field (map_entry r)) with (mrec_field r). rewrite Hafter, length_drop. lia.
  - apply last_None in Hr. apply (f_equal length) in Hr. rewrite length_take in Hr. cbn in Hr. lia.
Qed.

End paging_terminates.

(** * Responses, whatever RocksDB does *)

Create HintDb no_panic.

(** [safe m]: [m] does not panic. *)
Definition safe {E A} (m : res E A) : Prop := m ≠ Panic.

Lemma safe_Ok {E A} (a : A) : safe (@Ok E A a).
Proof. done. Qed.
Lemma safe_Err {E A} (e : E) : safe (@Err E A e).
Proof. done. Qed.
Lemma safe_bind {E A B} (m : res E A) (f : A → res E B) :
  safe m → (∀ a, m = Ok a → safe (f a)) → safe (m ≫= f).
Proof. unfold safe. intros Hm Hf [?|(a & Ha & ?)]%bind_Panic; [done|by eapply Hf]. Qed.
Lemma safe_fmap {E A B} (f : A → B) (m : res E A) : safe m → safe (f <$> m).
Proof. unfold safe. by destruct m. Qed.
Lemma safe_map_err {E F A} (f : E → F) (m : res E A) : safe m → safe (map_err f m).
Proof. unfold safe. by destruct m. Qed.
Lemma safe_ok_or {E A} (o : option A) (e : E) : safe (ok_or o e).
Proof. by destruct o. Qed.

#[export] Hint Resolve safe_Ok safe_Err safe_fmap safe_map_err safe_ok_or : no_panic.

Ltac no_panic := repeat first
  [ done
  | solve [eauto with no_panic]
  | apply safe_bind; [|intros ?? ]
  | case_match ].

Section typed.
Context `{Codecs, !CodecLaws, RocksDb}.
Context (hash_key : list Z → Z) (show_rocks : RocksError → string).
Implicit Types self : RocksBackend.

(** The worker threads answer or fail; they do not panic. *)
Record workers_safe self : Prop := {
  ws_batch : safe (be_batch_worker self);
  ws_callback : safe (be_callback_worker self);
}.

Lemma serialize_safe {T} `{Postcard T, !PostcardIo T, !PostcardIoLaws T} (v : T) :
  safe (serialize v).
Proof. by rewrite serialize_enc. Qed.

Lemma deserialize_safe {T} `{Postcard T, !PostcardIo T, !PostcardIoLaws T} b :
  safe (deserialize (T := T) b).
Proof. apply safe_map_err. exact (postcard_io_from_bytes_safe b). Qed.

Lemma ext_key_safe k (f : bytes) : safe (ext_key k f).
Proof. by rewrite ext_key_enc. Qed.

Lemma native_res_safe {A} (r : A + NativeError) : safe (native_res r).
Proof. by destruct r. Qed.

Lemma deserialize_field_safe b : safe (deserialize (T := bytes) b).
Proof. apply deserialize_safe. Qed.

Lemma deserialize_ctx_safe b : safe (deserialize (T := DataContext bytes) b).
Proof. apply deserialize_safe. Qed.

Hint Resolve serialize_safe deserialize_field_safe deserialize_ctx_safe ext_key_safe native_res_safe : no_panic.

Lemma backend_get_safe self cf key : workers_safe self → safe (backend_get self cf key).
Proof.
  intros [Hb _]. apply safe_bind; [done|]. intros _ _. apply safe_bind.
  - unfold reader_answer. case_match; [apply native_res_safe|done].
  - intros [b|] _; [apply safe_fmap, deserialize_safe|done].
Qed.
Hint Resolve backend_get_safe : no_panic.

Lemma split_ext_key_safe b : safe (split_ext_key b).
Proof.
  unfold split_ext_key. intros [Hc|(n & Hn & Hc)]%bind_Panic.
  - apply map_err_Panic in Hc. by apply calculate_size_no_panic in Hc.
  - apply map_err_Ok, calculate_size_bound in Hn. apply slice_no_panic in Hc; [done|done|lia].
Qed.
Hint Resolve split_ext_key_safe : no_panic.

Lemma transpose_safe {A} (r : res RocksError (option A)) x :
  safe r → transpose r = Some x → safe x.
Proof. unfold safe. destruct r as [[]| |]; cbn; naive_solver. Qed.

Lemma omap_transpose_safe {A B} (f : A → res RocksError (option B)) l :
  (∀ x, safe (f x)) → Forall safe (omap (λ x, transpose (f x)) l).
Proof.
  intros Hf. apply Forall_forall. intros x (y & _ & Hx)%list_elem_of_omap.
  by eapply transpose_safe.
Qed.

Lemma map_records_safe now kv : safe (map_records now kv).
Proof. unfold map_records. no_panic. Qed.

Lemma parse_value_safe now kv : safe (parse_value now kv).
Proof. unfold parse_value. no_panic. Qed.

Lemma scan_loop_safe count items iter : Forall safe iter → safe (scan_loop count items iter).
Proof.
  intros Hi. revert items; induction Hi as [|x iter Hx Hi IH]; intros items; cbn; [done|].
  apply safe_bind; [done|]. intros r _. case_decide; [done|apply IH].
Qed.

Lemma count_values_safe n iter : Forall safe iter → safe (count_values n iter).
Proof.
  intros Hi. revert n; induction Hi as [|x iter Hx Hi IH]; intros n; cbn; [done|].
  destruct x; [apply IH|done|done].
Qed.

Lemma hscan_safe now self k opts : workers_safe self → safe (hscan now self MapColumn k opts).
Proof.
  intros [_ Hc]. unfold hscan, exec_blocking, scan. apply safe_bind; [done|]. intros _ _.
  apply safe_bind.
  { destruct (so_cursor opts); [|done]. apply safe_bind; [apply serialize_safe|]. done. }
  intros iter _. apply scan_loop_safe.
  pose proof (omap_transpose_safe (map_records now) (flatten_ok iter) (map_records_safe now)) as Hs.
  case_match; [|done]. destruct Hs; cbn; [constructor|done].
Qed.

Lemma hcard_safe now self k : workers_safe self → safe (hcard now self MapColumn k).
Proof.
  intros [_ Hc]. unfold hcard, exec_blocking. apply safe_bind; [done|]. intros kb _.
  apply safe_bind; [done|]. intros _ _. apply safe_bind; [done|]. intros iter _.
  apply count_values_safe, omap_transpose_safe, parse_value_safe.
Qed.

Lemma expiration_safe now self C k f : workers_safe self → safe (expiration now self C k f).
Proof. intros Hw. unfold expiration. no_panic. Qed.

Lemma map_expiration_safe r : safe r → safe (map_expiration r).
Proof. unfold safe. destruct r as [|[]|]; done. Qed.

Lemma backend_merge_safe self C key value : C ∈ registered_columns → safe (backend_merge self (NAME C) key value).2.
Proof.
  intros HC. destruct (find_column (NAME C)) as [C'|] eqn:Hf.
  - rewrite (backend_merge_registered _ _ _ _ _ Hf).
    destruct (rdb_merge_cf _ _ _ _) as [db r]. apply native_res_safe.
  - by repeat (apply elem_of_cons in HC as [->|HC]; [done|]); apply elem_of_nil in HC.
Qed.

Lemma write_with_safe {A} self (m : res RocksError A) f :
  safe m → (∀ a, safe (f a).2) → safe (write_with self m f).2.
Proof. unfold safe. destruct m; cbn; auto. Qed.

Definition error_allowed (op : Operation) (e : Error) : Prop :=
  err_kind e = Internal ∨
  (err_kind e = InvalidArgument ∧ ∃ ns key count cursor kv,
     op = HScan ns key count cursor kv ∧ (MAX_HSCAN_COUNT < count)%Z).

Definition response_typed (op : Operation) (r : Response) : Prop :=
  match r with
  | ROk out => output_kind out = rpc_output_kind op
  | RErr e => error_allowed op e
  end.

Lemma reading_typed op self (r : res RocksError Output) :
  safe r → (∀ out, r = Ok out → output_kind out = rpc_output_kind op) →
  ∃ self' resp, reading show_rocks self r = (self', Some resp) ∧ response_typed op resp.
Proof.
  intros Hs Ht. unfold reading. destruct r as [out|e|]; [| |done]; cbn; eexists _, _; (split; [done|]).
  - by apply Ht.
  - by left.
Qed.

Lemma writing_typed op w :
  rpc_output_kind op = KNone → safe w.2 →
  ∃ self' resp, writing show_rocks w = (self', Some resp) ∧ response_typed op resp.
Proof.
  intros Hk Hs. unfold writing. destruct w as [self [[]|e|]]; [| |done]; cbn; eexists _, _; (split; [done|]).
  - done.
  - by left.
Qed.

Lemma fmap_typed {A} op (f : A → Output) (m : res RocksError A) :
  (∀ a, output_kind (f a) = rpc_output_kind op) →
  ∀ out, f <$> m = Ok out → output_kind out = rpc_output_kind op.
Proof. intros Hf out. destruct m; cbn; [intros [= <-]; apply Hf|done..]. Qed.

End typed.

(** * Witnesses *)

Definition toy_hash (key : bytes) : Z := 7.

Lemma toy_hash_fits key : fits 64 (toy_hash key).
Proof. unfold fits, toy_hash. lia. Qed.

Definition toy_show (e : RocksError) : string := "error".

Definition toy_ns : Namespace := replicate 21 1%Z.

Definition toy_record (v version : Z) : Record :=
  {| rec_value := [v]; rec_expiration := 1000; rec_version := version |}.


Definition toy_entry (f version : Z) : MapEntry :=
  {| entry_field := [f]; entry_record := toy_record 9 version |}.

Definition toy_map_history : list (Z * Operation) :=
  [(5, HSet toy_ns [1] (toy_entry 4 2) None); (5, HSet toy_ns [1] (toy_entry 3 2) None)]%Z.

(** A database with a map of two entries. *)
Lemma toy_map_backend :
  ∃ self, @backend_holds toy_codecs toy_rocks toy_rocks_laws self
    (@store_run toy_codecs toy_hash store_empty toy_map_history).1.
Proof.
  destruct (@db_execute_step toy_codecs toy_codec_laws toy_rocks toy_rocks_laws toy_hash
    toy_hash_fits toy_show 5 toy_backend store_empty (HSet toy_ns [1%Z] (toy_entry 4 2) None)
    toy_backend_holds) as (self1 & _ & H1); [by split|].
  destruct (@db_execute_step toy_codecs toy_codec_laws toy_rocks toy_rocks_laws toy_hash
    toy_hash_fits toy_show 5 self1 _ (HSet toy_ns [1%Z] (toy_entry 3 2) None) H1)
    as (self2 & _ & H2); [by split|].
  by exists self2.
Qed.


