(* ===== verification/DatabaseTransfer.v ===== *)
(** DatabaseTransfer: moving a key range between databases, and the separation
    of keys (src/crates/rocks/src/db/migration.rs, [read_data] and [write_data]
    of src/crates/db/src/server.rs). *)
From S2P Require Import Prelude External StorageApi RocksContext RocksKeys RocksDb RocksStorage.
From S2P Require Import RocksProofs RocksToy RocksScan Replica Database DatabaseProofs.
From stdpp Require Import prelude gmap sets list strings sorting.

(** * What a range iterator visits *)
Section visited.
Context `{Codecs, !CodecLaws} {K : Type} `{Countable K} (key_bytes : K → bytes) (key_wf : K → Prop).
Context (key_bytes_inj : ∀ k k', key_wf k → key_wf k' → key_bytes k = key_bytes k' → k = k').
Implicit Types m : gmap K (DataContext bytes).

Definition visited_kv (e : K * DataContext bytes) : KVBytes := (key_bytes e.1, enc e.2).

Lemma Forall_exists_fmap {A B} (f : A → B) (P : A → Prop) l :
  Forall (λ y, ∃ x, P x ∧ y = f x) l → ∃ L, l = f <$> L ∧ Forall P L.
Proof.
  induction 1 as [|y l (x & Hx & ->) _ (L & -> & HL)]; [by exists []|].
  exists (x :: L). by split; [|constructor].
Qed.

(** The entries a filtered table iterator yields are those of the store that the
    filter selects. *)
Lemma visited_entries t m (P : KVBytes → Prop) (Q : K → Prop) `{!∀ kv, Decision (P kv)} :
  table_holds key_bytes key_wf t m → (∀ k v, key_wf k → P (key_bytes k, v) ↔ Q k) →
  ∃ L, filter P (sorted_entries t) = visited_kv <$> L ∧ NoDup L.*1 ∧
    ∀ k c, (k, c) ∈ L ↔ m !! k = Some c ∧ Q k.
Proof.
  intros [Hwf He] HP.
  assert (∀ b v, (b, v) ∈ filter P (sorted_entries t) ↔ P (b, v) ∧ t !! b = Some v) as Hin.
  { intros b v. rewrite list_elem_of_filter. unfold sorted_entries.
    by rewrite merge_sort_Permutation, elem_of_map_to_list. }
  destruct (Forall_exists_fmap visited_kv (λ e, m !! e.1 = Some e.2 ∧ Q e.1)
    (filter P (sorted_entries t))) as (L & HL & Hall).
  { apply Forall_forall. intros [b v] [HPb Hb]%Hin. apply He in Hb as (k & c & Hk & <- & <-).
    exists (k, c). split; [|done]. split; [done|]. by apply (HP k (enc c)), HPb; apply (Hwf _ _ Hk). }
  exists L. split_and!; [done| |].
  - assert (NoDup (filter P (sorted_entries t)).*1) as Hnd.
    { eapply sublist_NoDup; [|apply fmap_sublist, sublist_filter]. unfold sorted_entries.
      rewrite merge_sort_Permutation. apply NoDup_fst_map_to_list. }
    rewrite HL, <-list_fmap_compose in Hnd.
    apply (NoDup_fmap_1 key_bytes). rewrite <-list_fmap_compose. exact Hnd.
  - intros k c. split.
    + intros Hkc. exact (proj1 (Forall_forall _ L) Hall _ Hkc).
    + intros [Hk HQ]. assert ((key_bytes k, enc c) ∈ visited_kv <$> L) as Hk'.
      { rewrite <-HL. apply Hin. split; [by apply HP; [apply (Hwf _ _ Hk)|]|]. apply He. eauto. }
      apply list_elem_of_fmap in Hk' as ([k' c'] & Heq & Hin').
      unfold visited_kv in Heq; cbn [fst snd] in Heq. injection Heq as Hkb Hc.
      apply enc_inj in Hc as <-. destruct (proj1 (Forall_forall _ L) Hall _ Hin') as [Hm _].
      apply key_bytes_inj in Hkb as <-; [done|by apply (Hwf _ _ Hk)|by apply (Hwf _ _ Hm)].
Qed.
End visited.

(** * Export *)
Section export.
Context `{Codecs, !CodecLaws, RocksDb, !RocksLaws cf_options}.
Implicit Types s d : Store.
Implicit Types self : RocksBackend.

Definition in_range (range : Z * Z) (k : GenericKey) : Prop :=
  (range.1 ≤ gk_position k ≤ range.2)%Z.

#[export] Instance in_range_dec range k : Decision (in_range range k).
Proof. unfold in_range. apply _. Defined.

Definition export_opts (range : Z * Z) : ReadOptions := {|
  ro_iterate_lower_bound := Some (to_be_bytes 8 range.1);
  ro_iterate_upper_bound := to_be_bytes 8 <$> u64_checked_add range.2 1;
  ro_total_order_seek := true; ro_prefix_same_as_start := false |}.

(** The bounds of the iterator are those of the key range, also for a range that
    ends at the last position. *)
Lemma visits_range C range k suffix :
  fits 64 range.1 → fits 64 range.2 → gk_wf k →
  iter_visits (create_cf_opts C) (export_opts range) IterStart (gk_to_bytes k ++ suffix) ↔
  in_range range k.
Proof.
  intros Hlo Hhi Hk. unfold iter_visits, export_opts, in_range.
  cbn [ro_iterate_lower_bound ro_iterate_upper_bound].
  rewrite position_le_key by done. unfold u64_checked_add, fits in *.
  pose proof (gw_position _ Hk) as Hp. unfold fits in Hp.
  case_decide as Hd; cbn [fmap option_fmap option_map].
  - rewrite key_lt_position by (unfold fits; done || lia). intuition lia.
  - intuition lia.
Qed.

Lemma scan_strings self s range :
  backend_holds self s → fits 64 range.1 → fits 64 range.2 →
  ∃ L, scan_by_position self StringColumn (Some range.1) (u64_checked_add range.2 1) =
      Ok (inl <$> (visited_kv gk_to_bytes <$> L)) ∧ NoDup L.*1 ∧
    ∀ k c, (k, c) ∈ L ↔ st_strings s !! k = Some c ∧ in_range range k.
Proof.
  intros [[Hs _] _ _] Hlo Hhi.
  destruct (visited_entries gk_to_bytes gk_wf string_key_inj _ _
    (λ kv, iter_visits (create_cf_opts StringColumn) (export_opts range) IterStart kv.1)
    (in_range range) Hs) as (L & HL & Hnd & Hin).
  { intros k v Hk. cbn [fst]. rewrite <-(app_nil_r (gk_to_bytes k)). by apply visits_range. }
  exists L. split_and!; [|done..]. unfold scan_by_position, range_iterator.
  change (cf_handle (NAME StringColumn)) with (@Ok RocksError _ GenericString). cbn [mbind res_bind].
  rewrite (rdb_iterator_law _ _ _ _ _ cf_options_string). cbn [fmap option_fmap option_map].
  by rewrite <-HL.
Qed.

Lemma scan_maps self s range :
  backend_holds self s → fits 64 range.1 → fits 64 range.2 →
  ∃ L, scan_by_position self MapColumn (Some range.1) (u64_checked_add range.2 1) =
      Ok (inl <$> (visited_kv entry_bytes <$> L)) ∧ NoDup L.*1 ∧
    ∀ kf c, (kf, c) ∈ L ↔ st_maps s !! kf = Some c ∧ in_range range kf.1.
Proof.
  intros [[_ Hm] _ _] Hlo Hhi.
  destruct (visited_entries entry_bytes (λ kf, gk_wf kf.1) entry_bytes_inj _ _
    (λ kv, iter_visits (create_cf_opts MapColumn) (export_opts range) IterStart kv.1)
    (λ kf, in_range range kf.1) Hm) as (L & HL & Hnd & Hin).
  { intros k v Hk. cbn [fst]. by apply visits_range. }
  exists L. split_and!; [|done..]. unfold scan_by_position, range_iterator.
  change (cf_handle (NAME MapColumn)) with (@Ok RocksError _ GenericMap). cbn [mbind res_bind].
  rewrite (rdb_iterator_law _ _ _ _ _ cf_options_map). cbn [fmap option_fmap option_map].
  by rewrite <-HL.
Qed.
End export.

(** * Import *)
Section import.
Context `{Codecs, !CodecLaws, RocksDb, !RocksLaws cf_options}.
Context {E : Type} (show_stream : E → string) (show_rocks : RocksError → string)
  (show_count : Z → string).
Implicit Types s d : Store.
Implicit Types self : RocksBackend.

(** A frame before serialization. *)
Notation Frame := (ColumnFamilyName * bytes * DataContext bytes)%type.

Definition frame_item (f : Frame) : ExportItem + E :=
  let '(cf, key, ctx) := f in
  inl (FrameItem (inl {| ef_cf := cf; ef_key := key; ef_value := enc ctx |})).

Definition frame_op (now : Z) (f : Frame) : BatchOp :=
  let '(cf, key, ctx) := f in (cf, key, enc (ctx_to_op now ctx)).

Lemma write_batch_spec self batch t :
  apply_batch cf_options (rdb_table (be_db self)) batch = Some t →
  ∃ self', backend_write_batch self batch = (self', Ok ()) ∧
    (∀ cf, rdb_table (be_db self') cf = t cf) ∧
    be_batch_worker self' = be_batch_worker self ∧
    be_callback_worker self' = be_callback_worker self.
Proof.
  intros Ha. destruct (rdb_write_law _ _ _ Ha) as (db & Hw & Heq).
  unfold backend_write_batch. rewrite Hw. by exists (with_db self db).
Qed.

(** Splitting the stream into batches does not change what is written. *)
Lemma import_loop_spec now self total items batch (frames : list Frame) t :
  Forall (λ f : Frame, is_Some (find_column f.1.1)) frames →
  apply_batch cf_options (rdb_table (be_db self)) (batch ++ (frame_op now <$> frames)) = Some t →
  ∃ self', import_loop show_stream show_rocks show_count now self total items batch
      ((frame_item <$> frames) ++ [inl (DoneItem (Z.of_nat (total + length frames)))]) = (self', Ok ()) ∧
    (∀ cf, rdb_table (be_db self') cf = t cf) ∧
    be_batch_worker self' = be_batch_worker self ∧
    be_callback_worker self' = be_callback_worker self.
Proof.
  intros Hreg. revert self total items batch t.
  induction Hreg as [|[[cf key] ctx] frames [C HC] _ IH]; intros self total items batch t Ha.
  { cbn. rewrite decide_False by (rewrite Nat.add_0_r; lia). cbn in Ha. rewrite app_nil_r in Ha.
    by apply write_batch_spec. }
  cbn [fmap list_fmap frame_item app import_loop ef_value ef_cf ef_key].
  rewrite deserialize_enc. cbn [mbind res_bind]. rewrite serialize_enc. cbn [mbind res_bind].
  unfold batch_merge, cf_handle. cbn in HC. rewrite HC. cbn [mbind res_bind write_with].
  replace (total + length ((cf, key, ctx) :: frames)) with (S total + length frames) by (cbn; lia).
  rewrite fmap_cons, cons_middle, app_assoc in Ha.
  change (frame_op now (cf, key, ctx)) with (cf, key, enc (ctx_to_op now ctx)) in Ha.
  case_decide as Hfull; [|by apply IH].
  rewrite apply_batch_app in Ha. apply bind_Some in Ha as (t1 & Hb & Ha).
  destruct (write_batch_spec _ _ _ Hb) as (self1 & -> & Heq1 & Hw1 & Hc1).
  destruct (apply_batch_ext t1 (rdb_table (be_db self1)) _ _ (λ cf, eq_sym (Heq1 cf)) Ha)
    as (t2 & Ha2 & Heq2).
  destruct (IH self1 (S total) 0 [] t2 Ha2) as (self2 & Hi & Heq & Hw2 & Hc2).
  exists self2. split_and!; [done| |congruence..]. intros cf'. by rewrite Heq, Heq2.
Qed.

(** ** On the store *)

Definition import_strings (now : Z) d (L : list (GenericKey * DataContext bytes)) : Store :=
  foldl (λ d e, merge_string d e.1 (ctx_to_op now e.2)) d L.
Definition import_maps (now : Z) d (L : list (GenericKey * bytes * DataContext bytes)) : Store :=
  foldl (λ d e, merge_map d e.1.1 e.1.2 (ctx_to_op now e.2)) d L.

Definition string_frames (L : list (GenericKey * DataContext bytes)) : list Frame :=
  (λ e, (GenericString, gk_to_bytes e.1, e.2)) <$> L.
Definition map_frames (L : list (GenericKey * bytes * DataContext bytes)) : list Frame :=
  (λ e, (GenericMap, entry_bytes e.1, e.2)) <$> L.

Lemma holds_import_strings now t d L :
  holds t d → Forall (λ e, gk_wf e.1) L →
  ∃ t', apply_batch cf_options t (frame_op now <$> string_frames L) = Some t' ∧
    holds t' (import_strings now d L).
Proof.
  intros Hh Hwf. revert t d Hh; induction Hwf as [|e L He _ IH]; intros t d Hh; cbn; [by exists t|].
  destruct (holds_merge_string t d e.1 (ctx_to_op now e.2) Hh He) as (t1 & Ha & Hh1).
  unfold apply_merge in Ha. rewrite Ha. cbn. by apply IH.
Qed.

Lemma holds_import_maps now t d L :
  holds t d → Forall (λ e, gk_wf e.1.1) L →
  ∃ t', apply_batch cf_options t (frame_op now <$> map_frames L) = Some t' ∧
    holds t' (import_maps now d L).
Proof.
  intros Hh Hwf. revert t d Hh; induction Hwf as [|e L He _ IH]; intros t d Hh; cbn; [by exists t|].
  destruct (holds_merge_map t d e.1.1 e.1.2 (ctx_to_op now e.2) Hh He) as (t1 & Ha & Hh1).
  unfold apply_merge in Ha. unfold entry_bytes. rewrite Ha. cbn. by apply IH.
Qed.

Lemma import_strings_lookup now d L k :
  NoDup L.*1 →
  (∀ c, (k, c) ∈ L → st_strings (import_strings now d L) !! k =
     Some (full_merge (st_strings d !! k) [ctx_to_op now c])) ∧
  (k ∉ L.*1 → st_strings (import_strings now d L) !! k = st_strings d !! k).
Proof.
  revert d; induction L as [|[k' c'] L IH]; intros d Hnd; cbn.
  { split; [|done]. by intros c ?%elem_of_nil. }
  apply NoDup_cons in Hnd as [Hnin Hnd].
  destruct (IH (merge_string d k' (ctx_to_op now c')) Hnd) as [IH1 IH2]. split.
  - intros c [[= -> ->]|Hin]%elem_of_cons.
    + unfold import_strings in IH2. rewrite IH2 by done. cbn. by rewrite lookup_insert_eq.
    + unfold import_strings in IH1. rewrite (IH1 c) by done. cbn. rewrite lookup_insert_ne; [done|].
      intros ->. apply Hnin, list_elem_of_fmap. by exists (k, c).
  - intros [Hne Hk]%not_elem_of_cons. unfold import_strings in IH2. rewrite IH2 by done. cbn.
    by rewrite lookup_insert_ne.
Qed.

Lemma import_maps_lookup now d L kf :
  NoDup L.*1 →
  (∀ c, (kf, c) ∈ L → st_maps (import_maps now d L) !! kf =
     Some (full_merge (st_maps d !! kf) [ctx_to_op now c])) ∧
  (kf ∉ L.*1 → st_maps (import_maps now d L) !! kf = st_maps d !! kf).
Proof.
  revert d; induction L as [|[[k' f'] c'] L IH]; intros d Hnd; cbn.
  { split; [|done]. by intros c ?%elem_of_nil. }
  apply NoDup_cons in Hnd as [Hnin Hnd].
  destruct (IH (merge_map d k' f' (ctx_to_op now c')) Hnd) as [IH1 IH2]. split.
  - intros c [[= -> ->]|Hin]%elem_of_cons.
    + unfold import_maps in IH2. rewrite IH2 by done. cbn. by rewrite lookup_insert_eq.
    + unfold import_maps in IH1. rewrite (IH1 c) by done. cbn. rewrite lookup_insert_ne; [done|].
      intros Heq. apply Hnin, list_elem_of_fmap. by exists (kf, c).
  - intros [Hne Hk]%not_elem_of_cons. unfold import_maps in IH2. rewrite IH2 by done. cbn.
    by rewrite lookup_insert_ne.
Qed.

Lemma import_strings_maps now d L : st_maps (import_strings now d L) = st_maps d.
Proof. revert d; induction L as [|e L IH]; intros d; cbn; [done|]. unfold import_strings in IH. by rewrite IH. Qed.
Lemma import_maps_strings now d L : st_strings (import_maps now d L) = st_strings d.
Proof. revert d; induction L as [|e L IH]; intros d; cbn; [done|]. unfold import_maps in IH. by rewrite IH. Qed.
End import.

(** * Transfer *)
Section transfer.
Context `{Codecs, !CodecLaws, RocksDb, !RocksLaws cf_options}.
Context (show_rocks : RocksError → string) (show_error : Error → string) (show_count : Z → string).
Implicit Types s d : Store.
Implicit Types self : RocksBackend.

(** What a transfer leaves under a key of the target. *)
Definition transferred (now : Z) (moves : bool) (source target : option (DataContext bytes))
    : option (DataContext bytes) :=
  match source with
  | Some c => if moves then Some (full_merge target [ctx_to_op now c]) else target
  | None => target
  end.

(** The frames of the server are those of the export, and back. *)
Lemma stream_roundtrip (frames : list (ColumnFamilyName * bytes * DataContext bytes)) n :
  Forall (λ f, f.1.1 = GenericString ∨ f.1.1 = GenericMap) frames →
  (λ r : DataItem + Error, match r with
     | inl item => inl (export_item item)
     | inr err => inr err
     end) <$> (data_item show_rocks <$> (((λ f : ColumnFamilyName * bytes * DataContext bytes,
        FrameItem (inl {| ef_cf := f.1.1; ef_key := f.1.2; ef_value := enc f.2 |})) <$> frames)
        ++ [DoneItem n])) =
  (frame_item <$> frames) ++ [inl (DoneItem n)].
Proof.
  induction 1 as [|[[cf key] c] frames Hcf _ IH]; cbn; [done|].
  f_equal; [|apply IH]. cbn in Hcf. by destruct Hcf as [-> | ->].
Qed.

Lemma export_frames self s range :
  backend_holds self s → fits 64 range.1 → fits 64 range.2 →
  ∃ Ls Lm, export self range =
      Ok (((λ f, FrameItem (inl {| ef_cf := f.1.1; ef_key := f.1.2; ef_value := enc f.2 |})) <$>
            (string_frames Ls ++ map_frames Lm)) ++
          [DoneItem (Z.of_nat (0 + length (string_frames Ls ++ map_frames Lm)))]) ∧
    (NoDup Ls.*1 ∧ ∀ k c, (k, c) ∈ Ls ↔ st_strings s !! k = Some c ∧ in_range range k) ∧
    (NoDup Lm.*1 ∧ ∀ kf c, (kf, c) ∈ Lm ↔ st_maps s !! kf = Some c ∧ in_range range kf.1).
Proof.
  intros Hh Hlo Hhi. destruct (scan_strings self s range Hh Hlo Hhi) as (Ls & Hs & Hspec).
  destruct (scan_maps self s range Hh Hlo Hhi) as (Lm & Hm & Hspec').
  exists Ls, Lm. split; [|done]. unfold export. rewrite Hs. cbn [mbind res_bind].
  rewrite Hm. cbn [mbind res_bind]. unfold db_iterator, string_frames, map_frames.
  rewrite !length_app, !length_fmap, fmap_app, <-!list_fmap_compose. done.
Qed.

(** C14. Moving a key range to another database is exact: the stream that
    [read_data] gives for a range, written by [write_data] in batches, merges
    into the target exactly the strings and map entries of the source whose
    position lies in the range (ends included), each under its own key,
    and leaves every other entry of the target as it was. *)
Theorem transfer_exact now source target s d range :
  backend_holds source s → backend_holds target d → fits 64 range.1 → fits 64 range.2 →
  ∃ stream target' d', db_read_data show_rocks source range = Ok stream ∧
    db_write_data show_rocks show_error show_count now target stream = (target', Ok ()) ∧
    backend_holds target' d' ∧
    (∀ k, st_strings d' !! k =
       transferred now (bool_decide (in_range range k)) (st_strings s !! k) (st_strings d !! k)) ∧
    (∀ kf, st_maps d' !! kf =
       transferred now (bool_decide (in_range range kf.1)) (st_maps s !! kf) (st_maps d !! kf)).
Proof.
  intros Hs Hd Hlo Hhi.
  destruct (export_frames source s range Hs Hlo Hhi) as (Ls & Lm & He & [Hnds Hins] & [Hndm Hinm]).
  assert (Forall (λ e, gk_wf e.1) Ls) as Hwfs.
  { apply Forall_forall. intros [k c] [Hk _]%Hins. apply (th_wf _ _ _ _ (ho_strings _ _ (bh_tables _ _ Hs)) _ _ Hk). }
  assert (Forall (λ e, gk_wf e.1.1) Lm) as Hwfm.
  { apply Forall_forall. intros [k c] [Hk _]%Hinm. apply (th_wf _ _ _ _ (ho_maps _ _ (bh_tables _ _ Hs)) _ _ Hk). }
  destruct (holds_import_strings now _ d Ls (bh_tables _ _ Hd) Hwfs) as (t1 & Ha1 & Hh1).
  destruct (holds_import_maps now t1 _ Lm Hh1 Hwfm) as (t2 & Ha2 & Hh2).
  set (frames := string_frames Ls ++ map_frames Lm) in *.
  destruct (import_loop_spec show_error show_rocks show_count now target 0 0 [] frames t2)
    as (target' & Hi & Heq & Hb & Hc).
  { apply Forall_app; split; apply Forall_fmap, Forall_true; intros e; by eexists. }
  { unfold frames. rewrite app_nil_l, fmap_app, apply_batch_app, Ha1. exact Ha2. }
  eexists _, target', _. split; [unfold db_read_data; by rewrite He|]. split.
  { unfold db_write_data, import_all. rewrite stream_roundtrip; [by rewrite Hi|].
    apply Forall_app; split; apply Forall_fmap, Forall_true; intros e; [by left|by right]. }
  split.
  { split; [eapply holds_ext; [|exact Hh2]; intros cf; by rewrite Heq| |];
      by destruct Hd; congruence. }
  split; intros k.
  - rewrite import_maps_strings. unfold transferred.
    destruct (import_strings_lookup now d Ls k Hnds) as [Hmove Hstay].
    destruct (st_strings s !! k) as [c|] eqn:Hk; [case_bool_decide|].
    + apply Hmove. by apply Hins.
    + apply Hstay. intros ([k' c'] & -> & [_ ?]%Hins)%list_elem_of_fmap. done.
    + apply Hstay. intros ([k' c'] & -> & [? _]%Hins)%list_elem_of_fmap. cbn in Hk. congruence.
  - unfold transferred.
    destruct (import_maps_lookup now (import_strings now d Ls) Lm k Hndm) as [Hmove Hstay].
    rewrite import_strings_maps in Hmove, Hstay.
    destruct (st_maps s !! k) as [c|] eqn:Hk; [case_bool_decide|].
    + apply Hmove. by apply Hinm.
    + apply Hstay. intros ([k' c'] & -> & [_ ?]%Hinm)%list_elem_of_fmap. done.
    + apply Hstay. intros ([k' c'] & -> & [? _]%Hinm)%list_elem_of_fmap. cbn in Hk. congruence.
Qed.
End transfer.

(** * Failed transfers *)
Section failed.
Context `{Codecs, RocksDb}.
Context {E : Type} (show_stream : E → string) (show_rocks : RocksError → string)
  (show_count : Z → string).
Implicit Types self : RocksBackend.

Lemma import_loop_Ok now self total items batch (data : list (ExportItem + E)) self' :
  import_loop show_stream show_rocks show_count now self total items batch data = (self', Ok ()) →
  ∃ frames rest, data = (inl ∘ FrameItem ∘ inl <$> frames) ++
      inl (DoneItem (Z.of_nat (total + length frames))) :: rest ∧
    Forall (λ f, is_ok (deserialize (T := DataContext bytes) (ef_value f)) = true) frames.
Proof.
  revert self total items batch; induction data as [|item data IH];
    intros self total items batch Hi; [done|].
  destruct item as [[[frame|e]|n]|e]; [|done| |done].
  - cbn [import_loop] in Hi.
    destruct (deserialize (ef_value frame)) as [ctx| |] eqn:Hd; [|done|done].
    cbn [mbind res_bind] in Hi.
    assert (∃ self1 items1 batch1, import_loop show_stream show_rocks show_count now self1 (S total)
      items1 batch1 data = (self', Ok ())) as (self1 & items1 & batch1 & Hi1).
    { destruct (serialize (ctx_to_op now ctx)) as [v| |]; [|done..]. cbn [mbind res_bind] in Hi.
      destruct (batch_merge _ _ _ _) as [b| |]; [|done..]. cbn [write_with] in Hi.
      case_decide; [|by eexists _, _, _]. destruct (backend_write_batch self b) as [self1 [?| |]];
        [by eexists _, _, _|done..]. }
    destruct (IH _ _ _ _ Hi1) as (frames & rest & -> & Hall).
    exists (frame :: frames), rest. split; [|constructor; [by rewrite Hd|done]].
    cbn. do 5 f_equal. lia.
  - cbn in Hi. case_decide as Hn; [done|]. exists [], data. split; [|constructor].
    cbn. rewrite Nat.add_0_r. by rewrite Hn.
Qed.
End failed.

Section failed_transfer.
Context `{Codecs, RocksDb}.
Context (show_rocks : RocksError → string) (show_error : Error → string) (show_count : Z → string).
Implicit Types self : RocksBackend.

Lemma export_stream_inv (stream : list (DataItem + Error)) frames m rest :
  (λ r : DataItem + Error, match r with inl item => inl (export_item item) | inr err => inr err end)
    <$> stream = (inl ∘ FrameItem ∘ inl <$> frames) ++ inl (DoneItem m) :: rest →
  ∃ frames' rest', stream = (inl ∘ DataFrameItem <$> frames') ++ inl (DataDone m) :: rest' ∧
    df_value <$> frames' = ef_value <$> frames.
Proof.
  revert frames; induction stream as [|item stream IH]; intros frames Hs; [by destruct frames|].
  destruct frames as [|f frames]; cbn in Hs; injection Hs as Hitem Hs.
  - destruct item as [[frame|n]|e]; cbn in Hitem; [done| |done]. injection Hitem as ->.
    by exists [], stream.
  - destruct item as [[frame|n]|e]; cbn in Hitem; [|done..]. injection Hitem as <-.
    destruct (IH _ Hs) as (frames' & rest' & -> & Hv).
    exists (frame :: frames'), rest'. split; [done|]. cbn. by f_equal.
Qed.

(** C30. An incomplete transfer is never reported as complete, whatever RocksDB
    does: [write_data] succeeds only if the stream consists of intact frames
    followed by a [Done] with their exact number.  A stream that breaks off,
    carries an error of the connection or of the source (also one of the
    source's iterators), has an undecodable frame or a wrong count is an error. *)
Theorem write_data_detects_loss now self stream self' :
  db_write_data show_rocks show_error show_count now self stream = (self', Ok ()) →
  ∃ frames rest, stream = (inl ∘ DataFrameItem <$> frames) ++
      inl (DataDone (Z.of_nat (length frames))) :: rest ∧
    Forall (λ f, is_ok (deserialize (T := DataContext bytes) (df_value f)) = true) frames.
Proof.
  unfold db_write_data, import_all.
  destruct (import_loop _ _ _ _ _ _ _ _ _) as [self1 r] eqn:Hi. intros [= -> Hr].
  apply map_err_Ok in Hr as ->. apply import_loop_Ok in Hi as (frames & rest & Hs & Hall).
  apply export_stream_inv in Hs as (frames' & rest' & -> & Hv).
  exists frames', rest'. split.
  - apply (f_equal length) in Hv. rewrite !length_fmap in Hv. by rewrite Hv.
  - set (P v := is_ok (deserialize (T := DataContext bytes) v) = true) in *.
    change (Forall (P ∘ df_value) frames'). apply Forall_fmap. rewrite Hv. by apply Forall_fmap.
Qed.
End failed_transfer.

(** * Reads over a failing disk *)
Section read_errors.
Context `{Codecs, !CodecLaws, RocksDb}.
Implicit Types self : RocksBackend.

(** Errors of RocksDB's iterators are lost: when a read fails in the middle
    of a map, [hcard] counts and [hscan] returns the entries before the failure
    as if they were the whole map, with [has_next] false, and no error.  The
    [flatten] of the iterators drops the [Err]s. *)
Theorem iterator_errors_dropped now self k entries err :
  gk_wf k → be_callback_worker self = Ok () →
  (∀ ro mode, rdb_iterator_cf (be_db self) GenericMap ro mode =
     (inl <$> (entry_kv k <$> entries)) ++ [inr err]) →
  let live := omap (live_record now) entries in
  hcard now self MapColumn k = Ok (length live) ∧
  (∀ count, length live ≤ count →
     hscan now self MapColumn k {| so_count := count; so_cursor := None |} =
       Ok {| sr_items := live; sr_has_next := false |}).
Proof.
  intros Hk Hcb Hit live.
  assert (flatten_ok ((inl <$> (entry_kv k <$> entries)) ++ [inr err]) = entry_kv k <$> entries) as Hfl.
  { unfold flatten_ok. rewrite omap_app. cbn. rewrite app_nil_r. apply flatten_ok_inl. }
  split.
  - unfold hcard, exec_blocking, prefix_iterator. rewrite Hcb. cbn [storage_key mbind res_bind].
    change (cf_handle (NAME MapColumn)) with (@Ok RocksError _ GenericMap). cbn [mbind res_bind].
    unfold iter_values. by rewrite Hit, Hfl, iter_values_items, count_values_Ok, length_fmap.
  - intros count Hc. unfold hscan, exec_blocking, scan, prefix_iterator. rewrite Hcb.
    cbn [storage_key mbind res_bind so_cursor so_count].
    change (cf_handle (NAME MapColumn)) with (@Ok RocksError _ GenericMap). cbn [mbind res_bind].
    rewrite Hit, Hfl, scan_items by done. fold live.
    replace (is_same_cursor _ _) with false by (unfold is_same_cursor; by destruct (head _) as [[]|]).
    rewrite scan_loop_page. unfold page_of. rewrite take_ge by lia.
    by rewrite bool_decide_false by lia.
Qed.
End read_errors.

(** * Keys do not interfere *)
Section isolation.
Context `{Codecs, !CodecLaws, RocksDb, !RocksLaws cf_options}.
Context (hash_key : list Z → Z) (hash_key_u64 : ∀ key, fits 64 (hash_key key)).
Context (show_rocks : RocksError → string).
Implicit Types s : Store.
Implicit Types self : RocksBackend.

(** Stores that agree on a key. *)
Record agree (k : GenericKey) s s' : Prop := {
  ag_string : st_strings s !! k = st_strings s' !! k;
  ag_map f : st_maps s !! (k, f) = st_maps s' !! (k, f);
}.

Lemma map_entries_agree k s s' : agree k s s' → map_entries s k = map_entries s' k.
Proof.
  intros [_ Hm]. apply (StronglySorted_unique_strong enc_le).
  - intros [f c] [f' c'] Hin Hin' Hle Hge.
    assert (f = f') as <- by by apply enc_inj, (anti_symm bytes_le).
    apply elem_of_map_entries in Hin, Hin'. rewrite Hm in Hin. congruence.
  - apply map_entries_sorted.
  - apply map_entries_sorted.
  - apply NoDup_Permutation.
    + eapply NoDup_fmap_1, map_entries_NoDup.
    + eapply NoDup_fmap_1, map_entries_NoDup.
    + intros [f c]. by rewrite !elem_of_map_entries, Hm.
Qed.

Lemma store_execute_agree now s s' op :
  agree (db_key hash_key (op_namespace op) (op_key op)) s s' →
  (store_execute hash_key now s op).2 = (store_execute hash_key now s' op).2.
Proof.
  intros Hag. destruct op; cbn [op_namespace op_key] in Hag; cbn;
    unfold live_after; rewrite ?(ag_string _ _ _ Hag), ?(ag_map _ _ _ Hag),
    ?(map_entries_agree _ _ _ Hag); try done.
  by case_decide.
Qed.

Lemma store_execute_frame now s op k :
  k ≠ db_key hash_key (op_namespace op) (op_key op) →
  agree k (store_execute hash_key now s op).1 s.
Proof.
  intros Hk. destruct op; cbn [op_namespace op_key] in Hk; cbn;
    try (split; [|intros ?]; cbn; by rewrite ?lookup_insert_ne by congruence).
  case_decide; by split.
Qed.

(** Keys do not interfere: an operation on one key, map or namespace never
    changes what an operation on another key or in another namespace returns,
    although all of them share two tables and keys are told apart by a length
    prefix and map entries by a key prefix. *)
Theorem keys_isolated now now' self s op op' :
  backend_holds self s → op_wf op → op_wf op' →
  op_namespace op ≠ op_namespace op' ∨ op_key op ≠ op_key op' →
  (db_execute hash_key show_rocks now' (db_execute hash_key show_rocks now self op).1 op').2 =
  (db_execute hash_key show_rocks now' self op').2.
Proof.
  intros Hh Hop Hop' Hne.
  destruct (db_execute_step hash_key hash_key_u64 show_rocks now self s op Hh Hop) as (self1 & -> & Hh1).
  cbn [fst].
  destruct (db_execute_step hash_key hash_key_u64 show_rocks now' self1 _ op' Hh1 Hop') as (? & -> & _).
  destruct (db_execute_step hash_key hash_key_u64 show_rocks now' self s op' Hh Hop') as (? & -> & _).
  cbn. f_equal. apply store_execute_agree, store_execute_frame. intros Heq.
  apply db_key_inj in Heq as [Hns Hkey]; [by destruct Hne|].
  by destruct Hop as [-> _], Hop' as [-> _].
Qed.
End isolation.

(** * Witnesses *)

Lemma transfer_exact_witness :
  ∃ source target' d', @backend_holds toy_codecs toy_rocks toy_rocks_laws target' d' ∧
    (∃ stream, @db_read_data toy_rocks toy_show source (0, 2 ^ 64 - 1)%Z = Ok stream) ∧
    is_Some (st_maps d' !! (db_key toy_hash toy_ns [1%Z], [4%Z])).
Proof.
  destruct toy_map_backend as [source Hs].
  destruct (@transfer_exact toy_codecs toy_codec_laws toy_rocks toy_rocks_laws toy_show
    (λ _, EmptyString) (λ _, EmptyString) 5 source toy_backend _ store_empty
    (0, 2 ^ 64 - 1)%Z Hs) as (stream & target' & d' & Hr & _ & Hh & _ & Hm);
    [apply toy_backend_holds|done|done|].
  exists source, target', d'. split; [done|]. split; [by exists stream|].
  rewrite Hm. apply (bool_decide_unpack _). vm_compute. exact I.
Defined.

Lemma write_data_detects_loss_witness :
  ∃ frames rest, [inl (DataDone 0)] = (inl ∘ DataFrameItem <$> frames) ++
    (inl (DataDone (Z.of_nat (length frames))) : DataItem + Error) :: rest.
Proof.
  destruct (@write_data_detects_loss toy_codecs toy_rocks toy_show (λ _, EmptyString)
    (λ _, EmptyString) 5 toy_backend [inl (DataDone 0)] toy_backend) as (frames & rest & Hs & _).
  { reflexivity. }
  by exists frames, rest.
Defined.

Lemma iterator_errors_dropped_witness :
  @hcard toy_codecs toy_broken 5 toy_broken_backend MapColumn toy_gk = Ok 0.
Proof.
  apply (@iterator_errors_dropped toy_codecs toy_codec_laws toy_broken 5 toy_broken_backend toy_gk
    [] toy_error).
  - by vm_compute; split.
  - reflexivity.
  - reflexivity.
Defined.

Lemma keys_isolated_witness :
  (@db_execute toy_codecs toy_rocks toy_hash toy_show 6
    (@db_execute toy_codecs toy_rocks toy_hash toy_show 5 toy_backend
      (SetOp toy_ns [1%Z] (toy_record 8 2) None)).1 (Get toy_ns [2%Z] None)).2 =
  (@db_execute toy_codecs toy_rocks toy_hash toy_show 6 toy_backend (Get toy_ns [2%Z] None)).2.
Proof.
  apply (@keys_isolated toy_codecs toy_codec_laws toy_rocks toy_rocks_laws toy_hash toy_hash_fits
    toy_show 5 6 toy_backend store_empty); [apply toy_backend_holds|by split|by split|by right].
Defined.
