(* ===== verification/FakeStorage.v ===== *)
(** FakeStorage: the in-memory storage that the tests of replication use in place of
    a database (src/crates/storage_api/src/testing.rs), compared with the store
    that the database server refines. *)
From S2P Require Import Prelude External StorageApi RpcCall RocksContext RocksKeys RocksDb RocksStorage.
From S2P Require Import RocksProofs RocksToy RocksScan Replica Database DatabaseProofs.
From stdpp Require Import prelude gmap sets list strings sorting.

(** * The storage *)

(** [Inner]: two [BTreeMap]s. *)
Record Inner := {
  in_broken : bool;
  in_expected_keyspace_version : option Z;
  in_kv : gmap bytes Record;
  in_map : gmap bytes (gmap bytes Record);
}.

Definition inner_default : Inner :=
  {| in_broken := false; in_expected_keyspace_version := None; in_kv := ∅; in_map := ∅ |}.

(** [break_] and [expect_keyspace_version]. *)
Definition fake_break (self : Inner) : Inner :=
  {| in_broken := true; in_expected_keyspace_version := in_expected_keyspace_version self;
     in_kv := in_kv self; in_map := in_map self |}.
Definition fake_expect_keyspace_version (self : Inner) (version : Z) : Inner :=
  {| in_broken := in_broken self; in_expected_keyspace_version := Some version;
     in_kv := in_kv self; in_map := in_map self |}.

Definition with_kv (self : Inner) (kv : gmap bytes Record) : Inner :=
  {| in_broken := in_broken self; in_expected_keyspace_version := in_expected_keyspace_version self;
     in_kv := kv; in_map := in_map self |}.
Definition with_map (self : Inner) (m : gmap bytes (gmap bytes Record)) : Inner :=
  {| in_broken := in_broken self; in_expected_keyspace_version := in_expected_keyspace_version self;
     in_kv := in_kv self; in_map := m |}.

Definition with_expiration (rec : Record) (expiration : Z) : Record :=
  {| rec_value := rec_value rec; rec_expiration := expiration; rec_version := rec_version rec |}.

(** Entries of a [BTreeMap] in order. *)
Definition btree_le {V} (a b : bytes * V) : Prop := bytes_le a.1 b.1.
#[export] Instance btree_le_dec {V} : RelDecision (btree_le (V := V)).
Proof. intros a b. unfold btree_le. apply _. Defined.
Definition btree_iter {V} (m : gmap bytes V) : list (bytes * V) := merge_sort btree_le (map_to_list m).

(** [BTreeMap::range] of an inclusive range. *)
Definition btree_range {V} (start end_ : bytes) (m : gmap bytes V) : list (bytes * V) :=
  filter (λ e, bytes_le start e.1 ∧ bytes_le e.1 end_) (btree_iter m).

Section fake_storage.
(** xxh3 of the key. *)
Context (hash_key : list Z → Z).
Implicit Types self : Inner.

(** [key] *)
Definition fake_key (namespace : Namespace) (key : bytes) : bytes :=
  to_be_bytes 8 (hash_key key) ++ namespace ++ key.

Definition fake_get self ns key : option Record := in_kv self !! fake_key ns key.
Definition fake_set self ns key (record : Record) : Inner :=
  with_kv self (<[fake_key ns key := record]> (in_kv self)).
Definition fake_del self ns key : Inner := with_kv self (delete (fake_key ns key) (in_kv self)).
Definition fake_get_exp self ns key : option Z := rec_expiration <$> in_kv self !! fake_key ns key.
Definition fake_set_exp self ns key (expiration : Z) : Inner :=
  match in_kv self !! fake_key ns key with
  | Some rec => with_kv self (<[fake_key ns key := with_expiration rec expiration]> (in_kv self))
  | None => self
  end.
Definition fake_hget self ns key (field : bytes) : option Record :=
  sub ← in_map self !! fake_key ns key; sub !! field.
Definition fake_hset self ns key (entry : MapEntry) : Inner :=
  let sub := default ∅ (in_map self !! fake_key ns key) in
  with_map self (<[fake_key ns key := <[entry_field entry := entry_record entry]> sub]> (in_map self)).
Definition fake_hdel self ns key (field : bytes) : Inner :=
  match in_map self !! fake_key ns key with
  | None => self
  | Some sub =>
      let sub := delete field sub in
      with_map self (if decide (sub = ∅) then delete (fake_key ns key) (in_map self)
                     else <[fake_key ns key := sub]> (in_map self))
  end.
Definition fake_hget_exp self ns key (field : bytes) : option Z :=
  sub ← in_map self !! fake_key ns key; rec_expiration <$> sub !! field.
Definition fake_hset_exp self ns key (field : bytes) (expiration : Z) : Inner :=
  match in_map self !! fake_key ns key with
  | None => self
  | Some sub =>
      match sub !! field with
      | Some rec =>
          with_map self (<[fake_key ns key := <[field := with_expiration rec expiration]> sub]> (in_map self))
      | None => self
      end
  end.
Definition fake_hcard self ns key : Z :=
  default 0%Z ((λ sub, wrap 64 (Z.of_nat (size sub))) <$> in_map self !! fake_key ns key).

(** [hscan]: the map is looked up under the key itself, and the cursor is not used. *)
Definition fake_hscan self (key : bytes) (count : Z) : MapPage :=
  match in_map self !! key with
  | None => {| page_entries := []; page_has_next := false |}
  | Some sub =>
      let entries := (λ e, {| entry_field := e.1; entry_record := e.2 |}) <$> btree_iter sub in
      {| page_entries := take (Z.to_nat count) entries;
         page_has_next := bool_decide (drop (Z.to_nat count) entries ≠ []) |}
  end.

Definition fake_execute self (op : Operation) : Inner * Response :=
  if in_broken self then (self, RErr (error_new Internal))
  else
    if decide (in_expected_keyspace_version self ≠ None ∧
               op_keyspace_version op ≠ in_expected_keyspace_version self)
    then (self, RErr (error_new KeyspaceVersionMismatch))
    else
      match op with
      | Get ns key _ => (self, ROk (OutRecord (fake_get self ns key)))
      | SetOp ns key record _ => (fake_set self ns key record, ROk OutNone)
      | Del ns key _ _ => (fake_del self ns key, ROk OutNone)
      | GetExp ns key _ => (self, ROk (OutExpiration (fake_get_exp self ns key)))
      | SetExp ns key expiration _ _ => (fake_set_exp self ns key expiration, ROk OutNone)
      | HGet ns key field _ => (self, ROk (OutRecord (fake_hget self ns key field)))
      | HSet ns key entry _ => (fake_hset self ns key entry, ROk OutNone)
      | HDel ns key field _ _ => (fake_hdel self ns key field, ROk OutNone)
      | HGetExp ns key field _ => (self, ROk (OutExpiration (fake_hget_exp self ns key field)))
      | HSetExp ns key field expiration _ _ => (fake_hset_exp self ns key field expiration, ROk OutNone)
      | HCard ns key _ => (self, ROk (OutCardinality (fake_hcard self ns key)))
      | HScan _ key count _ _ => (self, ROk (OutMapPage (fake_hscan self key count)))
      end.

Fixpoint fake_run self (ops : list Operation) : Inner * list Response :=
  match ops with
  | [] => (self, [])
  | op :: ops =>
      let '(self, r) := fake_execute self op in
      let '(self, rs) := fake_run self ops in
      (self, r :: rs)
  end.
End fake_storage.

(** * Data streams *)

Record KeyPayload := { kp_key : bytes; kp_field : bytes }.

Section fake_data.
Context `{Json KeyPayload, Json Record}.
Implicit Types self : Inner.

Definition fake_data_frame (data_type : DataType) (key field : bytes) (record : Record) : res Error DataItem :=
  key ← match json_to_vec {| kp_key := key; kp_field := field |} with Ok b => Ok b | _ => Panic end;
  value ← match json_to_vec record with Ok b => Ok b | _ => Panic end;
  Ok (DataFrameItem {| df_data_type := data_type; df_key := key; df_value := value |}).

Definition fake_read_data self (start end_ : Z) : res Error (list DataItem) :=
  if in_broken self then Err (error_new Internal)
  else
    let start := to_be_bytes 8 start in
    let end_ := to_be_bytes 8 end_ in
    kv ← res_map (λ e, fake_data_frame DataKv e.1 [] e.2) (btree_range start end_ (in_kv self));
    map ← res_map (λ e : bytes * bytes * Record, fake_data_frame DataMap e.1.1 e.1.2 e.2)
            (btree_range start end_ (in_map self) ≫= λ e, (λ f, (e.1, f.1, f.2)) <$> btree_iter e.2);
    Ok (kv ++ map ++ [DataDone (Z.of_nat (length kv + length map))]).

Definition fake_write_item self (processed : Z) (item : DataItem) : res Error (Inner * Z) :=
  match item with
  | DataFrameItem frame =>
      key ← match json_from_slice (T := KeyPayload) (df_key frame) with Ok k => Ok k | _ => Panic end;
      record ← match json_from_slice (T := Record) (df_value frame) with Ok r => Ok r | _ => Panic end;
      let self :=
        match df_data_type frame with
        | DataKv => with_kv self (<[kp_key key := record]> (in_kv self))
        | DataMap =>
            let sub := default ∅ (in_map self !! kp_key key) in
            with_map self (<[kp_key key := <[kp_field key := record]> sub]> (in_map self))
        end in
      Ok (self, u64_add processed 1)
  | DataDone count => if decide (count = processed) then Ok (self, processed) else Panic
  end.

Fixpoint fake_write_items self (processed : Z) (items : list DataItem) : res Error Inner :=
  match items with
  | [] => Ok self
  | item :: items =>
      '(self, processed) ← fake_write_item self processed item;
      fake_write_items self processed items
  end.

(** [write_data]: the stream is collected first. *)
Definition fake_write_data self (stream : list (res Error DataItem)) : res Error Inner :=
  data ← res_map id stream;
  if in_broken self then Err (error_new Internal) else fake_write_items self 0 data.
End fake_data.

(** * Comparison with the store *)

(** The version and the expiration an operation writes. *)
Definition op_version (op : Operation) : option Z :=
  match op with
  | SetOp _ _ r _ => Some (rec_version r)
  | HSet _ _ e _ => Some (rec_version (entry_record e))
  | Del _ _ v _ | SetExp _ _ _ v _ | HDel _ _ _ v _ | HSetExp _ _ _ _ v _ => Some v
  | _ => None
  end.

Definition op_expiration (op : Operation) : option Z :=
  match op with
  | SetOp _ _ r _ => Some (rec_expiration r)
  | HSet _ _ e _ => Some (rec_expiration (entry_record e))
  | SetExp _ _ e _ _ | HSetExp _ _ _ e _ _ => Some e
  | _ => None
  end.

Definition is_scan (op : Operation) : bool := match op with HScan _ _ _ _ _ => true | _ => false end.

(** Histories in which nothing expires, writes come in the order of their versions,
    and nothing is scanned. *)
Inductive regular (horizon : Z) : Z → list (Z * Operation) → Prop :=
| regular_nil v : regular horizon v []
| regular_cons v now op history :
    (now ≤ horizon)%Z → length (op_namespace op) = 21 → is_scan op = false →
    (∀ e, op_expiration op = Some e → horizon < e)%Z → (∀ v', op_version op = Some v' → v < v')%Z →
    regular horizon (default v (op_version op)) history → regular horizon v ((now, op) :: history).

(** Responses up to the versions of records. *)
Definition erase_version (r : Response) : Response :=
  match r with
  | ROk (OutRecord rec) =>
      ROk (OutRecord ((λ rec, {| rec_value := rec_value rec; rec_expiration := rec_expiration rec; rec_version := 0 |}) <$> rec))
  | _ => r
  end.

Section comparison.
Context `{Codecs} (hash_key : list Z → Z) (horizon : Z).
Implicit Types (self : Inner) (s : Store).

(** A record of the fake and what the store has. *)
Definition same_record (r : option Record) (c : option (DataContext bytes)) : Prop :=
  match r with
  | Some r => ∃ ctx, c = Some ctx ∧ dc_payload ctx = Some (rec_value r) ∧
      dc_expires ctx = rec_expiration r ∧ (horizon < rec_expiration r)%Z
  | None => ∀ ctx, c = Some ctx → dc_payload ctx = None
  end.

Record fake_follows (v : Z) self s : Prop := {
  ff_works : in_broken self = false ∧ in_expected_keyspace_version self = None;
  ff_kv ns key : length ns = 21 →
    same_record (in_kv self !! fake_key hash_key ns key) (st_strings s !! db_key hash_key ns key);
  ff_map ns key field : length ns = 21 →
    same_record (sub ← in_map self !! fake_key hash_key ns key; sub !! field)
      (st_maps s !! (db_key hash_key ns key, field));
  ff_version : (0 ≤ v)%Z;
  ff_strings k ctx : st_strings s !! k = Some ctx → (dc_version ctx ≤ v)%Z;
  ff_maps k ctx : st_maps s !! k = Some ctx → (dc_version ctx ≤ v)%Z;
}.

Lemma fake_key_inj ns ns' key key' :
  length ns = 21 → length ns' = 21 → fake_key hash_key ns key = fake_key hash_key ns' key' → ns = ns' ∧ key = key'.
Proof.
  intros Hns Hns' Heq. unfold fake_key in Heq. apply app_inj_1 in Heq as [_ Heq]; [|by rewrite !length_to_be_bytes].
  by apply app_inj_1 in Heq; [|congruence].
Qed.

(** Keys of different operations are different on both sides. *)
Lemma keys_cases ns ns' key key' :
  length ns = 21 → length ns' = 21 →
  (ns = ns' ∧ key = key') ∨
  fake_key hash_key ns key ≠ fake_key hash_key ns' key' ∧ db_key hash_key ns key ≠ db_key hash_key ns' key'.
Proof.
  intros Hns Hns'. destruct (decide (ns = ns' ∧ key = key')) as [?|Hne]; [by left|]. right. split.
  - by intros ?%fake_key_inj.
  - intros Heq. apply Hne. apply (db_key_inj hash_key); [congruence|done].
Qed.

(** A write of the store that is newer than everything there. *)
Lemma full_merge_newer (c : option (DataContext bytes)) v op :
  (0 ≤ v)%Z → (∀ ctx, c = Some ctx → dc_version ctx ≤ v)%Z → (v < mo_timestamp op)%Z →
  let ctx := full_merge c [op] in
  let old := default dc_default c in
  (dc_payload ctx, dc_expires ctx) = apply_kind (mo_kind op) (dc_payload old) (dc_expires old) ∧
  dc_version ctx = mo_timestamp op.
Proof.
  intros Hv Hold Hnew. unfold full_merge. cbn [foldl]. unfold ctx_merge.
  assert (dc_version (default dc_default c) ≤ v)%Z.
  { destruct c as [ctx|]; [by apply Hold|done]. }
  rewrite decide_False by lia. destruct (apply_kind _ _ _). done.
Qed.

Lemma same_record_answer now r c :
  (now ≤ horizon)%Z → same_record r c →
  (λ rec, {| rec_value := rec_value rec; rec_expiration := rec_expiration rec; rec_version := 0 |}) <$> r =
  (λ rec, {| rec_value := rec_value rec; rec_expiration := rec_expiration rec; rec_version := 0 |}) <$>
    (map_record <$> (c ≫= record_of now)) ∧
  rec_expiration <$> r = expiration_of now c.
Proof.
  intros Hnow Hsame. destruct r as [r|]; cbn in Hsame.
  - destruct Hsame as (ctx & -> & Hp & He & Hlt). unfold record_of, expiration_of, into_payload, expired. cbn.
    rewrite bool_decide_false by lia. rewrite Hp, He. done.
  - destruct c as [ctx|]; [|done]. specialize (Hsame ctx eq_refl). unfold record_of, expiration_of, into_payload. cbn.
    rewrite Hsame. rewrite bool_decide_true by done. rewrite orb_true_r. by destruct (expired now ctx).
Qed.

Lemma follows_kv_update v self s ns key op kv' :
  fake_follows v self s → length ns = 21 → (v < mo_timestamp op)%Z →
  (∀ k, k ≠ fake_key hash_key ns key → kv' !! k = in_kv self !! k) →
  same_record (kv' !! fake_key hash_key ns key)
    (Some (full_merge (st_strings s !! db_key hash_key ns key) [op])) →
  fake_follows (mo_timestamp op) (with_kv self kv') (merge_string s (db_key hash_key ns key) op).
Proof.
  intros [Hw Hkv Hmap Hv Hstr Hmaps] Hns Hnew Hother Hsame. split; cbn.
  - done.
  - intros ns' key' Hns'. destruct (keys_cases ns ns' key key' Hns Hns') as [[<- <-]|[Hf Hk]].
    + by rewrite lookup_insert_eq.
    + rewrite lookup_insert_ne, Hother by done. by apply Hkv.
  - done.
  - lia.
  - intros k ctx. rewrite lookup_insert_Some. intros [[<- <-]|[_ Hctx]].
    + exact (Z.eq_le_incl _ _ (proj2 (full_merge_newer _ v op Hv (Hstr _) Hnew))).
    + apply Hstr in Hctx. lia.
  - intros k ctx Hctx. apply Hmaps in Hctx. lia.
Qed.

Lemma follows_map_update v self s ns key field op m' :
  fake_follows v self s → length ns = 21 → (v < mo_timestamp op)%Z →
  (∀ k, k ≠ fake_key hash_key ns key → m' !! k = in_map self !! k) →
  (∀ f, f ≠ field → (sub ← m' !! fake_key hash_key ns key; sub !! f) =
                    (sub ← in_map self !! fake_key hash_key ns key; sub !! f)) →
  same_record (sub ← m' !! fake_key hash_key ns key; sub !! field)
    (Some (full_merge (st_maps s !! (db_key hash_key ns key, field)) [op])) →
  fake_follows (mo_timestamp op) (with_map self m') (merge_map s (db_key hash_key ns key) field op).
Proof.
  intros [Hw Hkv Hmap Hv Hstr Hmaps] Hns Hnew Hother Hfields Hsame. split; cbn.
  - done.
  - done.
  - intros ns' key' field' Hns'. destruct (keys_cases ns ns' key key' Hns Hns') as [[<- <-]|[Hf Hk]].
    + destruct (decide (field' = field)) as [->|Hne]; [by rewrite lookup_insert_eq|].
      rewrite lookup_insert_ne by congruence. rewrite Hfields by done. by apply Hmap.
    + rewrite lookup_insert_ne by congruence. rewrite Hother by done. by apply Hmap.
  - lia.
  - intros k ctx Hctx. apply Hstr in Hctx. lia.
  - intros k ctx. rewrite lookup_insert_Some. intros [[<- <-]|[_ Hctx]].
    + exact (Z.eq_le_incl _ _ (proj2 (full_merge_newer _ v op Hv (Hmaps _) Hnew))).
    + apply Hmaps in Hctx. lia.
Qed.

(** What the three kinds of writes make of a record. *)
Lemma same_set v c r :
  (0 ≤ v)%Z → (∀ ctx, c = Some ctx → dc_version ctx ≤ v)%Z → (v < rec_version r)%Z → (horizon < rec_expiration r)%Z →
  same_record (Some r) (Some (full_merge c [mo_set (rec_value r) (rec_expiration r) (rec_version r)])).
Proof.
  intros Hv Hold Hnew Hexp.
  destruct (full_merge_newer c v (mo_set (rec_value r) (rec_expiration r) (rec_version r)) Hv Hold Hnew) as [Heq _].
  cbn in Heq. injection Heq as Hp He. eexists. split_and!; [done|exact Hp|exact He|done].
Qed.

Lemma same_del v c now version :
  (0 ≤ v)%Z → (∀ ctx, c = Some ctx → dc_version ctx ≤ v)%Z → (v < version)%Z →
  same_record None (Some (full_merge c [mo_del now version])).
Proof.
  intros Hv Hold Hnew ctx [= <-]. destruct (full_merge_newer c v (mo_del now version) Hv Hold Hnew) as [Heq _].
  cbn in Heq. by injection Heq.
Qed.

Lemma same_set_exp v r c expiration version :
  (0 ≤ v)%Z → (∀ ctx, c = Some ctx → dc_version ctx ≤ v)%Z → (v < version)%Z → (horizon < expiration)%Z →
  same_record r c →
  same_record ((λ r, with_expiration r expiration) <$> r) (Some (full_merge c [mo_set_exp expiration version])).
Proof.
  intros Hv Hold Hnew Hexp Hsame.
  destruct (full_merge_newer c v (mo_set_exp expiration version) Hv Hold Hnew) as [Heq _].
  cbn in Heq. injection Heq as Hp He. destruct r as [r|]; cbn in *.
  - destruct Hsame as (ctx & -> & Hpay & _ & _). cbn in Hp. eexists. split_and!; [done| |exact He|done].
    etrans; [exact Hp|exact Hpay].
  - intros ctx [= <-]. etrans; [exact Hp|]. destruct c as [ctx|]; [by apply Hsame|done].
Qed.

(** ** Cardinalities *)

Lemma live_fields now s k f :
  f ∈ mrec_field <$> live_after now s k None ↔ is_Some (st_maps s !! (k, f) ≫= record_of now).
Proof.
  unfold live_after. rewrite list_elem_of_fmap. split.
  - intros (r & -> & (e & Hin & Hr)%list_elem_of_omap). destruct e as [f' c]. pose proof (live_record_field _ _ _ Hr) as Hf.
    cbn in Hf. rewrite Hf. apply elem_of_map_entries in Hin. rewrite Hin. unfold live_record in Hr. cbn in *.
    by destruct (record_of now c).
  - intros [r Hr]. destruct (st_maps s !! (k, f)) as [c|] eqn:Hc; [|done]. cbn in Hr.
    apply elem_of_map_entries in Hc. eexists. split; [|apply list_elem_of_omap; exists (f, c); split; [exact Hc|]].
    2: { unfold live_record. cbn. by rewrite Hr. }
    done.
Qed.

Lemma live_fields_NoDup now s k : NoDup (mrec_field <$> live_after now s k None).
Proof.
  unfold live_after. pose proof (map_entries_NoDup s k) as Hnd. induction (map_entries s k) as [|e l IH]; [constructor|].
  cbn in Hnd. apply NoDup_cons in Hnd as [Hnin Hnd]. cbn. destruct (live_record now e) as [r|] eqn:Hr; [|by apply IH].
  cbn. apply NoDup_cons. split; [|by apply IH]. apply live_record_field in Hr. rewrite Hr.
  intros (r' & Heq & (e' & Hin & Hr')%list_elem_of_omap)%list_elem_of_fmap. apply live_record_field in Hr'.
  apply Hnin, list_elem_of_fmap. exists e'. split; [congruence|done].
Qed.

Lemma same_cardinality v now self s ns key :
  fake_follows v self s → length ns = 21 → (now ≤ horizon)%Z →
  fake_hcard hash_key self ns key = wrap 64 (Z.of_nat (length (live_after now s (db_key hash_key ns key) None))).
Proof.
  intros Hf Hns Hnow. unfold fake_hcard.
  set (sub := default ∅ (in_map self !! fake_key hash_key ns key)).
  assert (default 0%Z ((λ sub : gmap bytes Record, wrap 64 (Z.of_nat (size sub))) <$> in_map self !! fake_key hash_key ns key) =
          wrap 64 (Z.of_nat (size sub))) as ->.
  { unfold sub. destruct (in_map self !! _); [done|]. cbn. by rewrite map_size_empty. }
  do 2 f_equal. rewrite <-(length_fmap mrec_field).
  rewrite <-length_map_to_list, <-(length_fmap fst). apply Permutation_length, NoDup_Permutation.
  - apply NoDup_fst_map_to_list.
  - apply live_fields_NoDup.
  - intros f. rewrite live_fields.
    pose proof (ff_map _ _ _ Hf ns key f Hns) as Hsame.
    assert ((sub0 ← in_map self !! fake_key hash_key ns key; sub0 !! f) = sub !! f) as Hsub.
    { unfold sub. destruct (in_map self !! _); [done|]. cbn. by rewrite lookup_empty. }
    rewrite Hsub in Hsame. destruct (same_record_answer now _ _ Hnow Hsame) as [Hrec _].
    transitivity (is_Some (sub !! f)).
    + rewrite list_elem_of_fmap. split.
      * intros ([f' r] & -> & Hin). apply elem_of_map_to_list in Hin. by exists r.
      * intros [r Hr]. exists (f, r). split; [done|]. by apply elem_of_map_to_list.
    + destruct (sub !! f), (st_maps s !! (db_key hash_key ns key, f) ≫= record_of now); try done;
        split; intros [? ?]; done || by eexists.
Qed.

(** ** Steps *)

Lemma fake_step v now self s op :
  fake_follows v self s → (now ≤ horizon)%Z → length (op_namespace op) = 21 → is_scan op = false →
  (∀ e, op_expiration op = Some e → horizon < e)%Z → (∀ v', op_version op = Some v' → v < v')%Z →
  erase_version (fake_execute hash_key self op).2 = erase_version (store_execute hash_key now s op).2 ∧
  fake_follows (default v (op_version op)) (fake_execute hash_key self op).1 (store_execute hash_key now s op).1.
Proof.
  intros Hf Hnow Hns Hscan Hexp Hver. pose proof Hf as [[Hbr Hev] Hkv Hmap Hv Hstr Hmaps].
  unfold fake_execute. rewrite Hbr, Hev. rewrite decide_False by (intros [? _]; done).
  destruct op; cbn [op_namespace op_version op_expiration is_scan default from_option id] in *;
    try (specialize (Hver _ eq_refl)); try (specialize (Hexp _ eq_refl)); cbn [fst snd store_execute];
    try done; (split; [try done|try done]).
  - cbn. do 2 f_equal. exact (proj1 (same_record_answer now _ _ Hnow (Hkv ns key Hns))).
  - apply (follows_kv_update v self s ns key (mo_set (rec_value record) (rec_expiration record) (rec_version record))); [done|done|done| |].
    + intros k Hne. by rewrite lookup_insert_ne.
    + rewrite lookup_insert_eq. apply (same_set v); [done|apply Hstr|done|done].
  - apply (follows_kv_update v self s ns key (mo_del now version)); [done|done|done| |].
    + intros k Hne. by rewrite lookup_delete_ne.
    + rewrite lookup_delete_eq. apply (same_del v); [done|apply Hstr|done].
  - cbn. do 2 f_equal. exact (proj2 (same_record_answer now _ _ Hnow (Hkv ns key Hns))).
  - pose proof (same_set_exp v _ _ expiration version Hv (Hstr _) Hver Hexp (Hkv ns key Hns)) as Hsame.
    unfold fake_set_exp. destruct (in_kv self !! fake_key hash_key ns key) as [r|] eqn:Hr.
    + apply (follows_kv_update v self s ns key (mo_set_exp expiration version)); [done|done|done| |].
      * intros k Hne. by rewrite lookup_insert_ne.
      * by rewrite lookup_insert_eq.
    + assert (self = with_kv self (in_kv self)) as -> by by destruct self.
      apply (follows_kv_update v self s ns key (mo_set_exp expiration version)); [done|done|done|done|]. by rewrite Hr.
  - cbn. do 2 f_equal. exact (proj1 (same_record_answer now _ _ Hnow (Hmap ns key field Hns))).
  - apply (follows_map_update v self s ns key (entry_field entry) (mo_set (rec_value (entry_record entry)) (rec_expiration (entry_record entry)) (rec_version (entry_record entry)))); [done|done|done| | |].
    + intros k Hne. by rewrite lookup_insert_ne.
    + intros f Hne. rewrite lookup_insert_eq. cbn. rewrite lookup_insert_ne by done.
      destruct (in_map self !! _); [done|]. cbn. by rewrite lookup_empty.
    + rewrite lookup_insert_eq. cbn. rewrite lookup_insert_eq. apply (same_set v); [done|apply Hmaps|done|done].
  - unfold fake_hdel. destruct (in_map self !! fake_key hash_key ns key) as [sub|] eqn:Hsub.
    + apply (follows_map_update v self s ns key field (mo_del now version)); [done|done|done| | |].
      * intros k Hne. case_decide; [by rewrite lookup_delete_ne|by rewrite lookup_insert_ne].
      * intros f Hne. rewrite Hsub. case_decide as Hd.
        -- rewrite lookup_delete_eq. cbn. rewrite <-(lookup_delete_ne sub field f), Hd by done. by rewrite lookup_empty.
        -- rewrite lookup_insert_eq. cbn. by rewrite lookup_delete_ne.
      * case_decide; [rewrite lookup_delete_eq|rewrite lookup_insert_eq; cbn; rewrite lookup_delete_eq];
          (apply (same_del v); [done|apply Hmaps|done]).
    + assert (self = with_map self (in_map self)) as -> by by destruct self.
      apply (follows_map_update v self s ns key field (mo_del now version)); [done|done|done|done|done|]. rewrite Hsub. apply (same_del v); [done|apply Hmaps|done].
  - cbn. do 2 f_equal. unfold fake_hget_exp.
    destruct (same_record_answer now _ _ Hnow (Hmap ns key field Hns)) as [_ Hexp'].
    rewrite <-Hexp'. by destruct (in_map self !! _).
  - pose proof (same_set_exp v _ _ expiration version Hv (Hmaps _) Hver Hexp (Hmap ns key field Hns)) as Hsame.
    unfold fake_hset_exp. destruct (in_map self !! fake_key hash_key ns key) as [sub|] eqn:Hsub; cbn in Hsame.
    + destruct (sub !! field) as [r|] eqn:Hr.
      * apply (follows_map_update v self s ns key field (mo_set_exp expiration version)); [done|done|done| | |].
        -- intros k Hne. by rewrite lookup_insert_ne.
        -- intros f Hne. rewrite lookup_insert_eq, Hsub. cbn. by rewrite lookup_insert_ne.
        -- rewrite lookup_insert_eq. cbn. by rewrite lookup_insert_eq.
      * assert (self = with_map self (in_map self)) as -> by by destruct self.
        apply (follows_map_update v self s ns key field (mo_set_exp expiration version)); [done|done|done|done|done|]. rewrite Hsub. cbn. by rewrite Hr.
    + assert (self = with_map self (in_map self)) as -> by by destruct self.
      apply (follows_map_update v self s ns key field (mo_set_exp expiration version)); [done|done|done|done|done|]. by rewrite Hsub.
  - cbn. do 2 f_equal. by eapply same_cardinality.
Qed.

Lemma fake_follows_initial : fake_follows 0 inner_default store_empty.
Proof. split; try done; intros; cbn in *; by rewrite lookup_empty in *. Qed.

Lemma fake_run_follows v self s history :
  fake_follows v self s → regular horizon v history →
  Forall2 (λ r r', erase_version r = erase_version r')
    (fake_run hash_key self history.*2).2 (store_run hash_key s history).2.
Proof.
  intros Hf Hreg. revert self s Hf. induction Hreg as [|v now op history Hnow Hns Hscan Hexp Hver Hreg IH]; intros self s Hf.
  { constructor. }
  destruct (fake_step v now self s op Hf Hnow Hns Hscan Hexp Hver) as [Hr Hf'].
  cbn. destruct (fake_execute hash_key self op) as [self' r] eqn:Hfe, (store_execute hash_key now s op) as [s' r'] eqn:Hse.
  cbn in Hr, Hf'. specialize (IH self' s' Hf').
  destruct (fake_run hash_key self' history.*2), (store_run hash_key s' history). by constructor.
Qed.

(** The storage the tests use answers as the store does: for every history that starts empty,
    in which writes arrive in the order of their versions, nothing expires and nothing is scanned,
    the fake storage and the store that the database refines give the same responses in order,
    values, expirations and cardinalities included. Record versions alone are not compared,
    because a change of expiration leaves the fake's record at its old version. *)
Theorem fake_storage_faithful history :
  regular horizon 0 history →
  Forall2 (λ r r', erase_version r = erase_version r')
    (fake_run hash_key inner_default history.*2).2 (store_run hash_key store_empty history).2.
Proof. apply fake_run_follows, fake_follows_initial. Qed.
End comparison.

(** * Where the fake differs *)

Section differences.
Context (hash_key : list Z → Z).
Implicit Types self : Inner.

(** The maps are filed under keys of at least 29 bytes. *)
Definition long_keys self : Prop := ∀ k sub, in_map self !! k = Some sub → 29 ≤ length k.

Lemma length_fake_key ns key : length ns = 21 → 29 ≤ length (fake_key hash_key ns key).
Proof. intros Hns. unfold fake_key. rewrite !length_app, length_to_be_bytes, Hns. lia. Qed.

Lemma long_keys_insert self ns key sub :
  long_keys self → length ns = 21 → long_keys (with_map self (<[fake_key hash_key ns key := sub]> (in_map self))).
Proof.
  intros Hl Hns k sub'. cbn. rewrite lookup_insert_Some. intros [[<- _]|[_ Hk]]; [by apply length_fake_key|by eapply Hl].
Qed.

Lemma long_keys_step self op :
  long_keys self → length (op_namespace op) = 21 → long_keys (fake_execute hash_key self op).1.
Proof.
  intros Hl Hns. unfold fake_execute. destruct (in_broken self); [done|]. case_decide; [done|].
  destruct op; try done; cbn [fst op_namespace] in *.
  - unfold fake_set_exp. by destruct (in_kv self !! _).
  - by apply long_keys_insert.
  - unfold fake_hdel. destruct (in_map self !! _) as [sub|]; [|done]. cbn zeta.
    case_decide; [|by apply long_keys_insert]. intros k sub'. cbn. rewrite lookup_delete_Some. intros [_ Hk]. by eapply Hl.
  - unfold fake_hset_exp. destruct (in_map self !! _) as [sub|]; [|done].
    destruct (sub !! _); [by apply long_keys_insert|done].
Qed.

Lemma long_keys_run self ops :
  long_keys self → Forall (λ op, length (op_namespace op) = 21) ops → long_keys (fake_run hash_key self ops).1.
Proof.
  intros Hl Hops. revert self Hl. induction Hops as [|op ops Hop _ IH]; intros self Hl; [done|].
  cbn. pose proof (long_keys_step self op Hl Hop) as Hl'. destruct (fake_execute hash_key self op) as [self' r].
  specialize (IH self' Hl'). by destruct (fake_run hash_key self' ops).
Qed.

(** The fake storage never finds a map it is asked to scan: after any operations, [hscan] of a key
    shorter than 29 bytes answers an empty last page, whatever was written to the map, because it looks
    the map up under the bare key and maps are filed under hash, namespace and key. *)
Theorem fake_hscan_misses ops ns key count cursor version :
  Forall (λ op, length (op_namespace op) = 21) ops → length key < 29 →
  let self := (fake_run hash_key inner_default ops).1 in
  in_broken self = false → in_expected_keyspace_version self = None →
  (fake_execute hash_key self (HScan ns key count cursor version)).2 =
    ROk (OutMapPage {| page_entries := []; page_has_next := false |}).
Proof.
  intros Hops Hkey self Hbr Hev. assert (long_keys self) as Hl by by apply long_keys_run.
  unfold fake_execute. rewrite Hbr, Hev, decide_False by (intros [? _]; done). cbn. unfold fake_hscan.
  destruct (in_map self !! key) as [sub|] eqn:Hsub; [|done]. apply Hl in Hsub. lia.
Qed.

Lemma bytes_le_own_prefix (p x : bytes) : bytes_le (p ++ x) p → x = [].
Proof.
  unfold bytes_le. induction p as [|a p IH]; cbn; [by destruct x|].
  rewrite decide_False by lia. by rewrite decide_True.
Qed.

(** [read_data] leaves out the records whose hash is the end of the range it is asked for. *)
Lemma fake_read_misses_end {V} (m : gmap bytes V) start ns key v :
  length ns = 21 → (fake_key hash_key ns key, v) ∉ btree_range start (to_be_bytes 8 (hash_key key)) m.
Proof.
  intros Hns [[_ Hle] _]%list_elem_of_filter. apply bytes_le_own_prefix in Hle.
  by destruct ns.
Qed.
End differences.

(** * Witnesses *)

Definition fake_history : list (Z * Operation) :=
  [(5%Z, HSet toy_ns [1%Z] {| entry_field := [7%Z];
      entry_record := {| rec_value := [9%Z]; rec_expiration := 100; rec_version := 1 |} |} None);
   (6%Z, HSetExp toy_ns [1%Z] [7%Z] 200 2 None);
   (7%Z, HGet toy_ns [1%Z] [7%Z] None);
   (8%Z, HCard toy_ns [1%Z] None)].

Lemma fake_history_regular : regular 10 0 fake_history.
Proof.
  unfold fake_history.
  repeat (apply regular_cons; [lia|done|done|cbn; intros ? ?; simplify_eq; lia|cbn; intros ? ?; simplify_eq; lia|cbn]).
  constructor.
Qed.

Lemma fake_storage_faithful_witness :
  regular 10 0 fake_history ∧
  (fake_run toy_hash inner_default fake_history.*2).2 !! 2 =
    Some (ROk (OutRecord (Some {| rec_value := [9%Z]; rec_expiration := 200; rec_version := 1 |}))) ∧
  Forall2 (λ r r', erase_version r = erase_version r')
    (fake_run toy_hash inner_default fake_history.*2).2 (@store_run toy_codecs toy_hash store_empty fake_history).2.
Proof.
  split; [apply fake_history_regular|]. split; [by vm_compute|].
  apply (@fake_storage_faithful toy_codecs toy_hash 10). apply fake_history_regular.
Defined.

Lemma fake_hscan_misses_witness :
  (fake_execute toy_hash (fake_run toy_hash inner_default fake_history.*2).1 (HScan toy_ns [1%Z] 10 None None)).2 =
    ROk (OutMapPage {| page_entries := []; page_has_next := false |}).
Proof.
  apply (fake_hscan_misses toy_hash fake_history.*2 toy_ns [1%Z] 10 None None);
    [by repeat constructor|cbn; lia|by vm_compute|by vm_compute].
Defined.
