(* ===== verification/RpcStorage.v ===== *)
(** RpcStorage: the storage API over RPC (src/crates/storage_api/src/rpc): its
    ids and messages, the handlers of the server and the calls of the client, for
    operations and for data streams. *)
From S2P Require Import Prelude External StorageApi Replica RocksKeys Database ClientLib.
From S2P Require Import Rpc RpcClient RpcCall.
From stdpp Require Import prelude countable list strings.

(** * Ids *)

Inductive RpcId :=
| IdGet | IdSet | IdDel | IdSetExp | IdGetExp
| IdHGet | IdHSet | IdHDel | IdHSetExp | IdHGetExp | IdHCard | IdHScan
| IdReadData | IdWriteData.

Definition rpc_id_as_u8 (id : RpcId) : Z :=
  match id with
  | IdGet => 0 | IdSet => 1 | IdDel => 2 | IdSetExp => 3 | IdGetExp => 4
  | IdHGet => 5 | IdHSet => 6 | IdHDel => 7 | IdHSetExp => 8 | IdHGetExp => 9
  | IdHCard => 10 | IdHScan => 11 | IdReadData => 12 | IdWriteData => 13
  end%Z.

Definition rpc_ids : list RpcId :=
  [IdGet; IdSet; IdDel; IdSetExp; IdGetExp; IdHGet; IdHSet; IdHDel; IdHSetExp; IdHGetExp;
   IdHCard; IdHScan; IdReadData; IdWriteData].

(** [Id::try_from(u8)]. *)
Definition rpc_id_try_from (z : Z) : option RpcId :=
  if decide (0 ≤ z)%Z then rpc_ids !! Z.to_nat z else None.

(** [rpc_timeout_]. *)
Definition rpc_timeout_of (rpc_timeout : option Z) (id : RpcId) : option Z :=
  match id with IdReadData | IdWriteData => None | _ => rpc_timeout end.

(** * Messages *)

Inductive ReadDataResponse :=
| Ack (r : () + RpcError)
| Item (r : DataItem + RpcError).

Definition KeyReq : Type := Namespace * list Z * option Z.
Definition SetReq : Type := Namespace * list Z * Record * option Z.
Definition DelReq : Type := Namespace * list Z * Z * option Z.
Definition SetExpReq : Type := Namespace * list Z * Z * Z * option Z.
Definition FieldReq : Type := Namespace * list Z * list Z * option Z.
Definition HSetReq : Type := Namespace * list Z * MapEntry * option Z.
Definition HDelReq : Type := Namespace * list Z * list Z * Z * option Z.
Definition HSetExpReq : Type := Namespace * list Z * list Z * Z * Z * option Z.
Definition HScanReq : Type := Namespace * list Z * Z * option (list Z) * option Z.
Definition ReadDataRequest : Type := (Z * Z) * Z.

Class StorageMessages := {
  msg_key :: PostcardType KeyReq; msg_set :: PostcardType SetReq; msg_del :: PostcardType DelReq;
  msg_set_exp :: PostcardType SetExpReq; msg_field :: PostcardType FieldReq; msg_hset :: PostcardType HSetReq;
  msg_hdel :: PostcardType HDelReq; msg_hset_exp :: PostcardType HSetExpReq; msg_hscan :: PostcardType HScanReq;
  msg_record_result :: PostcardType (option Record + RpcError);
  msg_expiration_result :: PostcardType (option Z + RpcError);
  msg_page_result :: PostcardType (MapPage + RpcError);
  msg_card_result :: PostcardType (Z + RpcError);
  msg_unit_result :: PostcardType (() + RpcError);
  msg_read_request :: PostcardType ReadDataRequest;
  msg_read_response :: PostcardType ReadDataResponse;
  msg_item :: PostcardType DataItem;
}.

Class StorageMessagesLaws `{StorageMessages} := {
  msgl_key :: PostcardTypeLaws KeyReq; msgl_set :: PostcardTypeLaws SetReq; msgl_del :: PostcardTypeLaws DelReq;
  msgl_set_exp :: PostcardTypeLaws SetExpReq; msgl_field :: PostcardTypeLaws FieldReq;
  msgl_hset :: PostcardTypeLaws HSetReq; msgl_hdel :: PostcardTypeLaws HDelReq;
  msgl_hset_exp :: PostcardTypeLaws HSetExpReq; msgl_hscan :: PostcardTypeLaws HScanReq;
  msgl_record_result :: PostcardTypeLaws (option Record + RpcError);
  msgl_expiration_result :: PostcardTypeLaws (option Z + RpcError);
  msgl_page_result :: PostcardTypeLaws (MapPage + RpcError);
  msgl_card_result :: PostcardTypeLaws (Z + RpcError);
  msgl_unit_result :: PostcardTypeLaws (() + RpcError);
  msgl_read_request :: PostcardTypeLaws ReadDataRequest;
  msgl_read_response :: PostcardTypeLaws ReadDataResponse;
  msgl_item :: PostcardTypeLaws DataItem;
}.

Section rpc_storage.
Context `{PeerIds} (max_frame_length : nat).

#[local] Abbreviation server_send := (RpcCall.server_send max_frame_length).
#[local] Abbreviation client_send := (RpcCall.client_send max_frame_length).
#[local] Abbreviation handle_unary := (RpcCall.handle_unary max_frame_length).
#[local] Abbreviation send_request := (RpcCall.send_request max_frame_length).
#[local] Abbreviation send_all := (RpcCall.send_all max_frame_length).
#[local] Abbreviation fits_frame := (RpcCall.fits_frame max_frame_length).

(** * The server *)

Context `{StorageMessages}.

(** [StorageApi] as the handlers use it. *)
Record Backend := {
  sb_execute : Operation → Response;
  sb_read_data : Z * Z → Z → res Error (list (DataItem + Error));
  sb_write_data : list (DataItem + Error) → res Error ();
}.

(** [RpcHandler]: the request becomes an operation, and the responder downcasts
    the output. *)
Definition handle_operation (sb : Backend) (id : RpcId) (request : list (list Z))
    : res RpcServerError (list (list Z)) :=
  match id with
  | IdGet => handle_unary (λ r : KeyReq, let '(ns, key, kv) := r in
      responder_result as_record (sb_execute sb (Get ns key kv))) request
  | IdSet => handle_unary (λ r : SetReq, let '(ns, key, record, kv) := r in
      responder_result as_unit (sb_execute sb (SetOp ns key record kv))) request
  | IdDel => handle_unary (λ r : DelReq, let '(ns, key, version, kv) := r in
      responder_result as_unit (sb_execute sb (Del ns key version kv))) request
  | IdGetExp => handle_unary (λ r : KeyReq, let '(ns, key, kv) := r in
      responder_result as_expiration (sb_execute sb (GetExp ns key kv))) request
  | IdSetExp => handle_unary (λ r : SetExpReq, let '(ns, key, e, version, kv) := r in
      responder_result as_unit (sb_execute sb (SetExp ns key e version kv))) request
  | IdHGet => handle_unary (λ r : FieldReq, let '(ns, key, field, kv) := r in
      responder_result as_record (sb_execute sb (HGet ns key field kv))) request
  | IdHSet => handle_unary (λ r : HSetReq, let '(ns, key, entry, kv) := r in
      responder_result as_unit (sb_execute sb (HSet ns key entry kv))) request
  | IdHDel => handle_unary (λ r : HDelReq, let '(ns, key, field, version, kv) := r in
      responder_result as_unit (sb_execute sb (HDel ns key field version kv))) request
  | IdHGetExp => handle_unary (λ r : FieldReq, let '(ns, key, field, kv) := r in
      responder_result as_expiration (sb_execute sb (HGetExp ns key field kv))) request
  | IdHSetExp => handle_unary (λ r : HSetExpReq, let '(ns, key, field, e, version, kv) := r in
      responder_result as_unit (sb_execute sb (HSetExp ns key field e version kv))) request
  | IdHCard => handle_unary (λ r : KeyReq, let '(ns, key, kv) := r in
      responder_result as_cardinality (sb_execute sb (HCard ns key kv))) request
  | IdHScan => handle_unary (λ r : HScanReq, let '(ns, key, count, cursor, kv) := r in
      responder_result as_page (sb_execute sb (HScan ns key count cursor kv))) request
  | IdReadData | IdWriteData => Ok []
  end.

Definition to_result {A} (r : res Error A) : () + RpcError :=
  match r with Err e => inr (error_to_rpc e) | _ => inl () end.

(** [RpcHandler::read_data]. *)
Definition handle_read_data (sb : Backend) (request : list (list Z))
    : res RpcServerError (list (list Z)) :=
  bytes ← ok_or (head request) SeStreamFinished;
  req ← (map_err SeCodec (message_deserialize bytes) : res RpcServerError ReadDataRequest);
  match sb_read_data sb req.1 req.2 with
  | Ok data =>
      Ok (send_all (Ack (inl ()) ::
        ((λ r, Item (match r with inl item => inl item | inr e => inr (error_to_rpc e) end)) <$> data)))
  | Err e => Ok (send_all [Ack (inr (error_to_rpc e))])
  | Panic => Panic
  end.

(** [RpcHandler::write_data]; [show_server] renders the errors of the stream. *)
Definition handle_write_data (show_server : RpcServerError → string) (sb : Backend)
    (request : list (list Z)) : res RpcServerError (list (list Z)) :=
  let data_stream := (λ bytes,
    match map_err SeCodec (message_deserialize bytes) with
    | Ok item => inl item
    | Err e => inr (error_with_message (error_new Internal) (show_server e))
    | Panic => inr (error_new Internal)
    end) <$> request in
  match sb_write_data sb data_stream with
  | Panic => Panic
  | r => response ← server_send (to_result r); Ok [response]
  end.

(** [handle_connection] for the stream of one RPC, after its id was read. *)
Definition serve_rpc (show_server : RpcServerError → string) (rpc_timeout : option Z) (elapsed : Z)
    (sb : Backend) (id : Z) (request : list (list Z)) : list (list Z) :=
  match rpc_id_try_from id with
  | None => []
  | Some id =>
      handle (rpc_timeout_of rpc_timeout id) elapsed
        match id with
        | IdReadData => handle_read_data sb request
        | IdWriteData => handle_write_data show_server sb request
        | _ => handle_operation sb id request
        end
  end.

(** [handle_connection] of the storage APIs before that: [new_storage_api] gives
    the API for the peer, or an error whose code is the reason of the rejection. *)
Definition storage_handle_connection (new_storage_api : PeerId → res Error ()) : Handler := λ peer,
  match new_storage_api peer with
  | Ok _ => Accepted
  | Err err => Rejected (rpc_code (error_to_rpc err))
  | Panic => Failed SeStreamFinished
  end.

(** * The client *)

Context (fmt : Z → string) (show_client : RpcClientError → string).

(** [From<wcn_rpc::client::Error> for Error]. *)
Definition rpc_transport_error (err : RpcClientError) : Error :=
  error_with_message (error_new Transport) ("wcn_rpc::client::Error: " +:+ show_client err).

(** [into]. *)
Definition into_output {T} (f : T → Output) (r : T + RpcError) : Response :=
  match r with
  | inl t => ROk (f t)
  | inr e => RErr (error_from_rpc fmt e)
  end.

Definition op_rpc_id (op : Operation) : RpcId :=
  match op with
  | Get _ _ _ => IdGet | SetOp _ _ _ _ => IdSet | Del _ _ _ _ => IdDel
  | GetExp _ _ _ => IdGetExp | SetExp _ _ _ _ _ => IdSetExp
  | HGet _ _ _ _ => IdHGet | HSet _ _ _ _ => IdHSet | HDel _ _ _ _ _ => IdHDel
  | HGetExp _ _ _ _ => IdHGetExp | HSetExp _ _ _ _ _ _ => IdHSetExp
  | HCard _ _ _ => IdHCard | HScan _ _ _ _ _ => IdHScan
  end.

(** The RPC of an operation, given the streams. *)
Definition request_operation (serve : Z → list (list Z) → list (list Z)) (op : Operation)
    : res RpcClientError Response :=
  let id := op_rpc_id op in
  match op with
  | Get ns key kv =>
      into_output OutRecord <$> send_request serve (rpc_id_as_u8 id) ((ns, key, kv) : KeyReq)
  | SetOp ns key record kv =>
      into_output (λ _ : (), OutNone) <$> send_request serve (rpc_id_as_u8 id) ((ns, key, record, kv) : SetReq)
  | Del ns key version kv =>
      into_output (λ _ : (), OutNone) <$> send_request serve (rpc_id_as_u8 id) ((ns, key, version, kv) : DelReq)
  | GetExp ns key kv =>
      into_output OutExpiration <$> send_request serve (rpc_id_as_u8 id) ((ns, key, kv) : KeyReq)
  | SetExp ns key e version kv =>
      into_output (λ _ : (), OutNone) <$> send_request serve (rpc_id_as_u8 id) ((ns, key, e, version, kv) : SetExpReq)
  | HGet ns key field kv =>
      into_output OutRecord <$> send_request serve (rpc_id_as_u8 id) ((ns, key, field, kv) : FieldReq)
  | HSet ns key entry kv =>
      into_output (λ _ : (), OutNone) <$> send_request serve (rpc_id_as_u8 id) ((ns, key, entry, kv) : HSetReq)
  | HDel ns key field version kv =>
      into_output (λ _ : (), OutNone) <$> send_request serve (rpc_id_as_u8 id) ((ns, key, field, version, kv) : HDelReq)
  | HGetExp ns key field kv =>
      into_output OutExpiration <$> send_request serve (rpc_id_as_u8 id) ((ns, key, field, kv) : FieldReq)
  | HSetExp ns key field e version kv =>
      into_output (λ _ : (), OutNone) <$>
        send_request serve (rpc_id_as_u8 id) ((ns, key, field, e, version, kv) : HSetExpReq)
  | HCard ns key kv =>
      into_output OutCardinality <$> send_request serve (rpc_id_as_u8 id) ((ns, key, kv) : KeyReq)
  | HScan ns key count cursor kv =>
      into_output OutMapPage <$> send_request serve (rpc_id_as_u8 id) ((ns, key, count, cursor, kv) : HScanReq)
  end.

(** [execute_ref] of a [Connection]. *)
Definition rpc_execute_ref (env : QuicEnv) (conn : Conn) (rpc_timeout : option Z) (elapsed : Z)
    (serve : Z → list (list Z) → list (list Z)) (op : Operation) : Conn * res Empty_set Response :=
  let id := op_rpc_id op in
  let '(conn, r) := send env conn (rpc_id_as_u8 id) true (rpc_timeout_of rpc_timeout id) elapsed
    (request_operation serve op) in
  (conn, match r with
         | Ok response => Ok response
         | Err e => Ok (RErr (rpc_transport_error e))
         | Panic => Panic
         end).

(** [StorageApi::read_data] of a [Connection]: the stream of items, once the
    server has acknowledged the request. *)
Definition rpc_read_data (serve : Z → list (list Z) → list (list Z)) (keyrange : Z * Z)
    (keyspace_version : Z) : res Error (list (DataItem + Error)) :=
  bytes ← map_err rpc_transport_error (client_send ((keyrange, keyspace_version) : ReadDataRequest));
  let response := serve (rpc_id_as_u8 IdReadData) [bytes] in
  first ← ok_or (head response) (rpc_transport_error CeStreamFinished);
  ack ← map_err (λ e, rpc_transport_error (CeCodec e)) (message_deserialize first);
  match ack with
  | Ack (inl _) =>
      Ok ((λ bytes, match message_deserialize bytes with
                    | Ok (Item (inl item)) => inl item
                    | Ok (Item (inr e)) => inr (error_from_rpc fmt e)
                    | Ok (Ack _) => inr (rpc_transport_error (CeWrongResponse "Ack"))
                    | Err e => inr (rpc_transport_error (CeCodec e))
                    | Panic => inr (rpc_transport_error (CeCodec EmptyString))
                    end) <$> tail response)
  | Ack (inr e) => Err (error_from_rpc fmt e)
  | Item _ => Err (rpc_transport_error (CeWrongResponse "Item"))
  end.

(** [stream.forward(sink)]: items are sent until the first error of the stream or
    of the sink; [sink_fails] says which sends fail.  The frames that were sent,
    and the result. *)
Fixpoint forward (sink_fails : nat → option string) (i : nat) (stream : list (DataItem + Error))
    : list (list Z) * res Error () :=
  match stream with
  | [] => ([], Ok ())
  | inr e :: _ => ([], Err e)
  | inl item :: stream =>
      match client_send item, sink_fails i with
      | Ok bytes, None => let '(sent, r) := forward sink_fails (S i) stream in (bytes :: sent, r)
      | Ok _, Some e => ([], Err (rpc_transport_error (CeIo e)))
      | Err e, _ => ([], Err (rpc_transport_error e))
      | Panic, _ => ([], Panic)
      end
  end.

(** [write_data] of a [Connection]: what the server gets, and the result. *)
Definition rpc_write_data (sink_fails : nat → option string) (stream : list (DataItem + Error))
    : list (list Z) * res Error () := forward sink_fails 0 stream.

Lemma rpc_id_roundtrip id : rpc_id_try_from (rpc_id_as_u8 id) = Some id.
Proof. by destruct id. Qed.

(** Both frames of an operation fit. *)
Definition op_frames_fit (sb : Backend) (op : Operation) : Prop :=
  match op with
  | Get ns key kv => fits_frame ((ns, key, kv) : KeyReq) ∧
      fits_frame (responder_result as_record (sb_execute sb op))
  | SetOp ns key record kv => fits_frame ((ns, key, record, kv) : SetReq) ∧
      fits_frame (responder_result as_unit (sb_execute sb op))
  | Del ns key version kv => fits_frame ((ns, key, version, kv) : DelReq) ∧
      fits_frame (responder_result as_unit (sb_execute sb op))
  | GetExp ns key kv => fits_frame ((ns, key, kv) : KeyReq) ∧
      fits_frame (responder_result as_expiration (sb_execute sb op))
  | SetExp ns key e version kv => fits_frame ((ns, key, e, version, kv) : SetExpReq) ∧
      fits_frame (responder_result as_unit (sb_execute sb op))
  | HGet ns key field kv => fits_frame ((ns, key, field, kv) : FieldReq) ∧
      fits_frame (responder_result as_record (sb_execute sb op))
  | HSet ns key entry kv => fits_frame ((ns, key, entry, kv) : HSetReq) ∧
      fits_frame (responder_result as_unit (sb_execute sb op))
  | HDel ns key field version kv => fits_frame ((ns, key, field, version, kv) : HDelReq) ∧
      fits_frame (responder_result as_unit (sb_execute sb op))
  | HGetExp ns key field kv => fits_frame ((ns, key, field, kv) : FieldReq) ∧
      fits_frame (responder_result as_expiration (sb_execute sb op))
  | HSetExp ns key field e version kv =>
      fits_frame ((ns, key, field, e, version, kv) : HSetExpReq) ∧
      fits_frame (responder_result as_unit (sb_execute sb op))
  | HCard ns key kv => fits_frame ((ns, key, kv) : KeyReq) ∧
      fits_frame (responder_result as_cardinality (sb_execute sb op))
  | HScan ns key count cursor kv => fits_frame ((ns, key, count, cursor, kv) : HScanReq) ∧
      fits_frame (responder_result as_page (sb_execute sb op))
  end.

Context `{!StorageMessagesLaws} (show_server : RpcServerError → string).

(** What the client makes of the typed result is what [connection_execute_ref]
    makes of the output. *)
Lemma into_output_downcast {T} (f : T → Output) (as_ : Output → option T) op r :
  (∀ out, as_ out = match decide (output_kind out = rpc_output_kind op) with
                    | left _ => as_ out | right _ => None end) →
  (∀ out t, as_ out = Some t → f t = out) →
  (∀ out, output_kind out = rpc_output_kind op → is_Some (as_ out)) →
  into_output f (responder_result as_ r) =
    match responder_result (downcast op) r with
    | inl out => ROk out
    | inr err => RErr (error_from_rpc fmt err)
    end.
Proof.
  intros Has Hf Htot. destruct r as [out|e]; [|done]. unfold responder_result, downcast.
  case_decide as Hk.
  - destruct (Htot out Hk) as [t Ht]. rewrite Ht. cbn. by rewrite (Hf _ _ Ht).
  - specialize (Has out). rewrite decide_False in Has by done. by rewrite Has.
Qed.

Lemma unary_operation_exact `{MessageLaws Req, MessageLaws Resp} sb op timeout elapsed
    (handler : Req → Resp) req resp (f : Resp → Response) :
  (∀ bytes, serve_rpc show_server timeout elapsed sb (rpc_id_as_u8 (op_rpc_id op)) [bytes] =
     handle timeout elapsed (handle_unary handler [bytes])) →
  handler req = resp → f resp = connection_execute_ref fmt None (sb_execute sb) op →
  let r := f <$> send_request (serve_rpc show_server timeout elapsed sb) (rpc_id_as_u8 (op_rpc_id op)) req in
  let answer := connection_execute_ref fmt None (sb_execute sb) op in
  (r = Ok answer ∨ ∃ e, r = Err e) ∧
  (fits_frame req ∧ fits_frame resp → (∀ t, timeout = Some t → (elapsed < t)%Z) → r = Ok answer).
Proof.
  intros Hserve <- Hf. cbn zeta.
  destruct (send_request_exact max_frame_length handler _ _ req _ _ Hserve) as [Hcases Hok]. split.
  - destruct Hcases as [->|[e ->]]; [left; cbn; by rewrite Hf|right; by exists e].
  - intros [Hreq Hresp] Hin. rewrite (Hok Hreq Hresp Hin). cbn. by rewrite Hf.
Qed.

Lemma request_operation_exact sb op timeout elapsed :
  let r := request_operation (serve_rpc show_server timeout elapsed sb) op in
  let answer := connection_execute_ref fmt None (sb_execute sb) op in
  (r = Ok answer ∨ ∃ e, r = Err e) ∧
  (op_frames_fit sb op → (∀ t, timeout = Some t → (elapsed < t)%Z) → r = Ok answer).
Proof.
  destruct op; cbn [request_operation op_frames_fit];
    (eapply unary_operation_exact; [intros bytes; reflexivity|reflexivity|];
     apply into_output_downcast; [by intros []|by intros [] ? ?; simplify_eq/=|by intros []]).
Qed.

(** What an item or its error looks like at the other end. *)
Definition wired (r : DataItem + Error) : DataItem + Error :=
  match r with inl item => inl item | inr e => inr (error_from_rpc fmt (error_to_rpc e)) end.

Definition item_message (r : DataItem + Error) : ReadDataResponse :=
  Item (match r with inl item => inl item | inr e => inr (error_to_rpc e) end).

(** * Theorems *)

Definition in_time (timeout : option Z) (elapsed : Z) : Prop :=
  ∀ t, timeout = Some t → (elapsed < t)%Z.

(** C8. The storage API over RPC is the storage API: an operation sent over a
    connection gets the response the remote API gives, with the error codes of
    the wire in between ([connection_execute_ref], which the model of replicas
    uses), or a transport error; and it is no transport error if the connection
    works, both sides are in time and the frames are not too long.  Every one of
    the twelve RPCs reaches its own operation with its own arguments. *)
Theorem rpc_execute_exact env conn rpc_timeout elapsed server_timeout server_elapsed sb op :
  let serve := serve_rpc show_server server_timeout server_elapsed sb in
  ∃ transport,
    (rpc_execute_ref env conn rpc_timeout elapsed serve op).2 =
      Ok (connection_execute_ref fmt transport (sb_execute sb) op) ∧
    ((∃ quic, (send_ env conn).2 = Ok quic) → in_time rpc_timeout elapsed →
     in_time server_timeout server_elapsed → op_frames_fit sb op → transport = None).
Proof.
  cbn zeta. unfold rpc_execute_ref, send. cbn [negb].
  assert (rpc_timeout_of rpc_timeout (op_rpc_id op) = rpc_timeout) as -> by (by destruct op).
  destruct (send_ env conn) as [conn' r] eqn:Hsend. cbn [snd].
  assert (∀ e, Ok (E := Empty_set) (RErr (rpc_transport_error e)) =
    Ok (connection_execute_ref fmt (Some (show_client e)) (sb_execute sb) op)) as Herr by done.
  destruct (request_operation_exact sb op server_timeout server_elapsed) as [Hcases Hok].
  destruct r as [quic|e|]; cbn [mbind res_bind].
  - unfold with_timeout. destruct rpc_timeout as [t|]; [case_decide as Ht|].
    + exists (Some (show_client CeTimeout)). split; [done|]. intros _ Hin. specialize (Hin t eq_refl). lia.
    + destruct Hcases as [Hr|[e Hr]]; rewrite Hr; [by exists None|].
      exists (Some (show_client e)). split; [done|]. intros _ _ Hin Hfit.
      specialize (Hok Hfit Hin). congruence.
    + destruct Hcases as [Hr|[e Hr]]; rewrite Hr; [by exists None|].
      exists (Some (show_client e)). split; [done|]. intros _ _ Hin Hfit.
      specialize (Hok Hfit Hin). congruence.
  - exists (Some (show_client e)). split; [done|]. by intros [? ?].
  - exfalso. unfold send_, new_outbound_rpc in Hsend. injection Hsend as _ Hr.
    destruct (cn_watch conn) as [q|]; cbn in Hr; [|done].
    destruct (qe_open_bi env q) as [[]|]; cbn in Hr; [|done|done].
    by destruct (qe_write_id env q) as [[]|].
Qed.


(** A push over RPC is not acknowledged: when all items were sent,
    [write_data] of the client succeeds and the remote API got exactly the items,
    but its result, sent as a response, is not looked at; a remote failure is
    reported as success. *)
Theorem rpc_write_data_unacknowledged items :
  Forall (λ item : DataItem, fits_frame item) items →
  ∃ frames, rpc_write_data (λ _, None) (inl <$> items) = (frames, Ok ()) ∧
    ∀ sb timeout elapsed, sb_write_data sb (inl <$> items) ≠ Panic →
      fits_frame (to_result (sb_write_data sb (inl <$> items))) →
      ∃ bytes, serve_rpc show_server timeout elapsed sb (rpc_id_as_u8 IdWriteData) frames = [bytes] ∧
        message_deserialize bytes = Ok (to_result (sb_write_data sb (inl <$> items))).
Proof.
  intros Hfit. unfold rpc_write_data.
  assert (∀ i, ∃ frames, forward (λ _, None) i (inl <$> items) = (frames, Ok ()) ∧
    Forall2 (λ b item, message_deserialize b = Ok item) frames items) as Hfwd.
  { induction Hfit as [|item items Hitem _ IH]; intros i; [by exists []|].
    destruct (IH (S i)) as (frames & Hf & Hfs). cbn [fmap list_fmap forward]. unfold client_send.
    destruct (send_cases max_frame_length CeCodec (CeIo "frame size too big") item) as (b & Hd & Hb & ->).
    rewrite decide_True by tauto. change (list_fmap _ _ inl items) with (inl (B := Error) <$> items).
    rewrite Hf. exists (b :: frames). split; [done|by constructor]. }
  destruct (Hfwd 0) as (frames & Hf & Hfs). exists frames. split; [exact Hf|].
  intros sb timeout elapsed Hno Hresp. unfold serve_rpc. rewrite rpc_id_roundtrip.
  cbn [rpc_timeout_of handle]. unfold handle_write_data.
  assert ((λ bytes, match map_err SeCodec (message_deserialize bytes) with
                    | Ok item => inl item
                    | Err e => inr (error_with_message (error_new Internal) (show_server e))
                    | Panic => inr (error_new Internal)
                    end) <$> frames = inl <$> items) as ->.
  { clear -Hfs. induction Hfs as [|b item frames items Hb _ IH]; [done|]. cbn. by rewrite Hb, IH. }
  destruct (server_send_fits max_frame_length (to_result (sb_write_data sb (inl <$> items)))) as (b & Hd & [Hs|(Hno' & _)]);
    [|by destruct (Hno' Hresp)].
  exists b. destruct (sb_write_data sb (inl <$> items)) as [u|e|]; [..|done]; rewrite Hs; by split.
Qed.
End rpc_storage.

(** * Witnesses *)

#[local] Existing Instance toy_peer_ids.

#[local] Instance RpcError_eq_dec : EqDecision RpcError.
Proof. solve_decision. Defined.
#[local] Instance DataType_eq_dec : EqDecision DataType.
Proof. solve_decision. Defined.
#[local] Instance DataFrame_eq_dec : EqDecision DataFrame.
Proof. solve_decision. Defined.
#[local] Instance DataItem_eq_dec : EqDecision DataItem.
Proof. solve_decision. Defined.
#[local] Instance ReadDataResponse_eq_dec : EqDecision ReadDataResponse.
Proof. solve_decision. Defined.

#[local] Instance Record_countable : Countable Record.
Proof.
  refine (inj_countable' (λ r, (rec_value r, rec_expiration r, rec_version r))
    (λ p, {| rec_value := p.1.1; rec_expiration := p.1.2; rec_version := p.2 |}) _). by intros [].
Defined.
#[local] Instance MapEntry_countable : Countable MapEntry.
Proof.
  refine (inj_countable' (λ e, (entry_field e, entry_record e))
    (λ p, {| entry_field := p.1; entry_record := p.2 |}) _). by intros [].
Defined.
#[local] Instance MapPage_countable : Countable MapPage.
Proof.
  refine (inj_countable' (λ e, (page_entries e, page_has_next e))
    (λ p, {| page_entries := p.1; page_has_next := p.2 |}) _). by intros [].
Defined.
#[local] Instance RpcError_countable : Countable RpcError.
Proof.
  refine (inj_countable' (λ e, (rpc_code e, rpc_message e))
    (λ p, {| rpc_code := p.1; rpc_message := p.2 |}) _). by intros [].
Defined.
#[local] Instance DataItem_countable : Countable DataItem.
Proof.
  refine (inj_countable'
    (λ i, match i with
          | DataFrameItem f => inl (bool_decide (df_data_type f = DataKv), df_key f, df_value f)
          | DataDone count => inr count
          end)
    (λ s, match s with
          | inl (kv, key, value) =>
              DataFrameItem {| df_data_type := if kv : bool then DataKv else DataMap;
                               df_key := key; df_value := value |}
          | inr count => DataDone count
          end) _). by intros [[[] ? ?]|].
Defined.
#[local] Instance ReadDataResponse_countable : Countable ReadDataResponse.
Proof.
  refine (inj_countable' (λ r, match r with Ack r => inl r | Item r => inr r end)
    (λ s, match s with inl r => Ack r | inr r => Item r end) _). by intros [].
Defined.

Definition toy_message T `{Countable T} : PostcardType T :=
  {| postcard_type := toy_postcard T; postcard_type_io := toy_postcard_io T |}.

Lemma toy_message_laws T `{Countable T} : @PostcardTypeLaws T (toy_message T).
Proof. exact (toy_postcard_io_laws T). Qed.

Definition toy_messages : StorageMessages := {|
  msg_key := toy_message _; msg_set := toy_message _; msg_del := toy_message _;
  msg_set_exp := toy_message _; msg_field := toy_message _; msg_hset := toy_message _;
  msg_hdel := toy_message _; msg_hset_exp := toy_message _; msg_hscan := toy_message _;
  msg_record_result := toy_message _; msg_expiration_result := toy_message _;
  msg_page_result := toy_message _; msg_card_result := toy_message _;
  msg_unit_result := toy_message _; msg_read_request := toy_message _;
  msg_read_response := toy_message _; msg_item := toy_message _ |}.

Lemma toy_messages_laws : @StorageMessagesLaws toy_messages.
Proof. split; apply toy_message_laws. Qed.
#[local] Existing Instance toy_messages.
#[local] Existing Instance toy_messages_laws.

(** A remote API that stores nothing and fails every write. *)
Definition toy_backend : Backend := {|
  sb_execute op := if is_write op then RErr (error_new KeyspaceVersionMismatch) else ROk (OutRecord None);
  sb_read_data _ _ := Ok [inl (DataDone 0)];
  sb_write_data _ := Err (error_new Internal) |}.

Definition toy_fmt (z : Z) : string := EmptyString.
Definition toy_show_client (e : @RpcClientError toy_peer_ids) : string := EmptyString.
Definition toy_show_server (e : RpcServerError) : string := EmptyString.

Lemma rpc_execute_exact_witness :
  let conn := reconnect_tick (new_connection 5) (Ok 2%Z) in
  let op := Get [] [1]%Z None in
  (rpc_execute_ref 1000 toy_fmt toy_show_client broken_env conn (Some 10%Z) 3
     (serve_rpc 1000 toy_show_server (Some 10%Z) 2 toy_backend) op).2 = Ok (ROk (OutRecord None)).
Proof.
  cbn zeta.
  destruct (rpc_execute_exact 1000 toy_fmt toy_show_client toy_show_server broken_env
    (reconnect_tick (new_connection 5) (Ok 2%Z)) (Some 10%Z) 3 (Some 10%Z) 2 toy_backend
    (Get [] [1]%Z None)) as (transport & Hr & Hok).
  rewrite Hr, Hok; [reflexivity|by eexists|intros t [= <-]; lia|intros t [= <-]; lia|].
  split; apply fits_toy_spec; vm_compute; reflexivity.
Defined.


Lemma rpc_write_data_unacknowledged_witness :
  ∃ frames bytes,
    rpc_write_data 1000 toy_show_client (λ _, None) [inl (DataDone 0)] = (frames, Ok ()) ∧
    serve_rpc 1000 toy_show_server None 0 toy_backend 13 frames = [bytes] ∧
    message_deserialize bytes = Ok (inr (error_to_rpc (error_new Internal)) : () + RpcError).
Proof.
  destruct (rpc_write_data_unacknowledged 1000 toy_show_client toy_show_server [DataDone 0])
    as (frames & Hw & Hs).
  { apply Forall_singleton, fits_toy_spec. vm_compute. reflexivity. }
  destruct (Hs toy_backend None 0%Z) as (bytes & Hb & Hd); [done| |].
  { apply fits_toy_spec. vm_compute. reflexivity. }
  exists frames, bytes. exact (conj Hw (conj Hb Hd)).
Defined.
