(* ===== verification/ClusterApi.v ===== *)
(** ClusterApi: the smart contract's read interface over RPC
    (src/crates/cluster_api/src, and [SmartContract] of
    src/crates/client/src/cluster.rs).

    Nodes serve the cluster view and the events of their contract; clients build
    their views from what they are served. *)
From S2P Require Import Prelude External SmartContract Evm Rpc RpcClient RpcCall.
From stdpp Require Import prelude countable list strings.

(** * Errors *)

Inductive CaErrorKind := CaUnauthorized | CaTimeout | CaInternal | CaTransport | CaUnknown.

Record CaError := { ca_kind : CaErrorKind; ca_message : option string }.

Definition ca_error_new (kind : CaErrorKind) : CaError := {| ca_kind := kind; ca_message := None |}.
Definition ca_with_message (self : CaError) (message : string) : CaError :=
  {| ca_kind := ca_kind self; ca_message := Some message |}.

Inductive CaErrorCode := CaCodeInternal | CaCodeUnauthorized.

Definition ca_code_as_u8 (code : CaErrorCode) : Z :=
  match code with CaCodeInternal => 0 | CaCodeUnauthorized => 1 end%Z.
Definition ca_code_try_from (z : Z) : option CaErrorCode :=
  match z with 0%Z => Some CaCodeInternal | 1%Z => Some CaCodeUnauthorized | _ => None end.

(** [rpc::Error]. *)
Record CaRpcError := { ca_rpc_code : Z; ca_rpc_message : option string }.

Definition ca_rpc_error_new (code : CaErrorCode) (details : option string) : CaRpcError :=
  {| ca_rpc_code := ca_code_as_u8 code; ca_rpc_message := details |}.
Definition ca_rpc_internal (err : string) : CaRpcError :=
  ca_rpc_error_new CaCodeInternal (Some err).

Definition ca_error_to_rpc (err : CaError) : CaRpcError :=
  ca_rpc_error_new (match ca_kind err with
                    | CaUnauthorized => CaCodeUnauthorized
                    | CaInternal | CaTimeout | CaTransport | CaUnknown => CaCodeInternal
                    end) (ca_message err).

Definition ca_error_from_rpc (fmt : Z → string) (err : CaRpcError) : CaError :=
  match ca_code_try_from (ca_rpc_code err) with
  | None => ca_with_message (ca_error_new CaUnknown) (fmt (ca_rpc_code err))
  | Some code =>
      {| ca_kind := match code with CaCodeUnauthorized => CaUnauthorized | CaCodeInternal => CaInternal end;
         ca_message := ca_rpc_message err |}
  end.

(** * RPCs *)

Inductive CaId := IdGetClusterView | IdGetEventStream.

Definition ca_id_as_u8 (id : CaId) : Z :=
  match id with IdGetClusterView => 0 | IdGetEventStream => 1 end%Z.
Definition ca_id_try_from (z : Z) : option CaId :=
  match z with 0%Z => Some IdGetClusterView | 1%Z => Some IdGetEventStream | _ => None end.

Definition ca_rpc_timeout (rpc_timeout : option Z) (id : CaId) : option Z :=
  match id with IdGetClusterView => rpc_timeout | IdGetEventStream => None end.

Inductive GetEventStreamItem :=
| EventAck (r : () + CaRpcError)
| EventItem (r : Event + CaRpcError).

(** The messages, all in JSON. *)
Class ClusterMessages := {
  cmsg_unit :: Json ();
  cmsg_view :: Json (ClusterView + CaRpcError);
  cmsg_event :: Json GetEventStreamItem;
}.
Class ClusterMessagesLaws `{ClusterMessages} := {
  cmsgl_unit :: JsonLaws ();
  cmsgl_view :: JsonLaws (ClusterView + CaRpcError);
  cmsgl_event :: JsonLaws GetEventStreamItem;
}.

Section cluster_api.
Context `{PeerIds, ClusterMessages} (max_frame_length : nat) (show_read : ReadError → string).

(** [smart_contract::Read] as the server has it: a view, and a stream of events. *)
Record Reader := {
  sr_cluster_view : res ReadError ClusterView;
  sr_events : res ReadError (list (res ReadError Event));
}.

(** * The server *)

Definition get_cluster_view (sc : Reader) : ClusterView + CaRpcError :=
  match sr_cluster_view sc with
  | Ok view => inl view
  | Err e => inr (ca_rpc_internal (show_read e))
  | Panic => inr (ca_rpc_internal EmptyString)
  end.

Definition event_message (r : res ReadError Event) : GetEventStreamItem :=
  EventItem (match r with
             | Ok event => inl event
             | Err e => inr (ca_rpc_internal (show_read e))
             | Panic => inr (ca_rpc_internal EmptyString)
             end).

(** [get_event_stream]; a shutdown ends the stream after [until] events. *)
Definition get_event_stream (sc : Reader) (until : nat) : list (list Z) :=
  match sr_events sc with
  | Ok events => send_all max_frame_length (EventAck (inl ()) :: (event_message <$> take until events))
  | Err e => send_all max_frame_length [EventAck (inr (ca_rpc_internal (show_read e)))]
  | Panic => []
  end.

Definition cluster_serve (rpc_timeout : option Z) (elapsed : Z) (sc : Reader) (until : nat)
    (id : Z) (request : list (list Z)) : list (list Z) :=
  match ca_id_try_from id with
  | None => []
  | Some IdGetClusterView =>
      handle (ca_rpc_timeout rpc_timeout IdGetClusterView) elapsed
        (handle_unary max_frame_length (λ _ : (), get_cluster_view sc) request)
  | Some IdGetEventStream =>
      handle (ca_rpc_timeout rpc_timeout IdGetEventStream) elapsed (Ok (get_event_stream sc until))
  end.

(** * The client *)

Context (fmt : Z → string) (show_client : RpcClientError → string).

Definition ca_transport_error (err : RpcClientError) : CaError :=
  ca_with_message (ca_error_new CaTransport) ("wcn_cluster_api::client::Error: " +:+ show_client err).

(** [cluster_view] of a [Connection], given the streams. *)
Definition ca_cluster_view (serve : Z → list (list Z) → list (list Z)) : res CaError ClusterView :=
  r ← map_err ca_transport_error
        (send_request max_frame_length serve (ca_id_as_u8 IdGetClusterView) ());
  match r with
  | inl view => Ok view
  | inr e => Err (ca_error_from_rpc fmt e)
  end.

(** [events] of a [Connection]. *)
Definition ca_events (serve : Z → list (list Z) → list (list Z)) : res CaError (list (Event + CaError)) :=
  let response := serve (ca_id_as_u8 IdGetEventStream) [] in
  first ← ok_or (head response) (ca_transport_error CeStreamFinished);
  ack ← map_err (λ e, ca_transport_error (CeCodec e)) (message_deserialize first);
  match ack with
  | EventAck (inl _) =>
      Ok ((λ bytes, match message_deserialize bytes with
                    | Ok (EventItem (inl event)) => inl event
                    | Ok (EventItem (inr e)) => inr (ca_error_from_rpc fmt e)
                    | Ok (EventAck _) => inr (ca_transport_error (CeWrongResponse "Ack"))
                    | Err e => inr (ca_transport_error (CeCodec e))
                    | Panic => inr (ca_transport_error (CeCodec EmptyString))
                    end) <$> tail response)
  | EventAck (inr e) => Err (ca_error_from_rpc fmt e)
  | EventItem _ => Err (ca_transport_error (CeWrongResponse "Event"))
  end.

(** [SmartContract] of the client library: a fixed view, or the API of the nodes
    that [select_open_connection] finds for each of the two calls. *)
Inductive ClientContract :=
| StaticContract (view : ClusterView)
| DynamicContract (view_conn events_conn : Z → list (list Z) → list (list Z)).

Context (show_ca : CaError → string).

Definition client_cluster_view (self : ClientContract) : res ReadError ClusterView :=
  match self with
  | StaticContract view => Ok view
  | DynamicContract serve _ => map_err (λ e, ReTransport (show_ca e)) (ca_cluster_view serve)
  end.

(** The events so far; a fixed view has none. *)
Definition client_events (self : ClientContract) : res ReadError (list (res ReadError Event)) :=
  match self with
  | StaticContract _ => Ok []
  | DynamicContract _ serve =>
      (λ events : list (Event + CaError),
         (λ r, match r with inl event => Ok event | inr e => Err (ReTransport (show_ca e)) end) <$> events)
      <$> map_err (λ e, ReTransport (show_ca e)) (ca_events serve)
  end.

(** * The API is the contract's *)

Context `{!ClusterMessagesLaws}.

(** The responses, as the client sees them. *)
Definition viewed (sc : Reader) : res CaError ClusterView :=
  match get_cluster_view sc with
  | inl view => Ok view
  | inr e => Err (ca_error_from_rpc fmt e)
  end.

Definition observed (r : res ReadError Event) : Event + CaError :=
  match event_message r with
  | EventItem (inr e) => inr (ca_error_from_rpc fmt e)
  | EventItem (inl event) => inl event
  | EventAck _ => inr (ca_error_new CaUnknown)
  end.

Lemma ca_cluster_view_exact sc until timeout elapsed :
  let r := ca_cluster_view (cluster_serve timeout elapsed sc until) in
  (r = viewed sc ∨ ∃ e, r = Err (ca_transport_error e)) ∧
  (fits_frame max_frame_length () → fits_frame max_frame_length (get_cluster_view sc) →
   (∀ t, timeout = Some t → (elapsed < t)%Z) → r = viewed sc).
Proof.
  cbn zeta. unfold ca_cluster_view, viewed.
  destruct (send_request_exact max_frame_length (λ _ : (), get_cluster_view sc)
    (cluster_serve timeout elapsed sc until) (ca_id_as_u8 IdGetClusterView) () timeout elapsed)
    as [Hcases Hok]; [done|]. split.
  - destruct Hcases as [->|[e ->]]; [by left|right; by exists e].
  - intros Hreq Hresp Hin. by rewrite (Hok Hreq Hresp Hin).
Qed.

Lemma decoded_events l frames :
  Forall2 (λ b m, message_deserialize b = Ok m) frames (event_message <$> l) →
  (λ bytes, match message_deserialize bytes with
            | Ok (EventItem (inl event)) => inl event
            | Ok (EventItem (inr e)) => inr (ca_error_from_rpc fmt e)
            | Ok (EventAck _) => inr (ca_transport_error (CeWrongResponse "Ack"))
            | Err e => inr (ca_transport_error (CeCodec e))
            | Panic => inr (ca_transport_error (CeCodec EmptyString))
            end) <$> frames = observed <$> l.
Proof.
  revert frames. induction l as [|r l IH]; intros frames Hf;
    inversion Hf as [|b m frames' l' Hb Hf']; subst; [done|].
  cbn. rewrite Hb, (IH _ Hf'). by destruct r.
Qed.

Lemma ca_events_exact sc until timeout elapsed :
  let r := ca_events (cluster_serve timeout elapsed sc until) in
  fits_frame max_frame_length (EventAck (inl ())) →
  (∀ events, sr_events sc = Ok events → ∃ n, n ≤ until ∧ r = Ok (observed <$> take n events) ∧
     (Forall (λ r, fits_frame max_frame_length (event_message r)) events → length events ≤ until →
      n = length events)) ∧
  (∀ e, sr_events sc = Err e → fits_frame max_frame_length (EventAck (inr (ca_rpc_internal (show_read e)))) →
     r = Err (ca_error_from_rpc fmt (ca_rpc_internal (show_read e)))).
Proof.
  cbn zeta. intros Hack. unfold ca_events, cluster_serve. cbn [ca_id_as_u8 ca_id_try_from ca_rpc_timeout handle].
  unfold get_event_stream. split.
  - intros events ->. cbn [res_ok default send_all].
    destruct (server_send_fits max_frame_length (EventAck (inl ()))) as (b & Hd & [->|(Hno & _)]); [|done].
    destruct (send_all_prefix max_frame_length (event_message <$> take until events)) as (n & Hf & Hn).
    exists (n `min` until). split_and!; [lia| |].
    + cbn. rewrite Hd. cbn. f_equal. rewrite <- take_take, <- fmap_take in *. by apply decoded_events.
    + intros Hall Hlen. rewrite take_ge in Hn by done. rewrite Hn, length_fmap; [lia|]. by apply Forall_fmap.
  - intros e -> Hfit. cbn [res_ok default send_all].
    destruct (server_send_fits max_frame_length (EventAck (inr (ca_rpc_internal (show_read e)))))
      as (b & Hd & [->|(Hno & _)]); [|done].
    cbn. by rewrite Hd.
Qed.
End cluster_api.

(** * Messages for the witnesses *)

Ltac fields := by intros [].

#[local] Instance ScSettings_countable : Countable ScSettings.
Proof.
  refine (inj_countable' (λ s, (sc_max_node_operator_data_bytes s, sc_extra s))
    (λ p, {| sc_max_node_operator_data_bytes := p.1; sc_extra := p.2 |}) _). fields.
Defined.
#[local] Instance ScNodeOperator_countable : Countable ScNodeOperator.
Proof.
  refine (inj_countable' (λ s, (sc_op_id s, sc_op_data s)) (λ p, {| sc_op_id := p.1; sc_op_data := p.2 |}) _).
  fields.
Defined.
#[local] Instance ScKeyspace_countable : Countable ScKeyspace.
Proof.
  refine (inj_countable' (λ s, (sc_ks_operators s, sc_ks_replication_strategy s))
    (λ p, {| sc_ks_operators := p.1; sc_ks_replication_strategy := p.2 |}) _). fields.
Defined.
#[local] Instance ScMigration_eq_dec : EqDecision ScMigration.
Proof. solve_decision. Defined.
#[local] Instance ScMigration_countable : Countable ScMigration.
Proof.
  refine (inj_countable'
    (λ s, (sc_mig_id s, sc_mig_pulling_operators s, sc_mig_started_at s, sc_mig_aborted_at s))
    (λ p, {| sc_mig_id := p.1.1.1; sc_mig_pulling_operators := p.1.1.2; sc_mig_started_at := p.1.2;
             sc_mig_aborted_at := p.2 |}) _). fields.
Defined.
#[local] Instance ScMaintenance_eq_dec : EqDecision ScMaintenance.
Proof. solve_decision. Defined.
#[local] Instance ScMaintenance_countable : Countable ScMaintenance.
Proof. refine (inj_countable' sc_maint_slot (λ p, {| sc_maint_slot := p |}) _). fields. Defined.
#[local] Instance ClusterView_eq_dec : EqDecision ClusterView.
Proof. solve_decision. Defined.
#[local] Instance ClusterView_countable : Countable ClusterView.
Proof.
  refine (inj_countable'
    (λ v, (cv_owner v, cv_settings v, cv_node_operators v, cv_keyspaces v, cv_keyspace_version v,
           cv_migration v, cv_maintenance v, cv_cluster_version v))
    (λ '(o, s, ops, ks, kv, mig, mt, cv), Build_ClusterView o s ops ks kv mig mt cv) _). fields.
Defined.

(** An event as its constructor and its fields. *)
Definition event_fields : Type :=
  Z * Z * Z * Z * option ScKeyspace * option ScNodeOperator * option ScSettings.

Definition event_to_fields (event : Event) : event_fields :=
  match event with
  | EvMigrationStarted (Build_MigrationStarted i ks at_ ver) => (0, i, at_, ver, Some ks, None, None)
  | EvMigrationDataPullCompleted (Build_MigrationDataPullCompleted i op ver) => (1, i, op, ver, None, None, None)
  | EvMigrationCompleted (Build_MigrationCompleted i op ver) => (2, i, op, ver, None, None, None)
  | EvMigrationAborted (Build_MigrationAborted i at_ ver) => (3, i, at_, ver, None, None, None)
  | EvMaintenanceStarted (Build_MaintenanceStarted op ver) => (4, op, 0, ver, None, None, None)
  | EvMaintenanceFinished (Build_MaintenanceFinished ver) => (5, 0, 0, ver, None, None, None)
  | EvNodeOperatorAdded (Build_NodeOperatorAdded i op ver) => (6, i, 0, ver, None, Some op, None)
  | EvNodeOperatorUpdated (Build_NodeOperatorUpdated op ver) => (7, 0, 0, ver, None, Some op, None)
  | EvNodeOperatorRemoved (Build_NodeOperatorRemoved i ver) => (8, i, 0, ver, None, None, None)
  | EvSettingsUpdated (Build_SettingsUpdated s ver) => (9, 0, 0, ver, None, None, Some s)
  end%Z.

Definition event_of_fields (f : event_fields) : option Event :=
  match f with
  | (0, i, at_, ver, Some ks, _, _) => Some (EvMigrationStarted (Build_MigrationStarted i ks at_ ver))
  | (1, i, op, ver, _, _, _) => Some (EvMigrationDataPullCompleted (Build_MigrationDataPullCompleted i op ver))
  | (2, i, op, ver, _, _, _) => Some (EvMigrationCompleted (Build_MigrationCompleted i op ver))
  | (3, i, at_, ver, _, _, _) => Some (EvMigrationAborted (Build_MigrationAborted i at_ ver))
  | (4, op, _, ver, _, _, _) => Some (EvMaintenanceStarted (Build_MaintenanceStarted op ver))
  | (5, _, _, ver, _, _, _) => Some (EvMaintenanceFinished (Build_MaintenanceFinished ver))
  | (6, i, _, ver, _, Some op, _) => Some (EvNodeOperatorAdded (Build_NodeOperatorAdded i op ver))
  | (7, _, _, ver, _, Some op, _) => Some (EvNodeOperatorUpdated (Build_NodeOperatorUpdated op ver))
  | (8, i, _, ver, _, _, _) => Some (EvNodeOperatorRemoved (Build_NodeOperatorRemoved i ver))
  | (9, _, _, ver, _, _, Some s) => Some (EvSettingsUpdated (Build_SettingsUpdated s ver))
  | _ => None
  end%Z.

#[local] Instance Event_eq_dec : EqDecision Event.
Proof.
  refine (λ x y, cast_if (decide (event_to_fields x = event_to_fields y))); [|congruence].
  destruct x as [[]|[]|[]|[]|[]|[]|[]|[]|[]|[]], y as [[]|[]|[]|[]|[]|[]|[]|[]|[]|[]]; cbn in *; congruence.
Defined.
#[local] Instance Event_countable : Countable Event.
Proof.
  refine (inj_countable event_to_fields event_of_fields _).
  by intros [[]|[]|[]|[]|[]|[]|[]|[]|[]|[]].
Defined.
#[local] Instance CaRpcError_eq_dec : EqDecision CaRpcError.
Proof. solve_decision. Defined.
#[local] Instance CaRpcError_countable : Countable CaRpcError.
Proof.
  refine (inj_countable' (λ e, (ca_rpc_code e, ca_rpc_message e))
    (λ p, {| ca_rpc_code := p.1; ca_rpc_message := p.2 |}) _). fields.
Defined.
#[local] Instance GetEventStreamItem_eq_dec : EqDecision GetEventStreamItem.
Proof. solve_decision. Defined.
#[local] Instance GetEventStreamItem_countable : Countable GetEventStreamItem.
Proof.
  refine (inj_countable' (λ i, match i with EventAck r => inl r | EventItem r => inr r end)
    (λ s, match s with inl r => EventAck r | inr r => EventItem r end) _). fields.
Defined.

Definition toy_cluster_messages : ClusterMessages :=
  {| cmsg_unit := toy_json _; cmsg_view := toy_json _; cmsg_event := toy_json _ |}.
Lemma toy_cluster_messages_laws : @ClusterMessagesLaws toy_cluster_messages.
Proof. split; apply toy_json_laws. Qed.
