(* ===== verification/ClusterTask.v ===== *)
(** ClusterTask: [Cluster::new] and the background task of a cluster against a
    contract that keeps changing (src/crates/cluster/src/task.rs, lib.rs).

    The task subscribes to the events of the contract, reads the whole view, and
    then applies the events it is delivered; after an error it starts again.  Calls
    of the contract happen between any two of its steps.  The states of the task
    are in [TaskState], its steps are functions, and [world_step] interleaves them
    with the calls.  Views read by clients over RPC are at the end. *)
From S2P Require Import Prelude External Sharding SmartContract NodeOperator NodeOperators.
From S2P Require Import Keyspace Settings Migration View ViewInvariant Cluster Concrete.
From S2P Require Import Contract Evm ContractBits ContractInv Chain ChainRead ChainRuns.
From S2P Require Import Rpc RpcClient RpcCall ClusterApi.
From stdpp Require Import prelude gmap sets list strings.

(** * The task *)

Section task.
Context `{PeerIds, Ff1, Hashing, UnixTime, LibBit}.
Context `{!Postcard DataV0, !Postcard DataV1, !Postcard ExtraV0, !Postcard ExtraV1}.
Context {N S : Type} `{!Config N, !Calculate S}.
Context (get_block_by_number : Z → res TransportError (option Z)) (show_number : Z → string).

(** Where the task is: about to call [events], about to call [cluster_view], in
    the loop of [apply_events], or asleep for a minute.  [NewFailed]: [Cluster::new]
    returned an error, and there is no task. *)
Inductive TaskPhase := Subscribing | Fetching | Applying | Sleeping | NewFailed.

#[global] Instance TaskPhase_eq_dec : EqDecision TaskPhase.
Proof. solve_decision. Defined.

(** [tk_initial]: in [Cluster::new] or in the events it subscribed to;
    [tk_pending]: what the subscription holds; [tk_updates]: how often the
    watchers were notified. *)
Record TaskState := {
  tk_initial : bool;
  tk_phase : TaskPhase;
  tk_view : option (View N S);
  tk_pending : list Log;
  tk_updates : nat;
}.

Definition task_start : TaskState :=
  {| tk_initial := true; tk_phase := Subscribing; tk_view := None; tk_pending := []; tk_updates := 0 |}.

Definition tk_goto (st : TaskState) (initial : bool) (phase : TaskPhase) (pending : list Log) : TaskState :=
  {| tk_initial := initial; tk_phase := phase; tk_view := tk_view st; tk_pending := pending;
     tk_updates := tk_updates st |}.

(** An error: of [Cluster::new], which returns it; in the initial events, after
    which the task goes straight on to [update_view]; in [update_view], after
    which it sleeps.  The subscription is dropped. *)
Definition task_fail (st : TaskState) : TaskState :=
  if tk_initial st then
    match tk_phase st with
    | Applying => tk_goto st false Subscribing []
    | _ => tk_goto st true NewFailed []
    end
  else tk_goto st false Sleeping [].

(** The new view is stored and the watchers are notified; [Cluster::new] has no
    watchers yet. *)
Definition task_store (st : TaskState) (view : View N S) : TaskState :=
  {| tk_initial := tk_initial st; tk_phase := tk_phase st; tk_view := Some view;
     tk_pending := tk_pending st;
     tk_updates := match tk_view st with Some _ => Datatypes.S (tk_updates st) | None => tk_updates st end |}.

(** [smart_contract.events().await]. *)
Definition task_subscribe (r : res ReadError ()) (st : TaskState) : TaskState :=
  match tk_phase st with
  | Subscribing =>
      match r with
      | Ok _ => tk_goto st (tk_initial st) Fetching []
      | _ => task_fail st
      end
  | _ => st
  end.

(** [smart_contract.cluster_view().await] and what is done with the view. *)
Definition task_fetch (r : res ReadError ClusterView) (st : TaskState) : TaskState :=
  match tk_phase st with
  | Fetching =>
      match r with
      | Ok new_view =>
          if decide (v_cluster_version <$> tk_view st = Some (cv_cluster_version new_view)) then
            tk_goto st (tk_initial st) Applying (tk_pending st)
          else
            match view_try_from_sc new_view with
            | Ok view => tk_goto (task_store st view) (tk_initial st) Applying (tk_pending st)
            | _ => task_fail st
            end
      | _ => task_fail st
      end
  | _ => st
  end.

(** The next item of the subscription; logs without an event are not items. *)
Definition task_deliver (st : TaskState) : TaskState :=
  match tk_phase st, tk_pending st, tk_view st with
  | Applying, log :: pending, Some view =>
      match event_try_from get_block_by_number show_number log with
      | Ok None => tk_goto st (tk_initial st) Applying pending
      | Ok (Some event) =>
          match apply_event view event with
          | Ok view => tk_goto (task_store st view) (tk_initial st) Applying pending
          | _ => task_fail st
          end
      | _ => task_fail st
      end
  | _, _, _ => st
  end.

(** The stream ended: [apply_events] returns, and [update_view] is called again. *)
Definition task_stream_end (st : TaskState) : TaskState :=
  match tk_phase st with
  | Applying => tk_goto st false Subscribing []
  | _ => st
  end.

(** [invalidation_event]: the poll, every ten minutes. *)
Definition task_poll (r : res ReadError ClusterView) (st : TaskState) : TaskState :=
  match tk_phase st, r with
  | Applying, Ok new_view =>
      if decide (v_cluster_version <$> tk_view st = Some (cv_cluster_version new_view)) then st
      else task_stream_end st
  | _, _ => st
  end.

Definition task_wake (st : TaskState) : TaskState :=
  match tk_phase st with
  | Sleeping => tk_goto st false Subscribing []
  | _ => st
  end.

(** A log the contract emits reaches an open subscription. *)
Definition task_emit (log : Log) (st : TaskState) : TaskState :=
  match tk_phase st with
  | Fetching | Applying => tk_goto st (tk_initial st) (tk_phase st) (tk_pending st ++ [log])
  | _ => st
  end.

(** * The task and the chain *)

(** A read gives the current state of the contract, or fails. *)
Definition reads (msg : Msg) (c : Contract) (r : res ReadError ClusterView) : Prop :=
  r = evm_cluster_view msg c ∨ ∃ e, r = Err e.

Inductive world_step : Contract * TaskState → Contract * TaskState → Prop :=
| ws_call c msg call c' evt log st :
    msg_sane msg → call_sane c call → evm_write msg c call = Some (Ok (c', evt)) →
    log_of get_block_by_number show_number msg evt log →
    world_step (c, st) (c', task_emit log st)
| ws_library c evt log st :
    log_inner log = inl evt → library_event evt → world_step (c, st) (c, task_emit log st)
| ws_subscribe c r st : world_step (c, st) (c, task_subscribe r st)
| ws_fetch c msg r st : reads msg c r → world_step (c, st) (c, task_fetch r st)
| ws_deliver c st : world_step (c, st) (c, task_deliver st)
| ws_read_error c st : tk_phase st = Applying → world_step (c, st) (c, task_fail st)
| ws_stream_end c st : world_step (c, st) (c, task_stream_end st)
| ws_poll c msg r st : reads msg c r → world_step (c, st) (c, task_poll r st)
| ws_wake c st : world_step (c, st) (c, task_wake st).

(** What the task does by itself when nothing fails. *)
Definition task_next (msg : Msg) (c : Contract) (st : TaskState) : TaskState :=
  match tk_phase st with
  | Subscribing => task_subscribe (Ok ()) st
  | Fetching => task_fetch (evm_cluster_view msg c) st
  | Applying => task_deliver st
  | Sleeping => task_wake st
  | NewFailed => st
  end.
End task.

(** * What the stored views show *)

Section following.
Context `{PeerIds, Ff1Laws, HashingLaws, UnixTime, LibBitLaws}.
Context `{!Postcard DataV0, !Postcard DataV1, !Postcard ExtraV0, !Postcard ExtraV1}.
Context `{!PostcardLaws DataV0, !PostcardLaws DataV1, !PostcardLaws ExtraV0, !PostcardLaws ExtraV1}.
Context {N S : Type} `{!Config N, !Calculate S, !CalculateSpec S}.
Context (get_block_by_number : Z → res TransportError (option Z)) (show_number : Z → string).
Implicit Types c : Contract.
Implicit Types v : View N S.
Implicit Types st : TaskState (N := N) (S := S).

#[local] Abbreviation runs := (chain_run get_block_by_number show_number).
#[local] Abbreviation deliver := (task_deliver get_block_by_number show_number).
#[local] Abbreviation log_for := (log_of get_block_by_number show_number).

(** ** Runs and versions *)

Lemma chain_run_app c0 logs c1 logs' c2 : runs c0 logs c1 → runs c1 logs' c2 → runs c0 (logs ++ logs') c2.
Proof. induction 1; intros Hrun; [done|by eapply run_call; eauto|by eapply run_library; eauto]. Qed.

Lemma evm_write_version msg c call c' evt :
  evm_write msg c call = Some (Ok (c', evt)) →
  c_version c' = (c_version c + 1)%Z ∧ (c_version c + 1 < 2 ^ 128)%Z.
Proof.
  destruct call; cbn [evm_write]; intros [= Hcall].
  - by apply startMigration_Ok in Hcall as (_ & _ & _ & _ & _ & _ & Hver & -> & _).
  - by apply completeMigration_Ok in Hcall as (_ & _ & _ & _ & Hver & -> & _).
  - by apply abortMigration_Ok in Hcall as (_ & _ & _ & Hver & -> & _).
  - by apply setMaintenance_Ok in Hcall as (_ & Hver & -> & _).
  - by apply setMaintenance_Ok in Hcall as (_ & Hver & -> & _).
  - by apply addNodeOperator_Ok in Hcall as (_ & _ & _ & _ & Hver & -> & _).
  - by apply updateNodeOperatorData_Ok in Hcall as (_ & Hver & -> & _).
  - by apply removeNodeOperator_Ok in Hcall as (_ & _ & _ & _ & Hver & -> & _).
  - by apply updateSettings_Ok in Hcall as (Hver & -> & _).
Qed.

Lemma chain_run_version c logs c' : runs c logs c' → (c_version c ≤ c_version c')%Z.
Proof.
  induction 1 as [|? ? ? ? ? ? ? ? _ _ Hcall%evm_write_version _ _ IH|]; lia.
Qed.

(** Without a call nothing changes. *)
Lemma chain_run_same_version c logs c' : runs c logs c' → c_version c = c_version c' → c = c'.
Proof.
  induction 1 as [|? ? ? ? ? ? ? ? _ _ Hcall%evm_write_version _ Hrun%chain_run_version IH|? ? ? ? ? ? ? ? IH];
    [done|lia|done].
Qed.

Lemma evm_cluster_view_version msg c cv : evm_cluster_view msg c = Ok cv → cv_cluster_version cv = c_version c.
Proof. by intros <-%Ok_inj. Qed.

(** The event of a call does not apply to a view of a state after the call. *)
Lemma stale_event_rejected msg c0 call c1 evt log logs c v :
  contract_wf c0 → msg_sane msg → call_sane c0 call → evm_write msg c0 call = Some (Ok (c1, evt)) →
  log_for msg evt log → runs c1 logs c → contract_wf c → follows c v →
  ∃ ev e, event_try_from get_block_by_number show_number log = Ok (Some ev) ∧ apply_event v ev = Err e.
Proof.
  intros Hc0 Hmsg Hsane Hcall Hlog Hrun Hc Hf.
  destruct (read_follows (N := N) (S := S) msg c0 Hc0) as (_ & v0 & _ & _ & Hv0 & Hf0 & _).
  destruct (event_tracked _ _ _ _ _ _ _ _ _ Hc0 Hv0 Hf0 Hmsg Hsane Hcall Hlog) as (ev & Hev & _ & v1 & Happ & _).
  exists ev. destruct (evm_write_version _ _ _ _ _ Hcall) as [Hver Hlt].
  pose proof (chain_run_version _ _ _ Hrun) as Hle.
  destruct (cw_version _ Hc0) as [Hpos0 _]. destruct (cw_version _ Hc) as [Hpos Hmax].
  unfold apply_event in *. rewrite (fo_version _ _ Hf0) in Happ. rewrite (fo_version _ _ Hf).
  destruct (decide (event_cluster_version ev ≠ wrap 128 (c_version c0 + 1))) as [|Heq%dec_stable]; [done|].
  rewrite decide_True; [by eexists|]. rewrite Heq. unfold wrap. rewrite (Z.mod_small (c_version c0 + 1)) by lia.
  destruct (decide (c_version c + 1 < 2 ^ 128)%Z).
  - rewrite Z.mod_small by lia. lia.
  - assert (c_version c + 1 = 2 ^ 128)%Z as -> by lia. rewrite Z_mod_same_full. lia.
Qed.

(** ** The invariant *)

(** The view shows a state the contract had. *)
Definition shows c v : Prop :=
  view_wf v ∧ ∃ c0 logs, contract_wf c0 ∧ follows c0 v ∧ runs c0 logs c.

(** The subscription holds logs from before the view was read, if calls came in
    between, and then all logs since the state the view shows. *)
Definition applying c st v : Prop :=
  view_wf v ∧ ∃ cs stale c0 fresh, tk_pending st = stale ++ fresh ∧ contract_wf cs ∧
    runs cs stale c0 ∧ follows c0 v ∧ runs c0 fresh c.

Record task_inv c st : Prop := {
  ti_contract : contract_wf c;
  ti_view v : tk_view st = Some v → shows c v;
  ti_phase :
    match tk_phase st with
    | Fetching => ∃ cs, contract_wf cs ∧ runs cs (tk_pending st) c
    | Applying => ∃ v, tk_view st = Some v ∧ applying c st v
    | Sleeping => is_Some (tk_view st)
    | Subscribing | NewFailed => True
    end;
  ti_new : tk_initial st = false → is_Some (tk_view st);
}.

Lemma applying_shows c st v : applying c st v → shows c v.
Proof.
  intros (Hv & cs & stale & c0 & fresh & _ & Hcs & Hstale & Hf & Hfresh). split; [done|].
  exists c0, fresh. split_and!; [|done|done]. by eapply chain_run_wf.
Qed.

Lemma shows_step c log c' v : shows c v → runs c [log] c' → shows c' v.
Proof.
  intros (Hv & c0 & logs & Hc0 & Hf & Hrun) Hlog. split; [done|]. exists c0, (logs ++ [log]).
  split_and!; [done|done|]. by eapply chain_run_app.
Qed.

Lemma task_emit_inv c log c' st :
  task_inv c st → runs c [log] c' → task_inv c' (task_emit log st).
Proof.
  intros [Hc Hview Hphase Hnew] Hlog.
  assert (contract_wf c') as Hc' by (by eapply chain_run_wf).
  unfold task_emit. destruct (tk_phase st) eqn:Hp; (split; cbn [tk_view tk_phase tk_pending tk_goto tk_initial]; [done| | |done]);
    try (intros v Hv; eapply shows_step; [by apply Hview|done]); rewrite ?Hp; try done.
  - destruct Hphase as (cs & Hcs & Hrun). exists cs. split; [done|]. by eapply chain_run_app.
  - destruct Hphase as (v & Hv & Hwf & cs & stale & c0 & fresh & Hpend & Hcs & Hstale & Hf & Hfresh).
    exists v. split; [done|]. split; [done|]. exists cs, stale, c0, (fresh ++ [log]). cbn.
    rewrite Hpend, <-app_assoc. split_and!; [done|done|done|done|]. by eapply chain_run_app.
Qed.

Lemma task_fail_inv c st : task_inv c st → task_inv c (task_fail st).
Proof.
  intros [Hc Hview Hphase Hnew]. unfold task_fail.
  destruct (tk_initial st) eqn:Hi; [destruct (tk_phase st) eqn:Hp|];
    (split; cbn [tk_view tk_phase tk_pending tk_goto tk_initial]; [done|done|try done|]); try done.
  all: first [by apply Hnew|destruct Hphase as (v & Hv & _); by eexists].
Qed.

Lemma task_stream_end_inv c st : task_inv c st → task_inv c (task_stream_end st).
Proof.
  intros [Hc Hview Hphase Hnew]. unfold task_stream_end. destruct (tk_phase st) eqn:Hp;
    try (split; [done|done|by rewrite Hp|done]).
  destruct Hphase as (v & Hv & _). split; cbn; [done|done|done|by rewrite Hv].
Qed.

(** Reading the view in a state [cs] with logs to [c] still to be delivered. *)
Lemma task_fetch_ok msg c st :
  task_inv c st → tk_phase st = Fetching →
  ∃ v, task_fetch (evm_cluster_view msg c) st = tk_goto (task_fetch (evm_cluster_view msg c) st)
         (tk_initial st) Applying (tk_pending st) ∧
    tk_view (task_fetch (evm_cluster_view msg c) st) = Some v ∧ view_wf v ∧ follows c v.
Proof.
  intros [Hc Hview Hphase Hnew] Hp. unfold task_fetch. rewrite Hp in *.
  destruct (read_follows (N := N) (S := S) msg c Hc) as (cv & v & Hcv & Hv & Hwf & Hf & _).
  pose proof (evm_cluster_view_version _ _ _ Hcv) as Hver. rewrite Hcv.
  case_decide as Heq.
  - destruct (tk_view st) as [v0|] eqn:Hv0; [|done]. injection Heq as Heq.
    destruct (Hview v0 eq_refl) as (Hwf0 & c0 & logs & Hc0 & Hf0 & Hrun).
    assert (c0 = c) as ->.
    { eapply chain_run_same_version; [done|]. rewrite <-(fo_version _ _ Hf0). congruence. }
    exists v0. by split_and!.
  - rewrite Hv. exists v. by split_and!.
Qed.

Lemma task_fetch_inv msg c r st : task_inv c st → reads msg c r → task_inv c (task_fetch r st).
Proof.
  intros Hinv [->|[e ->]].
  - destruct (decide (tk_phase st = Fetching)) as [Hp|Hp].
    + destruct (task_fetch_ok msg c st Hinv Hp) as (v & Hst & Hv & Hwf & Hf).
      destruct Hinv as [Hc Hview Hphase Hnew]. rewrite Hp in Hphase. destruct Hphase as (cs & Hcs & Hrun).
      assert (applying c (task_fetch (evm_cluster_view msg c) st) v) as Happ.
      { rewrite Hst. split; [done|]. exists cs, (tk_pending st), c, []. cbn. rewrite app_nil_r.
        split_and!; [done|done|done|done|constructor]. }
      split; [done| | |by rewrite Hv].
      * rewrite Hv. intros v' [= <-]. by eapply applying_shows.
      * rewrite Hst. cbn. rewrite Hv. exists v. split; [done|]. by rewrite Hst in Happ.
    + unfold task_fetch. by destruct (tk_phase st).
  - unfold task_fetch. destruct (tk_phase st); try done. by apply task_fail_inv.
Qed.

(** Delivering a log either leaves the subscription shorter, with the view at the
    state after the log, or fails. *)
Lemma task_deliver_cases c st v log pending :
  task_inv c st → tk_phase st = Applying → tk_view st = Some v → tk_pending st = log :: pending →
  deliver st = task_fail st ∨
  (task_inv c (deliver st) ∧ tk_phase (deliver st) = Applying ∧ tk_pending (deliver st) = pending).
Proof.
  intros Hinv Hp Hv Hpend. pose proof (task_fail_inv _ _ Hinv) as Hfail.
  destruct Hinv as [Hc Hview Hphase Hnew]. rewrite Hp in Hphase.
  destruct Hphase as (v' & Hv' & Happ). assert (v' = v) as -> by congruence. clear Hv'.
  pose proof (applying_shows _ _ _ Happ) as Hshows.
  destruct Happ as (Hwf & cs & stale & c0 & fresh & Hsplit & Hcs & Hstale & Hf & Hfresh).
  rewrite Hpend in Hsplit. unfold task_deliver. rewrite Hp, Hpend, Hv.
  pose proof (chain_run_wf _ _ _ _ _ Hcs Hstale) as Hc0.
  assert (∀ cs' stale' v' c0' fresh' st', tk_initial st' = tk_initial st → tk_view st' = Some v' →
    tk_phase st' = Applying → tk_pending st' = stale' ++ fresh' → view_wf v' →
    contract_wf cs' → runs cs' stale' c0' → follows c0' v' → runs c0' fresh' c → task_inv c st') as Hbuild.
  { intros cs' stale' v' c0' fresh' st' Hi' Hv' Hp' Hpend' Hwf' Hcs' Hstale' Hf' Hfresh'.
    assert (applying c st' v') as Ha by (split; [done|by exists cs', stale', c0', fresh']).
    split; [done| |rewrite Hp'; by exists v'|by rewrite Hv'].
    rewrite Hv'. intros ? [= <-]. by eapply applying_shows. }
  destruct Hstale as [cs|cs msg call c1 evt l logs c2 Hmsg Hsane Hcall Hlog Hrest
    |cs evt l logs c2 Hlog Hlib Hrest]; cbn in Hsplit.
  - subst fresh. inversion Hfresh as [|? msg call c1 evt ? ? ? Hmsg Hsane Hcall Hlog Hrest|? evt ? ? ? Hlog Hlib Hrest]; subst.
    + destruct (event_tracked _ _ _ _ _ _ _ _ _ Hcs Hwf Hf Hmsg Hsane Hcall Hlog) as (ev & -> & Hadm & v1 & Happ & Hf1).
      rewrite Happ. right. split; [|done].
      eapply (Hbuild c1 [] v1 c1 pending); try done; [|by eapply evm_write_wf|constructor].
      by eapply apply_event_wf_aux.
    + rewrite (library_event_ignored _ _ _ _ Hlog Hlib). right. split; [|done].
      eapply (Hbuild cs [] v cs pending); try done. constructor.
  - injection Hsplit as -> ->. left.
    destruct (stale_event_rejected _ _ _ _ _ _ _ _ _ Hcs Hmsg Hsane Hcall Hlog Hrest Hc0 Hf) as (ev & e & -> & ->).
    done.
  - injection Hsplit as -> ->. rewrite (library_event_ignored _ _ _ _ Hlog Hlib). right. split; [|done].
    eapply (Hbuild cs logs v c2 fresh); done.
Qed.

Lemma task_deliver_inv c st : task_inv c st → task_inv c (deliver st).
Proof.
  intros Hinv. destruct (tk_phase st) eqn:Hp; destruct (tk_pending st) as [|log pending] eqn:Hpend;
    destruct (tk_view st) as [v|] eqn:Hv; try (unfold task_deliver; by rewrite Hp, ?Hpend, ?Hv).
  destruct (task_deliver_cases c st v log pending) as [->|(Hi & _)]; [done..| |done].
  by apply task_fail_inv.
Qed.

Lemma world_step_inv w w' : world_step get_block_by_number show_number w w' → task_inv w.1 w.2 → task_inv w'.1 w'.2.
Proof.
  destruct 1 as [c msg call c' evt log st Hmsg Hsane Hcall Hlog|c evt log st Hlog Hlib|c r st|c msg r st Hr
    |c st|c st Hp|c st|c msg r st Hr|c st]; cbn [fst snd]; intros Hinv.
  - eapply task_emit_inv; [done|]. eapply run_call; [done..|constructor].
  - eapply task_emit_inv; [done|]. eapply run_library; [done..|constructor].
  - unfold task_subscribe. destruct (tk_phase st) eqn:Hp; try done.
    destruct r; try by apply task_fail_inv. destruct Hinv as [Hc Hview Hphase Hnew].
    split; cbn; [done|done| |done]. exists c. split; [done|constructor].
  - by eapply task_fetch_inv.
  - by apply task_deliver_inv.
  - by apply task_fail_inv.
  - by apply task_stream_end_inv.
  - unfold task_poll. destruct (tk_phase st), r; try done. case_decide; [done|]. by apply task_stream_end_inv.
  - unfold task_wake. destruct (tk_phase st) eqn:Hp; try done. destruct Hinv as [Hc Hview Hphase Hnew].
    split; cbn; [done|done|done|]. by rewrite Hp in Hphase.
Qed.

Lemma task_reach_inv c w :
  contract_wf c → rtc (world_step get_block_by_number show_number) (c, task_start) w → task_inv w.1 w.2.
Proof.
  intros Hc Hreach. remember (c, task_start) as w0 eqn:Hw0.
  assert (task_inv w0.1 w0.2) as Hinv by (subst w0; by split).
  clear Hw0. induction Hreach as [|w1 w2 w3 Hstep _ IH]; [done|]. apply IH. by eapply world_step_inv.
Qed.

(** ** Catching up *)

Definition caught_up c st : Prop :=
  tk_phase st = Applying ∧ tk_pending st = [] ∧ ∃ v, tk_view st = Some v ∧ view_wf v ∧ follows c v.

Lemma applying_caught_up c st :
  task_inv c st → tk_phase st = Applying → tk_pending st = [] → caught_up c st.
Proof.
  intros [_ _ Hphase _] Hp Hpend. rewrite Hp in Hphase.
  destruct Hphase as (v & Hv & Hwf & cs & stale & c0 & fresh & Hsplit & _ & _ & Hf & Hfresh).
  rewrite Hpend in Hsplit. symmetry in Hsplit. apply app_nil in Hsplit as [_ ->].
  inversion Hfresh; subst. split_and!; [done|done|]. by exists v.
Qed.

#[local] Abbreviation next := (task_next get_block_by_number show_number).

Lemma subscribing_catches_up msg c st :
  task_inv c st → tk_phase st = Subscribing → caught_up c (next msg c (next msg c st)).
Proof.
  intros Hinv Hp. unfold task_next at 2. rewrite Hp.
  assert (task_inv c (task_subscribe (Ok ()) st)) as Hinv' by (apply (world_step_inv (c, st) (c, task_subscribe (Ok ()) st)); [apply ws_subscribe|done]).
  unfold task_next. unfold task_subscribe in *. rewrite Hp in *. cbn [tk_phase tk_goto].
  destruct (task_fetch_ok msg c _ Hinv' eq_refl) as (v & Hst & Hv & Hwf & Hf).
  rewrite Hst. split_and!; [done|done|]. cbn. exists v. by split_and!.
Qed.

Lemma failed_catches_up msg c st :
  task_inv c st → tk_phase st = Applying →
  ∃ n, n ≤ 3 ∧ caught_up c (Nat.iter n (next msg c) (task_fail st)).
Proof.
  intros Hinv Hp. pose proof (task_fail_inv _ _ Hinv) as Hf. unfold task_fail in *. rewrite Hp in *.
  destruct (tk_initial st).
  - exists 2. split; [lia|]. by apply subscribing_catches_up.
  - exists 3. split; [lia|]. set (st' := tk_goto _ _ _ _) in *.
    change (caught_up c (next msg c (next msg c (task_wake st')))).
    apply subscribing_catches_up; [|done]. apply (world_step_inv (c, st') (c, task_wake st')); [apply ws_wake|done].
Qed.

Lemma iter_next_S msg c st n : Nat.iter (Datatypes.S n) (next msg c) st = Nat.iter n (next msg c) (next msg c st).
Proof. apply Nat.iter_succ_r. Qed.

Lemma applying_catches_up msg c pending st :
  task_inv c st → tk_phase st = Applying → tk_pending st = pending →
  ∃ n, n ≤ length pending + 3 ∧ caught_up c (Nat.iter n (next msg c) st).
Proof.
  revert st. induction pending as [|log pending IH]; intros st Hinv Hp Hpend.
  - exists 0. split; [lia|]. by apply applying_caught_up.
  - assert (∃ v, tk_view st = Some v) as [v Hv].
    { destruct Hinv as [_ _ Hphase _]. rewrite Hp in Hphase. destruct Hphase as (v & Hv & _). by exists v. }
    assert (next msg c st = deliver st) as Hnext by (unfold task_next; by rewrite Hp).
    destruct (task_deliver_cases c st v log pending) as [Hfail|(Hinv' & Hp' & Hpend')]; [done..| |].
    + destruct (failed_catches_up msg c st Hinv Hp) as (n & Hn & Hc). exists (Datatypes.S n). split; [cbn; lia|].
      by rewrite iter_next_S, Hnext, Hfail.
    + destruct (IH _ Hinv' Hp' Hpend') as (n & Hn & Hc). exists (Datatypes.S n). split; [cbn; lia|].
      by rewrite iter_next_S, Hnext.
Qed.

(** * Theorems *)



(** C40. A call between [events] and [cluster_view] stops the task: the view it read
    shows the call already, its event is rejected as out of order, and the task
    drops the subscription and sleeps, although the view was up to date. *)
Theorem subscription_race msg' c0 msg call c evt log st :
  contract_wf c0 → msg_sane msg → call_sane c0 call → evm_write msg c0 call = Some (Ok (c, evt)) →
  log_for msg evt log → task_inv c0 st → tk_phase st = Fetching → tk_pending st = [] →
  tk_initial st = false →
  let st' := deliver (task_fetch (evm_cluster_view msg' c) (task_emit log st)) in
  tk_phase st' = Sleeping ∧ ∃ v, tk_view st' = Some v ∧ follows c v.
Proof.
  intros Hc0 Hmsg Hsane Hcall Hlog Hinv Hp Hpend Hi. cbn zeta.
  assert (runs c0 [log] c) as Hrun by (eapply run_call; [done..|constructor]).
  pose proof (task_emit_inv _ _ _ _ Hinv Hrun) as Hinv'.
  assert (task_emit log st = tk_goto st false Fetching [log]) as Hst by (unfold task_emit; by rewrite Hp, Hi, Hpend).
  rewrite Hst in *.
  destruct (task_fetch_ok msg' c _ Hinv' eq_refl) as (v & Hst' & Hv & Hwf & Hf).
  set (st1 := task_fetch _ _) in *.
  assert (tk_phase st1 = Applying ∧ tk_pending st1 = [log] ∧ tk_initial st1 = false) as (Hp1 & Hpend1 & Hi1)
    by (rewrite Hst'; done).
  destruct (stale_event_rejected _ _ _ _ _ _ [] c v Hc0 Hmsg Hsane Hcall Hlog) as (ev & e & Hev & Happ);
    [constructor|apply (ti_contract _ _ Hinv')|done|].
  unfold task_deliver. rewrite Hp1, Hpend1, Hv, Hev, Happ. unfold task_fail. rewrite Hi1. cbn.
  split; [done|]. by exists v.
Qed.
End following.

(** * Views of clients *)

Section clients.
Context `{PeerIds, Ff1Laws, HashingLaws, UnixTime, LibBitLaws}.
Context `{!Postcard DataV0, !Postcard DataV1, !Postcard ExtraV0, !Postcard ExtraV1}.
Context `{!PostcardLaws DataV0, !PostcardLaws DataV1, !PostcardLaws ExtraV0, !PostcardLaws ExtraV1}.
Context {N S : Type} `{!Config N, !Calculate S, !CalculateSpec S}.
Context (get_block_by_number : Z → res TransportError (option Z)) (show_number : Z → string).
Context `{ClusterMessagesLaws} (max_frame_length : nat) (show_read : ReadError → string) (fmt : Z → string).
Context (show_client : RpcClientError → string) (show_ca : CaError → string).

#[local] Abbreviation chain_events := (evm_events get_block_by_number show_number).
#[local] Abbreviation runs := (chain_run get_block_by_number show_number).
#[local] Abbreviation serve := (cluster_serve max_frame_length show_read).
#[local] Abbreviation fits := (fits_frame max_frame_length).

Lemma evm_events_prefix n logs :
  ∃ logs1 logs2, logs = logs1 ++ logs2 ∧ chain_events logs1 = take n (chain_events logs).
Proof.
  revert n. induction logs as [|log logs IH]; intros [|n].
  - by exists [], [].
  - by exists [], [].
  - by exists [], (log :: logs).
  - unfold evm_events in *. cbn.
    destruct (event_try_from _ _ log) as [[ev|]|e|] eqn:Hev.
    2: destruct (IH (Datatypes.S n)) as (l1 & l2 & -> & Hl).
    1,3,4: destruct (IH n) as (l1 & l2 & -> & Hl).
    all: exists (log :: l1), l2; split; [done|]; cbn; rewrite Hev; cbn; by rewrite Hl.
Qed.

Lemma chain_run_split logs1 logs2 c c' :
  runs c (logs1 ++ logs2) c' → ∃ c1, runs c logs1 c1 ∧ runs c1 logs2 c'.
Proof.
  revert c. induction logs1 as [|log logs1 IH]; intros c Hrun; [exists c; split; [constructor|done]|].
  inversion Hrun as [|? msg call c1 evt ? ? ? Hmsg Hsane Hcall Hlog Hrest|? evt ? ? ? Hlog Hlib Hrest]; subst;
    destruct (IH _ Hrest) as (c2 & Hc2 & Hrest'); exists c2; (split; [|done]).
  - by eapply run_call.
  - by eapply run_library.
Qed.

End clients.

(** * Witnesses *)

#[local] Existing Instance toy_peer_ids.
#[local] Existing Instance toy_ff1.
#[local] Existing Instance toy_ff1_laws.
#[local] Existing Instance toy_hashing.
#[local] Existing Instance toy_hashing_laws.
#[local] Existing Instance toy_unix_time.
#[local] Existing Instance toy_config.
#[local] Existing Instance toy_libbit.
#[local] Existing Instance toy_libbit_laws.
#[local] Existing Instance toy_d0.
#[local] Existing Instance toy_d1.
#[local] Existing Instance toy_e0.
#[local] Existing Instance toy_e1.
#[local] Existing Instance toy_d0_laws.
#[local] Existing Instance toy_d1_laws.
#[local] Existing Instance toy_e0_laws.
#[local] Existing Instance toy_e1_laws.
#[local] Existing Instance toy_cluster_messages.
#[local] Existing Instance toy_cluster_messages_laws.

#[local] Abbreviation toy_step := (world_step (N := Z) (S := ()) no_blocks no_show).

Definition shrink_log (evt : SolEvent) : Log :=
  {| log_inner := inl evt; log_block_timestamp := Some 1000%Z; log_block_number := None |}.

Lemma shrink_ok : ∃ evt, evm_write by_owner deployed shrink = Some (Ok (migrating, evt)).
Proof.
  assert (match evm_write by_owner deployed shrink with Some (Ok _) => true | _ => false end = true) as Hok
    by (vm_compute; reflexivity).
  unfold migrating, after. destruct (evm_write by_owner deployed shrink) as [[[c evt]|?|]|]; [by exists evt|done..].
Qed.

(** A node that has subscribed when a migration starts, and then reads the view. *)
Lemma toy_race : ∃ st : TaskState (N := Z) (S := ()),
  tk_phase st = Fetching ∧ length (tk_pending st) = 1 ∧
  rtc toy_step (deployed, task_start) (migrating, st).
Proof.
  destruct shrink_ok as [evt Hcall].
  exists (task_emit (shrink_log evt) (task_subscribe (Ok ()) task_start)). split_and!; [done|done|].
  eapply rtc_l; [apply (ws_subscribe _ _ _ (Ok ()))|]. apply rtc_once.
  eapply (ws_call _ _ deployed by_owner shrink); [by apply toy_msg_sane|apply shrink_sane|exact Hcall|by split].
Qed.



Lemma subscription_race_witness :
  ∃ evt (v : View Z ()), evm_write by_owner deployed shrink = Some (Ok (migrating, evt)) ∧
    let st := tk_goto (task_store task_start v) false Fetching [] in
    tk_phase (task_deliver no_blocks no_show
      (task_fetch (evm_cluster_view by_owner migrating) (task_emit (shrink_log evt) st))) = Sleeping.
Proof.
  destruct shrink_ok as [evt Hcall].
  destruct (read_follows (N := Z) (S := ()) by_owner deployed deployed_wf) as (_ & v & _ & _ & Hv & Hf & _).
  exists evt, v. split; [exact Hcall|].
  refine (proj1 (subscription_race no_blocks no_show by_owner deployed by_owner shrink migrating evt
    (shrink_log evt) (tk_goto (task_store task_start v) false Fetching []) deployed_wf (toy_msg_sane _ _ _) (shrink_sane _) Hcall (conj eq_refl eq_refl)
    _ eq_refl eq_refl eq_refl)); [done|done|].
  split; cbn; [exact deployed_wf| | |by eexists].
  - intros ? [= <-]. split; [exact Hv|]. exists deployed, []. split_and!; [exact deployed_wf|exact Hf|constructor].
  - exists deployed. split; [exact deployed_wf|constructor].
Defined.

(** As long as the frame of a message. *)
Definition frame_length `{Message T} (v : T) : nat :=
  match message_serialize v with Ok bytes => length bytes | _ => 0 end.

Lemma frame_length_fits `{Message T} n (v : T) : frame_length v ≤ n → fits_frame n v.
Proof. unfold frame_length, fits_frame. intros Hn bytes Hb. by rewrite Hb in Hn. Qed.

Definition no_read_text (e : ReadError) : string := EmptyString.

Definition enough_for (sc : Reader) (events : list (res ReadError Event)) : nat :=
  frame_length () + frame_length (get_cluster_view no_read_text sc) + frame_length (EventAck (inl ())) +
  sum_list_with (λ r, frame_length (event_message no_read_text r)) events.

