(* ===== verification/Metrics.v ===== *)
(** Metrics: the metrics API, who may use it, and the metrics of the whole cluster
    (src/crates/metrics_api/src, and provider.rs, aggregator.rs and lib.rs of
    src/crates/metrics/src).

    Nodes and databases serve their metrics as text; a node collects the text of
    all services of the cluster and adds labels to every sample that say which
    service it is from.  Text is a list of characters, as code points; what the
    Prometheus exporter renders is a parameter. *)
From S2P Require Import Prelude External NodeOperator NodeOperators Rpc RpcClient RpcCall.
From stdpp Require Import prelude countable gmap list strings pretty.

(** * Errors *)

Inductive MaErrorKind := MaInternal | MaNotFound | MaTimeout | MaTransport | MaUnknown.
Inductive FactoryErrorKind := FeInternal | FeUnauthorized | FeUnknown.

Record MaError := { ma_kind : MaErrorKind; ma_message : option string }.
Record FactoryError := { fe_kind : FactoryErrorKind; fe_message : option string }.

Definition ma_error_new (kind : MaErrorKind) : MaError := {| ma_kind := kind; ma_message := None |}.
Definition ma_not_found : MaError := ma_error_new MaNotFound.
Definition ma_with_message (self : MaError) (message : string) : MaError :=
  {| ma_kind := ma_kind self; ma_message := Some message |}.
Definition factory_unauthorized : FactoryError := {| fe_kind := FeUnauthorized; fe_message := None |}.

Inductive MaErrorCode := MaCodeInternal | MaCodeNotFound.

Definition ma_code_as_u8 (code : MaErrorCode) : Z :=
  match code with MaCodeInternal => 0 | MaCodeNotFound => 1 end%Z.
Definition ma_code_try_from (z : Z) : option MaErrorCode :=
  match z with 0%Z => Some MaCodeInternal | 1%Z => Some MaCodeNotFound | _ => None end.

Record MaRpcError := { ma_rpc_code : Z; ma_rpc_message : option string }.

Definition ma_rpc_error_new (code : MaErrorCode) (details : option string) : MaRpcError :=
  {| ma_rpc_code := ma_code_as_u8 code; ma_rpc_message := details |}.

Definition ma_error_from_rpc (fmt : Z → string) (err : MaRpcError) : MaError :=
  match ma_code_try_from (ma_rpc_code err) with
  | None => ma_with_message (ma_error_new MaUnknown) ("Unexpected error code: " +:+ fmt (ma_rpc_code err))
  | Some code =>
      {| ma_kind := match code with MaCodeNotFound => MaNotFound | MaCodeInternal => MaInternal end;
         ma_message := ma_rpc_message err |}
  end.

Definition ma_error_to_rpc (err : MaError) : MaRpcError :=
  ma_rpc_error_new (match ma_kind err with
                    | MaNotFound => MaCodeNotFound
                    | MaInternal | MaTimeout | MaTransport | MaUnknown => MaCodeInternal
                    end) (ma_message err).

(** [ConnectionRejectionReason]. *)
Inductive MaRejection := MaRejectInternal | MaRejectUnauthorized.

Definition rejection_as_u8 (r : MaRejection) : Z :=
  match r with MaRejectInternal => 0 | MaRejectUnauthorized => 1 end%Z.
Definition rejection_try_from (z : Z) : option MaRejection :=
  match z with 0%Z => Some MaRejectInternal | 1%Z => Some MaRejectUnauthorized | _ => None end.
Definition rejection_to_factory (r : MaRejection) : FactoryError :=
  {| fe_kind := match r with MaRejectInternal => FeInternal | MaRejectUnauthorized => FeUnauthorized end;
     fe_message := None |}.
Definition rejection_of_factory (err : FactoryError) : MaRejection :=
  match fe_kind err with
  | FeInternal | FeUnknown => MaRejectInternal
  | FeUnauthorized => MaRejectUnauthorized
  end.

(** * Providers *)

Definition Text : Type := list Z.

(** [trait MetricsApi]. *)
Definition MetricsApi : Type := string → res MaError Text.

Inductive TargetInner :=
| TargetLocal (rendered : Text)
| TargetRemote (metrics_api : MetricsApi).

Record Target := { target_name : string; target_inner : TargetInner }.

Section provider.
Context `{PeerIds}.

Record Provider := {
  p_targets : gmap string Target;
  p_is_authorized : PeerId → bool;
}.

(** [Provider::new] collects the targets by name, and lets everyone in until
    [with_auth] is called. *)
Definition provider_new (targets : list Target) : Provider := {|
  p_targets := foldl (λ m target, <[target_name target := target]> m) ∅ targets;
  p_is_authorized _ := true |}.

Definition with_auth (self : Provider) (is_authorized : PeerId → bool) : Provider :=
  {| p_targets := p_targets self; p_is_authorized := is_authorized |}.

Definition provider_get_metrics (self : Provider) : MetricsApi := λ name,
  target ← ok_or (p_targets self !! name) ma_not_found;
  match target_inner target with
  | TargetLocal rendered => Ok rendered
  | TargetRemote metrics_api => metrics_api name
  end.

(** [new_inbound_connection] through [Factory::new_metrics_api]. *)
Definition new_metrics_api (self : Provider) (peer_id : PeerId) : res FactoryError MetricsApi :=
  if negb (p_is_authorized self peer_id) then Err factory_unauthorized
  else Ok (provider_get_metrics self).

(** * The API over RPC *)

Class MetricsMessages := {
  mmsg_request :: Json string;
  mmsg_response :: Json (Text + MaRpcError);
}.
Class MetricsMessagesLaws `{MetricsMessages} := {
  mmsgl_request :: JsonLaws string;
  mmsgl_response :: JsonLaws (Text + MaRpcError);
}.

Context `{MetricsMessages} (max_frame_length : nat) (fmt : Z → string).
Context (show_client : RpcClientError → string).

Definition metrics_handle_connection (provider : Provider) : Handler := λ peer,
  match new_metrics_api provider peer with
  | Ok _ => Accepted
  | Err err => Rejected (rejection_as_u8 (rejection_of_factory err))
  | Panic => Failed SeStreamFinished
  end.

Definition handle_get_metrics (api : MetricsApi) (path : string) : Text + MaRpcError :=
  match api path with
  | Ok text => inl text
  | Err err => inr (ma_error_to_rpc err)
  | Panic => inr (ma_rpc_error_new MaCodeInternal None)
  end.

Definition GET_METRICS : Z := 0.

Definition metrics_serve (rpc_timeout : option Z) (elapsed : Z) (api : MetricsApi) (id : Z)
    (request : list (list Z)) : list (list Z) :=
  if decide (id = GET_METRICS) then
    handle rpc_timeout elapsed (handle_unary max_frame_length (handle_get_metrics api) request)
  else [].

Definition metrics_transport_error (err : RpcClientError) : MaError :=
  ma_with_message (ma_error_new MaTransport) ("wcn_metrics_api::client::Error: " +:+ show_client err).

(** [get_metrics] of a [Connection]. *)
Definition remote_get_metrics (serve : Z → list (list Z) → list (list Z)) : MetricsApi := λ path,
  r ← map_err metrics_transport_error (send_request max_frame_length serve GET_METRICS path);
  match r with
  | inl text => Ok text
  | inr err => Err (ma_error_from_rpc fmt err)
  end.
End provider.

(** * Labels *)

(** The characters of a literal. *)
Definition chars (s : string) : Text := (λ c, Z.of_N (Ascii.N_of_ascii c)) <$> String.list_ascii_of_string s.

Definition c_newline : Z := 10.
Definition c_space : Z := 32.
Definition c_hash : Z := 35.
Definition c_comma : Z := 44.
Definition c_lbrace : Z := 123.
Definition c_rbrace : Z := 125.

(** [char::is_whitespace]: Unicode's [White_Space]. *)
Definition is_whitespace (c : Z) : bool :=
  bool_decide (9 ≤ c ≤ 13)%Z || bool_decide (c ∈ [32; 133; 160; 5760; 8232; 8233; 8239; 8287; 12288]%Z) ||
  bool_decide (8192 ≤ c ≤ 8202)%Z.

(** [str::trim]. *)
Fixpoint trim_start (l : Text) : Text :=
  match l with
  | c :: l' => if is_whitespace c then trim_start l' else l
  | [] => []
  end.
Definition trim (l : Text) : Text := reverse (trim_start (reverse (trim_start l))).

(** [str::find] and [str::rfind] of a character. *)
Definition find_char (c : Z) (l : Text) : option nat := fst <$> list_find (c =.) l.
Definition rfind_char (c : Z) (l : Text) : option nat :=
  (λ i, length l - 1 - i) <$> find_char c (reverse l).

(** [str::lines]: what is between newlines; nothing after a final newline.  A
    carriage return before a newline belongs to neither, which [trim] makes
    irrelevant. *)
Fixpoint lines_from (line : Text) (l : Text) : list Text :=
  match l with
  | [] => if decide (line = []) then [] else [reverse line]
  | c :: l => if decide (c = c_newline) then reverse line :: lines_from [] l else lines_from (c :: line) l
  end.
Definition lines (l : Text) : list Text := lines_from [] l.

Inductive ServiceKind := KindNode (idx : nat) | KindDatabase.
Record ExtraLabels := { el_operator : Text; el_service_kind : ServiceKind }.

Definition c_quote : Text := [34]%Z.

(** [Display for ExtraLabels]. *)
Definition show_labels (self : ExtraLabels) : Text :=
  chars "operator=" ++ c_quote ++ el_operator self ++ c_quote ++ chars ",service_kind=" ++ c_quote ++
  match el_service_kind self with
  | KindNode idx => chars "node" ++ c_quote ++ chars ",node_idx=" ++ c_quote ++ chars (pretty idx) ++ c_quote
  | KindDatabase => chars "db" ++ c_quote
  end.

(** Where the labels go into a line: the index, whether there are braces, and
    whether there are labels already; [None] skips the line. *)
Definition insert_point (line : Text) : option (nat * bool * bool) :=
  first_word_end_idx ← find_char c_space line;
  match find_char c_lbrace (take first_word_end_idx line) with
  | Some lb_idx =>
      rb_idx ← rfind_char c_rbrace line;
      if decide (rb_idx < lb_idx) then None
      else
        let in_braces := take (S rb_idx - lb_idx) (drop lb_idx line) in
        let has_labels := existsb (λ ch, negb (is_whitespace ch)) in_braces in
        Some (rb_idx, true, has_labels)
  | None => Some (first_word_end_idx, false, false)
  end.

(** One round of the loop: what is appended to the buffer. *)
Definition label_line (extra : Text) (line : Text) : Text :=
  let line := trim line in
  if decide (line = [] ∨ head line = Some c_hash) then []
  else
    match insert_point line with
    | None => []
    | Some (insert_idx, has_braces, has_labels) =>
        take insert_idx line ++ (if has_braces : bool then [] else [c_lbrace]) ++
        (if has_labels : bool then [c_comma] else []) ++ extra ++
        (if has_braces : bool then [] else [c_rbrace]) ++ drop insert_idx line ++ [c_newline]
    end.

Definition append_extra_labels (metrics : Text) (extra_labels : ExtraLabels) : Text :=
  concat (label_line (show_labels extra_labels) <$> lines metrics).

(** * The aggregator *)

Section aggregator.
Context `{PeerIds} {N : Type} (outbound_metrics_api_connection : N → MetricsApi).

Definition render_node_metrics (operator : string) (node_idx : nat) (node : N) : Text :=
  match outbound_metrics_api_connection node "node" with
  | Ok metrics => append_extra_labels metrics
      {| el_operator := chars operator; el_service_kind := KindNode node_idx |}
  | _ => []
  end.

(** The loop of [render_db_metrics]. *)
Fixpoint first_db_metrics (operator : string) (nodes : list N) : Text :=
  match nodes with
  | [] => []
  | node :: nodes =>
      match outbound_metrics_api_connection node "db" with
      | Ok metrics => append_extra_labels metrics
          {| el_operator := chars operator; el_service_kind := KindDatabase |}
      | _ => first_db_metrics operator nodes
      end
  end.

Definition render_db_metrics {E} (operator : NodeOperator N) : res E Text :=
  '(nodes, _) ← nodes_lb_iter operator;
  Ok (first_db_metrics (op_name operator) nodes).

(** The chunks of the stream, which come in any order. *)
Definition render_operator_metrics {E} (operator : NodeOperator N) : res E (list Text) :=
  db ← render_db_metrics operator;
  Ok (imap (render_node_metrics (op_name operator)) (op_nodes operator) ++ [db]).

Definition render_cluster_metrics {E} (operators : NodeOperators N) : res E (list Text) :=
  chunks ← res_map render_operator_metrics (ops_iter operators);
  Ok (concat chunks).
End aggregator.

(** * Properties of text *)

Lemma find_char_app c a b : c ∉ a → find_char c (a ++ c :: b) = Some (length a).
Proof.
  intros Ha. unfold find_char.
  assert (list_find (c =.) (a ++ c :: b) = Some (length a, c)) as ->; [|done].
  apply list_find_Some. split_and!; [by rewrite list_lookup_middle|done|].
  intros j y Hj Hlt <-. rewrite lookup_app_l in Hj by done. by apply list_elem_of_lookup_2 in Hj.
Qed.

Lemma find_char_None c l : c ∉ l → find_char c l = None.
Proof.
  intros Hl. unfold find_char.
  assert (list_find (c =.) l = None) as ->; [|done].
  apply list_find_None, Forall_forall. by intros x Hx ->.
Qed.

Lemma rfind_char_app c a b : c ∉ b → rfind_char c (a ++ c :: b) = Some (length a).
Proof.
  intros Hb. unfold rfind_char. rewrite reverse_app, reverse_cons, <- app_assoc. cbn [app].
  rewrite find_char_app by (by rewrite elem_of_reverse). cbn. f_equal.
  rewrite length_app, length_reverse. cbn. lia.
Qed.

Lemma trim_start_id l : (∀ c, head l = Some c → is_whitespace c = false) → trim_start l = l.
Proof. destruct l as [|c l]; [done|]. intros Hc. cbn. by rewrite (Hc c eq_refl). Qed.

Lemma trim_id l :
  (∀ c, head l = Some c → is_whitespace c = false) → (∀ c, last l = Some c → is_whitespace c = false) →
  trim l = l.
Proof.
  intros Hh Hl. unfold trim. rewrite (trim_start_id l Hh), trim_start_id, reverse_involutive; [done|].
  intros c Hc. apply Hl. by rewrite <- head_reverse.
Qed.

Lemma lines_from_line line l rest :
  c_newline ∉ l → lines_from line (l ++ c_newline :: rest) = (reverse line ++ l) :: lines rest.
Proof.
  revert line. induction l as [|c l IH]; intros line Hl; cbn.
  - by rewrite decide_True, app_nil_r.
  - apply not_elem_of_cons in Hl as [Hc Hl]. rewrite decide_False by done.
    by rewrite (IH _ Hl), reverse_cons, <- app_assoc.
Qed.

Lemma lines_concat ls :
  Forall (λ l, c_newline ∉ l) ls → lines (concat ((λ l, l ++ [c_newline]) <$> ls)) = ls.
Proof.
  induction 1 as [|l ls Hl _ IH]; [done|]. cbn. rewrite <- app_assoc. unfold lines in *. cbn [app].
  rewrite (lines_from_line [] l) by done. f_equal. exact IH.
Qed.

(** * Samples *)

(** A sample of the exposition format: a name, labels in braces or none, a value. *)
Record Sample := { s_name : Text; s_labels : option Text; s_value : Text }.

Definition print_sample (s : Sample) : Text :=
  s_name s ++ match s_labels s with Some ls => c_lbrace :: ls ++ [c_rbrace] | None => [] end ++
  c_space :: s_value s.

(** The sample with more labels. *)
Definition labelled (extra : Text) (s : Sample) : Text :=
  s_name s ++ c_lbrace :: match s_labels s with Some ls => ls ++ [c_comma] | None => [] end ++
  extra ++ c_rbrace :: c_space :: s_value s ++ [c_newline].

Record sample_ok (s : Sample) : Prop := {
  so_name : ∃ c, head (s_name s) = Some c ∧ c ≠ c_hash ∧ is_whitespace c = false;
  so_name_chars : c_space ∉ s_name s ∧ c_lbrace ∉ s_name s;
  so_value : ∃ c, last (s_value s) = Some c ∧ is_whitespace c = false;
  so_value_chars : c_rbrace ∉ s_value s;
}.

Lemma print_sample_trim s : sample_ok s → trim (print_sample s) = print_sample s.
Proof.
  intros [(c & Hc & _ & Hw) _ (c' & Hc' & Hw') _]. unfold print_sample. apply trim_id.
  - intros x. destruct (s_name s) as [|y name]; [done|]. cbn in *. by intros [= <-]; simplify_eq.
  - intros x. rewrite app_assoc, last_app, last_cons, Hc'. by intros [= <-].
Qed.

(** The comma goes in whether or not there are labels before it. *)
Lemma insert_point_sample s :
  sample_ok s →
  insert_point (print_sample s) =
    Some (match s_labels s with
          | Some ls => (length (s_name s) + S (length ls), true, true)
          | None => (length (s_name s), false, false)
          end).
Proof.
  intros [_ [Hspace Hbrace] _ Hvalue]. unfold insert_point, print_sample.
  destruct (s_labels s) as [ls|].
  - set (line := s_name s ++ _).
    assert (∃ w, find_char c_space line = Some w ∧ length (s_name s) < w) as (w & -> & Hw).
    { unfold line, find_char.
      destruct (list_find (c_space =.) _) as [[w y]|] eqn:Hf.
      - exists w. split; [done|]. apply list_find_Some in Hf as (Hl & <- & _).
        destruct (decide (length (s_name s) < w)) as [|Hge]; [done|].
        exfalso. destruct (decide (w = length (s_name s))) as [->|Hne].
        + rewrite lookup_app_r, Nat.sub_diag in Hl by lia. done.
        + rewrite lookup_app_l in Hl by lia. by apply list_elem_of_lookup_2 in Hl.
      - exfalso. apply list_find_None in Hf. rewrite Forall_forall in Hf. apply (Hf c_space); [|done].
        rewrite !elem_of_app. right. right. by left. }
    cbn [mbind option_bind].
    assert (find_char c_lbrace (take w line) = Some (length (s_name s))) as ->.
    { unfold line. rewrite take_app, take_ge by lia.
      destruct (w - length (s_name s)) as [|n] eqn:Hn; [lia|]. cbn [app take].
      by apply find_char_app. }
    assert (line = (s_name s ++ c_lbrace :: ls) ++ c_rbrace :: (c_space :: s_value s)) as Hline
      by (unfold line; rewrite <- !app_assoc; cbn; by rewrite <- app_assoc).
    assert (rfind_char c_rbrace line = Some (length (s_name s ++ c_lbrace :: ls))) as ->.
    { rewrite Hline. apply rfind_char_app. rewrite not_elem_of_cons. by split. }
    cbn [mbind option_bind]. rewrite length_app. cbn [length]. rewrite decide_False by lia.
    assert (drop (length (s_name s)) line = c_lbrace :: (ls ++ [c_rbrace]) ++ c_space :: s_value s) as ->
      by (unfold line; by rewrite drop_app_length).
    replace (S (length (s_name s) + S (length ls)) - length (s_name s)) with (S (S (length ls))) by lia.
    done.
  - cbn [app]. rewrite find_char_app by done. cbn [mbind option_bind].
    by rewrite take_app_length, find_char_None.
Qed.

Lemma label_sample extra s : sample_ok s → label_line extra (print_sample s) = labelled extra s.
Proof.
  intros Hs. unfold label_line. rewrite print_sample_trim by done.
  rewrite decide_False; cycle 1.
  { destruct Hs as [(c & Hc & Hh & _) _ _ _]. unfold print_sample. destruct (s_name s) as [|y name]; [done|].
    cbn in *. intros [|]; simplify_eq. }
  rewrite insert_point_sample by done. unfold print_sample, labelled. destruct (s_labels s) as [ls|].
  - change (c_lbrace :: ls ++ [c_rbrace]) with ((c_lbrace :: ls) ++ [c_rbrace]).
    assert (s_name s ++ ((c_lbrace :: ls) ++ [c_rbrace]) ++ c_space :: s_value s =
      (s_name s ++ c_lbrace :: ls) ++ c_rbrace :: c_space :: s_value s) as ->
      by (rewrite <- !app_assoc; done).
    replace (length (s_name s) + S (length ls)) with (length (s_name s ++ c_lbrace :: ls))
      by (rewrite length_app; done).
    rewrite take_app_length, drop_app_length, <- !app_assoc. done.
  - cbn [app]. rewrite take_app_length, drop_app_length. done.
Qed.

(** A line of the text: a sample, or a comment, or blank. *)
Inductive MetricsLine := LineSample (s : Sample) | LineOther (l : Text).

Definition print_line (l : MetricsLine) : Text :=
  match l with LineSample s => print_sample s | LineOther l => l end.

Definition line_ok (l : MetricsLine) : Prop :=
  c_newline ∉ print_line l ∧
  match l with
  | LineSample s => sample_ok s
  | LineOther l => trim l = [] ∨ head (trim l) = Some c_hash
  end.

Definition samples_of (ls : list MetricsLine) : list Sample :=
  omap (λ l, match l with LineSample s => Some s | LineOther _ => None end) ls.

(** * Theorems *)

(** The aggregator keeps every sample: of a text of samples, comments and blank
    lines it keeps the samples in order, each with its own labels, its value and
    the labels of the service, whatever spaces and braces the values of its own
    labels hold. *)
Theorem labels_appended (ls : list MetricsLine) extra :
  Forall line_ok ls →
  append_extra_labels (concat ((λ l, print_line l ++ [c_newline]) <$> ls)) extra =
    concat (labelled (show_labels extra) <$> samples_of ls).
Proof.
  intros Hls. unfold append_extra_labels.
  rewrite (list_fmap_compose print_line (λ l, l ++ [c_newline])), lines_concat;
    [|apply Forall_fmap; eapply Forall_impl; [exact Hls|]; by intros l [? _]].
  induction Hls as [|l ls [Hnl Hl] _ IH]; [done|]. rewrite !fmap_cons. cbn [concat]. rewrite IH. destruct l as [s|l].
  - cbn [print_line]. by rewrite label_sample.
  - cbn [print_line]. unfold label_line. by rewrite decide_True.
Qed.

(** A sample with empty braces, which the exposition format allows, gets a
    comma before the first label, which it does not allow: the test for labels
    looks at the braces too. *)
Theorem empty_braces_get_comma extra s :
  sample_ok s → s_labels s = Some [] →
  label_line (show_labels extra) (print_sample s) =
    s_name s ++ c_lbrace :: c_comma :: show_labels extra ++ c_rbrace :: c_space :: s_value s ++ [c_newline].
Proof. intros Hs He. rewrite label_sample by done. unfold labelled. by rewrite He. Qed.

(** ** Two hops *)

Section relayed.
Context `{PeerIds, MetricsMessagesLaws} (max_frame_length : nat) (fmt : Z → string).
Context (show_client : RpcClientError → string).

#[local] Abbreviation remote := (remote_get_metrics max_frame_length fmt show_client).
#[local] Abbreviation serve := (metrics_serve max_frame_length).
#[local] Abbreviation fits := (fits_frame max_frame_length).

(** The providers of a database and of a node. *)
Definition db_metrics_provider (rendered : Text) : Provider :=
  provider_new [{| target_name := "db"; target_inner := TargetLocal rendered |}].

Definition node_metrics_provider (database : MetricsApi) (rendered : Text) (contains_node : PeerId → bool)
    : Provider :=
  with_auth (provider_new [{| target_name := "db"; target_inner := TargetRemote database |};
                           {| target_name := "node"; target_inner := TargetLocal rendered |}]) contains_node.

Lemma remote_get_metrics_exact api timeout elapsed path :
  fits path → fits (handle_get_metrics api path) → (∀ t, timeout = Some t → (elapsed < t)%Z) →
  remote (serve timeout elapsed api) path =
    match handle_get_metrics api path with
    | inl text => Ok text
    | inr err => Err (ma_error_from_rpc fmt err)
    end.
Proof.
  intros Hreq Hresp Htime. unfold remote_get_metrics.
  destruct (send_request_exact max_frame_length (handle_get_metrics api) (serve timeout elapsed api)
    GET_METRICS path timeout elapsed) as [_ Hok]; [done|].
  by rewrite (Hok Hreq Hresp Htime).
Qed.

(** The metrics API of a node relays that of its database: a peer gets the
    node's own metrics as "node", those of the database, fetched over a second
    connection, as "db", and [NotFound] for any other target, over RPC as
    locally. *)
Theorem metrics_relayed node_text db_text auth db_timeout db_elapsed timeout elapsed name :
  let db := serve db_timeout db_elapsed (provider_get_metrics (db_metrics_provider db_text)) in
  let node := provider_get_metrics (node_metrics_provider (remote db) node_text auth) in
  fits "db" → fits (inl db_text : Text + MaRpcError) → (∀ t, db_timeout = Some t → (db_elapsed < t)%Z) →
  fits name → fits (handle_get_metrics node name) → (∀ t, timeout = Some t → (elapsed < t)%Z) →
  remote (serve timeout elapsed node) name =
    (if decide (name = "db") then Ok db_text
     else if decide (name = "node") then Ok node_text
     else Err ma_not_found).
Proof.
  intros db node Hdb Htext Hdbtime Hname Hresp Htime.
  rewrite remote_get_metrics_exact by done.
  assert (node "db" = Ok db_text) as Hnodedb.
  { change (node "db") with (remote db "db"). unfold db. by rewrite remote_get_metrics_exact. }
  unfold handle_get_metrics. case_decide as He; [by rewrite He, Hnodedb|].
  case_decide as He'; [by rewrite He'|].
  assert (node name = Err ma_not_found) as ->; [|done].
  unfold node, provider_get_metrics, node_metrics_provider. cbn.
  by rewrite !lookup_insert_ne, lookup_empty by done.
Qed.
End relayed.

(** * Witnesses *)

Definition help_line : MetricsLine := LineOther (chars "# TYPE wcn_available_memory gauge").
Definition memory_sample : Sample :=
  {| s_name := chars "wcn_available_memory"; s_labels := None; s_value := chars "8194981888" |}.
Definition permits_sample : Sample :=
  {| s_name := chars "wcn_rpc_server_available_rpc_permits";
     s_labels := Some (chars "server_name=primary} node"); s_value := chars "20000" |}.
Definition empty_sample : Sample :=
  {| s_name := chars "wcn_rpc_server_available_rpc_permits"; s_labels := Some [];
     s_value := chars "20000" |}.
Definition node_labels : ExtraLabels :=
  {| el_operator := chars "OperatorA"; el_service_kind := KindNode 0 |}.

Ltac sample_tac :=
  split; cbn; [eexists; split_and!; [reflexivity|vm_compute; discriminate|vm_compute; reflexivity]
    |split; apply (bool_decide_unpack (_ ∉ _)); vm_compute; exact I
    |eexists; split; vm_compute; reflexivity
    |apply (bool_decide_unpack (_ ∉ _)); vm_compute; exact I].

Lemma labels_appended_witness :
  append_extra_labels
    (concat ((λ l, print_line l ++ [c_newline]) <$>
       [help_line; LineSample memory_sample; LineOther []; LineSample permits_sample])) node_labels =
  labelled (show_labels node_labels) memory_sample ++ labelled (show_labels node_labels) permits_sample.
Proof.
  rewrite labels_appended; [vm_compute; reflexivity|].
  repeat apply Forall_cons_2; [..|by apply Forall_nil_2]; (split;
    [apply (bool_decide_unpack (_ ∉ _)); vm_compute; exact I|]).
  - right. vm_compute. reflexivity.
  - sample_tac.
  - left. vm_compute. reflexivity.
  - sample_tac.
Defined.

Lemma empty_braces_get_comma_witness :
  label_line (show_labels node_labels) (print_sample empty_sample) =
    s_name empty_sample ++ c_lbrace :: c_comma :: show_labels node_labels ++
    c_rbrace :: c_space :: s_value empty_sample ++ [c_newline].
Proof. apply empty_braces_get_comma; [sample_tac|reflexivity]. Defined.

#[local] Existing Instance toy_peer_ids.
#[local] Instance MaRpcError_eq_dec : EqDecision MaRpcError.
Proof. solve_decision. Defined.
#[local] Instance MaRpcError_countable : Countable MaRpcError.
Proof.
  refine (inj_countable' (λ e, (ma_rpc_code e, ma_rpc_message e))
    (λ p, {| ma_rpc_code := p.1; ma_rpc_message := p.2 |}) _). by intros [].
Defined.
Definition toy_metrics_messages : MetricsMessages :=
  {| mmsg_request := toy_json _; mmsg_response := toy_json _ |}.
Lemma toy_metrics_messages_laws : @MetricsMessagesLaws toy_metrics_messages.
Proof. split; apply toy_json_laws. Qed.
#[local] Existing Instance toy_metrics_messages.
#[local] Existing Instance toy_metrics_messages_laws.

Lemma metrics_relayed_witness :
  let db := metrics_serve 1000 (Some 2000%Z) 10 (provider_get_metrics (db_metrics_provider [65]%Z)) in
  let remote := remote_get_metrics 1000 (λ _, EmptyString) (λ _ : @RpcClientError toy_peer_ids, EmptyString) in
  let node := provider_get_metrics (node_metrics_provider (remote db) [66]%Z (λ _, true)) in
  remote (metrics_serve 1000 (Some 5000%Z) 20 node) "db" = Ok [65]%Z.
Proof.
  cbn zeta. rewrite metrics_relayed; [reflexivity|..]; try (apply fits_toy_spec; vm_compute; reflexivity).
  all: intros t [= <-]; lia.
Defined.
