(* ===== verification/DbMetrics.v ===== *)
(** DbMetrics: the statistics of RocksDB, read from their text and exported as
    metrics (src/crates/rocks/src/db/statistics.rs, src/crates/db/src/metrics.rs).

    Floating point numbers are a type with a [FromStr]; nothing else is used of
    them.  The metrics registry has counters, to which is added, and gauges,
    which are set. *)
From S2P Require Import Prelude Text Metrics.
From stdpp Require Import prelude gmap sets list strings.

(** [f64] and its [FromStr]. *)
Class Floats := {
  f64 : Type;
  f64_from_str : list Z → option f64;
}.

Section statistics.
Context `{Floats}.

Record Histogram := { h_p50 : f64; h_p95 : f64; h_p99 : f64; h_p100 : f64; h_count : Z; h_sum : Z }.

Inductive Statistic :=
| Ticker (value : Z)
| HistogramStat (h : Histogram).

(** * Parsing *)

Definition split_next_stat (s : list Z) : option (list Z * list Z) :=
  '(_, s) ← split_once 32 s;
  '(_, s) ← split_once 32 s;
  Some (default (s, []) (split_once 32 s)).

Definition parse_next_stat {T} (from_str : list Z → option T) (s : list Z) : option (T * list Z) :=
  '(stat, rest) ← split_next_stat s;
  v ← from_str stat;
  Some (v, rest).

Definition u64_from_str : list Z → option Z := uint_from_str 64.

Definition stat_parse (s : list Z) : option (list Z * Statistic) :=
  '(name, s) ← split_once 32 s;
  '(first, s) ← split_next_stat s;
  stat ← (if decide (46%Z ∈ first) then
            p50 ← f64_from_str first;
            '(p95, s) ← parse_next_stat f64_from_str s;
            '(p99, s) ← parse_next_stat f64_from_str s;
            '(p100, s) ← parse_next_stat f64_from_str s;
            '(count, s) ← parse_next_stat u64_from_str s;
            '(sum, s) ← parse_next_stat u64_from_str s;
            Some (HistogramStat {| h_p50 := p50; h_p95 := p95; h_p99 := p99; h_p100 := p100;
                                   h_count := count; h_sum := sum |})
          else Ticker <$> u64_from_str first);
  Some (name, stat).

(** [parse_multiple]: one line that does not parse fails the whole; of two lines with
    the same name the later one counts. *)
Definition parse_multiple (s : list Z) : option (gmap (list Z) Statistic) :=
  stats ← mapM stat_parse (str_lines s);
  Some (list_to_map (reverse stats)).

(** * Export *)

Record Registry := {
  reg_counters : gmap (list Z) Z;
  reg_gauges : gmap (list Z * list Z) f64;
}.

Definition reg_empty : Registry := {| reg_counters := ∅; reg_gauges := ∅ |}.

(** [Counter::increment]. *)
Definition increment (name : list Z) (n : Z) (reg : Registry) : Registry := {|
  reg_counters := <[name := u64_add (default 0%Z (reg_counters reg !! name)) n]> (reg_counters reg);
  reg_gauges := reg_gauges reg |}.

(** [Gauge::set]; the label is the percentile. *)
Definition set_gauge (name p : list Z) (v : f64) (reg : Registry) : Registry := {|
  reg_counters := reg_counters reg; reg_gauges := <[(name, p) := v]> (reg_gauges reg) |}.

(** [format!("wcn_{}", name.replace('.', "_"))]. *)
Definition metric_name (name : list Z) : list Z :=
  chars "wcn_" ++ ((λ c, if decide (c = 46%Z) then 95%Z else c) <$> name).

Definition export_stat (reg : Registry) (entry : list Z * Statistic) : Registry :=
  let name := metric_name entry.1 in
  match entry.2 with
  | Ticker count => increment name count reg
  | HistogramStat h =>
      let reg := increment (name ++ chars "_count") (h_count h) reg in
      let reg := increment (name ++ chars "_sum") (h_sum h) reg in
      let reg := set_gauge name (chars "50") (h_p50 h) reg in
      let reg := set_gauge name (chars "95") (h_p95 h) reg in
      let reg := set_gauge name (chars "99") (h_p99 h) reg in
      set_gauge name (chars "100") (h_p100 h) reg
  end.

(** [update_rocksdb_metrics], the statistics: [statistics] is what RocksDB returns,
    [order] the order in which the map is iterated.  Disabled statistics and text
    that does not parse change nothing. *)
Definition update_rocksdb_metrics (order : gmap (list Z) Statistic → list (list Z * Statistic))
    (reg : Registry) (statistics : option (list Z)) : Registry :=
  match statistics with
  | None => reg
  | Some text =>
      match parse_multiple text with
      | None => reg
      | Some stats => foldl export_stat reg (order stats)
      end
  end.

(** The monitor calls this at every tick if it is enabled. *)
Definition custom_metrics (is_rocksdb_metrics_enabled : bool)
    (order : gmap (list Z) Statistic → list (list Z * Statistic))
    (reg : Registry) (statistics : option (list Z)) : Registry :=
  if is_rocksdb_metrics_enabled then update_rocksdb_metrics order reg statistics else reg.

(** * What RocksDB prints *)

(** One line of RocksDB's statistics, with the text of the percentiles. *)
Inductive StatLine :=
| TickerLine (name : list Z) (value : Z)
| HistogramLine (name p50 p95 p99 p100 : list Z) (count sum : Z).

Definition line_name (l : StatLine) : list Z :=
  match l with TickerLine name _ | HistogramLine name _ _ _ _ _ _ => name end.

Definition words (l : list (list Z)) : list Z := join_on 32 l.

Definition render_line (l : StatLine) : list Z :=
  match l with
  | TickerLine name value => words [name; chars "COUNT"; chars ":"; show_uint value]
  | HistogramLine name p50 p95 p99 p100 count sum =>
      words [name; chars "P50"; chars ":"; p50; chars "P95"; chars ":"; p95; chars "P99"; chars ":"; p99;
             chars "P100"; chars ":"; p100; chars "COUNT"; chars ":"; show_uint count;
             chars "SUM"; chars ":"; show_uint sum]
  end.

Definition render (l : list StatLine) : list Z := l ≫= λ line, render_line line ++ [10%Z].

(** A number with a fraction, as [%f] prints it, and its value. *)
Definition percentile (p : list Z) (v : f64) : Prop :=
  (46%Z ∈ p) ∧ (32%Z ∉ p) ∧ (10%Z ∉ p) ∧ f64_from_str p = Some v.

Inductive line_stat : StatLine → Statistic → Prop :=
| ticker_stat name value :
    32%Z ∉ name → 10%Z ∉ name → fits 64 value → line_stat (TickerLine name value) (Ticker value)
| histogram_stat name p50 p95 p99 p100 count sum v50 v95 v99 v100 :
    32%Z ∉ name → 10%Z ∉ name → percentile p50 v50 → percentile p95 v95 → percentile p99 v99 →
    percentile p100 v100 → fits 64 count → fits 64 sum →
    line_stat (HistogramLine name p50 p95 p99 p100 count sum)
      (HistogramStat {| h_p50 := v50; h_p95 := v95; h_p99 := v99; h_p100 := v100; h_count := count; h_sum := sum |}).

(** * Parsing what is printed *)


Lemma words_cons p q l : words (p :: q :: l) = p ++ 32%Z :: words (q :: l).
Proof. done. Qed.

Lemma split_next_words a b c d l :
  32%Z ∉ a → 32%Z ∉ b → 32%Z ∉ c →
  split_next_stat (words (a :: b :: c :: d :: l)) = Some (c, words (d :: l)).
Proof.
  intros Ha Hb Hc. unfold split_next_stat. rewrite !words_cons.
  rewrite split_once_app by done. cbn [mbind option_bind]. rewrite split_once_app by done. cbn [mbind option_bind].
  by rewrite split_once_app.
Qed.

Lemma split_last_words a b c :
  32%Z ∉ a → 32%Z ∉ b → 32%Z ∉ c → split_next_stat (words [a; b; c]) = Some (c, []).
Proof.
  intros Ha Hb Hc. unfold split_next_stat. rewrite !words_cons.
  rewrite split_once_app by done. cbn [mbind option_bind]. rewrite split_once_app by done. cbn [mbind option_bind].
  unfold words; cbn [join_on]. unfold split_once. by rewrite split_once_from_None.
Qed.

#[local] Ltac free_word := first [done | apply show_uint_free; unfold is_digit; lia | apply (bool_decide_unpack _); vm_compute; exact I].

Lemma parse_next_words {T} (from_str : list Z → option T) a b c d l v :
  32%Z ∉ a → 32%Z ∉ b → 32%Z ∉ c → from_str c = Some v →
  parse_next_stat from_str (words (a :: b :: c :: d :: l)) = Some (v, words (d :: l)).
Proof. intros Ha Hb Hc Hv. unfold parse_next_stat. rewrite split_next_words by done. cbn. by rewrite Hv. Qed.

Lemma parse_last_words {T} (from_str : list Z → option T) a b c v :
  32%Z ∉ a → 32%Z ∉ b → 32%Z ∉ c → from_str c = Some v →
  parse_next_stat from_str (words [a; b; c]) = Some (v, []).
Proof. intros Ha Hb Hc Hv. unfold parse_next_stat. rewrite split_last_words by done. cbn. by rewrite Hv. Qed.

Lemma stat_parse_line l stat : line_stat l stat → stat_parse (render_line l) = Some (line_name l, stat).
Proof.
  intros [name value Hn _ Hv|name p50 p95 p99 p100 count sum v50 v95 v99 v100 Hn _ H50 H95 H99 H100 Hc Hs];
    unfold stat_parse, render_line; cbn [line_name].
  - rewrite words_cons, split_once_app by done. cbn [mbind option_bind].
    rewrite split_last_words by free_word. cbn [mbind option_bind].
    rewrite decide_False by free_word. unfold u64_from_str. by rewrite uint_roundtrip.
  - destruct H50 as (Hd & Hp50 & _ & Hf50), H95 as (_ & Hp95 & _ & Hf95), H99 as (_ & Hp99 & _ & Hf99),
      H100 as (_ & Hp100 & _ & Hf100).
    rewrite words_cons, split_once_app by done. cbn [mbind option_bind].
    rewrite split_next_words by free_word. cbn [mbind option_bind]. rewrite decide_True by done.
    rewrite Hf50. cbn [mbind option_bind].
    rewrite (parse_next_words _ _ _ _ _ _ v95) by (done || free_word). cbn [mbind option_bind].
    rewrite (parse_next_words _ _ _ _ _ _ v99) by (done || free_word). cbn [mbind option_bind].
    rewrite (parse_next_words _ _ _ _ _ _ v100) by (done || free_word). cbn [mbind option_bind].
    rewrite (parse_next_words u64_from_str _ _ _ _ _ count); [|free_word..|by apply uint_roundtrip].
    cbn [mbind option_bind].
    rewrite (parse_last_words u64_from_str _ _ _ sum); [|free_word..|by apply uint_roundtrip].
    done.
Qed.

Lemma str_lines_from_app line p l :
  10%Z ∉ p → str_lines_from line (p ++ 10%Z :: l) = strip_cr (reverse line ++ p) :: str_lines_from [] l.
Proof.
  revert line; induction p as [|x p IH]; intros line Hp; cbn [str_lines_from app].
  { rewrite decide_True by done. by rewrite app_nil_r. }
  apply not_elem_of_cons in Hp as [Hne Hp]. rewrite decide_False by done. rewrite IH by done.
  by rewrite reverse_cons, <-app_assoc.
Qed.

(** A line ends with the last digit of a number. *)
Lemma strip_cr_number p n : strip_cr (p ++ show_uint n) = p ++ show_uint n.
Proof.
  unfold strip_cr. rewrite reverse_app. pose proof (show_uint_nonempty n) as Hne.
  pose proof (show_uint_digits n) as Hd. apply Forall_reverse in Hd.
  destruct (reverse (show_uint n)) as [|c l] eqn:Hr.
  { apply (f_equal length) in Hr. rewrite length_reverse in Hr. cbn [length] in Hr. lia. }
  apply Forall_cons in Hd as [Hc _]. unfold is_digit in Hc. cbn [app]. rewrite decide_False by lia. done.
Qed.

Lemma words_snoc l q : l ≠ [] → words (l ++ [q]) = words l ++ [32%Z] ++ q.
Proof.
  intros Hne. induction l as [|p l IH]; [done|]. destruct l as [|p' l]; [done|].
  change ((p :: p' :: l) ++ [q]) with (p :: p' :: (l ++ [q])). rewrite !words_cons. rewrite <-app_assoc.
  cbn [app]. do 2 f_equal. by apply IH.
Qed.

Lemma render_line_shape l stat :
  line_stat l stat → (10%Z ∉ render_line l) ∧ ∃ p n, render_line l = p ++ show_uint n.
Proof.
  intros [name value ? ? ?|name p50 p95 p99 p100 count sum v50 v95 v99 v100 ? ? (? & ? & ? & ?) (? & ? & ? & ?)
    (? & ? & ? & ?) (? & ? & ? & ?) ? ?]; unfold render_line; split.
  - rewrite !words_cons. repeat first [apply not_elem_of_app; split | apply not_elem_of_cons; split]; free_word.
  - exists (words [name; chars "COUNT"; chars ":"] ++ [32%Z]), value. by rewrite <-app_assoc, <-words_snoc.
  - rewrite !words_cons. repeat first [apply not_elem_of_app; split | apply not_elem_of_cons; split]; free_word.
  - exists (words [name; chars "P50"; chars ":"; p50; chars "P95"; chars ":"; p95; chars "P99"; chars ":"; p99;
      chars "P100"; chars ":"; p100; chars "COUNT"; chars ":"; show_uint count; chars "SUM"; chars ":"] ++ [32%Z]), sum.
    by rewrite <-app_assoc, <-words_snoc.
Qed.

Lemma str_lines_render l stats :
  Forall2 line_stat l stats → str_lines (render l) = render_line <$> l.
Proof.
  unfold str_lines. induction 1 as [|line stat l stats Hline _ IH]; [done|]. unfold render in *. rewrite bind_cons.
  destruct (render_line_shape line stat Hline) as (Hfree & p & n & Hshape).
  rewrite <-app_assoc. cbn [app]. rewrite str_lines_from_app by done.
  change (reverse [] ++ render_line line) with (render_line line).
  rewrite IH. cbn. f_equal. rewrite Hshape. apply strip_cr_number.
Qed.

(** The statistics RocksDB prints are read back exactly: every ticker and histogram
    under its name, in full 64 bits; and text is refused exactly if one of its lines
    does not have the form of a statistic. *)
Theorem statistics_roundtrip lines stats text :
  Forall2 line_stat lines stats → NoDup (line_name <$> lines) →
  parse_multiple (render lines) = Some (list_to_map (zip (line_name <$> lines) stats)) ∧
  (parse_multiple text = None ↔ ∃ line, line ∈ str_lines text ∧ stat_parse line = None).
Proof.
  intros Hl Hnd. split.
  - unfold parse_multiple. rewrite (str_lines_render lines stats Hl).
    assert (mapM stat_parse (render_line <$> lines) = Some (zip (line_name <$> lines) stats)) as ->.
    { apply mapM_Some. clear Hnd. induction Hl as [|line stat lines stats Hline _ IH]; cbn; constructor; [|done].
      by apply stat_parse_line. }
    cbn. f_equal. apply list_to_map_proper; [|by rewrite reverse_Permutation].
    rewrite reverse_Permutation, fst_zip; [done|]. rewrite length_fmap. apply Forall2_length in Hl. lia.
  - unfold parse_multiple. destruct (mapM stat_parse (str_lines text)) as [l|] eqn:Hm; cbn.
    + split; [done|]. intros (line & Hin & Hnone). apply mapM_Some in Hm.
      apply list_elem_of_lookup in Hin as [i Hi]. destruct (Forall2_lookup_l _ _ _ _ _ Hm Hi) as (y & _ & Hy). congruence.
    + split; [|done]. intros _. apply mapM_None in Hm. by apply Exists_exists in Hm.
Qed.

(** * Counters *)

(** The counters an entry is added to. *)
Definition touches (entry : list Z * Statistic) : list (list Z) :=
  let name := metric_name entry.1 in
  match entry.2 with
  | Ticker _ => [name]
  | HistogramStat _ => [name ++ chars "_count"; name ++ chars "_sum"]
  end.

Lemma export_stat_other reg entry name :
  name ∉ touches entry → reg_counters (export_stat reg entry) !! name = reg_counters reg !! name.
Proof.
  destruct entry as [n [t|h]]; unfold touches, export_stat; cbn [fst snd]; rewrite ?not_elem_of_cons; intros Hn; cbn.
  - by rewrite lookup_insert_ne by (intros <-; tauto).
  - by rewrite !lookup_insert_ne by (intros <-; tauto).
Qed.

Lemma export_others reg entries name :
  Forall (λ entry, name ∉ touches entry) entries →
  reg_counters (foldl export_stat reg entries) !! name = reg_counters reg !! name.
Proof.
  intros Hall. revert reg; induction Hall as [|entry entries Hentry _ IH]; intros reg; [done|].
  cbn [foldl]. rewrite IH. by apply export_stat_other.
Qed.

Lemma export_ticker reg entries1 entries2 n t :
  Forall (λ entry, metric_name n ∉ touches entry) (entries1 ++ entries2) →
  reg_counters (foldl export_stat reg (entries1 ++ (n, Ticker t) :: entries2)) !! metric_name n =
    Some (u64_add (default 0%Z (reg_counters reg !! metric_name n)) t).
Proof.
  intros [H1 H2]%Forall_app. rewrite foldl_app. cbn [foldl]. rewrite export_others by done.
  unfold export_stat; cbn. rewrite lookup_insert_eq. by rewrite export_others.
Qed.

(** A reading of the statistics in which a ticker has a value, and no other statistic
    is exported under its name. *)
Definition reading_of (n : list Z) (text : list Z) (t : Z) : Prop :=
  ∃ stats, parse_multiple text = Some stats ∧ stats !! n = Some (Ticker t) ∧
    (∀ n' stat, stats !! n' = Some stat → n' ≠ n → metric_name n ∉ touches (n', stat)).

Lemma reading_exported order reg n text t :
  (∀ stats, order stats ≡ₚ map_to_list stats) → reading_of n text t →
  reg_counters (custom_metrics true order reg (Some text)) !! metric_name n =
    Some (u64_add (default 0%Z (reg_counters reg !! metric_name n)) t).
Proof.
  intros Hord (stats & Hp & Ht & Hothers). unfold custom_metrics, update_rocksdb_metrics. rewrite Hp.
  assert ((n, Ticker t) ∈ order stats) as Hin by (rewrite Hord; by apply elem_of_map_to_list).
  assert (NoDup (order stats).*1) as Hnd by (rewrite Hord; apply NoDup_fst_map_to_list).
  apply list_elem_of_split in Hin as (e1 & e2 & Heq). rewrite Heq in *. apply export_ticker.
  apply Forall_forall. intros [n' stat] Hentry.
  apply Hothers.
  - apply elem_of_map_to_list. rewrite <-Hord, Heq, elem_of_app, elem_of_cons.
    apply elem_of_app in Hentry. tauto.
  - intros ->. rewrite fmap_app, fmap_cons, NoDup_app in Hnd. cbn in Hnd. rewrite NoDup_cons in Hnd.
    destruct Hnd as (_ & Hnd1 & Hnd2 & _).
    apply elem_of_app in Hentry as [Hentry|Hentry]; apply (list_elem_of_fmap_2 fst) in Hentry; cbn in Hentry.
    + by apply (Hnd1 _ Hentry); left.
    + done.
Qed.

(** The exported counter of a ticker is not the ticker: RocksDB's tickers are
    totals since the database was opened, and the monitor adds the total at every
    tick, so that the counter is the sum of all readings. *)
Theorem tickers_counted_again order n texts values reg :
  (∀ stats, order stats ≡ₚ map_to_list stats) →
  Forall2 (reading_of n) texts values → texts ≠ [] →
  reg_counters (foldl (custom_metrics true order) reg (Some <$> texts)) !! metric_name n =
    Some (wrap 64 (default 0%Z (reg_counters reg !! metric_name n) + foldr Z.add 0%Z values)).
Proof.
  intros Hord Hall. revert reg. induction Hall as [|text t texts values Hread Hall IH]; intros reg Hne; [done|].
  cbn [fmap list_fmap foldl]. pose proof (reading_exported order reg n text t Hord Hread) as Hexp.
  destruct Hall as [|text' t' texts values Hread' Hall].
  - cbn [fmap list_fmap foldl foldr]. rewrite Hexp. by rewrite Z.add_0_r.
  - rewrite IH by done. rewrite Hexp. cbn [from_option id foldr]. f_equal. unfold u64_add, wrap.
    rewrite Zplus_mod_idemp_l. f_equal. lia.
Qed.
End statistics.

(** * The mount point of the database *)

(** A path: whether it is absolute, and its components, the last one first. *)
Definition Path : Type := bool * list string.

(** [Path::parent]. *)
Definition path_parent (path : Path) : option Path :=
  match path.2 with
  | [] => None
  | _ :: parent => Some (path.1, parent)
  end.

(** The loop of [find_storage_mount_point]. *)
Fixpoint mount_loop (is_mount : Path → bool) (absolute : bool) (components : list string) : option Path :=
  if is_mount (absolute, components) then Some (absolute, components)
  else
    match components with
    | [] => None
    | _ :: parent => mount_loop is_mount absolute parent
    end.

(** [mounts] is [None] if the list of mounts cannot be read. *)
Definition find_storage_mount_point (mounts : option (Path → bool)) (path : Path) : option Path :=
  mounts ← mounts; mount_loop mounts path.1 path.2.

Definition rocksdb_mount_point (mounts : option (Path → bool)) (path : Path) : Path :=
  default path (match find_storage_mount_point mounts path with
                | Some mount => Some mount
                | None => path_parent path
                end).

(** The closest mount point: a prefix of the path that is one, with none in between. *)
Lemma mount_point_closest is_mount absolute components p :
  mount_loop is_mount absolute components = Some p ↔
  ∃ below rest, components = below ++ rest ∧ p = (absolute, rest) ∧ is_mount p = true ∧
    ∀ b1 b2, below = b1 ++ b2 → b2 ≠ [] → is_mount (absolute, b2 ++ rest) = false.
Proof.
  induction components as [|c components IH]; cbn;
    [destruct (is_mount (absolute, [])) eqn:Hm|destruct (is_mount (absolute, c :: components)) eqn:Hm].
  - split; [intros Hp; injection Hp as <-; exists [], []; split_and!; try done; by intros [] []|].
    intros (below & rest & Heq & -> & _). by destruct below, rest.
  - split; [done|]. intros (below & rest & Heq & -> & Ht & _). destruct below, rest; try done. congruence.
  - split; [intros Hp; injection Hp as <-; exists [], (c :: components); split_and!; try done; by intros [] []|].
    intros (below & rest & Heq & -> & Ht & Hno). destruct below as [|b below]; [by cbn in Heq; subst|].
    specialize (Hno [] (b :: below) eq_refl ltac:(done)). rewrite <-Heq in Hno. congruence.
  - rewrite IH. split.
    + intros (below & rest & -> & -> & Ht & Hno). exists (c :: below), rest. split_and!; try done.
      intros b1 b2 Heq Hne. destruct b1 as [|b b1]; [cbn in Heq; by subst b2|]. injection Heq as _ Heq. by eapply Hno.
    + intros (below & rest & Heq & -> & Ht & Hno). destruct below as [|b below]; [cbn in Heq; subst; congruence|].
      injection Heq as <- ->. exists below, rest. split_and!; try done.
      intros b1 b2 -> Hne. by apply (Hno (c :: b1) b2).
Qed.

(** * Witnesses *)

(** Percentiles as their text. *)
#[local] Instance toy_floats : Floats := {| f64 := list Z; f64_from_str := Some |}.

Definition toy_lines : list StatLine :=
  [TickerLine (chars "rocksdb.block.cache.miss") 42%Z;
   HistogramLine (chars "rocksdb.db.get.micros") (chars "1.000000") (chars "2.000000") (chars "3.000000")
     (chars "4.000000") 5%Z 6%Z].

Definition toy_stats : list Statistic :=
  [Ticker 42%Z;
   HistogramStat {| h_p50 := chars "1.000000"; h_p95 := chars "2.000000"; h_p99 := chars "3.000000";
                    h_p100 := chars "4.000000"; h_count := 5%Z; h_sum := 6%Z |}].

Lemma toy_lines_stats : Forall2 line_stat toy_lines toy_stats.
Proof.
  repeat constructor; try (apply (bool_decide_unpack _); vm_compute; exact I); unfold fits; lia.
Qed.

Lemma statistics_roundtrip_witness :
  ∃ m, parse_multiple (render toy_lines) = Some m ∧ m !! chars "rocksdb.block.cache.miss" = Some (Ticker 42%Z) ∧
    parse_multiple (chars "rocksdb.no.files.open") = None.
Proof.
  destruct (statistics_roundtrip toy_lines toy_stats (chars "rocksdb.no.files.open") toy_lines_stats)
    as [Hparse Hnone]; [apply (bool_decide_unpack (NoDup _)); vm_compute; exact I|].
  eexists. split; [exact Hparse|]. split; [vm_compute; reflexivity|].
  apply Hnone. exists (chars "rocksdb.no.files.open"). split; [|reflexivity].
  apply (bool_decide_unpack _); vm_compute; exact I.
Defined.

Definition idle_reading : list Z := render [TickerLine (chars "rocksdb.bytes.written") 100%Z].

Lemma tickers_counted_again_witness :
  reg_counters (foldl (custom_metrics true map_to_list) reg_empty [Some idle_reading; Some idle_reading; Some idle_reading])
    !! metric_name (chars "rocksdb.bytes.written") = Some 300%Z.
Proof.
  apply (tickers_counted_again map_to_list (chars "rocksdb.bytes.written")
    [idle_reading; idle_reading; idle_reading] [100; 100; 100]%Z reg_empty); [done| |done].
  assert (reading_of (chars "rocksdb.bytes.written") idle_reading 100) as Hread.
  { exists {[ chars "rocksdb.bytes.written" := Ticker 100%Z ]}.
    split; [vm_compute; reflexivity|]. split; [vm_compute; reflexivity|].
    intros n' stat Hn' Hne. apply lookup_singleton_Some in Hn' as [Heq _]. by destruct Hne. }
  repeat constructor; exact Hread.
Defined.
