(* ===== verification/Cli.v ===== *)
(** Cli: the commands of the two command line tools that change the cluster
    (src/crates/operator_cli/src and src/crates/admin_cli/src).

    A command connects, reads the view, edits what it is about, asks for approval
    and makes one call of the contract through the guards of [Cluster].  Parsing of
    arguments and printing are left out; a command is given its arguments, the view
    and the account that signs. *)
From S2P Require Import Prelude External Sharding SmartContract NodeOperator NodeOperators.
From S2P Require Import Keyspace Settings Migration View ViewInvariant Cluster Concrete.
From S2P Require Import Contract Evm ContractBits ContractInv Chain ChainRead ChainRuns Metrics.
From stdpp Require Import prelude gmap sets list strings pretty.

Inductive CliError :=
| CliNotOperator
| CliWrongIndex
| CliRemoveNode (e : operator_creation_error)
| CliNoClient
| CliNewOperator (e : operator_creation_error)
| CliOperatorNotFound
| CliNoMigration
| CliUpdateOperator (e : update_node_operator_error)
| CliAddOperator (e : add_node_operator_error)
| CliRemoveOperator (e : remove_node_operator_error)
| CliStartMigration (e : start_migration_error)
| CliAbortMigration (e : abort_migration_error)
| CliStartMaintenance (e : start_maintenance_error)
| CliFinishMaintenance (e : finish_maintenance_error)
| CliUpdateSettings (e : update_settings_error)
| CliTransferOwnership (e : transfer_ownership_error).

(** [ask_approval], given the line that was typed. *)
Definition ask_approval (input : Text) : bool := bool_decide (trim input ∈ [chars "y"; chars "yes"]).

Section cli.
Context `{PeerIds, Ff1, Hashing, UnixTime}.
Context `{!Postcard DataV0, !Postcard DataV1, !Postcard ExtraV0, !Postcard ExtraV1}.
Context (encryption_key : list Z).

(** [impl wcn_cluster::Config for ClusterConfig] of both tools. *)
#[local] Instance cli_config : Config Node := plain_config encryption_key.

Implicit Types view : View Node ().

(** * The tool of a node operator *)

Definition current_operator view (signer : Z) : res CliError (NodeOperator Node) :=
  ok_or (ops_get (v_node_operators view) signer) CliNotOperator.

(** The end of every command: the call, if it is approved. *)
Definition update_operator view (signer : Z) (operator : NodeOperator Node) (approved : bool)
    : res CliError (option ScCall) :=
  if approved then
    call ← map_err CliUpdateOperator (cluster_update_node_operator view (Some signer) operator);
    Ok (Some call)
  else Ok None.

(** A command edits the operator of the signer. *)
Definition edit_operator view (signer : Z) (edit : NodeOperator Node → res CliError (NodeOperator Node))
    (approved : bool) : res CliError (option ScCall) :=
  operator ← current_operator view signer;
  operator ← edit operator;
  update_operator view signer operator approved.

(** [add_node]. *)
Definition edit_add_node (node : Node) (operator : NodeOperator Node) : res CliError (NodeOperator Node) :=
  Ok (add_node operator node).

(** [UpdateNodeArgs]; the private address can be set to none. *)
Record UpdateNodeArgs := {
  arg_peer_id : option PeerId;
  arg_ip_address : option Z;
  arg_private_ip_address : option (option Z);
  arg_primary_port : option Z;
  arg_secondary_port : option Z;
}.

Definition updated_node (args : UpdateNodeArgs) (node : Node) : Node := {|
  peer_id := default (peer_id node) (arg_peer_id args);
  ipv4_addr := default (ipv4_addr node) (arg_ip_address args);
  private_ipv4_addr := default (private_ipv4_addr node) (arg_private_ip_address args);
  primary_port := default (primary_port node) (arg_primary_port args);
  secondary_port := default (secondary_port node) (arg_secondary_port args) |}.

Definition edit_update_node (index : nat) (args : UpdateNodeArgs) (operator : NodeOperator Node)
    : res CliError (NodeOperator Node) :=
  node ← ok_or (op_nodes operator !! index) CliWrongIndex;
  Ok (update_node operator index (updated_node args node)).

Definition edit_remove_node (index : nat) (operator : NodeOperator Node) : res CliError (NodeOperator Node) :=
  _ ← ok_or (op_nodes operator !! index) CliWrongIndex;
  map_err CliRemoveNode (remove_node operator index).

Definition with_clients (self : NodeOperator Node) (clients : list Client) : NodeOperator Node :=
  {| op_id := op_id self; op_name := op_name self; op_clients := clients; op_nodes := op_nodes self;
     op_counter := op_counter self |}.

(** [set_client]: the first client with the peer id gets the namespaces, or a new
    client is added. *)
Definition edit_set_client (peer : PeerId) (namespaces : list Z) (operator : NodeOperator Node)
    : res CliError (NodeOperator Node) :=
  let client := {| client_peer_id := peer; authorized_namespaces := namespaces |} in
  Ok (with_clients operator
        match list_find (λ client, client_peer_id client = peer) (op_clients operator) with
        | Some (i, _) => <[i := client]> (op_clients operator)
        | None => op_clients operator ++ [client]
        end).

Definition edit_remove_client (peer : PeerId) (operator : NodeOperator Node)
    : res CliError (NodeOperator Node) :=
  found ← ok_or (list_find (λ client, client_peer_id client = peer) (op_clients operator)) CliNoClient;
  Ok (with_clients operator (delete found.1 (op_clients operator))).

Definition edit_rename (name : string) (operator : NodeOperator Node) : res CliError (NodeOperator Node) :=
  Ok {| op_id := op_id operator; op_name := name; op_clients := op_clients operator;
        op_nodes := op_nodes operator; op_counter := op_counter operator |}.

(** The commands that edit the operator. *)
Inductive EditCommand :=
| NodeAdd (node : Node)
| NodeUpdate (index : nat) (args : UpdateNodeArgs)
| NodeRemove (index : nat)
| ClientSet (peer : PeerId) (namespaces : list Z)
| ClientRemove (peer : PeerId)
| Rename (name : string).

Definition command_edit (cmd : EditCommand) : NodeOperator Node → res CliError (NodeOperator Node) :=
  match cmd with
  | NodeAdd node => edit_add_node node
  | NodeUpdate index args => edit_update_node index args
  | NodeRemove index => edit_remove_node index
  | ClientSet peer namespaces => edit_set_client peer namespaces
  | ClientRemove peer => edit_remove_client peer
  | Rename name => edit_rename name
  end.

(** [maintenance::Command], of both tools. *)
Inductive MaintenanceCommand := MaintenanceStart | MaintenanceFinish.

Definition maintenance_execute view (signer : Z) (cmd : MaintenanceCommand) : res CliError (option ScCall) :=
  match cmd with
  | MaintenanceStart => Some <$> map_err CliStartMaintenance (cluster_start_maintenance view (Some signer))
  | MaintenanceFinish => Some <$> map_err CliFinishMaintenance (cluster_finish_maintenance view (Some signer))
  end.

Inductive OperatorCommand :=
| OperatorEdit (cmd : EditCommand) (auto_approve : bool)
| OperatorMaintenance (cmd : MaintenanceCommand).

Definition operator_execute view (signer : Z) (cmd : OperatorCommand) (input : Text)
    : res CliError (option ScCall) :=
  match cmd with
  | OperatorEdit cmd auto_approve =>
      edit_operator view signer (command_edit cmd) (auto_approve || ask_approval input)
  | OperatorMaintenance cmd => maintenance_execute view signer cmd
  end.

(** * The tool of the owner *)

(** [OperatorIdentifier]. *)
Inductive OperatorIdentifier := IdentId (id : Z) | IdentIdx (idx : Z).

Definition find_operator view (ident : OperatorIdentifier) : res CliError (NodeOperator Node) :=
  match ident with
  | IdentId id => ok_or (ops_get (v_node_operators view) id) CliOperatorNotFound
  | IdentIdx idx => ok_or (get_by_idx (v_node_operators view) idx) CliOperatorNotFound
  end.

Inductive AdminCommand :=
| OperatorSet (id : Z) (name : string) (nodes : list Node)
| OperatorRemove (id : Z)
| MigrationStart (add remove : list OperatorIdentifier)
| MigrationAbort
| AdminMaintenance (cmd : MaintenanceCommand)
| SettingsUpdate (tx rx : option Z)
| OwnershipTransfer (new_owner : Z)
| OwnershipAccept.

Definition set_operator view (signer id : Z) (name : string) (nodes : list Node) (approved : bool)
    : res CliError (option ScCall) :=
  operator ← map_err CliNewOperator (node_operator_new id name nodes []);
  match ops_get (v_node_operators view) id with
  | Some _ => update_operator view signer operator approved
  | None =>
      if approved then
        call ← map_err CliAddOperator (cluster_add_node_operator view (Some signer) operator);
        Ok (Some call)
      else Ok None
  end.

Definition start_migration view (signer : Z) (add remove : list OperatorIdentifier) (approved : bool)
    : res CliError (option ScCall) :=
  add ← res_map (find_operator view) add;
  remove ← res_map (find_operator view) remove;
  let plan := {| plan_remove := list_to_set (op_id <$> remove); plan_add := list_to_set (op_id <$> add);
                 plan_replication_strategy := UniformDistribution |} in
  if approved then
    call ← map_err CliStartMigration (cluster_start_migration view (Some signer) plan);
    Ok (Some call)
  else Ok None.

Definition abort_migration view (signer : Z) : res CliError (option ScCall) :=
  migration ← ok_or (view_migration view) CliNoMigration;
  call ← map_err CliAbortMigration (cluster_abort_migration view (Some signer) (mig_id migration));
  Ok (Some call).

Definition updated_settings (tx rx : option Z) (s : Settings) : Settings := {|
  max_node_operator_data_bytes := max_node_operator_data_bytes s;
  event_propagation_latency := event_propagation_latency s; clock_skew := clock_skew s;
  migration_concurrency := migration_concurrency s;
  migration_tx_bandwidth := default (migration_tx_bandwidth s) tx;
  migration_rx_bandwidth := default (migration_rx_bandwidth s) rx |}.

Definition cli_update_settings view (signer : Z) (tx rx : option Z) (approved : bool)
    : res CliError (option ScCall) :=
  let settings := updated_settings tx rx (v_settings view) in
  if approved then Some <$> map_err CliUpdateSettings (cluster_update_settings view (Some signer) settings)
  else Ok None.

Definition remove_operator view (id : Z) : res CliError (option ScCall) :=
  Some <$> map_err CliRemoveOperator (cluster_remove_node_operator view id).

Definition cli_transfer_ownership view (signer new_owner : Z) (approved : bool) : res CliError (option ScCall) :=
  if approved then
    Some <$> map_err CliTransferOwnership (cluster_transfer_ownership view (Some signer) new_owner)
  else Ok None.

(** The contract decides whether the signer is the pending owner. *)
Definition cli_accept_ownership : res CliError (option ScCall) := Ok (Some CallAcceptOwnership).

Definition admin_execute view (signer : Z) (cmd : AdminCommand) (input : Text)
    : res CliError (option ScCall) :=
  let approved := ask_approval input in
  match cmd with
  | OperatorSet id name nodes => set_operator view signer id name nodes approved
  | OperatorRemove id => remove_operator view id
  | MigrationStart add remove => start_migration view signer add remove approved
  | MigrationAbort => abort_migration view signer
  | AdminMaintenance cmd => maintenance_execute view signer cmd
  | SettingsUpdate tx rx => cli_update_settings view signer tx rx approved
  | OwnershipTransfer new_owner => cli_transfer_ownership view signer new_owner approved
  | OwnershipAccept => cli_accept_ownership
  end.

(** [deploy]: operators with dummy names and nodes; [peer] is random. *)
Definition deploy_operators (peers : nat → PeerId) (ids : list Z) : res operator_creation_error (list (NodeOperator Node)) :=
  res_map (λ '(idx, id),
    let node := {| peer_id := peers idx; ipv4_addr := 167772160; private_ipv4_addr := None;
                   primary_port := 3010; secondary_port := 3011 |} in
    node_operator_new id ("Operator" +:+ pretty idx) [node; node] []) (imap pair ids).
End cli.

(** * What a call changes *)

Section visible.
Context `{PeerIds, Ff1Laws, HashingLaws, UnixTime, LibBitLaws}.
Context `{!Postcard DataV0, !Postcard DataV1, !Postcard ExtraV0, !Postcard ExtraV1}.
Context `{!PostcardLaws DataV0, !PostcardLaws DataV1, !PostcardLaws ExtraV0, !PostcardLaws ExtraV1}.
Context (encryption_key : list Z).
#[local] Existing Instance cli_config.
#[local] Instance key_config : Config Node := cli_config encryption_key.

Implicit Types v : View Node ().

(** The same operator, with the load-balancing counter wherever it is. *)
Definition same_operator (a b : NodeOperator Node) : Prop := op_with_counter a 0 = op_with_counter b 0.

#[local] Instance same_operator_equiv : Equivalence same_operator.
Proof. split; [by intros ?|by intros ? ?|by intros ? ? ?; unfold same_operator; congruence]. Qed.

Lemma operator_follows_same sol (a b : NodeOperator Node) :
  operator_follows sol a → operator_follows sol b → same_operator a b.
Proof.
  intros [ca Ha] [cb Hb]. assert (op_with_counter a ca = op_with_counter b cb) as Heq by congruence.
  destruct a, b. unfold same_operator, op_with_counter in *. cbn in *. by simplify_eq.
Qed.

Lemma follow_ops_get c v idx :
  contract_wf c → view_wf v → follows c v → idx ∈ operators_of c →
  ∃ op, ops_get (v_node_operators v) (sol_addr (slot_at c idx)) = Some op ∧
    operator_follows (slot_at c idx) op.
Proof.
  intros Hc Hv Hf Hin. destruct (sv_set _ (cw_slots _ Hc) _ Hin) as [Hne Hidx].
  destruct (of_set _ _ (fo_operators _ _ Hf) _ Hin) as (op & Hop & Hfol).
  exists op. split; [|done]. unfold ops_get.
  rewrite (follow_get_idx c); [|apply Hc|apply Hv|apply Hf|done|by rewrite Hidx].
  by rewrite Hidx.
Qed.

Lemma ops_get_follow c v id op :
  contract_wf c → view_wf v → follows c v → ops_get (v_node_operators v) id = Some op →
  ∃ idx, idx ∈ operators_of c ∧ sol_addr (slot_at c idx) = id ∧ operator_follows (slot_at c idx) op.
Proof.
  intros Hc Hv Hf. unfold ops_get. destruct (get_idx (v_node_operators v) id) as [idx|] eqn:Hidx; [|done].
  cbn. intros Hop. apply get_idx_Some in Hidx as (Hnn & op' & Hop' & Hid); [|apply Hv].
  destruct (follow_get_by_idx c (v_node_operators v) (fo_operators _ _ Hf) _ _ Hnn Hop) as [Hin Heq].
  exists idx. split_and!; [done|congruence|].
  destruct (of_set _ _ (fo_operators _ _ Hf) _ Hin) as (op'' & Hop'' & Hfol). congruence.
Qed.

Lemma encoded_operator_follows op sc op' :
  MIN_NODES ≤ length (op_nodes op) → Forall node_wf (op_nodes op) →
  operator_try_into_sc encryption_key op = Ok sc → operator_follows (operator_to_evm sc) op' →
  same_operator op' op.
Proof.
  intros Hlen Hwf Hsc [counter Hop'].
  destruct (operator_sc_roundtrip op encryption_key Hlen Hwf) as (sc' & Hsc' & _ & Hdec).
  assert (sc' = sc) as -> by congruence.
  assert (operator_of_evm (operator_to_evm sc) = sc) as Hev by (by destruct sc). rewrite Hev in Hop'.
  unfold operator_from_sc in Hop'. change (key_config) with (plain_config encryption_key) in Hop'.
  rewrite Hdec in Hop'. apply Ok_inj in Hop'. destruct op, op'. unfold same_operator, op_with_counter in *.
  cbn in *. by simplify_eq.
Qed.

(** What a view of the new state shows of the operators. *)
Record shows_edit v v' (op : NodeOperator Node) : Prop := {
  se_edited : ∃ op', ops_get (v_node_operators v') (op_id op) = Some op' ∧ same_operator op' op;
  se_others id op0 : id ≠ op_id op → ops_get (v_node_operators v) id = Some op0 →
    ∃ op', ops_get (v_node_operators v') id = Some op' ∧ same_operator op' op0;
}.

(** Operators after a slot was written. *)
Lemma slot_written_visible c v c' v' i op sc :
  contract_wf c → view_wf v → follows c v → contract_wf c' → view_wf v' → follows c' v' →
  MIN_NODES ≤ length (op_nodes op) → Forall node_wf (op_nodes op) →
  operator_try_into_sc encryption_key op = Ok sc →
  i ∈ operators_of c' → slot_at c' i = operator_to_evm sc →
  (∀ j, j ≠ i → j ∈ operators_of c → j ∈ operators_of c' ∧ slot_at c' j = slot_at c j) →
  (i ∈ operators_of c → sol_addr (slot_at c i) = op_id op) →
  shows_edit v v' op.
Proof.
  intros Hc Hv Hf Hc' Hv' Hf' Hlen Hwf Hsc Hi Hslot Hother Hold.
  pose proof (operator_try_into_sc_id _ _ _ Hsc) as Hid. split.
  - destruct (follow_ops_get c' v' i Hc' Hv' Hf' Hi) as (op' & Hget & Hfol). rewrite Hslot in Hget, Hfol.
    exists op'. split; [by rewrite <-Hid|]. by eapply encoded_operator_follows.
  - intros id op0 Hne Hget. destruct (ops_get_follow c v id op0 Hc Hv Hf Hget) as (j & Hj & Haddr & Hfol).
    assert (j ≠ i) as Hji by (intros ->; specialize (Hold Hj); congruence).
    destruct (Hother j Hji Hj) as [Hj' Hslot'].
    destruct (follow_ops_get c' v' j Hc' Hv' Hf' Hj') as (op' & Hget' & Hfol').
    rewrite Hslot', Haddr in Hget'. rewrite Hslot' in Hfol'. exists op'. split; [done|].
    by eapply operator_follows_same.
Qed.

Lemma update_visible msg c v signer op call c' evt v' :
  contract_wf c → view_wf v → follows c v → msg_sane msg → op_id op ≠ 0%Z →
  MIN_NODES ≤ length (op_nodes op) → Forall node_wf (op_nodes op) →
  cluster_update_node_operator v (Some signer) op = Ok call →
  evm_write msg c call = Some (Ok (c', evt)) → view_wf v' → follows c' v' → shows_edit v v' op.
Proof.
  intros Hc Hv Hf Hmsg Hne Hlen Hwf Hcall Hwrite Hv' Hf'.
  unfold cluster_update_node_operator in Hcall. cbn in Hcall. destruct (_ || _); [|done].
  apply bind_Ok in Hcall as (idx & _ & Hcall).
  apply bind_Ok in Hcall as (sc & Hsc%map_err_Ok & Hcall). apply bind_Ok in Hcall as ([] & _ & <-%Ok_inj).
  pose proof (operator_try_into_sc_id _ _ _ Hsc) as Hid.
  assert (contract_wf c') as Hc' by (eapply evm_write_wf; [done|done| |done]; cbn; congruence).
  cbn in Hwrite. injection Hwrite as Hwrite.
  apply updateNodeOperatorData_Ok in Hwrite as (Haddr & _ & -> & _). cbn in Haddr. rewrite Hid in *.
  pose proof (operator_slot _ _ (cw_slots _ Hc) Hne Haddr) as Hin.
  eapply (slot_written_visible c v _ v' (index_of c (op_id op)) op sc); try done.
  - rewrite slot_at_insert, decide_True by done. destruct sc; cbn in *. by rewrite Hid.
  - intros j Hj Hjin. split; [done|]. by rewrite slot_at_insert, decide_False.
Qed.

Lemma add_visible msg c v signer op call c' evt v' :
  contract_wf c → view_wf v → follows c v → msg_sane msg →
  MIN_NODES ≤ length (op_nodes op) → Forall node_wf (op_nodes op) →
  cluster_add_node_operator v (Some signer) op = Ok call →
  evm_write msg c call = Some (Ok (c', evt)) → view_wf v' → follows c' v' → shows_edit v v' op.
Proof.
  intros Hc Hv Hf Hmsg Hlen Hwf Hcall Hwrite Hv' Hf'.
  unfold cluster_add_node_operator in Hcall. cbn in Hcall.
  apply bind_Ok in Hcall as ([] & _ & Hcall). apply bind_Ok in Hcall as ([] & _ & Hcall).
  apply bind_Ok in Hcall as ([] & _ & Hcall).
  apply bind_Ok in Hcall as (sc & Hsc%map_err_Ok & Hcall). apply bind_Ok in Hcall as ([] & _ & <-%Ok_inj).
  pose proof (cw_slots _ Hc) as Hs. pose proof Hwrite as Hok. cbn in Hok. injection Hok as Hok.
  apply addNodeOperator_Ok in Hok as (Hfull & Hne & Hidx & Hz & Hver & Heq & _).
  assert (contract_wf c') as Hc' by (eapply evm_write_wf; [done|done| |done]; done).
  set (i := bm_findFirstUnset (c_operatorBitmask c)) in *.
  destruct (findFirstUnset_bits _ (sv_bitmask _ Hs) Hfull) as (Hi & Hout & _).
  destruct (bits_set _ _ (sv_bitmask _ Hs) Hi) as [_ Hbits]. fold i in Hi, Hout, Hbits. subst c'.
  eapply (slot_written_visible c v _ v' i op sc); try done.
  - unfold operators_of; cbn. rewrite Hbits. clear -Hi; set_solver.
  - by rewrite slot_at_insert, decide_True.
  - intros j Hj Hjin. split; [unfold operators_of in *; cbn; rewrite Hbits; clear -Hjin; set_solver|].
    by rewrite slot_at_insert, decide_False.
Qed.

Lemma command_edit_wf cmd op op1 :
  op_wf op → command_edit cmd op = Ok op1 → op_wf op1 ∧ op_id op1 = op_id op.
Proof.
  intros [Hn Hc] Hedit. destruct cmd; cbn in Hedit.
  - apply Ok_inj in Hedit as <-. split; [|done]. split; cbn; [rewrite length_app; lia|done].
  - apply bind_Ok in Hedit as (node & _ & <-%Ok_inj). split; [|done]. split; cbn; [by rewrite length_insert|done].
  - apply bind_Ok in Hedit as (node & _ & Hedit%map_err_Ok). split; [by eapply remove_node_wf|].
    unfold remove_node in Hedit. case_decide; [done|]. case_decide; by apply Ok_inj in Hedit as <-.
  - by apply Ok_inj in Hedit as <-.
  - by apply bind_Ok in Hedit as (found & _ & <-%Ok_inj).
  - by apply Ok_inj in Hedit as <-.
Qed.

Lemma current_operator_Ok c v signer op :
  contract_wf c → view_wf v → follows c v → current_operator v signer = Ok op →
  op_wf op ∧ op_id op = signer ∧ signer ≠ 0%Z.
Proof.
  intros Hc Hv Hf Hget. unfold current_operator, ok_or in Hget.
  destruct (ops_get _ _) as [op0|] eqn:Hops; [|done]. apply Ok_inj in Hget as ->.
  destruct (ops_get_follow c v signer op Hc Hv Hf Hops) as (idx & Hin & Haddr & _).
  destruct (sv_set _ (cw_slots _ Hc) _ Hin) as [Hne _].
  apply ops_get_Some in Hops as [Hiter Hid]; [|apply Hv]. split_and!; [by apply Hv|done|congruence].
Qed.

(** C38. A command of the operator's tool, once approved and written to the contract,
    is visible as that edit: in every view that follows the new contract the
    signer's operator is the edited one (up to the load-balancing counter), and
    every other operator of the view the command was given is unchanged.
    Declining the edit makes no call at all. *)
Theorem operator_command_visible c v signer cmd auto_approve input op op1 :
  contract_wf c → view_wf v → follows c v →
  current_operator v signer = Ok op → command_edit cmd op = Ok op1 → Forall node_wf (op_nodes op1) →
  (auto_approve || ask_approval input = false →
    operator_execute encryption_key v signer (OperatorEdit cmd auto_approve) input = Ok None) ∧
  (∀ msg call c' evt v', msg_sane msg →
    operator_execute encryption_key v signer (OperatorEdit cmd auto_approve) input = Ok (Some call) →
    evm_write msg c call = Some (Ok (c', evt)) → view_wf v' → follows c' v' →
    op_id op1 = signer ∧ shows_edit v v' op1).
Proof.
  intros Hc Hv Hf Hop Hedit Hnodes. destruct (current_operator_Ok c v signer op Hc Hv Hf Hop) as (Hwf & Hid & Hne).
  destruct (command_edit_wf cmd op op1 Hwf Hedit) as [Hwf1 Hid1]. split.
  - intros Happ. cbn. unfold edit_operator. rewrite Hop. cbn. rewrite Hedit. cbn. by rewrite Happ.
  - intros msg call c' evt v' Hmsg Hcall Hwrite Hv' Hf'. cbn in Hcall. unfold edit_operator in Hcall.
    rewrite Hop in Hcall. cbn in Hcall. rewrite Hedit in Hcall. cbn in Hcall. unfold update_operator in Hcall.
    destruct (_ || _); [|done]. apply bind_Ok in Hcall as (call' & Hcall%map_err_Ok & [= ->]%Ok_inj).
    split; [congruence|]. eapply update_visible; [done|done|done|exact Hmsg| |apply Hwf1|done|exact Hcall|done|done|done].
    congruence.
Qed.

(** [wcn_admin operator set] on an operator that is in the cluster removes all of
    its clients: the new operator is built with no clients, and every view of the
    written state shows it so. *)
Theorem set_operator_drops_clients msg c v signer id name nodes input op call c' evt v' :
  contract_wf c → view_wf v → follows c v → msg_sane msg →
  ops_get (v_node_operators v) id = Some op → Forall node_wf nodes →
  admin_execute encryption_key v signer (OperatorSet id name nodes) input = Ok (Some call) →
  evm_write msg c call = Some (Ok (c', evt)) → view_wf v' → follows c' v' →
  ∃ op', ops_get (v_node_operators v') id = Some op' ∧
    op_name op' = name ∧ op_nodes op' = nodes ∧ op_clients op' = [].
Proof.
  intros Hc Hv Hf Hmsg Hget Hnodes Hcall Hwrite Hv' Hf'.
  destruct (current_operator_Ok c v id op Hc Hv Hf) as (_ & _ & Hne).
  { unfold current_operator. by rewrite Hget. }
  cbn in Hcall. unfold set_operator in Hcall.
  apply bind_Ok in Hcall as (op1 & Hnew%map_err_Ok & Hcall). rewrite Hget in Hcall. unfold update_operator in Hcall.
  destruct (ask_approval _); [|done]. apply bind_Ok in Hcall as (call' & Hcall%map_err_Ok & [= ->]%Ok_inj).
  pose proof (node_operator_new_wf _ _ _ _ _ Hnew) as [Hlen _].
  unfold node_operator_new in Hnew. case_decide; [done|]. apply Ok_inj in Hnew.
  destruct (update_visible msg c v signer op1 call c' evt v') as [(op' & Hop' & Hsame) _];
    try (done || by subst op1); [].
  subst op1. exists op'. split; [exact Hop'|]. destruct op'. unfold same_operator, op_with_counter in Hsame.
  cbn in *. by simplify_eq.
Qed.
End visible.

(** * Witnesses *)

#[local] Existing Instance toy_peer_ids.
#[local] Existing Instance toy_ff1.
#[local] Existing Instance toy_ff1_laws.
#[local] Existing Instance toy_hashing.
#[local] Existing Instance toy_hashing_laws.
#[local] Existing Instance toy_unix_time.
#[local] Existing Instance toy_libbit.
#[local] Existing Instance toy_libbit_laws.
#[local] Existing Instance toy_d0.
#[local] Existing Instance toy_d1.
#[local] Existing Instance toy_e0.
#[local] Existing Instance toy_e1.
#[local] Existing Instance toy_d0_laws.
#[local] Existing Instance toy_d1_laws.
#[local] Existing Instance toy_e0_laws.
#[local] Existing Instance toy_e1_laws.
#[local] Instance toy_cli_config : Config Node := cli_config [42]%Z.

(** A cluster with room for the records of the toy encoding. *)
Definition roomy_settings : ScSettings :=
  {| sc_max_node_operator_data_bytes := 65535%Z; sc_extra := sc_extra chain_settings |}.

Definition roomy : Contract :=
  match evm_deploy roomy_settings chain_operators with
  | Ok (c, _) => c
  | _ => zero_contract (settings_to_evm roomy_settings)
  end.

Definition view_of (c : Contract) : option (View Node ()) :=
  match evm_cluster_view by_owner c with
  | Ok cv => match view_try_from_sc cv with Ok v => Some v | _ => None end
  | _ => None
  end.

Lemma roomy_wf : contract_wf roomy.
Proof.
  assert (is_ok (evm_deploy roomy_settings chain_operators) = true) as Hok by (vm_compute; reflexivity).
  assert (is_ok (settings_try_from_sc roomy_settings) = true) as Hset by (vm_compute; reflexivity).
  destruct chain_operators_ok as [Hnd Hz]. unfold roomy.
  destruct (evm_deploy roomy_settings chain_operators) as [[c evt]| |] eqn:Hdep; [|done..].
  destruct (settings_try_from_sc roomy_settings) as [s| |] eqn:Hs; [|done..].
  by destruct (initialize_wf _ _ _ _ (ex_intro _ s Hs) epoch_ok Hnd Hz Hdep) as [Hwf _].
Qed.

Lemma view_of_wf c : contract_wf c → ∃ v, view_of c = Some v ∧ view_wf v ∧ follows c v.
Proof.
  intros Hc. destruct (read_follows (N := Node) (S := ()) by_owner c Hc) as (cv & v & Hcv & Hv & Hwf & Hf & _).
  exists v. unfold view_of. by rewrite Hcv, Hv.
Qed.

(** A command that updates an operator, and that the contract accepts. *)
Definition accepted (c : Contract) (msg : Msg) (execute : View Node () → res CliError (option ScCall)) : bool :=
  match view_of c with
  | Some v =>
      match execute v with
      | Ok (Some (CallUpdateNodeOperator op)) =>
          negb (sc_op_id op =? 0)%Z &&
          match evm_write msg c (CallUpdateNodeOperator op) with Some (Ok _) => true | _ => false end
      | _ => false
      end
  | None => false
  end.

Lemma accepted_run c msg execute :
  contract_wf c → msg_sane msg → accepted c msg execute = true →
  ∃ v call c' evt v', view_of c = Some v ∧ view_wf v ∧ follows c v ∧ execute v = Ok (Some call) ∧
    evm_write msg c call = Some (Ok (c', evt)) ∧ view_wf v' ∧ follows c' v'.
Proof.
  intros Hc Hmsg Hacc. destruct (view_of_wf c Hc) as (v & Hv & Hwf & Hf). unfold accepted in Hacc.
  rewrite Hv in Hacc. destruct (execute v) as [[call|]| |] eqn:Hex; try discriminate Hacc.
  destruct call as [| | | | | |op| | | |]; try discriminate Hacc.
  apply andb_prop in Hacc as [Hne%negb_true_iff%Z.eqb_neq Hw].
  destruct (evm_write msg c (CallUpdateNodeOperator op)) as [[[c' evt]| |]|] eqn:Hwrite; try discriminate Hw.
  assert (contract_wf c') as Hc' by (eapply evm_write_wf; [exact Hc|exact Hmsg| |exact Hwrite]; exact Hne).
  destruct (view_of_wf _ Hc') as (v' & _ & Hwf' & Hf').
  by exists v, (CallUpdateNodeOperator op), c', evt, v'.
Qed.

Definition third_node : Node := toy_node 31%Z 134283265%Z.

Lemma roomy_third :
  match view_of roomy with
  | Some v =>
      match ops_get (v_node_operators v) 3 with
      | Some op => op_nodes op = op_nodes (operator_new_corrupted 3 : NodeOperator Node)
      | None => False
      end
  | None => False
  end.
Proof. vm_compute. reflexivity. Qed.

Lemma operator_command_visible_witness :
  ∃ (v v' : View Node ()) op', view_of roomy = Some v ∧ ops_get (v_node_operators v') 3 = Some op' ∧ length (op_nodes op') = 3.
Proof.
  set (cmd := NodeAdd third_node).
  destruct (accepted_run roomy (by_operator 3) (λ v, operator_execute [42]%Z v 3 (OperatorEdit cmd true) []))
    as (v & call & c' & evt & v' & Hv & Hwf & Hf & Hex & Hwrite & Hwf' & Hf');
    [exact roomy_wf|by apply toy_msg_sane|vm_compute; reflexivity|].
  pose proof roomy_third as Hthird. rewrite Hv in Hthird.
  destruct (ops_get (v_node_operators v) 3) as [op|] eqn:Hget; [|by destruct Hthird].
  assert (current_operator v 3 = Ok op) as Hop by (unfold current_operator; by rewrite Hget).
  destruct (operator_command_visible [42]%Z roomy v 3 cmd true [] op (add_node op third_node) roomy_wf Hwf Hf Hop
    eq_refl) as [_ Hvis].
  { cbn. rewrite Hthird. repeat constructor; cbn; done. }
  destruct (Hvis (by_operator 3) call c' evt v' ltac:(by apply toy_msg_sane) Hex Hwrite Hwf' Hf')
    as [Hid [(op' & Hop' & Hsame) _]].
  exists v, v', op'. split; [exact Hv|]. rewrite Hid in Hop'. split; [exact Hop'|].
  apply (f_equal (λ o, length (op_nodes o))) in Hsame. cbn in Hsame. rewrite Hsame, Hthird. reflexivity.
Defined.

Lemma set_operator_drops_clients_witness :
  ∃ (v v' : View Node ()) op', view_of roomy = Some v ∧ ops_get (v_node_operators v') 3 = Some op' ∧ op_name op' = "third" ∧
    op_clients op' = [].
Proof.
  set (nodes := [third_node; third_node]).
  destruct (accepted_run roomy by_owner (λ v, admin_execute [42]%Z v 99 (OperatorSet 3 "third" nodes) (chars "yes")))
    as (v & call & c' & evt & v' & Hv & Hwf & Hf & Hex & Hwrite & Hwf' & Hf');
    [exact roomy_wf|by apply toy_msg_sane|vm_compute; reflexivity|].
  pose proof roomy_third as Hthird. rewrite Hv in Hthird.
  destruct (ops_get (v_node_operators v) 3) as [op|] eqn:Hop; [|by destruct Hthird].
  destruct (set_operator_drops_clients [42]%Z by_owner roomy v 99 3 "third" nodes (chars "yes") op call c' evt v'
    roomy_wf Hwf Hf ltac:(by apply toy_msg_sane) Hop) as (op' & Hop' & Hname & _ & Hclients);
    [repeat constructor; cbn; done|exact Hex|exact Hwrite|exact Hwf'|exact Hf'|].
  exists v, v', op'. exact (conj Hv (conj Hop' (conj Hname Hclients))).
Defined.
