(* ===== verification/CliText.v ===== *)
(** CliText: the texts that users of the program write: arguments of the command
    line tools and namespaces (src/crates/admin_cli/src/operator.rs and
    migration.rs, src/crates/operator_cli/src/node.rs,
    src/crates/cluster/src/smart_contract/mod.rs, src/crates/storage_api/src/lib.rs).

    Peer ids and hexadecimal text are those of the crates libp2p and const-hex. *)
From S2P Require Import Prelude External Text StorageApi NodeOperator Metrics Cli.
From stdpp Require Import prelude list strings.
#[local] Open Scope Z_scope.

(** * External crates *)

Class PeerText `{PeerIds} := {
  peer_from_str : list Z → option PeerId;
  peer_to_str : PeerId → list Z;
}.

(** The text of a peer id is base 58. *)
Class PeerTextLaws `{PeerText} := {
  peer_roundtrip p : peer_from_str (peer_to_str p) = Some p;
  peer_no_space p : 32 ∉ peer_to_str p;
}.

(** [const_hex::decode_to_slice] and [decode_to_array]: exactly [n] bytes. *)
Class Hex := { hex_decode : nat → list Z → option (list Z) }.

Class HexLaws `{Hex} := {
  hex_length n s b : hex_decode n s = Some b → length b = n;
  hex_bytes n s b : hex_decode n s = Some b → Forall is_byte b;
}.

(** * Addresses *)

(** [str::strip_prefix] of [0x]. *)
Definition strip_0x (s : list Z) : list Z :=
  match s with
  | c1 :: c2 :: rest => if decide (c1 = 48 ∧ c2 = 120) then rest else s
  | _ => s
  end.

(** [FromStr for AccountAddress]; an address is the number of its bytes. *)
Definition account_from_str `{Hex} (s : list Z) : option Z :=
  from_be_bytes <$> hex_decode 20 (strip_0x s).

(** [FromStr for OperatorIdentifier]: an index if it is one. *)
Definition operator_identifier_from_str `{Hex} (s : list Z) : option OperatorIdentifier :=
  match uint_from_str 8 s with
  | Some idx => Some (IdentIdx idx)
  | None => IdentId <$> account_from_str s
  end.

(** [OptionalIpv4Addr]. *)
Definition optional_ipv4_from_str (s : list Z) : option (option Z) :=
  if decide (s = chars "None") then Some None else Some <$> ipv4_from_str s.

(** * Nodes *)

Inductive NodeArgError :=
| NodeArgMissing (part : string)
| NodeArgPeerId | NodeArgIpv4 | NodeArgPrivateIpv4 | NodeArgPrimaryPort | NodeArgSecondaryPort
| NodeArgTooManyParts.

(** [parts.next()] *)
Definition next_part (name : string) (parts : list (list Z)) : res NodeArgError (list Z * list (list Z)) :=
  match parts with
  | [] => Err (NodeArgMissing name)
  | part :: parts => Ok (part, parts)
  end.

(** The private address can be [None]. *)
Definition private_ipv4_from_str (part : list Z) : res NodeArgError (option Z) :=
  if decide (part = chars "None") then Ok None
  else Some <$> ok_or (ipv4_from_str part) NodeArgPrivateIpv4.

Definition show_private_ipv4 (ip : option Z) : list Z :=
  match ip with Some ip => show_ipv4 ip | None => chars "None" end.

Section nodes.
Context `{PeerText}.

(** [FromStr for Node] of the owner's tool. *)
Definition node_from_str (s : list Z) : res NodeArgError Node :=
  let parts := str_split 32 s in
  '(part, parts) ← next_part "peer_id" parts;
  peer ← ok_or (peer_from_str part) NodeArgPeerId;
  '(part, parts) ← next_part "ipv4_addr" parts;
  ip ← ok_or (ipv4_from_str part) NodeArgIpv4;
  '(part, parts) ← next_part "private_ipv4_addr" parts;
  private_ip ← private_ipv4_from_str part;
  '(part, parts) ← next_part "primary_port" parts;
  primary ← ok_or (uint_from_str 16 part) NodeArgPrimaryPort;
  '(part, parts) ← next_part "secondary_port" parts;
  secondary ← ok_or (uint_from_str 16 part) NodeArgSecondaryPort;
  match parts with
  | _ :: _ => Err NodeArgTooManyParts
  | [] => Ok {| peer_id := peer; ipv4_addr := ip; private_ipv4_addr := private_ip;
                primary_port := primary; secondary_port := secondary |}
  end.

(** The line of a node in [print_node_operator], after its index. *)
Definition show_node (node : Node) : list Z :=
  join_on 32 [peer_to_str (peer_id node); show_ipv4 (ipv4_addr node);
              show_private_ipv4 (private_ipv4_addr node);
              show_uint (primary_port node); show_uint (secondary_port node)].
End nodes.

(** * Namespaces *)

Inductive InvalidNamespaceError :=
| NotEnoughComponents | TooManyComponents | InvalidNodeOperatorId | InvalidNamespaceId.

(** [FromStr for Namespace]. *)
Definition namespace_from_str `{Hex} (s : list Z) : res InvalidNamespaceError Namespace :=
  match str_split 47 s with
  | operator_id :: id :: parts =>
      match parts with
      | _ :: _ => Err TooManyComponents
      | [] =>
          bytes ← ok_or (hex_decode 20 operator_id) InvalidNodeOperatorId;
          id ← ok_or (uint_from_str 8 id) InvalidNamespaceId;
          Ok (bytes ++ [id])
      end
  | _ => Err NotEnoughComponents
  end.

(** * Theorems *)

Lemma uint_from_str_fits w s n : uint_from_str w s = Some n → 0 ≤ n < 2 ^ w.
Proof.
  unfold uint_from_str. case_decide; [done|]. destruct (read_digits 0 (strip_plus s)) as [m|] eqn:Hm; [|done].
  case_decide; [|done]. intros [= <-]. split; [|done]. clear -Hm.
  assert (∀ l acc m, 0 ≤ acc → read_digits acc l = Some m → 0 ≤ m) as Hpos.
  { clear. induction l as [|c l IH]; intros acc m Hacc; cbn; [by intros [= <-]|]. unfold digit. case_decide; [|done].
    apply IH. lia. }
  by eapply Hpos.
Qed.

(** The text between separators. *)
Lemma split_free c word l p : c ∉ word → p ∈ split_from c word l → c ∉ p.
Proof.
  revert word; induction l as [|x l IH]; intros word Hw; cbn.
  { rewrite list_elem_of_singleton. intros ->. by rewrite elem_of_reverse. }
  case_decide.
  - rewrite elem_of_cons. intros [->|Hin]; [by rewrite elem_of_reverse|]. by eapply IH; [apply not_elem_of_nil|].
  - apply IH. rewrite elem_of_cons. intros [?|?]; [by subst|done].
Qed.

Lemma node_roundtrip `{PeerTextLaws} node :
  node_wf node → fits 16 (primary_port node) → fits 16 (secondary_port node) →
  node_from_str (show_node node) = Ok node.
Proof.
  intros [Hip Hprivate] Hp Hs. unfold node_from_str, show_node.
  assert (32 ∉ chars "None") as Hnone by (apply (bool_decide_unpack _); vm_compute; exact I).
  rewrite split_join; [|done|].
  2: { repeat constructor; try apply peer_no_space; try apply show_ipv4_free; try apply show_uint_free;
       try (unfold is_digit; lia); try done.
       destruct (private_ipv4_addr node); [apply show_ipv4_free; unfold is_digit; lia|done]. }
  cbn [next_part mbind res_bind]. rewrite peer_roundtrip. cbn [ok_or mbind res_bind].
  rewrite ipv4_roundtrip by done. cbn [ok_or mbind res_bind].
  assert (private_ipv4_from_str (show_private_ipv4 (private_ipv4_addr node)) = Ok (private_ipv4_addr node)) as Hpriv.
  { unfold private_ipv4_from_str. destruct (private_ipv4_addr node) as [ip|]; [|done]. cbn [show_private_ipv4]. rewrite decide_False.
    - by rewrite ipv4_roundtrip.
    - intros Heq. pose proof (ipv4_roundtrip ip Hprivate) as Hr. rewrite Heq in Hr. vm_compute in Hr. done. }
  rewrite Hpriv. cbn [mbind res_bind]. rewrite !uint_roundtrip by done. cbn. by destruct node.
Qed.

Lemma namespace_exact `{Hex} s ns :
  namespace_from_str s = Ok ns ↔
  ∃ operator_id id bytes idx, s = operator_id ++ [47] ++ id ∧ (47 ∉ operator_id) ∧ (47 ∉ id) ∧
    hex_decode 20 operator_id = Some bytes ∧ uint_from_str 8 id = Some idx ∧ ns = bytes ++ [idx].
Proof.
  split.
  - unfold namespace_from_str. destruct (str_split 47 s) as [|op [|id [|]]] eqn:Hs; try done.
    intros Hok. apply bind_Ok in Hok as (bytes & Hb & Hok). apply bind_Ok in Hok as (idx & Hi & <-%Ok_inj).
    unfold ok_or in *. destruct (hex_decode 20 op) as [b|] eqn:Hhex; [|done]. apply Ok_inj in Hb as ->.
    destruct (uint_from_str 8 id) as [k|] eqn:Hk; [|done]. apply Ok_inj in Hi as ->.
    exists op, id, bytes, idx. split_and!; try done.
    + pose proof (split_from_join 47 [] s) as Hj. unfold str_split in Hs. rewrite Hs in Hj. by cbn in Hj.
    + apply (split_free 47 [] s); [apply not_elem_of_nil|]. unfold str_split in Hs. rewrite Hs. left.
    + apply (split_free 47 [] s); [apply not_elem_of_nil|]. unfold str_split in Hs. rewrite Hs. right. left.
  - intros (op & id & bytes & idx & -> & Hop & Hid & Hhex & Hidx & ->). unfold namespace_from_str.
    change (op ++ [47] ++ id) with (join_on 47 [op; id]). rewrite split_join; [|done|by repeat constructor].
    rewrite Hhex. cbn. by rewrite Hidx.
Qed.

(** C37. Reading and printing agree.  A node that the owner's tool prints can be given
    back to it as an argument and is that node; a namespace is read from exactly the
    texts of the form [operator/index] with twenty bytes in hexadecimal and a decimal
    byte, and is those 21 bytes. *)
Theorem texts_read_exactly `{PeerTextLaws, HexLaws} node s ns :
  node_wf node → fits 16 (primary_port node) → fits 16 (secondary_port node) →
  node_from_str (show_node node) = Ok node ∧
  (namespace_from_str s = Ok ns ↔
    ∃ operator_id id bytes idx, s = operator_id ++ [47] ++ id ∧ (47 ∉ operator_id) ∧ (47 ∉ id) ∧
      hex_decode 20 operator_id = Some bytes ∧ uint_from_str 8 id = Some idx ∧ ns = bytes ++ [idx]) ∧
  (namespace_from_str s = Ok ns → namespace_wf ns).
Proof.
  intros Hwf Hp Hs. split_and!.
  - by apply node_roundtrip.
  - apply namespace_exact.
  - intros (op & id & bytes & idx & _ & _ & _ & Hhex & Hidx & ->)%namespace_exact. split.
    + rewrite length_app, (hex_length _ _ _ Hhex). done.
    + apply Forall_app. split; [by eapply hex_bytes|]. constructor; [|done]. by apply (uint_from_str_fits 8 id).
Qed.

(** * Witnesses *)

#[local] Existing Instance toy_peer_ids.

(** Peer ids in decimal, with their sign. *)
Definition toy_peer_text : @PeerText toy_peer_ids := {|
  peer_from_str s := match s with
                     | c :: s => n ← read_digits 0 s; Some (if decide (c = 45) then - n else n)
                     | [] => None
                     end : option (@PeerId toy_peer_ids);
  peer_to_str p := (if decide (p < 0)%Z then 45 else 43) :: show_uint (Z.abs p);
|}.

Lemma toy_peer_text_laws : @PeerTextLaws toy_peer_ids toy_peer_text.
Proof.
  split; cbn [peer_from_str peer_to_str toy_peer_text].
  - intros p. rewrite show_uint_read by lia. cbn [mbind option_bind]. f_equal. repeat case_decide; try done; lia.
  - intros p. apply not_elem_of_cons. split; [by case_decide|]. apply show_uint_free. unfold is_digit. lia.
Qed.

(** Two characters per byte, from [a] on. *)
Fixpoint toy_unhex (s : list Z) : option (list Z) :=
  match s with
  | [] => Some []
  | hi :: lo :: s =>
      if decide (97 ≤ hi < 113 ∧ 97 ≤ lo < 113)
      then b ← toy_unhex s; Some ((hi - 97) * 16 + (lo - 97) :: b) else None
  | _ => None
  end.

Definition toy_hex : Hex := {|
  hex_decode n s := b ← toy_unhex s; if decide (length b = n) then Some b else None |}.

Lemma toy_unhex_bytes k s b : (length s ≤ k)%nat → toy_unhex s = Some b → Forall is_byte b.
Proof.
  revert s b; induction k as [|k IH]; intros [|hi [|lo s]] b Hk; cbn in *; try done; try lia; try by intros [= <-].
  case_decide as Hr; [|done]. destruct (toy_unhex s) as [b'|] eqn:Hb; [|done]. cbn. intros [= <-].
  constructor; [unfold is_byte, fits; lia|]. eapply IH; [|exact Hb]. lia.
Qed.

Lemma toy_hex_laws : @HexLaws toy_hex.
Proof.
  split; cbn; intros n s b; destruct (toy_unhex s) as [b'|] eqn:Hb; cbn; try done; case_decide; try done;
    intros [= <-]; [done|]. by eapply toy_unhex_bytes.
Qed.

#[local] Existing Instance toy_peer_text.
#[local] Existing Instance toy_peer_text_laws.
#[local] Existing Instance toy_hex.
#[local] Existing Instance toy_hex_laws.

(** The text of the zero address and index 7. *)
Definition toy_namespace : list Z := replicate 40 97 ++ [47; 55].

Lemma texts_read_exactly_witness :
  node_from_str (show_node (toy_node 31 134283265)) = Ok (toy_node 31 134283265) ∧
  namespace_wf (replicate 20 0 ++ [7]).
Proof.
  destruct (texts_read_exactly (toy_node 31 134283265) toy_namespace (replicate 20 0 ++ [7]))
    as (Hnode & _ & Hwf); [split; cbn; done|cbn; done|cbn; done|].
  split; [exact Hnode|]. apply Hwf. vm_compute. reflexivity.
Defined.
