(* ===== verification/Node.v ===== *)
(** Node: how a node is put together (src/crates/node/src/lib.rs), and the servers
    of a database (src/crates/db/src/lib.rs).

    A node serves the coordinator, replica and cluster API on its primary server,
    and the coordinator, replica and metrics API on its secondary server; its
    connections to the other nodes of the cluster are made when their addresses
    are decoded from the chain; its settings set the bandwidth of migrations. *)
From S2P Require Import Prelude External Sharding SmartContract NodeOperator NodeOperators Keyspace Settings Migration View.
From S2P Require Import Concrete ViewInvariant Rpc Throttle RpcServer RpcClient RpcCall StorageApi Replica RpcStorage.
From S2P Require Import ClusterApi Metrics.
From stdpp Require Import prelude gmap list strings.

(** * APIs *)

(** The names of the APIs; all are short enough for [ApiName::new]. *)
Definition api_name (s : string) : ApiName := default [] (res_ok (api_name_new (chars s))).
Definition COORDINATOR : ApiName := api_name "Coordinator".
Definition REPLICA : ApiName := api_name "Replica".
Definition DATABASE : ApiName := api_name "Database".
Definition CLUSTER : ApiName := api_name "Cluster2".
Definition METRICS : ApiName := api_name "Metrics".

Section node.
Context `{PeerIds, Governor}.

(** * Configuration *)

(** A connection to a peer: where it goes and its state. *)
Record Outbound := {
  ob_addr : Z * Z;
  ob_peer_id : PeerId;
  ob_conn : RpcClient.Conn;
}.

(** What [rpc_client::Config] holds for [new_connection], in milliseconds. *)
Record ClientConfig := { reconnect_interval : Z; max_concurrent_rpcs : Z }.

Definition client_new_connection (cfg : ClientConfig) (addr : Z * Z) (peer : PeerId) : Outbound :=
  {| ob_addr := addr; ob_peer_id := peer; ob_conn := new_connection (reconnect_interval cfg) |}.

Definition replica_client_cfg : ClientConfig := {| reconnect_interval := 100; max_concurrent_rpcs := 10000 |}.
Definition replica_low_prio_client_cfg : ClientConfig := {| reconnect_interval := 1000; max_concurrent_rpcs := 200 |}.
Definition database_client_cfg : ClientConfig := {| reconnect_interval := 100; max_concurrent_rpcs := 5000 |}.
Definition database_low_prio_client_cfg : ClientConfig := {| reconnect_interval := 100; max_concurrent_rpcs := 200 |}.
Definition metrics_client_cfg : ClientConfig := {| reconnect_interval := 1; max_concurrent_rpcs := 300 |}.

(** What of [Config] the node's parts depend on. *)
Record NodeConfig := {
  nc_encryption_key : list Z;
  nc_public_address : option Z;
  nc_database_address : Z;
  nc_database_peer_id : PeerId;
  nc_database_primary_port : Z;
  nc_database_secondary_port : Z;
}.

Record AppConfig := {
  ac_encryption_key : list Z;
  ac_database_connection : Outbound;
  ac_database_low_prio_connection : Outbound;
  ac_database_metrics_connection : Outbound;
  ac_migration_tx_limiter : BandwidthLimiter;
  ac_migration_rx_limiter : BandwidthLimiter;
  ac_public_address : option Z;
}.

Definition try_into_app (self : NodeConfig) : AppConfig :=
  let primary := (nc_database_address self, nc_database_primary_port self) in
  let secondary := (nc_database_address self, nc_database_secondary_port self) in
  {| ac_encryption_key := nc_encryption_key self;
     ac_database_connection := client_new_connection database_client_cfg primary (nc_database_peer_id self);
     ac_database_low_prio_connection :=
       client_new_connection database_low_prio_client_cfg secondary (nc_database_peer_id self);
     ac_database_metrics_connection :=
       client_new_connection metrics_client_cfg secondary (nc_database_peer_id self);
     ac_migration_tx_limiter := limiter_new 0;
     ac_migration_rx_limiter := limiter_new 0;
     ac_public_address := nc_public_address self |}.

(** [update_settings]: the limiters are shared by all low-priority connections. *)
Definition update_settings (self : AppConfig) (settings : Settings) : AppConfig :=
  {| ac_encryption_key := ac_encryption_key self;
     ac_database_connection := ac_database_connection self;
     ac_database_low_prio_connection := ac_database_low_prio_connection self;
     ac_database_metrics_connection := ac_database_metrics_connection self;
     ac_migration_tx_limiter := set_bps (ac_migration_tx_limiter self) (migration_tx_bandwidth settings);
     ac_migration_rx_limiter := set_bps (ac_migration_rx_limiter self) (migration_rx_bandwidth settings);
     ac_public_address := ac_public_address self |}.

(** * Nodes of the cluster *)

Record AppNode := {
  an_peer_id : PeerId;
  an_replica_connection : Outbound;
  an_replica_low_prio_connection : Outbound;
  an_metrics_connection : Outbound;
}.

Definition LOCALHOST : Z := 2130706433.

Definition same_socket_addr (ip port : Z) (expected_socket_addr : Z * Z) : bool :=
  bool_decide (ip = expected_socket_addr.1) && bool_decide (port = expected_socket_addr.2).

(** The address to connect to: the loopback one for the node itself. *)
Definition connect_addr (public_address : option Z) (port : Z) (socket_addr : Z * Z) : Z * Z :=
  match public_address with
  | Some addr => if same_socket_addr addr port socket_addr then (LOCALHOST, socket_addr.2) else socket_addr
  | None => socket_addr
  end.

Definition app_new_node (self : AppConfig) (operator_id : Z) (node : Node) : AppNode :=
  let primary := connect_addr (ac_public_address self) (primary_port node) (primary_socket_addr node) in
  let secondary := connect_addr (ac_public_address self) (secondary_port node) (secondary_socket_addr node) in
  {| an_peer_id := peer_id node;
     an_replica_connection := client_new_connection replica_client_cfg primary (peer_id node);
     an_replica_low_prio_connection :=
       client_new_connection replica_low_prio_client_cfg secondary (peer_id node);
     an_metrics_connection := client_new_connection metrics_client_cfg secondary (peer_id node) |}.

(** [impl wcn_cluster::Config for AppConfig]. *)
Definition app_config (self : AppConfig) : NodeOperator.Config AppNode := {|
  cfg_encryption_key := ac_encryption_key self;
  cfg_new_node := app_new_node self;
  cfg_node_peer_id := an_peer_id |}.

(** [get_replica_connection] of the migration manager, and the connection of the
    coordinator ([AsRef]). *)
Definition get_replica_connection (node : AppNode) : Outbound := an_replica_low_prio_connection node.

(** * Servers *)

Context {S : Type}.
Implicit Types view : View AppNode S.

Definition coordinator_api view : ApiName * Handler :=
  (COORDINATOR, storage_handle_connection (coordinator_new_storage_api view)).
Definition replica_api view : ApiName * Handler :=
  (REPLICA, storage_handle_connection (replica_new_storage_api an_peer_id view)).
Definition cluster_api : ApiName * Handler := (CLUSTER, λ _, Accepted).
Definition metrics_api (provider : Provider) : ApiName * Handler :=
  (METRICS, metrics_handle_connection provider).

(** [contains_node] of the cluster, as the authorization of the metrics. *)
Definition cluster_contains_node view (peer : PeerId) : bool :=
  contains_node an_peer_id (v_node_operators view) peer.

Definition primary_rpc_server view : Router :=
  serve_apis (coordinator_api view) [replica_api view; cluster_api].

Definition secondary_rpc_server view (provider : Provider) : Router :=
  serve_apis (coordinator_api view) [replica_api view; metrics_api provider].

Definition primary_rpc_server_cfg : FilterConfig :=
  {| max_connections := 2000; max_connections_per_ip := 1000; max_connection_rate_per_ip := 1000 |}.
Definition secondary_rpc_server_cfg : FilterConfig :=
  {| max_connections := 800; max_connections_per_ip := 400; max_connection_rate_per_ip := 400 |}.

(** The servers of a database: every [StorageApi] is a [Factory] of itself. *)
Definition database_api : ApiName * Handler := (DATABASE, storage_handle_connection (λ _, Ok ())).

Definition db_primary_rpc_server : Router := serve_apis database_api [].
Definition db_secondary_rpc_server (rendered : Text) : Router :=
  serve_apis database_api [metrics_api (db_metrics_provider rendered)].

(** Every node with the public address of this node is taken for this node: the
    port is compared with itself. *)
Lemma shared_address_is_local cfg operator_id node :
  ac_public_address cfg = Some (ipv4_addr node) →
  ob_addr (an_replica_connection (app_new_node cfg operator_id node)) = (LOCALHOST, primary_port node) ∧
  ob_peer_id (an_replica_connection (app_new_node cfg operator_id node)) = peer_id node.
Proof.
  intros Haddr. unfold app_new_node, connect_addr, same_socket_addr. rewrite Haddr. cbn.
  by rewrite !bool_decide_eq_true_2.
Qed.

(** * Theorems *)

(** The code of the rejection of an unauthorized peer. *)
Definition unauthorized_code : Z := error_code_as_u8 CodeUnauthorized.

Definition access (allowed : bool) (code : Z) : res RpcClientError () :=
  if allowed then Ok () else Err (CeConnectionRejected code).

Lemma storage_handler_seen (new_storage_api : PeerId → res Error ()) allowed peer :
  new_storage_api peer = ensure allowed (error_new Unauthorized) →
  decision_seen (storage_handle_connection new_storage_api peer) = access allowed unauthorized_code ∧
  ∀ reason, storage_handle_connection new_storage_api peer = Rejected reason → fits 8 reason.
Proof.
  unfold storage_handle_connection, access. intros ->. destruct allowed; cbn; (split; [done|]).
  - done.
  - by intros reason [= <-].
Qed.

Lemma metrics_handler_seen provider peer :
  decision_seen (metrics_handle_connection provider peer) =
    access (p_is_authorized provider peer) (rejection_as_u8 MaRejectUnauthorized) ∧
  ∀ reason, metrics_handle_connection provider peer = Rejected reason → fits 8 reason.
Proof.
  unfold metrics_handle_connection, new_metrics_api, access.
  destruct (p_is_authorized provider peer); cbn; (split; [done|]).
  - done.
  - by intros reason [= <-].
Qed.

(** What a client learns when it asks a server for an API. *)
Definition asks (router : Router) (client_peer server_peer : PeerId) (name : ApiName) : res RpcClientError () :=
  connect PROTOCOL_VERSION name server_peer server_peer (λ rx, (accept_connection router client_peer rx).1).

Lemma asks_exact api more name client_peer server_peer :
  length name = 16 →
  (∀ a reason, a ∈ api :: more → a.2 client_peer = Rejected reason → fits 8 reason) →
  asks (serve_apis api more) client_peer server_peer name =
    match served_api api more name with
    | Some a => decision_seen (a.2 client_peer)
    | None => Err CeUnknownApi
    end.
Proof.
  intros Hname Hreasons. unfold asks.
  destruct (handshake_spec api more name server_peer server_peer client_peer PROTOCOL_VERSION) as [-> _];
    [done|done|done|]. by rewrite !decide_True.
Qed.

Lemma node_rejections view provider client_peer a reason :
  a ∈ [coordinator_api view; replica_api view; cluster_api; metrics_api provider; database_api] →
  a.2 client_peer = Rejected reason → fits 8 reason.
Proof.
  rewrite !elem_of_cons, elem_of_nil. intros [->|[->|[->|[->|[->|[]]]]]]; cbn [snd].
  - by apply (storage_handler_seen _ (contains_client (v_node_operators view) client_peer)).
  - by apply (storage_handler_seen _ (contains_node an_peer_id (v_node_operators view) client_peer)).
  - done.
  - apply metrics_handler_seen.
  - by apply (storage_handler_seen _ true).
Qed.

Ltac served_tac :=
  unfold served_api; cbn [reverse rev_append rev app]; rewrite !filter_cons;
  cbn [fst coordinator_api replica_api cluster_api metrics_api database_api];
  repeat case_decide; cbn [head filter list_filter]; try done; congruence.

(** C11. Who reaches what: on both servers of a node a peer reaches the replica API
    exactly if it is a node of the cluster and the coordinator API exactly if it is
    a client of some operator, and learns that it is unauthorized otherwise; the
    cluster API, on the primary server only, is open to everyone; the metrics, on
    the secondary server only, are open to the nodes of the cluster; no other API
    is served.  A database lets everyone in. *)
Theorem node_access view database rendered text client_peer server_peer name :
  length name = 16 →
  let is_node := cluster_contains_node view client_peer in
  let is_client := contains_client (v_node_operators view) client_peer in
  let provider := node_metrics_provider database rendered (cluster_contains_node view) in
  asks (primary_rpc_server view) client_peer server_peer name =
    (if decide (name = CLUSTER) then Ok ()
     else if decide (name = REPLICA) then access is_node unauthorized_code
     else if decide (name = COORDINATOR) then access is_client unauthorized_code
     else Err CeUnknownApi) ∧
  asks (secondary_rpc_server view provider) client_peer server_peer name =
    (if decide (name = METRICS) then access is_node (rejection_as_u8 MaRejectUnauthorized)
     else if decide (name = REPLICA) then access is_node unauthorized_code
     else if decide (name = COORDINATOR) then access is_client unauthorized_code
     else Err CeUnknownApi) ∧
  asks (db_secondary_rpc_server text) client_peer server_peer name =
    (if decide (name = METRICS) then Ok ()
     else if decide (name = DATABASE) then Ok ()
     else Err CeUnknownApi).
Proof.
  intros Hname is_node is_client provider.
  destruct (storage_handler_seen (coordinator_new_storage_api view) is_client client_peer eq_refl) as [Hcoord _].
  destruct (storage_handler_seen (replica_new_storage_api an_peer_id view) is_node client_peer eq_refl) as [Hrep _].
  destruct (metrics_handler_seen provider client_peer) as [Hmet _].
  unfold primary_rpc_server, secondary_rpc_server, db_secondary_rpc_server.
  assert (∀ p a reason, a ∈ [coordinator_api view; replica_api view; cluster_api; metrics_api p; database_api] →
    a.2 client_peer = Rejected reason → fits 8 reason) as Hrej by (intros p a reason; apply node_rejections).
  split_and!.
  - rewrite asks_exact; [|done|intros a reason Ha; apply (Hrej provider); revert Ha; rewrite !elem_of_cons; tauto]. served_tac.
  - rewrite asks_exact; [|done|intros a reason Ha; apply (Hrej provider); revert Ha; rewrite !elem_of_cons; tauto]. served_tac.
  - rewrite asks_exact; [|done|intros a reason Ha; apply (Hrej (db_metrics_provider text)); revert Ha; rewrite !elem_of_cons; tauto]. served_tac.
Qed.
End node.

(** * Settings *)

Section limits.
Context `{PeerIds, Governor, Ff1, Hashing, UnixTime}.
Context `{!Postcard DataV0, !Postcard DataV1, !Postcard ExtraV0, !Postcard ExtraV1}.
Context {N S : Type} `{!NodeOperator.Config N, !Calculate S}.
Implicit Types view : View N S.

(** [View::try_from_sc] and [View::apply_event] with their effect on the
    configuration: the former calls [update_settings] once the operators and the
    settings are decoded, before the rest of the view is. *)
Definition node_try_from_sc (cfg : AppConfig) (cv : ClusterView)
    : AppConfig * res view_from_sc_error (View N S) :=
  let decoded :=
    slots ← res_map (option_mapM operator_from_sc) (cv_node_operators cv);
    _ ← map_err TNodeOperatorsCreation (from_slots (N := N) slots);
    map_err TInvalidSettings (settings_try_from_sc (cv_settings cv)) in
  (match decoded with Ok settings => update_settings cfg settings | _ => cfg end, view_try_from_sc cv).

Definition node_apply_event (cfg : AppConfig) view (event : Event)
    : AppConfig * res view_error (View N S) :=
  let r := apply_event view event in
  (match event, r with
   | EvSettingsUpdated _, Ok view => update_settings cfg (v_settings view)
   | _, _ => cfg
   end, r).

(** The events the task applies, until one fails. *)
Fixpoint node_apply_events (cfg : AppConfig) view (events : list Event) : AppConfig * View N S :=
  match events with
  | [] => (cfg, view)
  | event :: events =>
      match node_apply_event cfg view event with
      | (cfg, Ok view) => node_apply_events cfg view events
      | (cfg, _) => (cfg, view)
      end
  end.

Definition limits_follow (cfg : AppConfig) view : Prop :=
  limiter_bps (ac_migration_tx_limiter cfg) = migration_tx_bandwidth (v_settings view) ∧
  limiter_bps (ac_migration_rx_limiter cfg) = migration_rx_bandwidth (v_settings view).

Lemma set_bps_bps l b : limiter_bps (set_bps l b) = b.
Proof. unfold set_bps. repeat case_decide; cbn; congruence. Qed.

Lemma update_settings_follow cfg view : limits_follow (update_settings cfg (v_settings view)) view.
Proof. split; apply set_bps_bps. Qed.

Lemma apply_event_settings view event view' :
  apply_event view event = Ok view' → (∀ evt, event ≠ EvSettingsUpdated evt) → v_settings view' = v_settings view.
Proof.
  unfold apply_event. case_decide; [done|]. intros (w & Hw & <-%Ok_inj)%bind_Ok Hne. cbn.
  destruct event; unfold apply_MigrationStarted, apply_MigrationDataPullCompleted, apply_MigrationCompleted,
    apply_MigrationAborted, apply_MaintenanceStarted, apply_MaintenanceFinished, apply_NodeOperatorAdded,
    apply_NodeOperatorUpdated, apply_NodeOperatorRemoved in Hw; mon_inv; try done.
  - destruct (mig_complete (v_migration view)) as [k m]. by mon_inv.
  - by destruct (Hne evt).
Qed.

(** The bandwidth of migrations is that of the settings: after a view is read
    from the chain, and after every event applied to it, the two limiters of the
    node allow exactly what the settings of its current view say, also when a later
    event fails. *)
Theorem limits_follow_view cfg cv view events :
  (node_try_from_sc cfg cv).2 = Ok view →
  let '(cfg', view') := node_apply_events (node_try_from_sc cfg cv).1 view events in
  limits_follow cfg' view'.
Proof.
  intros Hread. assert (limits_follow (node_try_from_sc cfg cv).1 view) as Hf.
  { unfold node_try_from_sc in *. cbn [fst snd] in *. unfold view_try_from_sc in Hread.
    apply bind_Ok in Hread as (slots & Hslots & Hread). apply bind_Ok in Hread as (ops & Hops & Hread).
    apply bind_Ok in Hread as (settings & Hset & Hread). rewrite Hslots. cbn [mbind res_bind].
    rewrite Hops. cbn [mbind res_bind]. rewrite Hset.
    assert (v_settings view = settings) as <-; [|apply update_settings_follow].
    destruct (cv_keyspaces cv) as [k0 k1]. apply bind_Ok in Hread as (pver & _ & Hread).
    destruct (if decide (pver mod 2 = 0)%Z then (k0, k1) else (k1, k0)) as [prim sec]. by mon_inv. }
  clear Hread. revert Hf. generalize (node_try_from_sc cfg cv).1. revert view.
  induction events as [|event events IH]; intros view cfg' Hf; cbn; [done|].
  unfold node_apply_event. destruct (apply_event view event) as [view'|e|] eqn:Happ.
  - apply IH. destruct event; try (destruct Hf as [? ?]; split; rewrite (apply_event_settings _ _ _ Happ); done).
    apply update_settings_follow.
  - by destruct event.
  - by destruct event.
Qed.
End limits.

(** * Witnesses *)

#[local] Existing Instance toy_peer_ids.
#[local] Existing Instance toy_governor.
#[local] Existing Instance toy_ff1.
#[local] Existing Instance toy_hashing.
#[local] Existing Instance toy_unix_time.
#[local] Existing Instance toy_config.
#[local] Existing Instance toy_d0.
#[local] Existing Instance toy_d1.
#[local] Existing Instance toy_e0.
#[local] Existing Instance toy_e1.

Definition toy_node_config : NodeConfig := {|
  nc_encryption_key := [42]%Z; nc_public_address := None; nc_database_address := LOCALHOST;
  nc_database_peer_id := 3%Z; nc_database_primary_port := 3001; nc_database_secondary_port := 3002 |}.
Definition toy_app : AppConfig := try_into_app toy_node_config.

(** A cluster of one node, peer 7, with a client, peer 8. *)
Definition toy_app_node : AppNode := app_new_node toy_app 1
  {| peer_id := 7%Z; ipv4_addr := 5; private_ipv4_addr := None; primary_port := 3010; secondary_port := 3011 |}.
Definition toy_app_view : View AppNode () := {|
  v_node_operators := {| id_to_idx := [(1, 0)]%Z; slots := [Some {| op_id := 1%Z; op_name := "a";
      op_clients := [{| client_peer_id := 8%Z; authorized_namespaces := [] |}];
      op_nodes := [toy_app_node]; op_counter := 0%Z |}]; ops_counter := 0%Z |};
  v_ownership := v_ownership toy_view; v_settings := settings_default;
  v_keyspace := v_keyspace toy_view; v_keyspace_version := 7%Z; v_migration := v_migration toy_view;
  v_maintenance := None; v_cluster_version := 40%Z |}.

Lemma node_access_witness :
  asks (primary_rpc_server toy_app_view) 7%Z 7%Z REPLICA = Ok () ∧
  asks (primary_rpc_server toy_app_view) 8%Z 7%Z REPLICA = Err (CeConnectionRejected unauthorized_code).
Proof.
  split.
  - refine (eq_trans (proj1 (node_access toy_app_view (λ _, Err ma_not_found) [] [] 7%Z 7%Z REPLICA eq_refl)) _).
    vm_compute. reflexivity.
  - refine (eq_trans (proj1 (node_access toy_app_view (λ _, Err ma_not_found) [] [] 8%Z 7%Z REPLICA eq_refl)) _).
    vm_compute. reflexivity.
Defined.

Definition faster : ScSettings :=
  {| sc_max_node_operator_data_bytes := 4096%Z;
     sc_extra := 1%Z :: toy_bits (encode (settings_to_extra_v1
       {| max_node_operator_data_bytes := max_node_operator_data_bytes settings_default;
          event_propagation_latency := event_propagation_latency settings_default;
          clock_skew := clock_skew settings_default; migration_concurrency := migration_concurrency settings_default;
          migration_tx_bandwidth := 77; migration_rx_bandwidth := 78 |})) |}.

Lemma limits_follow_view_witness :
  ∃ v, (node_try_from_sc (N := Z) (S := ()) toy_app toy_cluster_view).2 = Ok v ∧
    let '(cfg, v') := node_apply_events (node_try_from_sc (N := Z) (S := ()) toy_app toy_cluster_view).1 v
      [EvSettingsUpdated {| su_settings := faster; su_cluster_version := 41%Z |}] in
    limits_follow cfg v'.
Proof.
  assert (is_ok (view_try_from_sc (N := Z) (S := ()) toy_cluster_view) = true) as Hok by (vm_compute; reflexivity).
  destruct (view_try_from_sc (N := Z) (S := ()) toy_cluster_view) as [v|?|] eqn:Hv; [|discriminate Hok..].
  exists v. split; [exact Hv|].
  exact (limits_follow_view toy_app toy_cluster_view v _ Hv).
Defined.
